(* ===== verification/_CoqProject ===== *)
-Q . S2P
Prelude.v
BunStrings.v
Wyhash.v
SemverString.v
SemverVersion.v
SemverOrder.v
SemverVersionFacts.v
SemverCoerce.v
SemverStore.v
SemverDiff.v
SemverRange.v
SemverQuery.v
SemverQueryFacts.v
SemverParse.v
SemverParseFacts.v
SemverIntersects.v
SemverIntersectsFacts.v
SemverSubsetFacts.v
SemverFindings.v
IntrusiveHeap.v
TimerOrder.v
IntrusiveHeapFacts.v
H2Wire.v
H2Stream.v
H2Flow.v
H2Hpack.v
H2Fields.v
H2FieldsFacts.v
H2Conn.v
H2Embedder.v
H2ConnFacts.v
H2ConnSafe.v
H2Report.v
H2Send.v
ZigHashMap.v
ZigHashMapFacts.v
Base64.v
Base64Facts.v
ThreadModel.v
ThreadMutex.v
ThreadCondition.v
ThreadRwLock.v
ThreadWaitGroup.v
ThreadSemaphore.v
ThreadResetEvent.v
LinearFifo.v
LinearFifoFacts.v
ThreadChannel.v
ThreadSignalRing.v
ThreadUnboundedQueue.v
ValkeyProtocol.v
ValkeyReaderFacts.v
ValkeyScannerFacts.v
ValkeyResume.v
ValkeyCommand.v
ValkeyData.v
ValkeyPipeline.v
ValkeyPipelineFacts.v
