(* ===== verification/Prelude.v ===== *)
(** * Verification of the core of Bun

    Bun is a JavaScript runtime, package manager, bundler and test runner; this
    development is about its Rust sources under [src/]. It models, as executable
    functions, the parts in which a small amount of code carries a contract that
    the rest relies on, and proves those contracts. Each file names the source
    file it translates; the definitions keep the names of the Rust functions.

    ** The parts and their files

    - _Versions and ranges of the package manager_ ([src/semver]). [SemverString]
      has the eight-byte packed strings of [lib.rs] with the interning buffer and
      the two-pass builder; [SemverVersion] has [Version.rs] (parsing, printing,
      ordering, coercion, pinning), [SemverDiff] its coloured form, [SemverStore]
      the storing of versions through a string builder (the interface
      [StringBuilder], which both builders discharge); [SemverRange] has the
      comparators of [SemverRange.rs], [SemverQuery] and [SemverParse] the groups,
      tokens and the parser of [SemverQuery.rs], [SemverIntersects] the intervals
      of [intersects.rs]. The files named [...Facts], with [SemverOrder] and
      [SemverCoerce], hold the theorems; [SemverFindings] evaluates the inputs on
      which the code departs from its comments. A range calls the ordering of
      versions, a query calls ranges, the parser builds queries, the set operations
      read queries.
    - _Hashing_ ([src/wyhash/lib.rs]): [Wyhash], on which the string pool relies.
    - _Byte strings_ ([src/bun_core], [src/bun_alloc]): [BunStrings].
    - _The hash map_ ([src/collections/zig_hash_map.rs]): [ZigHashMap], open
      addressing with metadata bytes and tombstones, generic in its key through the
      class [HashContext]; [ZigHashMapFacts] with the finite map it represents.
    - _Base64 and VLQ_ ([src/base64/lib.rs]): [Base64], the scalar codecs over a
      destination buffer and the variable-length quantities of source maps;
      [Base64Facts] reads both sides as the same string of bits.
    - _The ring buffer_ ([src/collections/linear_fifo.rs]): [LinearFifo], generic in
      the kind of its buffer through the class [LinearFifoBuffer];
      [LinearFifoFacts] with the list of items it represents.
    - _Threads_ ([src/threading]): [ThreadModel] has what they share, threads that
      step one atomic access at a time, a futex, schedules and sums over threads;
      [ThreadMutex], [ThreadCondition], [ThreadRwLock], [ThreadWaitGroup],
      [ThreadSemaphore] and [ThreadResetEvent] have the primitives of the files of
      these names, [ThreadChannel] the channel over a ring buffer,
      [ThreadSignalRing] and [ThreadUnboundedQueue] the two lock-free queues.
      Users of the mutex see its holder only, and users of the condition variable
      its waiters and signals, which is what the theorems of those files promise.
    - _The timer heap of the event loop_ ([src/io/heap.rs]): [IntrusiveHeap] over a
      store of linked nodes, with the interface [HeapOrder] that says what the heap
      needs of a client's comparator; [TimerOrder] has the comparators of its two
      clients ([src/event_loop/EventLoopTimer.rs] with the epochs that
      [src/runtime/timer/mod.rs] hands out, [src/install/lifecycle_script_runner.rs])
      and discharges the interface; [IntrusiveHeapFacts] has the forests that the
      nodes represent and the theorems, proved against the interface.
    - _The HTTP/2 engine_ ([src/runtime/api/bun/h2], [src/http/lshpack.rs] and the
      field checks of [h2_frame_parser.rs] and [http_types/lib.rs]): [H2Wire]
      ([wire.rs], [settings.rs]), [H2Stream] ([stream.rs]), [H2Flow]
      ([flow_control.rs]), [H2Hpack] ([hpack.rs], [lshpack.rs]), [H2Fields] (the
      header fields), [H2Conn] ([connection.rs]: [receive], [dispatch], every frame
      handler and the outbound operations), [H2Embedder] (what [h2_frame_parser.rs]
      writes into the engine's fields). [H2FieldsFacts], [H2ConnFacts],
      [H2ConnSafe], [H2Report] and [H2Send] hold the theorems.
    - _The Valkey client_ ([src/valkey/valkey_protocol.rs],
      [src/runtime/valkey_jsc/ValkeyCommand.rs] and [valkey.rs],
      [src/collections/vec_ext.rs]): [ValkeyProtocol] has the reader of replies, a
      state and error monad over its buffer, and the resumable scanner;
      [ValkeyReaderFacts], [ValkeyScannerFacts] and [ValkeyResume] have their
      theorems; [ValkeyCommand] has the serialization of commands, [ValkeyData] the
      cutting of the socket's data into replies, [ValkeyPipeline] the queues, the
      sending of commands and the matching of replies, and [ValkeyPipelineFacts] the
      runs of a client. The data path calls the scanner and the reader; the queues
      hold serialized commands.

    This file has what the others share: byte strings, machine integers with their
    wrap-around, little-endian numbers, slices that fail out of range, the laws of
    comparison functions ([CmpLaws]) and their lexicographic combination.

    ** How code becomes definitions

    A byte is a [Z] in range, a byte string a list of them; [u64], [u32] and [i64]
    are [Z] with the wrap-around, saturation or overflow of each operation written
    out. A panic (an index out of range, an overflow that is checked, a failed
    assertion, a dangling pointer) is [None], so that a theorem that gives [Some]
    also says that the code does not panic. In the parsers of versions and ranges, the
    base64 codecs, the ring buffer, the HTTP/2 engine and the Valkey reader every
    index, every slice and every unsigned subtraction of the source is such a check
    ([slice_range], [slice_from], [slice_to], [usize_sub] below, or a lookup), so that
    a dropped length guard makes their theorems false. State is passed explicitly: the heap is
    a state transformer of a store from addresses to nodes, so that aliasing is as
    in the code; the HTTP/2 connection is a record in a state monad that also
    records, in order, the calls on the embedder.

    A thread is the place it is at, with the values its next access needs; one
    definition [next] per primitive gives the steps from each place, one for each
    atomic access, a weak exchange that may fail among them. A step relation
    interleaves any number of threads; sleepers are woken by others or for no
    reason. Memory is sequentially consistent: the orderings the code asks for are
    not modelled.

    What is not under [src/] is a parameter. The C library ls-hpack is the class
    [Lshpack], of which nothing is assumed; the embedder of the HTTP/2 engine and
    the clock are the record [Env], any function of the calls so far, whose laws
    [EnvLaws] say only that a hash map iterates over its keys.
    The floating-point numbers of the Valkey reader and the engine's parser for them
    are the class [Float64], of which nothing is assumed; what its socket takes of a
    write is any function that takes no more than it is given. The handlers of a
    reply, parameters of [ValkeyData], are those of [ValkeyPipeline], whose own
    parameters are HELLO, subscriptions and [fail].
    The instances [toy_lshpack] and [default_env] show that they can be met and
    evaluate the examples.

    Loops whose recursion is not structural take fuel: the length of the text or
    block left (plus one), since every round consumes a byte, or the number of
    nodes of a heap. Each such loop has a theorem that the fuel is enough.

    ** What is proved

    - Versions: what is printed parses back; the parser stores only well-formed
      parts and never panics; the orders are total preorders and, for numeric
      identifiers below 2{^64}, semver precedence, which the build metadata refines
      between releases; coercion returns safe integers only.
    - Ranges: the range parser is total and builds a group whose tails are right;
      each operator means the set of versions the documentation gives;
      satisfaction is the disjunction of conjunctions with the rule for
      prereleases; a positive [is_subset_of] is inclusion and [intersects] has no
      false negative.
    - Strings and hashes: packed strings, interned and built handles read back;
      streaming a hash in any chunks is the one-shot hash, and the compile-time
      and lower-casing variants agree with it.
    - The hash map: with up to 2{^30} entries every sequence of operations answers
      like a finite map, never panics and never probes forever; [retain] shows each
      entry once.
    - Base64: encoding and decoding is the identity for every accepted alphabet;
      the decoder stays within a destination of the size it computes and fills it;
      the decoder that ignores white space reads both alphabets; a VLQ reads back.
    - The ring buffer: every sequence of operations answers like a queue with the
      same bound, through wrap-around, realignment and growth, and reads no slot
      that was not written.
    - Threads, under every interleaving, by rule induction: the mutex and the
      readers-writer lock exclude, their words never overflow and no wake-up is
      lost; a posted signal of the condition variable gets a waiter out; a wait
      group may be freed when [wait] returns; the semaphore makes up and loses no
      permit; a set event releases everybody; the channel, the signal ring and the
      intrusive queue deliver every item once and in order.
    - The heap: [insert], [delete_min], [remove] and the walk keep the links and
      the order, lose no node and touch nothing else, for every preorder that the
      comparator never contradicts: the deadlines of the timers always, deadline and
      start between JavaScript timers whose epochs are within half their range.
    - HTTP/2: [receive] and all operations, on any bytes and in any order and with the
      embedder's writes to the engine's fields between them, do not panic and keep
      the invariant [conn_ok]; a request is accepted exactly when it
      is well-formed; a header block survives fragmentation between two engines;
      DATA keeps to both windows; two endpoints agree on the state of a stream;
      windows never overrun and never deadlock; a connection is not torn down in
      silence; frame headers and table size updates read back.

    - Valkey: reading a reply returns on any bytes, within its buffer and its
      allocation budget; the scanner finds the ends the reader finds, also when the
      bytes come in pieces; a serialized command reads back; however the socket cuts
      the stream, every reply is handled once and in order; every reply settles the
      promise of its own command under any interleaving and any partial writes, and
      no command is left behind.

    ** What is not modelled

    In [src/semver]: the JSON and store-path formatters, [VersionType<u32>] and its
    migration, debug output. In the HTTP/2 code: the embedder
    [h2_frame_parser.rs] beyond the field checks and its writes to the engine, which
    is its own encoder and glue to JavaScript. In
    [src/base64]: the functions that only call the SIMD library. In
    [src/threading]: the variants for Windows and Darwin, which call the operating
    system, the guards, the futex itself and the thread pools. In the Valkey client:
    connecting, HELLO, subscriptions, failing and reconnecting, and the conversion of
    values, which are glue to sockets and JavaScript.
    Memory is not freed in the model, so [Drop] has no counterpart. Elsewhere: the
    parsers, the bundler, the bindings to the JavaScript engine and the system
    layer are outside the chosen core, either because they are glue to code that is
    not in the repository or because of their size.

    Next in the plan: the bit sets and the hive array of [src/collections], source
    map coding, globs and paths, the shell's brace expansion, and the thread pool
    over the modelled primitives. *)

From Stdlib Require Import Ascii String.
From Stdlib Require Export ZArith Lia.
From stdpp Require Export base numbers list gmap.
Export StringSyntax AsciiSyntax.

#[local] Open Scope Z_scope.

(** ** Notation *)

Abbreviation bytes := (list Z).

(** [ch "v"] is Rust's [b'v']. *)
Notation "'ch' x" :=
  ltac:(let r := eval compute in (Z.of_N (N_of_ascii x%char)) in exact r)
  (at level 9, x at level 0, only parsing).

(** [bs "1.2"] is Rust's [b"1.2"]. *)
Definition bs (s : string) : bytes :=
  map (λ a, Z.of_N (N_of_ascii a)) (list_ascii_of_string s).
Arguments bs _%_string.

Create HintDb bun.

(** ** Machine integers *)

Definition U64_MAX : Z := 18446744073709551615.
Definition U32_MAX : Z := 4294967295.

Definition is_u64 (z : Z) : Prop := 0 <= z < 2 ^ 64.
Definition is_u8 (z : Z) : Prop := 0 <= z < 256.

(** [x as u64] and [x as u32] of a wider value truncate. *)
Definition wrap64 (z : Z) : Z := z mod 2 ^ 64.
Definition wrap32 (z : Z) : Z := z mod 2 ^ 32.

(** [a << n] on [u64] drops the bits shifted out. *)
Definition shl64 (a n : Z) : Z := wrap64 (Z.shiftl a n).

(** [u64::checked_add(1)]. *)
Definition checked_succ64 (z : Z) : option Z :=
  if z <? U64_MAX then Some (z + 1) else None.

Lemma wrap64_range z : is_u64 (wrap64 z).
Proof. apply Z.mod_pos_bound. lia. Qed.

Lemma wrap64_id z : is_u64 z → wrap64 z = z.
Proof. apply Z.mod_small. Qed.

Lemma lxor_range n a b :
  0 <= n → 0 <= a < 2 ^ n → 0 <= b < 2 ^ n → 0 <= Z.lxor a b < 2 ^ n.
Proof.
  intros Hn Ha Hb.
  assert (0 <= Z.lxor a b) by (apply Z.lxor_nonneg; lia).
  split; [done|].
  destruct (Z.eq_dec (Z.lxor a b) 0) as [->|Hne]; [apply Z.pow_pos_nonneg; lia|].
  apply Z.log2_lt_pow2; [lia|].
  destruct (Z.eq_dec n 0) as [->|].
  - assert (a = 0) by (change (2 ^ 0) with 1 in *; lia).
    assert (b = 0) by (change (2 ^ 0) with 1 in *; lia). subst. done.
  - pose proof (Z.log2_lxor a b ltac:(lia) ltac:(lia)).
    assert (∀ c, 0 <= c < 2 ^ n → Z.log2 c < n).
    { intros c Hc. destruct (Z.eq_dec c 0) as [->|]; [cbn; lia|].
      apply Z.log2_lt_pow2; lia. }
    pose proof (H1 a Ha). pose proof (H1 b Hb). lia.
Qed.

Lemma lxor_u64 a b : is_u64 a → is_u64 b → is_u64 (Z.lxor a b).
Proof. apply lxor_range. lia. Qed.

#[export] Hint Resolve wrap64_range lxor_u64 : bun.

(** ** Slices *)

(** The bytes from [i] to [j]: what [&b[i..j]] is when it is in range. *)
Definition slice (b : bytes) (i j : nat) : bytes := take (j - i) (drop i b).

(** [&b[i..j]] with its check; [None] is the panic. *)
Definition slice_range (b : bytes) (i j : nat) : option bytes :=
  if (i <=? j)%nat && (j <=? length b)%nat then Some (slice b i j) else None.

(** [&b[i..]]. *)
Definition slice_from (b : bytes) (i : nat) : option bytes :=
  if (i <=? length b)%nat then Some (drop i b) else None.

(** [&b[..j]]. *)
Definition slice_to (b : bytes) (j : nat) : option bytes :=
  if (j <=? length b)%nat then Some (take j b) else None.

(** [a - b] on [usize]; [None] is the overflow. *)
Definition usize_sub (a b : nat) : option nat := if (b <=? a)%nat then Some (a - b)%nat else None.

(** [b[start..start + s.len()].copy_from_slice(s)]. *)
Definition splice (b : bytes) (start : nat) (s : bytes) : bytes :=
  take start b ++ s ++ drop (start + length s) b.

(** [uN::from_le_bytes]: the first byte is the least significant. *)
Fixpoint le_bytes (l : bytes) : Z :=
  match l with
  | [] => 0
  | b :: t => b + 256 * le_bytes t
  end.

(** [z.to_le_bytes()] with [n] bytes. *)
Fixpoint to_le_bytes (n : nat) (z : Z) : bytes :=
  match n with
  | O => []
  | S n => z mod 256 :: to_le_bytes n (z / 256)
  end.

Lemma slice_range_some b i j : (i <= j <= length b)%nat → slice_range b i j = Some (slice b i j).
Proof. intros H. unfold slice_range. by rewrite !(leb_correct _ _) by lia. Qed.

Lemma slice_from_some b i : (i <= length b)%nat → slice_from b i = Some (drop i b).
Proof. intros H. unfold slice_from. by rewrite leb_correct by lia. Qed.

Lemma slice_to_some b j : (j <= length b)%nat → slice_to b j = Some (take j b).
Proof. intros H. unfold slice_to. by rewrite leb_correct by lia. Qed.

Lemma usize_sub_some a b : (b <= a)%nat → usize_sub a b = Some (a - b)%nat.
Proof. intros H. unfold usize_sub. by rewrite leb_correct by lia. Qed.

Lemma length_slice b i j :
  (i <= j <= length b)%nat → length (slice b i j) = (j - i)%nat.
Proof. intros. unfold slice. rewrite length_take, length_drop. lia. Qed.

Lemma length_splice b start s :
  (start + length s <= length b)%nat → length (splice b start s) = length b.
Proof.
  intros. unfold splice. rewrite !length_app, length_take, length_drop. lia.
Qed.

Lemma slice_app_l b1 b2 i j :
  (j <= length b1)%nat → slice (b1 ++ b2) i j = slice b1 i j.
Proof.
  intros Hj. unfold slice.
  destruct (decide (i <= length b1)%nat).
  - rewrite drop_app_le by done. apply take_app_le. rewrite length_drop. lia.
  - replace (j - i)%nat with 0%nat by lia. done.
Qed.

Lemma slice_app_r b1 b2 i j :
  (length b1 <= i)%nat →
  slice (b1 ++ b2) i j = slice b2 (i - length b1) (j - length b1).
Proof.
  intros Hi. unfold slice. rewrite drop_app_ge by done. f_equal. lia.
Qed.

Lemma slice_full b n : n = length b → slice b 0 n = b.
Proof. intros ->. unfold slice. rewrite drop_0, Nat.sub_0_r. apply firstn_all. Qed.

Lemma slice_drop b k i j :
  slice (drop k b) i j = slice b (k + i) (k + j).
Proof. unfold slice. rewrite drop_drop. f_equal. lia. Qed.

Lemma slice_to_end b i : slice b i (length b) = drop i b.
Proof. unfold slice. apply take_ge. rewrite length_drop. lia. Qed.

Lemma take_splice b start s :
  (start + length s <= length b)%nat →
  take (start + length s) (splice b start s) = take start b ++ s.
Proof.
  intros H. unfold splice. rewrite app_assoc.
  apply take_app_length'. rewrite length_app, length_take. lia.
Qed.

Lemma drop_splice b start s n :
  (start + length s <= n)%nat → (start + length s <= length b)%nat →
  drop n (splice b start s) = drop n b.
Proof.
  intros Hn Hb. unfold splice. rewrite app_assoc, drop_app_ge.
  - rewrite length_app, length_take, drop_drop. f_equal. lia.
  - rewrite length_app, length_take. lia.
Qed.

Lemma le_bytes_range l :
  Forall is_u8 l → 0 <= le_bytes l < 256 ^ Z.of_nat (length l).
Proof.
  unfold is_u8. induction 1; cbn [le_bytes length]; [done|].
  rewrite Nat2Z.inj_succ, Z.pow_succ_r by lia. nia.
Qed.

Lemma length_to_le_bytes n z : length (to_le_bytes n z) = n.
Proof. revert z. induction n; intros; cbn; auto. Qed.

Lemma to_le_bytes_u8 n z : Forall is_u8 (to_le_bytes n z).
Proof.
  revert z. induction n; intros; cbn; constructor; [|done].
  apply Z.mod_pos_bound. lia.
Qed.

Lemma le_to_le_bytes n z :
  le_bytes (to_le_bytes n z) = z mod 256 ^ Z.of_nat n.
Proof.
  revert z. induction n as [|n IH]; intros z; cbn [to_le_bytes le_bytes].
  - rewrite Z.mod_1_r. done.
  - rewrite IH, Nat2Z.inj_succ, Z.pow_succ_r by lia.
    rewrite Z.rem_mul_r by lia. done.
Qed.

Lemma to_le_le_bytes l :
  Forall is_u8 l → to_le_bytes (length l) (le_bytes l) = l.
Proof.
  unfold is_u8. induction 1 as [|b l Hb Hl IH]; cbn [length to_le_bytes le_bytes]; [done|].
  f_equal.
  - rewrite Z.mul_comm, Z.mod_add by lia. apply Z.mod_small. done.
  - rewrite Z.mul_comm, Z.div_add by lia. rewrite (Z.div_small b) by done. done.
Qed.

(** ** Facts about one byte are decided by enumeration *)

Lemma byte_forall (P : Z → bool) :
  forallb P (map Z.of_nat (seq 0 256)) = true → ∀ x, is_u8 x → P x = true.
Proof.
  intros H x Hx. rewrite forallb_forall in H. apply H.
  apply in_map_iff. exists (Z.to_nat x). unfold is_u8 in Hx.
  split; [lia|]. apply in_seq. lia.
Qed.

(** [x & 0x80 == 0]. *)
Lemma land_128 x : is_u8 x → (Z.land x 128 =? 0) = (x <? 128).
Proof.
  intros Hx. apply eqb_prop. revert x Hx.
  apply (byte_forall (λ x, eqb (Z.land x 128 =? 0) (x <? 128))). vm_compute. done.
Qed.

Lemma testbit_byte_split x X n :
  is_u8 x → 0 <= n →
  Z.testbit (x + 256 * X) n = if n <? 8 then Z.testbit x n else Z.testbit X (n - 8).
Proof.
  unfold is_u8. intros Hx Hn. destruct (Z.ltb_spec n 8).
  - rewrite <- (Z.mod_pow2_bits_low _ 8 n) by lia. f_equal.
    change (2 ^ 8) with 256. rewrite Z.mul_comm, Z.mod_add by lia. by apply Z.mod_small.
  - replace n with (n - 8 + 8) at 1 by lia. rewrite <- Z.div_pow2_bits by lia. f_equal.
    change (2 ^ 8) with 256. rewrite Z.mul_comm, Z.div_add by lia.
    rewrite Z.div_small by lia. lia.
Qed.

Lemma land_byte_split x X y Y :
  is_u8 x → is_u8 y →
  Z.land (x + 256 * X) (y + 256 * Y) = Z.land x y + 256 * Z.land X Y.
Proof.
  intros Hx Hy.
  assert (is_u8 (Z.land x y)) as Hxy.
  { unfold is_u8 in *. replace y with (Z.land y (Z.ones 8)).
    - rewrite Z.land_assoc, Z.land_ones by lia. apply Z.mod_pos_bound. lia.
    - rewrite Z.land_ones by lia. by apply Z.mod_small. }
  apply Z.bits_inj'. intros n Hn.
  rewrite Z.land_spec, !testbit_byte_split by done.
  case_match; by rewrite Z.land_spec.
Qed.

Lemma le_bytes_app l k :
  le_bytes (l ++ k) = le_bytes l + 256 ^ Z.of_nat (length l) * le_bytes k.
Proof.
  induction l as [|x l IH]; cbn [app le_bytes length].
  - rewrite Z.pow_0_r. lia.
  - rewrite IH, Nat2Z.inj_succ, Z.pow_succ_r by lia. lia.
Qed.

(** ** Folding a block function over an input

    The reference reading of the hash loops: [k] blocks of [w] bytes each. *)
Fixpoint fold_blocks {T} (w : nat) (f : T → bytes → T) (k : nat) (st : T) (b : bytes) : T :=
  match k with
  | O => st
  | S k => fold_blocks w f k (f st (take w b)) (drop w b)
  end.

Section fold_blocks.
Context {T : Type} (w : nat) (f : T → bytes → T).

Lemma fold_blocks_add k j st b :
  fold_blocks w f (k + j) st b
  = fold_blocks w f j (fold_blocks w f k st b) (drop (w * k) b).
Proof.
  revert st b. induction k as [|k IH]; intros st b; cbn.
  - by rewrite Nat.mul_0_r, drop_0.
  - rewrite IH, drop_drop. do 2 f_equal. lia.
Qed.

Lemma fold_blocks_app k st b1 b2 :
  (w * k <= length b1)%nat →
  fold_blocks w f k st (b1 ++ b2) = fold_blocks w f k st b1.
Proof.
  revert st b1. induction k as [|k IH]; intros st b1 Hb; cbn; [done|].
  rewrite take_app_le by lia. rewrite drop_app_le by lia.
  apply IH. rewrite length_drop. lia.
Qed.

Lemma fold_blocks_take k st b n :
  (w * k <= n)%nat → (n <= length b)%nat →
  fold_blocks w f k st (take n b) = fold_blocks w f k st b.
Proof.
  intros Hn Hl. rewrite <- (take_drop n b) at 2.
  rewrite fold_blocks_app; [done|]. rewrite length_take. lia.
Qed.
End fold_blocks.

(** ** Checking a list of bytes by evaluation *)

Lemma forallb_Forall (p : Z → bool) (P : Z → Prop) l :
  (∀ x, p x = true → P x) → forallb p l = true → Forall P l.
Proof.
  intros H. induction l as [|x l IH]; cbn; [done|]. intros [Hx Hl]%andb_prop. constructor; auto.
Qed.

Lemma u8_check l : forallb (λ x, (0 <=? x) && (x <? 256)) l = true → Forall is_u8 l.
Proof. apply forallb_Forall. unfold is_u8. lia. Qed.

Lemma nonzero_check l : forallb (λ x, negb (x =? 0)) l = true → Forall (λ x, x ≠ 0) l.
Proof. apply forallb_Forall. lia. Qed.

(** ** Comparisons that are total preorders *)

Class CmpLaws {A} (cmp : A → A → comparison) : Prop := {
  cmp_opp : ∀ x y, cmp y x = CompOpp (cmp x y);
  cmp_lt_trans : ∀ x y z, cmp x y = Lt → cmp y z = Lt → cmp x z = Lt;
  cmp_eq_l : ∀ x y z, cmp x y = Eq → cmp x z = cmp y z;
}.

Arguments cmp_opp {A} cmp {_}.
Arguments cmp_lt_trans {A} cmp {_}.
Arguments cmp_eq_l {A} cmp {_}.

(** [a.cmp(b).then(...)]: the second comparison decides ties. *)
Definition cmp_then (c d : comparison) : comparison :=
  match c with Eq => d | _ => c end.

Section cmp_laws.
Context {A : Type} (cmp : A → A → comparison) `{!CmpLaws cmp}.

Lemma cmp_refl x : cmp x x = Eq.
Proof. pose proof (cmp_opp cmp x x). destruct (cmp x x); done. Qed.

Lemma cmp_eq_r x y z : cmp x y = Eq → cmp z x = cmp z y.
Proof. intros H. rewrite (cmp_opp cmp x z), (cmp_opp cmp y z). by rewrite (cmp_eq_l cmp x y z H). Qed.

Lemma cmp_gt_lt x y : cmp x y = Gt ↔ cmp y x = Lt.
Proof. rewrite (cmp_opp cmp x y). by destruct (cmp x y). Qed.

Lemma cmp_gt_trans x y z : cmp x y = Gt → cmp y z = Gt → cmp x z = Gt.
Proof. rewrite !cmp_gt_lt. intros. by apply (cmp_lt_trans cmp z y x). Qed.

(** [<=], the form in which bounds compose. *)
Lemma cmp_le_trans x y z : cmp x y ≠ Gt → cmp y z ≠ Gt → cmp x z ≠ Gt.
Proof.
  intros Hxy Hyz. destruct (cmp x y) eqn:E1; [|destruct (cmp y z) eqn:E2|done]; try done.
  - by rewrite (cmp_eq_l cmp x y z E1).
  - by rewrite <- (cmp_eq_r y z x E2), E1.
  - by rewrite (cmp_lt_trans cmp x y z E1 E2).
Qed.

Lemma cmp_lt_le_trans x y z : cmp x y = Lt → cmp y z ≠ Gt → cmp x z = Lt.
Proof.
  intros Hxy Hyz. destruct (cmp y z) eqn:E2; [|by eapply cmp_lt_trans|done].
  by rewrite <- (cmp_eq_r y z x E2).
Qed.

Lemma cmp_le_lt_trans x y z : cmp x y ≠ Gt → cmp y z = Lt → cmp x z = Lt.
Proof.
  intros Hxy Hyz. destruct (cmp x y) eqn:E1; [|by eapply cmp_lt_trans|done].
  by rewrite (cmp_eq_l cmp x y z E1).
Qed.
End cmp_laws.

#[export] Instance Z_compare_laws : CmpLaws Z.compare.
Proof.
  split.
  - intros. apply Z.compare_antisym.
  - intros x y z. rewrite !Z.compare_lt_iff. lia.
  - intros x y z ->%Z.compare_eq_iff. done.
Qed.

(** The order of an image, e.g. of a key extracted from a record. *)
#[export] Instance cmp_image_laws {A B} (f : A → B) (cmp : B → B → comparison) :
  CmpLaws cmp → CmpLaws (λ x y, cmp (f x) (f y)).
Proof.
  intros [Ho Ht He]. split; intros; [apply Ho| by eapply Ht | by apply He].
Qed.

#[export] Instance cmp_then_laws {A} (c d : A → A → comparison) :
  CmpLaws c → CmpLaws d → CmpLaws (λ x y, cmp_then (c x y) (d x y)).
Proof.
  intros Hc Hd. split; unfold cmp_then.
  - intros x y. rewrite (cmp_opp c x y), (cmp_opp d x y). by destruct (c x y).
  - intros x y z. destruct (c x y) eqn:E1; [| |done]; destruct (c y z) eqn:E2; try done.
    + rewrite (cmp_eq_l c x y z E1), E2. apply (cmp_lt_trans d).
    + rewrite (cmp_eq_l c x y z E1), E2. done.
    + rewrite <- (cmp_eq_r c y z x E2), E1. done.
    + rewrite (cmp_lt_trans c x y z E1 E2). done.
  - intros x y z. destruct (c x y) eqn:E1; try done. intros E2.
    rewrite (cmp_eq_l c x y z E1), (cmp_eq_l d x y z E2). done.
Qed.

(** [<[T] as Ord>::cmp]: lexicographic, a proper prefix is smaller. *)
Fixpoint lex_cmp {A} (cmp : A → A → comparison) (l k : list A) : comparison :=
  match l, k with
  | [], [] => Eq
  | [], _ => Lt
  | _, [] => Gt
  | x :: l, y :: k => cmp_then (cmp x y) (lex_cmp cmp l k)
  end.

#[export] Instance lex_cmp_laws {A} (cmp : A → A → comparison) :
  CmpLaws cmp → CmpLaws (lex_cmp cmp).
Proof.
  intros Hc. split.
  - intros l. induction l as [|x l IH]; intros [|y k]; try done. cbn.
    rewrite IH, (cmp_opp cmp x y). by destruct (cmp x y).
  - intros l. induction l as [|x l IH]; intros [|y k] [|z m]; cbn; try done.
    unfold cmp_then.
    destruct (cmp x y) eqn:E1; [| |done]; destruct (cmp y z) eqn:E2; try done.
    + rewrite (cmp_eq_l cmp x y z E1), E2. apply IH.
    + rewrite (cmp_eq_l cmp x y z E1), E2. done.
    + rewrite <- (cmp_eq_r cmp y z x E2), E1. done.
    + rewrite (cmp_lt_trans cmp x y z E1 E2). done.
  - intros l. induction l as [|x l IH]; intros [|y k] [|z m]; cbn; try done.
    unfold cmp_then. destruct (cmp x y) eqn:E1; try done. intros E2.
    rewrite (cmp_eq_l cmp x y z E1), (IH k m E2). done.
Qed.
