(* ===== verification/BunStrings.v ===== *)
(** * The byte-string helpers of [src/bun_core] and [src/bun_alloc]

    Integer parsing ([fmt.rs]), splitting and leading whitespace
    ([string/immutable.rs]), trimming ([bun_alloc/lib.rs]), the ASCII classes
    of [u8] and [Display for u64]. *)

From S2P Require Import Prelude.
#[local] Open Scope Z_scope.

(** ** ASCII classes of [u8] *)

Definition is_ascii_digit (c : Z) : bool := (ch "0" <=? c) && (c <=? ch "9").
Definition is_ascii_lower (c : Z) : bool := (ch "a" <=? c) && (c <=? ch "z").
Definition is_ascii_upper (c : Z) : bool := (ch "A" <=? c) && (c <=? ch "Z").
Definition is_ascii_alphabetic (c : Z) : bool := is_ascii_lower c || is_ascii_upper c.
Definition is_ascii_alphanumeric (c : Z) : bool := is_ascii_alphabetic c || is_ascii_digit c.
(** Space, tab, LF, FF, CR. *)
Definition is_ascii_whitespace (c : Z) : bool :=
  (c =? 32) || (c =? 9) || (c =? 10) || (c =? 12) || (c =? 13).

(** [iter().take_while(p).count()]. *)
Fixpoint count_while (p : Z → bool) (l : bytes) : nat :=
  match l with
  | [] => 0
  | c :: t => if p c then S (count_while p t) else 0
  end.

(** [while i < b.len() && p(b[i]) { i += 1 }]: the position it stops at; [None]
    is an index out of range, or that the rounds do not suffice. *)
Fixpoint skip_while (fuel : nat) (p : Z → bool) (b : bytes) (i : nat) : option nat :=
  match fuel with
  | O => None
  | S fuel =>
      if (i <? length b)%nat then
        c ← b !! i;
        if p c then skip_while fuel p b (i + 1) else Some i
      else Some i
  end.

(** ** [fmt.rs]: parsing integers *)

Inductive ParseIntError := InvalidCharacter | Overflow.
Inductive result (A : Type) := Ok (a : A) | Err (e : ParseIntError).
Arguments Ok {A}.
Arguments Err {A}.

(** One digit in base up to 36. *)
Definition digit_of (c : Z) : option Z :=
  if is_ascii_digit c then Some (c - ch "0")
  else if is_ascii_lower c then Some (c - ch "a" + 10)
  else if is_ascii_upper c then Some (c - ch "A" + 10)
  else None.

Fixpoint parse_digits (radix acc : Z) (digits : bytes) : result Z :=
  match digits with
  | [] => Ok acc
  | c :: t =>
      if c =? ch "_" then parse_digits radix acc t
      else match digit_of c with
           | None => Err InvalidCharacter
           | Some d =>
               if radix <=? d then Err InvalidCharacter
               else if 2 ^ 128 <=? acc * radix then Err Overflow
               else if 2 ^ 128 <=? acc * radix + d then Err Overflow
               else parse_digits radix (acc * radix + d) t
           end
  end.

Definition parse_with_sign (digits : bytes) (radix : Z) : result Z :=
  match digits with
  | [] => Err InvalidCharacter
  | c :: _ =>
      if (c =? ch "_") || (List.last digits 0 =? ch "_") then Err InvalidCharacter
      else parse_digits radix 0 digits
  end.

Definition auto_radix (digits : bytes) (radix : Z) : bytes * Z :=
  if negb (radix =? 0) then (digits, radix)
  else match digits with
       | c0 :: c1 :: rest =>
           if negb (c0 =? ch "0") then (digits, 10)
           else if (c1 =? ch "x") || (c1 =? ch "X") then (rest, 16)
           else if (c1 =? ch "o") || (c1 =? ch "O") then (rest, 8)
           else if (c1 =? ch "b") || (c1 =? ch "B") then (rest, 2)
           else (digits, 10)
       | _ => (digits, 10)
       end.

(** [parse_unsigned::<u64>]. *)
Definition parse_unsigned_u64 (buf : bytes) (radix : Z) : result Z :=
  let '(digits, radix) := auto_radix buf radix in
  match parse_with_sign digits radix with
  | Err e => Err e
  | Ok acc => if acc <=? U64_MAX then Ok acc else Err Overflow
  end.

(** [parse_int::<i64>]: an optional sign, then the digits, converted from [i128]
    or [u128]. *)
Definition i64_try_from (z : Z) : result Z :=
  if (- 2 ^ 63 <=? z) && (z <? 2 ^ 63) then Ok z else Err Overflow.

Definition parse_int_i64 (buf : bytes) (radix : Z) : result Z :=
  match buf with
  | [] => Err InvalidCharacter
  | c :: t =>
      let '(neg, rest) :=
        if c =? ch "+" then (false, t) else if c =? ch "-" then (true, t) else (false, buf) in
      let '(digits, radix) := auto_radix rest radix in
      match parse_with_sign digits radix with
      | Err e => Err e
      | Ok acc =>
          if neg then
            if acc =? 2 ^ 127 then i64_try_from (- 2 ^ 127)
            else if 2 ^ 127 - 1 <? acc then Err Overflow
            else i64_try_from (- acc)
          else i64_try_from acc
      end
  end.

(** ** Splitting and whitespace *)

(** [highway::index_of_char]. *)
Fixpoint index_of_char (l : bytes) (c : Z) : option nat :=
  match l with
  | [] => None
  | x :: t => if x =? c then Some 0%nat else S <$> index_of_char t c
  end.

(** [SplitIterator] with a one-byte delimiter. *)
Record SplitIterator := mkSplit { buffer : bytes; index : option nat; delimiter : Z }.

Definition split (l : bytes) (d : Z) : SplitIterator := mkSplit l (Some 0%nat) d.

Definition split_next (it : SplitIterator) : option bytes * SplitIterator :=
  match index it with
  | None => (None, it)
  | Some start =>
      match index_of_char (drop start (buffer it)) (delimiter it) with
      | Some delim_start =>
          let del := (delim_start + start)%nat in
          (Some (slice (buffer it) start (delim_start + start)),
           mkSplit (buffer it) (Some (del + 1)%nat) (delimiter it))
      | None =>
          (Some (slice (buffer it) start (length (buffer it))),
           mkSplit (buffer it) None (delimiter it))
      end
  end.

Definition WHITESPACE_CHARS : bytes := [32; 9; 10; 13; 11; 12].

Definition contains (chars : bytes) (c : Z) : bool := existsb (Z.eqb c) chars.

Definition length_of_leading_whitespace_ascii (l : bytes) : nat :=
  count_while (contains WHITESPACE_CHARS) l.

(** [while end > 0 && chars.contains(&s[end - 1]) { end -= 1 }]. *)
Fixpoint trim_right_end (s chars : bytes) (end_ : nat) : nat :=
  match end_ with
  | O => 0
  | S e => if contains chars (nth e s 0) then trim_right_end s chars e else end_
  end.

Definition trim_right (s chars : bytes) : bytes := take (trim_right_end s chars (length s)) s.
Definition trim_left (s chars : bytes) : bytes := drop (count_while (contains chars) s) s.
Definition trim (s chars : bytes) : bytes := trim_right (trim_left s chars) chars.

(** ** [Display for u64] *)

(** Decimal digits, least significant last; a [u64] has at most twenty. *)
Fixpoint print_digits (fuel : nat) (n : Z) : bytes :=
  match fuel with
  | O => []
  | S fuel =>
      if n <? 10 then [ch "0" + n]
      else print_digits fuel (n / 10) ++ [ch "0" + n mod 10]
  end.

Definition print_u64 (n : Z) : bytes := print_digits 20 n.

(** ** Lemmas *)

Lemma count_while_le p l : (count_while p l <= length l)%nat.
Proof. induction l; cbn; [lia|]. case_match; lia. Qed.

Lemma count_while_app p l k :
  forallb p l = true → count_while p (l ++ k) = (length l + count_while p k)%nat.
Proof.
  induction l as [|c l IH]; cbn; [done|]. intros [Hc Hl]%andb_prop. rewrite Hc, IH by done. done.
Qed.

Lemma count_while_take p l : forallb p (take (count_while p l) l) = true.
Proof. induction l as [|c l IH]; cbn; [done|]. destruct (p c) eqn:E; cbn; [by rewrite E|done]. Qed.

Lemma skip_while_eq fuel p b i :
  (i <= length b)%nat → (length b - i < fuel)%nat →
  skip_while fuel p b i = Some (i + count_while p (drop i b))%nat.
Proof.
  revert i. induction fuel as [|fuel IH]; intros i Hi Hf; [lia|]. cbn [skip_while].
  destruct (Nat.ltb_spec i (length b)) as [Hlt|Hge].
  - destruct (lookup_lt_is_Some_2 b i Hlt) as [c Hc]. rewrite Hc, (drop_S _ _ _ Hc). cbn [mbind option_bind count_while].
    destruct (p c); [|f_equal; lia]. rewrite IH by lia. f_equal. rewrite Nat.add_1_r. lia.
  - rewrite drop_ge by done. cbn. f_equal. lia.
Qed.

(** The value of a digit string. *)
Definition dec_value (l : bytes) : Z := fold_left (λ a c, a * 10 + (c - ch "0")) l 0.

Lemma fold_dec_bound l a b :
  forallb is_ascii_digit l = true → 0 <= a <= b →
  0 <= fold_left (λ a c, a * 10 + (c - ch "0")) l a
    <= fold_left (λ a c, a * 10 + (c - ch "0")) l b ∧
  b <= fold_left (λ a c, a * 10 + (c - ch "0")) l b.
Proof.
  revert a b. induction l as [|c l IH]; cbn; intros a b Hd Hab; [lia|].
  apply andb_prop in Hd as [Hc Hd]. unfold is_ascii_digit in Hc.
  destruct (IH (a * 10 + (c - 48)) (b * 10 + (c - 48)) Hd); lia.
Qed.

Lemma parse_digits_spec l a :
  forallb is_ascii_digit l = true → 0 <= a →
  let v := fold_left (λ a c, a * 10 + (c - ch "0")) l a in
  parse_digits 10 a l = if v <? 2 ^ 128 then Ok v else
                        if a <? 2 ^ 128 then Err Overflow else parse_digits 10 a l.
Proof.
  revert a. induction l as [|c l IH]; intros a Hd Ha; cbn [fold_left parse_digits].
  { by destruct (a <? 2 ^ 128). }
  apply andb_prop in Hd as [Hc Hd]. unfold digit_of. rewrite Hc.
  unfold is_ascii_digit in Hc.
  destruct (Z.eqb_spec c 95); [lia|]. destruct (Z.leb_spec 10 (c - 48)); [lia|].
  set (a' := a * 10 + (c - 48)) in *.
  pose proof (fold_dec_bound l a' a' Hd ltac:(lia)) as [_ Hge].
  rewrite (IH a' Hd ltac:(lia)).
  destruct (Z.leb_spec (2 ^ 128) (a * 10)); [|destruct (Z.leb_spec (2 ^ 128) a')].
  - rewrite (proj2 (Z.ltb_ge _ _)) by lia. by destruct (a <? 2 ^ 128).
  - rewrite (proj2 (Z.ltb_ge _ _)) by lia. by destruct (a <? 2 ^ 128).
  - rewrite (proj2 (Z.ltb_lt a' _)), (proj2 (Z.ltb_lt a _)) by lia. by case_match.
Qed.

Lemma parse_with_sign_digits l :
  forallb is_ascii_digit l = true → l ≠ [] → parse_with_sign l 10 = parse_digits 10 0 l.
Proof.
  intros Hd Hne. assert (∀ c, In c l → is_ascii_digit c = true) as Hin by (by apply forallb_forall).
  unfold parse_with_sign. destruct l as [|c t] eqn:E; [done|]. rewrite <- E in *.
  assert (is_ascii_digit c = true) as Hc by (apply Hin; subst; by left).
  assert (is_ascii_digit (List.last l 0) = true) as Hl.
  { apply Hin. rewrite (app_removelast_last 0 Hne) at 2. apply in_app_iff. right. by left. }
  unfold is_ascii_digit in Hc, Hl.
  destruct (Z.eqb_spec c 95), (Z.eqb_spec (List.last l 0) 95); try lia. done.
Qed.

Lemma parse_unsigned_digits l :
  forallb is_ascii_digit l = true → l ≠ [] →
  parse_unsigned_u64 l 10 = if dec_value l <=? U64_MAX then Ok (dec_value l) else Err Overflow.
Proof.
  intros Hd Hne. unfold parse_unsigned_u64, auto_radix. cbn [Z.eqb negb].
  rewrite (parse_with_sign_digits l Hd Hne), parse_digits_spec by (done || lia). fold (dec_value l).
  unfold U64_MAX. destruct (Z.ltb_spec (dec_value l) (2 ^ 128)); [done|].
  destruct (Z.leb_spec (dec_value l) 18446744073709551615); [lia|done].
Qed.

Lemma parse_int_digits l :
  forallb is_ascii_digit l = true → l ≠ [] → dec_value l < 2 ^ 63 → parse_int_i64 l 10 = Ok (dec_value l).
Proof.
  intros Hd Hne Hlt. assert (0 <= dec_value l) by (apply (fold_dec_bound l 0 0); [done|lia]).
  unfold parse_int_i64. destruct l as [|c t] eqn:E; [done|]. rewrite <- E in *.
  assert (is_ascii_digit c = true) as Hc by (subst l; by apply andb_prop in Hd as [? _]).
  unfold is_ascii_digit in Hc. destruct (Z.eqb_spec c 43), (Z.eqb_spec c 45); try lia.
  unfold auto_radix. cbn [Z.eqb negb].
  rewrite (parse_with_sign_digits l Hd Hne), parse_digits_spec by (done || lia). fold (dec_value l).
  destruct (Z.ltb_spec (dec_value l) (2 ^ 128)); [|lia]. unfold i64_try_from.
  by rewrite (proj2 (Z.leb_le _ _)), (proj2 (Z.ltb_lt _ _)) by lia.
Qed.

Lemma fold_left_dec_app l k a :
  fold_left (λ a c, a * 10 + (c - ch "0")) (l ++ k) a
  = fold_left (λ a c, a * 10 + (c - ch "0")) k (fold_left (λ a c, a * 10 + (c - ch "0")) l a).
Proof. apply fold_left_app. Qed.

Lemma print_digits_spec fuel n :
  0 <= n < 10 ^ Z.of_nat fuel → (0 < fuel)%nat →
  forallb is_ascii_digit (print_digits fuel n) = true ∧ print_digits fuel n ≠ [] ∧
  dec_value (print_digits fuel n) = n.
Proof.
  revert n. induction fuel as [|fuel IH]; intros n Hn Hf; [lia|]. cbn [print_digits].
  destruct (Z.ltb_spec n 10) as [Hlt|Hge].
  - unfold dec_value. cbn. unfold is_ascii_digit. repeat split; [|done|lia].
    rewrite andb_true_r. apply andb_true_intro. lia.
  - rewrite Nat2Z.inj_succ, Z.pow_succ_r in Hn by lia.
    assert (0 < fuel)%nat by (destruct fuel; [cbn in Hn|]; lia).
    destruct (IH (n / 10)) as (Hd & Hne & Hv); [|done|].
    { split; [apply Z.div_pos; lia|apply Z.div_lt_upper_bound; lia]. }
    pose proof (Z.mod_pos_bound n 10 ltac:(lia)). pose proof (Z.div_mod n 10 ltac:(lia)).
    repeat split.
    + rewrite forallb_app, Hd. cbn. unfold is_ascii_digit. apply andb_true_intro. lia.
    + by destruct (print_digits fuel (n / 10)).
    + unfold dec_value in *. rewrite fold_left_dec_app, Hv. cbn [fold_left]. lia.
Qed.

Lemma print_u64_spec n :
  is_u64 n →
  forallb is_ascii_digit (print_u64 n) = true ∧ print_u64 n ≠ [] ∧ dec_value (print_u64 n) = n.
Proof. intros Hn. apply print_digits_spec; [unfold is_u64 in Hn|]; lia. Qed.

(** What the iterator produces: the fields between the delimiters. *)
Fixpoint split_on (d : Z) (cur l : bytes) : list bytes :=
  match l with
  | [] => [cur]
  | c :: t => if c =? d then cur :: split_on d [] t else split_on d (cur ++ [c]) t
  end.

Definition fields (d : Z) (l : bytes) : list bytes := split_on d [] l.

Lemma split_on_index d cur l :
  split_on d cur l
  = match index_of_char l d with
    | None => [cur ++ l]
    | Some i => (cur ++ take i l) :: split_on d [] (drop (i + 1) l)
    end.
Proof.
  revert cur. induction l as [|c l IH]; intros cur; cbn; [by rewrite app_nil_r|].
  destruct (Z.eqb_spec c d); cbn; [by rewrite app_nil_r, drop_0|].
  rewrite IH. destruct (index_of_char l d) as [i|]; cbn; by rewrite <- app_assoc.
Qed.

(** What is left of the iterator. *)
Definition remaining (it : SplitIterator) : list bytes :=
  match index it with
  | None => []
  | Some i => fields (delimiter it) (drop i (buffer it))
  end.

Lemma remaining_split l d : remaining (split l d) = fields d l.
Proof. done. Qed.

Lemma split_next_remaining it :
  match split_next it with
  | (None, _) => remaining it = []
  | (Some f, it') => remaining it = f :: remaining it'
  end.
Proof.
  destruct it as [b [i|] d]; [|done]. cbn -[index_of_char]. unfold remaining, fields. cbn [index buffer delimiter].
  rewrite split_on_index. destruct (index_of_char (drop i b) d) as [k|]; cbn.
  - unfold slice. rewrite drop_drop. f_equal; [f_equal; lia|]. f_equal. f_equal. lia.
  - by rewrite take_ge by (rewrite length_drop; lia).
Qed.

Lemma index_of_char_lt l c i : index_of_char l c = Some i → (i < length l)%nat.
Proof.
  revert i. induction l as [|x l IH]; intros i; cbn; [done|].
  destruct (x =? c); [intros [= <-]; lia|].
  destruct (index_of_char l c) as [j|]; cbn; [|done]. intros [= <-]. specialize (IH j eq_refl). lia.
Qed.

Lemma fields_not_nil d l : fields d l ≠ [].
Proof. unfold fields. rewrite split_on_index. by case_match. Qed.

Lemma length_fields d l : (length (fields d l) <= S (length l))%nat.
Proof.
  unfold fields. generalize (@nil Z) as cur.
  induction l as [|c l IH]; intros cur; cbn; [lia|].
  destruct (c =? d); cbn; [specialize (IH [])|specialize (IH (cur ++ [c]))]; lia.
Qed.
