(* ===== verification/Wyhash.v ===== *)
(** * [src/wyhash/lib.rs]: the two wyhash variants

    [Wyhash11] is the 32-byte-round variant that the lockfile and the semver
    strings hash with; [Wyhash4] is the crate's [Wyhash] (final4, 48-byte
    rounds), with [hash_const] and [hash_ascii_lowercase]. Loops whose cursor
    advances by a constant take the input length as fuel; every iteration
    consumes at least one byte, so that is never exhausted
    ([update_loop_blocks], [round_loop_blocks]). *)

From S2P Require Import Prelude.
#[local] Open Scope Z_scope.

(** ** Reads *)

(** [read_bytes::<n>]: an unaligned little-endian load of [n] bytes. *)
Definition read_bytes (n : nat) (data : bytes) : Z := le_bytes (take n data).

Definition read_8bytes_swapped (data : bytes) : Z :=
  Z.lor (shl64 (read_bytes 4 data) 32) (read_bytes 4 (drop 4 data)).

(** ** Wyhash11 *)
Module Wyhash11.

Definition PRIMES0 : Z := 0xa0761d6478bd642f.
Definition PRIMES1 : Z := 0xe7037ed1a0b428db.
Definition PRIMES2 : Z := 0x8ebc6af09c88c6e3.
Definition PRIMES3 : Z := 0x589965cc75374cc3.
Definition PRIMES4 : Z := 0x1d8e4e27c47d124f.

Definition mum (a b : Z) : Z :=
  let r := a * b in
  let r := Z.lxor (Z.shiftr r 64) r in
  wrap64 r.

Definition mix0 (a b seed : Z) : Z :=
  mum (Z.lxor (Z.lxor a seed) PRIMES0) (Z.lxor (Z.lxor b seed) PRIMES1).

Definition mix1 (a b seed : Z) : Z :=
  mum (Z.lxor (Z.lxor a seed) PRIMES2) (Z.lxor (Z.lxor b seed) PRIMES3).

(** The 17..=31-byte remainder. *)
Definition final_long (seed : Z) (key : bytes) : Z :=
  let head := mix0 (read_8bytes_swapped key) (read_8bytes_swapped (drop 8 key)) seed in
  let tail :=
    match length key with
    | 17%nat => mix1 (read_bytes 1 (drop 16 key)) PRIMES4 seed
    | 18%nat => mix1 (read_bytes 2 (drop 16 key)) PRIMES4 seed
    | 19%nat => mix1 (Z.lor (shl64 (read_bytes 2 (drop 16 key)) 8)
                            (read_bytes 1 (drop 18 key))) PRIMES4 seed
    | 20%nat => mix1 (read_bytes 4 (drop 16 key)) PRIMES4 seed
    | 21%nat => mix1 (Z.lor (shl64 (read_bytes 4 (drop 16 key)) 8)
                            (read_bytes 1 (drop 20 key))) PRIMES4 seed
    | 22%nat => mix1 (Z.lor (shl64 (read_bytes 4 (drop 16 key)) 16)
                            (read_bytes 2 (drop 20 key))) PRIMES4 seed
    | 23%nat => mix1 (Z.lor (Z.lor (shl64 (read_bytes 4 (drop 16 key)) 24)
                                   (shl64 (read_bytes 2 (drop 20 key)) 8))
                            (read_bytes 1 (drop 22 key))) PRIMES4 seed
    | 24%nat => mix1 (read_8bytes_swapped (drop 16 key)) PRIMES4 seed
    | 25%nat => mix1 (read_8bytes_swapped (drop 16 key)) (read_bytes 1 (drop 24 key)) seed
    | 26%nat => mix1 (read_8bytes_swapped (drop 16 key)) (read_bytes 2 (drop 24 key)) seed
    | 27%nat => mix1 (read_8bytes_swapped (drop 16 key))
                     (Z.lor (shl64 (read_bytes 2 (drop 24 key)) 8)
                            (read_bytes 1 (drop 26 key))) seed
    | 28%nat => mix1 (read_8bytes_swapped (drop 16 key)) (read_bytes 4 (drop 24 key)) seed
    | 29%nat => mix1 (read_8bytes_swapped (drop 16 key))
                     (Z.lor (shl64 (read_bytes 4 (drop 24 key)) 8)
                            (read_bytes 1 (drop 28 key))) seed
    | 30%nat => mix1 (read_8bytes_swapped (drop 16 key))
                     (Z.lor (shl64 (read_bytes 4 (drop 24 key)) 16)
                            (read_bytes 2 (drop 28 key))) seed
    | 31%nat => mix1 (read_8bytes_swapped (drop 16 key))
                     (Z.lor (Z.lor (shl64 (read_bytes 4 (drop 24 key)) 24)
                                   (shl64 (read_bytes 2 (drop 28 key)) 8))
                            (read_bytes 1 (drop 30 key))) seed
    | _ => 0 (* unreachable!() *)
    end in
  Z.lxor head tail.

Record WyhashStateless := mkStateless { seed : Z; msg_len : Z }.

Definition stateless_init (s : Z) : WyhashStateless := mkStateless s 0.

Definition round (st : WyhashStateless) (b : bytes) : WyhashStateless :=
  mkStateless
    (Z.lxor
       (mix0 (read_bytes 8 b) (read_bytes 8 (drop 8 b)) (seed st))
       (mix1 (read_bytes 8 (drop 16 b)) (read_bytes 8 (drop 24 b)) (seed st)))
    (msg_len st).

(** [while off < b.len() { self.round(&b[off..off + 32]); off += 32 }] *)
Fixpoint update_loop (fuel : nat) (st : WyhashStateless) (b : bytes) (off : nat)
  : WyhashStateless :=
  match fuel with
  | O => st
  | S fuel =>
      if (off <? length b)%nat
      then update_loop fuel (round st (slice b off (off + 32))) b (off + 32)
      else st
  end.

Definition stateless_update (st : WyhashStateless) (b : bytes) : WyhashStateless :=
  let st' := update_loop (length b) st b 0 in
  mkStateless (seed st') (msg_len st' + Z.of_nat (length b)).

Definition stateless_final (st : WyhashStateless) (b : bytes) : WyhashStateless * Z :=
  let sd := seed st in
  let rem_key := slice b 0 (length b) in
  let sd' :=
    match length b with
    | 0%nat => sd
    | 1%nat => mix0 (read_bytes 1 rem_key) PRIMES4 sd
    | 2%nat => mix0 (read_bytes 2 rem_key) PRIMES4 sd
    | 3%nat => mix0 (Z.lor (shl64 (read_bytes 2 rem_key) 8)
                           (read_bytes 1 (drop 2 rem_key))) PRIMES4 sd
    | 4%nat => mix0 (read_bytes 4 rem_key) PRIMES4 sd
    | 5%nat => mix0 (Z.lor (shl64 (read_bytes 4 rem_key) 8)
                           (read_bytes 1 (drop 4 rem_key))) PRIMES4 sd
    | 6%nat => mix0 (Z.lor (shl64 (read_bytes 4 rem_key) 16)
                           (read_bytes 2 (drop 4 rem_key))) PRIMES4 sd
    | 7%nat => mix0 (Z.lor (Z.lor (shl64 (read_bytes 4 rem_key) 24)
                                  (shl64 (read_bytes 2 (drop 4 rem_key)) 8))
                           (read_bytes 1 (drop 6 rem_key))) PRIMES4 sd
    | 8%nat => mix0 (read_8bytes_swapped rem_key) PRIMES4 sd
    | 9%nat => mix0 (read_8bytes_swapped rem_key) (read_bytes 1 (drop 8 rem_key)) sd
    | 10%nat => mix0 (read_8bytes_swapped rem_key) (read_bytes 2 (drop 8 rem_key)) sd
    | 11%nat => mix0 (read_8bytes_swapped rem_key)
                     (Z.lor (shl64 (read_bytes 2 (drop 8 rem_key)) 8)
                            (read_bytes 1 (drop 10 rem_key))) sd
    | 12%nat => mix0 (read_8bytes_swapped rem_key) (read_bytes 4 (drop 8 rem_key)) sd
    | 13%nat => mix0 (read_8bytes_swapped rem_key)
                     (Z.lor (shl64 (read_bytes 4 (drop 8 rem_key)) 8)
                            (read_bytes 1 (drop 12 rem_key))) sd
    | 14%nat => mix0 (read_8bytes_swapped rem_key)
                     (Z.lor (shl64 (read_bytes 4 (drop 8 rem_key)) 16)
                            (read_bytes 2 (drop 12 rem_key))) sd
    | 15%nat => mix0 (read_8bytes_swapped rem_key)
                     (Z.lor (Z.lor (shl64 (read_bytes 4 (drop 8 rem_key)) 24)
                                   (shl64 (read_bytes 2 (drop 12 rem_key)) 8))
                            (read_bytes 1 (drop 14 rem_key))) sd
    | 16%nat => mix0 (read_8bytes_swapped rem_key) (read_8bytes_swapped (drop 8 rem_key)) sd
    | _ => final_long sd rem_key
    end in
  let len' := msg_len st + Z.of_nat (length b) in
  (mkStateless sd' len', mum (Z.lxor sd' (wrap64 len')) PRIMES4).

Definition stateless_hash (sd : Z) (input : bytes) : Z :=
  let aligned_len := (length input - length input mod 32)%nat in
  let c := stateless_update (stateless_init sd) (slice input 0 aligned_len) in
  snd (stateless_final c (drop aligned_len input)).

(** The streaming hasher: [buf] is a 32-byte array of which the first
    [buf_len] bytes are pending. *)
Record t := mk { state : WyhashStateless; buf : bytes; buf_len : nat }.

Definition init (sd : Z) : t := mk (stateless_init sd) (replicate 32 0) 0.

Definition update (h : t) (b : bytes) : t :=
  let '(h, off) :=
    if negb (buf_len h =? 0)%nat && (32 <=? buf_len h + length b)%nat then
      let off := (32 - buf_len h)%nat in
      let buf' := splice (buf h) (buf_len h) (slice b 0 off) in
      (mk (stateless_update (state h) buf') buf' 0, off)
    else (h, 0%nat) in
  let remain_len := (length b - off)%nat in
  let aligned_len := (remain_len - remain_len mod 32)%nat in
  let state' := stateless_update (state h) (slice b off (off + aligned_len)) in
  let tail := drop (off + aligned_len) b in
  mk state' (splice (buf h) (buf_len h) tail) (buf_len h + length tail).

Definition final_ (h : t) : t * Z :=
  let '(st, r) := stateless_final (state h) (slice (buf h) 0 (buf_len h)) in
  (mk st (buf h) (buf_len h), r).

Definition hash (sd : Z) (input : bytes) : Z := stateless_hash sd input.

(** [impl Hasher]: [finish] works on a copy of the state. *)
Definition finish (h : t) : Z := snd (stateless_final (state h) (slice (buf h) 0 (buf_len h))).

(** ** Streaming agrees with one-shot hashing *)

Lemma round_msg_len st b : msg_len (round st b) = msg_len st.
Proof. done. Qed.

Lemma update_loop_blocks k fuel st b off :
  length b = (off + 32 * k)%nat → (32 * k <= fuel)%nat →
  update_loop fuel st b off = fold_blocks 32 round k st (drop off b).
Proof.
  revert fuel st off. induction k as [|k IH]; intros fuel st off Hl Hf.
  - destruct fuel; cbn [update_loop fold_blocks]; [done|].
    destruct (Nat.ltb_spec off (length b)); [lia|done].
  - destruct fuel as [|fuel]; [lia|]. cbn [update_loop fold_blocks].
    destruct (Nat.ltb_spec off (length b)); [|lia].
    rewrite IH by lia. rewrite drop_drop. unfold slice.
    replace (off + 32 - off)%nat with 32%nat by lia. done.
Qed.

Lemma fold_blocks_msg_len k st b :
  msg_len (fold_blocks 32 round k st b) = msg_len st.
Proof. revert st b. induction k; intros; cbn; [done|]. by rewrite IHk. Qed.

(** The state after the first [k] blocks of [data]. *)
Definition absorbed (sd : Z) (k : nat) (data : bytes) : WyhashStateless :=
  mkStateless (seed (fold_blocks 32 round k (stateless_init sd) data)) (32 * Z.of_nat k).

Lemma round_seed_only k st st' b :
  seed st = seed st' →
  seed (fold_blocks 32 round k st b) = seed (fold_blocks 32 round k st' b).
Proof.
  revert st st' b. induction k as [|k IH]; intros st st' b Hs; cbn; [done|].
  apply IH. cbn. by rewrite Hs.
Qed.

Lemma stateless_update_absorbed sd k j data b :
  (32 * k <= length data)%nat → length b = (32 * j)%nat →
  stateless_update (absorbed sd k data) b = absorbed sd (k + j) (take (32 * k) data ++ b).
Proof.
  intros Hk Hb. unfold stateless_update.
  rewrite (update_loop_blocks j), drop_0 by lia.
  unfold absorbed. f_equal.
  - rewrite fold_blocks_add.
    rewrite (fold_blocks_app _ _ k), fold_blocks_take by (rewrite ?length_take; lia).
    rewrite drop_app_length' by (rewrite length_take; lia).
    by apply round_seed_only.
  - rewrite fold_blocks_msg_len. cbn. lia.
Qed.

Lemma absorbed_app sd k data b :
  (32 * k <= length data)%nat → absorbed sd k (data ++ b) = absorbed sd k data.
Proof. intros. unfold absorbed. by rewrite fold_blocks_app. Qed.

(** [h] has consumed [data]. *)
Definition consumed (sd : Z) (h : t) (data : bytes) : Prop :=
  ∃ k, length data = (32 * k + buf_len h)%nat ∧ (buf_len h < 32)%nat ∧
       length (buf h) = 32%nat ∧ take (buf_len h) (buf h) = drop (32 * k) data ∧
       state h = absorbed sd k data.

Lemma consumed11_init sd : consumed sd (init sd) [].
Proof. exists 0%nat. cbn. repeat split; lia. Qed.

(** Feeding input that starts on a block boundary. *)
Lemma consumed_aligned sd k data bf b :
  length data = (32 * k)%nat → length bf = 32%nat →
  let aligned_len := (length b - length b mod 32)%nat in
  let tail := drop aligned_len b in
  consumed sd
    (mk (stateless_update (absorbed sd k data) (take aligned_len b))
        (splice bf 0 tail) (length tail))
    (data ++ b).
Proof.
  intros Hd Hbf al tail.
  pose proof (Nat.mod_upper_bound (length b) 32 ltac:(lia)) as Hm.
  pose proof (Nat.div_mod_eq (length b) 32) as Hdm.
  assert (Hal : al = (32 * (length b / 32))%nat) by (subst al; lia).
  assert (Hle : (al <= length b)%nat) by lia.
  assert (Htl : length tail = (length b mod 32)%nat)
    by (subst tail; rewrite length_drop; lia).
  exists (k + length b / 32)%nat. cbn [buf_len buf state].
  rewrite length_app, length_splice by lia.
  repeat split; [lia|lia|lia| |].
  - pose proof (take_splice bf 0 tail ltac:(lia)) as Ht.
    rewrite take_0, Nat.add_0_l in Ht. cbn [app] in Ht. rewrite Ht.
    rewrite drop_app_ge by lia. subst tail. f_equal. lia.
  - rewrite (stateless_update_absorbed sd k (length b / 32))
      by (rewrite ?length_take; lia).
    rewrite take_ge by lia.
    rewrite <- (absorbed_app _ _ _ (drop al b)) by (rewrite length_app, length_take; lia).
    by rewrite <- app_assoc, take_drop.
Qed.

Lemma update_consumed11 sd h data b :
  consumed sd h data → consumed sd (update h b) (data ++ b).
Proof.
  intros (k & Hd & Hlt & Hbuf & Htake & Hst). unfold update.
  destruct (Nat.eqb_spec (buf_len h) 0) as [Hz|Hz]; cbn [negb andb].
  - rewrite Hz, Hst, Nat.sub_0_r, Nat.add_0_l. unfold slice. rewrite drop_0, Nat.sub_0_r.
    apply consumed_aligned; lia.
  - destruct (Nat.leb_spec 32 (buf_len h + length b)) as [Hge|Hsmall].
    + set (off := (32 - buf_len h)%nat). cbn [state buf buf_len].
      assert (Ho : slice b 0 off = take off b)
        by (unfold slice; by rewrite drop_0, Nat.sub_0_r).
      assert (Hlo : length (take off b) = off) by (rewrite length_take; lia).
      assert (Hblk : splice (buf h) (buf_len h) (take off b)
                     = drop (32 * k) data ++ take off b).
      { rewrite <- Htake, <- (take_splice (buf h)) by lia.
        symmetry. apply take_ge. rewrite length_splice; lia. }
      rewrite Ho, Hblk, Hst.
      rewrite (stateless_update_absorbed sd k 1)
        by (rewrite ?length_app, ?length_drop; lia).
      rewrite app_assoc, take_drop.
      replace (data ++ b) with ((data ++ take off b) ++ drop off b)
        by (by rewrite <- app_assoc, take_drop).
      replace (length b - off)%nat with (length (drop off b)) by (by rewrite length_drop).
      set (al := (length (drop off b) - length (drop off b) mod 32)%nat).
      unfold slice. replace (off + al - off)%nat with al by lia.
      rewrite <- drop_drop, Nat.add_0_l.
      apply consumed_aligned; rewrite ?length_app, ?length_drop; lia.
    + rewrite Nat.sub_0_r, Nat.add_0_l, Nat.mod_small, Nat.sub_diag by lia.
      unfold slice. rewrite Nat.sub_diag, take_0, drop_0.
      exists k. cbn [buf buf_len state].
      rewrite length_app, length_splice by lia.
      rewrite take_splice, Htake by lia.
      rewrite drop_app_le by lia. rewrite absorbed_app by lia.
      repeat split; [lia|lia|done|]. rewrite Hst. unfold stateless_update, absorbed.
      cbn. f_equal. lia.
Qed.

Lemma finish_consumed sd h data :
  consumed sd h data → finish h = hash sd data.
Proof.
  intros (k & Hd & Hlt & Hbuf & Htake & Hst). unfold finish, hash, stateless_hash.
  assert (Hal : (length data - length data mod 32)%nat = (32 * k)%nat).
  { pose proof (Nat.div_mod_eq (length data) 32).
    pose proof (Nat.mod_upper_bound (length data) 32 ltac:(lia)).
    assert (length data / 32 = k)%nat by nia. nia. }
  rewrite Hal. unfold slice. rewrite !drop_0, !Nat.sub_0_r, Htake, Hst.
  do 2 f_equal. change (stateless_init sd) with (absorbed sd 0 []).
  rewrite (stateless_update_absorbed sd 0 k) by (rewrite ?length_take; cbn; lia).
  cbn [Nat.add take Nat.mul app]. unfold absorbed.
  by rewrite fold_blocks_take by lia.
Qed.

Lemma updates_consumed11 sd chunks h data :
  consumed sd h data → consumed sd (foldl update h chunks) (data ++ concat chunks).
Proof.
  revert h data. induction chunks as [|c cs IH]; intros h data H; cbn.
  - by rewrite app_nil_r.
  - rewrite app_assoc. apply IH. by apply update_consumed11.
Qed.

(** Feeding the streaming [Wyhash11] any sequence of chunks and finishing it
    gives the one-shot hash of their concatenation. *)
Theorem streaming_hash11 (sd : Z) (chunks : list bytes) :
  finish (foldl update (init sd) chunks) = hash sd (concat chunks).
Proof.
  apply finish_consumed, (updates_consumed11 sd chunks (init sd) []), consumed11_init.
Qed.

End Wyhash11.

Example wyhash11_dash_zero : Wyhash11.hash 0 (bs "0") = 0xb8f8325b21a8a1e5.
Proof. vm_compute. reflexivity. Qed.

(** ** Wyhash (final4) *)
Module Wyhash4.

Definition SECRET0 : Z := 0xa0761d6478bd642f.
Definition SECRET1 : Z := 0xe7037ed1a0b428db.
Definition SECRET2 : Z := 0x8ebc6af09c88c6e3.
Definition SECRET3 : Z := 0x589965cc75374cc3.

Definition lanes : Type := Z * Z * Z.

(** [buf] is a 48-byte array of which the first [buf_len] bytes are pending. *)
Record t := mk {
  a : Z; b : Z;
  state : lanes;
  total_len : nat;
  buf : bytes;
  buf_len : nat;
}.

Definition read4 (data : bytes) : Z := le_bytes (take 4 data).
Definition read8 (data : bytes) : Z := le_bytes (take 8 data).

(** [mum_]: both halves of the 128-bit product. *)
Definition mum_ (x y : Z) : Z * Z :=
  let p := x * y in (wrap64 p, wrap64 (Z.shiftr p 64)).

Definition mix (x y : Z) : Z := let '(lo, hi) := mum_ x y in Z.lxor lo hi.

Definition init (seed : Z) : t :=
  let s0 := Z.lxor seed (mix (Z.lxor seed SECRET0) SECRET1) in
  mk 0 0 (s0, s0, s0) 0 (replicate 48 0) 0.

Definition round_lanes (s : lanes) (input : bytes) : lanes :=
  let '(s0, s1, s2) := s in
  let a0 := read8 (drop 0 input) in
  let b0 := read8 (drop 8 input) in
  let s0' := mix (Z.lxor a0 SECRET1) (Z.lxor b0 s0) in
  let a1 := read8 (drop 16 input) in
  let b1 := read8 (drop 24 input) in
  let s1' := mix (Z.lxor a1 SECRET2) (Z.lxor b1 s1) in
  let a2 := read8 (drop 32 input) in
  let b2 := read8 (drop 40 input) in
  let s2' := mix (Z.lxor a2 SECRET3) (Z.lxor b2 s2) in
  (s0', s1', s2').

Definition round (h : t) (input : bytes) : t :=
  mk (a h) (b h) (round_lanes (state h) input) (total_len h) (buf h) (buf_len h).

(** [while i + 48 < input.len() { self.round(input[i..i + 48]); i += 48 }] *)
Fixpoint round_loop (fuel : nat) (s : lanes) (input : bytes) (i : nat) : lanes * nat :=
  match fuel with
  | O => (s, i)
  | S fuel =>
      if (i + 48 <? length input)%nat
      then round_loop fuel (round_lanes s (slice input i (i + 48))) input (i + 48)
      else (s, i)
  end.

(** The part of [update] after the pending bytes are flushed: whole blocks,
    then the remainder into [buf], whose last sixteen bytes keep the end of the
    last absorbed block. *)
Definition update_blocks (h : t) (i : nat) (input : bytes) : t :=
  let '(s, i) := round_loop (length input) (state h) input i in
  let remaining_bytes := drop i input in
  let buf' :=
    if (length remaining_bytes <? 16)%nat && (48 <=? i)%nat then
      let rem := (16 - length remaining_bytes)%nat in
      splice (buf h) (48 - rem) (slice input (i - rem) i)
    else buf h in
  mk (a h) (b h) s (total_len h) (splice buf' 0 remaining_bytes) (length remaining_bytes).

Definition update (h : t) (input : bytes) : t :=
  let h := mk (a h) (b h) (state h) (total_len h + length input) (buf h) (buf_len h) in
  if (length input <=? 48 - buf_len h)%nat then
    mk (a h) (b h) (state h) (total_len h)
       (splice (buf h) (buf_len h) input) (buf_len h + length input)
  else
    let '(h, i) :=
      if (0 <? buf_len h)%nat then
        let i := (48 - buf_len h)%nat in
        let buf' := splice (buf h) (buf_len h) (slice input 0 i) in
        let h := round (mk (a h) (b h) (state h) (total_len h) buf' (buf_len h)) buf' in
        (mk (a h) (b h) (state h) (total_len h) (buf h) 0, i)
      else (h, 0%nat) in
    update_blocks h i input.

Definition shallow_copy (h : t) : t :=
  mk (a h) (b h) (state h) (total_len h) (replicate 48 0) 0.

Definition small_key (h : t) (input : bytes) : t :=
  let len := length input in
  if (4 <=? len)%nat then
    let end_ := (len - 4)%nat in
    let quarter := (len / 8 * 4)%nat in
    mk (Z.lor (shl64 (read4 (drop 0 input)) 32) (read4 (drop quarter input)))
       (Z.lor (shl64 (read4 (drop end_ input)) 32) (read4 (drop (end_ - quarter) input)))
       (state h) (total_len h) (buf h) (buf_len h)
  else if negb (len =? 0)%nat then
    mk (Z.lor (Z.lor (shl64 (nth 0 input 0) 16) (shl64 (nth (len / 2) input 0) 8))
              (nth (len - 1) input 0))
       0 (state h) (total_len h) (buf h) (buf_len h)
  else mk 0 0 (state h) (total_len h) (buf h) (buf_len h).

Definition final0_lanes (s : lanes) : lanes :=
  let '(s0, s1, s2) := s in (Z.lxor s0 (Z.lxor s1 s2), s1, s2).

Definition final0 (h : t) : t :=
  mk (a h) (b h) (final0_lanes (state h)) (total_len h) (buf h) (buf_len h).

(** [while i + 16 < input.len() { ...; i += 16 }] *)
Fixpoint final1_loop (fuel : nat) (s0 : Z) (input : bytes) (i : nat) : Z :=
  match fuel with
  | O => s0
  | S fuel =>
      if (i + 16 <? length input)%nat
      then final1_loop fuel
             (mix (Z.lxor (read8 (drop i input)) SECRET1)
                  (Z.lxor (read8 (drop (i + 8) input)) s0)) input (i + 16)
      else s0
  end.

Definition final1 (h : t) (input_lb : bytes) (start_pos : nat) : t :=
  let input := drop start_pos input_lb in
  let '(s0, s1, s2) := state h in
  mk (read8 (drop (length input_lb - 16) input_lb))
     (read8 (drop (length input_lb - 8) input_lb))
     (final1_loop (length input) s0 input 0, s1, s2)
     (total_len h) (buf h) (buf_len h).

Definition final2 (h : t) : Z :=
  let '(s0, _, _) := state h in
  let '(lo, hi) := mum_ (Z.lxor (a h) SECRET1) (Z.lxor (b h) s0) in
  mix (Z.lxor (Z.lxor lo SECRET0) (wrap64 (Z.of_nat (total_len h)))) (Z.lxor hi SECRET1).

Definition final_ (h : t) : Z :=
  let input := slice (buf h) 0 (buf_len h) in
  let new_self := shallow_copy h in
  let new_self :=
    if (total_len h <=? 16)%nat then small_key new_self input
    else
      let '(input, offset) :=
        if (buf_len h <? 16)%nat then
          let rem := (16 - buf_len h)%nat in
          let scratch := replicate 16 0 in
          let scratch := splice scratch 0 (slice (buf h) (48 - rem) 48) in
          let scratch := splice scratch rem (slice (buf h) 0 (buf_len h)) in
          (scratch, rem)
        else (input, 0%nat) in
      final1 (final0 new_self) input offset in
  final2 new_self.

(** The one-shot form; its loop keeps the lanes in locals and bounds [i] by
    [len - 48]. *)
Fixpoint hash_loop (fuel : nat) (s : lanes) (input : bytes) (i bound : nat) : lanes * nat :=
  match fuel with
  | O => (s, i)
  | S fuel =>
      if (i <? bound)%nat then
        let '(s0, s1, s2) := s in
        let r8 (o : nat) := read8 (drop (i + o) input) in
        let m0 := Z.lxor (r8 0%nat) SECRET1 * Z.lxor (r8 8%nat) s0 in
        let s0 := Z.lxor (wrap64 m0) (wrap64 (Z.shiftr m0 64)) in
        let m1 := Z.lxor (r8 16%nat) SECRET2 * Z.lxor (r8 24%nat) s1 in
        let s1 := Z.lxor (wrap64 m1) (wrap64 (Z.shiftr m1 64)) in
        let m2 := Z.lxor (r8 32%nat) SECRET3 * Z.lxor (r8 40%nat) s2 in
        let s2 := Z.lxor (wrap64 m2) (wrap64 (Z.shiftr m2 64)) in
        hash_loop fuel (s0, s1, s2) input (i + 48) bound
      else (s, i)
  end.

Definition hash (seed : Z) (input : bytes) : Z :=
  let this := init seed in
  let this :=
    if (length input <=? 16)%nat then small_key this input
    else
      let '(this, i) :=
        if (48 <=? length input)%nat then
          let '(s, i) := hash_loop (length input) (state this) input 0 (length input - 48) in
          (final0 (mk (a this) (b this) s (total_len this) (buf this) (buf_len this)), i)
        else (this, 0%nat) in
      final1 this input i in
  final2 (mk (a this) (b this) (state this) (length input) (buf this) (buf_len this)).

(** [hash_const]: the [const fn] twin, with indexed byte reads. *)
Definition read4_at (d : bytes) (o : nat) : Z :=
  le_bytes [nth o d 0; nth (o + 1) d 0; nth (o + 2) d 0; nth (o + 3) d 0].

Definition read8_at (d : bytes) (o : nat) : Z :=
  le_bytes [nth o d 0; nth (o + 1) d 0; nth (o + 2) d 0; nth (o + 3) d 0;
            nth (o + 4) d 0; nth (o + 5) d 0; nth (o + 6) d 0; nth (o + 7) d 0].

Definition mix_const (x y : Z) : Z :=
  let p := x * y in Z.lxor (wrap64 p) (wrap64 (Z.shiftr p 64)).

Fixpoint hash_const_rounds (fuel : nat) (s : lanes) (input : bytes) (i : nat) : lanes * nat :=
  match fuel with
  | O => (s, i)
  | S fuel =>
      if (i + 48 <? length input)%nat then
        let '(s0, s1, s2) := s in
        hash_const_rounds fuel
          (mix_const (Z.lxor (read8_at input i) SECRET1) (Z.lxor (read8_at input (i + 8)) s0),
           mix_const (Z.lxor (read8_at input (i + 16)) SECRET2) (Z.lxor (read8_at input (i + 24)) s1),
           mix_const (Z.lxor (read8_at input (i + 32)) SECRET3) (Z.lxor (read8_at input (i + 40)) s2))
          input (i + 48)
      else (s, i)
  end.

Fixpoint hash_const_final1 (fuel : nat) (s0 : Z) (input : bytes) (j : nat) : Z :=
  match fuel with
  | O => s0
  | S fuel =>
      if (j + 16 <? length input)%nat
      then hash_const_final1 fuel
             (mix_const (Z.lxor (read8_at input j) SECRET1)
                        (Z.lxor (read8_at input (j + 8)) s0)) input (j + 16)
      else s0
  end.

Definition hash_const (seed : Z) (input : bytes) : Z :=
  let s0 := Z.lxor seed (mix_const (Z.lxor seed SECRET0) SECRET1) in
  let state : lanes := (s0, s0, s0) in
  let len := length input in
  let '(a, b, state) :=
    if (len <=? 16)%nat then
      if (4 <=? len)%nat then
        let end_ := (len - 4)%nat in
        let quarter := (len / 8 * 4)%nat in
        (Z.lor (shl64 (read4_at input 0) 32) (read4_at input quarter),
         Z.lor (shl64 (read4_at input end_) 32) (read4_at input (end_ - quarter)), state)
      else if (0 <? len)%nat then
        (Z.lor (Z.lor (shl64 (nth 0 input 0) 16) (shl64 (nth (len / 2) input 0) 8))
               (nth (len - 1) input 0), 0, state)
      else (0, 0, state)
    else
      let '(state, i) :=
        if (48 <=? len)%nat then
          let '(s, i) := hash_const_rounds len state input 0 in
          let '(s0, s1, s2) := s in ((Z.lxor s0 (Z.lxor s1 s2), s1, s2), i)
        else (state, 0%nat) in
      let '(s0, s1, s2) := state in
      (read8_at input (len - 16), read8_at input (len - 8),
       (hash_const_final1 len s0 input i, s1, s2)) in
  let '(s0, _, _) := state in
  let x := Z.lxor a SECRET1 * Z.lxor b s0 in
  mix_const (Z.lxor (Z.lxor (wrap64 x) SECRET0) (wrap64 (Z.of_nat len)))
            (Z.lxor (wrap64 (Z.shiftr x 64)) SECRET1).

Definition to_ascii_lowercase (c : Z) : Z :=
  if (ch "A" <=? c) && (c <=? ch "Z") then c + 32 else c.

(** [while !remain.is_empty() { ...; h.update(dst); remain = &remain[n..] }] *)
Fixpoint lowercase_loop (fuel : nat) (h : t) (remain : bytes) : t :=
  match fuel with
  | O => h
  | S fuel =>
      match remain with
      | [] => h
      | _ =>
          let n := Nat.min (length remain) 48 in
          let dst := map to_ascii_lowercase (take n remain) in
          lowercase_loop fuel (update h dst) (drop n remain)
      end
  end.

Definition hash_ascii_lowercase (seed : Z) (input : bytes) : Z :=
  if (length input <=? 48)%nat then hash seed (map to_ascii_lowercase input)
  else final_ (lowercase_loop (length input) (init seed) input).

Example hash_vectors :
  hash 0 [] = 0x0409638ee2bde459 ∧
  hash 1 (bs "a") = 0xa8412d091b5fe0a9 ∧
  hash 3 (bs "message digest") = 0x8619124089a3a16b ∧
  hash 4 (bs "abcdefghijklmnopqrstuvwxyz") = 0x7a43afb61d7f5f40 ∧
  hash 6 (bs "12345678901234567890123456789012345678901234567890123456789012345678901234567890")
  = 0xc39cab13b115aad3.
Proof. vm_compute. auto. Qed.

(** ** The one-shot form, as blocks followed by a tail *)

Lemma round_loop_blocks k fuel s input i :
  (i + 48 * k < length input <= i + 48 * k + 48)%nat → (k < fuel)%nat →
  round_loop fuel s input i = (fold_blocks 48 round_lanes k s (drop i input), i + 48 * k)%nat.
Proof.
  revert fuel s i. induction k as [|k IH]; intros fuel s i Hl Hf;
    (destruct fuel as [|fuel]; [lia|]); cbn [round_loop fold_blocks].
  - destruct (Nat.ltb_spec (i + 48) (length input)); [lia|]. f_equal. lia.
  - destruct (Nat.ltb_spec (i + 48) (length input)); [|lia].
    rewrite IH by lia. rewrite drop_drop. unfold slice.
    replace (i + 48 - i)%nat with 48%nat by lia. f_equal. lia.
Qed.

Lemma read8_drop_take i o n input :
  (o + 8 <= n)%nat → read8 (drop o (take n (drop i input))) = read8 (drop (i + o) input).
Proof.
  intros. unfold read8. rewrite skipn_firstn_comm, drop_drop, take_take. do 2 f_equal. lia.
Qed.

Lemma hash_loop_round_loop fuel s input i :
  (48 <= length input)%nat →
  hash_loop fuel s input i (length input - 48) = round_loop fuel s input i.
Proof.
  intros Hl. revert s i. induction fuel as [|fuel IH]; intros s i; [done|].
  cbn [hash_loop round_loop].
  destruct (Nat.ltb_spec i (length input - 48)), (Nat.ltb_spec (i + 48) (length input));
    try lia; [|done].
  destruct s as [[s0 s1] s2]. rewrite IH. f_equal.
  unfold round_lanes, slice. replace (i + 48 - i)%nat with 48%nat by lia.
  rewrite !read8_drop_take by lia. done.
Qed.

Lemma fold_blocks_lanes_const s0 input : fold_blocks 48 round_lanes 0 s0 input = s0.
Proof. done. Qed.

(** The state [final1] is reached with: [k] rounds, then [final0]. *)
Definition finish_lanes (seed : Z) (input : bytes) (k : nat) : lanes :=
  final0_lanes (fold_blocks 48 round_lanes k (state (init seed)) input).

Lemma final0_init seed : final0_lanes (state (init seed)) = state (init seed).
Proof. cbn. by rewrite Z.lxor_nilpotent, Z.lxor_0_r. Qed.

Definition with_lanes (s : lanes) (n : nat) : t := mk 0 0 s n (replicate 48 0) 0.

Lemma final2_buf h h' :
  a h = a h' → b h = b h' → state h = state h' → total_len h = total_len h' →
  final2 h = final2 h'.
Proof. unfold final2. by intros -> -> -> ->. Qed.

Lemma hash_short seed input :
  (length input <= 16)%nat →
  hash seed input = final2 (small_key (with_lanes (state (init seed)) (length input)) input).
Proof.
  intros H. unfold hash. destruct (Nat.leb_spec (length input) 16); [|lia].
  apply final2_buf; unfold small_key; repeat case_match; done.
Qed.

Lemma hash_long seed input k :
  (16 < length input)%nat → (48 * k < length input <= 48 * k + 48)%nat →
  hash seed input
  = final2 (final1 (with_lanes (finish_lanes seed input k) (length input)) input (48 * k)).
Proof.
  intros Hl Hk. unfold hash, finish_lanes.
  destruct (Nat.leb_spec (length input) 16); [lia|].
  destruct (Nat.leb_spec 48 (length input)).
  - rewrite hash_loop_round_loop, (round_loop_blocks k) by lia.
    rewrite drop_0, Nat.add_0_l. unfold final1, final0, with_lanes. cbn [state].
    destruct (final0_lanes _) as [[x0 x1] x2]. by apply final2_buf.
  - assert (k = 0%nat) as -> by lia.
    rewrite fold_blocks_lanes_const, final0_init, Nat.mul_0_r.
    by apply final2_buf.
Qed.

(** [final1] reads the pending bytes and the sixteen last bytes only. *)
Lemma final1_ext h l1 p1 l2 p2 :
  (16 <= length l1)%nat → (16 <= length l2)%nat →
  drop p1 l1 = drop p2 l2 → drop (length l1 - 16) l1 = drop (length l2 - 16) l2 →
  final1 h l1 p1 = final1 h l2 p2.
Proof.
  intros H1 H2 Hp Hl. unfold final1. rewrite Hp, Hl.
  assert (∀ l : bytes, (16 <= length l)%nat →
            drop (length l - 8) l = drop 8 (drop (length l - 16) l)) as H8.
  { intros l Hle. rewrite drop_drop. f_equal. lia. }
  rewrite (H8 l1), (H8 l2), Hl by done. done.
Qed.

(** ** Streaming *)

Definition consumed (seed : Z) (h : t) (data : bytes) : Prop :=
  ∃ k, length data = (48 * k + buf_len h)%nat ∧ (buf_len h <= 48)%nat ∧
       ((0 < k)%nat → (0 < buf_len h)%nat) ∧
       length (buf h) = 48%nat ∧ take (buf_len h) (buf h) = drop (48 * k) data ∧
       state h = fold_blocks 48 round_lanes k (state (init seed)) data ∧
       total_len h = length data ∧ a h = 0 ∧ b h = 0 ∧
       ((0 < k)%nat → (buf_len h < 16)%nat →
        drop (32 + buf_len h) (buf h) = slice data (48 * k - (16 - buf_len h)) (48 * k)).

Lemma consumed_init seed : consumed seed (init seed) [].
Proof. exists 0%nat. cbn. repeat split; try lia; try done. Qed.

(** The 16-byte scratch of [final_], filled from the old block and the pending bytes. *)
Lemma scratch_fill (P R : bytes) n :
  (n <= 16)%nat → length P = (16 - n)%nat → length R = n →
  splice (splice (replicate 16 0) 0 P) (16 - n) R = P ++ R.
Proof.
  intros Hn HP HR.
  assert (length (splice (replicate 16 0) 0 P) = 16%nat)
    by (rewrite length_splice; rewrite length_replicate; lia).
  rewrite <- (take_ge (splice (splice _ _ _) _ _) (16 - n + n)) by (rewrite length_splice; lia).
  rewrite <- HR at 2. rewrite take_splice by lia. f_equal.
  rewrite <- HP. rewrite <- (Nat.add_0_l (length P)), take_splice, take_0; [done|].
  rewrite length_replicate. lia.
Qed.

Lemma final_consumed seed h data : consumed seed h data → final_ h = hash seed data.
Proof.
  intros (k & Hd & Hle & Hpos & Hbuf & Htake & Hst & Htl & Ha & Hb & Hlast).
  unfold final_.
  assert (slice (buf h) 0 (buf_len h) = drop (48 * k) data) as ->
    by (unfold slice; by rewrite drop_0, Nat.sub_0_r).
  rewrite Htl.
  destruct (Nat.leb_spec (length data) 16) as [Hs|Hs].
  - assert (k = 0%nat) as -> by lia. cbn in Hst.
    rewrite hash_short, Nat.mul_0_r, drop_0 by done.
    apply final2_buf; unfold small_key; repeat case_match; cbn; by rewrite ?Hst, ?Htl.
  - rewrite (hash_long seed data k) by lia.
    assert (Hsc : final0 (shallow_copy h) = with_lanes (finish_lanes seed data k) (length data)).
    { unfold final0, shallow_copy, with_lanes, finish_lanes. cbn. by rewrite Hst, Htl, Ha, Hb. }
    destruct (Nat.ltb_spec (buf_len h) 16) as [Hlt|Hge]; rewrite Hsc; f_equal.
    + assert (0 < k)%nat as Hk by lia. specialize (Hlast Hk Hlt).
      assert (Hrem : slice (buf h) (48 - (16 - buf_len h)) 48
                     = slice data (48 * k - (16 - buf_len h)) (48 * k)).
      { rewrite <- Hlast, <- Hbuf, slice_to_end. f_equal. lia. }
      rewrite Hrem. set (P := slice data _ _).
      assert (HP : length P = (16 - buf_len h)%nat) by (subst P; rewrite length_slice; lia).
      assert (HR : length (drop (48 * k) data) = buf_len h) by (rewrite length_drop; lia).
      rewrite scratch_fill by lia. apply final1_ext.
      * rewrite length_app. lia.
      * lia.
      * rewrite drop_app_length' by lia. done.
      * rewrite length_app, HP, HR. replace (16 - buf_len h + buf_len h - 16)%nat with 0%nat by lia.
        rewrite drop_0. subst P. unfold slice.
        rewrite <- (take_drop (16 - buf_len h) (drop (length data - 16) data)).
        rewrite drop_drop. f_equal; [f_equal; [lia|f_equal; lia] | f_equal; lia].
    + assert (HR : length (drop (48 * k) data) = buf_len h) by (rewrite length_drop; lia).
      apply final1_ext; [lia|lia|by rewrite drop_0|].
      rewrite drop_drop. f_equal. lia.
Qed.

(** Pending bytes that fit: nothing is absorbed. *)
Lemma update_small_consumed seed h data input :
  consumed seed h data → (length input <= 48 - buf_len h)%nat →
  consumed seed (update h input) (data ++ input).
Proof.
  intros (k & Hd & Hle & Hpos & Hbuf & Htake & Hst & Htl & Ha & Hb & Hlast) Hi.
  unfold update. cbn [buf_len].
  destruct (Nat.leb_spec (length input) (48 - buf_len h)); [|lia].
  exists k. cbn [buf_len buf state total_len a b].
  rewrite length_app, length_splice, take_splice by lia.
  rewrite Htake, drop_app_le, fold_blocks_app by lia.
  repeat split; auto; try lia.
  intros Hk Hlt. rewrite drop_splice by lia.
  rewrite slice_app_l by lia.
  replace (32 + (buf_len h + length input))%nat
    with (32 + buf_len h + length input)%nat by lia.
  rewrite <- drop_drop, Hlast by lia.
  unfold slice. rewrite skipn_firstn_comm, drop_drop. f_equal; [lia|f_equal; lia].
Qed.

(** What [update_blocks] starts from: everything before [i] is absorbed. *)
Definition flushed (seed : Z) (h : t) (full : bytes) (k : nat) : Prop :=
  length (buf h) = 48%nat ∧ (48 * k <= length full)%nat ∧
  state h = fold_blocks 48 round_lanes k (state (init seed)) full ∧
  total_len h = length full ∧ a h = 0 ∧ b h = 0 ∧
  ((0 < k)%nat → buf h = slice full (48 * k - 48) (48 * k)).

Lemma kept_tail (bf full : bytes) m rem :
  length bf = 48%nat → (48 <= m <= length full)%nat → (rem <= 16)%nat →
  bf = slice full (m - 48) m → drop (48 - rem) bf = slice full (m - rem) m.
Proof.
  intros Hb Hm Hr ->. unfold slice.
  rewrite skipn_firstn_comm, drop_drop. f_equal; [lia|f_equal; lia].
Qed.

Lemma update_blocks_consumed seed h data input i k :
  flushed seed h (data ++ input) k → (length data + i = 48 * k)%nat →
  (i < length input)%nat → (i <= 48)%nat →
  consumed seed (update_blocks h i input) (data ++ input).
Proof.
  intros (Hbuf & Hle & Hst & Htl & Ha & Hb & Htail) Hk Hi Hi48. unfold update_blocks.
  set (j := ((length input - i - 1) / 48)%nat).
  assert (Hj : (i + 48 * j < length input <= i + 48 * j + 48)%nat).
  { pose proof (Nat.div_mod_eq (length input - i - 1) 48).
    pose proof (Nat.mod_upper_bound (length input - i - 1) 48 ltac:(lia)). lia. }
  rewrite (round_loop_blocks j) by lia.
  set (i' := (i + 48 * j)%nat) in *.
  set (R := drop i' input).
  assert (HR : length R = (length input - i')%nat) by (subst R; apply length_drop).
  match goal with
  | |- context [if ?c then splice ?x ?y ?z else ?w] => set (buf' := if c then splice x y z else w)
  end.
  assert (Hb' : length buf' = 48%nat).
  { subst buf'. destruct (Nat.ltb_spec (length R) 16), (Nat.leb_spec 48 i'); try done.
    cbn [andb]. rewrite length_splice; [done|]. rewrite length_slice; lia. }
  exists (k + j)%nat. cbn [buf_len buf state total_len a b].
  rewrite length_app, length_splice by lia.
  repeat split; try done; try lia.
  - pose proof (take_splice buf' 0 R ltac:(lia)) as Ht.
    rewrite Nat.add_0_l, take_0 in Ht. cbn [app] in Ht. rewrite Ht.
    rewrite drop_app_ge by lia. subst R. f_equal. lia.
  - rewrite Hst, fold_blocks_add. f_equal. rewrite drop_app_ge by lia. f_equal. lia.
  - by rewrite Htl, length_app.
  - intros Hpos Hlt. rewrite drop_splice by lia.
    replace (32 + length R)%nat with (48 - (16 - length R))%nat by lia.
    subst buf'.
    destruct (Nat.ltb_spec (length R) 16); [|lia]. cbn [andb].
    destruct (Nat.leb_spec 48 i') as [Hge|Hlt'].
    + rewrite slice_app_r by lia.
      set (P := slice input (i' - (16 - length R)) i').
      assert (HP : length P = (16 - length R)%nat) by (subst P; rewrite length_slice; lia).
      unfold splice. rewrite drop_app_length' by (rewrite length_take; lia).
      rewrite drop_ge, app_nil_r by lia. subst P. f_equal; lia.
    + assert (j = 0%nat) as Hj0 by lia.
      rewrite (kept_tail (buf h) (data ++ input) (48 * k)) by (try apply Htail; lia).
      f_equal; lia.
Qed.

Lemma update_consumed seed h data input :
  consumed seed h data → consumed seed (update h input) (data ++ input).
Proof.
  intros Hc. destruct (decide (length input <= 48 - buf_len h)%nat) as [|Hbig];
    [by apply update_small_consumed|].
  destruct Hc as (k & Hd & Hle & Hpos & Hbuf & Htake & Hst & Htl & Ha & Hb & _).
  unfold update. cbn [buf_len buf state a b total_len].
  destruct (Nat.leb_spec (length input) (48 - buf_len h)); [lia|].
  destruct (Nat.ltb_spec 0 (buf_len h)) as [Hp|Hz].
  - set (i := (48 - buf_len h)%nat).
    assert (slice input 0 i = take i input) as ->
      by (unfold slice; by rewrite drop_0, Nat.sub_0_r).
    assert (Hlo : length (take i input) = i) by (rewrite length_take; lia).
    assert (Hblk : splice (buf h) (buf_len h) (take i input)
                   = drop (48 * k) data ++ take i input).
    { rewrite <- Htake, <- (take_splice (buf h)) by lia.
      symmetry. apply take_ge. rewrite length_splice; lia. }
    rewrite Hblk.
    assert (Hsl : drop (48 * k) data ++ take i input
                  = slice (data ++ input) (48 * k) (48 * k + 48)).
    { unfold slice. rewrite drop_app_le, take_app_ge by (rewrite ?length_drop; lia).
      f_equal. f_equal. rewrite length_drop. lia. }
    apply (update_blocks_consumed seed _ data input i (k + 1)); try lia.
    unfold flushed. cbn [buf state total_len a b round].
    repeat split; auto; rewrite ?length_app, ?length_drop; try lia.
    + rewrite Hst, fold_blocks_add, fold_blocks_app by lia. cbn [fold_blocks].
      f_equal. rewrite Hsl. unfold slice. f_equal. lia.
    + intros _. rewrite Hsl. f_equal; lia.
  - assert (k = 0%nat) as -> by lia. assert (data = []) as ->.
    { apply nil_length_inv. lia. }
    apply (update_blocks_consumed seed _ [] input 0 0); cbn in *; try lia.
    unfold flushed. cbn. repeat split; auto; lia.
Qed.

Lemma updates_consumed seed chunks h data :
  consumed seed h data → consumed seed (foldl update h chunks) (data ++ concat chunks).
Proof.
  revert h data. induction chunks as [|c cs IH]; intros h data H; cbn.
  - by rewrite app_nil_r.
  - rewrite app_assoc. apply IH. by apply update_consumed.
Qed.

(** C31. Feeding the streaming [Wyhash] any sequence of chunks, whatever their
    boundaries against the 48-byte buffer, gives the one-shot hash of their
    concatenation. *)
Theorem streaming_hash (seed : Z) (chunks : list bytes) :
  final_ (foldl update (init seed) chunks) = hash seed (concat chunks).
Proof.
  apply final_consumed, (updates_consumed seed chunks (init seed) []), consumed_init.
Qed.

(** ** The [const fn] twin *)

Lemma take_nth_seq (d : bytes) o n :
  (o + n <= length d)%nat → take n (drop o d) = map (λ j, nth (o + j) d 0) (seq 0 n).
Proof.
  intros H. apply list_eq. intros i.
  destruct (decide (i < n)%nat) as [Hi|Hi].
  - rewrite lookup_take_lt, lookup_drop by done.
    rewrite list_lookup_fmap, lookup_seq_lt by done. cbn.
    destruct (lookup_lt_is_Some_2 d (o + i)) as [x Hx]; [lia|].
    rewrite Hx. f_equal. symmetry. by apply nth_lookup_Some.
  - rewrite !lookup_ge_None_2; [done| |].
    + rewrite length_fmap, length_seq. lia.
    + rewrite length_take. lia.
Qed.

Lemma read4_at_eq d o : (o + 4 <= length d)%nat → read4_at d o = read4 (drop o d).
Proof.
  intros H. unfold read4. rewrite take_nth_seq by done. unfold read4_at.
  cbn [seq map]. by rewrite Nat.add_0_r.
Qed.

Lemma read8_at_eq d o : (o + 8 <= length d)%nat → read8_at d o = read8 (drop o d).
Proof.
  intros H. unfold read8. rewrite take_nth_seq by done. unfold read8_at.
  cbn [seq map]. by rewrite Nat.add_0_r.
Qed.

Lemma hash_const_rounds_eq fuel s input i :
  hash_const_rounds fuel s input i = round_loop fuel s input i.
Proof.
  revert s i. induction fuel as [|fuel IH]; intros s i; [done|].
  cbn [hash_const_rounds round_loop].
  destruct (Nat.ltb_spec (i + 48) (length input)); [|done].
  destruct s as [[s0 s1] s2]. rewrite IH. f_equal.
  unfold round_lanes, slice. replace (i + 48 - i)%nat with 48%nat by lia.
  rewrite !read8_drop_take, !read8_at_eq by lia. by rewrite Nat.add_0_r.
Qed.

Lemma final1_loop_fuel f1 f2 s0 input i :
  (length input <= i + f1)%nat → (length input <= i + f2)%nat →
  final1_loop f1 s0 input i = final1_loop f2 s0 input i.
Proof.
  revert f2 s0 i. induction f1 as [|f1 IH]; intros [|f2] s0 i H1 H2; cbn [final1_loop];
    try done; destruct (Nat.ltb_spec (i + 16) (length input)); try lia; try done.
  apply IH; lia.
Qed.

Lemma hash_const_final1_eq fuel s0 input i j :
  (i <= length input)%nat →
  hash_const_final1 fuel s0 input (i + j) = final1_loop fuel s0 (drop i input) j.
Proof.
  intros Hi. revert s0 j. induction fuel as [|fuel IH]; intros s0 j; [done|].
  cbn [hash_const_final1 final1_loop]. rewrite length_drop.
  destruct (Nat.ltb_spec (i + j + 16) (length input)),
    (Nat.ltb_spec (j + 16) (length input - i)); try lia.
  replace (i + j + 16)%nat with (i + (j + 16))%nat by lia. rewrite IH. f_equal.
  rewrite !read8_at_eq by lia. rewrite !drop_drop, Nat.add_assoc. done.
Qed.

Lemma hash_const_long seed input k :
  (16 < length input)%nat → (48 * k < length input <= 48 * k + 48)%nat →
  hash_const seed input
  = final2 (final1 (with_lanes (finish_lanes seed input k) (length input)) input (48 * k)).
Proof.
  intros Hl Hk. unfold hash_const, finish_lanes.
  destruct (Nat.leb_spec (length input) 16); [lia|].
  rewrite !read8_at_eq by lia.
  assert (Hfin : ∀ s0, hash_const_final1 (length input) s0 input (48 * k)
                       = final1_loop (length (drop (48 * k) input)) s0 (drop (48 * k) input) 0).
  { intros s0. rewrite <- (Nat.add_0_r (48 * k)) at 1. rewrite hash_const_final1_eq by lia.
    apply final1_loop_fuel; rewrite ?length_drop; lia. }
  destruct (Nat.leb_spec 48 (length input)).
  - rewrite hash_const_rounds_eq, (round_loop_blocks k), drop_0, Nat.add_0_l by lia.
    cbn [init state mix mum_] in *. unfold final1, with_lanes, final2. cbn [state a b total_len].
    change (mix_const (Z.lxor seed SECRET0) SECRET1) with (mix (Z.lxor seed SECRET0) SECRET1).
    destruct (fold_blocks _ _ _ _ _) as [[x0 x1] x2]. cbn [final0_lanes]. by rewrite Hfin.
  - assert (k = 0%nat) as -> by lia. rewrite fold_blocks_lanes_const, final0_init.
    change (init seed) with (init seed). unfold final1, with_lanes, final2.
    cbn [state a b total_len init]. rewrite Nat.mul_0_r in *. by rewrite Hfin.
Qed.

Lemma hash_const_short seed input :
  (length input <= 16)%nat →
  hash_const seed input = final2 (small_key (with_lanes (state (init seed)) (length input)) input).
Proof.
  intros H. unfold hash_const, small_key.
  destruct (Nat.leb_spec (length input) 16); [|lia].
  destruct (Nat.leb_spec 4 (length input)).
  - assert (length input / 8 * 4 + 4 <= length input)%nat.
    { pose proof (Nat.div_mod_eq (length input) 8).
      pose proof (Nat.mod_upper_bound (length input) 8 ltac:(lia)).
      assert (length input / 8 <= 2)%nat by nia. nia. }
    rewrite !read4_at_eq by lia. done.
  - destruct (Nat.ltb_spec 0 (length input)), (Nat.eqb_spec (length input) 0); try lia; done.
Qed.

(** [hash_const], the [const fn] that indexes its input byte by byte,
    computes the same hash as the run-time [Wyhash::hash] on every input. *)
Theorem hash_const_matches (seed : Z) (input : bytes) :
  hash_const seed input = hash seed input.
Proof.
  destruct (decide (length input <= 16)%nat) as [Hs|Hl].
  - by rewrite hash_const_short, hash_short.
  - set (k := ((length input - 1) / 48)%nat).
    assert (48 * k < length input <= 48 * k + 48)%nat.
    { pose proof (Nat.div_mod_eq (length input - 1) 48).
      pose proof (Nat.mod_upper_bound (length input - 1) 48 ltac:(lia)). lia. }
    by rewrite (hash_const_long seed input k), (hash_long seed input k) by lia.
Qed.

(** ** Hashing the lowercased view *)

Lemma lowercase_loop_consumed fuel seed h data remain :
  (length remain <= fuel)%nat → consumed seed h data →
  consumed seed (lowercase_loop fuel h remain) (data ++ map to_ascii_lowercase remain).
Proof.
  revert h data remain. induction fuel as [|fuel IH]; intros h data remain Hf Hc.
  - destruct remain; cbn in *; [by rewrite app_nil_r|lia].
  - destruct remain as [|c rs]; [cbn; by rewrite app_nil_r|].
    cbn [lowercase_loop]. remember (c :: rs) as remain eqn:E.
    set (n := Nat.min (length remain) 48).
    assert (1 <= n <= length remain)%nat by (subst n; rewrite E; cbn; lia).
    replace (map to_ascii_lowercase remain)
      with (map to_ascii_lowercase (take n remain ++ drop n remain)) by (by rewrite take_drop). rewrite map_app, app_assoc.
    apply IH; [rewrite length_drop; lia|]. by apply update_consumed.
Qed.

(** [hash_ascii_lowercase], which streams lowercased 48-byte chunks, is the
    hash of the lowercased input. *)
Theorem hash_ascii_lowercase_spec (seed : Z) (input : bytes) :
  hash_ascii_lowercase seed input = hash seed (map to_ascii_lowercase input).
Proof.
  unfold hash_ascii_lowercase. destruct (Nat.leb_spec (length input) 48); [done|].
  apply final_consumed, (lowercase_loop_consumed _ seed (init seed) []);
    [done|apply consumed_init].
Qed.

End Wyhash4.

(** ** The crate's free functions and [OneShotHasher] *)

(** [hash], [hash32], [hash_with_seed]. *)
Definition hash (bytes : bytes) : Z := Wyhash4.hash 0 bytes.
Definition hash32 (bytes : bytes) : Z := wrap32 (hash bytes).
Definition hash_with_seed (seed : Z) (bytes : bytes) : Z := Wyhash4.hash seed bytes.

Module OneShotHasher.
Definition write (h : Z) (b : bytes) : Z := Wyhash11.hash h b.
Definition write_u64 (h n : Z) : Z := Wyhash11.mum (Z.lxor h n) Wyhash11.PRIMES4.
End OneShotHasher.

(** [HashInt for u32]: three xor-shift-multiply rounds and a last xor-shift. *)
Definition xorshift (k x : Z) : Z := Z.lxor x (Z.shiftr x k).

Definition hash_int (x : Z) : Z :=
  let x := wrap32 (xorshift 17 x * 0xed5ad4bb) in
  let x := wrap32 (xorshift 11 x * 0xac4c1b51) in
  let x := wrap32 (xorshift 15 x * 0x31848bab) in
  xorshift 14 x.

Definition is_u32 (z : Z) : Prop := 0 <= z < 2 ^ 32.

(** The inverse: the multipliers' inverses modulo [2^32], each xor-shift undone. *)
Definition unxorshift (k y : Z) : Z := Z.lxor (Z.lxor y (Z.shiftr y k)) (Z.shiftr y (2 * k)).

Definition unhash_int (y : Z) : Z :=
  let x := unxorshift 14 y in
  let x := unxorshift 15 (wrap32 (x * 0x32b21703)) in
  let x := unxorshift 11 (wrap32 (x * 0x469e0db1)) in
  unxorshift 17 (wrap32 (x * 0x79a85073)).

Lemma xorshift_u32 k x : 0 <= k → is_u32 x → is_u32 (xorshift k x).
Proof.
  intros Hk Hx. apply (lxor_range 32); [done|exact Hx|].
  rewrite Z.shiftr_div_pow2 by done. unfold is_u32 in Hx. split.
  - apply Z.div_pos; lia.
  - apply Z.div_lt_upper_bound; nia.
Qed.

Lemma unxorshift_xorshift k x :
  0 <= k → 32 <= 3 * k → is_u32 x → unxorshift k (xorshift k x) = x.
Proof.
  intros Hk H3 Hx. unfold unxorshift, xorshift. rewrite !Z.shiftr_lxor, !Z.shiftr_shiftr by lia.
  replace (k + k) with (2 * k) by lia. replace (k + 2 * k) with (3 * k) by lia.
  assert (Z.shiftr x (3 * k) = 0) as ->.
  { rewrite Z.shiftr_div_pow2 by lia. apply Z.div_small. unfold is_u32 in Hx.
    split; [lia|]. apply (Z.lt_le_trans _ (2 ^ 32)); [lia|]. apply Z.pow_le_mono_r; lia. }
  apply Z.bits_inj. intros n. rewrite !Z.lxor_spec, Z.bits_0. by repeat destruct (Z.testbit _ _).
Qed.

Lemma wrap32_mul_inv c c' x :
  is_u32 x → (c * c') mod 2 ^ 32 = 1 → wrap32 (wrap32 (x * c) * c') = x.
Proof.
  intros Hx Hc. unfold wrap32. rewrite Zmult_mod_idemp_l, <- Z.mul_assoc, <- Zmult_mod_idemp_r, Hc.
  rewrite Z.mul_1_r. by apply Z.mod_small.
Qed.

Lemma wrap32_u32 z : is_u32 (wrap32 z).
Proof. unfold is_u32, wrap32. apply Z.mod_pos_bound. lia. Qed.

Ltac u32 := repeat first [done | lia | apply wrap32_u32 | apply xorshift_u32].

Lemma unhash_hash_int x : is_u32 x → unhash_int (hash_int x) = x.
Proof.
  intros Hx. unfold hash_int, unhash_int.
  rewrite unxorshift_xorshift by u32. rewrite wrap32_mul_inv by u32.
  rewrite unxorshift_xorshift by u32. rewrite wrap32_mul_inv by u32.
  rewrite unxorshift_xorshift by u32. rewrite wrap32_mul_inv by u32.
  apply unxorshift_xorshift; u32.
Qed.

(** [hash_int] on [u32] loses nothing: it is injective, its result is a [u32],
    and [unhash_int] recovers the argument. *)
Theorem hash_int_bijective (x y : Z) :
  is_u32 x → is_u32 y →
  unhash_int (hash_int x) = x ∧ is_u32 (hash_int x) ∧ (hash_int x = hash_int y → x = y).
Proof.
  intros Hx Hy. split_and!; [by apply unhash_hash_int|unfold hash_int; u32|].
  intros E. rewrite <- (unhash_hash_int x), <- (unhash_hash_int y) by done. by rewrite E.
Qed.

Lemma hash_int_bijective_witness :
  unhash_int (hash_int 123456789) = 123456789 ∧ is_u32 (hash_int 123456789) ∧
  (hash_int 123456789 = hash_int 7 → 123456789 = 7).
Proof. apply (hash_int_bijective 123456789 7); unfold is_u32; lia. Defined.
