(* ===== verification/SemverString.v ===== *)
(** * [src/semver/lib.rs]: packed strings, the string pool and the builder

    A [SemString] is the eight bytes of [semver_string::String]: empty, inline,
    or (top bit set) a packed 32-bit offset and 31-bit length into an external
    buffer. Byte order is little-endian, the order of every target the file
    supports: the flag is bit 7 of the last byte only there. A Rust sub-slice
    [in_] of [buf] is given by its bytes and its offset
    [in_.as_ptr() - buf.as_ptr()]. A panic is [None]. *)

From S2P Require Import Prelude Wyhash.
#[local] Open Scope Z_scope.

(** ** [String.Pointer] *)

Record Pointer := mkPointer { off : Z; len : Z }.

Module Ptr.
(** [Pointer::init(buf, in_)]: both fields are truncated to [u32]. *)
Definition init (in_off : Z) (in_len : Z) : Pointer :=
  mkPointer (wrap32 in_off) (wrap32 in_len).

Definition to_bits (p : Pointer) : Z :=
  le_bytes (to_le_bytes 4 (off p) ++ to_le_bytes 4 (len p)).

Definition from_bits (bits : Z) : Pointer :=
  let b := to_le_bytes 8 bits in
  mkPointer (le_bytes (take 4 b)) (le_bytes (drop 4 b)).
End Ptr.

(** ** [String] *)

Record SemString := mkString { sbytes : bytes }.

#[export] Instance SemString_eq_dec : EqDecision SemString.
Proof. solve_decision. Defined.

Definition MAX_ADDRESSABLE_SPACE_MASK : Z := 2 ^ 63 - 1.

(** [u64::trailing_zeros]. *)
Fixpoint pos_trailing_zeros (p : positive) : Z :=
  match p with
  | xO p => 1 + pos_trailing_zeros p
  | _ => 0
  end.

Definition trailing_zeros64 (z : Z) : Z :=
  match z with
  | Zpos p => pos_trailing_zeros p
  | _ => 64
  end.

Module Str.
Definition MAX_INLINE_LEN : nat := 8.

Definition EMPTY : SemString := mkString (replicate 8 0).

Definition can_inline (buf : bytes) : bool :=
  if (length buf <? MAX_INLINE_LEN)%nat then true
  else if (length buf =? MAX_INLINE_LEN)%nat then Z.land (nth 7 buf 0) 128 =? 0
  else false.

Definition is_inline (s : SemString) : bool := Z.land (nth 7 (sbytes s) 0) 128 =? 0.

(** [(ptr_bits & MAX_ADDRESSABLE_SPACE_MASK) | (1u64 << 63)] as bytes. *)
Definition pack (p : Pointer) : SemString :=
  mkString (to_le_bytes 8
    (Z.lor (Z.land (Ptr.to_bits p) MAX_ADDRESSABLE_SPACE_MASK) (Z.shiftl 1 63))).

Definition init (in_off : Z) (in_ : bytes) : SemString :=
  let n := length in_ in
  if (n <? MAX_INLINE_LEN)%nat then mkString (in_ ++ replicate (8 - n) 0)
  else if (n =? MAX_INLINE_LEN)%nat then
    if 128 <=? nth 7 in_ 0 then pack (Ptr.init in_off (Z.of_nat n)) else mkString in_
  else pack (Ptr.init in_off (Z.of_nat n)).

(** [init_inline]; longer input is [unreachable!()]. *)
Definition init_inline (in_ : bytes) : SemString :=
  mkString (in_ ++ replicate (8 - length in_) 0).

(** Appends [in_] to the vector and points at the copy. *)
Definition init_append (buf in_ : bytes) : bytes * SemString :=
  let items := buf ++ in_ in
  (items, pack (Ptr.init (Z.of_nat (length items - length in_)) (Z.of_nat (length in_)))).

Definition init_append_if_needed (buf in_ : bytes) : bytes * SemString :=
  let n := length in_ in
  if (n <? MAX_INLINE_LEN)%nat then (buf, mkString (in_ ++ replicate (8 - n) 0))
  else if (n =? MAX_INLINE_LEN)%nat then
    if 128 <=? nth 7 in_ 0 then init_append buf in_ else (buf, mkString in_)
  else init_append buf in_.

Definition is_empty (s : SemString) : bool := le_bytes (sbytes s) =? 0.

(** Index of the first NUL byte, or 8, by the usual bit trick. *)
Definition inline_len (s : SemString) : nat :=
  let bits := le_bytes (sbytes s) in
  let zero_bytes :=
    Z.land (Z.land (wrap64 (bits - 0x0101010101010101)) (wrap64 (Z.lnot bits)))
           0x8080808080808080 in
  Z.to_nat (trailing_zeros64 zero_bytes / 8).

Definition ptr (s : SemString) : Pointer :=
  Ptr.from_bits (Z.land (le_bytes (sbytes s)) MAX_ADDRESSABLE_SPACE_MASK).

Definition str_len (s : SemString) : nat :=
  if Z.land (nth 7 (sbytes s) 0) 128 =? 0 then inline_len s else Z.to_nat (len (ptr s)).

(** [buf.get(off..off + len)]. *)
Definition get_range (buf : bytes) (p : Pointer) : option bytes :=
  if off p + len p <=? Z.of_nat (length buf)
  then Some (slice buf (Z.to_nat (off p)) (Z.to_nat (off p + len p)))
  else None.

Definition is_within (s : SemString) (buf : bytes) : bool :=
  is_inline s || (off (ptr s) + len (ptr s) <=? Z.of_nat (length buf)).

Definition str_slice (s : SemString) (buf : bytes) : bytes :=
  if Z.land (nth 7 (sbytes s) 0) 128 =? 0
  then take (inline_len s) (sbytes s)
  else default [] (get_range buf (ptr s)).

Definition eql (s that : SemString) (this_buf that_buf : bytes) : bool :=
  if is_inline s && is_inline that then le_bytes (sbytes s) =? le_bytes (sbytes that)
  else if negb (eqb (is_inline s) (is_inline that)) then false
  else
    match get_range this_buf (ptr s), get_range that_buf (ptr that) with
    | Some a, Some b => bool_decide (a = b)
    | _, _ => false
    end.

(** [strings::order] is [<[u8] as Ord>::cmp]. *)
Definition order (s rhs : SemString) (lhs_buf rhs_buf : bytes) : comparison :=
  lex_cmp Z.compare (str_slice s lhs_buf) (str_slice rhs rhs_buf).
End Str.

(** ** [ExternalString] and [SlicedString] *)

Record ExternalString := mkExternal { value : SemString; ehash : Z }.

#[export] Instance ExternalString_eq_dec : EqDecision ExternalString.
Proof. solve_decision. Defined.

Module Ext.
Definition default : ExternalString := mkExternal Str.EMPTY 0.
Definition init (in_off : Z) (in_ : bytes) (hash : Z) : ExternalString :=
  mkExternal (Str.init in_off in_) hash.
Definition is_empty (s : ExternalString) : bool := Str.is_empty (value s).
Definition is_inline (s : ExternalString) : bool := Str.is_inline (value s).
Definition ext_slice (s : ExternalString) (buf : bytes) : bytes := Str.str_slice (value s) buf.
Definition order (s rhs : ExternalString) (lhs_buf rhs_buf : bytes) : comparison :=
  Str.order (value s) (value rhs) lhs_buf rhs_buf.
End Ext.

(** A slice of [ss_buf] that starts [ss_off] bytes into it. *)
Record SlicedString := mkSliced { ss_buf : bytes; ss_off : nat; ss_slice : bytes }.

Module Sliced.
Definition init (buf : bytes) : SlicedString := mkSliced buf 0 buf.

(** [self.sub(&self.slice[i..j])]. *)
Definition sub (s : SlicedString) (i j : nat) : SlicedString :=
  mkSliced (ss_buf s) (ss_off s + i) (slice (ss_slice s) i j).

(** ... with the check of the range; [None] is the panic. *)
Definition sub_range (s : SlicedString) (i j : nat) : option SlicedString :=
  if (i <=? j)%nat && (j <=? length (ss_slice s))%nat then Some (sub s i j) else None.

Definition external (s : SlicedString) : ExternalString :=
  Ext.init (Z.of_nat (ss_off s)) (ss_slice s) (Wyhash11.hash 0 (ss_slice s)).

Definition sliced_value (s : SlicedString) : SemString :=
  Str.init (Z.of_nat (ss_off s)) (ss_slice s).
End Sliced.

(** ** [String.Buf]: append with a pool of earlier strings *)

Definition string_hash (b : bytes) : Z := Wyhash11.hash 0 b.

Record StrBuf := mkBuf { vbytes : bytes; pool : gmap Z SemString }.

Module Buf.
Definition append_with_hash (b : StrBuf) (str : bytes) (hash : Z) : StrBuf * SemString :=
  if Str.can_inline str then (b, Str.init_inline str)
  else
    match pool b !! hash with
    | Some v =>
        if bool_decide (Str.str_slice v (vbytes b) = str) then (b, v)
        else let '(bytes', s) := Str.init_append (vbytes b) str in (mkBuf bytes' (pool b), s)
    | None =>
        let '(bytes', s) := Str.init_append (vbytes b) str in
        (mkBuf bytes' (<[hash := s]> (pool b)), s)
    end.

Definition append (b : StrBuf) (str : bytes) : StrBuf * SemString :=
  if Str.can_inline str then (b, Str.init_inline str)
  else append_with_hash b str (string_hash str).

Definition append_external_with_hash (b : StrBuf) (str : bytes) (hash : Z)
  : StrBuf * ExternalString :=
  let '(b, v) := append_with_hash b str hash in (b, mkExternal v hash).

Definition append_external (b : StrBuf) (str : bytes) : StrBuf * ExternalString :=
  append_external_with_hash b str (string_hash str).
End Buf.

(** ** [String.Builder]: count, allocate once, append *)

(** [BuilderStringType]: what [append] hands out. *)
Class BuilderStringType (T : Type) := {
  from_init : Z → bytes → Z → T;
  from_pooled : SemString → Z → T;
}.

#[export] Instance builder_string : BuilderStringType SemString := {
  from_init o s _ := Str.init o s;
  from_pooled v _ := v;
}.

#[export] Instance builder_external : BuilderStringType ExternalString := {
  from_init o s h := Ext.init o s h;
  from_pooled v h := mkExternal v h;
}.

Record Builder := mkBuilder {
  blen : nat;
  cap : nat;
  bptr : option bytes;
  string_pool : gmap Z SemString;
}.

Module Build.
Definition default : Builder := mkBuilder 0 0 None ∅.

Definition count_with_hash (b : Builder) (s : bytes) (hash : Z) : Builder :=
  if Str.can_inline s then b
  else match string_pool b !! hash with
       | Some _ => b
       | None => mkBuilder (blen b) (cap b + length s) (bptr b) (string_pool b)
       end.

Definition count (b : Builder) (s : bytes) : Builder :=
  count_with_hash b s (if Str.can_inline s then U64_MAX else string_hash s).

Definition allocate (b : Builder) : Builder :=
  mkBuilder (blen b) (cap b) (Some (replicate (cap b) 0)) (string_pool b).

(** [&self.ptr[0..self.cap]], or empty when nothing was counted. *)
Definition allocated_slice (b : Builder) : option bytes :=
  if (0 <? cap b)%nat then
    p ← bptr b; if (cap b <=? length p)%nat then Some (take (cap b) p) else None
  else Some [].

(** [self.ptr.unwrap()[start..cap][..n].copy_from_slice(s)]. *)
Definition write_at (b : Builder) (start : nat) (s : bytes) : option bytes :=
  p ← bptr b;
  if (start <=? cap b)%nat && (cap b <=? length p)%nat && (length s <=? cap b - start)%nat
  then Some (splice p start s) else None.

Section append.
Context {T : Type} `{!BuilderStringType T}.

Definition append_without_pool (b : Builder) (s : bytes) (hash : Z) : option (Builder * T) :=
  if Str.can_inline s then
    (* the offset of an inlined string is not read *)
    _ ← allocated_slice b; Some (b, from_init 0 s hash)
  else
    let start := blen b in
    p ← write_at b start s;
    Some (mkBuilder (blen b + length s) (cap b) (Some p) (string_pool b),
          from_init (Z.of_nat start) s hash).

Definition append_with_hash (b : Builder) (s : bytes) (hash : Z) : option (Builder * T) :=
  if Str.can_inline s then _ ← allocated_slice b; Some (b, from_init 0 s hash)
  else
    let start := blen b in
    match string_pool b !! hash with
    | Some v =>
        p ← bptr b;
        if negb (cap b <=? length p)%nat then None
        else if negb (bool_decide (Str.str_slice v (take (cap b) p) = s))
        then append_without_pool b s hash
        else Some (b, from_pooled v hash)
    | None =>
        p ← write_at b start s;
        let v := Str.init (Z.of_nat start) s in
        Some (mkBuilder (blen b + length s) (cap b) (Some p) (<[hash := v]> (string_pool b)),
              from_pooled v hash)
    end.

Definition append (b : Builder) (s : bytes) : option (Builder * T) :=
  append_with_hash b s (string_hash s).
End append.
End Build.

(** ** The inline length *)

(** The reference reading of [inline_len]. *)
Fixpoint first_nul (l : bytes) : nat :=
  match l with
  | [] => 0
  | x :: t => if x =? 0 then 0 else S (first_nul t)
  end.

Lemma first_nul_le l : (first_nul l <= length l)%nat.
Proof. induction l; cbn; [lia|]. case_match; lia. Qed.

Section nul_trick.
(** The three operands, for a word of any number of bytes. *)
Definition ones_word (n : nat) : Z := le_bytes (replicate n 1).
Definition high_word (n : nat) : Z := le_bytes (replicate n 128).
Definition nul_mask (l : bytes) : Z :=
  let m := 256 ^ Z.of_nat (length l) in
  Z.land (Z.land ((le_bytes l - ones_word (length l)) mod m) (Z.lnot (le_bytes l) mod m))
         (high_word (length l)).

Lemma mod_byte_split x X m :
  is_u8 x → 0 < m → (x + 256 * X) mod (256 * m) = x + 256 * (X mod m).
Proof.
  unfold is_u8. intros Hx Hm. rewrite Z.rem_mul_r by lia.
  rewrite (Z.mul_comm 256 X), Z.mod_add, Z.div_add by lia.
  rewrite (Z.mod_small x), (Z.div_small x) by lia. done.
Qed.

Lemma nul_byte_zero x : is_u8 x → x ≠ 0 → Z.land (Z.land (x - 1) (255 - x)) 128 = 0.
Proof.
  intros Hx Hne. apply Z.eqb_eq.
  assert ((x =? 0) || (Z.land (Z.land (x - 1) (255 - x)) 128 =? 0) = true) as H.
  { revert x Hx Hne. intros x Hx _. revert x Hx. apply (byte_forall (λ x, _ || _)).
    vm_compute. done. }
  destruct (Z.eqb_spec x 0); done.
Qed.

Lemma nul_mask_cons x l :
  is_u8 x → x ≠ 0 → nul_mask (x :: l) = 256 * nul_mask l.
Proof.
  intros Hx Hne. unfold nul_mask, ones_word, high_word.
  cbn [length le_bytes replicate]. rewrite Nat2Z.inj_succ, Z.pow_succ_r by lia.
  set (m := 256 ^ Z.of_nat (length l)).
  assert (0 < m) by (apply Z.pow_pos_nonneg; lia).
  set (T := le_bytes l). set (O := le_bytes (replicate _ 1)).
  replace (x + 256 * T - (1 + 256 * O)) with ((x - 1) + 256 * (T - O)) by lia.
  replace (Z.lnot (x + 256 * T)) with ((255 - x) + 256 * Z.lnot T)
    by (unfold Z.lnot; lia).
  unfold is_u8 in *.
  rewrite !mod_byte_split by (unfold is_u8; lia).
  rewrite land_byte_split by (unfold is_u8; lia).
  assert (is_u8 (Z.land (x - 1) (255 - x))).
  { unfold is_u8. replace (255 - x) with (Z.land (255 - x) (Z.ones 8)).
    - rewrite Z.land_assoc, Z.land_ones by lia. apply Z.mod_pos_bound. lia.
    - rewrite Z.land_ones by lia. apply Z.mod_small. lia. }
  rewrite land_byte_split by (unfold is_u8 in *; lia).
  rewrite nul_byte_zero by (unfold is_u8; lia). lia.
Qed.

Lemma nul_mask_nul l : ∃ m, 0 <= m ∧ nul_mask (0 :: l) = 128 * (1 + 2 * m).
Proof.
  unfold nul_mask, ones_word, high_word.
  cbn [length le_bytes replicate]. rewrite Nat2Z.inj_succ, Z.pow_succ_r by lia.
  set (p := 256 ^ Z.of_nat (length l)).
  assert (0 < p) by (apply Z.pow_pos_nonneg; lia).
  set (T := le_bytes l). set (O := le_bytes (replicate _ 1)). set (H8 := le_bytes _).
  replace (0 + 256 * T - (1 + 256 * O)) with (255 + 256 * (T - O - 1)) by lia.
  replace (Z.lnot (0 + 256 * T)) with (255 + 256 * Z.lnot T) by (unfold Z.lnot; lia).
  rewrite !mod_byte_split by (unfold is_u8; lia).
  rewrite !land_byte_split by (unfold is_u8; cbn; lia).
  change (Z.land 255 255) with 255.
  rewrite land_byte_split by (unfold is_u8; lia). change (Z.land 255 128) with 128.
  match goal with |- ∃ m, _ ∧ 128 + 256 * ?X = _ => exists X end. split; [|lia].
  assert (0 <= H8).
  { subst H8. apply le_bytes_range. apply Forall_replicate. unfold is_u8. lia. }
  apply Z.land_nonneg. by right.
Qed.

Lemma nul_mask_spec l :
  Forall is_u8 l →
  (first_nul l = length l ∧ nul_mask l = 0) ∨
  ((first_nul l < length l)%nat ∧
   ∃ m, 0 <= m ∧ nul_mask l = 2 ^ (8 * Z.of_nat (first_nul l) + 7) * (1 + 2 * m)).
Proof.
  induction 1 as [|x l Hx Hl IH]; [left; done|]. cbn [first_nul length].
  destruct (Z.eqb_spec x 0) as [->|Hne].
  - right. split; [lia|]. apply nul_mask_nul.
  - rewrite nul_mask_cons by done.
    destruct IH as [[Hf Hm]|(Hf & m & Hm & Heq)].
    + left. rewrite Hm. lia.
    + right. split; [lia|]. exists m. split; [done|]. rewrite Heq.
      replace (8 * Z.of_nat (S (first_nul l)) + 7)
        with (8 + (8 * Z.of_nat (first_nul l) + 7)) by lia.
      rewrite (Z.pow_add_r 2 8) by lia. change (2 ^ 8) with 256. lia.
Qed.
End nul_trick.

Lemma trailing_zeros64_odd k m :
  0 <= k → 0 <= m → trailing_zeros64 (2 ^ k * (1 + 2 * m)) = k.
Proof.
  intros Hk Hm. pattern k. apply natlike_ind; [| |done].
  - rewrite Z.pow_0_r, Z.mul_1_l. destruct m as [|p|p]; [done|done|lia].
  - intros j Hj IH. rewrite Z.pow_succ_r, <- Z.mul_assoc by done.
    assert (0 < 2 ^ j * (1 + 2 * m)) by (apply Z.mul_pos_pos; [apply Z.pow_pos_nonneg|]; lia).
    destruct (2 ^ j * (1 + 2 * m)) as [|p|p]; [lia| |lia].
    change (1 + pos_trailing_zeros p = Z.succ j). cbn in IH. lia.
Qed.

Lemma inline_len_first_nul b :
  Forall is_u8 b → length b = 8%nat → Str.inline_len (mkString b) = first_nul b.
Proof.
  intros Hu Hl. unfold Str.inline_len. cbn [sbytes].
  assert (Z.land (Z.land (wrap64 (le_bytes b - 0x0101010101010101)) (wrap64 (Z.lnot (le_bytes b))))
             0x8080808080808080 = nul_mask b) as ->.
  { unfold nul_mask, ones_word, high_word. rewrite Hl. done. }
  destruct (nul_mask_spec b Hu) as [[Hf ->]|(Hf & m & Hm & ->)].
  - rewrite Hf, Hl. done.
  - rewrite trailing_zeros64_odd by lia.
    replace (8 * Z.of_nat (first_nul b) + 7) with (7 + Z.of_nat (first_nul b) * 8) by lia.
    rewrite Z.div_add by lia. change (7 / 8) with 0. lia.
Qed.

(** ** The packed pointer *)

Lemma land_mask_small b n : 0 <= n → 0 <= b < 2 ^ n → Z.land b (2 ^ n - 1) = b.
Proof.
  intros Hn Hb. replace (2 ^ n - 1) with (Z.ones n) by (rewrite Z.ones_equiv; lia).
  rewrite Z.land_ones by done. by apply Z.mod_small.
Qed.

Lemma lor_high_bit b n : 0 <= n → 0 <= b < 2 ^ n → Z.lor b (2 ^ n) = b + 2 ^ n.
Proof.
  intros Hn Hb.
  assert (Z.land b (2 ^ n) = 0) as Hz.
  { apply Z.bits_inj'. intros i Hi. rewrite Z.land_spec, Z.pow2_bits_eqb, Z.bits_0 by done.
    destruct (Z.eqb_spec n i) as [->|]; [|apply andb_false_r]. rewrite andb_true_r.
    destruct (Z.eq_dec b 0) as [->|]; [apply Z.bits_0|].
    apply Z.bits_above_log2; [lia|]. apply Z.log2_lt_pow2; lia. }
  pose proof (Z.add_lor_land b (2 ^ n)). lia.
Qed.

(** What fits the 63 payload bits. *)
Definition ptr_ok (p : Pointer) : Prop := 0 <= off p < 2 ^ 32 ∧ 0 <= len p < 2 ^ 31.

Lemma to_bits_range p : ptr_ok p → 0 <= Ptr.to_bits p < 2 ^ 63.
Proof.
  intros [Ho Hl]. unfold Ptr.to_bits.
  rewrite le_bytes_app, !le_to_le_bytes, length_to_le_bytes.
  change (256 ^ Z.of_nat 4) with (2 ^ 32). rewrite !Z.mod_small by lia. lia.
Qed.

Lemma pack_bits p :
  ptr_ok p → le_bytes (sbytes (Str.pack p)) = Ptr.to_bits p + 2 ^ 63.
Proof.
  intros Hp. pose proof (to_bits_range p Hp). cbn [Str.pack sbytes].
  rewrite le_to_le_bytes. unfold MAX_ADDRESSABLE_SPACE_MASK.
  rewrite land_mask_small by lia. change (Z.shiftl 1 63) with (2 ^ 63).
  rewrite lor_high_bit by lia. apply Z.mod_small.
  change (256 ^ Z.of_nat 8) with (2 ^ 64). lia.
Qed.

Lemma from_to_bits p : ptr_ok p → Ptr.from_bits (Ptr.to_bits p) = p.
Proof.
  destruct p as [o l]. intros [Ho Hl]. cbn in Ho, Hl.
  unfold Ptr.from_bits, Ptr.to_bits. cbn [off len].
  assert (H8 : to_le_bytes 8 (le_bytes (to_le_bytes 4 o ++ to_le_bytes 4 l))
               = to_le_bytes 4 o ++ to_le_bytes 4 l).
  { rewrite <- (to_le_le_bytes (to_le_bytes 4 o ++ to_le_bytes 4 l)) at 2
      by (apply Forall_app; split; apply to_le_bytes_u8).
    by rewrite length_app, !length_to_le_bytes. }
  rewrite !H8, take_app_length', drop_app_length' by (by rewrite length_to_le_bytes).
  rewrite !le_to_le_bytes. change (256 ^ Z.of_nat 4) with (2 ^ 32).
  rewrite !Z.mod_small by lia. done.
Qed.

Lemma ptr_pack p : ptr_ok p → Str.ptr (Str.pack p) = p.
Proof.
  intros Hp. unfold Str.ptr. rewrite pack_bits by done.
  pose proof (to_bits_range p Hp).
  rewrite <- lor_high_bit, Z.land_lor_distr_l by lia.
  unfold MAX_ADDRESSABLE_SPACE_MASK at 1. rewrite land_mask_small by lia.
  change (Z.land (2 ^ 63) MAX_ADDRESSABLE_SPACE_MASK) with 0.
  rewrite Z.lor_0_r. by apply from_to_bits.
Qed.

Lemma nth_7_le_bytes l : Forall is_u8 l → length l = 8%nat → nth 7 l 0 = le_bytes l / 2 ^ 56.
Proof.
  intros Hu Hl. rewrite <- (take_drop 7 l) at 2. rewrite le_bytes_app, length_take, Hl.
  change (256 ^ Z.of_nat (7 `min` 8)) with (2 ^ 56).
  assert (drop 7 l = [nth 7 l 0]) as ->.
  { do 8 (destruct l as [|? l]; [done|]). destruct l; done. }
  cbn [le_bytes].
  pose proof (le_bytes_range (take 7 l) (Forall_take _ _ _ Hu)) as Hr.
  rewrite length_take, Hl in Hr. change (256 ^ Z.of_nat (7 `min` 8)) with (2 ^ 56) in Hr.
  rewrite Z.mul_comm, Z.div_add, Z.div_small by lia. lia.
Qed.

Lemma pack_flag p : ptr_ok p → (Z.land (nth 7 (sbytes (Str.pack p)) 0) 128 =? 0) = false.
Proof.
  intros Hp. pose proof (to_bits_range p Hp).
  assert (nth 7 (sbytes (Str.pack p)) 0 = Ptr.to_bits p / 2 ^ 56 + 128) as ->.
  { rewrite nth_7_le_bytes, pack_bits by (try done; apply to_le_bytes_u8).
    replace (Ptr.to_bits p + 2 ^ 63) with (Ptr.to_bits p + 128 * 2 ^ 56) by lia.
    by rewrite Z.div_add by lia. }
  assert (0 <= Ptr.to_bits p / 2 ^ 56 < 128)
    by (split; [apply Z.div_pos|apply Z.div_lt_upper_bound]; lia).
  rewrite land_128 by (unfold is_u8; lia). apply Z.ltb_ge. lia.
Qed.

(** ** What a packed string stands for *)

(** [s], read against [buf], is the byte string [str], in the one shape that
    the constructors produce for it. *)
Definition encodes (buf : bytes) (s : SemString) (str : bytes) : Prop :=
  Forall is_u8 str ∧
  if Str.can_inline str
  then Forall (λ x, x ≠ 0) str ∧ s = Str.init_inline str
  else ∃ o, ptr_ok (mkPointer (Z.of_nat o) (Z.of_nat (length str))) ∧
            s = Str.pack (mkPointer (Z.of_nat o) (Z.of_nat (length str))) ∧
            (o + length str <= length buf)%nat ∧
            slice buf o (o + length str) = str.

Lemma can_inline_length str : Str.can_inline str = true → (length str <= 8)%nat.
Proof.
  unfold Str.can_inline, Str.MAX_INLINE_LEN. intros H.
  destruct (Nat.ltb_spec (length str) 8); [lia|].
  destruct (Nat.eqb_spec (length str) 8); [lia|done].
Qed.

Lemma not_inline_length str : Str.can_inline str = false → (8 <= length str)%nat.
Proof.
  unfold Str.can_inline, Str.MAX_INLINE_LEN. intros H.
  destruct (Nat.ltb_spec (length str) 8); [done|lia].
Qed.

Lemma inline_u8 str : Forall is_u8 str → Forall is_u8 (str ++ replicate (8 - length str) 0).
Proof. intros. apply Forall_app. split; [done|]. apply Forall_replicate. unfold is_u8. lia. Qed.

Lemma inline_length str :
  Str.can_inline str = true → length (str ++ replicate (8 - length str) 0) = 8%nat.
Proof. intros H%can_inline_length. rewrite length_app, length_replicate. lia. Qed.

Lemma inline_flag str :
  Forall is_u8 str → Str.can_inline str = true →
  (Z.land (nth 7 (sbytes (Str.init_inline str)) 0) 128 =? 0) = true.
Proof.
  intros Hu Hc. cbn [sbytes Str.init_inline]. pose proof (can_inline_length _ Hc).
  destruct (decide (length str = 8%nat)) as [He|Hne].
  - rewrite He, app_nil_r. unfold Str.can_inline, Str.MAX_INLINE_LEN in Hc.
    destruct (Nat.ltb_spec (length str) 8); [lia|].
    destruct (Nat.eqb_spec (length str) 8); [done|lia].
  - rewrite app_nth2, nth_lookup by lia. rewrite lookup_replicate_2 by lia. done.
Qed.

Lemma first_nul_app str n :
  Forall (λ x, x ≠ 0) str → first_nul (str ++ replicate n 0) = length str.
Proof.
  induction 1 as [|x l Hx Hl IH]; cbn.
  - destruct n; done.
  - rewrite IH. destruct (Z.eqb_spec x 0); done.
Qed.

Lemma slice_encodes buf s str : encodes buf s str → Str.str_slice s buf = str.
Proof.
  intros [Hu H]. unfold Str.str_slice.
  destruct (Str.can_inline str) eqn:Hc.
  - destruct H as [Hnz ->]. rewrite inline_flag by done. unfold Str.init_inline. cbn [sbytes].
    rewrite inline_len_first_nul by (auto using inline_u8, inline_length).
    rewrite first_nul_app by done. by rewrite take_app_length.
  - destruct H as (o & Hp & -> & Hle & Hs). rewrite pack_flag, ptr_pack by done.
    unfold Str.get_range. cbn [off len].
    destruct (Z.leb_spec (Z.of_nat o + Z.of_nat (length str)) (Z.of_nat (length buf))); [|lia].
    cbn. rewrite <- Nat2Z.inj_add, !Nat2Z.id. done.
Qed.

Lemma encodes_inline buf s str :
  encodes buf s str → Str.is_inline s = Str.can_inline str.
Proof.
  intros [Hu H]. unfold Str.is_inline. destruct (Str.can_inline str) eqn:Hc.
  - destruct H as [_ ->]. by apply inline_flag.
  - destruct H as (o & Hp & -> & _). by apply pack_flag.
Qed.

Lemma encodes_app buf ext s str : encodes buf s str → encodes (buf ++ ext) s str.
Proof.
  intros [Hu H]. split; [done|]. destruct (Str.can_inline str); [done|].
  destruct H as (o & Hp & -> & Hle & Hs). exists o.
  rewrite length_app, slice_app_l by lia. repeat split; try done; try apply Hp. lia.
Qed.

Lemma encodes_len buf s str : encodes buf s str → Str.str_len s = length str.
Proof.
  intros [Hu H]. unfold Str.str_len. destruct (Str.can_inline str) eqn:Hc.
  - destruct H as [Hnz ->]. rewrite inline_flag by done. unfold Str.init_inline.
    rewrite inline_len_first_nul by (auto using inline_u8, inline_length).
    by apply first_nul_app.
  - destruct H as (o & Hp & -> & Hle & Hs). rewrite pack_flag, ptr_pack by done. cbn. lia.
Qed.

Lemma can_inline_flag str :
  Forall is_u8 str → length str = 8%nat →
  Str.can_inline str = negb (128 <=? nth 7 str 0).
Proof.
  intros Hu Hl. unfold Str.can_inline, Str.MAX_INLINE_LEN. rewrite Hl. cbn [Nat.ltb Nat.leb Nat.eqb].
  rewrite land_128; [lia|].
  destruct (lookup_lt_is_Some_2 str 7) as [x Hx]; [lia|].
  rewrite (nth_lookup_Some _ _ _ _ Hx). by eapply Forall_lookup_1.
Qed.

Lemma init_cases o str :
  Forall is_u8 str →
  Str.init o str = if Str.can_inline str then Str.init_inline str
                   else Str.pack (Ptr.init o (Z.of_nat (length str))).
Proof.
  intros Hu. unfold Str.init, Str.init_inline, Str.MAX_INLINE_LEN.
  destruct (Nat.ltb_spec (length str) 8) as [Hlt|Hge].
  - unfold Str.can_inline, Str.MAX_INLINE_LEN. by destruct (Nat.ltb_spec (length str) 8); [|lia].
  - destruct (Nat.eqb_spec (length str) 8) as [He|Hne].
    + rewrite can_inline_flag, He by done.
      destruct (128 <=? nth 7 str 0); cbn; [done|]. by rewrite app_nil_r.
    + unfold Str.can_inline, Str.MAX_INLINE_LEN.
      destruct (Nat.ltb_spec (length str) 8); [lia|].
      by destruct (Nat.eqb_spec (length str) 8); [lia|].
Qed.

(** Every constructor yields the canonical shape. *)
Lemma init_encodes buf o str :
  Forall is_u8 str → (Str.can_inline str = true → Forall (λ x, x ≠ 0) str) →
  Z.of_nat (length buf) < 2 ^ 31 →
  (Str.can_inline str = false →
   (o + length str <= length buf)%nat ∧ slice buf o (o + length str) = str) →
  encodes buf (Str.init (Z.of_nat o) str) str.
Proof.
  intros Hu Hnz Hb Hs. split; [done|]. rewrite init_cases by done.
  destruct (Str.can_inline str); [by auto|].
  destruct (Hs eq_refl) as [Hle Hsl]. exists o. unfold ptr_ok, Ptr.init, wrap32.
  cbn [off len]. rewrite !Z.mod_small by lia. repeat split; try done; lia.
Qed.

Lemma init_append_encodes buf str :
  Forall is_u8 str → Str.can_inline str = false →
  Z.of_nat (length buf + length str) < 2 ^ 31 →
  encodes (buf ++ str) (snd (Str.init_append buf str)) str.
Proof.
  intros Hu Hc Hb. split; [done|]. rewrite Hc. exists (length buf).
  unfold Str.init_append, Ptr.init, wrap32, ptr_ok. cbn [snd off len].
  rewrite !length_app. replace (length buf + length str - length str)%nat with (length buf) by lia.
  rewrite !Z.mod_small by lia. repeat split; try done; try lia.
  rewrite slice_app_r, Nat.sub_diag by lia. apply slice_full. lia.
Qed.

Lemma encodes_empty buf s str : encodes buf s str → Str.is_empty s = bool_decide (str = []).
Proof.
  intros H. unfold Str.is_empty. destruct H as [Hu H].
  destruct (Str.can_inline str) eqn:Hc.
  - destruct H as [Hnz ->]. unfold Str.init_inline. cbn [sbytes].
    destruct str as [|x t]; [done|]. rewrite bool_decide_false by done.
    apply Z.eqb_neq. cbn [app le_bytes].
    inversion Hnz; subst. inversion Hu as [|? ? Hx Ht]; subst. unfold is_u8 in Hx.
    set (r := replicate (8 - length (x :: t)) 0).
    assert (0 <= le_bytes (t ++ r)); [|lia].
    apply le_bytes_range, Forall_app. split; [done|]. apply Forall_replicate. unfold is_u8. lia.
  - destruct H as (o & Hp & -> & _). pose proof (to_bits_range _ Hp).
    rewrite pack_bits by done. pose proof (not_inline_length _ Hc).
    rewrite bool_decide_false by (by intros ->).
    apply Z.eqb_neq. lia.
Qed.

(** Reading back a string packed from a slice of [buf] gives that slice. *)
Theorem init_slice_roundtrip (buf : bytes) (o n : nat) :
  Forall is_u8 buf → Z.of_nat (length buf) < 2 ^ 31 → (o + n <= length buf)%nat →
  let str := slice buf o (o + n) in
  (Str.can_inline str = true → Forall (λ x, x ≠ 0) str) →
  let s := Str.init (Z.of_nat o) str in
  Str.str_slice s buf = str ∧ Str.str_len s = n ∧ Str.is_within s buf = true ∧
  Str.is_empty s = (n =? 0)%nat.
Proof.
  intros Hu Hb Hle str Hnz s.
  assert (Hn : length str = n) by (subst str; rewrite length_slice; lia).
  assert (He : encodes buf s str).
  { subst s. apply init_encodes; try done.
    - subst str. unfold slice. by apply Forall_take, Forall_drop.
    - intros _. rewrite Hn. done. }
  repeat split.
  - by apply slice_encodes.
  - by rewrite (encodes_len buf s str).
  - unfold Str.is_within. rewrite (encodes_inline buf s str He).
    destruct He as [_ He]. destruct (Str.can_inline str); [done|].
    destruct He as (o' & Hp & -> & Hle' & _). rewrite ptr_pack by done. cbn.
    apply Z.leb_le. lia.
  - rewrite (encodes_empty buf s str He). clear He s Hnz.
    clearbody str. subst n. by destruct str.
Qed.

Lemma init_slice_roundtrip_witness :
  let buf := bs "1.2.3-a.very.long.prerelease" in
  let str := slice buf 6 (6 + 22) in
  let s := Str.init (Z.of_nat 6) str in
  Str.str_slice s buf = str ∧ Str.str_len s = 22%nat ∧ Str.is_within s buf = true ∧
  Str.is_empty s = false.
Proof.
  apply (init_slice_roundtrip (bs "1.2.3-a.very.long.prerelease") 6 22);
    [apply u8_check; reflexivity|cbn; lia|cbn; lia|].
  intros _. apply nonzero_check. reflexivity.
Defined.

(** [eql] decides equality of the strings the handles stand for, whether
    they are stored inline or as a pointer, in one buffer or in two. *)
Theorem eql_spec (b1 b2 : bytes) (s1 s2 : SemString) (x y : bytes) :
  encodes b1 s1 x → encodes b2 s2 y →
  Str.eql s1 s2 b1 b2 = bool_decide (x = y).
Proof.
  intros H1 H2. unfold Str.eql.
  rewrite (encodes_inline _ _ _ H1), (encodes_inline _ _ _ H2).
  pose proof (slice_encodes _ _ _ H1) as Hx.
  destruct H1 as [Hu1 H1], H2 as [Hu2 H2].
  destruct (Str.can_inline x) eqn:C1, (Str.can_inline y) eqn:C2; cbn [andb negb eqb].
  - destruct H1 as [_ ->]. case_bool_decide as E.
    + destruct H2 as [_ ->]. subst. apply Z.eqb_refl.
    + apply Z.eqb_neq. intros Heq. apply E. rewrite <- Hx.
      apply slice_encodes. split; [done|]. rewrite C2. destruct H2 as [Hnz ->].
      split; [done|]. unfold Str.init_inline in *. cbn [sbytes] in Heq. f_equal.
      rewrite <- (to_le_le_bytes (x ++ _)), <- (to_le_le_bytes (y ++ _)) by (by apply inline_u8).
      by rewrite Heq, !inline_length.
  - rewrite bool_decide_false; [done|]. intros ->. congruence.
  - rewrite bool_decide_false; [done|]. intros ->. congruence.
  - destruct H1 as (o1 & Hp1 & -> & Hl1 & Hs1), H2 as (o2 & Hp2 & -> & Hl2 & Hs2).
    rewrite !ptr_pack by done. unfold Str.get_range. cbn [off len].
    rewrite <- !Nat2Z.inj_add, !Nat2Z.id, Hs1, Hs2.
    rewrite (proj2 (Z.leb_le _ _)), (proj2 (Z.leb_le _ _)) by lia. done.
Qed.

Lemma eql_spec_witness :
  Str.eql (Str.init_inline (bs "beta")) (Str.init_inline (bs "rc")) [] (bs "1.0.0-rc") = false.
Proof.
  rewrite (eql_spec [] (bs "1.0.0-rc") _ _ (bs "beta") (bs "rc")); [reflexivity|..];
    (split; [apply u8_check; reflexivity|]); (split; [apply nonzero_check|]; reflexivity).
Defined.

(** A byte string the pool and builder can hand out a handle for: an inlined
    string is cut at its first NUL byte. *)
Definition storable (str : bytes) : Prop :=
  Forall is_u8 str ∧ (Str.can_inline str = true → Forall (λ x, x ≠ 0) str).

Lemma storable_inline buf str :
  storable str → Str.can_inline str = true → encodes buf (Str.init_inline str) str.
Proof. intros [Hu Hnz] Hc. split; [done|]. rewrite Hc. auto. Qed.

(** Every pooled handle reads back as some string. *)
Definition pool_ok (buf : bytes) (p : gmap Z SemString) : Prop :=
  map_Forall (λ _ s, ∃ str, encodes buf s str) p.

Lemma storable_check str :
  forallb (λ x, (0 <? x) && (x <? 256)) str = true → storable str.
Proof.
  intros H. split; [|intros _]; (eapply forallb_Forall; [|exact H]); unfold is_u8; lia.
Qed.

Lemma inline_encodes buf str :
  forallb (λ x, (0 <? x) && (x <? 256)) str = true → Str.can_inline str = true →
  encodes buf (Str.init_inline str) str.
Proof. intros H. by apply storable_inline, storable_check. Qed.

Lemma pool_ok_app buf ext p : pool_ok buf p → pool_ok (buf ++ ext) p.
Proof.
  intros Hp h s Hs. destruct (Hp h s Hs) as [str He]. exists str. by apply encodes_app.
Qed.

(** The handle of a pool hit stands for the string that was looked up. *)
Lemma pool_hit buf p h v str :
  pool_ok buf p → p !! h = Some v → Str.str_slice v buf = str → encodes buf v str.
Proof.
  intros Hp Hv Hs. destruct (Hp h v Hv) as [str' He].
  by rewrite <- Hs, (slice_encodes _ _ _ He).
Qed.

(** ** [Buf] *)

Lemma buf_append_with_hash_spec b str h b' s :
  storable str → pool_ok (vbytes b) (pool b) →
  Z.of_nat (length (vbytes b) + length str) < 2 ^ 31 →
  Buf.append_with_hash b str h = (b', s) →
  encodes (vbytes b') s str ∧ pool_ok (vbytes b') (pool b') ∧
  (vbytes b' = vbytes b ∨ vbytes b' = vbytes b ++ str).
Proof.
  intros Hst Hp Hlen. unfold Buf.append_with_hash.
  destruct (Str.can_inline str) eqn:Hc.
  { intros [= <- <-]. auto using storable_inline. }
  pose proof (init_append_encodes (vbytes b) str (proj1 Hst) Hc Hlen) as He.
  cbn [Str.init_append snd] in He |- *.
  destruct (pool b !! h) as [v|] eqn:Hv; [case_bool_decide as E|]; intros [= <- <-];
    cbn [vbytes pool].
  - eauto using pool_hit.
  - auto using pool_ok_app.
  - split_and!; [done| |auto]. apply map_Forall_insert_2; [eauto|by apply pool_ok_app].
Qed.

Fixpoint append_all (b : StrBuf) (strs : list bytes) : StrBuf * list SemString :=
  match strs with
  | [] => (b, [])
  | s :: strs =>
      let '(b, h) := Buf.append b s in
      let '(b, hs) := append_all b strs in (b, h :: hs)
  end.

Lemma append_all_spec strs b b' hs :
  Forall storable strs → pool_ok (vbytes b) (pool b) →
  Z.of_nat (length (vbytes b) + length (concat strs)) < 2 ^ 31 →
  append_all b strs = (b', hs) →
  Forall2 (encodes (vbytes b')) hs strs ∧ pool_ok (vbytes b') (pool b') ∧
  ∃ ext, vbytes b' = vbytes b ++ ext.
Proof.
  revert b b' hs. induction strs as [|s strs IH]; intros b b' hs Hst Hp Hlen H.
  { injection H as <- <-. split_and!; auto. exists []. by rewrite app_nil_r. }
  inversion Hst as [|? ? Hs Hss]; subst. cbn in H, Hlen. rewrite length_app in Hlen.
  destruct (Buf.append b s) as [b1 h] eqn:E1. destruct (append_all b1 strs) as [b2 hs'] eqn:E2.
  injection H as <- <-.
  assert (Hstep : encodes (vbytes b1) h s ∧ pool_ok (vbytes b1) (pool b1) ∧
                  (vbytes b1 = vbytes b ∨ vbytes b1 = vbytes b ++ s)).
  { unfold Buf.append in E1. destruct (Str.can_inline s) eqn:Hc.
    - injection E1 as <- <-. auto using storable_inline.
    - eapply buf_append_with_hash_spec; eauto. lia. }
  destruct Hstep as (He & Hp1 & Hb1).
  destruct (IH b1 b2 hs' Hss Hp1) as (Hf & Hp2 & ext & Hx); [|done|].
  { destruct Hb1 as [->| ->]; rewrite ?length_app; lia. }
  split_and!; [|done|].
  - constructor; [|done]. rewrite Hx. by apply encodes_app.
  - destruct Hb1 as [Hb1|Hb1]; rewrite Hx, Hb1; [eauto|]. exists (s ++ ext). by rewrite app_assoc.
Qed.

(** C32. Interning any sequence of strings, with whatever hash collisions, yields
    handles that all read back in the final buffer, and leaves every earlier
    handle valid. *)
Theorem interned_handles_read_back (b : StrBuf) (strs : list bytes) :
  Forall storable strs → pool_ok (vbytes b) (pool b) →
  Z.of_nat (length (vbytes b) + length (concat strs)) < 2 ^ 31 →
  let '(b', hs) := append_all b strs in
  map (λ h, Str.str_slice h (vbytes b')) hs = strs ∧
  (∀ s str, encodes (vbytes b) s str → Str.str_slice s (vbytes b') = str).
Proof.
  intros Hst Hp Hlen. destruct (append_all b strs) as [b' hs] eqn:E.
  destruct (append_all_spec strs b b' hs Hst Hp Hlen E) as (Hf & _ & ext & Hx). split.
  - clear -Hf. induction Hf as [|h s hs strs He Hf IH]; cbn; [done|].
    f_equal; [by apply slice_encodes|done].
  - intros s str He. apply slice_encodes. rewrite Hx. by apply encodes_app.
Qed.

Lemma interned_handles_read_back_witness :
  let '(b', hs) := append_all (mkBuf [] ∅) [bs "a-long-string"; bs "short"; bs "a-long-string"] in
  map (λ h, Str.str_slice h (vbytes b')) hs = [bs "a-long-string"; bs "short"; bs "a-long-string"] ∧
  (∀ s str, encodes [] s str → Str.str_slice s (vbytes b') = str).
Proof.
  apply (interned_handles_read_back (mkBuf [] ∅) [bs "a-long-string"; bs "short"; bs "a-long-string"]);
    [|apply map_Forall_empty|cbn; lia].
  repeat (apply Forall_cons_2; [apply storable_check; reflexivity|]). apply Forall_nil_2.
Defined.

(** ** [Builder] *)

(** What the builder needs of the two handle types. *)
Class BuilderStringLaws (T : Type) `{!BuilderStringType T} := {
  handle : T → SemString;
  handle_init o s h : handle (from_init o s h) = Str.init o s;
  handle_pooled v h : handle (from_pooled v h) = v;
}.

#[export] Instance builder_string_laws : BuilderStringLaws SemString.
Proof. by exists id. Defined.

#[export] Instance builder_external_laws : BuilderStringLaws ExternalString.
Proof. by exists value. Defined.

(** What [count] reserves for a string. *)
Definition reserved (s : bytes) : nat := if Str.can_inline s then 0 else length s.
Definition reserved_all (strs : list bytes) : nat := sum_list_with reserved strs.

Lemma count_all strs b :
  string_pool b = ∅ →
  foldl Build.count b strs = mkBuilder (blen b) (cap b + reserved_all strs) (bptr b) ∅.
Proof.
  revert b. induction strs as [|s strs IH]; intros [l c p sp] Hp; cbn in Hp; subst.
  { cbn. by rewrite Nat.add_0_r. }
  cbn [foldl]. unfold Build.count, Build.count_with_hash at 2. cbn [string_pool].
  unfold reserved_all. cbn [sum_list_with]. unfold reserved at 1. rewrite lookup_empty.
  destruct (Str.can_inline s); rewrite IH by done; cbn; [done|]. f_equal. unfold reserved_all. lia.
Qed.

(** [blen] bytes are written and the rest of [cap] covers what is still to come. *)
Definition builder_inv (b : Builder) (p : bytes) (strs : list bytes) : Prop :=
  bptr b = Some p ∧ length p = cap b ∧ Z.of_nat (cap b) < 2 ^ 31 ∧
  (blen b + reserved_all strs <= cap b)%nat ∧ pool_ok (take (blen b) p) (string_pool b).

Section builder.
Context {T : Type} `{!BuilderStringType T, !BuilderStringLaws T}.

Lemma write_step b p s strs :
  builder_inv b p (s :: strs) → storable s → Str.can_inline s = false →
  ∃ p', Build.write_at b (blen b) s = Some p' ∧ length p' = cap b ∧
        take (blen b + length s) p' = take (blen b) p ++ s ∧
        encodes (take (blen b + length s) p') (Str.init (Z.of_nat (blen b)) s) s.
Proof.
  intros (Hp & Hl & Hb & Hr & _) [Hu Hnz] Hc.
  unfold reserved_all in Hr. cbn [sum_list_with] in Hr. unfold reserved at 1 in Hr. rewrite Hc in Hr.
  unfold Build.write_at. rewrite Hp. cbn.
  rewrite !(proj2 (Nat.leb_le _ _)) by lia. cbn [andb].
  exists (splice p (blen b) s). rewrite length_splice, take_splice by lia.
  split_and!; try done; try lia.
  - split; [done|]. rewrite Hc, init_cases, Hc by done. exists (blen b).
    assert (length (take (blen b) p) = blen b) by (rewrite length_take; lia).
    unfold ptr_ok, Ptr.init, wrap32. cbn [off len]. rewrite !Z.mod_small by lia.
    rewrite length_app. split_and!; try done; try lia.
    rewrite slice_app_r by lia.
    replace (blen b - length (take (blen b) p))%nat with 0%nat by lia. apply slice_full. lia.
Qed.

(** One [append]: it cannot panic, and the handle reads back. *)
Lemma append_step b p s strs :
  builder_inv b p (s :: strs) → storable s →
  ∃ b' (h : T) p',
    Build.append b s = Some (b', h) ∧ builder_inv b' p' strs ∧ cap b' = cap b ∧
    encodes (take (blen b') p') (handle h) s ∧
    ∃ ext, take (blen b') p' = take (blen b) p ++ ext.
Proof.
  intros Hinv Hst. pose proof Hinv as (Hp & Hl & Hb & Hr & Hpool).
  unfold Build.append, Build.append_with_hash.
  destruct (Str.can_inline s) eqn:Hc.
  - exists b, (from_init 0 s (string_hash s)), p.
    split_and!; try done; [| | |exists []; by rewrite app_nil_r].
    + unfold Build.allocated_slice. destruct (Nat.ltb_spec 0 (cap b)); [|done].
      rewrite Hp. cbn. by rewrite (proj2 (Nat.leb_le _ _)) by lia.
    + repeat split; try done. unfold reserved_all in *. cbn [sum_list_with] in Hr. lia.
    + rewrite handle_init, init_cases, Hc by apply Hst. by apply storable_inline.
  - destruct (write_step b p s strs Hinv Hst Hc) as (p' & Hw & Hlp & Ht & He).
    assert (Hr' : (blen b + length s + reserved_all strs <= cap b)%nat).
    { unfold reserved_all in *. cbn [sum_list_with] in Hr. unfold reserved at 1 in Hr.
      rewrite Hc in Hr. lia. }
    assert (Hpool' : pool_ok (take (blen b + length s) p') (string_pool b))
      by (rewrite Ht; by apply pool_ok_app).
    destruct (string_pool b !! string_hash s) as [v|] eqn:Hv.
    + rewrite Hp. cbn. rewrite (proj2 (Nat.leb_le _ _)) by lia. cbn [negb].
      rewrite take_ge by lia.
      case_bool_decide as E; cbn [negb].
      * exists b, (from_pooled v (string_hash s)), p.
        split_and!; try done; [| |exists []; by rewrite app_nil_r].
        -- repeat split; try done. lia.
        -- rewrite handle_pooled. destruct (Hpool _ _ Hv) as [str' Hstr].
           assert (str' = s) as ->; [|done].
           rewrite <- E. symmetry. apply slice_encodes.
           rewrite <- (take_drop (blen b) p). by apply encodes_app.
      * unfold Build.append_without_pool. rewrite Hc, Hw. cbn.
        do 3 eexists. split; [done|]. cbn [blen cap].
        split_and!; [repeat split; try done; cbn; lia|done|by rewrite handle_init|eauto].
    + rewrite Hw. cbn. do 3 eexists. split; [done|]. cbn [blen cap].
      split_and!; [|done|by rewrite handle_pooled|eauto].
      repeat split; try done. apply map_Forall_insert_2; eauto.
Qed.

Fixpoint build_all (b : Builder) (strs : list bytes) : option (Builder * list T) :=
  match strs with
  | [] => Some (b, [])
  | s :: strs =>
      '(b, h) ← Build.append b s;
      '(b, hs) ← build_all b strs;
      Some (b, h :: hs)
  end.

Lemma build_all_spec strs b p :
  builder_inv b p strs → Forall storable strs →
  ∃ b' hs p',
    build_all b strs = Some (b', hs) ∧ builder_inv b' p' [] ∧ cap b' = cap b ∧
    Forall2 (λ h s, encodes (take (blen b') p') (handle h) s) hs strs ∧
    ∃ ext, take (blen b') p' = take (blen b) p ++ ext.
Proof.
  revert b p. induction strs as [|s strs IH]; intros b p Hinv Hst.
  { exists b, [], p. split_and!; auto. exists []. by rewrite app_nil_r. }
  inversion Hst as [|? ? Hs Hss]; subst.
  destruct (append_step b p s strs Hinv Hs) as (b1 & h & p1 & E1 & H1 & Hc1 & He & x1 & Hx1).
  destruct (IH b1 p1 H1 Hss) as (b2 & hs & p2 & E2 & H2 & Hc2 & Hf & x2 & Hx2).
  exists b2, (h :: hs), p2. cbn [build_all]. rewrite E1. cbn. rewrite E2. cbn.
  split_and!; [done|done|lia| |].
  - constructor; [|done]. rewrite Hx2. by apply encodes_app.
  - exists (x1 ++ x2). by rewrite Hx2, Hx1, app_assoc.
Qed.

(** Counting a list of strings, allocating once and appending the same list
    never runs out of the reserved bytes, and every handle reads back. *)
Theorem builder_protocol (strs : list bytes) :
  Forall storable strs → Z.of_nat (length (concat strs)) < 2 ^ 31 →
  ∃ b' (hs : list T) alloc,
    build_all (Build.allocate (foldl Build.count Build.default strs)) strs = Some (b', hs) ∧
    (blen b' <= cap b')%nat ∧ Build.allocated_slice b' = Some alloc ∧
    map (λ h, Str.str_slice (handle h) alloc) hs = strs.
Proof.
  intros Hst Hlen. rewrite count_all by done. cbn [blen cap bptr Build.default Nat.add].
  unfold Build.allocate. cbn [blen cap string_pool].
  set (n := reserved_all strs).
  assert (Hn : (n <= length (concat strs))%nat).
  { subst n. clear. unfold reserved_all. induction strs as [|s strs IH]; cbn; [done|].
    rewrite length_app. unfold reserved at 1. case_match; lia. }
  destruct (build_all_spec strs (mkBuilder 0 n (Some (replicate n 0)) ∅) (replicate n 0))
    as (b' & hs & p' & E & (Hp & Hl & _ & Hr & _) & Hcap & Hf & _); [|done|].
  { repeat split; cbn; try (rewrite length_replicate); try lia. apply map_Forall_empty. }
  cbn [cap] in Hcap.
  exists b', hs, p'. split_and!; [done|lia| |].
  - unfold Build.allocated_slice. destruct (Nat.ltb_spec 0 (cap b')).
    + rewrite Hp. cbn. rewrite (proj2 (Nat.leb_le _ _)) by lia. by rewrite take_ge by lia.
    + destruct p'; [done|cbn in *; lia].
  - clear -Hf. induction Hf as [|h s hs strs He Hf IH]; cbn; [done|].
    f_equal; [|done]. apply slice_encodes.
    rewrite <- (take_drop (blen b') p'). by apply encodes_app.
Qed.
End builder.

Lemma builder_protocol_witness :
  let strs := [bs "a-long-string"; bs "short"; bs "a-long-string"; bs "another-long-one"] in
  ∃ b' (hs : list SemString) alloc,
    build_all (Build.allocate (foldl Build.count Build.default strs)) strs = Some (b', hs) ∧
    (blen b' <= cap b')%nat ∧ Build.allocated_slice b' = Some alloc ∧
    map (λ h, Str.str_slice (handle h) alloc) hs = strs.
Proof.
  apply builder_protocol; [|cbn; lia].
  repeat (apply Forall_cons_2; [apply storable_check; reflexivity|]). apply Forall_nil_2.
Defined.
