(* ===== verification/SemverVersion.v ===== *)
(** * [src/semver/Version.rs]: versions, their order, parsing and printing

    [VersionType<T>] at [T = u64]; a [Tag] holds two packed strings that are
    read against the buffer they were parsed from, so every operation takes the
    buffers the source takes. The parser's loops take the input length as fuel,
    which is never exhausted ([parse_loop_fuel] and [scan_loop_fuel] of
    [SemverVersionFacts], [coerce_loop_fuel] of [SemverCoerce]). *)

From S2P Require Import Prelude BunStrings Wyhash SemverString.
#[local] Open Scope Z_scope.

(** ** Data *)

Inductive Wildcard := WNone | WMajor | WMinor | WPatch.
Inductive ChangedVersion := CMajor | CMinor | CPatch | CPre | CBuild | CNone.
Inductive PinnedVersion := PMajor | PMinor | PPatch.

#[export] Instance Wildcard_eq_dec : EqDecision Wildcard.
Proof. solve_decision. Defined.
#[export] Instance PinnedVersion_eq_dec : EqDecision PinnedVersion.
Proof. solve_decision. Defined.

Record Tag := mkTag { pre : ExternalString; build : ExternalString }.
Record Version := mkVersion { major : Z; minor : Z; patch : Z; tag : Tag }.
Record Partial := mkPartial {
  p_major : option Z; p_minor : option Z; p_patch : option Z; p_tag : Tag }.
Record TagResult := mkTagResult { tr_tag : Tag; tr_len : nat }.
Record ParseResult := mkParseResult {
  wildcard : Wildcard;
  valid : bool;
  overflow : bool;
  version : Partial;
  plen : nat;
}.

#[export] Instance Tag_eq_dec : EqDecision Tag.
Proof. solve_decision. Defined.
#[export] Instance Version_eq_dec : EqDecision Version.
Proof. solve_decision. Defined.

Definition Tag_default : Tag := mkTag Ext.default Ext.default.
Definition Version_default : Version := mkVersion 0 0 0 Tag_default.
Definition Partial_default : Partial := mkPartial None None None Tag_default.
Definition ParseResult_default : ParseResult := mkParseResult WNone true false Partial_default 0.

(** [T::parse_ascii] at [u64]. *)
Definition parse_ascii (s : bytes) : option Z :=
  match parse_unsigned_u64 s 10 with Ok v => Some v | Err _ => None end.

(** ** [Tag] *)
Module TagOps.
Definition has_pre (t : Tag) : bool := negb (Ext.is_empty (pre t)).
Definition has_build (t : Tag) : bool := negb (Ext.is_empty (build t)).

(** [-0], with the hash the source writes out. *)
Definition ZERO_PRE : Tag :=
  mkTag (mkExternal (mkString [ch "0"; 0; 0; 0; 0; 0; 0; 0]) 0xb8f8325b21a8a1e5)
        (mkExternal Str.EMPTY 0).

Definition eql (t rhs : Tag) : bool := ehash (pre t) =? ehash (pre rhs).

(** One comparison of two identifiers; [Eq] means "go on". *)
Definition order_part (lhs rhs : bytes) : comparison :=
  match parse_ascii lhs, parse_ascii rhs with
  | Some _, None => Lt
  | None, Some _ => Gt
  | None, None => lex_cmp Z.compare lhs rhs
  | Some l, Some r => Z.compare l r
  end.

Fixpoint order_pre_loop (fuel : nat) (lhs_itr rhs_itr : SplitIterator) : comparison :=
  match fuel with
  | O => Eq
  | S fuel =>
      let '(lhs_part, lhs_itr) := split_next lhs_itr in
      let '(rhs_part, rhs_itr) := split_next rhs_itr in
      match lhs_part, rhs_part with
      | None, None => Eq
      | Some _, None => Gt
      | None, Some _ => Lt
      | Some l, Some r =>
          match order_part l r with
          | Eq => order_pre_loop fuel lhs_itr rhs_itr
          | not_equal => not_equal
          end
      end
  end.

Definition order_pre (t rhs : Tag) (lhs_buf rhs_buf : bytes) : comparison :=
  let lhs_str := Ext.ext_slice (pre t) lhs_buf in
  let rhs_str := Ext.ext_slice (pre rhs) rhs_buf in
  order_pre_loop (S (S (length lhs_str + length rhs_str)))
    (split lhs_str (ch ".")) (split rhs_str (ch ".")).

Definition order (t rhs : Tag) (lhs_buf rhs_buf : bytes) : comparison :=
  if negb (Ext.is_empty (pre t)) && negb (Ext.is_empty (pre rhs))
  then order_pre t rhs lhs_buf rhs_buf
  else match Ext.order (pre t) (pre rhs) lhs_buf rhs_buf with
       | Eq => Ext.order (build t) (build rhs) lhs_buf rhs_buf
       | pre_order => pre_order
       end.

Definition order_without_build (t rhs : Tag) (lhs_buf rhs_buf : bytes) : comparison :=
  if negb (Ext.is_empty (pre t)) && negb (Ext.is_empty (pre rhs))
  then order_pre t rhs lhs_buf rhs_buf
  else Ext.order (pre t) (pre rhs) lhs_buf rhs_buf.

(** The copies of [clone_into]; [None] when [buf] is too short. *)
Definition clone_one (s : ExternalString) (slice_buf buf : bytes) (offset : nat)
  : option (SemString * bytes * nat) :=
  if Ext.is_inline s then Some (value s, buf, offset)
  else
    let b := Ext.ext_slice s slice_buf in
    let start := offset in
    let offset := (offset + length b)%nat in
    if (offset <=? length buf)%nat
    then Some (Str.init (Z.of_nat start) b, splice buf start b, offset)
    else None.

Definition clone_into (t : Tag) (slice_buf buf : bytes) (offset : nat)
  : option (Tag * bytes * nat) :=
  '(p, buf, offset) ← clone_one (pre t) slice_buf buf offset;
  '(b, buf, offset) ← clone_one (build t) slice_buf buf offset;
  Some (mkTag (mkExternal p (ehash (pre t))) (mkExternal b (ehash (build t))), buf, offset).

(** The first pass of [parse_with_pre_count]: [+] and [-] before a space. *)
Fixpoint count_marks (input : bytes) (build_count pre_count : Z) : Z * Z :=
  match input with
  | [] => (build_count, pre_count)
  | c :: t =>
      if c =? ch " " then (build_count, pre_count)
      else if c =? ch "+" then count_marks t (build_count + 1) pre_count
      else if c =? ch "-" then count_marks t build_count (pre_count + 1)
      else count_marks t build_count pre_count
  end.

Inductive TState := SNone | SPre | SBuild.

(** The locals of the second pass. *)
Record Scan := mkScan {
  sc_tag : Tag; sc_state : TState; sc_start : nat; sc_i : nat }.

Definition set_pre (t : Tag) (s : ExternalString) : Tag := mkTag s (build t).
Definition set_build (t : Tag) (s : ExternalString) : Tag := mkTag (pre t) s.

Definition tag_char (c : Z) : bool := is_ascii_alphanumeric c || (c =? ch ".").

(** [sliced_string.sub(&input[start..i]).external()]. *)
Definition external_at (ss : SlicedString) (start i : nat) : option ExternalString :=
  s ← Sliced.sub_range ss start i; Some (Sliced.external s).

(** [None] is an index or a slice out of range, or that the rounds do not suffice. *)
Fixpoint scan_loop (fuel : nat) (ss : SlicedString) (initial_pre_count : Z) (st : Scan) : option Scan :=
  match fuel with
  | O => None
  | S fuel =>
      let '(mkScan t state start i) := st in
      let input := ss_slice ss in
      if (i <? length input)%nat then
        c ← input !! i;
        if c =? ch "+" then
          t' ← match state with
               | SPre => e ← external_at ss start i; Some (set_pre t e)
               | SNone => if 0 <? initial_pre_count
                          then e ← external_at ss start i; Some (set_pre t e) else Some t
               | SBuild => Some t
               end;
          match state with
          | SBuild => scan_loop fuel ss initial_pre_count (mkScan t' state start (i + 1))
          | _ => scan_loop fuel ss initial_pre_count (mkScan t' SBuild (i + 1) (i + 1))
          end
        else if c =? ch "-" then
          match state with
          | SNone => scan_loop fuel ss initial_pre_count (mkScan t SPre (i + 1) (i + 1))
          | _ => scan_loop fuel ss initial_pre_count (mkScan t state start (i + 1))
          end
        else if tag_char c then
          scan_loop fuel ss initial_pre_count (mkScan t state start (i + 1))
        else
          match state with
          | SNone => Some (mkScan t SNone start i)
          | SPre => e ← external_at ss start i; Some (mkScan (set_pre t e) SNone start i)
          | SBuild => e ← external_at ss start i; Some (mkScan (set_build t e) SNone start i)
          end
      else Some st
  end.

Definition parse_with_pre_count (ss : SlicedString) (initial_pre_count : Z) : option TagResult :=
  let input := ss_slice ss in
  let '(build_count, pre_count) := count_marks input 0 initial_pre_count in
  if (build_count =? 0) && (pre_count =? 0) then Some (mkTagResult Tag_default 0)
  else
    '(mkScan t state start i) ←
      scan_loop (S (length input)) ss initial_pre_count (mkScan Tag_default SNone 0 0);
    let '(state, start) :=
      match state with
      | SNone => if 0 <? initial_pre_count then (SPre, 0%nat) else (state, start)
      | _ => (state, start)
      end in
    t ← match state with
        | SNone => Some t
        | SPre => e ← external_at ss start i; Some (set_pre t e)
        | SBuild => e ← external_at ss start i; Some (set_build t e)
        end;
    Some (mkTagResult t i).

Definition parse (ss : SlicedString) : option TagResult := parse_with_pre_count ss 0.
End TagOps.

(** ** [Version] *)
Module Ver.
Definition is_zero (v : Version) : bool := (patch v =? 0) && (minor v =? 0) && (major v =? 0).

Definition eql (v rhs : Version) : bool :=
  (major v =? major rhs) && (minor v =? minor rhs) && (patch v =? patch rhs) &&
  TagOps.eql (tag rhs) (tag v).

Definition order_without_tag (lhs rhs : Version) : comparison :=
  if major lhs <? major rhs then Lt
  else if major rhs <? major lhs then Gt
  else if minor lhs <? minor rhs then Lt
  else if minor rhs <? minor lhs then Gt
  else if patch lhs <? patch rhs then Lt
  else if patch rhs <? patch lhs then Gt
  else if TagOps.has_pre (tag lhs) then
    if negb (TagOps.has_pre (tag rhs)) then Lt else Eq
  else if TagOps.has_pre (tag rhs) then Gt else Eq.

Definition order (v rhs : Version) (lhs_buf rhs_buf : bytes) : comparison :=
  match order_without_tag v rhs with
  | Eq => TagOps.order (tag v) (tag rhs) lhs_buf rhs_buf
  | o => o
  end.

Definition order_without_build (v rhs : Version) (lhs_buf rhs_buf : bytes) : comparison :=
  match order_without_tag v rhs with
  | Eq => TagOps.order_without_build (tag v) (tag rhs) lhs_buf rhs_buf
  | o => o
  end.

Definition clone_into (v : Version) (slice_buf buf : bytes) (offset : nat)
  : option (Version * bytes * nat) :=
  '(t, buf, offset) ← TagOps.clone_into (tag v) slice_buf buf offset;
  Some (mkVersion (major v) (minor v) (patch v) t, buf, offset).

Definition which_version_is_different (left right : Version) (left_buf right_buf : bytes)
  : option ChangedVersion :=
  if negb (major left =? major right) then Some CMajor
  else if negb (minor left =? minor right) then Some CMinor
  else if negb (patch left =? patch right) then Some CPatch
  else if negb (eqb (TagOps.has_pre (tag left)) (TagOps.has_pre (tag right))) then Some CPre
  else if negb (TagOps.has_pre (tag left)) && negb (TagOps.has_pre (tag right)) then None
  else match TagOps.order_pre (tag left) (tag right) left_buf right_buf with
       | Eq =>
           if negb (eqb (TagOps.has_build (tag left)) (TagOps.has_build (tag right)))
           then Some CBuild
           else if negb (TagOps.has_build (tag left)) && negb (TagOps.has_build (tag right))
           then None
           else match Ext.order (build (tag left)) (build (tag right)) left_buf right_buf with
                | Eq => None
                | _ => Some CBuild
                end
       | _ => Some CPre
       end.

(** [Partial::min] and [Partial::max]. *)
Definition min (p : Partial) : Version :=
  mkVersion (default 0 (p_major p)) (default 0 (p_minor p)) (default 0 (p_patch p)) (p_tag p).
Definition max (p : Partial) : Version :=
  mkVersion (default U64_MAX (p_major p)) (default U64_MAX (p_minor p))
            (default U64_MAX (p_patch p)) (p_tag p).

(** [impl Display for Formatter]; tags are ASCII, so [BStr] writes them as is. *)
Definition fmt (v : Version) (input : bytes) : bytes :=
  print_u64 (major v) ++ [ch "."] ++ print_u64 (minor v) ++ [ch "."] ++ print_u64 (patch v) ++
  (if TagOps.has_pre (tag v) then [ch "-"] ++ Ext.ext_slice (pre (tag v)) input else []) ++
  (if TagOps.has_build (tag v) then [ch "+"] ++ Ext.ext_slice (build (tag v)) input else []).

(** *** [parse] *)

(** Whitespace, [v] and [=] before the version. *)
Definition is_leading (c : Z) : bool :=
  (c =? ch " ") || (c =? 9) || (c =? 10) || (c =? 13) || (c =? 11) || (c =? 12) ||
  (c =? ch "v") || (c =? ch "=").

Definition is_stop (c : Z) : bool :=
  (c =? ch "|") || (c =? ch "^") || (c =? ch "#") || (c =? ch "&") || (c =? ch "%") ||
  (c =? ch "!").

Definition is_x (c : Z) : bool := (c =? ch "x") || (c =? ch "*") || (c =? ch "X").

Definition set_valid (r : ParseResult) (b : bool) : ParseResult :=
  mkParseResult (wildcard r) b (overflow r) (version r) (plen r).
Definition set_overflow (r : ParseResult) : ParseResult :=
  mkParseResult (wildcard r) (valid r) true (version r) (plen r).
Definition set_wildcard (r : ParseResult) (w : Wildcard) : ParseResult :=
  mkParseResult w (valid r) (overflow r) (version r) (plen r).
Definition set_version (r : ParseResult) (p : Partial) : ParseResult :=
  mkParseResult (wildcard r) (valid r) (overflow r) p (plen r).
Definition set_len (r : ParseResult) (n : nat) : ParseResult :=
  mkParseResult (wildcard r) (valid r) (overflow r) (version r) n.

Definition set_part (p : Partial) (part_i : nat) (n : option Z) : Partial :=
  match part_i with
  | 0%nat => mkPartial n (p_minor p) (p_patch p) (p_tag p)
  | 1%nat => mkPartial (p_major p) n (p_patch p) (p_tag p)
  | _ => mkPartial (p_major p) (p_minor p) n (p_tag p)
  end.

Definition set_tag (p : Partial) (t : Tag) : Partial :=
  mkPartial (p_major p) (p_minor p) (p_patch p) t.

(** The locals of the main loop: cursor, number of parts read, result. *)
Record PS := mkPS { ps_i : nat; ps_part : nat; ps_res : ParseResult }.

Inductive Flow := Continue (st : PS) | Break (st : PS).

(** [i < input.len() && input[i] == c]. *)
Definition at_char (input : bytes) (i : nat) (c : Z) : option bool :=
  if (i <? length input)%nat then c' ← input !! i; Some (c' =? c) else Some false.

(** [None] when the number is above [u64::MAX]; the outer one is the assertion. *)
Definition parse_version_number (input : bytes) : option (option Z) :=
  if negb (length input =? 0)%nat && forallb is_ascii_digit input then Some (parse_ascii input) else None.

(** The [.] after a number is expected only if there are core numbers left. *)
Definition skip_dot (input : bytes) (i part_i : nat) : option nat :=
  dot ← at_char input i (ch ".");
  Some (if (dot : bool) && negb (part_i =? 3)%nat then (i + 1)%nat else i).

(** The body of [while i < input.len()] at a digit; here and below [None] is a
    panic: an index or a slice out of range, a failed assertion. *)
Definition step_digits (input : bytes) (st : PS) : option Flow :=
  let '(mkPS i part_i r) := st in
  let part_start_i := i in
  i ← skip_while (S (length input)) is_ascii_digit input (i + 1);
  if (part_i <? 3)%nat then
    text ← slice_range input part_start_i i;
    number ← parse_version_number text;
    let r := if bool_decide (number = None) then set_valid r false else r in
    if bool_decide (number = None) && bool_decide (wildcard r = WNone)
    then Some (Break (mkPS i part_i (set_overflow r)))
    else
      let r := set_version r (set_part (version r) part_i number) in
      j ← skip_dot input i (part_i + 1);
      Some (Continue (mkPS j (part_i + 1) r))
  else j ← skip_dot input i part_i; Some (Continue (mkPS j part_i r)).

(** ... at [x], [X] or [*]. *)
Definition step_x (input : bytes) (st : PS) : option Flow :=
  let '(mkPS i part_i r) := st in
  glued ← (if (0 <? i)%nat then c ← input !! (i - 1)%nat; Some (is_ascii_digit c) else Some false);
  let r := if (glued : bool) then set_valid r false else r in
  i ← skip_while (S (length input)) is_x input (i + 1);
  dot ← at_char input i (ch ".");
  let i := if (dot : bool) then (i + 1)%nat else i in
  Some (if bool_decide (wildcard r = WNone) then
          match part_i with
          | 0%nat => Continue (mkPS i 1 (set_wildcard r WMajor))
          | 1%nat => Continue (mkPS i 2 (set_wildcard r WMinor))
          | 2%nat => Continue (mkPS i 3 (set_wildcard r WPatch))
          | _ => Continue (mkPS i part_i r)
          end
        else Continue (mkPS i part_i r)).

(** The tag from the cursor on: [sliced_string.sub(&input[part_start_i..])]. *)
Definition read_tag (ss : SlicedString) (pre_count : Z) (st : PS) : option Flow :=
  let '(mkPS i part_i r) := st in
  rest ← Sliced.sub_range ss i (length (ss_slice ss));
  tr ← TagOps.parse_with_pre_count rest pre_count;
  Some (Break (mkPS (i + tr_len tr) part_i (set_version r (set_tag (version r) (tr_tag tr))))).

(** ... at [-] or [+]. *)
Definition step_tag (ss : SlicedString) (c : Z) (st : PS) : option Flow :=
  let '(mkPS i part_i r) := st in
  let fewest_parts := if c =? ch "+" then 1%nat else 2%nat in
  if (part_i <? fewest_parts)%nat && bool_decide (wildcard r = WNone) then
    Some (Break (mkPS i part_i (set_valid r false)))
  else read_tag ss 0 st.

(** ... at any other byte. *)
Definition step_other (ss : SlicedString) (c : Z) (st : PS) : option Flow :=
  let '(mkPS i part_i r) := st in
  if bool_decide (wildcard r = WNone) && (2 <=? part_i)%nat && is_ascii_alphabetic c then read_tag ss 1 st
  else Some (Break (mkPS i part_i (set_valid r false))).

Definition step (ss : SlicedString) (st : PS) : option Flow :=
  let input := ss_slice ss in
  let '(mkPS i part_i r) := st in
  c ← input !! i;
  if c =? ch " " then Some (Break st)
  else if is_stop c then Some (Break (mkPS (i - 1) part_i r)) (* [saturating_sub] *)
  else if is_ascii_digit c then step_digits input st
  else if c =? ch "." then Some (Break (mkPS i part_i (set_valid r false)))
  else if (c =? ch "-") || (c =? ch "+") then step_tag ss c st
  else if is_x c then step_x input st
  else step_other ss c st.

Fixpoint parse_loop (fuel : nat) (ss : SlicedString) (st : PS) : option PS :=
  match fuel with
  | O => None
  | S fuel =>
      if (ps_i st <? length (ss_slice ss))%nat then
        flow ← step ss st;
        match flow with
        | Continue st' => parse_loop fuel ss st'
        | Break st' => Some st'
        end
      else Some st
  end.

(** [result.len = u32::try_from(i).expect("int cast")]. *)
Definition store_len (r : ParseResult) (i : nat) : option ParseResult :=
  if Z.of_nat i <? 2 ^ 32 then Some (set_len r i) else None.

(** The missing parts become a wildcard. *)
Definition finish (st : PS) : option ParseResult :=
  let '(mkPS i part_i r) := st in
  let r :=
    if bool_decide (wildcard r = WNone) then
      match part_i with
      | 0%nat => set_wildcard (set_valid r false) WMajor
      | 1%nat => set_wildcard r WMinor
      | 2%nat => set_wildcard r WPatch
      | _ => r
      end
    else r in
  store_len r i.

Definition parse (ss : SlicedString) : option ParseResult :=
  let input := ss_slice ss in
  let result := ParseResult_default in
  if (length input =? 0)%nat then Some (set_valid result false)
  else
    (* [for c in 0..input.len()] up to the first other byte *)
    let i := count_while is_leading input in
    if (i =? length input)%nat then
      store_len (set_wildcard (set_valid result false) WMajor) i
    else
      st ← parse_loop (S (length input)) ss (mkPS i 0 result);
      finish st.

Definition parse_utf8 (b : bytes) : option ParseResult := parse (Sliced.init b).

(** [parse_exact]: the whole of the trimmed input, no wildcard; the outer [None]
    is a panic. *)
Definition parse_exact (ss : SlicedString) : option (option Version) :=
  let begin := count_while (contains WHITESPACE_CHARS) (ss_slice ss) in
  let trimmed := trim (ss_slice ss) WHITESPACE_CHARS in
  parsed ← parse (Sliced.sub ss begin (begin + length trimmed));
  Some (if valid parsed && bool_decide (wildcard parsed = WNone) && (plen parsed =? length trimmed)%nat
        then Some (min (version parsed)) else None).

(** *** [coerce] *)

Definition LONGEST : nat := 16.
Definition MAX_SAFE_INTEGER : Z := 2 ^ 53 - 1.

Definition digits (text : bytes) : nat := count_while is_ascii_digit text.

Definition coerce_part (text : bytes) : option (bytes * bytes) :=
  match text with
  | c :: text =>
      if c =? ch "." then
        let n := digits text in
        if (1 <=? n)%nat && (n <=? LONGEST)%nat then Some (take n text, drop n text) else None
      else None
  | [] => None
  end.

Definition coerce_number (ds : bytes) : option Z :=
  match ds with
  | c :: _ :: _ =>
      if c =? ch "0" then None
      else n ← parse_ascii ds; if n <=? MAX_SAFE_INTEGER then Some n else None
  | _ => n ← parse_ascii ds; if n <=? MAX_SAFE_INTEGER then Some n else None
  end.

Fixpoint coerce_loop (fuel : nat) (rest : bytes) : option Version :=
  match fuel with
  | O => None
  | S fuel =>
      let start := count_while (λ c, negb (is_ascii_digit c)) rest in
      let from := drop start rest in
      let n := digits from in
      let major := take n from in
      let after := drop n from in
      if (length major =? 0)%nat then None
      else if (LONGEST <? length major)%nat then coerce_loop fuel after
      else
        let minor := coerce_part after in
        let patch := it ← minor; coerce_part (snd it) in
        mj ← coerce_number major;
        mn ← match minor with None => Some 0 | Some it => coerce_number (fst it) end;
        pt ← match patch with None => Some 0 | Some it => coerce_number (fst it) end;
        Some (mkVersion mj mn pt Tag_default)
  end.

Definition coerce (text : bytes) : option Version := coerce_loop (S (length text)) text.

(** *** [which_version_is_pinned] *)

Definition valid_pre_or_build_tag_character (c : Z) : bool :=
  (c =? ch "-") || (c =? ch "+") || (c =? ch ".") || is_ascii_upper c || is_ascii_lower c ||
  is_ascii_digit c.

(** The prefix: what is pinned and where the numbers start, or a final answer. *)
Definition pinned_prefix (version : bytes) : PinnedVersion * option nat :=
  let j := count_while is_leading version in
  match drop j version with
  | [] => (PMajor, None)
  | c :: rest =>
      if (c =? ch "~") || (c =? ch "^") then
        let k := (j + 1 + count_while (contains WHITESPACE_CHARS) rest)%nat in
        if (k <? length version)%nat
        then (if c =? ch "~" then PMinor else PMajor, Some k)
        else (PMajor, None)
      else if is_ascii_digit c then (PPatch, Some j)
      else (PMajor, None)
  end.

(** One run of digits: [None] unless there is one; then the position after it. *)
Definition pinned_number (version : bytes) (i : nat) : option nat :=
  if (length version <=? i)%nat || negb (is_ascii_digit (nth i version 0)) then None
  else Some (i + count_while is_ascii_digit (drop i version))%nat.

Definition if_patch (pinned other : PinnedVersion) : PinnedVersion :=
  if bool_decide (pinned = PPatch) then other else pinned.

Definition pinned_tail (version : bytes) (pinned : PinnedVersion) (i : nat) : PinnedVersion :=
  let d := nth i version 0 in
  if negb (valid_pre_or_build_tag_character d) || is_ascii_whitespace d then PMajor
  else
    let i := (i + 1)%nat in
    if (length version <=? i)%nat then pinned
    else
      let ok c := valid_pre_or_build_tag_character c && negb (is_ascii_whitespace c) in
      if (length version <=? i + count_while ok (drop i version))%nat then pinned else PMajor.

Definition which_version_is_pinned (input : bytes) : PinnedVersion :=
  let version := trim input WHITESPACE_CHARS in
  let len := length version in
  match pinned_prefix version with
  | (answer, None) => answer
  | (pinned, Some i) =>
      (* major *)
      match pinned_number version i with
      | None => PMajor
      | Some i =>
          if (len <=? i)%nat then if_patch pinned PMajor
          else if negb (nth i version 0 =? ch ".") then PMajor
          else
            (* minor *)
            match pinned_number version (i + 1) with
            | None => PMajor
            | Some i =>
                if (len <=? i)%nat then if_patch pinned PMinor
                else if negb (nth i version 0 =? ch ".") then PMajor
                else
                  (* patch *)
                  match pinned_number version (i + 1) with
                  | None => PMajor
                  | Some i =>
                      if (len <=? i)%nat then pinned else pinned_tail version pinned i
                  end
            end
      end
  end.

Definition is_tagged_version_only (input : bytes) : bool :=
  match trim input WHITESPACE_CHARS with
  | [] => false
  | c :: rest => is_ascii_alphabetic c && forallb is_ascii_alphanumeric rest
  end.
End Ver.

Example coerce_examples :
  (λ t, (λ v, (major v, minor v, patch v)) <$> Ver.coerce t) <$>
    [bs "0"; bs "v1"; bs "x 16.3 y"; bs "1.2.3.4"; bs "1..2"; bs "1.22222222222222222.3";
     bs "99999999999999999.2.3 4.5"; bs "9007199254740992"; bs "01.2.3"; bs "abc"]
  = [Some (0, 0, 0); Some (1, 0, 0); Some (16, 3, 0); Some (1, 2, 3); Some (1, 0, 0);
     Some (1, 0, 0); Some (2, 3, 0); None; None; None].
Proof. vm_compute. reflexivity. Qed.

Example parse_zero_pre : (λ r, p_tag (version r)) <$> Ver.parse_utf8 (bs "1.0.0-0") = Some TagOps.ZERO_PRE.
Proof. vm_compute. reflexivity. Qed.
