(* ===== verification/SemverOrder.v ===== *)
(** * The order of versions refines semver precedence

    An abstract version is three numbers and either a list of prerelease
    identifiers or none (then, for the full order, the build metadata). The
    comparisons of [Version.rs], which walk packed strings with two split
    iterators, are shown to compute the lexicographic order of that view, and
    so to be total preorders. *)

From S2P Require Import Prelude BunStrings Wyhash SemverString SemverVersion.
#[local] Open Scope Z_scope.

(** ** The specification *)

Inductive ident := Num (n : Z) | Alpha (s : bytes).

(** Numbers compare as numbers, below words, which compare as byte strings. *)
Definition ident_cmp (x y : ident) : comparison :=
  match x, y with
  | Num a, Num b => Z.compare a b
  | Num _, Alpha _ => Lt
  | Alpha _, Num _ => Gt
  | Alpha a, Alpha b => lex_cmp Z.compare a b
  end.

(** A prerelease is below the release; [B] is what tells releases apart. *)
Definition label_cmp {B} (cmp : B → B → comparison) (x y : list ident + B) : comparison :=
  match x, y with
  | inl a, inl b => lex_cmp ident_cmp a b
  | inl _, inr _ => Lt
  | inr _, inl _ => Gt
  | inr a, inr b => cmp a b
  end.

Record spec_version (B : Type) := mkSpec {
  s_major : Z; s_minor : Z; s_patch : Z; s_label : list ident + B }.
Arguments mkSpec {B}.
Arguments s_major {B}.
Arguments s_minor {B}.
Arguments s_patch {B}.
Arguments s_label {B}.

Definition spec_cmp {B} (cmp : B → B → comparison) (x y : spec_version B) : comparison :=
  cmp_then (Z.compare (s_major x) (s_major y))
    (cmp_then (Z.compare (s_minor x) (s_minor y))
       (cmp_then (Z.compare (s_patch x) (s_patch y))
          (label_cmp cmp (s_label x) (s_label y)))).

(** Releases that differ in their build metadata only have equal precedence. *)
Definition no_build (_ _ : unit) : comparison := Eq.

#[export] Instance ident_cmp_laws : CmpLaws ident_cmp.
Proof.
  split.
  - intros [a|a] [b|b]; cbn; try done; [apply Z.compare_antisym|apply (cmp_opp (lex_cmp Z.compare))].
  - intros [a|a] [b|b] [c|c]; cbn; try done.
    + apply (cmp_lt_trans Z.compare).
    + apply (cmp_lt_trans (lex_cmp Z.compare)).
  - intros [a|a] [b|b] [c|c]; cbn; try done.
    + apply (cmp_eq_l Z.compare).
    + apply (cmp_eq_l (lex_cmp Z.compare)).
Qed.

#[export] Instance label_cmp_laws {B} (cmp : B → B → comparison) :
  CmpLaws cmp → CmpLaws (label_cmp cmp).
Proof.
  intros Hc. split.
  - intros [a|a] [b|b]; cbn; try done; [apply (cmp_opp (lex_cmp ident_cmp))|apply (cmp_opp cmp)].
  - intros [a|a] [b|b] [c|c]; cbn; try done.
    + apply (cmp_lt_trans (lex_cmp ident_cmp)).
    + apply (cmp_lt_trans cmp).
  - intros [a|a] [b|b] [c|c]; cbn; try done.
    + apply (cmp_eq_l (lex_cmp ident_cmp)).
    + apply (cmp_eq_l cmp).
Qed.

#[export] Instance no_build_laws : CmpLaws no_build.
Proof. split; done. Qed.

#[export] Instance spec_cmp_laws {B} (cmp : B → B → comparison) :
  CmpLaws cmp → CmpLaws (spec_cmp cmp).
Proof. intros Hc. unfold spec_cmp. apply _. Qed.

(** ** The view of a version *)

(** What the Rust types guarantee of a packed string. *)
Definition sem_ok (s : SemString) : Prop := length (sbytes s) = 8%nat ∧ Forall is_u8 (sbytes s).
Definition tag_ok (t : Tag) : Prop := sem_ok (value (pre t)) ∧ sem_ok (value (build t)).

Definition ident_of (f : bytes) : ident :=
  match parse_ascii f with Some n => Num n | None => Alpha f end.

Definition idents (s : bytes) : list ident := map ident_of (fields (ch ".") s).

Definition label {B} (b : bytes → B) (t : Tag) (buf : bytes) : list ident + B :=
  if TagOps.has_pre t then inl (idents (Ext.ext_slice (pre t) buf))
  else inr (b (Ext.ext_slice (build t) buf)).

Definition view {B} (b : bytes → B) (v : Version) (buf : bytes) : spec_version B :=
  mkSpec (major v) (minor v) (patch v) (label b (tag v) buf).

(** The view without and with build metadata. *)
Definition prec (v : Version) (buf : bytes) : spec_version unit := view (λ _, tt) v buf.
Definition full (v : Version) (buf : bytes) : spec_version bytes := view id v buf.

(** ** Refinement *)

Lemma order_part_ident l r : TagOps.order_part l r = ident_cmp (ident_of l) (ident_of r).
Proof.
  unfold TagOps.order_part, ident_of. by destruct (parse_ascii l), (parse_ascii r).
Qed.

Lemma order_pre_loop_spec fuel it1 it2 :
  (length (remaining it1) < fuel)%nat →
  TagOps.order_pre_loop fuel it1 it2
  = lex_cmp ident_cmp (map ident_of (remaining it1)) (map ident_of (remaining it2)).
Proof.
  revert it1 it2. induction fuel as [|fuel IH]; intros it1 it2 Hf; [lia|].
  cbn [TagOps.order_pre_loop].
  pose proof (split_next_remaining it1) as H1. pose proof (split_next_remaining it2) as H2.
  destruct (split_next it1) as [[f1|] it1'], (split_next it2) as [[f2|] it2'];
    rewrite H1, H2; cbn [map lex_cmp]; try done.
  rewrite order_part_ident. rewrite H1 in Hf. cbn in Hf.
  destruct (ident_cmp _ _); cbn; try done. apply IH. lia.
Qed.

Lemma order_pre_spec t1 t2 b1 b2 :
  TagOps.order_pre t1 t2 b1 b2
  = lex_cmp ident_cmp (idents (Ext.ext_slice (pre t1) b1)) (idents (Ext.ext_slice (pre t2) b2)).
Proof.
  unfold TagOps.order_pre. rewrite order_pre_loop_spec; [done|].
  rewrite remaining_split.
  pose proof (length_fields (ch ".") (Ext.ext_slice (pre t1) b1)). lia.
Qed.

(** Eight zero bytes read as the empty string, against any buffer. *)
Lemma empty_slice s buf : sem_ok s → Str.is_empty s = true → Str.str_slice s buf = [].
Proof.
  intros [Hl Hu] He%Z.eqb_eq. destruct s as [l]. cbn [sbytes] in *.
  assert (l = replicate 8 0) as ->; [|done].
  rewrite <- (to_le_le_bytes l) by done. by rewrite He, Hl.
Qed.

Lemma order_without_tag_spec v w {B} (cmp : B → B → comparison) (x y : list ident + B) :
  (∃ a, x = inl a) ↔ TagOps.has_pre (tag v) = true →
  (∃ a, y = inl a) ↔ TagOps.has_pre (tag w) = true →
  spec_cmp cmp (mkSpec (major v) (minor v) (patch v) x) (mkSpec (major w) (minor w) (patch w) y)
  = cmp_then (Ver.order_without_tag v w) (label_cmp cmp x y).
Proof.
  intros Hx Hy. unfold Ver.order_without_tag, spec_cmp. cbn [s_major s_minor s_patch s_label].
  destruct (Z.compare_spec (major v) (major w)), (Z.ltb_spec (major v) (major w)),
    (Z.ltb_spec (major w) (major v)); try lia; try done; cbn [cmp_then].
  destruct (Z.compare_spec (minor v) (minor w)), (Z.ltb_spec (minor v) (minor w)),
    (Z.ltb_spec (minor w) (minor v)); try lia; try done; cbn [cmp_then].
  destruct (Z.compare_spec (patch v) (patch w)), (Z.ltb_spec (patch v) (patch w)),
    (Z.ltb_spec (patch w) (patch v)); try lia; try done; cbn [cmp_then].
  destruct (TagOps.has_pre (tag v)), (TagOps.has_pre (tag w)); cbn; try done.
  - destruct (proj2 Hx eq_refl) as [a ->]. destruct y as [b|b]; [|done].
    discriminate (proj1 Hy (ex_intro _ b eq_refl)).
  - destruct (proj2 Hy eq_refl) as [b ->]. destruct x as [a|a]; [|done].
    discriminate (proj1 Hx (ex_intro _ a eq_refl)).
Qed.

Lemma label_inl {B} (b : bytes → B) t buf :
  (∃ a, label b t buf = inl a) ↔ TagOps.has_pre t = true.
Proof.
  unfold label. destruct (TagOps.has_pre t); split; try done; [eauto|by intros [? ?]].
Qed.

Lemma tag_order_without_build_spec t1 t2 b1 b2 :
  tag_ok t1 → tag_ok t2 → TagOps.has_pre t1 = TagOps.has_pre t2 →
  TagOps.order_without_build t1 t2 b1 b2
  = label_cmp no_build (label (λ _, tt) t1 b1) (label (λ _, tt) t2 b2).
Proof.
  intros [H1 _] [H2 _] Hp. unfold TagOps.order_without_build, label, TagOps.has_pre in *.
  destruct (Ext.is_empty (pre t1)) eqn:E1, (Ext.is_empty (pre t2)) eqn:E2; try done; cbn.
  - unfold Ext.order, Str.order. by rewrite !empty_slice.
  - apply order_pre_spec.
Qed.

Lemma tag_order_spec t1 t2 b1 b2 :
  tag_ok t1 → tag_ok t2 → TagOps.has_pre t1 = TagOps.has_pre t2 →
  TagOps.order t1 t2 b1 b2
  = label_cmp (lex_cmp Z.compare) (label id t1 b1) (label id t2 b2).
Proof.
  intros [H1 _] [H2 _] Hp. unfold TagOps.order, label, TagOps.has_pre in *.
  destruct (Ext.is_empty (pre t1)) eqn:E1, (Ext.is_empty (pre t2)) eqn:E2; try done; cbn.
  - unfold Ext.order at 1, Str.order. by rewrite !empty_slice.
  - apply order_pre_spec.
Qed.

Lemma order_without_tag_eq v w :
  Ver.order_without_tag v w = Eq → TagOps.has_pre (tag v) = TagOps.has_pre (tag w).
Proof.
  unfold Ver.order_without_tag.
  destruct (TagOps.has_pre (tag v)), (TagOps.has_pre (tag w)); repeat case_match; done.
Qed.

(** [order_without_build] computes semver precedence. *)
Lemma order_without_build_prec (v w : Version) (bv bw : bytes) :
  tag_ok (tag v) → tag_ok (tag w) →
  Ver.order_without_build v w bv bw = spec_cmp no_build (prec v bv) (prec w bw).
Proof.
  intros Hv Hw. unfold prec, view, Ver.order_without_build.
  rewrite order_without_tag_spec by apply label_inl.
  destruct (Ver.order_without_tag v w) eqn:E; cbn; try done.
  apply tag_order_without_build_spec; auto using order_without_tag_eq.
Qed.

Lemma order_refines (v w : Version) (bv bw : bytes) :
  tag_ok (tag v) → tag_ok (tag w) →
  Ver.order v w bv bw = spec_cmp (lex_cmp Z.compare) (full v bv) (full w bw).
Proof.
  intros Hv Hw. unfold full, view, Ver.order.
  rewrite order_without_tag_spec by apply label_inl.
  destruct (Ver.order_without_tag v w) eqn:E; cbn; try done.
  apply tag_order_spec; auto using order_without_tag_eq.
Qed.

Lemma parse_digits_nonneg radix acc l n :
  0 <= radix → 0 <= acc → parse_digits radix acc l = Ok n → 0 <= n.
Proof.
  intros Hr. revert acc. induction l as [|c l IH]; intros acc Ha; cbn; [by intros [= <-]|].
  destruct (c =? 95); [by apply IH|]. unfold digit_of.
  destruct (is_ascii_digit c) eqn:E1; [|destruct (is_ascii_lower c) eqn:E2;
    [|destruct (is_ascii_upper c) eqn:E3; [|done]]];
  repeat case_match; try done; apply IH; unfold is_ascii_digit, is_ascii_lower, is_ascii_upper in *; nia.
Qed.

Lemma parse_ascii_nonneg s n : parse_ascii s = Some n → 0 <= n.
Proof.
  unfold parse_ascii, parse_unsigned_u64, auto_radix. cbn [Z.eqb negb]. unfold parse_with_sign.
  destruct s as [|c s]; [done|]. destruct (_ || _); [done|].
  destruct (parse_digits 10 0 (c :: s)) as [a|] eqn:E; [|done].
  destruct (a <=? U64_MAX); [|done]. intros [= <-]. by apply parse_digits_nonneg in E.
Qed.

(** [-0] is the lowest prerelease. *)
Lemma zero_pre_lowest s : lex_cmp ident_cmp (idents s) [Num 0] ≠ Lt.
Proof.
  unfold idents. pose proof (fields_not_nil (ch ".") s) as Hne.
  destruct (fields (ch ".") s) as [|f fs]; [done|]. cbn.
  unfold ident_of. destruct (parse_ascii f) as [n|] eqn:E; cbn; [|done].
  apply parse_ascii_nonneg in E. destruct (Z.compare_spec n 0); try lia; [|done].
  by destruct (map _ fs).
Qed.

(** ** Concrete versions *)

Definition sem_okb (s : SemString) : bool :=
  (length (sbytes s) =? 8)%nat && forallb (λ x, (0 <=? x) && (x <? 256)) (sbytes s).
Definition tag_okb (t : Tag) : bool := sem_okb (value (pre t)) && sem_okb (value (build t)).

Lemma sem_ok_check s : sem_okb s = true → sem_ok s.
Proof. intros [H1%Nat.eqb_eq H2]%andb_prop. split; [done|by apply u8_check]. Qed.

Lemma tag_ok_check t : tag_okb t = true → tag_ok t.
Proof. intros [H1 H2]%andb_prop. split; by apply sem_ok_check. Qed.

(** A tag whose strings fit in their handles. *)
Definition inline_tag (p b : bytes) : Tag :=
  mkTag (mkExternal (Str.init_inline p) 0) (mkExternal (Str.init_inline b) 0).

(** ** Precedence, section 11 of the semver specification *)

(** An identifier of digits only is a number, of any size. *)
Definition semver_ident (f : bytes) : ident :=
  if negb (length f =? 0)%nat && forallb is_ascii_digit f then Num (dec_value f) else Alpha f.

(** The numbers and either the identifiers of the prerelease or nothing. *)
Definition precedence (v : Version) (buf : bytes) : spec_version unit :=
  mkSpec (major v) (minor v) (patch v)
    (if TagOps.has_pre (tag v)
     then inl (map semver_ident (fields (ch ".") (Ext.ext_slice (pre (tag v)) buf))) else inr tt).

(** What the code compares as the specification does: identifiers of letters,
    digits and hyphens, the numbers among them below 2{^64}. *)
Definition ident_char (c : Z) : bool := is_ascii_alphanumeric c || (c =? ch "-").
Definition plain_ident (f : bytes) : bool :=
  forallb ident_char f && (negb (forallb is_ascii_digit f) || (dec_value f <=? U64_MAX)).
Definition plain_pre (v : Version) (buf : bytes) : bool :=
  forallb plain_ident (fields (ch ".") (Ext.ext_slice (pre (tag v)) buf)).

Lemma parse_digits_word l acc n :
  forallb ident_char l = true → parse_digits 10 acc l = Ok n → forallb is_ascii_digit l = true.
Proof.
  revert acc. induction l as [|c l IH]; intros acc; cbn [forallb parse_digits]; [done|].
  intros [Hc Hl]%andb_prop. destruct (Z.eqb_spec c (ch "_")) as [->|]; [done|]. unfold digit_of.
  destruct (is_ascii_digit c) eqn:Ed; cbn [andb].
  - destruct (10 <=? _); [done|]. do 2 (destruct (_ <=? _); [done|]). by apply IH.
  - destruct (is_ascii_lower c) eqn:El; [|destruct (is_ascii_upper c) eqn:Eu; [|done]];
      (rewrite (proj2 (Z.leb_le _ _)); [done|]); unfold is_ascii_lower, is_ascii_upper in *; lia.
Qed.

Lemma ident_of_plain f : plain_ident f = true → ident_of f = semver_ident f.
Proof.
  unfold plain_ident, ident_of, semver_ident. intros [Hc Hn]%andb_prop.
  destruct f as [|c f]; [done|]. set (l := c :: f) in *. cbn [length Nat.eqb negb andb].
  destruct (forallb is_ascii_digit l) eqn:Ed; cbn [negb orb] in Hn.
  - unfold parse_ascii. rewrite parse_unsigned_digits by done. by rewrite Hn.
  - destruct (parse_ascii l) as [n|] eqn:Ep; [|done]. exfalso.
    unfold parse_ascii, parse_unsigned_u64, auto_radix in Ep. cbn [Z.eqb negb] in Ep.
    unfold parse_with_sign in Ep. unfold l in Ep at 1. destruct (_ || _); [done|].
    destruct (parse_digits 10 0 l) as [a|] eqn:E; [|done]. apply parse_digits_word in E; congruence.
Qed.

Lemma prec_precedence v buf : plain_pre v buf = true → prec v buf = precedence v buf.
Proof.
  unfold plain_pre, prec, view, precedence, label, idents. intros H. f_equal.
  destruct (TagOps.has_pre (tag v)); [|done]. f_equal. apply map_ext_in. intros f Hf.
  apply ident_of_plain. rewrite forallb_forall in H. by apply H.
Qed.

(** The full order is the order without build metadata and then, between two
    releases only, the bytes of the metadata. *)
Lemma full_prec v w bv bw :
  spec_cmp (lex_cmp Z.compare) (full v bv) (full w bw)
  = cmp_then (spec_cmp no_build (prec v bv) (prec w bw))
      (if TagOps.has_pre (tag v) then Eq
       else lex_cmp Z.compare (Ext.ext_slice (build (tag v)) bv) (Ext.ext_slice (build (tag w)) bw)).
Proof.
  unfold full, prec, view, label, spec_cmp. cbn [s_major s_minor s_patch s_label].
  destruct (Z.compare (major v) (major w)); cbn [cmp_then]; try done.
  destruct (Z.compare (minor v) (minor w)); cbn [cmp_then]; try done.
  destruct (Z.compare (patch v) (patch w)); cbn [cmp_then]; try done.
  destruct (TagOps.has_pre (tag v)), (TagOps.has_pre (tag w)); cbn; try done.
  by destruct (lex_cmp _ _ _).
Qed.

(** ** The properties *)

(** C25. On versions whose prerelease identifiers are letters, digits and hyphens
    with every number among them below 2{^64}, [order_without_build] is
    the precedence of the semver specification (the three numbers, then the
    dot-separated identifiers, where numbers compare as numbers and below
    words, a prefix is below its extensions, and a prerelease is below the
    release), computed on the packed strings with two split iterators; and
    [order] is that precedence and then, between two releases only, the bytes of
    the build metadata. *)
Theorem order_refines_precedence (v w : Version) (bv bw : bytes) :
  tag_ok (tag v) → tag_ok (tag w) → plain_pre v bv = true → plain_pre w bw = true →
  Ver.order_without_build v w bv bw = spec_cmp no_build (precedence v bv) (precedence w bw) ∧
  Ver.order v w bv bw =
    cmp_then (spec_cmp no_build (precedence v bv) (precedence w bw))
      (if TagOps.has_pre (tag v) then Eq
       else lex_cmp Z.compare (Ext.ext_slice (build (tag v)) bv) (Ext.ext_slice (build (tag w)) bw)).
Proof.
  intros Hv Hw Pv Pw. rewrite <- !prec_precedence by done.
  split; [by apply order_without_build_prec|]. rewrite order_refines by done. apply full_prec.
Qed.

(** [1.0.0-beta.2 < 1.0.0-beta.10], by number and not by text. *)
Lemma order_refines_precedence_witness :
  let v := mkVersion 1 0 0 (inline_tag (bs "beta.2") (bs "x")) in
  let w := mkVersion 1 0 0 (inline_tag (bs "beta.10") (bs "y")) in
  Ver.order_without_build v w [] [] = Lt ∧
  (Ver.order_without_build v w [] [] = spec_cmp no_build (precedence v []) (precedence w []) ∧
   Ver.order v w [] [] = cmp_then (spec_cmp no_build (precedence v []) (precedence w []))
     (if TagOps.has_pre (tag v) then Eq
      else lex_cmp Z.compare (Ext.ext_slice (build (tag v)) []) (Ext.ext_slice (build (tag w)) []))).
Proof.
  intros v w. split; [vm_compute; reflexivity|].
  apply (order_refines_precedence v w [] []); [apply tag_ok_check; vm_compute; reflexivity..| |];
    vm_compute; reflexivity.
Defined.

(** Outside that range: numbers of 2{^64} and above are words, compared as text and
    above every smaller number; and build metadata tells releases apart but not
    prereleases. *)
Example large_numbers_are_words :
  let at_ p := mkVersion 1 0 0 (mkTag (mkExternal (Str.init 0 p) 0) (mkExternal Str.EMPTY 0)) in
  let small := bs "99999999999999999999" in
  let large := bs "100000000000000000000" in
  Ver.order_without_build (at_ small) (at_ large) small large = Gt ∧
  spec_cmp no_build (precedence (at_ small) small) (precedence (at_ large) large) = Lt.
Proof. vm_compute. auto. Qed.

Example build_ignored_after_prerelease :
  let v p b := mkVersion 1 0 0 (inline_tag p b) in
  Ver.order (v (bs "a") (bs "x")) (v (bs "a") (bs "y")) [] [] = Eq ∧
  Ver.order (v [] (bs "x")) (v [] (bs "y")) [] [] = Lt.
Proof. vm_compute. auto. Qed.

(** [order] is a total preorder: swapping the arguments reverses the result,
    [Less] is transitive, and versions that compare equal compare alike to
    every third one; so sorting and [max] by it are well defined. *)
Theorem order_total_preorder (u v w : Version) (bu bv bw : bytes) :
  tag_ok (tag u) → tag_ok (tag v) → tag_ok (tag w) →
  Ver.order v u bv bu = CompOpp (Ver.order u v bu bv) ∧
  (Ver.order u v bu bv = Lt → Ver.order v w bv bw = Lt → Ver.order u w bu bw = Lt) ∧
  (Ver.order u v bu bv = Eq → Ver.order u w bu bw = Ver.order v w bv bw).
Proof.
  intros Hu Hv Hw. rewrite !order_refines by done. split_and!.
  - apply (cmp_opp (spec_cmp (lex_cmp Z.compare))).
  - apply (cmp_lt_trans (spec_cmp (lex_cmp Z.compare))).
  - apply (cmp_eq_l (spec_cmp (lex_cmp Z.compare))).
Qed.

Lemma order_total_preorder_witness :
  let u := mkVersion 1 2 3 (inline_tag (bs "rc.1") []) in
  let v := mkVersion 1 2 3 (inline_tag (bs "rc.1") (bs "b1")) in
  let w := mkVersion 1 2 3 (inline_tag [] (bs "b1")) in
  Ver.order u v [] [] = Eq ∧
  Ver.order v u [] [] = CompOpp (Ver.order u v [] []) ∧
  (Ver.order u v [] [] = Lt → Ver.order v w [] [] = Lt → Ver.order u w [] [] = Lt) ∧
  (Ver.order u v [] [] = Eq → Ver.order u w [] [] = Ver.order v w [] []).
Proof.
  intros u v w. split; [vm_compute; reflexivity|].
  apply (order_total_preorder u v w [] [] []); apply tag_ok_check; vm_compute; reflexivity.
Defined.
