(* ===== verification/SemverVersionFacts.v ===== *)
(** * What [Version::parse] guarantees

    Well-formedness of every parse result, enough fuel, and the round trip with
    [Display]. *)

From S2P Require Import Prelude BunStrings Wyhash SemverString SemverVersion SemverOrder.
#[local] Open Scope Z_scope.

(** ** Slices of a buffer *)

(** [ss_slice] really is the part of [ss_buf] at [ss_off]. *)
Definition sliced_ok (ss : SlicedString) : Prop :=
  (ss_off ss + length (ss_slice ss) <= length (ss_buf ss))%nat ∧
  slice (ss_buf ss) (ss_off ss) (ss_off ss + length (ss_slice ss)) = ss_slice ss ∧
  Forall is_u8 (ss_buf ss) ∧ Z.of_nat (length (ss_buf ss)) < 2 ^ 31.

Lemma sliced_ok_init b :
  Forall is_u8 b → Z.of_nat (length b) < 2 ^ 31 → sliced_ok (Sliced.init b).
Proof.
  intros Hu Hl. split_and!; cbn; try done. by apply slice_full.
Qed.

Lemma slice_slice b i j o n :
  (o + j <= o + n)%nat → slice (slice b o (o + n)) i j = slice b (o + i) (o + j).
Proof.
  intros H. unfold slice. rewrite skipn_firstn_comm, drop_drop, take_take. f_equal. lia.
Qed.

Lemma sliced_ok_sub ss i j :
  sliced_ok ss → (i <= j <= length (ss_slice ss))%nat → sliced_ok (Sliced.sub ss i j).
Proof.
  intros (Ho & Hs & Hu & Hl) Hij. unfold Sliced.sub, sliced_ok. cbn [ss_off ss_slice ss_buf].
  rewrite length_slice by lia. split_and!; try done; [lia|].
  rewrite <- Hs at 1. rewrite slice_slice by lia. f_equal; lia.
Qed.

Lemma sliced_u8 ss : sliced_ok ss → Forall is_u8 (ss_slice ss).
Proof. intros (Ho & <- & Hu & _). unfold slice. by apply Forall_take, Forall_drop. Qed.

Lemma external_encodes ss :
  sliced_ok ss → Forall (λ c, c ≠ 0) (ss_slice ss) →
  encodes (ss_buf ss) (value (Sliced.external ss)) (ss_slice ss).
Proof.
  intros Hok Hnz. pose proof (sliced_u8 ss Hok). destruct Hok as (Ho & Hs & Hu & Hl).
  apply init_encodes; auto.
Qed.

(** ** The tag scanner *)

(** The bytes a scan passes over. *)
Definition scan_char (c : Z) : bool := TagOps.tag_char c || (c =? ch "-") || (c =? ch "+").

Lemma scan_char_nonzero l : forallb scan_char l = true → Forall (λ c, c ≠ 0) l.
Proof.
  apply forallb_Forall. by intros c Hc ->.
Qed.

(** Both strings of a tag are runs of scanned bytes of [buf]. *)
Definition tag_wf (buf : bytes) (t : Tag) : Prop :=
  (∃ p, encodes buf (value (pre t)) p ∧ forallb scan_char p = true) ∧
  (∃ b, encodes buf (value (build t)) b ∧ forallb scan_char b = true).

Lemma default_wf buf : tag_wf buf Tag_default.
Proof.
  assert (encodes buf Str.EMPTY []) by (split; [done|]; cbn; auto).
  split; exists []; done.
Qed.

Lemma encodes_sem_ok buf s str : encodes buf s str → sem_ok s.
Proof.
  intros [Hu H]. destruct (Str.can_inline str) eqn:Hc.
  - destruct H as [_ ->]. split; [by apply inline_length|by apply inline_u8].
  - destruct H as (o & _ & -> & _). split; [done|apply to_le_bytes_u8].
Qed.

Lemma tag_wf_ok buf t : tag_wf buf t → tag_ok t.
Proof. intros [(p & Hp & _) (b & Hb & _)]. split; eauto using encodes_sem_ok. Qed.

Lemma zero_pre_ok : tag_ok TagOps.ZERO_PRE.
Proof.
  split; (split; [done|]); by apply u8_check.
Qed.

Lemma sub_external_wf ss i j :
  sliced_ok ss → (i <= j <= length (ss_slice ss))%nat →
  forallb scan_char (take j (ss_slice ss)) = true →
  ∃ p, encodes (ss_buf ss) (value (Sliced.external (Sliced.sub ss i j))) p ∧
       forallb scan_char p = true ∧ p = slice (ss_slice ss) i j.
Proof.
  intros Hok Hij Hc. exists (slice (ss_slice ss) i j).
  assert (Hs : forallb scan_char (slice (ss_slice ss) i j) = true).
  { unfold slice. rewrite <- skipn_firstn_comm.
    rewrite <- (take_drop i (take j (ss_slice ss))), forallb_app in Hc.
    by apply andb_prop in Hc as [_ Hc]. }
  split_and!; try done.
  apply (external_encodes (Sliced.sub ss i j)); [by apply sliced_ok_sub|].
  by apply scan_char_nonzero.
Qed.

Lemma take_S_nth (l : bytes) i :
  (i < length l)%nat → take (i + 1) l = take i l ++ [nth i l 0].
Proof.
  intros H. rewrite Nat.add_1_r. destruct (lookup_lt_is_Some_2 l i H) as [x Hx].
  rewrite (take_S_r _ _ _ Hx). by rewrite (nth_lookup_Some _ _ _ _ Hx).
Qed.

Definition scan_inv (ss : SlicedString) (st : TagOps.Scan) : Prop :=
  tag_wf (ss_buf ss) (TagOps.sc_tag st) ∧
  (TagOps.sc_start st <= TagOps.sc_i st <= length (ss_slice ss))%nat ∧
  forallb scan_char (take (TagOps.sc_i st) (ss_slice ss)) = true.

Lemma set_pre_wf ss t i j :
  sliced_ok ss → (i <= j <= length (ss_slice ss))%nat →
  forallb scan_char (take j (ss_slice ss)) = true → tag_wf (ss_buf ss) t →
  tag_wf (ss_buf ss) (TagOps.set_pre t (Sliced.external (Sliced.sub ss i j))).
Proof.
  intros Hok Hij Hc [_ Hb]. destruct (sub_external_wf ss i j Hok Hij Hc) as (p & Hp & Hs & _).
  split; [by exists p|done].
Qed.

Lemma set_build_wf ss t i j :
  sliced_ok ss → (i <= j <= length (ss_slice ss))%nat →
  forallb scan_char (take j (ss_slice ss)) = true → tag_wf (ss_buf ss) t →
  tag_wf (ss_buf ss) (TagOps.set_build t (Sliced.external (Sliced.sub ss i j))).
Proof.
  intros Hok Hij Hc [Hp _]. destruct (sub_external_wf ss i j Hok Hij Hc) as (b & Hb & Hs & _).
  split; [done|by exists b].
Qed.

Lemma external_at_some ss i j :
  (i <= j <= length (ss_slice ss))%nat → TagOps.external_at ss i j = Some (Sliced.external (Sliced.sub ss i j)).
Proof. intros H. unfold TagOps.external_at, Sliced.sub_range. by rewrite !leb_correct by lia. Qed.

(** The scan keeps the tag well formed, and no slice is out of range; a round per
    byte is enough. *)
Lemma scan_loop_inv fuel ss ipc st :
  sliced_ok ss → scan_inv ss st → (length (ss_slice ss) - TagOps.sc_i st < fuel)%nat →
  ∃ st', TagOps.scan_loop fuel ss ipc st = Some st' ∧ scan_inv ss st'.
Proof.
  intros Hok. revert st. induction fuel as [|fuel IH]; intros st Hinv Hf; [lia|].
  destruct st as [t state start i]. pose proof Hinv as (Ht & Hi & Hc). cbn [TagOps.sc_tag TagOps.sc_start TagOps.sc_i] in *.
  cbn [TagOps.scan_loop].
  destruct (Nat.ltb_spec i (length (ss_slice ss))) as [Hlt|]; [|by eexists].
  destruct (lookup_lt_is_Some_2 (ss_slice ss) i Hlt) as [c Hci]. rewrite Hci. cbn [mbind option_bind].
  assert (Hnext : ∀ t' state' start', tag_wf (ss_buf ss) t' → (start' <= i + 1)%nat →
            scan_char c = true →
            ∃ st', TagOps.scan_loop fuel ss ipc (TagOps.mkScan t' state' start' (i + 1)) = Some st' ∧ scan_inv ss st').
  { intros t' state' start' Ht' Hs' Hsc. apply IH; [|cbn; lia]. split_and!; cbn; try done; try lia.
    rewrite Nat.add_1_r, (take_S_r _ _ _ Hci), forallb_app, Hc by done. cbn [forallb]. by rewrite Hsc. }
  assert (Hsc : (c = 43 ∨ c = 45) ∨ TagOps.tag_char c = true → scan_char c = true).
  { unfold scan_char. intros [[E|E]|E]; rewrite E; done. }
  pose proof (external_at_some ss start i ltac:(lia)) as Hex.
  destruct (Z.eqb_spec c (ch "+")) as [E|]; [|destruct (Z.eqb_spec c (ch "-")) as [E|]].
  - destruct state; [destruct (0 <? ipc)| |]; rewrite ?Hex; cbn [mbind option_bind]; apply Hnext; auto using set_pre_wf; lia.
  - destruct state; apply Hnext; auto; lia.
  - destruct (TagOps.tag_char c); [apply Hnext; auto; lia|].
    destruct state; rewrite ?Hex; cbn [mbind option_bind]; (eexists; split; [done|]);
      split_and!; cbn; auto using set_pre_wf, set_build_wf; lia.
Qed.

Lemma tag_parse_wf ss n :
  sliced_ok ss →
  ∃ r, TagOps.parse_with_pre_count ss n = Some r ∧
    tag_wf (ss_buf ss) (tr_tag r) ∧ (tr_len r <= length (ss_slice ss))%nat.
Proof.
  intros Hok. unfold TagOps.parse_with_pre_count.
  destruct (TagOps.count_marks (ss_slice ss) 0 n) as [bc pc].
  destruct ((bc =? 0) && (pc =? 0)); [eexists; split; [done|]; split; [apply default_wf|cbn; lia]|].
  assert (Hinv : scan_inv ss (TagOps.mkScan Tag_default TagOps.SNone 0 0))
    by (split_and!; cbn; auto using default_wf; lia).
  apply (scan_loop_inv (S (length (ss_slice ss))) ss n) in Hinv as ([t state start i] & -> & Hinv); [|done|cbn; lia].
  destruct Hinv as (Ht & Hi & Hc). cbn [TagOps.sc_tag TagOps.sc_start TagOps.sc_i mbind option_bind] in *.
  destruct state; [destruct (0 <? n)| |]; rewrite ?external_at_some by lia; cbn [mbind option_bind];
    (eexists; split; [done|]); cbn [tr_tag tr_len]; split; try lia; try done;
    auto using set_pre_wf, set_build_wf with lia.
Qed.

(** ** The main loop *)

Lemma parse_ascii_digits l :
  forallb is_ascii_digit l = true → l ≠ [] →
  parse_ascii l = if dec_value l <=? U64_MAX then Some (dec_value l) else None.
Proof. intros. unfold parse_ascii. rewrite parse_unsigned_digits by done. by destruct (_ <=? _). Qed.

Lemma dec_value_nonneg l : forallb is_ascii_digit l = true → 0 <= dec_value l.
Proof. intros H. apply (fold_dec_bound l 0 0 H). lia. Qed.

Lemma parse_ascii_u64 l n :
  forallb is_ascii_digit l = true → l ≠ [] → parse_ascii l = Some n → is_u64 n.
Proof.
  intros Hl Hn. rewrite parse_ascii_digits by done.
  destruct (Z.leb_spec (dec_value l) U64_MAX) as [H|]; [|done]. intros [= <-].
  pose proof (dec_value_nonneg l Hl). unfold is_u64, U64_MAX in *. lia.
Qed.

(** The run of digits that [step_digits] reads. *)
Lemma digit_run input i c :
  input !! i = Some c → is_ascii_digit c = true →
  let j := (i + 1 + count_while is_ascii_digit (drop (i + 1) input))%nat in
  (i < j <= length input)%nat ∧
  forallb is_ascii_digit (slice input i j) = true ∧ slice input i j ≠ [].
Proof.
  intros Hx Hd j. pose proof (lookup_lt_Some _ _ _ Hx) as Hi.
  pose proof (count_while_le is_ascii_digit (drop (i + 1) input)) as Hle.
  rewrite length_drop in Hle.
  assert (Hs : slice input i j = c :: take (j - i - 1) (drop (i + 1) input)).
  { unfold slice. rewrite (drop_S _ _ _ Hx), Nat.add_1_r.
    destruct (j - i)%nat as [|n] eqn:E; [lia|]. cbn. by rewrite Nat.sub_0_r. }
  split; [lia|]. rewrite Hs. split; [|done]. cbn [forallb]. rewrite Hd.
  replace (j - i - 1)%nat with (count_while is_ascii_digit (drop (i + 1) input)) by lia.
  apply count_while_take.
Qed.

Lemma version_number_digits l :
  forallb is_ascii_digit l = true → l ≠ [] → Ver.parse_version_number l = Some (parse_ascii l).
Proof. intros Hd Hne. unfold Ver.parse_version_number. rewrite Hd. by destruct l. Qed.

Lemma at_char_some input i c :
  ∃ b, Ver.at_char input i c = Some b ∧ (b = true → (i < length input)%nat).
Proof.
  unfold Ver.at_char. destruct (Nat.ltb_spec i (length input)) as [H|]; [|by exists false].
  destruct (lookup_lt_is_Some_2 input i H) as [x ->]. cbn. eauto.
Qed.

Lemma skip_dot_some input i part :
  (i <= length input)%nat → ∃ j, Ver.skip_dot input i part = Some j ∧ (i <= j <= length input)%nat.
Proof.
  intros Hi. unfold Ver.skip_dot. destruct (at_char_some input i (ch ".")) as (b & -> & Hb). cbn.
  eexists. split; [done|]. destruct b; [specialize (Hb eq_refl)|]; cbn; [destruct (negb _)|]; lia.
Qed.

(** The parts of a parsed version are [u64]s, its tag reads back from [buf]. *)
Definition part_wf (n : option Z) : Prop := match n with Some n => is_u64 n | None => True end.

Definition partial_wf (buf : bytes) (p : Partial) : Prop :=
  part_wf (p_major p) ∧ part_wf (p_minor p) ∧ part_wf (p_patch p) ∧ tag_wf buf (p_tag p).

Lemma set_part_wf buf p i n : partial_wf buf p → part_wf n → partial_wf buf (Ver.set_part p i n).
Proof. intros (? & ? & ? & ?) Hn. destruct i as [|[|i]]; by split_and!. Qed.

Lemma set_tag_wf buf p t : partial_wf buf p → tag_wf buf t → partial_wf buf (Ver.set_tag p t).
Proof. intros (? & ? & ? & ?) Hn. by split_and!. Qed.

#[local] Hint Resolve set_part_wf set_tag_wf : bun.

Definition ps_ok (ss : SlicedString) (st : Ver.PS) : Prop :=
  partial_wf (ss_buf ss) (version (Ver.ps_res st)) ∧ (Ver.ps_i st <= length (ss_slice ss))%nat.

Definition flow_state (f : Ver.Flow) : Ver.PS :=
  match f with Ver.Continue st | Ver.Break st => st end.

(** What a step leaves behind: the state is fine, and a step that goes on has read
    at least one byte. *)
Definition flow_ok (ss : SlicedString) (i : nat) (f : Ver.Flow) : Prop :=
  ps_ok ss (flow_state f) ∧ match f with Ver.Continue st => (i < Ver.ps_i st)%nat | Ver.Break _ => True end.

Lemma step_digits_ok ss st c :
  ps_ok ss st → ss_slice ss !! Ver.ps_i st = Some c → is_ascii_digit c = true →
  ∃ f, Ver.step_digits (ss_slice ss) st = Some f ∧ flow_ok ss (Ver.ps_i st) f.
Proof.
  destruct st as [i part r]. intros [Hp Hi] Hc Hd. cbn [Ver.ps_i Ver.ps_res] in *.
  destruct (digit_run _ _ _ Hc Hd) as (Hj & Hds & Hne). unfold Ver.step_digits.
  rewrite skip_while_eq by lia. cbn [mbind option_bind].
  set (j := (i + 1 + count_while is_ascii_digit (drop (i + 1) (ss_slice ss)))%nat) in *.
  assert (Hdot : ∀ p, ∃ k, Ver.skip_dot (ss_slice ss) j p = Some k ∧ (j <= k <= length (ss_slice ss))%nat)
    by (intros; apply skip_dot_some; lia).
  destruct (part <? 3)%nat.
  - rewrite slice_range_some by lia. cbn [mbind option_bind]. rewrite version_number_digits by done. cbn [mbind option_bind].
    destruct (Hdot (part + 1)%nat) as (k & -> & Hk).
    assert (Hn : part_wf (parse_ascii (slice (ss_slice ss) i j))).
    { destruct (parse_ascii _) as [n|] eqn:E; [|done]. by apply parse_ascii_u64 in E. }
    destruct (_ && _); (eexists; split; [done|]); split; try done; cbn; try lia.
    + split; [|cbn; lia]. cbn. by destruct (bool_decide _).
    + split; [|cbn; lia]. cbn. apply set_part_wf; [|done]. by destruct (bool_decide _).
  - destruct (Hdot part) as (k & -> & Hk). eexists. split; [done|]. split; cbn; [split; cbn; [done|lia]|lia].
Qed.

Lemma step_x_ok ss st :
  ps_ok ss st → (Ver.ps_i st < length (ss_slice ss))%nat →
  ∃ f, Ver.step_x (ss_slice ss) st = Some f ∧ flow_ok ss (Ver.ps_i st) f.
Proof.
  destruct st as [i part r]. intros [Hp Hi] Hlt. cbn [Ver.ps_i Ver.ps_res] in *.
  pose proof (count_while_le Ver.is_x (drop (i + 1) (ss_slice ss))) as Hle.
  rewrite length_drop in Hle. unfold Ver.step_x.
  assert (Hg : ∃ g, (if (0 <? i)%nat then c ← ss_slice ss !! (i - 1)%nat; Some (is_ascii_digit c) else Some false) = Some g).
  { destruct (0 <? i)%nat; [|eauto]. destruct (lookup_lt_is_Some_2 (ss_slice ss) (i - 1)) as [x ->]; [lia|]. cbn. eauto. }
  destruct Hg as [g ->]. rewrite skip_while_eq by lia. cbn [mbind option_bind].
  set (j := (i + 1 + count_while Ver.is_x (drop (i + 1) (ss_slice ss)))%nat) in *.
  destruct (at_char_some (ss_slice ss) j (ch ".")) as (b & -> & Hb). cbn [mbind option_bind].
  assert (Hk : (i < (if b then j + 1 else j) <= length (ss_slice ss))%nat).
  { destruct b; [specialize (Hb eq_refl)|]; lia. }
  eexists. split; [done|].
  destruct g, (bool_decide _), part as [|[|[|]]]; (split; [split; [done|apply Hk]|apply Hk]).
Qed.

Lemma read_tag_ok ss st n :
  sliced_ok ss → ps_ok ss st → ∃ f, Ver.read_tag ss n st = Some f ∧ flow_ok ss (Ver.ps_i st) f.
Proof.
  destruct st as [i part r]. intros Hok [Hp Hi]. cbn [Ver.ps_i Ver.ps_res] in *. unfold Ver.read_tag, Sliced.sub_range.
  rewrite !leb_correct by lia. cbn [andb mbind option_bind].
  destruct (tag_parse_wf (Sliced.sub ss i (length (ss_slice ss))) n) as (tr & -> & Ht & Hl).
  { apply sliced_ok_sub; [done|lia]. }
  cbn [ss_slice ss_buf Sliced.sub mbind option_bind] in Ht, Hl |- *. rewrite length_slice in Hl by lia.
  eexists. split; [done|]. split; [|done]. split; cbn; [by apply set_tag_wf|lia].
Qed.

Lemma step_ok ss st :
  sliced_ok ss → ps_ok ss st → (Ver.ps_i st < length (ss_slice ss))%nat →
  ∃ f, Ver.step ss st = Some f ∧ flow_ok ss (Ver.ps_i st) f.
Proof.
  intros Hok Hst Hlt. unfold Ver.step. destruct st as [i part r]. cbn [Ver.ps_i] in Hlt.
  destruct (lookup_lt_is_Some_2 (ss_slice ss) i Hlt) as [c Hc]. rewrite Hc. cbn [mbind option_bind].
  assert (Hbreak : ∀ j r', version r' = version r → (j <= i)%nat →
    ∃ f, Some (Ver.Break (Ver.mkPS j part r')) = Some f ∧ flow_ok ss i f).
  { intros j r' Hr Hj. eexists. split; [done|]. destruct Hst as [Hp Hi]. cbn in *. split; [|done]. split; cbn; [by rewrite Hr|lia]. }
  destruct (_ =? 32); [by apply Hbreak|].
  destruct (Ver.is_stop _); [apply Hbreak; [done|lia]|].
  destruct (is_ascii_digit _) eqn:Hd; [by eapply step_digits_ok|].
  destruct (_ =? 46); [by apply Hbreak|].
  destruct (_ || _).
  { unfold Ver.step_tag. destruct (_ && _); [by apply Hbreak|by apply read_tag_ok]. }
  destruct (Ver.is_x _); [by apply step_x_ok|].
  unfold Ver.step_other. destruct (_ && _); [by apply read_tag_ok|by apply Hbreak].
Qed.

Lemma parse_loop_ok fuel ss st :
  sliced_ok ss → ps_ok ss st → (length (ss_slice ss) - Ver.ps_i st < fuel)%nat →
  ∃ st', Ver.parse_loop fuel ss st = Some st' ∧ ps_ok ss st'.
Proof.
  intros Hok. revert st. induction fuel as [|fuel IH]; intros st Hst Hf; [lia|].
  cbn [Ver.parse_loop].
  destruct (Nat.ltb_spec (Ver.ps_i st) (length (ss_slice ss))) as [Hlt|]; [|by eexists].
  destruct (step_ok ss st Hok Hst Hlt) as (f & -> & Hs & Hg). cbn [mbind option_bind].
  destruct f as [st'|st']; cbn in Hs, Hg; [apply IH; [done|lia]|by eexists].
Qed.

(** More rounds change nothing. *)
Lemma parse_loop_fuel fuel fuel' ss st st' :
  Ver.parse_loop fuel ss st = Some st' → (fuel <= fuel')%nat → Ver.parse_loop fuel' ss st = Some st'.
Proof.
  revert fuel' st. induction fuel as [|fuel IH]; intros [|fuel'] st Hf Hle; try done; try lia.
  cbn [Ver.parse_loop] in *. destruct (_ <? _)%nat; [|done].
  destruct (Ver.step ss st) as [[st1|st1]|]; cbn [mbind option_bind] in *; try done. apply IH; [done|lia].
Qed.

Lemma sliced_len ss : sliced_ok ss → Z.of_nat (length (ss_slice ss)) < 2 ^ 31.
Proof. intros (Ho & _ & _ & Hl). lia. Qed.

Lemma store_len_some ss r i :
  sliced_ok ss → (i <= length (ss_slice ss))%nat → Ver.store_len r i = Some (Ver.set_len r i).
Proof.
  intros H%sliced_len Hi. unfold Ver.store_len. by rewrite (proj2 (Z.ltb_lt _ _)) by lia.
Qed.

Lemma parse_partial_wf ss :
  sliced_ok ss →
  ∃ r, Ver.parse ss = Some r ∧ partial_wf (ss_buf ss) (version r) ∧ (plen r <= length (ss_slice ss))%nat.
Proof.
  intros Hok. unfold Ver.parse.
  assert (Hdef : partial_wf (ss_buf ss) Partial_default) by (split_and!; try done; apply default_wf).
  pose proof (count_while_le Ver.is_leading (ss_slice ss)).
  destruct (_ =? 0)%nat; [eexists; split; [done|]; split; [done|cbn; lia]|].
  destruct (_ =? length _)%nat; [rewrite (store_len_some ss) by done; eexists; split; [done|]; split; [done|cbn; lia]|].
  assert (Hst : ps_ok ss (Ver.mkPS (count_while Ver.is_leading (ss_slice ss)) 0 ParseResult_default))
    by (split; [done|cbn; lia]).
  destruct (parse_loop_ok (S (length (ss_slice ss))) ss _ Hok Hst) as ([i part r] & -> & Hp & Hi); [cbn; lia|].
  cbn [mbind option_bind Ver.ps_i Ver.ps_res] in *. unfold Ver.finish. rewrite (store_len_some ss) by done.
  eexists. split; [done|]. destruct (bool_decide _), part as [|[|[|]]]; done.
Qed.

(** ** Reading back what [Display] prints *)

(** The bytes each state of the scan passes over without acting. *)
Definition passes (state : TagOps.TState) (c : Z) : bool :=
  match state with
  | TagOps.SNone => TagOps.tag_char c
  | TagOps.SPre => TagOps.tag_char c || (c =? ch "-")
  | TagOps.SBuild => scan_char c
  end.

Lemma scan_run ss ipc t state start l run rest fuel :
  ss_slice ss = l ++ run ++ rest → forallb (passes state) run = true →
  TagOps.scan_loop (length run + fuel) ss ipc (TagOps.mkScan t state start (length l))
  = TagOps.scan_loop fuel ss ipc (TagOps.mkScan t state start (length (l ++ run))).
Proof.
  revert l. induction run as [|c run IH]; intros l Hs Hr; [by rewrite app_nil_r|].
  cbn [forallb] in Hr. apply andb_prop in Hr as [Hc Hr]. cbn [Nat.add length TagOps.scan_loop].
  rewrite (proj2 (Nat.ltb_lt _ _)) by (rewrite Hs, length_app; cbn; lia).
  assert (ss_slice ss !! length l = Some c) as -> by (rewrite Hs; by apply list_lookup_middle). cbn [mbind option_bind].
  assert (Hnext : TagOps.scan_loop (length run + fuel) ss ipc
                    (TagOps.mkScan t state start (length l + 1))
    = TagOps.scan_loop fuel ss ipc (TagOps.mkScan t state start (length (l ++ c :: run)))).
  { replace (l ++ c :: run) with ((l ++ [c]) ++ run) by by rewrite <- app_assoc.
    rewrite <- IH; [by rewrite length_app|by rewrite Hs, <- app_assoc|done]. }
  unfold passes, scan_char in Hc.
  destruct (Z.eqb_spec c (ch "+")) as [->|]; [destruct state; [done..|done]|].
  destruct (Z.eqb_spec c (ch "-")) as [->|]; [destruct state; done|].
  assert (TagOps.tag_char c = true) as ->; [|done].
  destruct state, (TagOps.tag_char c); try done; cbn in Hc; lia.
Qed.

Lemma scan_end ss ipc t state start i fuel :
  (length (ss_slice ss) <= i)%nat →
  (0 < fuel)%nat →
  TagOps.scan_loop fuel ss ipc (TagOps.mkScan t state start i) = Some (TagOps.mkScan t state start i).
Proof.
  intros H Hf. destruct fuel; [lia|]. cbn [TagOps.scan_loop].
  by rewrite (proj2 (Nat.ltb_ge _ _)) by done.
Qed.

Lemma count_marks_ge l bc pc :
  bc <= fst (TagOps.count_marks l bc pc) ∧ pc <= snd (TagOps.count_marks l bc pc).
Proof.
  revert bc pc. induction l as [|c l IH]; intros bc pc; cbn; [lia|].
  destruct (c =? 32); [cbn; lia|]. destruct (c =? 43); [specialize (IH (bc + 1) pc); lia|].
  destruct (c =? 45); [specialize (IH bc (pc + 1)); lia|apply IH].
Qed.

(** The text [Display] writes for a tag. *)
Definition pre_text (p : bytes) : bytes := match p with [] => [] | _ => ch "-" :: p end.
Definition build_text (b : bytes) : bytes := match b with [] => [] | _ => ch "+" :: b end.

Definition pre_char (c : Z) : bool := TagOps.tag_char c || (c =? ch "-").

Lemma pre_char_scan l : forallb pre_char l = true → forallb scan_char l = true.
Proof.
  intros H. rewrite forallb_forall in *. intros c Hc. specialize (H c Hc).
  unfold pre_char, scan_char in *. by rewrite H.
Qed.

Lemma scan_char_text p b :
  forallb pre_char p = true → forallb scan_char b = true →
  forallb scan_char (pre_text p ++ build_text b) = true.
Proof.
  intros Hp%pre_char_scan Hb. rewrite forallb_app.
  destruct p, b; cbn [pre_text build_text]; try done; cbn [forallb] in *; by rewrite ?Hp, ?Hb.
Qed.

(** From the [+] on: the pre-release read so far is stored and the rest is the build. *)
Lemma scan_build ss t state start f l b :
  ss_slice ss = l ++ build_text b → b ≠ [] → forallb scan_char b = true → (length b < f)%nat →
  state ≠ TagOps.SBuild → (start <= length l)%nat →
  TagOps.scan_loop (S f) ss 0 (TagOps.mkScan t state start (length l))
  = Some (TagOps.mkScan
      (match state with
       | TagOps.SPre => TagOps.set_pre t (Sliced.external (Sliced.sub ss start (length l)))
       | _ => t end) TagOps.SBuild (S (length l)) (length (ss_slice ss))).
Proof.
  intros Hl Hbne Hb Hfl Hst Hstart. destruct b as [|c b]; [done|].
  cbn [build_text] in Hl. cbn [TagOps.scan_loop].
  rewrite (proj2 (Nat.ltb_lt _ _)) by (rewrite Hl, length_app; cbn; lia).
  assert (ss_slice ss !! length l = Some (ch "+")) as -> by (rewrite Hl; by apply list_lookup_middle).
  cbn [mbind option_bind Z.eqb Pos.eqb].
  assert (Hrun : ∀ t', TagOps.scan_loop f ss 0
      (TagOps.mkScan t' TagOps.SBuild (length l + 1) (length l + 1))
    = Some (TagOps.mkScan t' TagOps.SBuild (S (length l)) (length (ss_slice ss)))).
  { intros t'. replace f with (length (c :: b) + (f - length (c :: b)))%nat by (cbn in *; lia).
    replace (length l + 1)%nat with (length (l ++ [ch "+"])) by by rewrite length_app.
    rewrite (scan_run _ _ _ _ _ (l ++ [ch "+"]) (c :: b) []) by
      (try done; by rewrite app_nil_r, Hl, <- app_assoc).
    rewrite scan_end by (rewrite ?Hl, ?length_app; cbn in *; lia).
    do 2 f_equal; rewrite ?Hl, !length_app; cbn; lia. }
  destruct state; [apply Hrun| |done].
  rewrite external_at_some by (rewrite Hl, length_app; lia). apply Hrun.
Qed.

(** The scan of ["-p"], ["+b"] and ["-p+b"]. *)
Lemma scan_text ss p b fuel :
  ss_slice ss = pre_text p ++ build_text b →
  forallb pre_char p = true → forallb scan_char b = true → p ++ b ≠ [] →
  (length (ss_slice ss) < fuel)%nat →
  TagOps.scan_loop fuel ss 0 (TagOps.mkScan Tag_default TagOps.SNone 0 0)
  = Some match b with
    | [] => TagOps.mkScan Tag_default TagOps.SPre 1 (length (ss_slice ss))
    | _ => TagOps.mkScan
             (match p with
              | [] => Tag_default
              | _ => TagOps.set_pre Tag_default (Sliced.external (Sliced.sub ss 1 (S (length p))))
              end)
             TagOps.SBuild (S (length (pre_text p))) (length (ss_slice ss))
    end.
Proof.
  intros Hs Hp Hb Hne Hf. destruct p as [|c p].
  - destruct b as [|c b]; [done|]. destruct fuel; [rewrite Hs in Hf; cbn in Hf; lia|].
    rewrite (scan_build _ _ _ _ _ [] (c :: b)); try done. rewrite Hs in Hf. cbn in *. lia.
  - rewrite Hs in Hf. cbn [pre_text app length] in Hf, Hs. destruct fuel as [|fuel]; [lia|].
    cbn [TagOps.scan_loop]. rewrite (proj2 (Nat.ltb_lt _ _)) by (rewrite Hs; cbn; lia).
    assert (ss_slice ss !! 0%nat = Some (ch "-")) as -> by by rewrite Hs.
    cbn [mbind option_bind Z.eqb Pos.eqb].
    rewrite length_app in Hf. cbn [length] in Hf.
    replace fuel with (length (c :: p) + (fuel - length (c :: p)))%nat by (cbn; lia).
    rewrite (scan_run _ _ _ _ _ [ch "-"] (c :: p) (build_text b)) by done.
    destruct b as [|d b].
    + rewrite scan_end; [|rewrite Hs; cbn; by rewrite app_nil_r|cbn in *; lia]. rewrite Hs; cbn; by rewrite app_nil_r.
    + destruct (fuel - length (c :: p))%nat as [|f] eqn:E; [cbn in *; lia|].
      rewrite (scan_build _ _ _ _ _ ([ch "-"] ++ c :: p) (d :: b)); [done|by rewrite Hs|done|done| |done|cbn; lia].
      cbn in *. lia.
Qed.

Lemma default_encodes buf : encodes buf Str.EMPTY [].
Proof. split; [done|]. cbn. auto. Qed.

Lemma slice_middle (l str k : bytes) : slice (l ++ str ++ k) (length l) (length l + length str) = str.
Proof.
  rewrite slice_app_r, slice_app_l by lia. rewrite Nat.sub_diag. apply slice_full. lia.
Qed.

Lemma sub_encodes ss l str k :
  sliced_ok ss → ss_slice ss = l ++ str ++ k → forallb scan_char str = true →
  encodes (ss_buf ss)
    (value (Sliced.external (Sliced.sub ss (length l) (length l + length str)))) str.
Proof.
  intros Hok Hs Hc.
  assert (Hsl : slice (ss_slice ss) (length l) (length l + length str) = str).
  { rewrite Hs. apply slice_middle. }
  pose proof (external_encodes (Sliced.sub ss (length l) (length l + length str))) as H.
  cbn [Sliced.sub ss_slice ss_buf] in H. rewrite Hsl in H. apply H.
  - apply sliced_ok_sub; [done|]. rewrite Hs, !length_app. lia.
  - by apply scan_char_nonzero.
Qed.

Lemma count_marks_text p b :
  p ++ b ≠ [] →
  let '(bc, pc) := TagOps.count_marks (pre_text p ++ build_text b) 0 0 in
  (bc =? 0) && (pc =? 0) = false.
Proof.
  intros Hne. destruct (TagOps.count_marks _ _ _) as [bc pc] eqn:E. apply andb_false_iff.
  destruct p as [|c p]; [destruct b as [|c b]; [done|]|]; cbn [pre_text build_text app] in E.
  - left. change (TagOps.count_marks (c :: b) 1 0 = (bc, pc)) in E.
    pose proof (count_marks_ge (c :: b) 1 0) as H. rewrite E in H. cbn in H. lia.
  - right. change (TagOps.count_marks (c :: p ++ build_text b) 0 1 = (bc, pc)) in E.
    pose proof (count_marks_ge (c :: p ++ build_text b) 0 1) as H. rewrite E in H. cbn in H. lia.
Qed.

Lemma tag_parse_text ss p b :
  sliced_ok ss → ss_slice ss = pre_text p ++ build_text b →
  forallb pre_char p = true → forallb scan_char b = true → p ++ b ≠ [] →
  ∃ r, TagOps.parse ss = Some r ∧ tr_len r = length (ss_slice ss) ∧
    encodes (ss_buf ss) (value (pre (tr_tag r))) p ∧
    encodes (ss_buf ss) (value (build (tr_tag r))) b.
Proof.
  intros Hok Hs Hp Hb Hne. unfold TagOps.parse, TagOps.parse_with_pre_count.
  pose proof (count_marks_text p b Hne) as Hcm. rewrite <- Hs in Hcm.
  destruct (TagOps.count_marks _ _ _) as [bc pc]. rewrite Hcm.
  rewrite (scan_text ss p b) by (try done; lia). cbn [mbind option_bind].
  apply pre_char_scan in Hp. pose proof (default_encodes (ss_buf ss)) as Hd.
  assert (Hpre : p ≠ [] →
    encodes (ss_buf ss) (value (Sliced.external (Sliced.sub ss 1 (S (length p))))) p).
  { intros Hpne. apply (sub_encodes ss [ch "-"] p (build_text b)); [done| |done].
    rewrite Hs. by destruct p. }
  assert (Hbuild : b ≠ [] → encodes (ss_buf ss) (value (Sliced.external
    (Sliced.sub ss (S (length (pre_text p))) (length (ss_slice ss))))) b).
  { intros Hbne.
    replace (S (length (pre_text p))) with (length (pre_text p ++ [ch "+"]))
      by (rewrite length_app; cbn; lia).
    replace (length (ss_slice ss)) with (length (pre_text p ++ [ch "+"]) + length b)%nat
      by (rewrite Hs, !length_app; destruct b; [done|cbn; lia]).
    apply (sub_encodes ss _ b []); [done| |done].
    rewrite Hs, app_nil_r, <- app_assoc. by destruct b. }
  destruct b as [|d b].
  - destruct p as [|c p]; [done|]. rewrite external_at_some by (rewrite Hs; cbn; lia). cbn. eexists. split; [done|].
    cbn. split_and!; try done.
    replace (length (ss_slice ss)) with (S (length (c :: p))); [by apply Hpre|].
    rewrite Hs. cbn. by rewrite app_nil_r.
  - rewrite external_at_some by (rewrite Hs, length_app; cbn; lia). cbn [mbind option_bind]. eexists. split; [done|].
    destruct p as [|c p]; cbn [tr_len tr_tag TagOps.set_build TagOps.set_pre pre build value];
      split_and!; try done; [by apply Hbuild|by apply Hpre|by apply Hbuild].
Qed.

(** One number and the dot after it. *)
Lemma step_number ss part r l D rest :
  ss_slice ss = l ++ D ++ rest → (part < 3)%nat →
  forallb is_ascii_digit D = true → D ≠ [] → dec_value D <= U64_MAX →
  is_ascii_digit (hd 0 rest) = false →
  Ver.step ss (Ver.mkPS (length l) part r)
  = Some (Ver.Continue (Ver.mkPS
      (length l + length D + if (hd 0 rest =? ch ".")%Z && negb (part =? 2)%nat then 1 else 0)
      (part + 1)
      (Ver.set_version r (Ver.set_part (version r) part (Some (dec_value D)))))).
Proof.
  intros Hs Hp HD Hne Hv Hrest. destruct D as [|c D]; [done|].
  pose proof HD as HD'. cbn [forallb] in HD. apply andb_prop in HD as [Hc HD].
  unfold Ver.step.
  assert (ss_slice ss !! length l = Some c) as -> by (rewrite Hs; by apply list_lookup_middle). cbn [mbind option_bind].
  assert ((c =? ch " ") = false ∧ Ver.is_stop c = false) as [-> ->].
  { unfold Ver.is_stop, is_ascii_digit in *. lia. }
  rewrite Hc. unfold Ver.step_digits.
  assert (Hcw : count_while is_ascii_digit (drop (length l + 1) (ss_slice ss)) = length D).
  { rewrite Hs, drop_app_ge by lia. replace (_ - _)%nat with 1%nat by lia.
    change (drop 1 ((c :: D) ++ rest)) with (D ++ rest).
    rewrite count_while_app by done. destruct rest as [|d rest]; cbn; [lia|].
    cbn in Hrest. rewrite Hrest. lia. }
  assert (Hlen : (length l + length (c :: D) <= length (ss_slice ss))%nat) by (rewrite Hs, !length_app; lia).
  rewrite skip_while_eq by (cbn [length] in Hlen; lia). cbn [mbind option_bind].
  rewrite (proj2 (Nat.ltb_lt _ _) Hp).
  rewrite Hcw. replace (length l + 1 + length D)%nat with (length l + length (c :: D))%nat by (cbn; lia).
  rewrite slice_range_some by lia. cbn [mbind option_bind].
  assert (slice (ss_slice ss) (length l) (length l + length (c :: D)) = c :: D) as ->.
  { rewrite Hs. apply slice_middle. }
  rewrite version_number_digits by done. cbn [mbind option_bind].
  rewrite parse_ascii_digits by done. rewrite (proj2 (Z.leb_le _ _) Hv).
  change (bool_decide (Some (dec_value (c :: D)) = None)) with false. cbn [andb].
  assert (Hdot : Ver.skip_dot (ss_slice ss) (length l + length (c :: D)) (part + 1)
    = Some (length l + length (c :: D) + if (hd 0 rest =? ch ".")%Z && negb (part =? 2)%nat then 1 else 0)%nat).
  { unfold Ver.skip_dot, Ver.at_char.
    assert (Hn : ss_slice ss !! (length l + length (c :: D))%nat = head rest).
    { rewrite Hs, app_assoc, lookup_app_r by (rewrite length_app; lia). rewrite length_app, Nat.sub_diag. by destruct rest. }
    rewrite Hn, Hs, !length_app.
    assert ((part + 1 =? 3)%nat = (part =? 2)%nat) as ->.
    { destruct (Nat.eqb_spec part 2), (Nat.eqb_spec (part + 1) 3); lia. }
    destruct rest as [|d rest].
    - rewrite (proj2 (Nat.ltb_ge _ _)) by (cbn; lia). cbn. f_equal. lia.
    - rewrite (proj2 (Nat.ltb_lt _ _)) by (cbn; lia). cbn [hd head mbind option_bind].
      destruct (_ && _); f_equal; lia. }
  by rewrite Hdot.
Qed.

Lemma parse_loop_number fuel ss part r l D rest :
  ss_slice ss = l ++ D ++ rest → (part < 3)%nat →
  forallb is_ascii_digit D = true → D ≠ [] → dec_value D <= U64_MAX →
  is_ascii_digit (hd 0 rest) = false →
  Ver.parse_loop (S fuel) ss (Ver.mkPS (length l) part r)
  = Ver.parse_loop fuel ss (Ver.mkPS
      (length l + length D + if (hd 0 rest =? ch ".")%Z && negb (part =? 2)%nat then 1 else 0)
      (part + 1)
      (Ver.set_version r (Ver.set_part (version r) part (Some (dec_value D))))).
Proof.
  intros Hs Hp HD Hne Hv Hrest. cbn [Ver.parse_loop Ver.ps_i].
  rewrite (proj2 (Nat.ltb_lt _ _)) by (rewrite Hs, !length_app; destruct D; [done|cbn; lia]).
  by rewrite (step_number _ _ _ _ D rest) by done.
Qed.

(** Three numbers with dots between them, then a tag or the end. *)
Lemma parse_loop_numbers fuel ss D1 D2 D3 T :
  ss_slice ss = D1 ++ ch "." :: D2 ++ ch "." :: D3 ++ T →
  Forall (λ D, forallb is_ascii_digit D = true ∧ D ≠ [] ∧ dec_value D <= U64_MAX) [D1; D2; D3] →
  is_ascii_digit (hd 0 T) = false →
  Ver.parse_loop (S (S (S fuel))) ss (Ver.mkPS 0 0 ParseResult_default)
  = Ver.parse_loop fuel ss (Ver.mkPS (length (D1 ++ ch "." :: D2 ++ ch "." :: D3)) 3
      (Ver.set_version ParseResult_default
         (mkPartial (Some (dec_value D1)) (Some (dec_value D2)) (Some (dec_value D3)) Tag_default))).
Proof.
  intros Hs HD HT. rewrite !Forall_cons in HD.
  destruct HD as ((HD1 & HN1 & HV1) & (HD2 & HN2 & HV2) & (HD3 & HN3 & HV3) & _).
  rewrite (parse_loop_number _ ss 0 _ [] D1 (ch "." :: D2 ++ ch "." :: D3 ++ T)) by (done || lia).
  cbn [hd negb andb Z.eqb Pos.eqb Nat.eqb length Nat.add].
  replace (length D1 + 1)%nat with (length (D1 ++ [ch "."])) by by rewrite length_app.
  rewrite (parse_loop_number _ ss 1 _ (D1 ++ [ch "."]) D2 (ch "." :: D3 ++ T)) by
    (done || lia || by rewrite Hs, <- app_assoc).
  cbn [hd negb andb Z.eqb Pos.eqb Nat.eqb Nat.add].
  replace (length (D1 ++ [ch "."]) + length D2 + 1)%nat
    with (length (D1 ++ ch "." :: D2 ++ [ch "."])) by (rewrite !length_app; cbn; rewrite length_app; cbn; lia).
  rewrite (parse_loop_number _ ss 2 _ (D1 ++ ch "." :: D2 ++ [ch "."]) D3 T) by
    (done || lia || (rewrite Hs, <- app_assoc; cbn; by rewrite <- app_assoc)).
  rewrite andb_false_r. do 2 f_equal. repeat (rewrite length_app || cbn [length]). lia.
Qed.

Lemma digits_u8 l : forallb is_ascii_digit l = true → Forall is_u8 l.
Proof.
  apply forallb_Forall. unfold is_ascii_digit, is_u8. lia.
Qed.

Lemma tag_text_u8 p b : Forall is_u8 p → Forall is_u8 b → Forall is_u8 (pre_text p ++ build_text b).
Proof.
  intros. apply Forall_app. by split; [destruct p|destruct b]; cbn; try constructor.
Qed.

(** The loop on a tag that runs to the end of the input. *)
Lemma parse_loop_tag fuel ss l r p b :
  sliced_ok ss → ss_slice ss = l ++ pre_text p ++ build_text b →
  forallb pre_char p = true → forallb scan_char b = true → p_tag (version r) = Tag_default →
  (0 < fuel)%nat →
  ∃ t, Ver.parse_loop fuel ss (Ver.mkPS (length l) 3 r)
       = Some (Ver.mkPS (length (ss_slice ss)) 3 (Ver.set_version r (Ver.set_tag (version r) t))) ∧
       encodes (ss_buf ss) (value (pre t)) p ∧ encodes (ss_buf ss) (value (build t)) b.
Proof.
  intros Hok Hs Hp Hb Hr Hf. destruct fuel as [|fuel]; [lia|]. cbn [Ver.parse_loop Ver.ps_i].
  destruct (decide (p ++ b = [])) as [[-> ->]%app_eq_nil|Hne].
  { exists Tag_default. rewrite (proj2 (Nat.ltb_ge _ _)) by (rewrite Hs, !length_app; cbn; lia).
    split; [|split; apply default_encodes]. do 2 f_equal; [by rewrite Hs, app_nil_r|].
    destruct r as [? ? ? [] ?]. cbn in *. by subst. }
  set (ss' := Sliced.sub ss (length l) (length (ss_slice ss))).
  assert (Hs' : ss_slice ss' = pre_text p ++ build_text b).
  { unfold ss', Sliced.sub. cbn [ss_slice]. by rewrite slice_to_end, Hs, drop_app_length. }
  destruct (tag_parse_text ss' p b) as (tr & Htr & Hlen & Hep & Heb); try done.
  { apply sliced_ok_sub; [done|]. rewrite Hs, length_app. lia. }
  exists (tr_tag tr). split; [|done].
  assert (Hc : ∃ c rest, (c = ch "-" ∨ c = ch "+") ∧ pre_text p ++ build_text b = c :: rest).
  { destruct p as [|x p]; [destruct b as [|x b]; [done|]|]; cbn; eauto. }
  destruct Hc as (c & rest & Hc & Hrest).
  rewrite (proj2 (Nat.ltb_lt _ _)) by (rewrite Hs, Hrest, length_app; cbn; lia).
  assert (Hl : ss_slice ss !! length l = Some c) by (rewrite Hs, Hrest; by apply list_lookup_middle).
  assert (Hread : Ver.read_tag ss 0 (Ver.mkPS (length l) 3 r)
    = Some (Ver.Break (Ver.mkPS (length (ss_slice ss)) 3 (Ver.set_version r (Ver.set_tag (version r) (tr_tag tr)))))).
  { unfold Ver.read_tag, Sliced.sub_range. rewrite !leb_correct by (rewrite ?Hs, ?length_app; lia). cbn [andb mbind option_bind].
    fold ss'. unfold TagOps.parse in Htr. rewrite Htr. cbn. do 4 f_equal. rewrite Hlen, Hs', Hs, !length_app. lia. }
  assert (Hstep : Ver.step ss (Ver.mkPS (length l) 3 r) = Ver.read_tag ss 0 (Ver.mkPS (length l) 3 r)).
  { unfold Ver.step. rewrite Hl. by destruct Hc as [-> | ->]. }
  by rewrite Hstep, Hread.
Qed.

Lemma fmt_text v input p b :
  encodes input (value (pre (tag v))) p → encodes input (value (build (tag v))) b →
  Ver.fmt v input = print_u64 (major v) ++ ch "." :: print_u64 (minor v) ++
                    ch "." :: print_u64 (patch v) ++ pre_text p ++ build_text b.
Proof.
  intros Hp Hb. unfold Ver.fmt, TagOps.has_pre, TagOps.has_build, Ext.is_empty, Ext.ext_slice.
  rewrite (encodes_empty _ _ _ Hp), (encodes_empty _ _ _ Hb).
  rewrite (slice_encodes _ _ _ Hp), (slice_encodes _ _ _ Hb). by destruct p, b.
Qed.

(** [Display] writes text that [parse] reads back: the same numbers, the same
    pre-release and build strings, the whole text, no wildcard. *)
Lemma parse_fmt_at ss (v : Version) (input p b : bytes) :
  sliced_ok ss → ss_slice ss = Ver.fmt v input →
  is_u64 (major v) → is_u64 (minor v) → is_u64 (patch v) →
  encodes input (value (pre (tag v))) p → encodes input (value (build (tag v))) b →
  forallb pre_char p = true → forallb scan_char b = true →
  ∃ t, Ver.parse ss =
         Some (mkParseResult WNone true false
           (mkPartial (Some (major v)) (Some (minor v)) (Some (patch v)) t) (length (ss_slice ss))) ∧
       encodes (ss_buf ss) (value (pre t)) p ∧ encodes (ss_buf ss) (value (build t)) b.
Proof.
  intros Hok Ht HM Hm HP Hp Hb Hpc Hbc.
  destruct (print_u64_spec _ HM) as (D1 & N1 & V1), (print_u64_spec _ Hm) as (D2 & N2 & V2),
    (print_u64_spec _ HP) as (D3 & N3 & V3).
  rewrite (fmt_text v input p b Hp Hb) in Ht.
  assert (HT : is_ascii_digit (hd 0 (pre_text p ++ build_text b)) = false) by (by destruct p, b).
  unfold Ver.parse.
  assert ((5 <= length (ss_slice ss))%nat ∧ count_while Ver.is_leading (ss_slice ss) = 0%nat) as [Hl Hlead].
  { rewrite Ht. destruct (print_u64 (major v)) as [|c l1], (print_u64 (minor v)),
      (print_u64 (patch v)); try done. repeat (rewrite length_app || cbn [length app]).
    split; [lia|]. cbn. destruct (Ver.is_leading c) eqn:E; [|done].
    cbn in D1. apply andb_prop in D1 as [D1 _]. unfold Ver.is_leading, is_ascii_digit in *. lia. }
  rewrite Hlead, (proj2 (Nat.eqb_neq _ _)), (proj2 (Nat.eqb_neq _ _)) by lia.
  replace (S (length (ss_slice ss))) with (S (S (S (length (ss_slice ss) - 2)))) by lia.
  rewrite (parse_loop_numbers _ ss _ _ _ _ Ht) by
    (try done; repeat constructor; rewrite ?V1, ?V2, ?V3; unfold is_u64, U64_MAX in *; try done; lia).
  rewrite V1, V2, V3.
  destruct (parse_loop_tag (length (ss_slice ss) - 2) ss
    (print_u64 (major v) ++ ch "." :: print_u64 (minor v) ++ ch "." :: print_u64 (patch v))
    (Ver.set_version ParseResult_default
       (mkPartial (Some (major v)) (Some (minor v)) (Some (patch v)) Tag_default)) p b)
    as (t & Hpl & Hep & Heb); try done; [|lia|].
  { rewrite Ht. repeat (rewrite <- app_assoc; cbn [app]). done. }
  exists t. rewrite Hpl. cbn [mbind option_bind]. unfold Ver.finish. cbn [bool_decide].
  by rewrite (store_len_some ss) by done.
Qed.

Lemma fmt_u8 v input p b :
  is_u64 (major v) → is_u64 (minor v) → is_u64 (patch v) →
  encodes input (value (pre (tag v))) p → encodes input (value (build (tag v))) b →
  Forall is_u8 (Ver.fmt v input).
Proof.
  intros HM Hm HP Hp Hb. rewrite (fmt_text v input p b Hp Hb). destruct Hp as [Hp _], Hb as [Hb _].
  repeat first [by apply tag_text_u8 | apply Forall_app_2 | apply Forall_cons_2];
    try (apply digits_u8, print_u64_spec; done); unfold is_u8; lia.
Qed.

(** ** The properties *)

(** A byte text the parsers accept as input: the buffers are [u8] slices and the
    packed pointers hold 31-bit lengths. *)
Definition is_text (text : bytes) : Prop := Forall is_u8 text ∧ Z.of_nat (length text) < 2 ^ 31.

Definition is_textb (text : bytes) : bool :=
  forallb (λ x, (0 <=? x) && (x <? 256)) text && (Z.of_nat (length text) <? 2 ^ 31).

Lemma text_check text : is_textb text = true → is_text text.
Proof. intros [H1 H2%Z.ltb_lt]%andb_prop. split; [by apply u8_check|done]. Qed.

Lemma text_sliced text : is_text text → sliced_ok (Sliced.init text).
Proof. intros [H1 H2]. by apply sliced_ok_init. Qed.

(** C24. Round trip of [Version]: the text [Display] writes parses as valid,
    without a wildcard and to its last byte, to the same three numbers and to
    pre-release and build handles that read back as the same strings. *)
Theorem version_parse_fmt_roundtrip (v : Version) (input p b : bytes) :
  is_u64 (major v) → is_u64 (minor v) → is_u64 (patch v) →
  encodes input (value (pre (tag v))) p → encodes input (value (build (tag v))) b →
  forallb pre_char p = true → forallb scan_char b = true →
  Z.of_nat (length (Ver.fmt v input)) < 2 ^ 31 →
  let text := Ver.fmt v input in
  ∃ t, Ver.parse_utf8 text =
         Some (mkParseResult WNone true false
           (mkPartial (Some (major v)) (Some (minor v)) (Some (patch v)) t) (length text)) ∧
       Ext.ext_slice (pre t) text = p ∧ Ext.ext_slice (build t) text = b.
Proof.
  intros HM Hm HP Hp Hb Hpc Hbc Hlen text.
  destruct (parse_fmt_at (Sliced.init text) v input p b) as (t & E & E1 & E2); try done.
  { apply sliced_ok_init; [by apply (fmt_u8 v input p b)|done]. }
  exists t. split_and!; [done|by apply slice_encodes..].
Qed.

Lemma version_parse_fmt_roundtrip_witness :
  let v := mkVersion 18446744073709551615 0 42 (inline_tag (bs "rc.1") (bs "a-b+c")) in
  let text := Ver.fmt v [] in
  text = bs "18446744073709551615.0.42-rc.1+a-b+c" ∧
  ∃ t, Ver.parse_utf8 text =
         Some (mkParseResult WNone true false
           (mkPartial (Some 18446744073709551615) (Some 0) (Some 42) t) (length text)) ∧
       Ext.ext_slice (pre t) text = bs "rc.1" ∧ Ext.ext_slice (build t) text = bs "a-b+c".
Proof.
  intros v text. split; [vm_compute; reflexivity|].
  apply (version_parse_fmt_roundtrip v [] (bs "rc.1") (bs "a-b+c"));
    try (vm_compute; reflexivity); try (split; vm_compute; congruence);
    apply inline_encodes; reflexivity.
Defined.


