(* ===== verification/SemverCoerce.v ===== *)
(** * [coerce] and [which_version_is_pinned] on the text they are made for *)

From S2P Require Import Prelude BunStrings Wyhash SemverString SemverVersion SemverOrder.
From S2P Require Import SemverVersionFacts.
#[local] Open Scope Z_scope.

(** ** Printed numbers *)

Lemma print_digits_length fuel k n :
  (0 < k)%nat → 0 <= n < 10 ^ Z.of_nat k → (length (print_digits fuel n) <= k)%nat.
Proof.
  revert k n. induction fuel as [|fuel IH]; intros k n Hk Hn; cbn; [lia|].
  destruct (Z.ltb_spec n 10); cbn; [lia|]. rewrite length_app. cbn.
  destruct k as [|[|k]]; [lia|cbn in Hn; lia|].
  rewrite Nat2Z.inj_succ, Z.pow_succ_r in Hn by lia.
  specialize (IH (S k) (n / 10) ltac:(lia)). enough (length (print_digits fuel (n / 10)) <= S k)%nat by lia.
  apply IH. split; [apply Z.div_pos; lia|apply Z.div_lt_upper_bound; lia].
Qed.

(** No leading zero. *)
Lemma print_digits_head fuel n c l :
  0 < n < 10 ^ Z.of_nat fuel → print_digits fuel n = c :: l → c ≠ ch "0".
Proof.
  revert n c l. induction fuel as [|fuel IH]; intros n c l Hn; [done|]. cbn [print_digits].
  destruct (Z.ltb_spec n 10); [intros [= <- <-]; lia|].
  rewrite Nat2Z.inj_succ, Z.pow_succ_r in Hn by lia.
  destruct (print_digits fuel (n / 10)) as [|c' l'] eqn:E; cbn.
  - intros _. assert (0 < fuel)%nat by (destruct fuel; [cbn in Hn; lia|lia]).
    destruct (print_digits_spec fuel (n / 10)) as (_ & Hne & _); [|done|done].
    split; [apply Z.div_pos; lia|apply Z.div_lt_upper_bound; lia].
  - intros [= <- _]. apply (IH (n / 10) c' l'); [|done].
    split; [apply Z.div_str_pos; lia|apply Z.div_lt_upper_bound; lia].
Qed.

Lemma coerce_number_print n :
  0 <= n <= Ver.MAX_SAFE_INTEGER → Ver.coerce_number (print_u64 n) = Some n.
Proof.
  intros Hn. assert (Hu : is_u64 n) by (unfold Ver.MAX_SAFE_INTEGER, is_u64 in *; lia).
  destruct (print_u64_spec n Hu) as (Hd & Hne & Hv).
  assert (Hp : parse_ascii (print_u64 n) = Some n).
  { rewrite parse_ascii_digits, Hv by done. rewrite (proj2 (Z.leb_le _ _)); [done|].
    unfold is_u64, U64_MAX in *. lia. }
  unfold Ver.coerce_number. destruct (print_u64 n) as [|c [|c' l]] eqn:E; [done|..]; rewrite Hp; cbn.
  - by rewrite (proj2 (Z.leb_le _ _)) by lia.
  - destruct (Z.eqb_spec c (ch "0")) as [Hc|]; [|by rewrite (proj2 (Z.leb_le _ _)) by lia].
    exfalso. destruct (Z.eq_dec n 0) as [->|]; [by cbn in E|].
    apply (print_digits_head 20 n c (c' :: l)); [|done|done].
    unfold Ver.MAX_SAFE_INTEGER in Hn. lia.
Qed.

Lemma print_safe_length n :
  0 <= n <= Ver.MAX_SAFE_INTEGER → (1 <= length (print_u64 n) <= 16)%nat.
Proof.
  intros Hn. split.
  - destruct (print_u64_spec n) as (_ & Hne & _); [unfold Ver.MAX_SAFE_INTEGER, is_u64 in *; lia|].
    destruct (print_u64 n); [done|cbn; lia].
  - apply print_digits_length; [lia|]. unfold Ver.MAX_SAFE_INTEGER in Hn. lia.
Qed.

(** ** [coerce] *)

(** The length of a run of digits before something else. *)
Lemma count_run p D rest : forallb p D = true → p (hd 0 rest) = false → count_while p (D ++ rest) = length D.
Proof.
  intros HD Hr. rewrite count_while_app by done. destruct rest as [|c rest]; cbn in *; [lia|].
  rewrite Hr. lia.
Qed.

Lemma coerce_part_digits D rest :
  forallb is_ascii_digit D = true → (1 <= length D <= 16)%nat → is_ascii_digit (hd 0 rest) = false →
  Ver.coerce_part (ch "." :: D ++ rest) = Some (D, rest).
Proof.
  intros HD Hl Hr. cbn [Ver.coerce_part Z.eqb Pos.eqb]. unfold Ver.digits. rewrite count_run by done.
  rewrite !(proj2 (Nat.leb_le _ _)) by (unfold Ver.LONGEST; lia). cbn [andb].
  by rewrite take_app_length, drop_app_length.
Qed.

Definition is_safe (v : Version) : Prop :=
  0 <= major v <= Ver.MAX_SAFE_INTEGER ∧ 0 <= minor v <= Ver.MAX_SAFE_INTEGER ∧
  0 <= patch v <= Ver.MAX_SAFE_INTEGER.

(** A version within text that has no digit before it is found. *)
Lemma coerce_finds junk v rest :
  forallb (λ c, negb (is_ascii_digit c)) junk = true → is_ascii_digit (hd 0 rest) = false → is_safe v →
  Ver.coerce (junk ++ print_u64 (major v) ++ ch "." :: print_u64 (minor v) ++
              ch "." :: print_u64 (patch v) ++ rest)
  = Some (mkVersion (major v) (minor v) (patch v) Tag_default).
Proof.
  intros Hj Hr (HM & Hm & Hp).
  assert (Hd : ∀ n, 0 <= n <= Ver.MAX_SAFE_INTEGER → forallb is_ascii_digit (print_u64 n) = true).
  { intros n Hn. apply print_u64_spec. unfold Ver.MAX_SAFE_INTEGER, is_u64 in *. lia. }
  pose proof (print_safe_length _ HM) as LM. pose proof (print_safe_length _ Hm) as Lm.
  pose proof (print_safe_length _ Hp) as Lp.
  unfold Ver.coerce. cbn [Ver.coerce_loop].
  set (tail := ch "." :: print_u64 (minor v) ++ _).
  assert (Hstart : count_while (λ c, negb (is_ascii_digit c)) (junk ++ print_u64 (major v) ++ tail) = length junk).
  { apply count_run; [done|]. specialize (Hd _ HM). destruct (print_u64 (major v)); [cbn in LM; lia|].
    cbn in *. apply andb_prop in Hd as [-> _]. done. }
  rewrite Hstart, drop_app_length. unfold Ver.digits. rewrite (count_run _ (print_u64 (major v)) tail) by auto.
  rewrite take_app_length, drop_app_length.
  rewrite (proj2 (Nat.eqb_neq _ _)) by lia. rewrite (proj2 (Nat.ltb_ge _ _)) by (unfold Ver.LONGEST; lia).
  unfold tail. rewrite coerce_part_digits by (auto; done). cbn [mbind option_bind fst snd].
  rewrite coerce_part_digits by (auto; done). cbn [mbind option_bind fst snd].
  rewrite !coerce_number_print by done. done.
Qed.

(** Enough fuel: a skipped number is at least seventeen bytes. *)
Lemma coerce_loop_fuel fuel fuel' rest :
  (length rest < fuel)%nat → (fuel <= fuel')%nat → Ver.coerce_loop fuel' rest = Ver.coerce_loop fuel rest.
Proof.
  revert fuel' rest. induction fuel as [|fuel IH]; intros [|fuel'] rest Hf Hle; try lia.
  cbn [Ver.coerce_loop]. set (from := drop _ rest).
  destruct (_ =? 0)%nat; [done|]. destruct (Nat.ltb_spec Ver.LONGEST (length (take (Ver.digits from) from))) as [H|]; [|done].
  assert (Hl : (length (drop (Ver.digits from) from) < length rest)%nat).
  { rewrite length_take in H. rewrite length_drop. unfold Ver.LONGEST in H.
    assert (length from <= length rest)%nat by (unfold from; rewrite length_drop; lia). lia. }
  apply IH; lia.
Qed.

Lemma coerce_number_safe ds n :
  Ver.coerce_number ds = Some n → 0 <= n <= Ver.MAX_SAFE_INTEGER.
Proof.
  assert (H : ∀ l, (m ← parse_ascii l; if m <=? Ver.MAX_SAFE_INTEGER then Some m else None) = Some n →
                   0 <= n <= Ver.MAX_SAFE_INTEGER).
  { intros l. destruct (parse_ascii l) as [m|] eqn:E; cbn; [|done].
    apply parse_ascii_nonneg in E. destruct (Z.leb_spec m Ver.MAX_SAFE_INTEGER); [|done]. intros [= <-]. lia. }
  unfold Ver.coerce_number. destruct ds as [|c [|c' ds]]; [apply H|apply H|].
  destruct (c =? ch "0"); [done|apply H].
Qed.

Lemma coerce_safe text v : Ver.coerce text = Some v → is_safe v ∧ tag v = Tag_default.
Proof.
  unfold Ver.coerce. generalize (S (length text)). intros fuel. revert text.
  induction fuel as [|fuel IH]; intros text; cbn [Ver.coerce_loop]; [done|].
  destruct (_ =? 0)%nat; [done|]. destruct (_ <? _)%nat; [apply IH|].
  assert (Ho : ∀ (o : option (bytes * bytes)) n,
    match o with None => Some 0 | Some it => Ver.coerce_number (fst it) end = Some n →
    0 <= n <= Ver.MAX_SAFE_INTEGER).
  { intros [d|] n; [apply coerce_number_safe|]. intros [= <-]. unfold Ver.MAX_SAFE_INTEGER. lia. }
  intros H. apply bind_Some in H as (M & EM & H). apply bind_Some in H as (m & Em & H).
  apply bind_Some in H as (p & Ep & [= <-]).
  apply coerce_number_safe in EM. apply Ho in Em. apply Ho in Ep. done.
Qed.

(** ** [which_version_is_pinned] *)

Definition not_space (c : Z) : bool := negb (contains WHITESPACE_CHARS c).

Lemma trim_id l : forallb not_space l = true → trim l WHITESPACE_CHARS = l.
Proof.
  intros H. unfold trim, trim_left, trim_right.
  assert (count_while (contains WHITESPACE_CHARS) l = 0%nat) as ->.
  { destruct l as [|c l]; [done|]. cbn [forallb count_while] in *.
    apply andb_prop in H as [H%negb_true_iff _]. by rewrite H. }
  rewrite drop_0. assert (trim_right_end l WHITESPACE_CHARS (length l) = length l) as ->; [|apply firstn_all].
  destruct l as [|c l] using rev_ind; [done|]. rewrite length_app. cbn [length]. rewrite Nat.add_1_r.
  cbn [trim_right_end]. rewrite nth_middle. rewrite forallb_app in H. apply andb_prop in H as [_ H].
  cbn [forallb] in H. apply andb_prop in H as [H%negb_true_iff _]. by rewrite H.
Qed.

Lemma pinned_number_run l D rest :
  forallb is_ascii_digit D = true → D ≠ [] → is_ascii_digit (hd 0 rest) = false →
  Ver.pinned_number (l ++ D ++ rest) (length l) = Some (length l + length D)%nat.
Proof.
  intros HD Hne Hr. unfold Ver.pinned_number. rewrite drop_app_length, count_run by done.
  destruct D as [|c D]; [done|]. rewrite (proj2 (Nat.leb_gt _ _)) by (rewrite !length_app; cbn; lia).
  cbn [app]. rewrite nth_middle. cbn in HD. apply andb_prop in HD as [-> _]. done.
Qed.

Lemma pinned_char c : scan_char c = true → Ver.valid_pre_or_build_tag_character c = true ∧ is_ascii_whitespace c = false.
Proof.
  unfold scan_char, TagOps.tag_char, Ver.valid_pre_or_build_tag_character, is_ascii_alphanumeric,
    is_ascii_alphabetic, is_ascii_whitespace, is_ascii_lower, is_ascii_upper, is_ascii_digit. lia.
Qed.

(** A tag, or nothing, after the third number is accepted to the end. *)
Lemma pinned_tail_text l T pinned :
  forallb scan_char T = true → T ≠ [] → Ver.pinned_tail (l ++ T) pinned (length l) = pinned.
Proof.
  intros HT Hne. destruct T as [|c T]; [done|]. cbn [forallb] in HT. apply andb_prop in HT as [Hc HT].
  unfold Ver.pinned_tail. rewrite nth_middle. destruct (pinned_char c Hc) as [-> ->]. cbn [negb orb].
  destruct (_ <=? _)%nat eqn:E; [done|]. clear E.
  assert (drop (length l + 1) (l ++ c :: T) = T) as -> by (rewrite drop_app_ge by lia; by replace (_ - _)%nat with 1%nat by lia).
  rewrite <- (app_nil_r T), count_while_app.
  - rewrite (proj2 (Nat.leb_le _ _)); [done|]. rewrite !length_app. cbn. rewrite length_app. cbn. lia.
  - apply forallb_forall. intros d Hd. rewrite forallb_forall in HT. by destruct (pinned_char d (HT d Hd)) as [-> ->].
Qed.

(** The three prefixes that matter and what they pin. *)
Definition pin_prefix (k : PinnedVersion) : bytes :=
  match k with PMajor => bs "^" | PMinor => bs "~" | PPatch => [] end.

Lemma pinned_prefix_text k d rest :
  is_ascii_digit d = true →
  Ver.pinned_prefix (pin_prefix k ++ d :: rest) = (k, Some (length (pin_prefix k))).
Proof.
  intros Hd. assert (Hin : In d [48; 49; 50; 51; 52; 53; 54; 55; 56; 57])
    by (unfold is_ascii_digit in Hd; cbn; lia).
  cbn in Hin. repeat destruct Hin as [<-|Hin]; [destruct k; done..|done].
Qed.

Lemma version_text_not_space p b :
  forallb scan_char (pre_text p ++ build_text b) = true → forallb not_space (pre_text p ++ build_text b) = true.
Proof.
  intros H. rewrite forallb_forall in *. intros c Hc. specialize (H c Hc).
  unfold not_space, contains, scan_char, TagOps.tag_char, is_ascii_alphanumeric, is_ascii_alphabetic,
    is_ascii_lower, is_ascii_upper, is_ascii_digit in *. cbn [existsb WHITESPACE_CHARS]. lia.
Qed.

Lemma digits_not_space l : forallb is_ascii_digit l = true → forallb not_space l = true.
Proof.
  intros H. rewrite forallb_forall in *. intros c Hc. specialize (H c Hc).
  unfold not_space, contains, is_ascii_digit in *. cbn [existsb WHITESPACE_CHARS]. lia.
Qed.

(** The three numbers of [version], read one after the other. *)
Lemma pinned_numbers l D1 D2 D3 T pinned :
  let version := l ++ D1 ++ ch "." :: D2 ++ ch "." :: D3 ++ T in
  Forall (λ D, forallb is_ascii_digit D = true ∧ D ≠ []) [D1; D2; D3] →
  forallb scan_char T = true → is_ascii_digit (hd 0 T) = false →
  trim version WHITESPACE_CHARS = version →
  Ver.pinned_prefix version = (pinned, Some (length l)) →
  Ver.which_version_is_pinned version = pinned.
Proof.
  intros version HD HT Hh Htrim Hpre. rewrite !Forall_cons in HD.
  destruct HD as ((HD1 & N1) & (HD2 & N2) & (HD3 & N3) & _).
  unfold Ver.which_version_is_pinned. rewrite Htrim, Hpre.
  assert (E1 : Ver.pinned_number version (length l) = Some (length l + length D1)%nat)
    by (by apply pinned_number_run).
  set (l1 := l ++ D1 ++ [ch "."]). set (l2 := l1 ++ D2 ++ [ch "."]).
  assert (V1 : version = l1 ++ D2 ++ ch "." :: D3 ++ T)
    by (unfold version, l1; by rewrite <- !app_assoc).
  assert (V2 : version = l2 ++ D3 ++ T) by (rewrite V1; unfold l2; by rewrite <- !app_assoc).
  assert (L1 : (length l + length D1 + 1)%nat = length l1) by (unfold l1; rewrite !length_app; cbn; lia).
  assert (L2 : (length l1 + length D2 + 1)%nat = length l2) by (unfold l2; rewrite !length_app; cbn; lia).
  assert (E2 : Ver.pinned_number version (length l1) = Some (length l1 + length D2)%nat)
    by (rewrite V1; by apply pinned_number_run).
  assert (E3 : Ver.pinned_number version (length l2) = Some (length l2 + length D3)%nat)
    by (rewrite V2; by apply pinned_number_run).
  assert (Hlen : length version = (length l2 + length D3 + length T)%nat)
    by (rewrite V2, !length_app; lia).
  rewrite E1, (proj2 (Nat.leb_gt _ _)) by lia.
  assert (nth (length l + length D1) version 0 = ch ".") as ->.
  { unfold version. rewrite app_assoc, <- length_app. apply nth_middle. }
  cbn [negb Z.eqb Pos.eqb]. rewrite L1, E2, (proj2 (Nat.leb_gt _ _)) by lia.
  assert (nth (length l1 + length D2) version 0 = ch ".") as ->.
  { rewrite V1, app_assoc, <- length_app. apply nth_middle. }
  cbn [negb Z.eqb Pos.eqb]. rewrite L2, E3.
  destruct (Nat.leb_spec (length version) (length l2 + length D3)); [done|].
  rewrite V2, app_assoc, <- length_app. apply pinned_tail_text; [done|]. intros ->. cbn in *. lia.
Qed.

Lemma pinned_text k v input p b :
  is_u64 (major v) → is_u64 (minor v) → is_u64 (patch v) →
  encodes input (value (pre (tag v))) p → encodes input (value (build (tag v))) b →
  forallb pre_char p = true → forallb scan_char b = true →
  Ver.which_version_is_pinned (pin_prefix k ++ Ver.fmt v input) = k.
Proof.
  intros HM Hm HP Hp Hb Hpc Hbc. rewrite (fmt_text v input p b Hp Hb).
  destruct (print_u64_spec _ HM) as (D1 & N1 & _), (print_u64_spec _ Hm) as (D2 & N2 & _),
    (print_u64_spec _ HP) as (D3 & N3 & _).
  pose proof (scan_char_text p b Hpc Hbc) as HT.
  apply pinned_numbers; try done; [by repeat constructor|by destruct p, b| |].
  - apply trim_id. pose proof (version_text_not_space p b HT) as Ht. rewrite forallb_app in Ht.
    repeat (rewrite forallb_app || cbn [forallb]). rewrite (digits_not_space _ D1), (digits_not_space _ D2), (digits_not_space _ D3), Ht.
    by destruct k.
  - destruct (print_u64 (major v)) as [|d l]; [done|]. cbn in D1. apply andb_prop in D1 as [Hd _].
    by apply (pinned_prefix_text k d).
Qed.

(** ** The properties *)

(** [coerce] finds a version in free text: [M.m.p] with numbers up to
    [2^53 - 1], after any text without a digit and before any text that does
    not continue its last number, comes back as [M.m.p] without a tag. *)
Theorem coerce_finds_version (junk rest : bytes) (v : Version) :
  forallb (λ c, negb (is_ascii_digit c)) junk = true → is_ascii_digit (hd 0 rest) = false → is_safe v →
  Ver.coerce (junk ++ print_u64 (major v) ++ ch "." :: print_u64 (minor v) ++
              ch "." :: print_u64 (patch v) ++ rest)
  = Some (mkVersion (major v) (minor v) (patch v) Tag_default).
Proof. apply coerce_finds. Qed.

Lemma coerce_finds_version_witness :
  let v := mkVersion 9007199254740991 0 7 Tag_default in
  bs "release v" ++ print_u64 9007199254740991 ++ ch "." :: print_u64 0 ++ ch "." :: print_u64 7 ++ bs ".x"
    = bs "release v9007199254740991.0.7.x" ∧
  Ver.coerce (bs "release v" ++ print_u64 9007199254740991 ++ ch "." :: print_u64 0 ++
              ch "." :: print_u64 7 ++ bs ".x") = Some v.
Proof.
  intros v. split; [vm_compute; reflexivity|].
  apply (coerce_finds_version (bs "release v") (bs ".x") v); [reflexivity|reflexivity|].
  split_and!; vm_compute; congruence.
Defined.

(** [coerce] never leaves JavaScript's safe integers and always finishes:
    what it returns has numbers between 0 and [2^53 - 1] and no tag, and one
    round per byte is enough (more rounds give the same answer). *)
Theorem coerce_total_and_safe (text : bytes) :
  (∀ v, Ver.coerce text = Some v → is_safe v ∧ tag v = Tag_default) ∧
  ∀ fuel, (S (length text) <= fuel)%nat → Ver.coerce_loop fuel text = Ver.coerce text.
Proof.
  split; [intros v; apply coerce_safe|]. intros fuel Hf. apply coerce_loop_fuel; lia.
Qed.

(** [which_version_is_pinned] reads the prefix: a printed version after
    [^] pins the major, after [~] the minor, and on its own the patch,
    whatever its tag. *)
Theorem pinned_by_prefix (k : PinnedVersion) (v : Version) (input p b : bytes) :
  is_u64 (major v) → is_u64 (minor v) → is_u64 (patch v) →
  encodes input (value (pre (tag v))) p → encodes input (value (build (tag v))) b →
  forallb pre_char p = true → forallb scan_char b = true →
  Ver.which_version_is_pinned (pin_prefix k ++ Ver.fmt v input) = k.
Proof. apply pinned_text. Qed.

Lemma pinned_by_prefix_witness :
  pin_prefix PMinor ++ Ver.fmt (mkVersion 1 2 3 (inline_tag (bs "rc.1") [])) [] = bs "~1.2.3-rc.1" ∧
  Ver.which_version_is_pinned
    (pin_prefix PMinor ++ Ver.fmt (mkVersion 1 2 3 (inline_tag (bs "rc.1") [])) []) = PMinor.
Proof.
  split; [vm_compute; reflexivity|].
  apply (pinned_by_prefix PMinor (mkVersion 1 2 3 (inline_tag (bs "rc.1") [])) [] (bs "rc.1") []);
    try reflexivity; try (split; vm_compute; congruence); apply inline_encodes; reflexivity.
Defined.
