(* ===== verification/SemverStore.v ===== *)
(** * Moving versions between buffers

    [Version::count]/[append] over the [StringBuilder] trait of
    [src/semver/lib.rs], and [clone_into], which copies into a caller's buffer.
    The trait is a class; what [append] promises of it is [StringBuilderLaws],
    which the crate's own [Builder] is shown to meet. *)

From S2P Require Import Prelude BunStrings Wyhash SemverString SemverVersion SemverOrder.
From S2P Require Import SemverVersionFacts.
#[local] Open Scope Z_scope.

(** [trait StringBuilder]; [None] is a panic of the implementation. *)
Class StringBuilder (B : Type) := {
  sb_count : B → bytes → B;
  sb_append : B → bytes → option (B * ExternalString);
}.

#[export] Instance builder_string_builder : StringBuilder Builder := {
  sb_count := Build.count;
  sb_append := Build.append;
}.

Section store.
Context {B : Type} `{!StringBuilder B}.

(** The guard both methods use: there is text, and it is not stored inline. *)
Definition is_stored (s : ExternalString) : bool :=
  negb (Ext.is_empty s) && negb (Ext.is_inline s).

Definition version_count (v : Version) (buf : bytes) (builder : B) : B :=
  let builder :=
    if is_stored (pre (tag v)) then sb_count builder (Ext.ext_slice (pre (tag v)) buf) else builder in
  if is_stored (build (tag v)) then sb_count builder (Ext.ext_slice (build (tag v)) buf) else builder.

Definition append_one (s : ExternalString) (buf : bytes) (builder : B) : option (B * ExternalString) :=
  if is_stored s then sb_append builder (Ext.ext_slice s buf) else Some (builder, s).

Definition version_append (v : Version) (buf : bytes) (builder : B) : option (B * Version) :=
  '(builder, p) ← append_one (pre (tag v)) buf builder;
  '(builder, b) ← append_one (build (tag v)) buf builder;
  Some (builder, mkVersion (major v) (minor v) (patch v) (mkTag p b)).
End store.

(** ** The contract of a builder *)

(** [sb_inv b strs]: [b] has room for the strings [strs], in this order;
    [sb_reads b h s]: the handle [h] reads [s] in the bytes written so far. *)
Class StringBuilderLaws (B : Type) `{!StringBuilder B} := {
  sb_inv : B → list bytes → Prop;
  sb_reads : B → SemString → bytes → Prop;
  sb_append_ok b s strs :
    sb_inv b (s :: strs) → storable s →
    ∃ b' h, sb_append b s = Some (b', h) ∧ sb_inv b' strs ∧ sb_reads b' (value h) s ∧
            ∀ h0 s0, sb_reads b h0 s0 → sb_reads b' h0 s0;
  sb_reads_inline b h s buf : Str.can_inline s = true → encodes buf h s → sb_reads b h s;
}.

Definition written (b : Builder) : bytes :=
  match bptr b with Some p => take (blen b) p | None => [] end.

#[export] Program Instance builder_laws : StringBuilderLaws Builder := {
  sb_inv b strs := ∃ p, builder_inv b p strs;
  sb_reads b h s := encodes (written b) h s;
}.
Next Obligation.
  intros b s strs [p Hinv] Hs.
  destruct (append_step (T := ExternalString) b p s strs Hinv Hs)
    as (b' & h & p' & Happ & Hinv' & _ & He & ext & Hext).
  pose proof Hinv as (Hp & _). pose proof Hinv' as (Hp' & _).
  exists b', h. unfold written. rewrite Hp, Hp'. split_and!; [done|by exists p'|done|].
  intros h0 s0 H0. rewrite Hext. by apply encodes_app.
Qed.
Next Obligation.
  intros b h s buf Hc [Hu He]. split; [done|]. rewrite Hc in *. done.
Qed.

(** ** [append] through the contract *)

(** The strings [version_count] announces and [version_append] writes. *)
Definition stored_text (s : ExternalString) (buf : bytes) : list bytes :=
  if is_stored s then [Ext.ext_slice s buf] else [].
Definition stored_texts (v : Version) (buf : bytes) : list bytes :=
  stored_text (pre (tag v)) buf ++ stored_text (build (tag v)) buf.

(** A version of [buf] with the texts [p] and [b] as its tag. *)
Definition holds_tag (buf : bytes) (v : Version) (p b : bytes) : Prop :=
  encodes buf (value (pre (tag v))) p ∧ encodes buf (value (build (tag v))) b ∧
  storable p ∧ storable b.

Lemma stored_iff buf s str :
  encodes buf (value s) str → is_stored s = negb (Str.can_inline str).
Proof.
  intros He. unfold is_stored, Ext.is_empty, Ext.is_inline.
  rewrite (encodes_empty _ _ _ He), (encodes_inline _ _ _ He).
  destruct str; [done|]. by rewrite bool_decide_eq_false_2.
Qed.

Section contract.
Context {B : Type} `{!StringBuilder B, !StringBuilderLaws B}.

Lemma version_count_texts v buf (builder : B) :
  version_count v buf builder = foldl sb_count builder (stored_texts v buf).
Proof.
  unfold version_count, stored_texts, stored_text.
  by destruct (is_stored (pre (tag v))), (is_stored (build (tag v))).
Qed.

Lemma append_one_ok s buf str (b : B) strs :
  encodes buf (value s) str → storable str → sb_inv b (stored_text s buf ++ strs) →
  ∃ b' h, append_one s buf b = Some (b', h) ∧ sb_inv b' strs ∧ sb_reads b' (value h) str ∧
          ∀ h0 s0, sb_reads b h0 s0 → sb_reads b' h0 s0.
Proof.
  intros He Hst. unfold append_one, stored_text. pose proof (stored_iff _ _ _ He) as Hs.
  destruct (is_stored s) eqn:E; cbn [app]; intros Hinv.
  - unfold Ext.ext_slice in *. rewrite (slice_encodes _ _ _ He) in *. by apply sb_append_ok.
  - exists b, s. split_and!; try done. apply (sb_reads_inline _ _ _ buf); [|done].
    by destruct (Str.can_inline str).
Qed.

(** [append] keeps the numbers and the tag's text, and earlier handles stay valid. *)
Lemma version_append_ok v buf p b (bd : B) strs :
  holds_tag buf v p b → sb_inv bd (stored_texts v buf ++ strs) →
  ∃ bd' w, version_append v buf bd = Some (bd', w) ∧ sb_inv bd' strs ∧
    major w = major v ∧ minor w = minor v ∧ patch w = patch v ∧
    sb_reads bd' (value (pre (tag w))) p ∧ sb_reads bd' (value (build (tag w))) b ∧
    ∀ h0 s0, sb_reads bd h0 s0 → sb_reads bd' h0 s0.
Proof.
  intros (Hp & Hb & Hsp & Hsb) Hinv. unfold version_append, stored_texts in *. rewrite <- app_assoc in Hinv.
  destruct (append_one_ok _ _ _ _ _ Hp Hsp Hinv) as (b1 & h1 & E1 & Hinv1 & R1 & K1).
  destruct (append_one_ok _ _ _ _ _ Hb Hsb Hinv1) as (b2 & h2 & E2 & Hinv2 & R2 & K2).
  rewrite E1. cbn [mbind option_bind]. rewrite E2. cbn [mbind option_bind].
  eexists _, _. split; [done|]. cbn. split_and!; auto.
Qed.

Fixpoint append_versions (vs : list Version) (buf : bytes) (bd : B) : option (B * list Version) :=
  match vs with
  | [] => Some (bd, [])
  | v :: vs =>
      '(bd, w) ← version_append v buf bd;
      '(bd, ws) ← append_versions vs buf bd;
      Some (bd, w :: ws)
  end.

(** What a stored copy [w] of [v] must satisfy. *)
Definition copy_of (buf : bytes) (bd : B) (v w : Version) : Prop :=
  major w = major v ∧ minor w = minor v ∧ patch w = patch v ∧
  sb_reads bd (value (pre (tag w))) (Ext.ext_slice (pre (tag v)) buf) ∧
  sb_reads bd (value (build (tag w))) (Ext.ext_slice (build (tag v)) buf).

Lemma append_versions_ok vs buf (bd : B) :
  Forall (λ v, ∃ p b, holds_tag buf v p b) vs →
  sb_inv bd (concat (map (λ v, stored_texts v buf) vs)) →
  ∃ bd' ws, append_versions vs buf bd = Some (bd', ws) ∧ sb_inv bd' [] ∧
    Forall2 (copy_of buf bd') vs ws ∧ ∀ h0 s0, sb_reads bd h0 s0 → sb_reads bd' h0 s0.
Proof.
  intros Hvs. revert bd. induction Hvs as [|v vs (p & b & Hv) _ IH]; intros bd Hinv; cbn in *.
  { exists bd, []. by split_and!. }
  destruct (version_append_ok v buf p b bd _ Hv Hinv)
    as (b1 & w & -> & Hinv1 & E1 & E2 & E3 & R1 & R2 & K1). cbn [mbind option_bind].
  destruct (IH b1 Hinv1) as (b2 & ws & -> & Hinv2 & Hf & K2). cbn.
  exists b2, (w :: ws). split_and!; auto. constructor; [|done]. destruct Hv as (Hp & Hb & _).
  unfold copy_of, Ext.ext_slice. rewrite (slice_encodes _ _ _ Hp), (slice_encodes _ _ _ Hb).
  split_and!; auto.
Qed.
End contract.

(** ** The crate's [Builder], from [count] to the last [append] *)

Lemma count_versions vs buf (bd : Builder) :
  foldl (λ bd v, version_count v buf bd) bd vs
  = foldl Build.count bd (concat (map (λ v, stored_texts v buf) vs)).
Proof.
  revert bd. induction vs as [|v vs IH]; intros bd; cbn; [done|].
  by rewrite foldl_app, IH, version_count_texts.
Qed.

Lemma reserved_le strs : (reserved_all strs <= length (concat strs))%nat.
Proof.
  unfold reserved_all. induction strs as [|s strs IH]; cbn; [done|].
  rewrite length_app. unfold reserved at 1. case_match; lia.
Qed.

Lemma counted_inv strs :
  Z.of_nat (length (concat strs)) < 2 ^ 31 →
  sb_inv (Build.allocate (foldl Build.count Build.default strs)) strs.
Proof.
  intros Hlen. rewrite count_all by done. unfold Build.allocate. cbn [blen cap string_pool bptr Build.default Nat.add].
  pose proof (reserved_le strs). exists (replicate (reserved_all strs) 0).
  repeat split; cbn; try rewrite length_replicate; try lia. apply map_Forall_empty.
Qed.

Lemma store_versions_ok vs buf :
  Forall (λ v, ∃ p b, holds_tag buf v p b) vs →
  Z.of_nat (length (concat (concat (map (λ v, stored_texts v buf) vs)))) < 2 ^ 31 →
  ∃ bd ws,
    append_versions vs buf (Build.allocate (foldl (λ bd v, version_count v buf bd) Build.default vs))
      = Some (bd, ws) ∧ Forall2 (copy_of buf bd) vs ws.
Proof.
  intros Hvs Hlen. rewrite count_versions.
  destruct (append_versions_ok vs buf _ Hvs (counted_inv _ Hlen)) as (bd & ws & E & _ & Hf & _). eauto.
Qed.

(** ** [clone_into] *)

Lemma clone_one_ok s src str buf off :
  encodes src (value s) str → storable str → Z.of_nat (length buf) < 2 ^ 31 →
  (off + reserved str <= length buf)%nat →
  let off' := (off + reserved str)%nat in
  ∃ p' buf', TagOps.clone_one s src buf off = Some (p', buf', off') ∧ length buf' = length buf ∧
    take off buf' = take off buf ∧ drop off' buf' = drop off' buf ∧ encodes (take off' buf') p' str.
Proof.
  intros He [Hu Hnz] Hlen Hoff. unfold TagOps.clone_one, reserved in *. unfold Ext.is_inline, Ext.ext_slice.
  rewrite (encodes_inline _ _ _ He), (slice_encodes _ _ _ He).
  destruct (Str.can_inline str) eqn:Hc.
  - rewrite Nat.add_0_r. exists (value s), buf. split_and!; try done.
    destruct He as [_ He]. split; [done|]. rewrite Hc in *. done.
  - rewrite (proj2 (Nat.leb_le _ _)) by lia. eexists _, (splice buf off str). split; [done|].
    rewrite length_splice by lia. split_and!; try done.
    + transitivity (take off (take (off + length str) (splice buf off str))).
      { rewrite take_take. f_equal. lia. }
      rewrite take_splice by lia. rewrite take_app_le, take_take by (rewrite length_take; lia). f_equal. lia.
    + apply drop_splice; lia.
    + rewrite take_splice by lia. apply init_encodes; try done.
      * by rewrite Hc.
      * rewrite length_app, length_take. lia.
      * intros _. assert (Ht : length (take off buf) = off) by (rewrite length_take; lia).
        rewrite length_app. split; [lia|]. rewrite slice_app_r by lia.
        replace (off - length (take off buf))%nat with 0%nat by lia. apply slice_full. lia.
Qed.

(** The copy reads the same strings from [buf], and only the bytes between the
    old and the new offset were written. *)
Lemma clone_into_ok v src p b buf off :
  holds_tag src v p b → Z.of_nat (length buf) < 2 ^ 31 →
  (off + reserved p + reserved b <= length buf)%nat →
  let off' := (off + reserved p + reserved b)%nat in
  ∃ w buf', Ver.clone_into v src buf off = Some (w, buf', off') ∧
    major w = major v ∧ minor w = minor v ∧ patch w = patch v ∧
    encodes buf' (value (pre (tag w))) p ∧ encodes buf' (value (build (tag w))) b ∧
    length buf' = length buf ∧ take off buf' = take off buf ∧ drop off' buf' = drop off' buf.
Proof.
  intros (Hp & Hb & Hsp & Hsb) Hlen Hoff. unfold Ver.clone_into, TagOps.clone_into.
  destruct (clone_one_ok _ _ _ buf off Hp Hsp Hlen) as (p' & b1 & E1 & L1 & T1 & D1 & R1); [lia|].
  destruct (clone_one_ok _ _ _ b1 (off + reserved p) Hb Hsb) as (b' & b2 & E2 & L2 & T2 & D2 & R2); [lia..|].
  rewrite E1. cbn [mbind option_bind]. rewrite E2. cbn [mbind option_bind].
  eexists _, b2. split; [done|]. cbn. split_and!; try done; try lia.
  - rewrite <- (take_drop (off + reserved p) b2), T2. by apply encodes_app.
  - rewrite <- (take_drop (off + reserved p + reserved b) b2). by apply encodes_app.
  - rewrite <- T1. transitivity (take off (take (off + reserved p) b2)).
    { rewrite take_take. f_equal. lia. }
    rewrite T2, take_take. f_equal. lia.
  - rewrite D2. pose proof (f_equal (drop (reserved b)) D1) as D. by rewrite !drop_drop in D.
Qed.

(** ** The properties *)

(** C33. The two-pass protocol of [Builder] keeps every version: after one
    [count] per version and [allocate], appending the versions in order
    succeeds, and each stored copy has its version's numbers and handles that
    read back as its version's strings, in the final buffer. *)
Theorem stored_versions_read_back (vs : list Version) (buf : bytes) :
  Forall (λ v, ∃ p b, holds_tag buf v p b) vs →
  Z.of_nat (length (concat (concat (map (λ v, stored_texts v buf) vs)))) < 2 ^ 31 →
  ∃ bd ws,
    append_versions vs buf (Build.allocate (foldl (λ bd v, version_count v buf bd) Build.default vs))
      = Some (bd, ws) ∧ Forall2 (copy_of buf bd) vs ws.
Proof. apply store_versions_ok. Qed.

(** A tag whose pre-release is a pointer into [sample_text]. *)
Definition sample_text : bytes := bs "1.0.0-a-long-prerelease".
Definition sample_version : Version :=
  mkVersion 1 0 0 (mkTag (mkExternal (Str.init 6 (bs "a-long-prerelease")) 0) Ext.default).

Lemma sample_holds : holds_tag sample_text sample_version (bs "a-long-prerelease") [].
Proof.
  split_and!; try by apply storable_check.
  - apply (init_encodes sample_text 6); try done. by apply u8_check.
  - by apply inline_encodes.
Qed.

Lemma stored_versions_read_back_witness :
  let vs := [sample_version; mkVersion 2 0 0 (inline_tag (bs "beta") []); sample_version] in
  ∃ bd ws,
    append_versions vs sample_text
      (Build.allocate (foldl (λ bd v, version_count v sample_text bd) Build.default vs))
      = Some (bd, ws) ∧ Forall2 (copy_of sample_text bd) vs ws.
Proof.
  apply (stored_versions_read_back
    [sample_version; mkVersion 2 0 0 (inline_tag (bs "beta") []); sample_version] sample_text);
    [|vm_compute; reflexivity].
  repeat (apply Forall_cons_2 || apply Forall_nil_2); [exists (bs "a-long-prerelease"), []; apply sample_holds| |
    exists (bs "a-long-prerelease"), []; apply sample_holds].
  exists (bs "beta"), []. split_and!;
    first [apply inline_encodes; reflexivity | apply storable_check; reflexivity].
Defined.

(** [clone_into] copies a version into a caller's buffer: given room, it
    returns the numbers unchanged and handles that read the same strings back
    from the target, moves the offset by the space of the strings that are not
    inlined, and writes no byte outside that space. *)
Theorem clone_into_copies (v : Version) (src p b buf : bytes) (off : nat) :
  holds_tag src v p b → Z.of_nat (length buf) < 2 ^ 31 →
  (off + reserved p + reserved b <= length buf)%nat →
  let off' := (off + reserved p + reserved b)%nat in
  ∃ w buf', Ver.clone_into v src buf off = Some (w, buf', off') ∧
    major w = major v ∧ minor w = minor v ∧ patch w = patch v ∧
    encodes buf' (value (pre (tag w))) p ∧ encodes buf' (value (build (tag w))) b ∧
    length buf' = length buf ∧ take off buf' = take off buf ∧ drop off' buf' = drop off' buf.
Proof. apply clone_into_ok. Qed.

Lemma clone_into_copies_witness :
  let buf := replicate 40 (ch ".") in
  ∃ w buf', Ver.clone_into sample_version sample_text buf 3 = Some (w, buf', 20%nat) ∧
    major w = 1 ∧ minor w = 0 ∧ patch w = 0 ∧
    encodes buf' (value (pre (tag w))) (bs "a-long-prerelease") ∧
    encodes buf' (value (build (tag w))) [] ∧
    length buf' = 40%nat ∧ take 3 buf' = take 3 buf ∧ drop 20 buf' = drop 20 buf.
Proof.
  apply (clone_into_copies sample_version sample_text (bs "a-long-prerelease") [] (replicate 40 (ch ".")) 3);
    [apply sample_holds|reflexivity|cbn; lia].
Defined.
