(* ===== verification/SemverDiff.v ===== *)
(** * [DiffFormatter] of [src/semver/Version.rs]: the coloured form of a version

    The output is a list of pieces, text and the styles that [pretty_fmt!]
    expands to; [plain] forgets the styles. *)

From S2P Require Import Prelude BunStrings Wyhash SemverString SemverVersion SemverOrder.
#[local] Open Scope Z_scope.

Inductive Style := Reset | Dim | BoldRed | BoldYellow | BoldGreen.
Inductive Piece := Text (b : bytes) | Styled (s : Style).

Definition plain (out : list Piece) : bytes :=
  concat (map (λ p, match p with Text b => b | Styled _ => [] end) out).

Module Diff.
(** [major.], [major.minor.] and the rest, with a style between. *)
Definition numbers (diff : ChangedVersion) (v : Version) : list Piece :=
  let M := print_u64 (major v) in
  let m := print_u64 (minor v) in
  let p := print_u64 (patch v) in
  match diff with
  | CMajor => [Styled BoldRed; Text (M ++ bs "." ++ m ++ bs "." ++ p)]
  | CMinor =>
      [Styled Dim; Text (M ++ bs "."); Styled (if major v =? 0 then BoldRed else BoldYellow);
       Text (m ++ bs "." ++ p)]
  | CPatch =>
      [Styled Dim; Text (M ++ bs "." ++ m ++ bs ".");
       Styled (if (major v =? 0) && (minor v =? 0) then BoldRed else BoldGreen); Text p]
  | CNone | CPre | CBuild => [Styled Dim; Text (M ++ bs "." ++ m ++ bs "." ++ p)]
  end.

(** The loop over the characters: [mark] is written before the first one, the
    colour before the first difference. *)
Fixpoint chars (mark : Z) (s other : bytes) (i : nat) (first set_color : bool) : list Piece * bool :=
  match s with
  | [] => ([], set_color)
  | c :: s =>
      let colour := negb set_color && negb (bool_decide (other !! i = Some c)) in
      let set_color := set_color || colour in
      let '(rest, set_color) := chars mark s other (S i) false set_color in
      ((if colour then [Styled BoldRed] else []) ++ (if first then [Text [mark]] else [])
         ++ Text [c] :: rest, set_color)
  end.

Definition pre_part (v other : Version) (buf other_buf : bytes) : list Piece * bool :=
  if TagOps.has_pre (tag v) then
    if TagOps.has_pre (tag other) then
      chars (ch "-") (Ext.ext_slice (pre (tag v)) buf) (Ext.ext_slice (pre (tag other)) other_buf)
            0 true false
    else ([Styled BoldRed; Text (bs "-" ++ Ext.ext_slice (pre (tag v)) buf)], true)
  else ([], false).

Definition build_part (v other : Version) (buf other_buf : bytes) (set_color : bool) : list Piece :=
  if TagOps.has_build (tag v) then
    if TagOps.has_build (tag other) then
      fst (chars (ch "+") (Ext.ext_slice (build (tag v)) buf)
                 (Ext.ext_slice (build (tag other)) other_buf) 0 true set_color)
    else (if set_color then [] else [Styled BoldRed])
           ++ [Text (bs "+" ++ Ext.ext_slice (build (tag v)) buf)]
  else [].

(** [Display for DiffFormatter]; [colors] is [ENABLE_ANSI_COLORS_STDOUT]. *)
Definition fmt (colors : bool) (v other : Version) (buf other_buf : bytes) : list Piece :=
  if negb colors then [Text (Ver.fmt v buf)]
  else
    let diff := default CNone (Ver.which_version_is_different v other buf other_buf) in
    let '(p, set_color) := pre_part v other buf other_buf in
    numbers diff v ++ p ++ build_part v other buf other_buf set_color ++ [Styled Reset].
End Diff.

(** ** The text under the colours *)

Lemma plain_app a b : plain (a ++ b) = plain a ++ plain b.
Proof. unfold plain. by rewrite map_app, concat_app. Qed.

Lemma plain_numbers d v :
  plain (Diff.numbers d v)
  = print_u64 (major v) ++ [ch "."] ++ print_u64 (minor v) ++ [ch "."] ++ print_u64 (patch v).
Proof.
  destruct d; unfold plain, Diff.numbers; cbn [map concat]; rewrite ?app_nil_r; cbn [app];
    repeat rewrite <- app_assoc; cbn [app]; done.
Qed.

Lemma plain_chars mark s other i first sc :
  s ≠ [] → plain (fst (Diff.chars mark s other i first sc)) = (if first then [mark] else []) ++ s.
Proof.
  revert i first sc. induction s as [|c s IH]; intros i first sc Hs; [done|]. cbn [Diff.chars].
  set (colour := negb sc && _). destruct (Diff.chars mark s other (S i) false (sc || colour)) as [rest sc'] eqn:E.
  cbn [fst]. rewrite !plain_app.
  assert (plain (if colour then [Styled BoldRed] else []) = []) as -> by by destruct colour.
  assert (plain (Text [c] :: rest) = c :: s) as ->.
  { change (plain (Text [c] :: rest)) with (c :: plain rest). f_equal.
    destruct s as [|c' s']; [cbn in E; by simplify_eq|].
    specialize (IH (S i) false (sc || colour) ltac:(done)). by rewrite E in IH. }
  by destruct first.
Qed.

(** An empty string has no handle that reads as text. *)
Lemma nonempty_text s buf str : encodes buf (value s) str → Ext.is_empty s = false → Ext.ext_slice s buf ≠ [].
Proof.
  intros He. unfold Ext.is_empty, Ext.ext_slice.
  rewrite (encodes_empty _ _ _ He), (slice_encodes _ _ _ He). by intros H%bool_decide_eq_false.
Qed.

Lemma plain_diff colors v other buf other_buf p b :
  encodes buf (value (pre (tag v))) p → encodes buf (value (build (tag v))) b →
  plain (Diff.fmt colors v other buf other_buf) = Ver.fmt v buf.
Proof.
  intros Hp Hb. unfold Diff.fmt. destruct colors; cbn [negb]; [|by cbn; rewrite app_nil_r].
  destruct (Diff.pre_part v other buf other_buf) as [pp sc] eqn:E.
  rewrite !plain_app, plain_numbers. cbn [plain map concat]. rewrite app_nil_r. unfold Ver.fmt.
  rewrite <- !app_assoc. do 5 f_equal.
  assert (plain pp = if TagOps.has_pre (tag v) then [ch "-"] ++ Ext.ext_slice (pre (tag v)) buf else []) as ->.
  { unfold Diff.pre_part in E. destruct (TagOps.has_pre (tag v)) eqn:Hpre; [|by simplify_eq].
    destruct (TagOps.has_pre (tag other)); [|simplify_eq; cbn; by rewrite app_nil_r].
    replace pp with (fst (pp, sc)) by done. rewrite <- E. apply plain_chars.
    apply (nonempty_text _ _ p); [done|]. by apply negb_true_iff. }
  f_equal. unfold Diff.build_part. destruct (TagOps.has_build (tag v)) eqn:Hbd; [|done].
  destruct (TagOps.has_build (tag other)).
  - apply plain_chars. apply (nonempty_text _ _ b); [done|]. by apply negb_true_iff.
  - rewrite plain_app. destruct sc; cbn; by rewrite app_nil_r.
Qed.

(** ** The property *)

(** Colours never change the text of a version diff: with the escapes
    dropped, what [DiffFormatter] writes for [v] against any other version is
    what [Display] writes for [v]. *)
Theorem diff_text_is_fmt (colors : bool) (v other : Version) (buf other_buf p b : bytes) :
  encodes buf (value (pre (tag v))) p → encodes buf (value (build (tag v))) b →
  plain (Diff.fmt colors v other buf other_buf) = Ver.fmt v buf.
Proof. apply plain_diff. Qed.

Lemma diff_text_is_fmt_witness :
  let v := mkVersion 1 2 3 (inline_tag (bs "rc.1") (bs "b2")) in
  let other := mkVersion 1 2 3 (inline_tag (bs "rc.0") (bs "b2")) in
  Styled BoldRed ∈ Diff.fmt true v other [] [] ∧
  plain (Diff.fmt true v other [] []) = Ver.fmt v [].
Proof.
  intros v other. split.
  - apply list_elem_of_In. vm_compute. tauto.
  - apply (diff_text_is_fmt true v other [] [] (bs "rc.1") (bs "b2")); apply inline_encodes; reflexivity.
Defined.
