(* ===== verification/SemverRange.v ===== *)
(** * [src/semver/SemverRange.rs]: comparators and ranges

    A [Comparator] is an operator and a version, a [Range] one or two of them.
    The constructors for desugared bounds ([lt_next_major] and its kin) are
    shown to describe exactly the versions they are meant to, at the [u64]
    ceiling too. *)

From S2P Require Import Prelude BunStrings Wyhash SemverString SemverVersion SemverOrder.
From S2P Require Import SemverVersionFacts.
#[local] Open Scope Z_scope.

Inductive Op := OpUnset | OpEql | OpLt | OpLte | OpGt | OpGte.

#[export] Instance Op_eq_dec : EqDecision Op.
Proof. solve_decision. Defined.

Record Comparator := mkComparator { op : Op; cversion : Version }.
Record Range := mkRange { left : Comparator; right : Comparator }.

#[export] Instance Comparator_eq_dec : EqDecision Comparator.
Proof. solve_decision. Defined.
#[export] Instance Range_eq_dec : EqDecision Range.
Proof. solve_decision. Defined.

Definition Comparator_default : Comparator := mkComparator OpUnset Version_default.
Definition Range_default : Range := mkRange Comparator_default Comparator_default.

Module Cmp.
Definition null_set : Comparator := mkComparator OpLt (mkVersion 0 0 0 TagOps.ZERO_PRE).

Definition lt_next_major (major : Z) : Comparator :=
  match checked_succ64 major with
  | Some m => mkComparator OpLt (mkVersion m 0 0 TagOps.ZERO_PRE)
  | None => mkComparator OpLte (mkVersion U64_MAX U64_MAX U64_MAX Tag_default)
  end.

Definition lt_next_minor (major minor : Z) : Comparator :=
  match checked_succ64 minor with
  | Some m => mkComparator OpLt (mkVersion major m 0 TagOps.ZERO_PRE)
  | None => mkComparator OpLte (mkVersion major U64_MAX U64_MAX Tag_default)
  end.

Definition lt_next_patch (major minor patch : Z) : Comparator :=
  match checked_succ64 patch with
  | Some p => mkComparator OpLt (mkVersion major minor p TagOps.ZERO_PRE)
  | None => mkComparator OpLte (mkVersion major minor U64_MAX Tag_default)
  end.

Definition gte_next_major (major : Z) (tag : Tag) : Comparator :=
  match checked_succ64 major with
  | Some m => mkComparator OpGte (mkVersion m 0 0 tag)
  | None => null_set
  end.

Definition gte_next_minor (major minor : Z) (tag : Tag) : Comparator :=
  match checked_succ64 minor with
  | Some m => mkComparator OpGte (mkVersion major m 0 tag)
  | None => gte_next_major major tag
  end.

Definition eql (c rhs : Comparator) : bool :=
  bool_decide (op c = op rhs) && Ver.eql (cversion c) (cversion rhs).

Definition satisfies (c : Comparator) (version : Version) (comparator_buf version_buf : bytes)
  : bool :=
  match Ver.order_without_build version (cversion c) version_buf comparator_buf with
  | Eq => match op c with OpLte | OpGte | OpEql => true | _ => false end
  | Gt => match op c with OpGt | OpGte => true | _ => false end
  | Lt => match op c with
          | OpGte => Ver.is_zero (cversion c) && negb (TagOps.has_pre (tag (cversion c)))
          | OpLt | OpLte => true
          | _ => false
          end
  end.

Definition fmt (c : Comparator) (buf : bytes) : bytes :=
  match op c with
  | OpUnset => []
  | OpEql => bs "==" ++ Ver.fmt (cversion c) buf
  | OpLt => bs "<" ++ Ver.fmt (cversion c) buf
  | OpLte => bs "<=" ++ Ver.fmt (cversion c) buf
  | OpGt => bs ">" ++ Ver.fmt (cversion c) buf
  | OpGte => bs ">=" ++ Ver.fmt (cversion c) buf
  end.
End Cmp.

Module Rng.
Definition init_wildcard (version : Version) (wildcard : Wildcard) (floor : Tag) : Range :=
  match wildcard with
  | WNone => mkRange (mkComparator OpEql version) Comparator_default
  | WMajor => mkRange (mkComparator OpGte (mkVersion 0 0 0 floor)) Comparator_default
  | WMinor => mkRange (Cmp.lt_next_major (major version))
                      (mkComparator OpGte (mkVersion (major version) 0 0 floor))
  | WPatch => mkRange (Cmp.lt_next_minor (major version) (minor version))
                      (mkComparator OpGte (mkVersion (major version) (minor version) 0 floor))
  end.

Definition has_left (r : Range) : bool := negb (bool_decide (op (left r) = OpUnset)).
Definition has_right (r : Range) : bool := negb (bool_decide (op (right r) = OpUnset)).

Definition eql (r rhs : Range) : bool :=
  Cmp.eql (left r) (left rhs) && Cmp.eql (right r) (right rhs).

Definition satisfies (r : Range) (version : Version) (range_buf version_buf : bytes) : bool :=
  if negb (has_left r) then true
  else if negb (Cmp.satisfies (left r) version range_buf version_buf) then false
  else if has_right r && negb (Cmp.satisfies (right r) version range_buf version_buf) then false
  else true.

(** [&mut pre_matched] is threaded: the result is the answer and its new value. *)
Definition satisfies_pre (r : Range) (version : Version) (range_buf version_buf : bytes)
    (pre_matched : bool) : bool * bool :=
  if negb (has_left r) then (true, pre_matched)
  else
    let pre_matched :=
      pre_matched
      || (TagOps.has_pre (tag (cversion (left r)))
          && (patch version =? patch (cversion (left r)))
          && (minor version =? minor (cversion (left r)))
          && (major version =? major (cversion (left r))))
      || (has_right r
          && TagOps.has_pre (tag (cversion (right r)))
          && (patch version =? patch (cversion (right r)))
          && (minor version =? minor (cversion (right r)))
          && (major version =? major (cversion (right r)))) in
    if negb (Cmp.satisfies (left r) version range_buf version_buf) then (false, pre_matched)
    else if has_right r && negb (Cmp.satisfies (right r) version range_buf version_buf)
    then (false, pre_matched)
    else (true, pre_matched).

Definition fmt (r : Range) (buf : bytes) : bytes :=
  if bool_decide (op (left r) = OpUnset) && bool_decide (op (right r) = OpUnset) then []
  else if bool_decide (op (right r) = OpUnset) then Cmp.fmt (left r) buf
  else Cmp.fmt (left r) buf ++ bs " " ++ Cmp.fmt (right r) buf.
End Rng.

(** ** Comparing views *)

(** What the types guarantee of a version: machine-width numbers, packed strings. *)
Definition version_ok (v : Version) : Prop :=
  is_u64 (major v) ∧ is_u64 (minor v) ∧ is_u64 (patch v) ∧ tag_ok (tag v).

Definition cmp_prec : spec_version unit → spec_version unit → comparison := spec_cmp no_build.

Definition triple_lt (x y : spec_version unit) : Prop :=
  s_major x < s_major y ∨ s_major x = s_major y ∧
    (s_minor x < s_minor y ∨ s_minor x = s_minor y ∧ s_patch x < s_patch y).

Definition same_triple (x y : spec_version unit) : Prop :=
  s_major x = s_major y ∧ s_minor x = s_minor y ∧ s_patch x = s_patch y.

Inductive cmp_case (x y : spec_version unit) : comparison → Prop :=
| case_lt : triple_lt x y → cmp_case x y Lt
| case_gt : triple_lt y x → cmp_case x y Gt
| case_label : same_triple x y → cmp_case x y (label_cmp no_build (s_label x) (s_label y)).

Lemma cmp_precP x y : cmp_case x y (cmp_prec x y).
Proof.
  unfold cmp_prec, spec_cmp.
  destruct (Z.compare_spec (s_major x) (s_major y)) as [HM|HM|HM]; cbn;
    [|constructor; left; lia|constructor; left; lia].
  destruct (Z.compare_spec (s_minor x) (s_minor y)) as [Hm|Hm|Hm]; cbn;
    [|constructor; right; lia|constructor; right; lia].
  destruct (Z.compare_spec (s_patch x) (s_patch y)) as [Hp|Hp|Hp]; cbn;
    [|constructor; right; lia|constructor; right; lia].
  by constructor.
Qed.

(** The operator's test of a comparison, and the exception for [>=0.0.0]. *)
Definition op_holds (o : Op) (c : comparison) : bool :=
  match c, o with
  | Eq, (OpLte | OpGte | OpEql) => true
  | Gt, (OpGt | OpGte) => true
  | Lt, (OpLt | OpLte) => true
  | _, _ => false
  end.

Definition is_any (c : Comparator) : bool :=
  bool_decide (op c = OpGte) && Ver.is_zero (cversion c) && negb (TagOps.has_pre (tag (cversion c))).

Lemma satisfies_spec c v cb vb :
  tag_ok (tag v) → tag_ok (tag (cversion c)) →
  Cmp.satisfies c v cb vb = is_any c || op_holds (op c) (cmp_prec (prec v vb) (prec (cversion c) cb)).
Proof.
  intros Hv Hc. unfold Cmp.satisfies. rewrite order_without_build_prec by done. fold cmp_prec.
  unfold is_any. destruct (op c), (cmp_prec _ _); cbn; try done; try by rewrite ?orb_false_r, ?orb_true_r.
Qed.

(** The views of the tags that desugared bounds carry. *)
Lemma prec_zero_pre M m p buf : prec (mkVersion M m p TagOps.ZERO_PRE) buf = mkSpec M m p (inl [Num 0]).
Proof. reflexivity. Qed.

Lemma prec_no_tag M m p buf : prec (mkVersion M m p Tag_default) buf = mkSpec M m p (inr tt).
Proof. reflexivity. Qed.

Lemma label_not_below_zero t buf :
  label_cmp no_build (label (λ _, tt) t buf) (inl [Num 0]) ≠ Lt.
Proof. unfold label. destruct (TagOps.has_pre t); cbn; [apply zero_pre_lowest|done]. Qed.

Lemma label_not_above_release t buf :
  label_cmp no_build (label (λ _, tt) t buf) (inr tt) ≠ Gt.
Proof. unfold label. by destruct (TagOps.has_pre t). Qed.

(** [<M.m.p-0] holds of the versions with a smaller triple only. *)
Lemma lt_zero_pre v vb cb M m p :
  tag_ok (tag v) →
  Cmp.satisfies (mkComparator OpLt (mkVersion M m p TagOps.ZERO_PRE)) v cb vb = true ↔
  triple_lt (prec v vb) (mkSpec M m p (inr tt)).
Proof.
  intros Hv. rewrite satisfies_spec by auto using zero_pre_ok. cbn [op is_any cversion].
  rewrite prec_zero_pre. pose proof (label_not_below_zero (tag v) vb) as Hl.
  change (label _ _ _) with (s_label (prec v vb)) in Hl.
  unfold triple_lt. cbn [s_major s_minor s_patch].
  destruct (cmp_precP (prec v vb) (mkSpec M m p (inl [Num 0]))) as [H|H|H];
    unfold triple_lt, same_triple in H; cbn in *.
  - tauto.
  - split; [done|intros; exfalso; lia].
  - destruct (label_cmp _ _ _); cbn; split; try done; intros; exfalso; lia.
Qed.

(** [<=M.m.p] holds of the versions whose triple is not larger. *)
Lemma lte_release v vb cb M m p :
  tag_ok (tag v) →
  Cmp.satisfies (mkComparator OpLte (mkVersion M m p Tag_default)) v cb vb = true ↔
  ¬ triple_lt (mkSpec M m p (inr tt)) (prec v vb).
Proof.
  intros Hv. rewrite satisfies_spec by (auto; apply (tag_wf_ok cb), default_wf).
  cbn [op is_any cversion]. rewrite prec_no_tag.
  pose proof (label_not_above_release (tag v) vb) as Hl.
  change (label _ _ _) with (s_label (prec v vb)) in Hl. unfold triple_lt.
  destruct (cmp_precP (prec v vb) (mkSpec M m p (inr tt))) as [H|H|H];
    unfold triple_lt, same_triple in H; cbn in *.
  - split; [lia|done].
  - split; [done|intros []; lia].
  - destruct (label_cmp _ _ _); cbn; split; try done; lia.
Qed.

(** Is [v] a prerelease of [M.m.p]? *)
Definition is_pre_of (v : Version) (M m p : Z) : bool :=
  TagOps.has_pre (tag v) && (major v =? M) && (minor v =? m) && (patch v =? p).

(** [>=M.m.p-0] admits the prereleases of [M.m.p]; [>=M.m.p] does not, unless it is [>=0.0.0]. *)
Lemma gte_zero_pre v vb cb M m p :
  tag_ok (tag v) →
  Cmp.satisfies (mkComparator OpGte (mkVersion M m p TagOps.ZERO_PRE)) v cb vb = true ↔
  ¬ triple_lt (prec v vb) (mkSpec M m p (inr tt)).
Proof.
  intros Hv. rewrite satisfies_spec by auto using zero_pre_ok.
  assert (is_any (mkComparator OpGte (mkVersion M m p TagOps.ZERO_PRE)) = false) as ->.
  { unfold is_any. cbn [cversion tag]. replace (TagOps.has_pre _) with true by done.
    by rewrite andb_false_r. }
  cbn [op orb cversion]. rewrite prec_zero_pre.
  pose proof (label_not_below_zero (tag v) vb) as Hl.
  change (label _ _ _) with (s_label (prec v vb)) in Hl. unfold triple_lt.
  destruct (cmp_precP (prec v vb) (mkSpec M m p (inl [Num 0]))) as [H|H|H];
    unfold triple_lt, same_triple in H; cbn in *.
  - split; [done|intros []; lia].
  - split; [lia|done].
  - destruct (label_cmp _ _ _); cbn; split; try done; lia.
Qed.

Lemma gte_release v vb cb M m p :
  tag_ok (tag v) →
  Cmp.satisfies (mkComparator OpGte (mkVersion M m p Tag_default)) v cb vb = true ↔
  M = 0 ∧ m = 0 ∧ p = 0 ∨
  ¬ triple_lt (prec v vb) (mkSpec M m p (inr tt)) ∧ is_pre_of v M m p = false.
Proof.
  intros Hv. rewrite satisfies_spec by (auto; apply (tag_wf_ok cb), default_wf).
  unfold is_any. cbn [op cversion]. rewrite bool_decide_eq_true_2 by done.
  cbn [tag Tag_default TagOps.has_pre]. rewrite prec_no_tag, orb_true_iff.
  assert (Ver.is_zero (mkVersion M m p Tag_default) && negb (TagOps.has_pre Tag_default) = true
    ↔ M = 0 ∧ m = 0 ∧ p = 0) as Hz.
  { change (TagOps.has_pre Tag_default) with false. unfold Ver.is_zero. cbn [major minor patch negb].
    lia. }
  cbn [andb]. rewrite Hz. apply or_iff_compat_l. unfold is_pre_of.
  destruct (cmp_precP (prec v vb) (mkSpec M m p (inr tt))) as [H|H|H];
    unfold triple_lt, same_triple in *; cbn in *.
  - split; [done|intros [[] _]; lia].
  - split; [intros _; split; [lia|]|done].
    destruct (TagOps.has_pre (tag v)); cbn; [|done]. lia.
  - unfold label. destruct H as (-> & -> & ->). rewrite !Z.eqb_refl.
    destruct (TagOps.has_pre (tag v)); cbn; split; try done; [intros [_ [=]]|]. intros _. split; [lia|done].
Qed.

(** ** The desugared bounds *)

Lemma checked_succ64_cases z :
  is_u64 z →
  (checked_succ64 z = Some (z + 1) ∧ is_u64 (z + 1)) ∨ (checked_succ64 z = None ∧ z = U64_MAX).
Proof.
  unfold checked_succ64, is_u64, U64_MAX. intros H. case_match; [left|right]; split; auto; lia.
Qed.

Ltac triple_lia := unfold triple_lt, version_ok, is_u64, U64_MAX in *; cbn in *; lia.

Lemma lt_next_major_iff v vb cb M :
  version_ok v → is_u64 M →
  Cmp.satisfies (Cmp.lt_next_major M) v cb vb = true ↔ major v <= M.
Proof.
  intros Hv HM. pose proof Hv as (_ & _ & _ & Ht). unfold Cmp.lt_next_major.
  destruct (checked_succ64_cases M HM) as [[-> _]|[-> ->]].
  - rewrite lt_zero_pre by done. triple_lia.
  - rewrite lte_release by done. triple_lia.
Qed.

Lemma lt_next_minor_iff v vb cb M m :
  version_ok v → is_u64 m →
  Cmp.satisfies (Cmp.lt_next_minor M m) v cb vb = true ↔
  major v < M ∨ major v = M ∧ minor v <= m.
Proof.
  intros Hv Hm. pose proof Hv as (_ & _ & _ & Ht). unfold Cmp.lt_next_minor.
  destruct (checked_succ64_cases m Hm) as [[-> _]|[-> ->]].
  - rewrite lt_zero_pre by done. triple_lia.
  - rewrite lte_release by done. triple_lia.
Qed.

Lemma lt_next_patch_iff v vb cb M m p :
  version_ok v → is_u64 p →
  Cmp.satisfies (Cmp.lt_next_patch M m p) v cb vb = true ↔
  major v < M ∨ major v = M ∧ (minor v < m ∨ minor v = m ∧ patch v <= p).
Proof.
  intros Hv Hp. pose proof Hv as (_ & _ & _ & Ht). unfold Cmp.lt_next_patch.
  destruct (checked_succ64_cases p Hp) as [[-> _]|[-> ->]].
  - rewrite lt_zero_pre by done. triple_lia.
  - rewrite lte_release by done. triple_lia.
Qed.

Lemma null_set_false v vb cb : version_ok v → Cmp.satisfies Cmp.null_set v cb vb = false.
Proof.
  intros Hv. pose proof Hv as (_ & _ & _ & Ht). apply not_true_is_false.
  unfold Cmp.null_set. rewrite lt_zero_pre by done. triple_lia.
Qed.

(** The two tags [parse] and [parse_including_prerelease] pass as [floor]. *)
Definition is_floor (t : Tag) : Prop := t = Tag_default ∨ t = TagOps.ZERO_PRE.

(** The prereleases of [M.m.p] that a derived lower bound [>=M.m.p] leaves out. *)
Definition below_floor (floor : Tag) (v : Version) (M m p : Z) : bool :=
  negb (TagOps.has_pre floor) && is_pre_of v M m p && negb ((M =? 0) && (m =? 0) && (p =? 0)).

Lemma floor_ok t : is_floor t → tag_ok t.
Proof. intros [-> | ->]; [apply (tag_wf_ok []), default_wf|apply zero_pre_ok]. Qed.

Lemma gte_floor_iff v vb cb floor M m p :
  version_ok v → is_floor floor →
  Cmp.satisfies (mkComparator OpGte (mkVersion M m p floor)) v cb vb = true ↔
  ¬ triple_lt (prec v vb) (mkSpec M m p (inr tt)) ∧ below_floor floor v M m p = false.
Proof.
  intros Hv [-> | ->]; pose proof Hv as (_ & _ & _ & Ht); unfold below_floor.
  - rewrite gte_release by done. change (TagOps.has_pre Tag_default) with false. cbn [negb andb].
    rewrite andb_false_iff. split; [|naive_solver lia].
    intros [(-> & -> & ->)|[H1 H2]]; [|auto]. split; [triple_lia|by right].
  - rewrite gte_zero_pre by done. change (TagOps.has_pre TagOps.ZERO_PRE) with true. naive_solver.
Qed.

Lemma gte_next_major_iff v vb cb floor M :
  version_ok v → is_floor floor → is_u64 M →
  Cmp.satisfies (Cmp.gte_next_major M floor) v cb vb = true ↔
  M < major v ∧ below_floor floor v (M + 1) 0 0 = false.
Proof.
  intros Hv Hf HM. unfold Cmp.gte_next_major.
  destruct (checked_succ64_cases M HM) as [[-> _]|[-> ->]].
  - rewrite gte_floor_iff by done. apply and_iff_compat_r. triple_lia.
  - rewrite null_set_false by done. triple_lia.
Qed.

Lemma gte_next_minor_iff v vb cb floor M m :
  version_ok v → is_floor floor → is_u64 M → is_u64 m → m < U64_MAX →
  Cmp.satisfies (Cmp.gte_next_minor M m floor) v cb vb = true ↔
  (M < major v ∨ M = major v ∧ m < minor v) ∧ below_floor floor v M (m + 1) 0 = false.
Proof.
  intros Hv Hf HM Hm Hlt. unfold Cmp.gte_next_minor.
  destruct (checked_succ64_cases m Hm) as [[-> _]|[-> ->]]; [|lia].
  rewrite gte_floor_iff by done. apply and_iff_compat_r. triple_lia.
Qed.

(** ** Ranges *)

Lemma range_satisfies_iff r v rb vb :
  Rng.satisfies r v rb vb = true ↔
  (op (left r) ≠ OpUnset →
   Cmp.satisfies (left r) v rb vb = true ∧
   (op (right r) ≠ OpUnset → Cmp.satisfies (right r) v rb vb = true)).
Proof.
  unfold Rng.satisfies, Rng.has_left, Rng.has_right.
  destruct (bool_decide_reflect (op (left r) = OpUnset)),
    (bool_decide_reflect (op (right r) = OpUnset)); cbn;
    destruct (Cmp.satisfies (left r) v rb vb), (Cmp.satisfies (right r) v rb vb); cbn; naive_solver.
Qed.

Lemma lt_next_major_set M : op (Cmp.lt_next_major M) ≠ OpUnset.
Proof. unfold Cmp.lt_next_major. by destruct (checked_succ64 M). Qed.
Lemma lt_next_minor_set M m : op (Cmp.lt_next_minor M m) ≠ OpUnset.
Proof. unfold Cmp.lt_next_minor. by destruct (checked_succ64 m). Qed.
Lemma lt_next_patch_set M m p : op (Cmp.lt_next_patch M m p) ≠ OpUnset.
Proof. unfold Cmp.lt_next_patch. by destruct (checked_succ64 p). Qed.

#[export] Hint Resolve lt_next_major_set lt_next_minor_set lt_next_patch_set : bun.

(** Both comparators of a range that has both. *)
Lemma range_both_iff l r v rb vb :
  op l ≠ OpUnset → op r ≠ OpUnset →
  Rng.satisfies (mkRange l r) v rb vb = true ↔
  Cmp.satisfies l v rb vb = true ∧ Cmp.satisfies r v rb vb = true.
Proof. intros. rewrite range_satisfies_iff. cbn. naive_solver. Qed.

Lemma range_left_iff l v rb vb :
  op l ≠ OpUnset →
  Rng.satisfies (mkRange l Comparator_default) v rb vb = true ↔ Cmp.satisfies l v rb vb = true.
Proof. intros. rewrite range_satisfies_iff. cbn. naive_solver. Qed.

Lemma init_wildcard_major_true u v rb vb floor :
  version_ok v → is_floor floor → Rng.satisfies (Rng.init_wildcard u WMajor floor) v rb vb = true.
Proof.
  intros Hv Hf. cbn [Rng.init_wildcard]. rewrite range_left_iff, gte_floor_iff by done.
  split; [triple_lia|]. unfold below_floor. by rewrite !andb_false_r.
Qed.

Lemma init_wildcard_minor_iff u v rb vb floor :
  version_ok v → is_floor floor → is_u64 (major u) →
  Rng.satisfies (Rng.init_wildcard u WMinor floor) v rb vb = true ↔
  major v = major u ∧ below_floor floor v (major u) 0 0 = false.
Proof.
  intros Hv Hf Hu. cbn [Rng.init_wildcard]. rewrite range_both_iff by auto with bun.
  rewrite lt_next_major_iff, gte_floor_iff by done. unfold triple_lt. cbn.
  unfold version_ok, is_u64 in *. split; [intros (? & ? & ?)|intros (? & ?)]; split_and!; auto; lia.
Qed.

Lemma init_wildcard_patch_iff u v rb vb floor :
  version_ok v → is_floor floor → is_u64 (minor u) →
  Rng.satisfies (Rng.init_wildcard u WPatch floor) v rb vb = true ↔
  major v = major u ∧ minor v = minor u ∧ below_floor floor v (major u) (minor u) 0 = false.
Proof.
  intros Hv Hf Hu. cbn [Rng.init_wildcard]. rewrite range_both_iff by auto with bun.
  rewrite lt_next_minor_iff, gte_floor_iff by done. unfold triple_lt. cbn.
  unfold version_ok, is_u64 in *. split; [intros (? & ? & ?)|intros (? & ? & ?)]; split_and!; auto; lia.
Qed.

(** ** The properties *)

Definition version_okb (v : Version) : bool :=
  forallb (λ n, (0 <=? n) && (n <? 2 ^ 64)) [major v; minor v; patch v] && tag_okb (tag v).

Lemma version_ok_check v : version_okb v = true → version_ok v.
Proof.
  intros [H Ht]%andb_prop. cbn [forallb] in H. unfold version_ok, is_u64.
  split_and!; try lia. by apply tag_ok_check.
Qed.

(** The derived upper bounds say what they mean for every version,
    prereleases included, and without overflow at [u64::MAX]: the bound after
    major [M] admits the versions whose major is at most [M], and likewise for
    a minor and a patch. *)
Theorem upper_bounds_meaning (v : Version) (vb cb : bytes) (M m p : Z) :
  version_ok v → is_u64 M → is_u64 m → is_u64 p →
  (Cmp.satisfies (Cmp.lt_next_major M) v cb vb = true ↔ major v <= M) ∧
  (Cmp.satisfies (Cmp.lt_next_minor M m) v cb vb = true ↔
     major v < M ∨ major v = M ∧ minor v <= m) ∧
  (Cmp.satisfies (Cmp.lt_next_patch M m p) v cb vb = true ↔
     major v < M ∨ major v = M ∧ (minor v < m ∨ minor v = m ∧ patch v <= p)).
Proof.
  intros Hv HM Hm Hp.
  split_and!; [by apply lt_next_major_iff|by apply lt_next_minor_iff|by apply lt_next_patch_iff].
Qed.

(** At the largest numbers a [u64] holds. *)
Lemma upper_bounds_meaning_witness :
  let v := mkVersion U64_MAX U64_MAX 5 (inline_tag (bs "rc.1") []) in
  (Cmp.satisfies (Cmp.lt_next_major U64_MAX) v [] [] = true ↔ U64_MAX <= U64_MAX) ∧
  (Cmp.satisfies (Cmp.lt_next_minor U64_MAX U64_MAX) v [] [] = true ↔
     U64_MAX < U64_MAX ∨ U64_MAX = U64_MAX ∧ U64_MAX <= U64_MAX) ∧
  (Cmp.satisfies (Cmp.lt_next_patch U64_MAX U64_MAX 4) v [] [] = true ↔
     U64_MAX < U64_MAX ∨ U64_MAX = U64_MAX ∧ (U64_MAX < U64_MAX ∨ U64_MAX = U64_MAX ∧ 5 <= 4)).
Proof.
  apply (upper_bounds_meaning (mkVersion U64_MAX U64_MAX 5 (inline_tag (bs "rc.1") [])) [] [] U64_MAX U64_MAX 4);
    [apply version_ok_check; vm_compute; reflexivity|split; vm_compute; congruence..].
Defined.

(** The wildcard ranges: [*] admits every version, [M.x] those with major
    [M], [M.m.x] those with major [M] and minor [m], except, unless prereleases
    are included ([floor]), the prereleases of the lowest version itself. *)
Theorem wildcard_ranges_meaning (u v : Version) (rb vb : bytes) (floor : Tag) :
  version_ok u → version_ok v → is_floor floor →
  Rng.satisfies (Rng.init_wildcard u WMajor floor) v rb vb = true ∧
  (Rng.satisfies (Rng.init_wildcard u WMinor floor) v rb vb = true ↔
     major v = major u ∧ below_floor floor v (major u) 0 0 = false) ∧
  (Rng.satisfies (Rng.init_wildcard u WPatch floor) v rb vb = true ↔
     major v = major u ∧ minor v = minor u ∧ below_floor floor v (major u) (minor u) 0 = false).
Proof.
  intros (HM & Hm & _) Hv Hf. split_and!; [by apply init_wildcard_major_true| |].
  - by apply init_wildcard_minor_iff.
  - by apply init_wildcard_patch_iff.
Qed.

Lemma wildcard_ranges_meaning_witness :
  let u := mkVersion 1 2 0 Tag_default in
  let v := mkVersion 1 2 0 (inline_tag (bs "rc.1") []) in
  below_floor Tag_default v 1 2 0 = true ∧
  Rng.satisfies (Rng.init_wildcard u WMajor Tag_default) v [] [] = true ∧
  (Rng.satisfies (Rng.init_wildcard u WMinor Tag_default) v [] [] = true ↔
     1 = 1 ∧ below_floor Tag_default v 1 0 0 = false) ∧
  (Rng.satisfies (Rng.init_wildcard u WPatch Tag_default) v [] [] = true ↔
     1 = 1 ∧ 2 = 2 ∧ below_floor Tag_default v 1 2 0 = false).
Proof.
  intros u v. split; [vm_compute; reflexivity|].
  apply (wildcard_ranges_meaning u v [] [] Tag_default);
    [apply version_ok_check; vm_compute; reflexivity..|by left].
Defined.

(** The comparator that stands for the empty range, which the parser uses
    for numbers out of range and for [>M] at the largest [M], admits no version. *)
Theorem null_set_unsatisfiable (v : Version) (vb cb : bytes) :
  version_ok v → Cmp.satisfies Cmp.null_set v cb vb = false.
Proof. apply null_set_false. Qed.

Lemma null_set_unsatisfiable_witness :
  Cmp.satisfies Cmp.null_set (mkVersion 0 0 0 (inline_tag (bs "0") [])) [] [] = false.
Proof.
  apply (null_set_unsatisfiable (mkVersion 0 0 0 (inline_tag (bs "0") [])) [] []).
  apply version_ok_check. vm_compute. reflexivity.
Defined.
