(* ===== verification/SemverQuery.v ===== *)
(** * [src/semver/SemverQuery.rs]: AND chains, OR lists, groups

    The [Option<Box<_>>] chains are lists of the nodes after the head. A [tail]
    pointer is the index of the node it aliases, counted from the head: 0 is
    the head itself, which is stored inline and moves with its owner, [i + 1]
    the [i]-th boxed node. Following a tail that is not a node of the chain is
    [None]. *)

From S2P Require Import Prelude BunStrings Wyhash SemverString SemverVersion SemverOrder.
From S2P Require Import SemverVersionFacts SemverRange.
#[local] Open Scope Z_scope.

(** AND: the head's range and the ranges of the [next] chain. *)
Record Query := mkQuery { range : Range; qnext : list Range }.

(** One node of an OR chain. *)
Record LNode := mkLNode { head : Query; ltail : option nat }.

(** OR: the first node and the nodes of the [next] chain. *)
Record QList := mkQList { lnode : LNode; lnext : list LNode }.

(** [FlagsBitSet], an [IntegerBitSet<3>]. *)
Record Flags := mkFlags { f_build : bool; f_pre : bool; f_skipped : bool }.

Record Group := mkGroup { ghead : QList; gtail : option nat; ginput : bytes; flags : Flags }.

Definition Query_default : Query := mkQuery Range_default [].
Definition LNode_default : LNode := mkLNode Query_default None.
Definition QList_default : QList := mkQList LNode_default [].
Definition Flags_empty : Flags := mkFlags false false false.
Definition Group_default : Group := mkGroup QList_default None [] Flags_empty.

(** ** [Query] *)
Module Qry.
Definition ranges (q : Query) : list Range := range q :: qnext q.

Fixpoint clone_chain (src : list Range) : list Range :=
  match src with [] => [] | r :: src => r :: clone_chain src end.
Definition clone (q : Query) : Query := mkQuery (range q) (clone_chain (qnext q)).

Definition exact_version (q : Query) : option Version :=
  if bool_decide (qnext q = []) && bool_decide (op (left (range q)) = OpEql)
     && negb (Rng.has_right (range q))
  then Some (cversion (left (range q))) else None.

Fixpoint eql_loop (lhs : Range) (lhs_next : list Range) (rhs : Range) (rhs_next : list Range)
  : bool :=
  if negb (Rng.eql lhs rhs) then false
  else match lhs_next with
       | [] => bool_decide (rhs_next = [])
       | l :: lhs_next =>
           match rhs_next with
           | [] => false
           | r :: rhs_next => eql_loop l lhs_next r rhs_next
           end
       end.
Definition eql (q rhs : Query) : bool := eql_loop (range q) (qnext q) (range rhs) (qnext rhs).

Fixpoint satisfies_loop (node : Range) (next : list Range) (version : Version)
    (query_buf version_buf : bytes) : bool :=
  if negb (Rng.satisfies node version query_buf version_buf) then false
  else match next with
       | node :: next => satisfies_loop node next version query_buf version_buf
       | [] => true
       end.
Definition satisfies (q : Query) (version : Version) (query_buf version_buf : bytes) : bool :=
  satisfies_loop (range q) (qnext q) version query_buf version_buf.

Fixpoint satisfies_pre_loop (node : Range) (next : list Range) (version : Version)
    (query_buf version_buf : bytes) (pre_matched : bool) : bool * bool :=
  let '(ok, pre_matched) := Rng.satisfies_pre node version query_buf version_buf pre_matched in
  if negb ok then (false, pre_matched)
  else match next with
       | node :: next => satisfies_pre_loop node next version query_buf version_buf pre_matched
       | [] => (true, pre_matched)
       end.
Definition satisfies_pre (q : Query) (version : Version) (query_buf version_buf : bytes)
    (pre_matched : bool) : bool * bool :=
  satisfies_pre_loop (range q) (qnext q) version query_buf version_buf pre_matched.

(** [Display]: at most two ranges of the chain are written. *)
Definition fmt (q : Query) (buf : bytes) : bytes :=
  match qnext q with
  | r :: _ =>
      if Rng.has_left r || Rng.has_right r
      then Rng.fmt (range q) buf ++ bs " && " ++ Rng.fmt r buf
      else Rng.fmt (range q) buf
  | [] => Rng.fmt (range q) buf
  end.

(** [node.next = Some(box r)] at the node a tail pointer aliases. *)
Definition set_next_at (q : Query) (i : nat) (r : Range) : option Query :=
  if (i <=? length (qnext q))%nat then Some (mkQuery (range q) (take i (qnext q) ++ [r])) else None.
End Qry.

(** ** [List] *)
Module Lst.
(** The tail that [clone] recomputes by walking the copied chain. *)
Fixpoint walk_tail (tail : nat) (next : list Range) : nat :=
  match next with [] => tail | _ :: next => walk_tail (S tail) next end.
Definition clone_node (n : LNode) : LNode :=
  let head := Qry.clone (head n) in
  mkLNode head (if bool_decide (qnext head = []) then None else Some (walk_tail 0 (qnext head))).
Definition clone (l : QList) : QList :=
  mkQList (clone_node (lnode l)) (map clone_node (lnext l)).

Fixpoint satisfies_loop (node : LNode) (next : list LNode) (version : Version)
    (list_buf version_buf : bytes) : bool :=
  if Qry.satisfies (head node) version list_buf version_buf then true
  else match next with
       | node :: next => satisfies_loop node next version list_buf version_buf
       | [] => false
       end.
Definition satisfies (l : QList) (version : Version) (list_buf version_buf : bytes) : bool :=
  satisfies_loop (lnode l) (lnext l) version list_buf version_buf.

Fixpoint satisfies_pre_loop (node : LNode) (next : list LNode) (version : Version)
    (list_buf version_buf : bytes) : bool :=
  let '(ok, pre_matched) := Qry.satisfies_pre (head node) version list_buf version_buf false in
  if ok && pre_matched then true
  else match next with
       | node :: next => satisfies_pre_loop node next version list_buf version_buf
       | [] => false
       end.
Definition satisfies_pre (l : QList) (version : Version) (list_buf version_buf : bytes) : bool :=
  satisfies_pre_loop (lnode l) (lnext l) version list_buf version_buf.

Fixpoint eql_loop (lhs : LNode) (lhs_next : list LNode) (rhs : LNode) (rhs_next : list LNode)
  : bool :=
  if negb (Qry.eql (head lhs) (head rhs)) then false
  else match lhs_next with
       | [] => match rhs_next with [] => true | _ => false end
       | l :: lhs_next =>
           match rhs_next with
           | [] => false
           | r :: rhs_next => eql_loop l lhs_next r rhs_next
           end
       end.
Definition eql (l rhs : QList) : bool := eql_loop (lnode l) (lnext l) (lnode rhs) (lnext rhs).

Fixpoint fmt_loop (this : LNode) (next : list LNode) (buf : bytes) : bytes :=
  match next with
  | ptr :: next => Qry.fmt (head this) buf ++ bs " || " ++ fmt_loop ptr next buf
  | [] => Qry.fmt (head this) buf
  end.
Definition fmt (l : QList) (buf : bytes) : bytes := fmt_loop (lnode l) (lnext l) buf.

(** [and_range] on one node: append to its AND chain, through [tail]. *)
Definition and_range (n : LNode) (r : Range) : option LNode :=
  if negb (Rng.has_left (range (head n))) && negb (Rng.has_right (range (head n)))
  then Some (mkLNode (mkQuery r (qnext (head n))) (ltail n))
  else
    let last_tail := default 0%nat (ltail n) in
    q ← Qry.set_next_at (head n) last_tail r;
    Some (mkLNode q (Some (S last_tail))).
End Lst.

(** ** [Group] *)
Module Grp.
Definition clone (g : Group) : Group :=
  let h := Lst.clone (ghead g) in
  mkGroup h
    (match lnext h with [] => None | _ => Some (length (lnext h)) end)
    (ginput g) (flags g).

(** [Display]: the [&&] between alternatives is what the code writes. *)
Fixpoint fmt_loop (this : LNode) (next : list LNode) (buf : bytes) : bytes :=
  match next with
  | ptr :: next => Lst.fmt (mkQList this (ptr :: next)) buf ++ bs " && " ++ fmt_loop ptr next buf
  | [] => Lst.fmt (mkQList this []) buf
  end.
Definition fmt (g : Group) (buf : bytes) : bytes :=
  let h := lnode (ghead g) in
  if bool_decide (gtail g = None) && bool_decide (ltail h = None)
     && negb (Rng.has_left (range (head h))) then []
  else if bool_decide (gtail g = None) && bool_decide (ltail h = None) then Lst.fmt (ghead g) buf
  else fmt_loop h (lnext (ghead g)) buf.

Definition get_exact_version (g : Group) : option Version :=
  match lnext (ghead g) with
  | _ :: _ => None
  | [] => Qry.exact_version (head (lnode (ghead g)))
  end.

Definition from_comparator (left : Comparator) : Group :=
  mkGroup (mkQList (mkLNode (mkQuery (mkRange left Comparator_default) []) None) [])
          None [] Flags_empty.

Definition from (version : Version) : Group := from_comparator (mkComparator OpEql version).

Definition null_set (input : bytes) : Group :=
  let g := from_comparator Cmp.null_set in mkGroup (ghead g) (gtail g) input (flags g).

Definition no_next (g : Group) : bool :=
  match lnext (ghead g) with [] => true | _ => false end.

Definition is_exact (g : Group) : bool :=
  no_next g && bool_decide (qnext (head (lnode (ghead g))) = [])
  && negb (Rng.has_right (range (head (lnode (ghead g)))))
  && bool_decide (op (left (range (head (lnode (ghead g))))) = OpEql).

Definition is_star (g : Group) : bool :=
  let r := range (head (lnode (ghead g))) in
  bool_decide (op (right r) = OpUnset) && bool_decide (op (left r) = OpGte) && no_next g
  && bool_decide (qnext (head (lnode (ghead g))) = []) && Ver.is_zero (cversion (left r))
  && negb (f_build (flags g)).

Definition eql (g rhs : Group) : bool := Lst.eql (ghead g) (ghead rhs).

(** [match self.tail]: apply [f] to the node the tail aliases, or to the head. *)
Definition at_tail (g : Group) (f : LNode → option LNode) : option QList :=
  match gtail g with
  | None | Some 0%nat =>
      n ← f (lnode (ghead g)); Some (mkQList n (lnext (ghead g)))
  | Some (S i) =>
      n ← lnext (ghead g) !! i; n ← f n; Some (mkQList (lnode (ghead g)) (<[i := n]> (lnext (ghead g))))
  end.

Definition and_range (g : Group) (r : Range) : option Group :=
  h ← at_tail g (λ n, Lst.and_range n r); Some (mkGroup h (gtail g) (ginput g) (flags g)).

Definition or_range (g : Group) (r : Range) : option Group :=
  let h := lnode (ghead g) in
  if bool_decide (gtail g = None) && bool_decide (ltail h = None)
     && negb (Rng.has_left (range (head h)))
  then Some (mkGroup (mkQList (mkLNode (mkQuery r (qnext (head h))) (ltail h)) (lnext (ghead g)))
                     (gtail g) (ginput g) (flags g))
  else
    let new_tail := mkLNode (mkQuery r []) None in
    let prev_tail := default 0%nat (gtail g) in
    if (prev_tail <=? length (lnext (ghead g)))%nat
    then Some (mkGroup (mkQList h (take prev_tail (lnext (ghead g)) ++ [new_tail]))
                       (Some (S prev_tail)) (ginput g) (flags g))
    else None.

Definition satisfies (g : Group) (version : Version) (group_buf version_buf : bytes) : bool :=
  if TagOps.has_pre (tag version) then Lst.satisfies_pre (ghead g) version group_buf version_buf
  else Lst.satisfies (ghead g) version group_buf version_buf.

Definition is_empty (g : Group) : bool :=
  no_next g && bool_decide (qnext (head (lnode (ghead g))) = [])
  && negb (Rng.has_left (range (head (lnode (ghead g))))).

Definition has_skipped (g : Group) : bool := f_skipped (flags g).

Definition satisfies_including_prerelease (g : Group) (version : Version)
    (group_buf version_buf : bytes) : bool :=
  Lst.satisfies (ghead g) version group_buf version_buf.
End Grp.

(** ** [Token] *)

Inductive TokenTag := TNone | TGt | TGte | TLt | TLte | TVersion | TTilda | TCaret.

#[export] Instance TokenTag_eq_dec : EqDecision TokenTag.
Proof. solve_decision. Defined.

Record Token := mkToken { ttag : TokenTag; twildcard : Wildcard }.
Definition Token_default : Token := mkToken TNone WNone.

Module Tok.
Definition caret_range (version : Partial) (wildcard_is_written : bool) (floor : Tag) : Range :=
  match p_major version with
  | None =>
      if wildcard_is_written then Rng.init_wildcard (Ver.min version) WMajor floor
      else Range_default
  | Some major =>
      match p_minor version with
      | None => mkRange (mkComparator OpGte (mkVersion major 0 0 floor)) (Cmp.lt_next_major major)
      | Some minor =>
          match p_patch version with
          | None =>
              let left := mkComparator OpGte (mkVersion major minor 0 floor) in
              if major =? 0 then mkRange left (Cmp.lt_next_minor 0 minor)
              else mkRange left (Cmp.lt_next_major major)
          | Some patch =>
              let t := p_tag version in
              if major =? 0 then
                let t := if negb (TagOps.has_pre t) then TagOps.set_pre t (pre floor) else t in
                mkRange (mkComparator OpGte (mkVersion major minor patch t))
                        (if minor =? 0 then Cmp.lt_next_patch 0 0 patch
                         else Cmp.lt_next_minor 0 minor)
              else mkRange (mkComparator OpGte (mkVersion major minor patch t))
                           (Cmp.lt_next_major major)
          end
      end
  end.

Definition tilde_range (version : Partial) (wildcard_is_written : bool) (floor : Tag) : Range :=
  match p_major version with
  | None =>
      if wildcard_is_written then Rng.init_wildcard (Ver.min version) WMajor floor
      else Range_default
  | Some major =>
      match p_minor version with
      | None => mkRange (mkComparator OpGte (mkVersion major 0 0 Tag_default))
                        (Cmp.lt_next_major major)
      | Some minor =>
          mkRange (mkComparator OpGte
                     (match p_patch version with
                      | None => mkVersion major minor 0 Tag_default
                      | Some patch => mkVersion major minor patch (p_tag version)
                      end))
                  (Cmp.lt_next_minor major minor)
      end
  end.

Definition version_range (wildcard : Wildcard) (version : Partial) (floor : Tag) : Range :=
  if negb (bool_decide (wildcard = WNone)) then Rng.init_wildcard (Ver.min version) wildcard floor
  else mkRange (mkComparator OpEql (Ver.min version)) Comparator_default.

(** [replaceXRange], for the operators [>], [>=], [<] and [<=]. *)
Definition operator_range (o : Op) (wildcard : Wildcard) (version : Partial)
    (wildcard_is_written : bool) (floor : Tag) : Range :=
  let major := default 0 (p_major version) in
  let minor := default 0 (p_minor version) in
  let first_of_partial t := mkComparator o (mkVersion major minor 0 t) in
  let only left := mkRange left Comparator_default in
  match o, wildcard with
  | _, WNone => only (mkComparator o (Ver.min version))
  | (OpGt | OpLt), WMajor =>
      if wildcard_is_written then only Cmp.null_set
      else Rng.init_wildcard (Ver.min version) WMajor floor
  | _, WMajor => Rng.init_wildcard (Ver.min version) WMajor floor
  | OpGte, _ => only (first_of_partial floor)
  | OpLt, _ => only (first_of_partial TagOps.ZERO_PRE)
  | OpGt, WMinor => only (Cmp.gte_next_major major floor)
  | OpGt, WPatch => only (Cmp.gte_next_minor major minor floor)
  | _, WMinor => only (Cmp.lt_next_major major)
  | _, WPatch => only (Cmp.lt_next_minor major minor)
  end.

(** [None] for [TokenTag::None], where the code is [unreachable!()]. *)
Definition to_range (t : Token) (parsed : ParseResult) (floor : Tag) : option Range :=
  let version := version parsed in
  let wildcard_is_written := valid parsed in
  match ttag t with
  | TCaret => Some (caret_range version wildcard_is_written floor)
  | TTilda => Some (tilde_range version wildcard_is_written floor)
  | TNone => None
  | TVersion => Some (version_range (twildcard t) version floor)
  | TGt => Some (operator_range OpGt (twildcard t) version wildcard_is_written floor)
  | TGte => Some (operator_range OpGte (twildcard t) version wildcard_is_written floor)
  | TLt => Some (operator_range OpLt (twildcard t) version wildcard_is_written floor)
  | TLte => Some (operator_range OpLte (twildcard t) version wildcard_is_written floor)
  end.
End Tok.

(** [Range::caret]. *)
Definition caret (version : Version) : option Range :=
  Tok.to_range (mkToken TCaret WNone)
    (mkParseResult WNone true false
       (mkPartial (Some (major version)) (Some (minor version)) (Some (patch version)) (tag version)) 0)
    Tag_default.
