(* ===== verification/SemverQueryFacts.v ===== *)
(** * What groups and tokens mean

    The tail-pointer invariant of [and_range] and [or_range], the reading of a
    group as an OR of ANDs, and the versions that [^], [~] and the comparison
    operators admit. *)

From S2P Require Import Prelude BunStrings Wyhash SemverString SemverVersion SemverOrder.
From S2P Require Import SemverVersionFacts SemverRange SemverQuery.
#[local] Open Scope Z_scope.

(** ** Tails *)

(** A tail is the index of the last node, or [None] when that is the head. *)
Definition last_index {A} (next : list A) : option nat :=
  match next with [] => None | _ => Some (length next) end.

Definition node_ok (n : LNode) : Prop := ltail n = last_index (qnext (head n)).
Definition nodes (g : Group) : list LNode := lnode (ghead g) :: lnext (ghead g).
Definition group_ok (g : Group) : Prop :=
  Forall node_ok (nodes g) ∧ gtail g = last_index (lnext (ghead g)).

(** The AND chains that are OR'd together. *)
Definition alternatives (g : Group) : list Query := map head (nodes g).

(** Appending to a chain whose head may still be unset. *)
Definition and_query (q : Query) (r : Range) : Query :=
  if negb (Rng.has_left (range q)) && negb (Rng.has_right (range q)) then mkQuery r (qnext q)
  else mkQuery (range q) (qnext q ++ [r]).

Lemma default_last_index {A} (l : list A) : default 0%nat (last_index l) = length l.
Proof. by destruct l. Qed.

Lemma last_index_snoc {A} (l : list A) x : last_index (l ++ [x]) = Some (S (length l)).
Proof. destruct l; cbn; [done|]. rewrite length_app. cbn. do 2 f_equal. lia. Qed.

Lemma node_and_range n r :
  node_ok n →
  ∃ n', Lst.and_range n r = Some n' ∧ node_ok n' ∧ head n' = and_query (head n) r.
Proof.
  intros Hn. unfold Lst.and_range, and_query.
  destruct (negb _ && negb _); [eexists; split; [done|]; split; done|].
  rewrite Hn, default_last_index. unfold Qry.set_next_at. rewrite Nat.leb_refl, firstn_all. cbn.
  eexists. split; [done|]. split; [|done]. unfold node_ok. cbn. by rewrite last_index_snoc.
Qed.

Lemma group_and_range g r :
  group_ok g →
  ∃ g' ns q, Grp.and_range g r = Some g' ∧ group_ok g' ∧ flags g' = flags g ∧
    alternatives g = ns ++ [q] ∧ alternatives g' = ns ++ [and_query q r].
Proof.
  destruct g as [[h next] t inp fl]. intros [Hns Ht]. unfold Grp.and_range, Grp.at_tail.
  unfold alternatives, nodes, group_ok in *. cbn [gtail ghead lnode lnext flags] in *. rewrite Ht.
  rewrite Forall_cons in Hns. destruct Hns as [Hh Hns].
  induction next as [|n0 next0 _] using rev_ind.
  - cbn. destruct (node_and_range h r Hh) as (n' & Hn' & Hok & Hq). rewrite Hn'. cbn.
    eexists _, [], (head h). split; [done|]. cbn. rewrite Hq. split_and!; auto. by constructor.
  - rewrite last_index_snoc. rewrite Forall_app in Hns. destruct Hns as [Hns Hn0].
    rewrite Forall_singleton in Hn0. rewrite lookup_app_r, Nat.sub_diag by lia. cbn.
    destruct (node_and_range n0 r Hn0) as (n' & Hn' & Hok & Hq). rewrite Hn'. cbn.
    eexists _, (head h :: map head next0), (head n0). split; [done|]. cbn.
    replace (length next0) with (length next0 + 0)%nat by lia. rewrite insert_app_r. cbn.
    split_and!; auto.
    + constructor; [done|]. apply Forall_app. auto.
    + by rewrite last_index_snoc, Nat.add_0_r.
    + by rewrite map_app.
    + by rewrite map_app, <- Hq.
Qed.

(** Nothing has been stored in the group yet. *)
Definition is_fresh (g : Group) : bool :=
  bool_decide (gtail g = None) && bool_decide (ltail (lnode (ghead g)) = None)
  && negb (Rng.has_left (range (head (lnode (ghead g))))).

Lemma group_or_range g r :
  group_ok g →
  ∃ g', Grp.or_range g r = Some g' ∧ group_ok g' ∧ flags g' = flags g ∧
    alternatives g' = (if is_fresh g then [] else alternatives g) ++ [mkQuery r []].
Proof.
  destruct g as [[h next] t inp fl]. intros [Hns Ht]. unfold Grp.or_range.
  change (bool_decide _ && bool_decide _ && _)
    with (is_fresh (mkGroup (mkQList h next) t inp fl)) at 1.
  unfold alternatives, nodes, group_ok in *. cbn [gtail ghead lnode lnext flags] in *.
  rewrite Forall_cons in Hns. destruct Hns as [Hh Hns].
  destruct (is_fresh _) eqn:Hf.
  - unfold is_fresh in Hf. cbn in Hf. apply andb_prop in Hf as [[H1%bool_decide_eq_true H2%bool_decide_eq_true]%andb_prop _].
    assert (next = []) as -> by (subst t; by destruct next).
    rewrite Hh in H2. destruct (qnext (head h)) eqn:E; [|done].
    eexists. split; [done|]. cbn. split_and!; auto. constructor; [|done].
    unfold node_ok. cbn. by rewrite Hh, E.
  - rewrite Ht, default_last_index, Nat.leb_refl, firstn_all. eexists. split; [done|]. cbn.
    split_and!; auto.
    + constructor; [done|]. apply Forall_app. split; [done|]. by constructor.
    + by rewrite last_index_snoc.
    + by rewrite map_app.
Qed.

(** ** Satisfaction *)

Lemma existsb_ext {A} (f g : A → bool) l : (∀ x, f x = g x) → existsb f l = existsb g l.
Proof. intros H. induction l as [|x l IH]; cbn; [done|]. by rewrite H, IH. Qed.

Lemma query_satisfies q v qb vb :
  Qry.satisfies q v qb vb = forallb (λ r, Rng.satisfies r v qb vb) (Qry.ranges q).
Proof.
  destruct q as [r next]. unfold Qry.satisfies, Qry.ranges. cbn [range qnext].
  revert r. induction next as [|r' next IH]; intros r; cbn [Qry.satisfies_loop forallb];
    destruct (Rng.satisfies r v qb vb); cbn; done.
Qed.

Lemma list_satisfies l v lb vb :
  Lst.satisfies l v lb vb =
  existsb (λ q, forallb (λ r, Rng.satisfies r v lb vb) (Qry.ranges q))
    (map head (lnode l :: lnext l)).
Proof.
  destruct l as [n next]. unfold Lst.satisfies. cbn [lnode lnext]. rewrite <- (map_id next) at 1.
  revert n. induction next as [|n' next IH]; intros n; cbn [Lst.satisfies_loop map];
    rewrite query_satisfies; cbn [existsb]; destruct (forallb _ _); done.
Qed.

(** The range has a prerelease comparator of [v]'s triple. *)
Definition same_core (v w : Version) : bool :=
  TagOps.has_pre (tag w) && (patch v =? patch w) && (minor v =? minor w) && (major v =? major w).

Definition mentions (v : Version) (r : Range) : bool :=
  Rng.has_left r &&
  (same_core v (cversion (left r)) || (Rng.has_right r && same_core v (cversion (right r)))).

Lemma range_satisfies_pre r v rb vb pm :
  Rng.satisfies_pre r v rb vb pm
  = (Rng.satisfies r v rb vb, pm || mentions v r).
Proof.
  unfold Rng.satisfies_pre, Rng.satisfies, mentions, same_core.
  destruct (Rng.has_left r); cbn; [|by rewrite orb_false_r].
  destruct (Cmp.satisfies (left r) v rb vb), (Rng.has_right r), (Cmp.satisfies (right r) v rb vb);
    cbn; rewrite <- ?orb_assoc; try done.
Qed.

Lemma query_satisfies_pre q v qb vb :
  let '(ok, pm) := Qry.satisfies_pre q v qb vb false in
  ok && pm = forallb (λ r, Rng.satisfies r v qb vb) (Qry.ranges q)
             && existsb (mentions v) (Qry.ranges q).
Proof.
  destruct q as [r next]. unfold Qry.satisfies_pre, Qry.ranges. cbn [range qnext].
  assert (H : ∀ pm r, let '(ok, pm') := Qry.satisfies_pre_loop r next v qb vb pm in
    ok && pm' = forallb (λ r, Rng.satisfies r v qb vb) (r :: next)
                && (pm || existsb (mentions v) (r :: next))); [|apply (H false)].
  clear r. induction next as [|r' next IH]; intros pm r; cbn [Qry.satisfies_pre_loop];
    rewrite range_satisfies_pre; cbn [forallb existsb]; destruct (Rng.satisfies r v qb vb); cbn;
    try by rewrite ?orb_false_r.
  specialize (IH (pm || mentions v r) r'). destruct (Qry.satisfies_pre_loop _ _ _ _ _ _).
  rewrite IH. cbn. by rewrite <- !orb_assoc.
Qed.

Lemma list_satisfies_pre l v lb vb :
  Lst.satisfies_pre l v lb vb =
  existsb (λ q, forallb (λ r, Rng.satisfies r v lb vb) (Qry.ranges q)
                && existsb (mentions v) (Qry.ranges q))
    (map head (lnode l :: lnext l)).
Proof.
  destruct l as [n next]. unfold Lst.satisfies_pre. cbn [lnode lnext].
  revert n. induction next as [|n' next IH]; intros n; cbn [Lst.satisfies_pre_loop map];
    pose proof (query_satisfies_pre (head n) v lb vb) as H;
    destruct (Qry.satisfies_pre _ _ _ _ _) as [ok pm]; rewrite H; clear H; cbn [existsb];
    destruct (_ && _); done.
Qed.

(** A group is satisfied through one alternative all of whose ranges hold and,
    for a prerelease, one of which names a prerelease of the same triple. *)
Definition alternative_holds (v : Version) (gb vb : bytes) (q : Query) : bool :=
  forallb (λ r, Rng.satisfies r v gb vb) (Qry.ranges q)
  && (negb (TagOps.has_pre (tag v)) || existsb (mentions v) (Qry.ranges q)).

Lemma group_satisfies g v gb vb :
  Grp.satisfies g v gb vb = existsb (alternative_holds v gb vb) (alternatives g).
Proof.
  unfold Grp.satisfies, alternative_holds, alternatives, nodes.
  destruct (TagOps.has_pre (tag v)); cbn [negb orb].
  - apply list_satisfies_pre.
  - rewrite list_satisfies. apply existsb_ext. intros q. by rewrite andb_true_r.
Qed.

(** ** Copies, exact versions and [*] *)

Lemma clone_chain_id l : Qry.clone_chain l = l.
Proof. induction l as [|r l IH]; cbn; [done|by rewrite IH]. Qed.

Lemma walk_tail_length next t : Lst.walk_tail t next = (t + length next)%nat.
Proof. revert t. induction next as [|r next IH]; intros t; cbn; [lia|rewrite IH; lia]. Qed.

Lemma clone_node_id n : node_ok n → Lst.clone_node n = n.
Proof.
  destruct n as [[r next] t]. unfold node_ok, Lst.clone_node, Qry.clone. cbn. intros ->.
  rewrite clone_chain_id, walk_tail_length. by destruct next.
Qed.

Lemma group_clone g : group_ok g → Grp.clone g = g.
Proof.
  destruct g as [[h next] t inp fl]. intros [Hns Ht]. cbn in Ht. unfold nodes in Hns. cbn in Hns.
  rewrite Forall_cons in Hns. destruct Hns as [Hh Hns].
  unfold Grp.clone, Lst.clone. cbn. rewrite clone_node_id by done.
  assert (map Lst.clone_node next = next) as ->.
  { clear Ht. induction Hns as [|n next Hn _ IH]; cbn; [done|]. by rewrite IH, clone_node_id. }
  rewrite Ht. by destruct next.
Qed.

Lemma satisfies_eql e v eb vb :
  Cmp.satisfies (mkComparator OpEql e) v eb vb
  = match Ver.order_without_build v e vb eb with Eq => true | _ => false end.
Proof. unfold Cmp.satisfies. cbn. by destruct (Ver.order_without_build _ _ _ _). Qed.

Lemma order_without_build_eq v e vb eb :
  Ver.order_without_build v e vb eb = Eq →
  major v = major e ∧ minor v = minor e ∧ patch v = patch e ∧
  TagOps.has_pre (tag v) = TagOps.has_pre (tag e).
Proof.
  unfold Ver.order_without_build. destruct (Ver.order_without_tag v e) eqn:E; try done.
  intros _. pose proof (order_without_tag_eq _ _ E). unfold Ver.order_without_tag in E.
  repeat case_match; try done; split_and!; try done; lia.
Qed.

Lemma exact_query q e v qb vb :
  Qry.exact_version q = Some e →
  alternative_holds v qb vb q = match Ver.order_without_build v e vb qb with Eq => true | _ => false end.
Proof.
  destruct q as [[l r] next]. unfold Qry.exact_version, alternative_holds, Qry.ranges. cbn.
  destruct (bool_decide_reflect (next = [])) as [->|]; [|done].
  destruct (bool_decide_reflect (op l = OpEql)) as [Hl|]; [|done]. cbn.
  destruct (Rng.has_right (mkRange l r)) eqn:Hr; [done|]. intros [= <-]. cbn.
  unfold mentions, Rng.satisfies. rewrite Hr. unfold Rng.has_left. cbn [left].
  rewrite (bool_decide_eq_false_2 (op l = OpUnset)) by (by rewrite Hl). cbn.
  destruct l as [o e]. cbn in Hl. subst o. cbn [cversion]. rewrite satisfies_eql.
  destruct (Ver.order_without_build v e vb qb) eqn:E; cbn; try done.
  apply order_without_build_eq in E as (E1 & E2 & E3 & E4). unfold same_core.
  rewrite E1, E2, E3, E4, !Z.eqb_refl. by destruct (TagOps.has_pre (tag e)).
Qed.

Lemma group_exact_version g :
  Grp.get_exact_version g
  = (if Grp.is_exact g then Some (cversion (left (range (head (lnode (ghead g)))))) else None).
Proof.
  unfold Grp.get_exact_version, Grp.is_exact, Grp.no_next, Qry.exact_version.
  destruct (lnext (ghead g)); [|done]. cbn.
  by destruct (bool_decide _), (bool_decide _), (Rng.has_right _).
Qed.

(** ** The versions a token admits *)

(** [v <= w] in precedence, with the exception of [>=0.0.0]. *)
Definition at_least (v w : Version) (vb wb : bytes) : bool :=
  Cmp.satisfies (mkComparator OpGte v) w vb wb.

(** [w] keeps the left-most non-zero of [major.minor.patch] of [v], and what is before it. *)
Definition keeps_leftmost (v w : Version) : Prop :=
  if major v =? 0 then
    if minor v =? 0 then major w = 0 ∧ minor w = 0 ∧ patch w = patch v
    else major w = 0 ∧ minor w = minor v
  else major w = major v.

Lemma at_least_triple v w vb wb :
  version_ok v → version_ok w → at_least v w vb wb = true →
  ¬ triple_lt (prec w wb) (prec v vb).
Proof.
  intros Hv Hw. pose proof Hv as (_ & _ & _ & Hvt). pose proof Hw as (_ & _ & _ & Hwt).
  unfold at_least. rewrite satisfies_spec by done. unfold is_any. cbn [op cversion].
  rewrite orb_true_iff. intros [H|H].
  - apply andb_prop in H as [[_ H]%andb_prop _]. unfold Ver.is_zero in H. triple_lia.
  - destruct (cmp_precP (prec w wb) (prec v vb)); [done|triple_lia|].
    unfold same_triple in *. triple_lia.
Qed.

(** Clearing the (empty) prerelease of a release changes nothing. *)
Lemma satisfies_no_pre o M m p t w cb wb :
  tag_ok t → tag_ok (tag w) → TagOps.has_pre t = false →
  Cmp.satisfies (mkComparator o (mkVersion M m p (TagOps.set_pre t Ext.default))) w cb wb
  = Cmp.satisfies (mkComparator o (mkVersion M m p t)) w cb wb.
Proof.
  intros [Hp Hb] Hw Hn. rewrite !satisfies_spec; cbn; try done.
  - unfold is_any. cbn. rewrite Hn. f_equal. do 2 f_equal. unfold prec, view, label. cbn. by rewrite Hn.
  - split; [|done]. apply (tag_wf_ok [] Tag_default), default_wf.
Qed.

Lemma caret_iff v w r vb wb :
  version_ok v → version_ok w → caret v = Some r →
  Rng.satisfies r w vb wb = true ↔ at_least v w vb wb = true ∧ keeps_leftmost v w.
Proof.
  intros Hv Hw. unfold caret, Tok.to_range, Tok.caret_range. cbn [ttag version valid p_major p_minor
    p_patch p_tag]. intros [= <-]. unfold keeps_leftmost.
  pose proof (at_least_triple v w vb wb Hv Hw) as Hge. pose proof Hv as (HM & Hm & Hp & Ht).
  pose proof Hw as (_ & _ & _ & Hwt). unfold triple_lt in Hge. cbn [prec view s_major s_minor s_patch] in Hge.
  destruct v as [M m p t]. cbn [major minor patch tag] in *. unfold at_least in *.
  set (u := mkVersion M m p t) in *.
  destruct (Z.eqb_spec M 0) as [HM0|HM0].
  - rewrite range_both_iff by (destruct (m =? 0); auto with bun).
    assert (Cmp.satisfies (mkComparator OpGte (mkVersion M m p
        (if negb (TagOps.has_pre t) then TagOps.set_pre t Ext.default else t))) w vb wb
      = Cmp.satisfies (mkComparator OpGte u) w vb wb) as ->.
    { destruct (TagOps.has_pre t) eqn:E; cbn [negb]; [done|]. by apply satisfies_no_pre. }
    destruct (Z.eqb_spec m 0) as [Hm0|Hm0]; rewrite ?lt_next_patch_iff, ?lt_next_minor_iff by done;
      unfold version_ok, is_u64 in *; split; intros [H1 H2]; specialize (Hge H1); split; auto; lia.
  - rewrite range_both_iff by auto with bun. rewrite lt_next_major_iff by done.
    split; intros [H1 H2]; specialize (Hge H1); split; auto; lia.
Qed.

(** [~M.m.p]: the same major and minor. *)
Lemma tilde_iff v w wb vb M m p t floor written :
  v = mkVersion M m p t → version_ok v → version_ok w →
  Rng.satisfies (Tok.tilde_range (mkPartial (Some M) (Some m) (Some p) t) written floor) w vb wb = true ↔
  at_least v w vb wb = true ∧ major w = M ∧ minor w = m.
Proof.
  intros Hv Hvo Hw. unfold Tok.tilde_range. cbn [p_major p_minor p_patch p_tag]. rewrite <- Hv.
  rewrite range_both_iff by auto with bun. fold (at_least v w vb wb).
  pose proof (at_least_triple v w vb wb Hvo Hw) as Hge. unfold triple_lt in Hge. subst v. cbn in Hge.
  pose proof Hvo as (_ & Hm & _). rewrite lt_next_minor_iff by done.
  split; [intros [H1 H2]|intros (H1 & H2 & H3)]; specialize (Hge H1); split_and!; auto; lia.
Qed.

(** The operators on a partial [M] (minor and patch missing). *)
Lemma operator_major_iff o M w wb vb t floor written :
  version_ok w → is_u64 M → is_floor floor →
  Rng.satisfies (Tok.operator_range o WMinor (mkPartial (Some M) None None t) written floor) w vb wb
    = true ↔
  match o with
  | OpGt => M < major w ∧ below_floor floor w (M + 1) 0 0 = false
  | OpGte => M <= major w ∧ below_floor floor w M 0 0 = false
  | OpLt => major w < M
  | _ => major w <= M
  end.
Proof.
  intros Hw HM Hf. pose proof Hw as (_ & _ & _ & Ht). unfold Tok.operator_range.
  destruct o; cbn [p_major p_minor from_option id];
    rewrite range_left_iff by (try done; auto with bun;
      unfold Cmp.gte_next_major; by destruct (checked_succ64 M)).
  1,2,4: by apply lt_next_major_iff.
  - rewrite lt_zero_pre by done. unfold triple_lt, version_ok, is_u64 in *. cbn. lia.
  - by apply gte_next_major_iff.
  - rewrite gte_floor_iff by done. apply and_iff_compat_r.
    unfold triple_lt, version_ok, is_u64 in *. cbn. lia.
Qed.

(** ** The properties *)

(** [>=v]: not below [v] in precedence, or [v] is [0.0.0]. *)
Lemma at_least_iff v w vb wb :
  at_least v w vb wb = true ↔
  Ver.order_without_build w v wb vb ≠ Lt ∨ Ver.is_zero v = true ∧ TagOps.has_pre (tag v) = false.
Proof.
  unfold at_least, Cmp.satisfies. cbn [op cversion].
  destruct (Ver.order_without_build w v wb vb), (Ver.is_zero v), (TagOps.has_pre (tag v)); cbn;
    naive_solver.
Qed.

(** The reading of a range: a version satisfies a group iff one of the
    alternatives between [||] has all of its comparators satisfied and, when
    the version is a prerelease, a comparator with a prerelease of the same
    [major.minor.patch]. *)
Theorem satisfies_is_or_of_ands (g : Group) (v : Version) (gb vb : bytes) :
  Grp.satisfies g v gb vb = true ↔
  ∃ q, q ∈ alternatives g ∧
    (∀ r, r ∈ Qry.ranges q → Rng.satisfies r v gb vb = true) ∧
    (TagOps.has_pre (tag v) = true → ∃ r, r ∈ Qry.ranges q ∧ mentions v r = true).
Proof.
  rewrite group_satisfies, existsb_exists. apply exist_proper. intros q.
  rewrite <- list_elem_of_In. apply and_iff_compat_l. unfold alternative_holds.
  rewrite andb_true_iff, orb_true_iff, forallb_forall, existsb_exists, negb_true_iff.
  setoid_rewrite list_elem_of_In. apply and_iff_compat_l.
  destruct (TagOps.has_pre (tag v)); naive_solver.
Qed.

(** [and_range] and [or_range] through the tail pointers: on a group whose
    tails point at its last nodes they do not panic and keep that invariant;
    [and_range] extends the last alternative only, [or_range] adds one
    alternative after the others (or fills a group that is still empty). *)
Theorem ranges_append_through_tails (g : Group) (r : Range) :
  group_ok g →
  (∃ g' qs q, Grp.and_range g r = Some g' ∧ group_ok g' ∧ flags g' = flags g ∧
     alternatives g = qs ++ [q] ∧ alternatives g' = qs ++ [and_query q r]) ∧
  (∃ g', Grp.or_range g r = Some g' ∧ group_ok g' ∧ flags g' = flags g ∧
     alternatives g' = (if is_fresh g then [] else alternatives g) ++ [mkQuery r []]).
Proof. intros Hg. split; [by apply group_and_range|by apply group_or_range]. Qed.

(** A group of two alternatives, the second of two ranges. *)
Definition sample_range (M : Z) : Range :=
  mkRange (mkComparator OpGte (mkVersion M 0 0 Tag_default)) (Cmp.lt_next_major M).
Definition sample_group : Group :=
  mkGroup (mkQList (mkLNode (mkQuery (sample_range 1) []) None)
             [mkLNode (mkQuery (sample_range 2) [sample_range 2]) (Some 1%nat)])
    (Some 1%nat) [] Flags_empty.

Lemma sample_group_ok : group_ok sample_group.
Proof. split; [|done]. by repeat constructor. Qed.

Lemma ranges_append_through_tails_witness :
  (∃ g' qs q, Grp.and_range sample_group (sample_range 3) = Some g' ∧ group_ok g' ∧
     flags g' = flags sample_group ∧ alternatives sample_group = qs ++ [q] ∧
     alternatives g' = qs ++ [and_query q (sample_range 3)]) ∧
  (∃ g', Grp.or_range sample_group (sample_range 3) = Some g' ∧ group_ok g' ∧
     flags g' = flags sample_group ∧
     alternatives g' = alternatives sample_group ++ [mkQuery (sample_range 3) []]).
Proof. apply (ranges_append_through_tails sample_group (sample_range 3)). apply sample_group_ok. Defined.

(** [^v] for a complete version: the range it desugars to admits exactly
    the versions that are not below [v] (for [0.0.0], any) and agree with [v]
    up to its left-most non-zero number. *)
Theorem caret_meaning (v w : Version) (r : Range) (vb wb : bytes) :
  version_ok v → version_ok w → caret v = Some r →
  Rng.satisfies r w vb wb = true ↔
  (Ver.order_without_build w v wb vb ≠ Lt ∨ Ver.is_zero v = true ∧ TagOps.has_pre (tag v) = false) ∧
  keeps_leftmost v w.
Proof. intros Hv Hw Hr. by rewrite (caret_iff v w r vb wb Hv Hw Hr), at_least_iff. Qed.

Lemma caret_meaning_witness :
  let v := mkVersion 0 2 3 (inline_tag (bs "beta.2") []) in
  let w := mkVersion 0 2 9 Tag_default in
  Rng.satisfies (default Range_default (caret v)) w [] [] = true ∧
  (Rng.satisfies (default Range_default (caret v)) w [] [] = true ↔
   (Ver.order_without_build w v [] [] ≠ Lt ∨ Ver.is_zero v = true ∧ TagOps.has_pre (tag v) = false) ∧
   keeps_leftmost v w).
Proof.
  intros v w. split; [vm_compute; reflexivity|].
  apply (caret_meaning v w (default Range_default (caret v)) [] []);
    [apply version_ok_check; vm_compute; reflexivity..|vm_compute; reflexivity].
Defined.

(** [~M.m.p] admits exactly the versions of [M.m] that are not below it. *)
Theorem tilde_meaning (v w : Version) (vb wb : bytes) (written : bool) (floor : Tag) :
  version_ok v → version_ok w →
  Rng.satisfies
    (Tok.tilde_range (mkPartial (Some (major v)) (Some (minor v)) (Some (patch v)) (tag v)) written floor)
    w vb wb = true ↔
  (Ver.order_without_build w v wb vb ≠ Lt ∨ Ver.is_zero v = true ∧ TagOps.has_pre (tag v) = false) ∧
  major w = major v ∧ minor w = minor v.
Proof.
  intros Hv Hw. rewrite <- at_least_iff. apply tilde_iff; try done. by destruct v.
Qed.

Lemma tilde_meaning_witness :
  let v := mkVersion 1 2 3 (inline_tag (bs "beta.2") []) in
  let w := mkVersion 1 3 0 Tag_default in
  Rng.satisfies (Tok.tilde_range (mkPartial (Some 1) (Some 2) (Some 3) (tag v)) true Tag_default)
    w [] [] = true ↔
  (Ver.order_without_build w v [] [] ≠ Lt ∨ Ver.is_zero v = true ∧ TagOps.has_pre (tag v) = false) ∧
  1 = 1 ∧ 3 = 2.
Proof.
  intros v w. apply (tilde_meaning v w [] [] true Tag_default);
    apply version_ok_check; vm_compute; reflexivity.
Defined.

(** The operators on a bare major: [>M] admits the majors above [M], [>=M]
    those from [M], [<M] those below and [<=M] those up to [M], over every
    [u64], except, for the two lower bounds and unless prereleases are
    included, the prereleases of the lowest version. *)
Theorem partial_operator_meaning (o : Op) (M : Z) (w : Version) (wb vb : bytes) (t : Tag) (written : bool) (floor : Tag) :
  version_ok w → is_u64 M → is_floor floor →
  Rng.satisfies (Tok.operator_range o WMinor (mkPartial (Some M) None None t) written floor) w vb wb
    = true ↔
  match o with
  | OpGt => M < major w ∧ below_floor floor w (M + 1) 0 0 = false
  | OpGte => M <= major w ∧ below_floor floor w M 0 0 = false
  | OpLt => major w < M
  | _ => major w <= M
  end.
Proof. apply operator_major_iff. Qed.

Lemma partial_operator_meaning_witness :
  Rng.satisfies
    (Tok.operator_range OpGt WMinor (mkPartial (Some U64_MAX) None None Tag_default) false Tag_default)
    (mkVersion U64_MAX 1 0 Tag_default) [] [] = true ↔
  U64_MAX < U64_MAX ∧ below_floor Tag_default (mkVersion U64_MAX 1 0 Tag_default) (U64_MAX + 1) 0 0 = false.
Proof.
  apply (partial_operator_meaning OpGt U64_MAX (mkVersion U64_MAX 1 0 Tag_default) [] []
    Tag_default false Tag_default); [|split; vm_compute; congruence|by left].
  apply version_ok_check. vm_compute. reflexivity.
Defined.

(** When [get_exact_version] answers, the group stands for that version
    alone: a version satisfies it iff it has the same precedence. *)
Theorem exact_group_meaning (g : Group) (e v : Version) (gb vb : bytes) :
  Grp.get_exact_version g = Some e →
  Grp.satisfies g v gb vb = true ↔ Ver.order_without_build v e vb gb = Eq.
Proof.
  unfold Grp.get_exact_version. rewrite group_satisfies. unfold alternatives, nodes.
  destruct (lnext (ghead g)); [|done]. cbn [map existsb]. rewrite orb_false_r. intros He.
  rewrite (exact_query _ e v gb vb He).
  by destruct (Ver.order_without_build v e vb gb).
Qed.

Lemma exact_group_meaning_witness :
  let e := mkVersion 1 2 3 (inline_tag (bs "rc.1") []) in
  let v := mkVersion 1 2 3 (inline_tag (bs "rc.1") (bs "b")) in
  Grp.satisfies (Grp.from e) v [] [] = true ↔ Ver.order_without_build v e [] [] = Eq.
Proof. intros e v. apply (exact_group_meaning (Grp.from e) e v [] []). reflexivity. Defined.

(** [Group::clone] copies a group exactly: node by node, tails included,
    provided the tails point at the last nodes (which [clone] recomputes). *)
Theorem clone_is_identity (g : Group) : group_ok g → Grp.clone g = g.
Proof. apply group_clone. Qed.

Lemma clone_is_identity_witness : Grp.clone sample_group = sample_group.
Proof. apply (clone_is_identity sample_group). apply sample_group_ok. Defined.
