(* ===== verification/SemverParse.v ===== *)
(** * [parse_with] of [src/semver/SemverQuery.rs]: the range parser

    [sliced] stands for [sliced.sub(input)]: its slice is the text to parse, a
    part of the buffer that the versions of the result read their tags from.
    [None] is a panic of the code: a slice out of range, the [unreachable!()]
    of [to_range], a dangling tail. [parse_with_total] of
    [SemverParseFacts] shows that it never happens
    and that the fuel, the input's length plus one, is never exhausted. *)

From S2P Require Import Prelude BunStrings Wyhash SemverString SemverVersion SemverOrder.
From S2P Require Import SemverVersionFacts SemverRange SemverQuery SemverQueryFacts.
#[local] Open Scope Z_scope.

Module QParse.
(** The variables of the loop. *)
Record St := mkSt {
  si : nat;
  slist : Group;
  stoken : Token;
  is_or : bool;
  after_comparator : bool;
}.

Definition set_flags (g : Group) (f : Flags) : Group := mkGroup (ghead g) (gtail g) (ginput g) f.
Definition set_skipped (g : Group) : Group :=
  set_flags g (mkFlags (f_build (flags g)) (f_pre (flags g)) true).
(** The flags that a parsed version sets. *)
Definition flag_version (g : Group) (r : ParseResult) : Group :=
  let g := if valid r then g else set_skipped g in
  let t := tag (Ver.min (version r)) in
  set_flags g (mkFlags (TagOps.has_build t || f_build (flags g))
                       (TagOps.has_pre t || f_pre (flags g)) (f_skipped (flags g))).

(** [while i < input.len() && p(input[i]) { i += 1 }], a round per byte at most. *)
Definition skip_past (p : Z → bool) (input : bytes) (i : nat) : option nat :=
  skip_while (S (length input)) p input i.
Definition skip_spaces : bytes → nat → option nat := skip_past (Z.eqb (ch " ")).

Definition starts_version (c : Z) : bool := is_ascii_digit c || Ver.is_x c.

(** What [match input[i]] leaves behind: the cursor, the token's tag,
    [no_operator], [is_or], [after_comparator], [skip_round], and whether
    [Flags::SKIPPED] is set. *)
Record Lexed := mkLexed {
  lx_i : nat; lx_tag : TokenTag; no_operator : bool; lx_or : bool; lx_after : bool;
  skip_round : bool; lx_skipped : bool }.

Definition lex (input : bytes) (st : St) : option Lexed :=
  let i := si st in
  c ← input !! i;
  let tag := ttag (stoken st) in
  let go i tag no_op := Some (mkLexed i tag no_op (is_or st) (after_comparator st) false false) in
  if (c =? ch ">") || (c =? ch "<") then
    i ← skip_spaces input (i + 1);
    or_equal ← Ver.at_char input i (ch "=");
    let i := (i + Nat.b2n or_equal)%nat in
    let tag := if c =? ch ">" then (if (or_equal : bool) then TGte else TGt)
               else (if (or_equal : bool) then TLte else TLt) in
    i ← skip_spaces input i;
    go i tag false
  else if (c =? ch "=") || (c =? ch "v") then i ← skip_spaces input (i + 1); go i TVersion true
  else if c =? ch "~" then
    let i := (i + 1)%nat in
    gt ← Ver.at_char input i (ch ">");
    let i := if (gt : bool) then (i + 1)%nat else i in
    i ← skip_spaces input i;
    go i TTilda false
  else if c =? ch "^" then i ← skip_spaces input (i + 1); go i TCaret false
  else if starts_version c then go i TVersion true
  else if c =? ch "|" then
    i ← skip_past (Z.eqb (ch "|")) input (i + 1);
    i ← skip_spaces input i;
    Some (mkLexed i TNone false true (after_comparator st) true false)
  else if c =? ch "-" then i ← skip_spaces input (i + 1); go i tag false
  else if c =? ch " " then
    i ← skip_spaces input (i + 1);
    Some (mkLexed i tag false (is_or st) (after_comparator st) true false)
  else
    i ← skip_past (λ c, negb (c =? ch " ") && negb (c =? ch "|")) input (i + 1);
    Some (mkLexed i TNone false (is_or st) false true true).

(** [i += length_of_leading_whitespace_ascii(&input[i..])]. *)
Definition skip_leading (input : bytes) (i : nat) : option nat :=
  rest ← slice_from input i; Some (i + length_of_leading_whitespace_ascii rest)%nat.

(** [maybe_hyphenate && 'possibly_hyphenate: { .. }]: where the second version
    starts, if there is one; the outer [None] is a panic. *)
Definition hyphenate (input : bytes) (i : nat) : option (option nat) :=
  let len := length input in
  maybe ← (if (i <? len)%nat then c ← input !! i; Some ((c =? ch " ") || (c =? ch "-")) else Some false);
  if negb maybe then Some None
  else
    i ← skip_leading input i;
    dash ← Ver.at_char input i (ch "-");
    if negb dash then Some None
    else
      i ← skip_leading input (i + 1);
      if (i =? len)%nat then Some None
      else
        c ← input !! i;
        let i := if (c =? ch "v") || (c =? ch "=") then (i + 1)%nat else i in
        if (i =? len)%nat then Some None
        else
          i ← skip_leading input i;
          if (i =? len)%nat then Some None
          else c ← input !! i; Some (if starts_version c then Some i else None).

Definition hyphen_right (floor : Tag) (wildcard : Wildcard) (second_version : Version) : Comparator :=
  match wildcard with
  | WMajor => Comparator_default
  | WMinor => Cmp.lt_next_major (major second_version)
  | WPatch => Cmp.lt_next_minor (major second_version) (minor second_version)
  | WNone =>
      if TagOps.has_pre floor && negb (TagOps.has_pre (tag second_version))
      then Cmp.lt_next_patch (major second_version) (minor second_version) (patch second_version)
      else mkComparator OpLte second_version
  end.

Definition hyphen_range (floor : Tag) (version : Version) (second_parsed : ParseResult) : Range :=
  let second_version := Ver.min (SemverVersion.version second_parsed) in
  let first_version :=
    if negb (TagOps.has_pre (tag version))
    then mkVersion (major version) (minor version) (patch version)
                   (TagOps.set_pre (tag version) (pre floor))
    else version in
  mkRange (mkComparator OpGte first_version)
          (hyphen_right floor (wildcard second_parsed) second_version).

(** [Version::parse(sliced.sub(&input[i..]))]; a start beyond the end panics. *)
Definition parse_at (sliced : SlicedString) (i : nat) : option ParseResult :=
  rest ← Sliced.sub_range sliced i (length (ss_slice sliced)); Ver.parse rest.

(** Store the range and reset what the next round starts from. *)
Definition commit (input : bytes) (list : Group) (range : Range) (or : bool) (tag : TokenTag)
    (i rollback : nat) (valid : bool) : option St :=
  list ← (if or then Grp.or_range list range else Grp.and_range list range);
  Some (mkSt i list (mkToken tag WNone) false (valid && bool_decide (input !! rollback = Some (ch " ")))).

(** One round of the loop: [inl] is the early return. *)
Definition step (sliced : SlicedString) (floor : Tag) (st : St) : option (Group + St) :=
  let input := ss_slice sliced in
  lx ← lex input st;
  let list := if lx_skipped lx then set_skipped (slist st) else slist st in
  if skip_round lx then
    Some (inr (mkSt (lx_i lx) list (mkToken (lx_tag lx) (twildcard (stoken st))) (lx_or lx) (lx_after lx)))
  else
    parse_result ← parse_at sliced (lx_i lx);
    if overflow parse_result then Some (inl (Grp.null_set input))
    else
      let list := flag_version list parse_result in
      let version := Ver.min (version parse_result) in
      let rollback := (lx_i lx + plen parse_result)%nat in
      second ← hyphenate input rollback;
      match second with
      | Some i =>
          let or := no_operator lx || lx_or lx in
          second_parsed ← parse_at sliced i;
          if overflow second_parsed then Some (inl (Grp.null_set input))
          else
            let list := flag_version list second_parsed in
            st ← commit input list (hyphen_range floor version second_parsed) or (lx_tag lx)
                   (i + plen second_parsed + 1) rollback false;
            Some (inr st)
      | None =>
          let i := (rollback + 1)%nat in
          let or := (no_operator lx && negb (lx_after lx && valid parse_result)) || lx_or lx in
          if bool_decide (lx_tag lx = TNone) then
            Some (inr (mkSt i (set_skipped list) (mkToken TNone WNone) or (lx_after lx)))
          else
            range ← Tok.to_range (mkToken (lx_tag lx) (wildcard parse_result)) parse_result floor;
            st ← commit input list range or (lx_tag lx) i rollback (valid parse_result);
            Some (inr st)
      end.

Fixpoint parse_loop (fuel : nat) (sliced : SlicedString) (floor : Tag) (st : St) : option Group :=
  match fuel with
  | O => None
  | S fuel =>
      if (si st <? length (ss_slice sliced))%nat then
        r ← step sliced floor st;
        match r with
        | inl group => Some group
        | inr st => parse_loop fuel sliced floor st
        end
      else Some (slist st)
  end.

Definition parse_with (sliced : SlicedString) (floor : Tag) : option Group :=
  let input := ss_slice sliced in
  parse_loop (S (length input)) sliced floor
    (mkSt 0 (mkGroup QList_default None input Flags_empty) Token_default false false).

Definition parse (sliced : SlicedString) : option Group := parse_with sliced Tag_default.
Definition parse_including_prerelease (sliced : SlicedString) : option Group :=
  parse_with sliced TagOps.ZERO_PRE.

Definition parse_text (text : bytes) : option Group := parse (Sliced.init text).
End QParse.

(** The [has_skipped] test of the source. *)
Definition skipped_cases : list (bytes * bool) :=
  [(bs "", false); (bs "*", false); (bs ">=16", false); (bs ">= 16.x", false);
   (bs "^18 || >=20", false); (bs "16 - 18", false); (bs "v16", false); (bs ">=v16.0.0", false);
   (bs "~>16", false); (bs "1.2.3-rc.1+build", false); (bs "16+build", false);
   (bs "foo-bar", true); (bs "latest", true); (bs "lts/*", true); (bs ">=14 && <17", true);
   (bs ">=16, <18", true); (bs ">=16 npm", true); (bs "16.0.0.0", true); (bs "16-18", true);
   (bs ">=", true); (bs ">=1.2.3<2.0.0", true); (bs "-18", true); (bs "-x", true);
   (bs "16 || -18", true); (bs "16 || - 18.0.0", true); (bs "01.2.3", false);
   (bs "1.0.0rc1", false); (bs "^16 | ^18", false)].

Example has_skipped_cases :
  map (λ '(text, _), Grp.has_skipped <$> QParse.parse_text text) skipped_cases
  = map (λ '(_, expected), Some expected) skipped_cases.
Proof. vm_compute. reflexivity. Qed.
