(* ===== verification/SemverParseFacts.v ===== *)
(** * What the range parser guarantees

    Every text parses without a panic, in at most one round per byte, to a
    group whose tails are right and whose comparators are well formed over the
    parsed buffer. *)

From S2P Require Import Prelude BunStrings Wyhash SemverString SemverVersion SemverOrder.
From S2P Require Import SemverVersionFacts SemverRange SemverQuery SemverQueryFacts.
From S2P Require Import SemverParse.
#[local] Open Scope Z_scope.

(** ** Well-formed comparators *)

Definition version_wf (buf : bytes) (v : Version) : Prop :=
  is_u64 (major v) ∧ is_u64 (minor v) ∧ is_u64 (patch v) ∧ tag_wf buf (tag v).
Definition comparator_wf (buf : bytes) (c : Comparator) : Prop := version_wf buf (cversion c).
(** A range without a left comparator has no right one either. *)
Definition range_wf (buf : bytes) (r : Range) : Prop :=
  comparator_wf buf (left r) ∧ comparator_wf buf (right r) ∧
  (op (left r) = OpUnset → op (right r) = OpUnset).
Definition query_wf (buf : bytes) (q : Query) : Prop := Forall (range_wf buf) (Qry.ranges q).
Definition group_wf (buf : bytes) (g : Group) : Prop := Forall (query_wf buf) (alternatives g).

Lemma version_wf_ok buf v : version_wf buf v → version_ok v.
Proof. intros (? & ? & ? & ?). split_and!; eauto using tag_wf_ok. Qed.

Lemma zero_pre_wf buf : tag_wf buf TagOps.ZERO_PRE.
Proof.
  split; [exists [ch "0"]|exists []]; (split; [|done]); [|apply default_encodes].
  split; [constructor; [unfold is_u8; lia|done]|]. cbn. split; [|done]. by constructor.
Qed.

Lemma floor_wf buf t : is_floor t → tag_wf buf t.
Proof. intros [-> | ->]; [apply default_wf|apply zero_pre_wf]. Qed.

Lemma u64_0 : is_u64 0. Proof. done. Qed.
Lemma u64_max : is_u64 U64_MAX. Proof. done. Qed.

#[export] Hint Resolve zero_pre_wf default_wf floor_wf u64_0 u64_max : bun.

Lemma mkVersion_wf buf M m p t :
  is_u64 M → is_u64 m → is_u64 p → tag_wf buf t → version_wf buf (mkVersion M m p t).
Proof. unfold version_wf. auto. Qed.

Lemma mkComparator_wf buf o v : version_wf buf v → comparator_wf buf (mkComparator o v).
Proof. done. Qed.

Lemma mkRange_wf buf l r :
  comparator_wf buf l → comparator_wf buf r → op l ≠ OpUnset → range_wf buf (mkRange l r).
Proof. intros. unfold range_wf. by split_and!. Qed.

Lemma default_comparator_wf buf : comparator_wf buf Comparator_default.
Proof. apply mkVersion_wf; auto with bun. Qed.

Lemma left_range_wf buf l : comparator_wf buf l → range_wf buf (mkRange l Comparator_default).
Proof. intros. unfold range_wf. split_and!; try done. apply default_comparator_wf. Qed.

Lemma min_wf buf p : partial_wf buf p → version_wf buf (Ver.min p).
Proof.
  intros (HM & Hm & Hp & Ht). unfold Ver.min.
  apply mkVersion_wf; [destruct (p_major p)|destruct (p_minor p)|destruct (p_patch p)|];
    cbn in *; auto with bun.
Qed.

#[export] Hint Resolve mkVersion_wf mkComparator_wf mkRange_wf left_range_wf default_comparator_wf
  min_wf : bun.
#[export] Hint Extern 1 (op (mkComparator _ _) ≠ OpUnset) => discriminate : bun.

Ltac succ_wf z :=
  intros;
  let H := fresh in
  destruct (checked_succ64_cases z) as [[H ?]|[H ->]]; [done|..]; rewrite H; auto 6 with bun.

Lemma null_set_wf buf : comparator_wf buf Cmp.null_set.
Proof. apply mkComparator_wf. auto with bun. Qed.

Lemma lt_next_major_wf buf M : is_u64 M → comparator_wf buf (Cmp.lt_next_major M).
Proof. unfold Cmp.lt_next_major. succ_wf M. Qed.
Lemma lt_next_minor_wf buf M m : is_u64 M → is_u64 m → comparator_wf buf (Cmp.lt_next_minor M m).
Proof. unfold Cmp.lt_next_minor. succ_wf m. Qed.
Lemma lt_next_patch_wf buf M m p :
  is_u64 M → is_u64 m → is_u64 p → comparator_wf buf (Cmp.lt_next_patch M m p).
Proof. unfold Cmp.lt_next_patch. succ_wf p. Qed.
Lemma gte_next_major_wf buf M t : is_u64 M → tag_wf buf t → comparator_wf buf (Cmp.gte_next_major M t).
Proof. unfold Cmp.gte_next_major. succ_wf M. apply null_set_wf. Qed.
Lemma gte_next_minor_wf buf M m t :
  is_u64 M → is_u64 m → tag_wf buf t → comparator_wf buf (Cmp.gte_next_minor M m t).
Proof. unfold Cmp.gte_next_minor. succ_wf m. by apply gte_next_major_wf. Qed.

#[export] Hint Resolve null_set_wf lt_next_major_wf lt_next_minor_wf lt_next_patch_wf
  gte_next_major_wf gte_next_minor_wf : bun.

Lemma init_wildcard_wf buf v w floor :
  version_wf buf v → tag_wf buf floor → range_wf buf (Rng.init_wildcard v w floor).
Proof.
  intros Hv Hf. pose proof Hv as (HM & Hm & Hp & Ht). destruct w; cbn; auto 8 with bun.
Qed.

Lemma set_pre_floor_wf buf t floor :
  tag_wf buf t → tag_wf buf floor → tag_wf buf (TagOps.set_pre t (pre floor)).
Proof. intros [_ Hb] [Hp _]. by split. Qed.

Lemma default_range_wf buf : range_wf buf Range_default.
Proof. apply left_range_wf, default_comparator_wf. Qed.

#[export] Hint Resolve init_wildcard_wf set_pre_floor_wf default_range_wf : bun.

Lemma to_range_wf buf t r floor range :
  partial_wf buf (version r) → tag_wf buf floor →
  Tok.to_range t r floor = Some range → range_wf buf range.
Proof.
  intros Hr Hf. pose proof Hr as (HM & Hm & Hp & Ht). unfold Tok.to_range.
  assert (Hmin := min_wf _ _ Hr).
  destruct (version r) as [M m p tg]. cbn in HM, Hm, Hp, Ht.
  assert (HM0 : is_u64 (default 0 M)) by (destruct M; cbn in *; auto with bun).
  assert (Hm0 : is_u64 (default 0 m)) by (destruct m; cbn in *; auto with bun).
  destruct (ttag t); intros [= <-].
  5: { unfold Tok.version_range. destruct (negb _); auto with bun. }
  5: { unfold Tok.tilde_range. cbn.
       destruct M as [M|], m as [m|], p as [p|], (valid r); cbn in *; auto 8 with bun. }
  5: { unfold Tok.caret_range. cbn.
       destruct M as [M|], m as [m|], p as [p|], (valid r); cbn in *; auto 8 with bun;
         destruct (M =? 0); try destruct (m =? 0); destruct (TagOps.has_pre tg);
         cbn; auto 8 with bun. }
  all: unfold Tok.operator_range; cbn; destruct (twildcard t), (valid r); auto 8 with bun.
Qed.

(** ** Storing ranges *)

Lemma and_query_wf buf q r : query_wf buf q → range_wf buf r → query_wf buf (and_query q r).
Proof.
  destruct q as [q next]. unfold query_wf, Qry.ranges, and_query. cbn.
  rewrite !Forall_cons. intros [Hq Hn] Hr.
  destruct (_ && _); cbn; [done|]. split; [done|].
  apply Forall_app. split; [done|]. by constructor.
Qed.

Lemma and_range_wf buf g r :
  group_ok g → group_wf buf g → range_wf buf r →
  ∃ g', Grp.and_range g r = Some g' ∧ group_ok g' ∧ group_wf buf g'.
Proof.
  intros Hg Hw Hr. destruct (group_and_range g r Hg) as (g' & ns & q & Heq & Hok & _ & H1 & H2).
  exists g'. split_and!; try done. unfold group_wf in *. rewrite H1, Forall_app in Hw. rewrite H2.
  destruct Hw as [Hns Hq]. apply Forall_app. split; [done|]. rewrite Forall_singleton in *.
  by apply and_query_wf.
Qed.

Lemma or_range_wf buf g r :
  group_ok g → group_wf buf g → range_wf buf r →
  ∃ g', Grp.or_range g r = Some g' ∧ group_ok g' ∧ group_wf buf g'.
Proof.
  intros Hg Hw Hr. destruct (group_or_range g r Hg) as (g' & Heq & Hok & _ & H).
  exists g'. split_and!; try done. unfold group_wf in *. rewrite H. apply Forall_app.
  split; [by destruct (is_fresh g)|]. rewrite Forall_singleton. by constructor.
Qed.

Lemma commit_ok buf input g r or tg i rb v :
  group_ok g → group_wf buf g → range_wf buf r →
  ∃ st, QParse.commit input g r or tg i rb v = Some st ∧ QParse.si st = i ∧
        group_ok (QParse.slist st) ∧ group_wf buf (QParse.slist st).
Proof.
  intros Hg Hw Hr. unfold QParse.commit.
  destruct or; [destruct (or_range_wf buf g r Hg Hw Hr) as (g' & -> & ? & ?)
               |destruct (and_range_wf buf g r Hg Hw Hr) as (g' & -> & ? & ?)]; cbn; eauto.
Qed.

(** Flags play no part in well-formedness. *)
Lemma set_flags_ok g f : group_ok g → group_ok (QParse.set_flags g f).
Proof. done. Qed.

Lemma flag_version_ok buf g r :
  group_ok g ∧ group_wf buf g →
  group_ok (QParse.flag_version g r) ∧ group_wf buf (QParse.flag_version g r).
Proof. unfold QParse.flag_version. by destruct (valid r). Qed.

(** ** The cursor *)

Lemma skip_past_some p input i :
  (i <= length input)%nat → ∃ j, QParse.skip_past p input i = Some j ∧ (i <= j <= length input)%nat.
Proof.
  intros H. unfold QParse.skip_past. rewrite skip_while_eq by lia. eexists. split; [done|].
  pose proof (count_while_le p (drop i input)) as Hc. rewrite length_drop in Hc. lia.
Qed.

Lemma skip_leading_some input i :
  (i <= length input)%nat → ∃ j, QParse.skip_leading input i = Some j ∧ (i <= j <= length input)%nat.
Proof.
  intros H. unfold QParse.skip_leading. rewrite slice_from_some by done. eexists. split; [done|].
  unfold length_of_leading_whitespace_ascii. pose proof (count_while_le (contains WHITESPACE_CHARS) (drop i input)) as Hc.
  rewrite length_drop in Hc. lia.
Qed.

(** One move of the cursor: it is in range, and so is where it stops. *)
Ltac advance_cursor :=
  match goal with
  | |- context [QParse.skip_past ?p ?input ?i] =>
      let j := fresh "j" in let H := fresh "Hj" in let E := fresh in
      destruct (skip_past_some p input i) as (j & E & H); [lia|]; rewrite E; clear E; cbn [mbind option_bind]
  | |- context [QParse.skip_leading ?input ?i] =>
      let j := fresh "j" in let H := fresh "Hj" in let E := fresh in
      destruct (skip_leading_some input i) as (j & E & H); [lia|]; rewrite E; clear E; cbn [mbind option_bind]
  | |- context [Ver.at_char ?input ?i ?c] =>
      let b := fresh "b" in let H := fresh "Hb" in let E := fresh in
      destruct (at_char_some input i c) as (b & E & H); rewrite E; clear E; cbn [mbind option_bind]
  end.

Lemma lex_bounds input st :
  (QParse.si st < length input)%nat →
  ∃ lx, QParse.lex input st = Some lx ∧
    (QParse.si st <= QParse.lx_i lx <= length input)%nat ∧
    (QParse.skip_round lx = true → (QParse.si st < QParse.lx_i lx)%nat).
Proof.
  intros Hi. unfold QParse.lex, QParse.skip_spaces. set (i := QParse.si st) in *.
  destruct (lookup_lt_is_Some_2 input i Hi) as [c ->]. cbn [mbind option_bind].
  destruct (_ || _).
  { advance_cursor. advance_cursor. assert (Hn : (i < j + Nat.b2n b <= length input)%nat) by (destruct b; cbn; [specialize (Hb eq_refl)|]; lia).
    advance_cursor. eexists. split; [done|]. cbn. split; [lia|done]. }
  destruct (_ || _); [advance_cursor; eexists; split; [done|]; cbn; split; [lia|done]|].
  destruct (c =? ch "~").
  { advance_cursor. assert (Hn : (i < (if b then i + 1 + 1 else i + 1) <= length input)%nat) by (destruct b; [specialize (Hb eq_refl)|]; lia).
    advance_cursor. eexists. split; [done|]. cbn. split; [lia|done]. }
  destruct (c =? ch "^"); [advance_cursor; eexists; split; [done|]; cbn; split; [lia|done]|].
  destruct (QParse.starts_version c); [eexists; split; [done|]; cbn; split; [lia|done]|].
  destruct (c =? ch "|"); [do 2 advance_cursor; eexists; split; [done|]; cbn; lia|].
  destruct (c =? ch "-"); [advance_cursor; eexists; split; [done|]; cbn; split; [lia|done]|].
  destruct (c =? ch " "); advance_cursor; eexists; (split; [done|]); cbn; lia.
Qed.

(** No index is out of range, and the second version starts within the text. *)
Lemma hyphenate_bounds input i :
  (i <= length input)%nat →
  ∃ r, QParse.hyphenate input i = Some r ∧ ∀ j, r = Some j → (i < j < length input)%nat.
Proof.
  intros Hi. unfold QParse.hyphenate.
  assert (Hnone : ∃ r : option nat, Some None = Some r ∧ ∀ j, r = Some j → (i < j < length input)%nat) by (by eexists).
  destruct (Nat.ltb_spec i (length input)) as [Hlt|]; [|exact Hnone].
  destruct (lookup_lt_is_Some_2 input i Hlt) as [c0 ->]. cbn [mbind option_bind]. destruct (negb _); [exact Hnone|].
  advance_cursor. advance_cursor. destruct b; [|exact Hnone]. specialize (Hb eq_refl). cbn [negb].
  advance_cursor. destruct (Nat.eqb_spec j0 (length input)); [exact Hnone|].
  destruct (lookup_lt_is_Some_2 input j0) as [c1 ->]; [lia|]. cbn [mbind option_bind].
  set (i3 := if _ || _ then (j0 + 1)%nat else j0).
  assert (H3 : (i < i3 <= length input)%nat) by (unfold i3; destruct (_ || _); lia).
  destruct (Nat.eqb_spec i3 (length input)); [exact Hnone|].
  advance_cursor. destruct (Nat.eqb_spec j1 (length input)); [exact Hnone|].
  destruct (lookup_lt_is_Some_2 input j1) as [c2 ->]; [lia|]. cbn [mbind option_bind].
  eexists. split; [done|]. intros j2. destruct (QParse.starts_version c2); [|done]. intros [= <-]. lia.
Qed.

(** ** Rounds *)

Lemma parse_at_ok sliced i :
  sliced_ok sliced → (i <= length (ss_slice sliced))%nat →
  ∃ r, QParse.parse_at sliced i = Some r ∧ partial_wf (ss_buf sliced) (version r) ∧
       (i + plen r <= length (ss_slice sliced))%nat.
Proof.
  intros Hok Hi. unfold QParse.parse_at, Sliced.sub_range. rewrite !leb_correct by lia. cbn [andb mbind option_bind].
  assert (Hsub : sliced_ok (Sliced.sub sliced i (length (ss_slice sliced))))
    by (apply sliced_ok_sub; [done|lia]).
  destruct (parse_partial_wf _ Hsub) as (r & Hr & Hp & Hl). cbn [ss_buf ss_slice Sliced.sub] in Hp, Hl.
  rewrite length_slice in Hl by lia. exists r. split_and!; [done|done|lia].
Qed.

Lemma hyphen_range_wf buf floor v r :
  is_floor floor → version_wf buf v → partial_wf buf (version r) →
  range_wf buf (QParse.hyphen_range floor v r).
Proof.
  intros Hf Hv Hr%min_wf. pose proof Hv as (HM & Hm & Hp & Ht).
  pose proof Hr as (HM' & Hm' & Hp' & Ht'). unfold QParse.hyphen_range. apply mkRange_wf.
  - apply mkComparator_wf. destruct (negb _); auto with bun.
  - unfold QParse.hyphen_right. destruct (wildcard r); auto with bun. destruct (_ && _); auto with bun.
  - done.
Qed.

Definition group_fine (buf : bytes) (g : Group) : Prop := group_ok g ∧ group_wf buf g.

Lemma single_group_fine buf r inp fl :
  range_wf buf r →
  group_fine buf (mkGroup (mkQList (mkLNode (mkQuery r []) None) []) None inp fl).
Proof.
  intros Hr. split; [split; [|done]|]; unfold nodes, group_wf, alternatives, query_wf; cbn;
    repeat (constructor; try done).
Qed.

Lemma null_group_fine buf input : group_fine buf (Grp.null_set input).
Proof. apply single_group_fine. auto with bun. Qed.

(** A round does not panic, reads at least one byte and keeps the group fine. *)
Lemma step_fine sliced floor st :
  sliced_ok sliced → is_floor floor → group_fine (ss_buf sliced) (QParse.slist st) →
  (QParse.si st < length (ss_slice sliced))%nat →
  (∃ g, QParse.step sliced floor st = Some (inl g) ∧ group_fine (ss_buf sliced) g) ∨
  (∃ st', QParse.step sliced floor st = Some (inr st') ∧
          (QParse.si st < QParse.si st')%nat ∧ group_fine (ss_buf sliced) (QParse.slist st')).
Proof.
  intros Hok Hf Hg Hi. unfold QParse.step.
  destruct (lex_bounds _ st Hi) as (lx & -> & Hlx & Hskip). cbn [mbind option_bind].
  set (g0 := if QParse.lx_skipped lx then _ else _).
  assert (Hg0 : group_fine (ss_buf sliced) g0) by (unfold g0; by destruct (QParse.lx_skipped lx)).
  destruct (QParse.skip_round lx); [right; eexists; split; [done|]; cbn; auto|].
  destruct (parse_at_ok sliced (QParse.lx_i lx) Hok ltac:(lia)) as (r & -> & Hr & Hrl). cbn [mbind option_bind].
  destruct (overflow r); [left; eexists; split; [done|]; apply null_group_fine|].
  pose proof (flag_version_ok _ _ r Hg0) as [Hg1 Hw1]. set (g1 := QParse.flag_version g0 r) in *.
  destruct (hyphenate_bounds (ss_slice sliced) (QParse.lx_i lx + plen r)) as (second & -> & Hh); [lia|].
  cbn [mbind option_bind]. destruct second as [j|].
  - specialize (Hh j eq_refl).
    destruct (parse_at_ok sliced j Hok ltac:(lia)) as (r2 & -> & Hr2 & _). cbn [mbind option_bind].
    destruct (overflow r2); [left; eexists; split; [done|]; apply null_group_fine|]. right.
    pose proof (flag_version_ok _ _ r2 (conj Hg1 Hw1)) as [Hg2 Hw2].
    edestruct (commit_ok (ss_buf sliced)) as (st' & -> & Hi' & Hg' & Hw');
      [exact Hg2|exact Hw2|apply hyphen_range_wf; auto using min_wf|]. cbn.
    eexists. split; [done|]. split; [lia|done].
  - right. destruct (bool_decide_reflect (QParse.lx_tag lx = TNone)) as [|Ht].
    { eexists. split; [done|]. cbn. split; [lia|done]. }
    destruct (Tok.to_range _ r floor) as [rg|] eqn:Hrg; [|by destruct (QParse.lx_tag lx)].
    cbn [mbind option_bind]. apply (to_range_wf (ss_buf sliced)) in Hrg; [|done|by apply floor_wf].
    edestruct (commit_ok (ss_buf sliced)) as (st' & -> & Hi' & Hg' & Hw');
      [exact Hg1|exact Hw1|exact Hrg|]. cbn.
    eexists. split; [done|]. split; [lia|done].
Qed.

Lemma parse_loop_total fuel sliced floor st :
  sliced_ok sliced → is_floor floor → group_fine (ss_buf sliced) (QParse.slist st) →
  (length (ss_slice sliced) - QParse.si st < fuel)%nat →
  ∃ g, QParse.parse_loop fuel sliced floor st = Some g ∧ group_fine (ss_buf sliced) g.
Proof.
  intros Hok Hf. revert st. induction fuel as [|fuel IH]; intros st Hg Hfu; [lia|].
  cbn [QParse.parse_loop].
  destruct (Nat.ltb_spec (QParse.si st) (length (ss_slice sliced))) as [Hlt|]; [|by eexists].
  destruct (step_fine sliced floor st Hok Hf Hg Hlt) as [(g & -> & Hg')|(st' & -> & Hi & Hg')]; cbn.
  - by exists g.
  - apply IH; [done|lia].
Qed.

Lemma parse_with_total sliced floor :
  sliced_ok sliced → is_floor floor →
  ∃ g, QParse.parse_with sliced floor = Some g ∧ group_fine (ss_buf sliced) g.
Proof.
  intros Hok Hf. apply parse_loop_total; try done; [|cbn; lia].
  apply single_group_fine, default_range_wf.
Qed.

(** ** Parsing one comparator *)

Definition op_text (t : TokenTag) : bytes :=
  match t with
  | TNone => [] | TGt => bs ">" | TGte => bs ">=" | TLt => bs "<" | TLte => bs "<="
  | TVersion => bs "=" | TTilda => bs "~" | TCaret => bs "^"
  end.

Definition start (input : bytes) : QParse.St :=
  QParse.mkSt 0 (mkGroup QList_default None input Flags_empty) Token_default false false.

Lemma digit_cases d : is_ascii_digit d = true → In d [48; 49; 50; 51; 52; 53; 54; 55; 56; 57].
Proof. unfold is_ascii_digit. intros H. cbn. lia. Qed.

Lemma lex_op t d rest :
  t ≠ TNone → is_ascii_digit d = true →
  let input := op_text t ++ d :: rest in
  QParse.lex input (start input)
  = Some (QParse.mkLexed (length (op_text t)) t (bool_decide (t = TVersion)) false false false false).
Proof.
  intros Ht Hd%digit_cases. cbn in Hd.
  repeat destruct Hd as [<-|Hd]; [destruct t; done..|done].
Qed.

Lemma commit_start input g r or tg i rb v :
  ghead g = QList_default → gtail g = None →
  ∃ st, QParse.commit input g r or tg i rb v = Some st ∧
        QParse.si st = i ∧ alternatives (QParse.slist st) = [mkQuery r []].
Proof. destruct g as [h t inp fl]. cbn. intros -> ->. destruct or; eexists; by split_and!. Qed.

Lemma hyphenate_end input : QParse.hyphenate input (length input) = Some None.
Proof. unfold QParse.hyphenate. by rewrite Nat.ltb_irrefl. Qed.

(** The first round of a text that is one operator and one version. *)
Lemma single_round text o tg is_version res r :
  QParse.lex text (start text) = Some (QParse.mkLexed o tg is_version false false false false) →
  tg ≠ TNone → QParse.parse_at (Sliced.init text) o = Some res → overflow res = false →
  (o + plen res)%nat = length text → text ≠ [] →
  Tok.to_range (mkToken tg (wildcard res)) res Tag_default = Some r →
  ∃ g, QParse.parse_text text = Some g ∧ alternatives g = [mkQuery r []].
Proof.
  intros Hlex Htg Hat Hov Hend Hne Hr.
  unfold QParse.parse_text, QParse.parse, QParse.parse_with. cbn [ss_slice Sliced.init]. fold (start text).
  destruct (length text) as [|n] eqn:En; [by destruct text|].
  cbn [QParse.parse_loop QParse.si start ss_slice Sliced.init]. rewrite En, (proj2 (Nat.ltb_lt _ _)) by lia.
  fold (start text). unfold QParse.step. cbn [ss_slice Sliced.init]. rewrite Hlex.
  cbn [mbind option_bind QParse.skip_round QParse.lx_i QParse.lx_skipped QParse.lx_tag QParse.no_operator QParse.lx_or
    QParse.lx_after]. rewrite Hat. cbn [mbind option_bind]. rewrite Hov, Hend, <- En.
  rewrite hyphenate_end. cbn [mbind option_bind]. rewrite bool_decide_eq_false_2, Hr by done. cbn [mbind option_bind].
  edestruct commit_start as (st & -> & Hi & Ha); [unfold QParse.flag_version; by destruct (valid res)..|]. cbn [mbind option_bind].
  exists (QParse.slist st). split; [|done].
  rewrite (proj2 (Nat.ltb_ge _ _)); [done|lia].
Qed.

Lemma parse_at_op_text tg v input p b :
  version_ok v →
  encodes input (value (pre (tag v))) p → encodes input (value (build (tag v))) b →
  forallb pre_char p = true → forallb scan_char b = true →
  let text := op_text tg ++ Ver.fmt v input in
  Z.of_nat (length text) < 2 ^ 31 →
  ∃ t, QParse.parse_at (Sliced.init text) (length (op_text tg))
       = Some (mkParseResult WNone true false
           (mkPartial (Some (major v)) (Some (minor v)) (Some (patch v)) t) (length (Ver.fmt v input))) ∧
    encodes text (value (pre t)) p ∧ encodes text (value (build t)) b.
Proof.
  intros (HM & Hm & HP & _) Hp Hb Hpc Hbc text Hlen.
  assert (Hok : sliced_ok (Sliced.init text)).
  { apply sliced_ok_init; [|done]. unfold text. apply Forall_app. split.
    - destruct tg; cbn; repeat constructor; unfold is_u8; lia.
    - by apply (fmt_u8 v input p b). }
  assert (Ho : (length (op_text tg) <= length text)%nat) by (unfold text; rewrite length_app; lia).
  set (sub := Sliced.sub (Sliced.init text) (length (op_text tg)) (length text)).
  assert (Hsub : ss_slice sub = Ver.fmt v input).
  { unfold sub, Sliced.sub. cbn [ss_slice Sliced.init]. unfold text. by rewrite slice_to_end, drop_app_length. }
  destruct (parse_fmt_at sub v input p b) as (t & Hpar & Hep & Heb); try done.
  { apply sliced_ok_sub; [done|]. cbn. lia. }
  exists t. split; [|done]. unfold QParse.parse_at, Sliced.sub_range. cbn [ss_slice Sliced.init].
  rewrite !leb_correct by lia. cbn [andb mbind option_bind]. fold sub. by rewrite Hpar, Hsub.
Qed.

Lemma fmt_head v input p b :
  version_ok v → encodes input (value (pre (tag v))) p → encodes input (value (build (tag v))) b →
  ∃ d rest, Ver.fmt v input = d :: rest ∧ is_ascii_digit d = true.
Proof.
  intros (HM & _) Hp Hb. rewrite (fmt_text v input p b Hp Hb).
  destruct (print_u64_spec _ HM) as (D1 & N1 & _).
  destruct (print_u64 (major v)); [done|]. cbn in *. apply andb_prop in D1 as [D1 _]. eauto.
Qed.

(** An operator and a printed version parse to the one range the token stands for. *)
Lemma parse_op_text tg v input p b :
  tg ≠ TNone → version_ok v →
  encodes input (value (pre (tag v))) p → encodes input (value (build (tag v))) b →
  forallb pre_char p = true → forallb scan_char b = true →
  let text := op_text tg ++ Ver.fmt v input in
  Z.of_nat (length text) < 2 ^ 31 →
  ∃ g t r, QParse.parse_text text = Some g ∧ alternatives g = [mkQuery r []] ∧
    encodes text (value (pre t)) p ∧ encodes text (value (build t)) b ∧
    Tok.to_range (mkToken tg WNone)
      (mkParseResult WNone true false
         (mkPartial (Some (major v)) (Some (minor v)) (Some (patch v)) t)
         (length (Ver.fmt v input))) Tag_default = Some r.
Proof.
  intros Htg Hv Hp Hb Hpc Hbc text Hlen.
  destruct (parse_at_op_text tg v input p b) as (t & Hat & Hep & Heb); try done.
  destruct (fmt_head v input p b Hv Hp Hb) as (d & rest & Hd & Hdig).
  destruct (Tok.to_range (mkToken tg WNone) (mkParseResult WNone true false
    (mkPartial (Some (major v)) (Some (minor v)) (Some (patch v)) t) (length (Ver.fmt v input)))
    Tag_default) as [r|] eqn:Hr; [|by destruct tg].
  assert (Hlex := lex_op tg d rest Htg Hdig). rewrite <- Hd in Hlex. fold text in Hlex, Hat.
  destruct (single_round text _ tg _ _ r Hlex Htg Hat) as (g & Hg & Ha); try done.
  - unfold text. by rewrite length_app.
  - unfold text. rewrite Hd. by destruct (op_text tg).
  - by exists g, t, r.
Qed.

(** ** The text [^M.m.p] *)

(** Two versions with the same numbers and prerelease text, in two buffers. *)
Lemma same_prec v w vb wb p :
  major v = major w → minor v = minor w → patch v = patch w →
  encodes vb (value (pre (tag v))) p → encodes wb (value (pre (tag w))) p →
  prec v vb = prec w wb ∧ TagOps.has_pre (tag v) = TagOps.has_pre (tag w).
Proof.
  intros HM Hm Hp Hv Hw. unfold prec, view, label, TagOps.has_pre, Ext.is_empty, Ext.ext_slice.
  rewrite (encodes_empty _ _ _ Hv), (encodes_empty _ _ _ Hw).
  rewrite (slice_encodes _ _ _ Hv), (slice_encodes _ _ _ Hw), HM, Hm, Hp. done.
Qed.

Lemma same_at_least v v' w vb vb' wb p :
  major v = major v' → minor v = minor v' → patch v = patch v' →
  tag_ok (tag v) → tag_ok (tag v') → tag_ok (tag w) →
  encodes vb (value (pre (tag v))) p → encodes vb' (value (pre (tag v'))) p →
  at_least v w vb wb = at_least v' w vb' wb.
Proof.
  intros HM Hm Hp Ht Ht' Hw Hv Hv'.
  destruct (same_prec v v' vb vb' p HM Hm Hp Hv Hv') as [Hpr Hpre].
  unfold at_least. rewrite !satisfies_spec by done. cbn [op cversion]. rewrite Hpr. f_equal.
  unfold is_any, Ver.is_zero. cbn. by rewrite HM, Hm, Hp, Hpre.
Qed.

(** The upper bound of [^v] is a prerelease of a triple that [^v] leaves out. *)
Lemma lt_next_core w M m p :
  (same_core w (cversion (Cmp.lt_next_major M)) = true → major w = M + 1) ∧
  (same_core w (cversion (Cmp.lt_next_minor M m)) = true → minor w = m + 1) ∧
  (same_core w (cversion (Cmp.lt_next_patch M m p)) = true → patch w = p + 1).
Proof.
  unfold same_core, Cmp.lt_next_major, Cmp.lt_next_minor, Cmp.lt_next_patch, checked_succ64.
  repeat split; destruct (_ <? _); cbn [cversion tag major minor patch];
    change (TagOps.has_pre Tag_default) with false; try done; lia.
Qed.

Lemma mentions_left w l r :
  op l ≠ OpUnset → same_core w (cversion r) = false → mentions w (mkRange l r) = same_core w (cversion l).
Proof.
  intros Hl Hr. unfold mentions, Rng.has_left. cbn. rewrite bool_decide_eq_false_2 by done.
  by rewrite Hr, andb_false_r, orb_false_r.
Qed.

Lemma caret_mentions v w r :
  caret v = Some r → keeps_leftmost v w → mentions w r = same_core w v.
Proof.
  intros Hr Hk. destruct v as [M m p t].
  unfold caret, Tok.to_range, Tok.caret_range in Hr. unfold keeps_leftmost in Hk.
  cbn [ttag version valid p_major p_minor p_patch p_tag major minor patch tag] in *.
  injection Hr as <-. destruct (lt_next_core w M m p) as (H1 & _ & _).
  destruct (lt_next_core w 0 m p) as (_ & H2 & _). destruct (lt_next_core w 0 0 p) as (_ & _ & H3).
  destruct (Z.eqb_spec M 0); [destruct (Z.eqb_spec m 0)|];
    (rewrite mentions_left; [|done|apply not_true_is_false; intros Hs; apply H1 in Hs || apply H2 in Hs || apply H3 in Hs; lia]);
    unfold same_core; cbn; destruct (TagOps.has_pre t) eqn:E; cbn; by rewrite ?E.
Qed.

(** [^v] as parsed admits, of all versions, those that are at least [v] and keep
    its left-most non-zero number, and of the prereleases only [v]'s own. *)
Lemma caret_text v input p b :
  version_ok v → encodes input (value (pre (tag v))) p → encodes input (value (build (tag v))) b →
  forallb pre_char p = true → forallb scan_char b = true →
  let text := op_text TCaret ++ Ver.fmt v input in
  Z.of_nat (length text) < 2 ^ 31 →
  ∃ g, QParse.parse_text text = Some g ∧
    ∀ w wb, version_ok w →
      Grp.satisfies g w text wb = true ↔
      at_least v w input wb = true ∧ keeps_leftmost v w ∧
      (TagOps.has_pre (tag w) = true → same_core w v = true).
Proof.
  intros Hv Hp Hb Hpc Hbc text Hlen.
  destruct (parse_op_text TCaret v input p b) as (g & t & r & Hg & Ha & Hep & Heb & Hr); try done.
  exists g. split; [done|]. intros w wb Hw. fold text in Hep, Heb.
  pose proof Hv as (HM & Hm & HP & Ht). pose proof Hw as (_ & _ & _ & Htw).
  set (v' := mkVersion (major v) (minor v) (patch v) t).
  assert (Ht' : tag_ok t) by (split; eauto using encodes_sem_ok).
  assert (Hv' : version_ok v') by done.
  assert (Hc : caret v' = Some r) by exact Hr.
  assert (Hal : at_least v' w text wb = at_least v w input wb).
  { by apply (same_at_least _ _ _ _ _ _ p). }
  destruct (same_prec v' v text input p) as [_ Hpre]; try done.
  assert (Hk : keeps_leftmost v' w ↔ keeps_leftmost v w) by done.
  assert (Hsc : same_core w v' = same_core w v) by (unfold same_core; by rewrite Hpre).
  rewrite group_satisfies, Ha. cbn [existsb]. rewrite orb_false_r. unfold alternative_holds, Qry.ranges.
  cbn [range qnext forallb existsb]. rewrite andb_true_r, orb_false_r, andb_true_iff, orb_true_iff.
  rewrite (caret_iff v' w r text wb Hv' Hw Hc), Hal.
  split; [intros [[H1 H2] H3]|intros (H1 & H2 & H3)].
  - split_and!; try done. intros Hw'. rewrite Hw' in H3. destruct H3 as [|H3]; [done|].
    rewrite (caret_mentions _ _ _ Hc H2) in H3. by rewrite <- Hsc.
  - split; [done|]. destruct (TagOps.has_pre (tag w)); [right|by left].
    rewrite (caret_mentions _ _ _ Hc) by done. rewrite Hsc. by apply H3.
Qed.

(** ** The properties *)



(** A comparator in text form parses to what its token stands for: each
    operator ([>], [>=], [<], [<=], [=], [~], [^]) followed by a printed
    version parses to one alternative of one range, the operator's desugaring
    of that version. *)
Theorem comparator_text_parses (tg : TokenTag) (v : Version) (input p b : bytes) :
  tg ≠ TNone → version_ok v →
  encodes input (value (pre (tag v))) p → encodes input (value (build (tag v))) b →
  forallb pre_char p = true → forallb scan_char b = true →
  let text := op_text tg ++ Ver.fmt v input in
  Z.of_nat (length text) < 2 ^ 31 →
  ∃ g t r, QParse.parse_text text = Some g ∧ alternatives g = [mkQuery r []] ∧
    encodes text (value (pre t)) p ∧ encodes text (value (build t)) b ∧
    Tok.to_range (mkToken tg WNone)
      (mkParseResult WNone true false
         (mkPartial (Some (major v)) (Some (minor v)) (Some (patch v)) t)
         (length (Ver.fmt v input))) Tag_default = Some r.
Proof. apply parse_op_text. Qed.

Lemma comparator_text_parses_witness :
  let text := bs "<=1.2.3-rc.1+b2" in
  ∃ g t r, QParse.parse_text text = Some g ∧ alternatives g = [mkQuery r []] ∧
    encodes text (value (pre t)) (bs "rc.1") ∧ encodes text (value (build t)) (bs "b2") ∧
    Tok.to_range (mkToken TLte WNone)
      (mkParseResult WNone true false (mkPartial (Some 1) (Some 2) (Some 3) t) 13) Tag_default = Some r.
Proof.
  apply (comparator_text_parses TLte (mkVersion 1 2 3 (inline_tag (bs "rc.1") (bs "b2"))) []
    (bs "rc.1") (bs "b2")); try (vm_compute; reflexivity); try done;
    first [apply inline_encodes; reflexivity | apply version_ok_check; vm_compute; reflexivity].
Defined.

(** C12. [^v] end to end, from its text: [^] and a printed version parse to a
    group that a version satisfies exactly when it is not below [v] (for
    [0.0.0], any), agrees with [v] up to its left-most non-zero number and, if
    it is a prerelease, is one of the same [major.minor.patch] as a
    prerelease [v]. *)
Theorem caret_text_meaning (v : Version) (input p b : bytes) :
  version_ok v → encodes input (value (pre (tag v))) p → encodes input (value (build (tag v))) b →
  forallb pre_char p = true → forallb scan_char b = true →
  let text := op_text TCaret ++ Ver.fmt v input in
  Z.of_nat (length text) < 2 ^ 31 →
  ∃ g, QParse.parse_text text = Some g ∧
    ∀ w wb, version_ok w →
      Grp.satisfies g w text wb = true ↔
      (Ver.order_without_build w v wb input ≠ Lt ∨ Ver.is_zero v = true ∧ TagOps.has_pre (tag v) = false) ∧
      keeps_leftmost v w ∧ (TagOps.has_pre (tag w) = true → same_core w v = true).
Proof.
  intros Hv Hp Hb Hpc Hbc text Hlen.
  destruct (caret_text v input p b Hv Hp Hb Hpc Hbc Hlen) as (g & Hg & Hs). exists g. split; [done|].
  intros w wb Hw. fold text in Hs. by rewrite Hs, at_least_iff.
Qed.

Lemma caret_text_meaning_witness :
  let v := mkVersion 1 2 3 (inline_tag (bs "beta.2") []) in
  let text := bs "^1.2.3-beta.2" in
  ∃ g, QParse.parse_text text = Some g ∧
    ∀ w wb, version_ok w →
      Grp.satisfies g w text wb = true ↔
      (Ver.order_without_build w v wb [] ≠ Lt ∨ Ver.is_zero v = true ∧ TagOps.has_pre (tag v) = false) ∧
      keeps_leftmost v w ∧ (TagOps.has_pre (tag w) = true → same_core w v = true).
Proof.
  apply (caret_text_meaning (mkVersion 1 2 3 (inline_tag (bs "beta.2") [])) [] (bs "beta.2") []);
    try (vm_compute; reflexivity);
    first [apply inline_encodes; reflexivity | apply version_ok_check; vm_compute; reflexivity].
Defined.

(** What a parsed text gives to the comparisons of groups. *)
Lemma parse_text_fine text g :
  is_text text → QParse.parse_text text = Some g → group_ok g ∧ group_wf text g.
Proof.
  intros Ht Hg. destruct (parse_with_total (Sliced.init text) Tag_default) as (g' & Hg' & Hf);
    [by apply text_sliced|by left|].
  unfold QParse.parse_text, QParse.parse in Hg. by simplify_eq.
Qed.
