(* ===== verification/SemverIntersects.v ===== *)
(** * [src/semver/intersects.rs]: do two ranges meet, is one within the other *)

From S2P Require Import Prelude BunStrings Wyhash SemverString SemverVersion SemverOrder.
From S2P Require Import SemverVersionFacts SemverRange SemverQuery SemverQueryFacts.
From S2P Require Import SemverParse.
#[local] Open Scope Z_scope.

(** A bound keeps the buffer its version reads its tag from. *)
Record Bound := mkBound { bversion : Version; bbuf : bytes; inclusive : bool }.
Record Interval := mkInterval { lower : option Bound; upper : option Bound }.
Definition Interval_default : Interval := mkInterval None None.

Definition is_last_patch (version : Version) : bool :=
  (patch version =? U64_MAX) && negb (TagOps.has_pre (tag version)).

Definition after_last_patch (version : Version) : option Version :=
  match checked_succ64 (minor version) with
  | Some minor => Some (mkVersion (major version) minor 0 Tag_default)
  | None => major ← checked_succ64 (major version); Some (mkVersion major 0 0 Tag_default)
  end.

Module Itv.
Definition order (a b : Bound) : comparison :=
  Ver.order_without_build (bversion a) (bversion b) (bbuf a) (bbuf b).

Definition raise (it : Interval) (b : Bound) : Interval :=
  let replace :=
    match lower it with
    | None => true
    | Some cur => match order b cur with Gt => true | Eq => negb (inclusive b) | Lt => false end
    end in
  if replace then mkInterval (Some b) (upper it) else it.

Definition cap (it : Interval) (b : Bound) : Interval :=
  let replace :=
    match upper it with
    | None => true
    | Some cur => match order b cur with Lt => true | Eq => negb (inclusive b) | Gt => false end
    end in
  if replace then mkInterval (lower it) (Some b) else it.

Definition narrow (it : Interval) (c : Comparator) (buf : bytes) : Interval :=
  let bound inclusive := mkBound (cversion c) buf inclusive in
  match op c with
  | OpUnset => it
  | OpEql => cap (raise it (bound true)) (bound true)
  | OpGt => raise it (bound false)
  | OpGte => raise it (bound true)
  | OpLt => cap it (bound false)
  | OpLte => cap it (bound true)
  end.

Fixpoint and_ranges (it : Interval) (rs : list Range) (buf : bytes) : Interval :=
  match rs with
  | [] => it
  | r :: rs => and_ranges (narrow (narrow it (left r) buf) (right r) buf) rs buf
  end.
Definition and_query (it : Interval) (query : Query) (buf : bytes) : Interval :=
  and_ranges it (Qry.ranges query) buf.

Definition is_non_empty (it : Interval) : bool :=
  match upper it with
  | None => true
  | Some u =>
      let l := default (mkBound (cversion Cmp.null_set) [] true) (lower it) in
      match order l u with
      | Lt => true
      | Eq => inclusive l && inclusive u
      | Gt => false
      end
  end.

(** The four rewritings of [canonical], in order. *)
Definition canonical_gt (lower : option Bound) : option Bound :=
  match lower with
  | Some l =>
      if negb (inclusive l) && is_last_patch (bversion l) then
        match after_last_patch (bversion l) with
        | Some next => Some (mkBound next (bbuf l) true)
        | None => lower
        end
      else lower
  | None => None
  end.

Definition canonical_zero (lower : option Bound) : option Bound :=
  match lower with
  | Some l =>
      if inclusive l && Ver.is_zero (bversion l) && negb (TagOps.has_pre (tag (bversion l)))
      then None else lower
  | None => None
  end.

Definition canonical_lte (upper : option Bound) : option Bound :=
  match upper with
  | Some u =>
      if inclusive u && is_last_patch (bversion u)
      then (λ version, mkBound version (bbuf u) false) <$> after_last_patch (bversion u)
      else upper
  | None => None
  end.

Definition pre_of_same_core (b : Bound) (v : Version) : bool :=
  TagOps.has_pre (tag (bversion b)) && (major (bversion b) =? major v)
  && (minor (bversion b) =? minor v) && (patch (bversion b) =? patch v).

Definition canonical_lt (lower upper : option Bound) : option Bound :=
  match upper with
  | Some u =>
      if negb (inclusive u) && negb (TagOps.has_pre (tag (bversion u)))
         && negb (match lower with Some l => pre_of_same_core l (bversion u) | None => false end)
      then Some (mkBound (mkVersion (major (bversion u)) (minor (bversion u)) (patch (bversion u))
                                    TagOps.ZERO_PRE) (bbuf u) (inclusive u))
      else upper
  | None => None
  end.

Definition canonical (it : Interval) : Interval :=
  let lower := canonical_zero (canonical_gt (lower it)) in
  let upper := canonical_lt lower (canonical_lte (upper it)) in
  mkInterval lower upper.

Definition is_within (it other : Interval) : bool :=
  let lower_ok :=
    match lower it, lower other with
    | _, None => true
    | None, Some _ => false
    | Some a, Some b =>
        match order a b with Gt => true | Eq => inclusive b || negb (inclusive a) | Lt => false end
    end in
  let upper_ok :=
    match upper it, upper other with
    | _, None => true
    | None, Some _ => false
    | Some a, Some b =>
        match order a b with Lt => true | Eq => inclusive b || negb (inclusive a) | Gt => false end
    end in
  lower_ok && upper_ok.

Definition is_prerelease_of_it (bound : Bound) (c : Comparator) : bool :=
  negb (bool_decide (op c = OpUnset)) && TagOps.has_pre (tag (cversion c))
  && (major (cversion c) =? major (bversion bound)) && (minor (cversion c) =? minor (bversion bound))
  && (patch (cversion c) =? patch (bversion bound)).

Definition opt_filter (p : Bound → bool) (b : option Bound) : list Bound :=
  match b with Some b => if p b then [b] else [] | None => [] end.

Definition prereleases_can_satisfy (it : Interval) (query : Query) : bool :=
  let lower := opt_filter (λ b, TagOps.has_pre (tag (bversion b))) (lower it) in
  let upper :=
    opt_filter (λ b, TagOps.has_pre (tag (bversion b))
                     && (inclusive b
                         || negb (bool_decide (Ext.ext_slice (pre (tag (bversion b))) (bbuf b)
                                               = [ch "0"])))) (upper it) in
  forallb (λ bound,
    existsb (λ r, is_prerelease_of_it bound (left r) || is_prerelease_of_it bound (right r))
      (Qry.ranges query)) (lower ++ upper).
End Itv.

(** [Query::is_star]. *)
Definition query_is_star (q : Query) : bool :=
  bool_decide (qnext q = []) && bool_decide (op (left (range q)) = OpGte)
  && Ver.is_zero (cversion (left (range q)))
  && negb (TagOps.has_pre (tag (cversion (left (range q))))) && negb (Rng.has_right (range q)).

Module Sets.
Definition admits (g : Group) (self_buf : bytes) (version : Version) (version_buf : bytes) : bool :=
  Grp.satisfies g version self_buf version_buf
  || (TagOps.has_pre (tag version) && existsb query_is_star (alternatives g)).

Definition admits_an_exact_version_of (g : Group) (self_buf : bytes) (other : Group)
    (other_buf : bytes) : bool :=
  existsb (λ q, match Qry.exact_version q with
                | Some version => admits g self_buf version other_buf
                | None => false
                end) (alternatives other).

Definition is_range (q : Query) : bool :=
  match Qry.exact_version q with None => true | Some _ => false end.

Definition intersects (g : Group) (self_buf : bytes) (other : Group) (other_buf : bytes) : bool :=
  if admits_an_exact_version_of g self_buf other other_buf
     || admits_an_exact_version_of other other_buf g self_buf
  then true
  else
    existsb (λ a,
      is_range a &&
      let base := Itv.and_query Interval_default a self_buf in
      Itv.is_non_empty base &&
      existsb (λ b, is_range b && Itv.is_non_empty (Itv.and_query base b other_buf))
        (alternatives other)) (alternatives g).

Definition is_satisfied_by_a_bound_of (g : Group) (self_buf : bytes) (other : Group)
    (other_buf : bytes) : bool :=
  existsb (λ comparator,
    let version := cversion comparator in
    let version :=
      if bool_decide (op comparator = OpLt) && TagOps.eql (tag version) TagOps.ZERO_PRE
      then mkVersion (major version) (minor version) (patch version) Tag_default else version in
    Grp.satisfies g version self_buf other_buf)
    (concat (map (λ r, [left r; right r]) (concat (map Qry.ranges (alternatives other))))).

Definition is_subset_of (g : Group) (self_buf : bytes) (other : Group) (other_buf : bytes) : bool :=
  forallb (λ list_a,
    let sub := Itv.canonical (Itv.and_query Interval_default list_a self_buf) in
    if negb (Itv.is_non_empty sub) then true
    else
      existsb (λ list_b,
        let dom := Itv.and_query Interval_default list_b other_buf in
        Itv.is_within sub (Itv.canonical dom) && Itv.prereleases_can_satisfy sub list_b)
        (alternatives other))
    (alternatives g).
End Sets.

(** The [is_subset_of] test of the source. *)
Definition subset_cases : list (bytes * bytes * bool) :=
  [(bs ">=16.0.0", bs ">=16.0.0", true); (bs ">=16.0.0", bs ">=16.0.1", false);
   (bs ">=16.0.1", bs ">=16.0.0", true); (bs ">16.0.0", bs ">=16.0.0", true);
   (bs ">=16.0.0", bs ">16.0.0", false); (bs "16.3.1", bs ">=16.0.0", true);
   (bs "16.3.1", bs "^16.4.0", false); (bs "16.3.1", bs "16.3.1", true);
   (bs "^16.3.1", bs "16.3.1", false); (bs "^16", bs "^16.0.0", true);
   (bs "^16.3", bs "^16", true); (bs "^16", bs "^16.3", false); (bs "~16.3", bs "^16.3.0", true);
   (bs "16.x", bs ">=16 <17", true); (bs "16", bs "16.x", true); (bs "^18 || ^20", bs ">=18", true);
   (bs "^18 || ^20", bs "^18.0.0 || ^20.0.0 || >=22.0.0", true);
   (bs "^18 || ^20 || ^21", bs "^18.0.0 || ^20.0.0 || >=22.0.0", false);
   (bs ">=18", bs "^18.0.0 || >=19.0.0", false); (bs ">=1", bs "1 || >=2", false);
   (bs ">=18 <20", bs ">=18", true); (bs ">=18", bs ">=18 <20", false);
   (bs "<6.0.0", bs ">=0.10.0", false); (bs "<6.0.0", bs "<6.0.0", true);
   (bs "<6.0.0", bs "<=6.0.0", true); (bs "<=6.0.0", bs "<6.0.0", false);
   (bs ">16", bs ">=17.0.0", true); (bs ">=17.0.0", bs ">16", true);
   (bs ">16.3", bs ">=16.4.0", true); (bs "<=16", bs "<17.0.0", true);
   (bs "<17.0.0", bs "<=16", true); (bs "<=16.3", bs "<16.4.0", true);
   (bs "<=16", bs "<=16.99.0", false); (bs "<2.0.0", bs "<2.0.0-0", true);
   (bs ">=2.0.0-a <2.0.0", bs ">=2.0.0-a <2.0.0-0", false); (bs ">16 <17.0.0", bs "1.0.0", true);
   (bs "*", bs "*", true); (bs "", bs "*", true); (bs "*", bs ">=0.0.0", true);
   (bs ">=1", bs "*", true); (bs "*", bs ">=1", false); (bs "<5", bs "*", true);
   (bs "<5", bs ">=0.0.0 <6", true); (bs "16 - 18", bs ">=16 <19", true);
   (bs "16 - 18.2.1", bs "<=18.2.1", true); (bs "16 - 18.2.1", bs "<18.2.1", false);
   (bs ">2 <1", bs ">=16", true); (bs ">=16 || >2 <1", bs ">=16", true);
   (bs ">=16", bs "<0", false); (bs "<0", bs "<0", true);
   (bs ">=20.19.0 <21.0.0", bs "^20.10.0", true); (bs ">=20.19.0 <21", bs "^20.10.0", true);
   (bs ">=20.19.0 <21.0.0-0", bs "^20.10.0", true); (bs "^20.10.0", bs ">=20.10.0 <21.0.0", true);
   (bs ">=22.0.0-rc.1", bs ">=20.0.0", false); (bs ">=22.0.0-rc.1", bs ">=22.0.0-alpha", true);
   (bs ">=22.0.0-alpha", bs ">=22.0.0-rc.1", false); (bs ">=1.0.0 <2.0.0-rc", bs "^1.0.0", false);
   (bs ">=1.0.0 <2.0.0-rc", bs ">=1.0.0 <2.0.0-rc.1", true);
   (bs "1.2.3-beta", bs ">=1.2.3-alpha", true); (bs "1.2.3-beta", bs ">=1.2.3-alpha <2.0.0", true);
   (bs "1.2.3-beta", bs ">=1.2.0", false);
   (bs ">=1.2.3-a.very.long.prerelease.2", bs ">=1.2.3-a.very.long.prerelease.1", true);
   (bs ">=1.2.3-a.very.long.prerelease.1", bs ">=1.2.3-a.very.long.prerelease.2", false)].

(** Parse both texts and compare. *)
Definition text_is_subset (sub dom : bytes) : option bool :=
  g ← QParse.parse_text sub; h ← QParse.parse_text dom; Some (Sets.is_subset_of g sub h dom).
Definition text_intersects (a b : bytes) : option bool :=
  g ← QParse.parse_text a; h ← QParse.parse_text b; Some (Sets.intersects g a h b).
(** Does the version [v] satisfy the range [text]? *)
Definition text_satisfies (text v : bytes) : option bool :=
  g ← QParse.parse_text text; r ← Ver.parse_utf8 v;
  Some (Grp.satisfies g (Ver.min (version r)) text v).

Example is_subset_of_cases :
  map (λ '(sub, dom, _), text_is_subset sub dom) subset_cases
  = map (λ '(_, _, expected), Some expected) subset_cases.
Proof. vm_compute. reflexivity. Qed.
