(* ===== verification/SemverIntersectsFacts.v ===== *)
(** * What [intersects] and [is_subset_of] decide

    An interval is read over precedence views. The bounds that [and_query]
    keeps are the tightest of the chain's comparators; from that,
    [intersects] misses no version that satisfies both groups, prereleases of
    [0.0.0] apart. *)

From S2P Require Import Prelude BunStrings Wyhash SemverString SemverVersion SemverOrder.
From S2P Require Import SemverVersionFacts SemverRange SemverQuery SemverQueryFacts.
From S2P Require Import SemverParse SemverParseFacts SemverIntersects.
#[local] Open Scope Z_scope.

(** ** Choosing the tightest bound *)

Lemma flip_laws {A} (cmp : A → A → comparison) : CmpLaws cmp → CmpLaws (λ x y, cmp y x).
Proof.
  intros H. split.
  - intros x y. apply (cmp_opp cmp).
  - intros x y z H1 H2. by apply (cmp_lt_trans cmp _ y).
  - intros x y z H1. symmetry. apply (cmp_eq_r cmp). done.
Qed.

Definition bp (b : Bound) : spec_version unit := prec (bversion b) (bbuf b).

Section tightest.
Context (cmp : spec_version unit → spec_version unit → comparison) `{!CmpLaws cmp}.

(** [b] replaces the current bound when it is beyond it, or as far and exclusive. *)
Definition pick (o : option Bound) (b : Bound) : option Bound :=
  match o with
  | None => Some b
  | Some cur =>
      match cmp (bp b) (bp cur) with
      | Gt => Some b
      | Eq => if inclusive b then Some cur else Some b
      | Lt => Some cur
      end
  end.

(** [x] is beyond [b]. *)
Definition beyond (b : Bound) (x : spec_version unit) : Prop :=
  cmp x (bp b) = Gt ∨ cmp x (bp b) = Eq ∧ inclusive b = true.

Definition tight (b b' : Bound) : Prop :=
  cmp (bp b) (bp b') = Gt ∨ cmp (bp b) (bp b') = Eq ∧ (inclusive b = true → inclusive b' = true).

Definition tightest (bs : list Bound) (o : option Bound) : Prop :=
  match o with
  | None => bs = []
  | Some b => b ∈ bs ∧ ∀ b', b' ∈ bs → tight b b'
  end.

Lemma tight_beyond b b' x : tight b b' → beyond b x → beyond b' x.
Proof.
  unfold tight, beyond. intros [H|[H Hi]] [Hx|[Hx Hxi]].
  - left. by apply (cmp_gt_trans cmp _ (bp b)).
  - left. by rewrite (cmp_eq_l cmp _ _ _ Hx).
  - left. by rewrite <- (cmp_eq_r cmp _ _ x H).
  - right. rewrite <- (cmp_eq_r cmp _ _ x H). auto.
Qed.

Lemma tight_trans b1 b2 b3 : tight b1 b2 → tight b2 b3 → tight b1 b3.
Proof.
  unfold tight. intros [H|[H Hi]] [H'|[H' Hi']].
  - left. by apply (cmp_gt_trans cmp _ (bp b2)).
  - left. by rewrite <- (cmp_eq_r cmp _ _ (bp b1) H').
  - left. by rewrite (cmp_eq_l cmp _ _ _ H).
  - right. rewrite (cmp_eq_l cmp _ _ _ H). auto.
Qed.

Lemma tight_refl b : tight b b.
Proof. right. split; [apply (cmp_refl cmp)|done]. Qed.

Lemma pick_tightest bs o b : tightest bs o → tightest (bs ++ [b]) (pick o b).
Proof.
  unfold tightest, pick. destruct o as [cur|].
  2:{ intros ->. split; [set_solver|]. intros b'. cbn. rewrite list_elem_of_singleton.
      intros ->. apply tight_refl. }
  intros [Hin Ht].
  assert (Hcur : tight cur b → cur ∈ bs ++ [b] ∧ ∀ b', b' ∈ bs ++ [b] → tight cur b').
  { intros Hc. split; [set_solver|]. intros b'. rewrite elem_of_app, list_elem_of_singleton.
    intros [?| ->]; auto. }
  assert (Hb : tight b cur → b ∈ bs ++ [b] ∧ ∀ b', b' ∈ bs ++ [b] → tight b b').
  { intros Hc. split; [set_solver|]. intros b'. rewrite elem_of_app, list_elem_of_singleton.
    intros [H| ->]; [by apply (tight_trans _ cur); auto|apply tight_refl]. }
  destruct (cmp (bp b) (bp cur)) eqn:E.
  - destruct (inclusive b) eqn:Ei.
    + apply Hcur. right. rewrite (cmp_opp cmp), E. auto.
    + apply Hb. right. rewrite E, Ei. by split.
  - apply Hcur. left. by rewrite (cmp_opp cmp), E.
  - apply Hb. by left.
Qed.
End tightest.

(** ** Intervals *)

Definition cmp_down (x y : spec_version unit) : comparison := cmp_prec y x.

#[export] Instance cmp_prec_laws : CmpLaws cmp_prec.
Proof. unfold cmp_prec. apply _. Qed.
#[export] Instance cmp_down_laws : CmpLaws cmp_down.
Proof. apply (flip_laws cmp_prec), _. Qed.

Definition bound_ok (b : Bound) : Prop := version_ok (bversion b).

Definition above : Bound → spec_version unit → Prop := beyond cmp_prec.
Definition below : Bound → spec_version unit → Prop := beyond cmp_down.

(** The bounds a comparator puts on an interval. *)
Definition lower_of (buf : bytes) (c : Comparator) : option Bound :=
  match op c with
  | OpEql | OpGte => Some (mkBound (cversion c) buf true)
  | OpGt => Some (mkBound (cversion c) buf false)
  | _ => None
  end.
Definition upper_of (buf : bytes) (c : Comparator) : option Bound :=
  match op c with
  | OpEql | OpLte => Some (mkBound (cversion c) buf true)
  | OpLt => Some (mkBound (cversion c) buf false)
  | _ => None
  end.

Definition comparators (q : Query) : list Comparator :=
  concat (map (λ r, [left r; right r]) (Qry.ranges q)).

Definition represents (ls us : list Bound) (it : Interval) : Prop :=
  tightest cmp_prec ls (lower it) ∧ tightest cmp_down us (upper it).

Lemma order_bp a b : bound_ok a → bound_ok b → Itv.order a b = cmp_prec (bp a) (bp b).
Proof.
  intros (_ & _ & _ & Ha) (_ & _ & _ & Hb). unfold Itv.order. by rewrite order_without_build_prec.
Qed.

Lemma raise_pick it b :
  bound_ok b → (∀ l, lower it = Some l → bound_ok l) →
  Itv.raise it b = mkInterval (pick cmp_prec (lower it) b) (upper it).
Proof.
  intros Hb Hl. destruct it as [[l|] u]; [|done]. unfold Itv.raise. cbn.
  rewrite order_bp by auto. by destruct (cmp_prec _ _), (inclusive b).
Qed.

Lemma cap_pick it b :
  bound_ok b → (∀ u, upper it = Some u → bound_ok u) →
  Itv.cap it b = mkInterval (lower it) (pick cmp_down (upper it) b).
Proof.
  intros Hb Hu. destruct it as [l [u|]]; [|done]. unfold Itv.cap. cbn.
  unfold cmp_down. rewrite order_bp by auto. rewrite (cmp_opp cmp_prec (bp b) (bp u)).
  by destruct (cmp_prec _ _), (inclusive b).
Qed.

Definition olist {A} (o : option A) : list A := match o with Some x => [x] | None => [] end.

Lemma tightest_ok cmp bs o b : tightest cmp bs o → Forall bound_ok bs → o = Some b → bound_ok b.
Proof. intros H Hb ->. destruct H as [Hin _]. rewrite Forall_forall in Hb. by apply Hb. Qed.

Lemma narrow_represents ls us it c buf :
  represents ls us it → Forall bound_ok ls → Forall bound_ok us → version_ok (cversion c) →
  represents (ls ++ olist (lower_of buf c)) (us ++ olist (upper_of buf c)) (Itv.narrow it c buf).
Proof.
  intros [Hl Hu] Hls Hus Hc. unfold Itv.narrow, lower_of, upper_of.
  assert (Hb : ∀ i, bound_ok (mkBound (cversion c) buf i)) by done.
  assert (Hlo : ∀ l, lower it = Some l → bound_ok l) by eauto using tightest_ok.
  assert (Huo : ∀ u, upper it = Some u → bound_ok u) by eauto using tightest_ok.
  destruct (op c); cbn [olist]; rewrite ?app_nil_r; try (by split);
    rewrite ?raise_pick, ?cap_pick by auto;
    split; cbn; try done; apply pick_tightest; try apply _; done.
Qed.

Lemma and_query_represents ls us it q buf :
  represents ls us it → Forall bound_ok ls → Forall bound_ok us →
  Forall (λ c, version_ok (cversion c)) (comparators q) →
  represents (ls ++ omap (lower_of buf) (comparators q)) (us ++ omap (upper_of buf) (comparators q))
    (Itv.and_query it q buf).
Proof.
  unfold Itv.and_query, comparators. generalize (Qry.ranges q) as rs. intros rs. revert ls us it.
  induction rs as [|r rs IH]; intros ls us it Hrep Hl Hu Hok; [by rewrite !app_nil_r|].
  cbn [map concat app] in Hok. rewrite !Forall_cons in Hok. destruct Hok as (H1 & H2 & Hok).
  assert (Hols : ∀ f c, version_ok (cversion c) → f = lower_of buf ∨ f = upper_of buf →
            Forall bound_ok (olist (f c))).
  { intros f c Hc [-> | ->]; unfold lower_of, upper_of; destruct (op c); cbn; first [apply Forall_nil_2 | by apply Forall_cons_2; [|apply Forall_nil_2]]. }
  apply (narrow_represents _ _ _ (left r) buf) in Hrep; auto.
  apply (narrow_represents _ _ _ (right r) buf) in Hrep; auto; [|apply Forall_app_2; auto..].
  apply IH in Hrep; auto; [|repeat apply Forall_app_2; auto..].
  cbn [Itv.and_ranges map concat app omap list_omap]. rewrite <- !app_assoc in Hrep.
  unfold omap. cbn. destruct (lower_of buf (left r)), (lower_of buf (right r)),
    (upper_of buf (left r)), (upper_of buf (right r)); exact Hrep.
Qed.

(** ** Comparators as bounds *)

Lemma op_bounds c buf x :
  op c ≠ OpUnset →
  op_holds (op c) (cmp_prec x (prec (cversion c) buf)) = true ↔
  (∀ l, lower_of buf c = Some l → above l x) ∧ (∀ u, upper_of buf c = Some u → below u x).
Proof.
  intros Hop. unfold lower_of, upper_of, above, below, beyond, bp, cmp_down.
  destruct (op c); try done;
    (split; [intros H; split; intros ? [= <-]|intros [H1 H2]]); cbn [bversion bbuf inclusive];
    try specialize (H1 _ eq_refl); try specialize (H2 _ eq_refl); cbn [bversion bbuf inclusive] in *;
    rewrite ?(cmp_opp cmp_prec x (prec (cversion c) buf)) in *;
    destruct (cmp_prec x (prec (cversion c) buf)); cbn in *; naive_solver.
Qed.

Lemma comparators_ok buf q :
  query_wf buf q → Forall (λ c, version_ok (cversion c)) (comparators q).
Proof.
  unfold query_wf, comparators. induction 1 as [|r rs (Hl & Hr & _) _ IH]; cbn; [done|].
  constructor; [by eapply version_wf_ok|]. constructor; [by eapply version_wf_ok|done].
Qed.

Lemma elem_of_comparators c q : c ∈ comparators q ↔ ∃ r, r ∈ Qry.ranges q ∧ (c = left r ∨ c = right r).
Proof.
  unfold comparators. rewrite list_elem_of_In, in_concat. split.
  - intros (l & (r & <- & Hr)%in_map_iff & Hc). exists r. rewrite list_elem_of_In. split; [done|].
    cbn in Hc. naive_solver.
  - intros (r & Hr & Hc). exists [left r; right r]. rewrite list_elem_of_In in Hr. split.
    + apply in_map_iff. eauto.
    + cbn. naive_solver.
Qed.

(** A well-formed chain holds when its set comparators do and, for a prerelease,
    one of them is a prerelease of the same triple. *)
Lemma alternative_holds_iff buf q v vb :
  query_wf buf q →
  alternative_holds v buf vb q = true ↔
  (∀ c, c ∈ comparators q → op c ≠ OpUnset → Cmp.satisfies c v buf vb = true) ∧
  (TagOps.has_pre (tag v) = true →
   ∃ d, d ∈ comparators q ∧ op d ≠ OpUnset ∧ same_core v (cversion d) = true).
Proof.
  intros Hq. unfold alternative_holds. rewrite andb_true_iff, forallb_forall, orb_true_iff, existsb_exists.
  unfold query_wf in Hq. rewrite Forall_forall in Hq.
  apply Morphisms_Prop.and_iff_morphism.
  - split.
    + intros H c (r & Hr & Hc)%elem_of_comparators Hop. specialize (H r (proj1 (list_elem_of_In _ _) Hr)).
      rewrite range_satisfies_iff in H. destruct (Hq r Hr) as (_ & _ & Hs). naive_solver.
    + intros H r Hr%list_elem_of_In. rewrite range_satisfies_iff. intros Hl.
      split; [|intros Hr']; apply H; try done; apply elem_of_comparators; eauto.
  - unfold mentions, Rng.has_left, Rng.has_right. split.
    + intros [H|(r & Hr%list_elem_of_In & Hm)] Hp; [by rewrite Hp in H|].
      apply andb_prop in Hm as [Hl Hm]. apply negb_true_iff, bool_decide_eq_false in Hl.
      apply orb_prop in Hm as [Hm|Hm].
      * exists (left r). rewrite elem_of_comparators. split_and!; [exists r; auto|done|done].
      * apply andb_prop in Hm as [Hr' Hm]. apply negb_true_iff, bool_decide_eq_false in Hr'.
        exists (right r). rewrite elem_of_comparators. split_and!; [exists r; auto|done|done].
    + intros H. destruct (TagOps.has_pre (tag v)); [right|by left].
      destruct (H eq_refl) as (d & (r & Hr & Hd)%elem_of_comparators & Hop & Hs). exists r.
      split; [by apply list_elem_of_In|]. destruct (Hq r Hr) as (_ & _ & Hsh).
      rewrite (bool_decide_eq_false_2 (op (left r) = OpUnset)) by naive_solver. cbn.
      destruct Hd as [-> | ->]; [by rewrite Hs|]. rewrite bool_decide_eq_false_2 by done.
      cbn. by rewrite Hs, orb_true_r.
Qed.

(** The exception of [>=0.0.0] concerns the prereleases of [0.0.0] only. *)
Lemma any_holds c v cb vb :
  is_any c = true → version_ok v → is_pre_of v 0 0 0 = false →
  op_holds (op c) (cmp_prec (prec v vb) (prec (cversion c) cb)) = true.
Proof.
  unfold is_any. intros [[Hop%bool_decide_eq_true Hz]%andb_prop Hn%negb_true_iff]%andb_prop Hv Hp.
  rewrite Hop. unfold Ver.is_zero in Hz.
  assert (prec (cversion c) cb = mkSpec 0 0 0 (inr tt)) as ->.
  { unfold prec, view, label. rewrite Hn. f_equal; lia. }
  destruct (cmp_precP (prec v vb) (mkSpec 0 0 0 (inr tt))) as [H|H|H]; [triple_lia|done|].
  unfold same_triple in H. cbn in H. unfold is_pre_of in Hp. unfold prec, view, label. cbn.
  destruct (TagOps.has_pre (tag v)); [|done]. cbn in Hp. lia.
Qed.

Lemma satisfied_bounds c v cb vb :
  version_ok v → version_ok (cversion c) → op c ≠ OpUnset → is_pre_of v 0 0 0 = false →
  Cmp.satisfies c v cb vb = true →
  (∀ l, lower_of cb c = Some l → above l (prec v vb)) ∧
  (∀ u, upper_of cb c = Some u → below u (prec v vb)).
Proof.
  intros Hv Hc Hop Hp Hs. apply op_bounds; [done|].
  pose proof Hv as (_ & _ & _ & Htv). pose proof Hc as (_ & _ & _ & Htc).
  rewrite satisfies_spec in Hs by done. apply orb_prop in Hs as [Hs|Hs]; [by apply any_holds|done].
Qed.

(** ** A version between the bounds *)

Definition inside (it : Interval) (x : spec_version unit) : Prop :=
  (∀ l, lower it = Some l → above l x) ∧ (∀ u, upper it = Some u → below u x).

Lemma represents_inside ls us it x :
  represents ls us it → (∀ l, l ∈ ls → above l x) → (∀ u, u ∈ us → below u x) → inside it x.
Proof.
  intros [Hl Hu] Hls Hus. split; intros b Hb; rewrite Hb in *; [by apply Hls, Hl|by apply Hus, Hu].
Qed.

Lemma above_below_nonempty l u x :
  above l x → below u x →
  match cmp_prec (bp l) (bp u) with Lt => True | Eq => inclusive l && inclusive u = true | Gt => False end.
Proof.
  unfold above, below, beyond, cmp_down. intros [H1|[H1 I1]] [H2|[H2 I2]];
    rewrite ?(cmp_opp cmp_prec (bp u) x) in *.
  - apply cmp_gt_lt in H1; [|apply _]. apply cmp_gt_lt in H2; [|apply _].
    by rewrite (cmp_lt_trans cmp_prec _ _ _ H1 H2).
  - apply cmp_gt_lt in H1; [|apply _]. by rewrite (cmp_eq_r cmp_prec _ _ (bp l) H2), H1.
  - apply cmp_gt_lt in H2; [|apply _]. by rewrite <- (cmp_eq_l cmp_prec _ _ (bp u) H1), H2.
  - rewrite <- (cmp_eq_l cmp_prec _ _ (bp u) H1), (cmp_opp cmp_prec (bp u) x), H2. cbn. by rewrite I1, I2.
Qed.

(** No version is below [0.0.0-0]. *)
Lemma null_below v vb cb :
  version_ok v → cmp_prec (prec v vb) (prec (cversion Cmp.null_set) cb) ≠ Lt.
Proof.
  intros Hv H. pose proof (null_set_false v vb cb Hv) as Hs. pose proof Hv as (_ & _ & _ & Ht).
  rewrite satisfies_spec, H in Hs by auto using zero_pre_ok. done.
Qed.

Lemma inside_non_empty it v vb :
  (∀ l, lower it = Some l → bound_ok l) → (∀ u, upper it = Some u → bound_ok u) →
  version_ok v → inside it (prec v vb) → Itv.is_non_empty it = true.
Proof.
  destruct it as [l u]. intros Hl Hu Hv [Ha Hb]. unfold Itv.is_non_empty. cbn in *.
  destruct u as [u|]; [|done]. specialize (Hb u eq_refl). specialize (Hu u eq_refl).
  set (l' := default _ l).
  assert (bound_ok l' ∧ above l' (prec v vb)) as [Hok' Ha'].
  { destruct l as [l|]; cbn in l'; [split; auto|]. split.
    - split_and!; try done. apply zero_pre_ok.
    - unfold above, beyond, bp, l'. cbn [bversion bbuf inclusive]. pose proof (null_below v vb [] Hv).
      destruct (cmp_prec _ _); [by right|done|by left]. }
  rewrite order_bp by done. pose proof (above_below_nonempty l' u _ Ha' Hb) as H.
  by destruct (cmp_prec _ _).
Qed.

(** ** [intersects] *)

Lemma lower_bounds_ok buf cs :
  Forall (λ c, version_ok (cversion c)) cs →
  Forall bound_ok (omap (lower_of buf) cs) ∧ Forall bound_ok (omap (upper_of buf) cs).
Proof.
  intros H. rewrite !Forall_forall in *. split; intros b (c & Hc & Hb)%list_elem_of_omap;
    unfold lower_of, upper_of in Hb; destruct (op c); simplify_eq; by apply (H c).
Qed.

Lemma chain_bounds buf q v vb :
  query_wf buf q → version_ok v → is_pre_of v 0 0 0 = false → alternative_holds v buf vb q = true →
  (∀ l, l ∈ omap (lower_of buf) (comparators q) → above l (prec v vb)) ∧
  (∀ u, u ∈ omap (upper_of buf) (comparators q) → below u (prec v vb)).
Proof.
  intros Hq Hv Hp Hh. pose proof (comparators_ok _ _ Hq) as Hok. rewrite Forall_forall in Hok.
  apply (alternative_holds_iff buf) in Hh as [Hh _]; [|done].
  split; intros b (c & Hc & Hb)%list_elem_of_omap;
    (assert (Hop : op c ≠ OpUnset) by (intros Ho; unfold lower_of, upper_of in Hb; by rewrite Ho in Hb));
    destruct (satisfied_bounds c v buf vb Hv (Hok c Hc) Hop Hp (Hh c Hc Hop)); auto.
Qed.

(** Satisfaction depends on the precedence view only. *)
Lemma alternative_holds_prec buf q v w vb wb :
  query_wf buf q → version_ok v → version_ok w →
  Ver.order_without_build v w vb wb = Eq →
  alternative_holds v buf vb q = true → alternative_holds w buf wb q = true.
Proof.
  intros Hq Hv Hw Ho. pose proof (comparators_ok _ _ Hq) as Hok. rewrite Forall_forall in Hok.
  pose proof Hv as (_ & _ & _ & Htv). pose proof Hw as (_ & _ & _ & Htw).
  pose proof (order_without_build_eq _ _ _ _ Ho) as (E1 & E2 & E3 & E4).
  rewrite order_without_build_prec in Ho by done.
  rewrite !(alternative_holds_iff buf) by done. intros [H1 H2]. split.
  - intros c Hc Hop. specialize (H1 c Hc Hop). destruct (Hok c Hc) as (_ & _ & _ & Htc).
    rewrite satisfies_spec in * by done. unfold cmp_prec in *. by rewrite <- (cmp_eq_l _ _ _ _ Ho).
  - rewrite <- E4. intros Hp. destruct (H2 Hp) as (d & Hd & Hop & Hs). exists d. split_and!; try done.
    unfold same_core in *. by rewrite <- E1, <- E2, <- E3.
Qed.

Lemma alternatives_wf buf g q : group_wf buf g → q ∈ alternatives g → query_wf buf q.
Proof. unfold group_wf. rewrite Forall_forall. auto. Qed.

Lemma exact_wf buf q e : query_wf buf q → Qry.exact_version q = Some e → version_ok e.
Proof.
  unfold query_wf, Qry.exact_version, Qry.ranges. rewrite Forall_cons. intros [(Hl & _) _] H.
  case_match; simplify_eq. by eapply version_wf_ok.
Qed.

(** An exact version that a version of [h] equals is admitted by [h]. *)
Lemma exact_admitted g gb h hb v vb a b e :
  group_wf gb g → group_wf hb h → version_ok v → a ∈ alternatives g → b ∈ alternatives h →
  Qry.exact_version a = Some e → alternative_holds v gb vb a = true → alternative_holds v hb vb b = true →
  Sets.admits_an_exact_version_of h hb g gb = true.
Proof.
  intros Hg Hh Hv Ha Hb He Hva Hvb. pose proof (alternatives_wf _ _ _ Hg Ha) as Hqa.
  pose proof (alternatives_wf _ _ _ Hh Hb) as Hqb.
  rewrite (exact_query a e v gb vb He) in Hva.
  destruct (Ver.order_without_build v e vb gb) eqn:Ho; try done.
  apply existsb_exists. exists a. split; [by apply list_elem_of_In|]. rewrite He.
  unfold Sets.admits. apply orb_true_iff. left. rewrite group_satisfies. apply existsb_exists.
  exists b. split; [by apply list_elem_of_In|].
  eapply (alternative_holds_prec hb b v e vb gb); eauto using exact_wf.
Qed.

Lemma intersects_complete g gb h hb v vb :
  group_wf gb g → group_wf hb h → version_ok v → is_pre_of v 0 0 0 = false →
  Grp.satisfies g v gb vb = true → Grp.satisfies h v hb vb = true →
  Sets.intersects g gb h hb = true.
Proof.
  intros Hg Hh Hv Hp. rewrite !group_satisfies, !existsb_exists.
  intros (a & Ha%list_elem_of_In & Hva) (b & Hb%list_elem_of_In & Hvb).
  pose proof (alternatives_wf _ _ _ Hg Ha) as Hqa. pose proof (alternatives_wf _ _ _ Hh Hb) as Hqb.
  unfold Sets.intersects.
  destruct (Qry.exact_version a) as [e|] eqn:Ea;
    [by rewrite (exact_admitted g gb h hb v vb a b e), orb_true_r|].
  destruct (Qry.exact_version b) as [e|] eqn:Eb;
    [by rewrite (exact_admitted h hb g gb v vb b a e)|].
  destruct (_ || _); [done|].
  pose proof (comparators_ok _ _ Hqa) as Hca. pose proof (comparators_ok _ _ Hqb) as Hcb.
  destruct (lower_bounds_ok gb _ Hca) as [Hla Hua]. destruct (lower_bounds_ok hb _ Hcb) as [Hlb Hub].
  destruct (chain_bounds gb a v vb Hqa Hv Hp Hva) as [Hal Hau].
  destruct (chain_bounds hb b v vb Hqb Hv Hp Hvb) as [Hbl Hbu].
  assert (Hr1 := and_query_represents [] [] Interval_default a gb ltac:(done) ltac:(done) ltac:(done) Hca).
  cbn [app] in Hr1. assert (Hr2 := and_query_represents _ _ _ b hb Hr1 Hla Hua Hcb).
  apply existsb_exists. exists a. split; [by apply list_elem_of_In|]. unfold Sets.is_range. rewrite Ea.
  rewrite andb_true_iff. split; [done|]. rewrite andb_true_iff. split.
  - apply (inside_non_empty _ v vb); try done; [| |by eapply represents_inside].
    + intros l Hl. destruct Hr1 as [Hr1 _]. by eapply tightest_ok.
    + intros u Hu. destruct Hr1 as [_ Hr1]. by eapply tightest_ok.
  - apply existsb_exists. exists b. split; [by apply list_elem_of_In|]. rewrite Eb. cbn.
    apply (inside_non_empty _ v vb); try done.
    + intros l Hl. destruct Hr2 as [Hr2 _]. eapply tightest_ok; [done| |done]. by apply Forall_app.
    + intros u Hu. destruct Hr2 as [_ Hr2]. eapply tightest_ok; [done| |done]. by apply Forall_app.
    + eapply represents_inside; [done|..]; intros x; rewrite elem_of_app; intros [Hx|Hx]; auto.
Qed.

(** ** The property *)

(** C4. [intersects] misses no common version: if some version that is not a
    prerelease of [0.0.0] satisfies two parsed ranges, [Group::intersects] of
    the two answers true. *)
Theorem intersects_no_false_negative (a b : bytes) (g h : Group) (v : Version) (vb : bytes) :
  is_text a → is_text b → QParse.parse_text a = Some g → QParse.parse_text b = Some h →
  version_ok v → is_pre_of v 0 0 0 = false →
  Grp.satisfies g v a vb = true → Grp.satisfies h v b vb = true →
  Sets.intersects g a h b = true.
Proof.
  intros Ha Hb [_ Hg]%parse_text_fine [_ Hh]%parse_text_fine; try done. by apply intersects_complete.
Qed.

Lemma intersects_no_false_negative_witness :
  let a := bs "^1.2.3-beta.2 || 5" in
  let b := bs ">=1.2.3-beta.4 <1.2.3" in
  Sets.intersects (default Group_default (QParse.parse_text a)) a
    (default Group_default (QParse.parse_text b)) b = true.
Proof.
  intros a b.
  apply (intersects_no_false_negative a b (default Group_default (QParse.parse_text a))
    (default Group_default (QParse.parse_text b))
    (mkVersion 1 2 3 (inline_tag (bs "beta.10") [])) []);
    first [apply text_check; reflexivity | apply version_ok_check; vm_compute; reflexivity
          | vm_compute; reflexivity].
Defined.
