(* ===== verification/SemverSubsetFacts.v ===== *)
(** * A positive [is_subset_of] is inclusion

    [canonical] rewrites bounds without looking at the rest of the chain, which
    is right unless a prerelease comparator of the chain falls between the two
    forms of a bound ([clash]). For chains without such a pair, every version
    that satisfies the smaller group satisfies the larger one, prereleases
    included. *)

From S2P Require Import Prelude BunStrings Wyhash SemverString SemverVersion SemverOrder.
From S2P Require Import SemverVersionFacts SemverRange SemverQuery SemverQueryFacts.
From S2P Require Import SemverParse SemverParseFacts SemverIntersects SemverIntersectsFacts.
#[local] Open Scope Z_scope.

Definition is_set (c : Comparator) : bool := negb (bool_decide (op c = OpUnset)).

Definition same_numbers (v w : Version) : bool :=
  (major v =? major w) && (minor v =? minor w) && (patch v =? patch w).

(** [d] is a prerelease of [0.0.0] beside [>=0.0.0] or [=0.0.0], or a prerelease
    of the version after the last patch that [c] names. *)
Definition clash (c d : Comparator) : bool :=
  is_set c && is_set d && TagOps.has_pre (tag (cversion d)) &&
  (((bool_decide (op c = OpGte) || bool_decide (op c = OpEql)) && Ver.is_zero (cversion c)
    && negb (TagOps.has_pre (tag (cversion c))) && Ver.is_zero (cversion d))
   || (is_last_patch (cversion c)
       && match after_last_patch (cversion c) with
          | Some n => same_numbers n (cversion d)
          | None => false
          end)).

Definition separated (q : Query) : bool :=
  forallb (λ c, forallb (λ d, negb (clash c d)) (comparators q)) (comparators q).

Lemma separated_no_clash q c d :
  separated q = true → c ∈ comparators q → d ∈ comparators q → clash c d = false.
Proof.
  unfold separated. rewrite forallb_forall. intros H Hc%list_elem_of_In Hd%list_elem_of_In.
  specialize (H c Hc). rewrite forallb_forall in H. specialize (H d Hd). by apply negb_true_iff.
Qed.

(** ** Releases and the last patch *)

Lemma prec_release v vb :
  TagOps.has_pre (tag v) = false → prec v vb = mkSpec (major v) (minor v) (patch v) (inr tt).
Proof. intros H. unfold prec, view, label. by rewrite H. Qed.

Lemma prec_pre v vb :
  TagOps.has_pre (tag v) = true → ∃ p, s_label (prec v vb) = inl p.
Proof. intros H. unfold prec, view, label. rewrite H. by eexists. Qed.

Lemma label_no_pre v vb : TagOps.has_pre (tag v) = false → s_label (prec v vb) = inr tt.
Proof. intros H. by rewrite prec_release. Qed.

(** Comparing with a release. *)
Lemma cmp_release x r :
  s_label r = inr tt →
  (cmp_prec x r = Gt ↔ triple_lt r x) ∧
  (cmp_prec x r = Lt ↔ triple_lt x r ∨ same_triple x r ∧ ∃ p, s_label x = inl p) ∧
  (cmp_prec x r = Eq ↔ same_triple x r ∧ s_label x = inr tt).
Proof.
  intros Hr. destruct (cmp_precP x r) as [H|H|H]; unfold triple_lt, same_triple in *.
  - split_and!; split; intros; try done; try lia; destruct_and?; lia.
  - split_and!; split; intros; try done; try lia; destruct_or?; destruct_and?; lia.
  - rewrite Hr. destruct (s_label x) as [p|[]]; cbn; split_and!; split; intros; try done;
      destruct_or?; destruct_and?; try lia; try done; naive_solver.
Qed.

Lemma after_last_patch_spec w n :
  version_ok w → is_last_patch w = true → after_last_patch w = Some n →
  version_ok n ∧ TagOps.has_pre (tag n) = false ∧ TagOps.has_pre (tag w) = false ∧ Ver.is_zero n = false ∧
  ∀ v vb wb nb, version_ok v →
    (triple_lt (prec w wb) (prec v vb) ↔ ¬ triple_lt (prec v vb) (prec n nb)) ∧
    (¬ triple_lt (prec w wb) (prec v vb) ↔ triple_lt (prec v vb) (prec n nb)).
Proof.
  intros Hw [Hp Hn%negb_true_iff]%andb_prop Ha. unfold after_last_patch in Ha.
  pose proof Hw as (HM & Hm & Hp' & _).
  assert (Hok : tag_ok Tag_default) by apply (tag_wf_ok [] Tag_default), default_wf.
  destruct (checked_succ64_cases (minor w) Hm) as [[E Hs]|[E Em]]; rewrite E in Ha.
  - injection Ha as <-. split_and!; try done.
    + unfold Ver.is_zero, is_u64 in *. cbn. lia.
    + intros v vb wb nb Hv. unfold version_ok, triple_lt, is_u64, U64_MAX in *. cbn. lia.
  - destruct (checked_succ64_cases (major w) HM) as [[E' Hs]|[E' _]]; rewrite E' in Ha; [|done].
    cbn in Ha. injection Ha as <-. split_and!; try done.
    + unfold Ver.is_zero, is_u64 in *. cbn. lia.
    + intros v vb wb nb Hv. unfold version_ok, triple_lt, is_u64, U64_MAX in *. cbn. lia.
Qed.

Lemma after_last_patch_none w v vb wb :
  version_ok w → version_ok v → is_last_patch w = true → after_last_patch w = None →
  ¬ triple_lt (prec w wb) (prec v vb).
Proof.
  intros Hw Hv [Hp _]%andb_prop Ha. unfold after_last_patch in Ha. pose proof Hw as (HM & Hm & _ & _).
  destruct (checked_succ64_cases (minor w) Hm) as [[E _]|[E Em]]; rewrite E in Ha; [done|].
  destruct (checked_succ64_cases (major w) HM) as [[E' _]|[E' EM]]; rewrite E' in Ha; [done|].
  unfold version_ok, triple_lt, is_u64, U64_MAX in *. cbn. lia.
Qed.

(** Between a prerelease and another of the same triple there are only such prereleases. *)
Lemma squeeze z y x :
  cmp_prec z y ≠ Gt → cmp_prec y x ≠ Gt → same_triple z x → (∃ p, s_label x = inl p) →
  same_triple y x ∧ ∃ p, s_label y = inl p.
Proof.
  intros H1 H2 Ht [p Hp]. destruct (cmp_precP z y) as [H|H|H], (cmp_precP y x) as [H'|H'|H'];
    unfold triple_lt, same_triple in *; try done; try lia.
  split; [lia|]. rewrite Hp in H2. destruct (s_label y); [eauto|done].
Qed.

(** ** The bounds of one chain *)

Lemma lower_of_inv buf c l :
  lower_of buf c = Some l →
  bversion l = cversion c ∧ bbuf l = buf ∧ op c ≠ OpUnset ∧
  (inclusive l = true → op c = OpGte ∨ op c = OpEql).
Proof. unfold lower_of. destruct (op c); intros; simplify_eq; cbn; split_and!; auto; done. Qed.

Lemma upper_of_inv buf c u :
  upper_of buf c = Some u → bversion u = cversion c ∧ bbuf u = buf ∧ op c ≠ OpUnset ∧ is_any c = false.
Proof. unfold upper_of, is_any. destruct (op c); intros; simplify_eq; done. Qed.

(** [>=0.0.0] or [=0.0.0] as a lower bound. *)
Definition zero_bound (l : Bound) : bool :=
  inclusive l && Ver.is_zero (bversion l) && negb (TagOps.has_pre (tag (bversion l))).

(** Reading a view back. *)
Lemma pre_of_view w wb p : s_label (prec w wb) = inl p → TagOps.has_pre (tag w) = true.
Proof. unfold prec, view, label. by destruct (TagOps.has_pre (tag w)). Qed.

Lemma same_triple_numbers v vb w wb :
  same_triple (prec v vb) (prec w wb) ↔ same_numbers v w = true.
Proof. unfold same_triple, same_numbers. cbn. lia. Qed.

Lemma same_triple_sym x y : same_triple x y → same_triple y x.
Proof. unfold same_triple. lia. Qed.

(** [z <= b] when [b] is at least as tight as [z], and [b <= x] when [x] is beyond it. *)
Lemma tight_le cmp `{!CmpLaws cmp} b b' : tight cmp b b' → cmp (bp b') (bp b) ≠ Gt.
Proof. rewrite (cmp_opp cmp (bp b)). by intros [-> | [-> _]]. Qed.

Lemma beyond_le cmp `{!CmpLaws cmp} b x : beyond cmp b x → cmp (bp b) x ≠ Gt.
Proof. rewrite (cmp_opp cmp x). by intros [-> | [-> _]]. Qed.

(** ** The rewritings of [canonical] *)

Lemma canonical_gt_some o l' :
  Itv.canonical_gt o = Some l' →
  o = Some l' ∨
  ∃ l n, o = Some l ∧ inclusive l = false ∧ is_last_patch (bversion l) = true ∧
         after_last_patch (bversion l) = Some n ∧ l' = mkBound n (bbuf l) true.
Proof.
  destruct o as [l|]; [|done]. cbn. destruct (inclusive l) eqn:Ei; cbn; [by left|].
  destruct (is_last_patch (bversion l)) eqn:El; [|by left].
  destruct (after_last_patch (bversion l)) as [n|] eqn:En; [|by left].
  intros [= <-]. right. by exists l, n.
Qed.

Lemma canonical_zero_some o l' :
  Itv.canonical_zero o = Some l' → o = Some l' ∧ zero_bound l' = false.
Proof.
  destruct o as [l|]; [|done]. cbn. unfold zero_bound.
  destruct (inclusive l && _ && _) eqn:E; [done|]. by intros [= <-].
Qed.

Lemma canonical_lower_pre l :
  TagOps.has_pre (tag (bversion l)) = true →
  Itv.canonical_zero (Itv.canonical_gt (Some l)) = Some l.
Proof.
  intros Hp. cbn. unfold is_last_patch. rewrite Hp, !andb_false_r. cbn. by rewrite Hp, !andb_false_r.
Qed.

Lemma canonical_lte_some o u' :
  Itv.canonical_lte o = Some u' →
  o = Some u' ∨
  ∃ u n, o = Some u ∧ inclusive u = true ∧ is_last_patch (bversion u) = true ∧
         after_last_patch (bversion u) = Some n ∧ u' = mkBound n (bbuf u) false.
Proof.
  destruct o as [u|]; [|done]. cbn. destruct (inclusive u) eqn:Ei; cbn; [|by left].
  destruct (is_last_patch (bversion u)) eqn:El; [|by left].
  destruct (after_last_patch (bversion u)) as [n|] eqn:En; [|done].
  intros [= <-]. right. by exists u, n.
Qed.

Definition zero_pre_bound (u : Bound) : Bound :=
  mkBound (mkVersion (major (bversion u)) (minor (bversion u)) (patch (bversion u)) TagOps.ZERO_PRE)
          (bbuf u) (inclusive u).

Lemma canonical_lt_some o lo u' :
  Itv.canonical_lt lo o = Some u' →
  ∃ u, o = Some u ∧
    (u' = u ∨
     u' = zero_pre_bound u ∧ inclusive u = false ∧ TagOps.has_pre (tag (bversion u)) = false ∧
     ∀ l, lo = Some l → Itv.pre_of_same_core l (bversion u) = false).
Proof.
  destruct o as [u|]; [|done]. cbn. intros H. exists u. split; [done|].
  destruct (inclusive u) eqn:Ei; cbn in H; [simplify_eq; by left|].
  destruct (TagOps.has_pre (tag (bversion u))) eqn:Ep; cbn in H; [simplify_eq; by left|].
  destruct lo as [l|]; cbn in H.
  - destruct (Itv.pre_of_same_core l (bversion u)) eqn:El; cbn in H; [simplify_eq; by left|].
    right. simplify_eq. unfold zero_pre_bound. rewrite Ei. split_and!; try done. by intros l' [= <-].
  - right. simplify_eq. unfold zero_pre_bound. rewrite Ei. by split_and!.
Qed.

Lemma below_zero_pre u v vb :
  inclusive u = false → version_ok v →
  below (zero_pre_bound u) (prec v vb) ↔ triple_lt (prec v vb) (bp u).
Proof.
  intros Hi Hv. pose proof Hv as (_ & _ & _ & Ht).
  pose proof (lt_zero_pre v vb (bbuf u) (major (bversion u)) (minor (bversion u)) (patch (bversion u)) Ht) as H.
  rewrite satisfies_spec in H by auto using zero_pre_ok. cbn [is_any op cversion] in H.
  unfold triple_lt in *. cbn in *. rewrite <- H. unfold below, beyond, cmp_down, bp, zero_pre_bound.
  cbn [bversion bbuf inclusive]. rewrite Hi, (cmp_opp cmp_prec (prec v vb)).
  destruct (cmp_prec (prec v vb) _); cbn; naive_solver.
Qed.

Lemma canonical_upper_pre lo u :
  TagOps.has_pre (tag (bversion u)) = true → Itv.canonical_lt lo (Itv.canonical_lte (Some u)) = Some u.
Proof.
  intros Hp. cbn. unfold is_last_patch. rewrite Hp, !andb_false_r. cbn. by rewrite Hp, andb_false_r.
Qed.

(** An exclusive bound [M.m.p-0] has no prerelease of [M.m.p] below it. *)
Lemma below_text_zero u v vb :
  inclusive u = false → version_ok v → TagOps.has_pre (tag (bversion u)) = true →
  Ext.ext_slice (pre (tag (bversion u))) (bbuf u) = [ch "0"] → below u (prec v vb) →
  same_numbers v (bversion u) = false.
Proof.
  intros Hi Hv Hp Ht Hb. apply not_true_is_false. intros Hs.
  assert (E : bp (zero_pre_bound u) = bp u).
  { unfold bp, zero_pre_bound. cbn [bversion bbuf]. rewrite prec_zero_pre. unfold prec, view, label.
    by rewrite Hp, Ht. }
  assert (Hz : below (zero_pre_bound u) (prec v vb)).
  { unfold below, beyond in *. rewrite E. done. }
  apply below_zero_pre in Hz; [|done|done]. unfold triple_lt, same_numbers in *. cbn in *. lia.
Qed.

(** What [prereleases_can_satisfy] finds for one bound. *)
Lemma can_satisfy_bound it q b :
  Itv.prereleases_can_satisfy it q = true → TagOps.has_pre (tag (bversion b)) = true →
  lower it = Some b ∨
  upper it = Some b ∧ (inclusive b = true ∨ Ext.ext_slice (pre (tag (bversion b))) (bbuf b) ≠ [ch "0"]) →
  ∃ d, d ∈ comparators q ∧ Itv.is_prerelease_of_it b d = true.
Proof.
  intros H Hp Hb. unfold Itv.prereleases_can_satisfy in H. rewrite forallb_forall in H.
  specialize (H b). rewrite existsb_exists in H. destruct H as (r & Hr%list_elem_of_In & Hd).
  - apply in_or_app. destruct Hb as [-> | [-> Hf]]; [left|right]; cbn; rewrite Hp; [by left|].
    cbn. destruct (inclusive b); cbn; [by left|].
    destruct Hf as [|Hf]; [done|]. rewrite bool_decide_eq_false_2 by done. by left.
  - apply orb_prop in Hd as [Hd|Hd]; [exists (left r)|exists (right r)]; (split; [|done]);
      apply elem_of_comparators; eauto.
Qed.

Section chain.
Context (buf : bytes) (q : Query) (Hq : query_wf buf q) (Hsep : separated q = true).
Context (v : Version) (vb : bytes) (Hv : version_ok v).
Let it : Interval := Itv.and_query Interval_default q buf.
Let x : spec_version unit := prec v vb.

Lemma chain_ok c : c ∈ comparators q → version_ok (cversion c).
Proof. pose proof (comparators_ok _ _ Hq) as H. rewrite Forall_forall in H. apply H. Qed.

Lemma chain_represents :
  represents (omap (lower_of buf) (comparators q)) (omap (upper_of buf) (comparators q)) it.
Proof.
  pose proof (comparators_ok _ _ Hq) as Hc.
  exact (and_query_represents [] [] Interval_default q buf ltac:(done) ltac:(done) ltac:(done) Hc).
Qed.

Lemma chain_lower l :
  lower it = Some l →
  bound_ok l ∧ (∃ c, c ∈ comparators q ∧ lower_of buf c = Some l) ∧
  (∀ c l', c ∈ comparators q → lower_of buf c = Some l' → tight cmp_prec l l').
Proof.
  intros Hl. destruct chain_represents as [Hr _]. rewrite Hl in Hr.
  destruct Hr as [(c & Hc & Hcl)%list_elem_of_omap Ht]. split_and!; [|by exists c|].
  - destruct (lower_of_inv _ _ _ Hcl) as (E & _). unfold bound_ok. rewrite E. by apply chain_ok.
  - intros c' l' Hc' Hl'. apply Ht, list_elem_of_omap. eauto.
Qed.

Lemma chain_upper u :
  upper it = Some u →
  bound_ok u ∧ (∃ c, c ∈ comparators q ∧ upper_of buf c = Some u) ∧
  (∀ c u', c ∈ comparators q → upper_of buf c = Some u' → tight cmp_down u u').
Proof.
  intros Hu. destruct chain_represents as [_ Hr]. rewrite Hu in Hr.
  destruct Hr as [(c & Hc & Hcl)%list_elem_of_omap Ht]. split_and!; [|by exists c|].
  - destruct (upper_of_inv _ _ _ Hcl) as (E & _). unfold bound_ok. rewrite E. by apply chain_ok.
  - intros c' l' Hc' Hl'. apply Ht, list_elem_of_omap. eauto.
Qed.

Lemma chain_lower_some c l' :
  c ∈ comparators q → lower_of buf c = Some l' → ∃ l, lower it = Some l.
Proof.
  intros Hc Hl'. destruct chain_represents as [Hr _]. destruct (lower it) as [l|]; [eauto|].
  unfold tightest in Hr. assert (Hin : l' ∈ omap (lower_of buf) (comparators q)) by (apply list_elem_of_omap; eauto).
  rewrite Hr in Hin. by apply elem_of_nil in Hin.
Qed.

Lemma chain_upper_some c u' :
  c ∈ comparators q → upper_of buf c = Some u' → ∃ u, upper it = Some u.
Proof.
  intros Hc Hu'. destruct chain_represents as [_ Hr]. destruct (upper it) as [u|]; [eauto|].
  unfold tightest in Hr. assert (Hin : u' ∈ omap (upper_of buf) (comparators q)) by (apply list_elem_of_omap; eauto).
  rewrite Hr in Hin. by apply elem_of_nil in Hin.
Qed.

(** No comparator of the chain is a prerelease of [0.0.0] next to a zero bound. *)
Lemma zero_bound_alone l d :
  lower it = Some l → zero_bound l = true → d ∈ comparators q → op d ≠ OpUnset →
  TagOps.has_pre (tag (cversion d)) = true → Ver.is_zero (cversion d) = true → False.
Proof.
  intros Hl Hz Hd Hop Hp Hdz. destruct (chain_lower l Hl) as (_ & (c & Hc & Hcl) & _).
  destruct (lower_of_inv _ _ _ Hcl) as (E & _ & Hcs & Hi). unfold zero_bound in Hz.
  apply andb_prop in Hz as [[Hincl Hzero]%andb_prop Hnp]. rewrite E in *.
  pose proof (separated_no_clash q c d Hsep Hc Hd) as Hno. unfold clash, is_set in Hno.
  rewrite !bool_decide_eq_false_2 in Hno by done. rewrite Hp, Hzero, Hnp, Hdz in Hno. cbn in Hno.
  destruct (Hi Hincl) as [Ho|Ho]; rewrite Ho in Hno; cbn in Hno; discriminate.
Qed.

(** Nor a prerelease of the version after a last patch. *)
Lemma last_patch_alone c d n :
  c ∈ comparators q → op c ≠ OpUnset → is_last_patch (cversion c) = true →
  after_last_patch (cversion c) = Some n →
  d ∈ comparators q → op d ≠ OpUnset → TagOps.has_pre (tag (cversion d)) = true →
  same_numbers n (cversion d) = true → False.
Proof.
  intros Hc Hcs Hl Ha Hd Hop Hp Hsn.
  pose proof (separated_no_clash q c d Hsep Hc Hd) as Hno. unfold clash, is_set in Hno.
  rewrite !(bool_decide_eq_false_2 (_ = OpUnset)) in Hno by done. rewrite Hp, Hl, Ha, Hsn in Hno.
  cbn in Hno. by rewrite orb_true_r in Hno.
Qed.

(** A version that is no prerelease of [0.0.0] is above a zero bound. *)
Lemma zero_bound_above l : zero_bound l = true → is_pre_of v 0 0 0 = false → above l x.
Proof.
  intros Hz Hp. apply andb_prop in Hz as [[Hi Hz]%andb_prop Hn].
  pose proof (any_holds (mkComparator OpGte (bversion l)) v (bbuf l) vb) as H.
  unfold is_any in H. cbn in H. rewrite Hz, Hn in H. specialize (H eq_refl Hv Hp).
  unfold above, beyond, bp, x. destruct (cmp_prec _ _); [by right|done|by left].
Qed.

(** *** A version that satisfies the chain is inside its canonical interval *)
Section holds.
Context (Hh : alternative_holds v buf vb q = true).

Lemma mentioned :
  TagOps.has_pre (tag v) = true →
  ∃ d, d ∈ comparators q ∧ op d ≠ OpUnset ∧ TagOps.has_pre (tag (cversion d)) = true ∧
       same_numbers v (cversion d) = true.
Proof.
  intros Hp. apply (alternative_holds_iff buf) in Hh as [_ H]; [|done].
  destruct (H Hp) as (d & Hd & Hop & Hs). exists d. unfold same_core, same_numbers in *.
  apply andb_prop in Hs as [[[Hp' ?]%andb_prop ?]%andb_prop ?]. split_and!; try done. lia.
Qed.

Lemma holds_cases c :
  c ∈ comparators q → op c ≠ OpUnset →
  is_any c = true ∨
  ((∀ l, lower_of buf c = Some l → above l x) ∧ (∀ u, upper_of buf c = Some u → below u x)).
Proof.
  intros Hc Hop. apply (alternative_holds_iff buf) in Hh as [H _]; [|done].
  specialize (H c Hc Hop). pose proof Hv as (_ & _ & _ & Htv).
  destruct (chain_ok c Hc) as (_ & _ & _ & Htc). rewrite satisfies_spec in H by done.
  apply orb_prop in H as [H|H]; [by left|right]. by apply op_bounds.
Qed.

Lemma holds_lower l : lower it = Some l → above l x ∨ zero_bound l = true.
Proof.
  intros Hl. destruct (chain_lower l Hl) as (_ & (c & Hc & Hcl) & _).
  destruct (lower_of_inv _ _ _ Hcl) as (E & _ & Hop & _).
  destruct (holds_cases c Hc Hop) as [Ha|[Ha _]]; [right|left; auto].
  unfold is_any in Ha. apply andb_prop in Ha as [[Ho%bool_decide_eq_true Hz]%andb_prop Hn].
  unfold zero_bound. rewrite E, Hz, Hn. unfold lower_of in Hcl. rewrite Ho in Hcl. by simplify_eq.
Qed.

Lemma holds_upper u : upper it = Some u → below u x.
Proof.
  intros Hu. destruct (chain_upper u Hu) as (_ & (c & Hc & Hcu) & _).
  destruct (upper_of_inv _ _ _ Hcu) as (_ & _ & Hop & Hn).
  destruct (holds_cases c Hc Hop) as [Ha|[_ Ha]]; [by rewrite Ha in Hn|auto].
Qed.

(** A mentioned prerelease makes the lower or the upper bound one of its triple. *)
Lemma mentioned_bound d :
  TagOps.has_pre (tag v) = true → d ∈ comparators q → op d ≠ OpUnset →
  TagOps.has_pre (tag (cversion d)) = true → same_numbers v (cversion d) = true →
  (∃ l, lower it = Some l ∧ above l x ∧ TagOps.has_pre (tag (bversion l)) = true ∧
        same_numbers v (bversion l) = true) ∨
  (∃ u, upper it = Some u ∧ TagOps.has_pre (tag (bversion u)) = true ∧
        same_numbers v (bversion u) = true).
Proof.
  intros Hp Hd Hop Hdp Hsn. pose proof (proj2 (same_triple_numbers v vb (cversion d) buf) Hsn) as Hst.
  assert (Hd_op : (∃ l, lower_of buf d = Some l) ∨ (∃ u, upper_of buf d = Some u)).
  { unfold lower_of, upper_of. destruct (op d); eauto. done. }
  destruct Hd_op as [[ld Hld]|[ud Hud]].
  - left. destruct (chain_lower_some d ld Hd Hld) as [l Hl]. exists l. split; [done|].
    destruct (chain_lower l Hl) as (_ & _ & Ht). specialize (Ht d ld Hd Hld).
    destruct (lower_of_inv _ _ _ Hld) as (Ed & Eb & _).
    assert (Ha : above l x).
    { destruct (holds_lower l Hl) as [|Hz]; [done|].
      destruct (is_pre_of v 0 0 0) eqn:E0; [|by apply zero_bound_above].
      exfalso. apply (zero_bound_alone l d); try done.
      unfold is_pre_of, same_numbers, Ver.is_zero in *. lia. }
    split; [done|]. apply tight_le in Ht; [|apply _]. unfold bp in Ht at 1. rewrite Ed, Eb in Ht.
    destruct (squeeze _ _ x Ht) as [H1 [p H2]]; [by apply beyond_le; [apply _|]|by apply same_triple_sym|by apply prec_pre|].
    split; [by eapply pre_of_view|]. by eapply same_triple_numbers, same_triple_sym.
  - right. destruct (chain_upper_some d ud Hd Hud) as [u Hu]. exists u. split; [done|].
    destruct (chain_upper u Hu) as (_ & _ & Ht). specialize (Ht d ud Hd Hud).
    destruct (upper_of_inv _ _ _ Hud) as (Ed & Eb & _). pose proof (holds_upper u Hu) as Hb.
    apply tight_le in Ht; [|apply _]. apply beyond_le in Hb; [|apply _]. unfold cmp_down in Ht, Hb.
    unfold bp in Ht at 2. rewrite Ed, Eb in Ht.
    destruct (squeeze x (bp u) _ Hb Ht Hst) as [H1 [p H2]]; [by apply prec_pre|].
    split; [by eapply pre_of_view|]. apply (same_triple_numbers v vb (bversion u) (bbuf u)).
    unfold same_triple, bp, x in *. lia.
Qed.

Lemma sub_lower l' :
  Itv.canonical_zero (Itv.canonical_gt (lower it)) = Some l' → above l' x ∧ bound_ok l'.
Proof.
  intros [H Hz]%canonical_zero_some.
  apply canonical_gt_some in H as [Hl|(l & n & Hl & Hi & Hlp & Hn & ->)].
  { destruct (chain_lower l' Hl) as [Hok _]. split; [|done].
    destruct (holds_lower l' Hl) as [|Hz']; [done|by rewrite Hz in Hz']. }
  destruct (chain_lower l Hl) as (Hok & (c & Hc & Hcl) & _).
  destruct (lower_of_inv _ _ _ Hcl) as (Ec & _ & Hop & _).
  destruct (after_last_patch_spec _ _ Hok Hlp Hn) as (Hnok & Hnp & Hlnp & _ & Hsucc).
  split; [|done]. destruct (holds_lower l Hl) as [Ha|Hz']; [|by unfold zero_bound in Hz'; rewrite Hi in Hz'].
  destruct Ha as [Ha|[_ Ha]]; [|by rewrite Hi in Ha].
  apply (cmp_release x (bp l)) in Ha; [|by apply label_no_pre].
  apply (proj1 (proj1 (Hsucc v vb (bbuf l) (bbuf l) Hv))) in Ha. unfold above, beyond, bp. cbn [bversion bbuf inclusive].
  fold x in Ha.
  destruct (cmp_prec x (prec n (bbuf l))) eqn:E; [by right| |by left]. exfalso.
  apply cmp_release in E as [E|[Hst [p Hp]]]; [done| |by apply label_no_pre].
  destruct (mentioned (pre_of_view _ _ _ Hp)) as (d & Hd & Hdop & Hdp & Hsn).
  rewrite Ec in *. apply (last_patch_alone c d n); try done.
  apply same_triple_numbers in Hst. unfold same_numbers in *. lia.
Qed.

Lemma sub_upper u' :
  let lo := Itv.canonical_zero (Itv.canonical_gt (lower it)) in
  Itv.canonical_lt lo (Itv.canonical_lte (upper it)) = Some u' → below u' x ∧ bound_ok u'.
Proof.
  intros lo (u1 & H & Hu')%canonical_lt_some.
  (* the bound after the [<=] rewriting *)
  assert (Hu1 : below u1 x ∧ bound_ok u1 ∧
    (inclusive u1 = false → TagOps.has_pre (tag (bversion u1)) = false →
     (∃ d, d ∈ comparators q ∧ op d ≠ OpUnset ∧ TagOps.has_pre (tag (cversion d)) = true ∧
           same_numbers (bversion u1) (cversion d) = true) → upper it = Some u1)).
  { apply canonical_lte_some in H as [Hu|(u & n & Hu & Hi & Hlp & Hn & ->)].
    { destruct (chain_upper u1 Hu) as [Hok _]. auto using holds_upper. }
    destruct (chain_upper u Hu) as (Hok & (c & Hc & Hcu) & _).
    destruct (upper_of_inv _ _ _ Hcu) as (Ec & _ & Hop & _).
    destruct (after_last_patch_spec _ _ Hok Hlp Hn) as (Hnok & Hnp & Hlnp & _ & Hsucc).
    split_and!; [|done|].
    - pose proof (holds_upper u Hu) as Hb. apply beyond_le in Hb; [|apply _]. unfold cmp_down in Hb.
      left. unfold cmp_down, bp. cbn [bversion bbuf]. apply cmp_gt_lt; [apply _|].
      apply cmp_release; [by apply label_no_pre|]. left.
      apply (proj1 (proj2 (Hsucc v vb (bbuf u) (bbuf u) Hv))).
      intros Hlt. apply Hb. by apply cmp_release; [apply label_no_pre|].
    - intros _ _ (d & Hd & Hdop & Hdp & Hsn). exfalso. rewrite Ec in *. by apply (last_patch_alone c d n). }
  destruct Hu1 as (Hb & Hok & Hraw). destruct Hu' as [->|(-> & Hi & Hnp & Hlo)]; [done|].
  split; [|split_and!; try apply Hok; apply zero_pre_ok].
  apply below_zero_pre; [done|done|].
  destruct Hb as [Hb|[_ Hb]]; [|by rewrite Hi in Hb]. unfold cmp_down in Hb.
  apply cmp_gt_lt in Hb; [|apply _].
  apply cmp_release in Hb as [|[Hst [p Hp]]]; [done| |by apply label_no_pre]. exfalso.
  apply pre_of_view in Hp. destruct (mentioned Hp) as (d & Hd & Hdop & Hdp & Hsn).
  pose proof (proj1 (same_triple_numbers _ _ _ _) Hst) as Hst'.
  assert (Hup : upper it = Some u1).
  { apply Hraw; try done. exists d. split_and!; try done. unfold same_numbers in *. lia. }
  destruct (mentioned_bound d Hp Hd Hdop Hdp Hsn)
    as [(l & Hl & _ & Hlp & Hls)|(u2 & Hu2 & Hu2p & _)].
  - assert (Hlo' : lo = Some l) by (unfold lo; rewrite Hl; by apply canonical_lower_pre).
    specialize (Hlo l Hlo'). unfold Itv.pre_of_same_core in Hlo. rewrite Hlp in Hlo.
    unfold same_numbers in *. cbn in Hlo. lia.
  - rewrite Hup in Hu2. injection Hu2 as <-. by rewrite Hnp in Hu2p.
Qed.

Lemma sub_inside : inside (Itv.canonical it) x ∧ Itv.is_non_empty (Itv.canonical it) = true.
Proof.
  assert (Hin : inside (Itv.canonical it) x) by (split; intros b Hb; [by apply sub_lower|by apply sub_upper]).
  split; [done|]. apply (inside_non_empty _ v vb); try done; intros b Hb; [by apply sub_lower|by apply sub_upper].
Qed.

(** A prerelease is one of the triples [prereleases_can_satisfy] looks for. *)
Lemma sub_mentions q' :
  TagOps.has_pre (tag v) = true → Itv.prereleases_can_satisfy (Itv.canonical it) q' = true →
  ∃ d, d ∈ comparators q' ∧ op d ≠ OpUnset ∧ same_core v (cversion d) = true.
Proof.
  intros Hp Hc. destruct (mentioned Hp) as (d0 & Hd0 & Hop0 & Hdp0 & Hsn0).
  assert (Hfound : ∃ b, same_numbers v (bversion b) = true ∧
    ∃ d, d ∈ comparators q' ∧ Itv.is_prerelease_of_it b d = true).
  { destruct (mentioned_bound d0 Hp Hd0 Hop0 Hdp0 Hsn0)
      as [(l & Hl & _ & Hlp & Hls)|(u & Hu & Hup & Hus)].
    - exists l. split; [done|]. apply (can_satisfy_bound _ _ _ Hc Hlp). left. cbn [lower Itv.canonical].
      rewrite Hl. by apply canonical_lower_pre.
    - exists u. split; [done|]. apply (can_satisfy_bound _ _ _ Hc Hup). right. split.
      + cbn [upper Itv.canonical]. rewrite Hu. by apply canonical_upper_pre.
      + destruct (inclusive u) eqn:Hi; [by left|right]. intros Ht.
        rewrite (below_text_zero u v vb) in Hus; try done. by apply holds_upper. }
  destruct Hfound as (b & Hs & d & Hd & Hb). exists d. split; [done|].
  unfold Itv.is_prerelease_of_it in Hb.
  apply andb_prop in Hb as [[[[H1 H2]%andb_prop H3]%andb_prop H4]%andb_prop H5].
  apply negb_true_iff, bool_decide_eq_false in H1. split; [done|].
  unfold same_core, same_numbers in *. rewrite H2. cbn. lia.
Qed.
End holds.

(** *** A version inside the canonical interval satisfies the chain *)
Section inside.
Context (Hin : inside (Itv.canonical it) x).
Context (Hm : TagOps.has_pre (tag v) = true →
              ∃ d, d ∈ comparators q ∧ op d ≠ OpUnset ∧ same_core v (cversion d) = true).

Lemma dom_lower l : lower it = Some l → above l x.
Proof.
  intros Hl. destruct Hin as [Hlow _]. cbn [lower Itv.canonical] in Hlow. rewrite Hl in Hlow.
  destruct (chain_lower l Hl) as (Hok & _ & _).
  destruct (Itv.canonical_gt (Some l)) as [l1|] eqn:Hgt.
  2:{ cbn in Hgt. repeat case_match; done. }
  destruct (zero_bound l1) eqn:Hz.
  - apply canonical_gt_some in Hgt as [[= <-]|(l0 & n & [= <-] & _ & Hlp & Hn & ->)].
    + destruct (is_pre_of v 0 0 0) eqn:E0; [|by apply zero_bound_above]. exfalso.
      assert (Hp : TagOps.has_pre (tag v) = true) by (unfold is_pre_of in E0; by destruct (TagOps.has_pre _)).
      destruct (Hm Hp) as (d & Hd & Hop & Hs). unfold same_core in Hs.
      apply andb_prop in Hs as [[[Hs1 Hs2]%andb_prop Hs3]%andb_prop Hs4].
      apply (zero_bound_alone l d); try done. unfold Ver.is_zero, is_pre_of in *. lia.
    + destruct (after_last_patch_spec _ _ Hok Hlp Hn) as (_ & _ & _ & Hnz & _).
      unfold zero_bound in Hz. cbn in Hz. by rewrite Hnz in Hz.
  - assert (Ha : above l1 x) by (apply Hlow; cbn; unfold zero_bound in Hz; by rewrite Hz).
    apply canonical_gt_some in Hgt as [[= <-]|(l0 & n & [= <-] & Hi & Hlp & Hn & ->)]; [done|].
    destruct (after_last_patch_spec _ _ Hok Hlp Hn) as (_ & Hnp & Hlnp & _ & Hsucc).
    left. apply cmp_release; [by apply label_no_pre|].
    apply (proj2 (proj1 (Hsucc v vb (bbuf l) (bbuf l) Hv))). intros Hlt.
    apply beyond_le in Ha; [|apply _]. apply Ha. apply cmp_gt_lt; [apply _|].
    apply cmp_release; [by apply label_no_pre|by left].
Qed.

(** A prerelease bound is never the work of [canonical]. *)
Lemma canonical_lower_raw l :
  Itv.canonical_zero (Itv.canonical_gt (lower it)) = Some l →
  TagOps.has_pre (tag (bversion l)) = true → lower it = Some l.
Proof.
  intros [H _]%canonical_zero_some Hp.
  apply canonical_gt_some in H as [|(l0 & n & Hl & Hi & Hlp & Hn & ->)]; [done|]. cbn in Hp.
  destruct (chain_lower l0 Hl) as (Hok & _ & _).
  destruct (after_last_patch_spec _ _ Hok Hlp Hn) as (_ & Hnp & _). by rewrite Hnp in Hp.
Qed.

(** [<=M.m.MAX] from [<n], the version after it. *)
Lemma dom_last_patch u c n :
  bound_ok u → c ∈ comparators q → op c ≠ OpUnset → bversion u = cversion c → inclusive u = true →
  is_last_patch (bversion u) = true → after_last_patch (bversion u) = Some n →
  (∀ u', Itv.canonical_lt (Itv.canonical_zero (Itv.canonical_gt (lower it)))
           (Some (mkBound n (bbuf u) false)) = Some u' → below u' x) →
  below u x.
Proof.
  intros Hok Hc Hop Ec Hi Hlp Hn Hup.
  destruct (after_last_patch_spec _ _ Hok Hlp Hn) as (Hnok & Hnp & Hunp & _ & Hsucc).
  cbn in Hup. rewrite Hnp in Hup. cbn [negb andb] in Hup.
  destruct (negb (match Itv.canonical_zero _ with Some l => _ | None => false end)) eqn:Elo.
  - specialize (Hup _ eq_refl).
    apply (below_zero_pre (mkBound n (bbuf u) false)) in Hup; [|done|done]. unfold bp in Hup. cbn in Hup.
    apply (proj2 (proj2 (Hsucc v vb (bbuf u) (bbuf u) Hv))) in Hup.
    unfold below, beyond, cmp_down. rewrite Hi, (cmp_opp cmp_prec x).
    destruct (cmp_prec x (bp u)) eqn:E; [by right|by left|]. exfalso. apply Hup.
    by apply cmp_release in E; [|by apply label_no_pre].
  - exfalso. apply negb_false_iff in Elo.
    destruct (Itv.canonical_zero _) as [l|] eqn:El; [|done]. unfold Itv.pre_of_same_core in Elo.
    apply andb_prop in Elo as [[[H1 H2]%andb_prop H3]%andb_prop H4].
    pose proof (canonical_lower_raw l El H1) as Hl.
    destruct (chain_lower l Hl) as (_ & (c' & Hc' & Hcl) & _).
    destruct (lower_of_inv _ _ _ Hcl) as (Ec' & _ & Hop' & _). rewrite Ec in *. rewrite Ec' in *.
    apply (last_patch_alone c c' n); try done. unfold same_numbers in *. lia.
Qed.

Lemma dom_upper u : upper it = Some u → below u x.
Proof.
  intros Hu. destruct Hin as [_ Hup]. cbn [upper Itv.canonical] in Hup. rewrite Hu in Hup.
  destruct (chain_upper u Hu) as (Hok & (c & Hc & Hcu) & _).
  destruct (upper_of_inv _ _ _ Hcu) as (Ec & _ & Hop & _). cbn [Itv.canonical_lte] in Hup.
  destruct (inclusive u && is_last_patch (bversion u)) eqn:E.
  - apply andb_prop in E as [Hi Hlp].
    destruct (after_last_patch (bversion u)) as [n|] eqn:En; [by apply (dom_last_patch u c n)|].
    pose proof (after_last_patch_none _ v vb (bbuf u) Hok Hv Hlp En) as Hn.
    unfold below, beyond, cmp_down. rewrite Hi, (cmp_opp cmp_prec x).
    destruct (cmp_prec x (bp u)) eqn:E; [by right|by left|]. exfalso. apply Hn.
    unfold is_last_patch in Hlp. apply andb_prop in Hlp as [_ Hnp%negb_true_iff].
    by apply cmp_release in E; [|by apply label_no_pre].
  - destruct (Itv.canonical_lt _ (Some u)) as [u'|] eqn:Eu; [|cbn in Eu; by case_match].
    specialize (Hup u' eq_refl). apply canonical_lt_some in Eu as (u0 & [= <-] & [->|(-> & Hi & Hnp & _)]); [done|].
    apply below_zero_pre in Hup; [|done|done]. left. unfold cmp_down. apply cmp_gt_lt; [apply _|].
    apply cmp_release; [by apply label_no_pre|by left].
Qed.

Lemma dom_holds : alternative_holds v buf vb q = true.
Proof.
  apply (alternative_holds_iff buf); [done|]. split; [|done]. intros c Hc Hop.
  pose proof Hv as (_ & _ & _ & Htv). destruct (chain_ok c Hc) as (_ & _ & _ & Htc).
  rewrite satisfies_spec by done. apply orb_true_iff. right. apply op_bounds; [done|]. split.
  - intros l' Hl'. destruct (chain_lower_some c l' Hc Hl') as [l Hl].
    destruct (chain_lower l Hl) as (_ & _ & Ht).
    apply (tight_beyond cmp_prec l); [by eapply Ht|by apply dom_lower].
  - intros u' Hu'. destruct (chain_upper_some c u' Hc Hu') as [u Hu].
    destruct (chain_upper u Hu) as (_ & _ & Ht).
    apply (tight_beyond cmp_down u); [by eapply Ht|by apply dom_upper].
Qed.
End inside.
End chain.

(** ** Inclusion of intervals and of groups *)

Definition interval_ok (it : Interval) : Prop :=
  (∀ l, lower it = Some l → bound_ok l) ∧ (∀ u, upper it = Some u → bound_ok u).

Lemma within_inside it other x :
  interval_ok it → interval_ok other → Itv.is_within it other = true → inside it x → inside other x.
Proof.
  intros [Hl Hu] [Hl' Hu'] [H1 H2]%andb_prop [Ha Hb]. split.
  - intros b E. rewrite E in H1. destruct (lower it) as [a|] eqn:Ea; [|done].
    rewrite order_bp in H1 by auto. apply (tight_beyond cmp_prec a); [|by apply Ha].
    unfold tight. revert H1. destruct (cmp_prec _ _); intros H1; [right|done|by left]. split; [done|].
    intros Hi. rewrite Hi in H1. by destruct (inclusive b).
  - intros b E. rewrite E in H2. destruct (upper it) as [a|] eqn:Ea; [|done].
    rewrite order_bp in H2 by auto. apply (tight_beyond cmp_down a); [|by apply Hb].
    unfold tight, cmp_down. rewrite (cmp_opp cmp_prec (bp a)).
    revert H2. destruct (cmp_prec _ _); intros H2; [right|by left|done]. split; [done|].
    intros Hi. rewrite Hi in H2. by destruct (inclusive b).
Qed.

Lemma canonical_ok buf q : query_wf buf q → interval_ok (Itv.canonical (Itv.and_query Interval_default q buf)).
Proof.
  intros Hq. split.
  - intros l [H _]%canonical_zero_some. apply canonical_gt_some in H as [Hl|(l0 & n & Hl & _ & Hlp & Hn & ->)].
    + by apply (chain_lower buf q Hq).
    + destruct (chain_lower buf q Hq l0 Hl) as [Hok _]. by apply (after_last_patch_spec _ _ Hok Hlp Hn).
  - intros u' (u & H & Hu')%canonical_lt_some.
    assert (Hok : bound_ok u).
    { apply canonical_lte_some in H as [Hu|(u0 & n & Hu & _ & Hlp & Hn & ->)].
      - by apply (chain_upper buf q Hq).
      - destruct (chain_upper buf q Hq u0 Hu) as [Hok _]. by apply (after_last_patch_spec _ _ Hok Hlp Hn). }
    destruct Hu' as [->|(-> & _)]; [done|]. split_and!; try apply Hok. apply zero_pre_ok.
Qed.

Lemma subset_sound g gb h hb v vb :
  group_wf gb g → group_wf hb h → version_ok v →
  forallb separated (alternatives g) = true → forallb separated (alternatives h) = true →
  Sets.is_subset_of g gb h hb = true →
  Grp.satisfies g v gb vb = true → Grp.satisfies h v hb vb = true.
Proof.
  intros Hg Hh Hv Hsg Hsh Hsub. rewrite !group_satisfies, !existsb_exists.
  intros (a & Ha & Hva). unfold Sets.is_subset_of in Hsub. rewrite forallb_forall in Hsub, Hsg, Hsh.
  specialize (Hsub a Ha). specialize (Hsg a Ha).
  assert (Hqa : query_wf gb a) by (by apply (alternatives_wf gb g), list_elem_of_In).
  destruct (sub_inside gb a Hqa Hsg v vb Hv Hva) as [Hin Hne]. rewrite Hne in Hsub. cbn [negb] in Hsub.
  apply existsb_exists in Hsub as (b & Hb & [Hw Hc]%andb_prop). exists b. split; [done|].
  assert (Hqb : query_wf hb b) by (by apply (alternatives_wf hb h), list_elem_of_In).
  apply (dom_holds hb b Hqb (Hsh b Hb) v vb Hv).
  - by apply (within_inside _ _ _ (canonical_ok gb a Hqa) (canonical_ok hb b Hqb)).
  - intros Hp. by apply (sub_mentions gb a Hqa Hsg v vb Hv Hva b).
Qed.

(** ** The property *)

(** C1. A positive [is_subset_of] is inclusion: for two parsed ranges whose
    alternatives are separated, if [Group::is_subset_of] answers true then
    every version that satisfies the smaller range, prereleases included,
    satisfies the larger one. *)
Theorem is_subset_of_sound (sub dom : bytes) (g h : Group) (v : Version) (vb : bytes) :
  is_text sub → is_text dom → QParse.parse_text sub = Some g → QParse.parse_text dom = Some h →
  forallb separated (alternatives g) = true → forallb separated (alternatives h) = true →
  version_ok v → Sets.is_subset_of g sub h dom = true →
  Grp.satisfies g v sub vb = true → Grp.satisfies h v dom vb = true.
Proof.
  intros Hs Hd [_ Hg]%parse_text_fine [_ Hh]%parse_text_fine; try done.
  intros. by eapply (subset_sound g sub h dom).
Qed.

Lemma is_subset_of_sound_witness :
  let sub := bs ">=1.2.3-beta <1.2.8 || 5.0.0 - 5.2" in
  let dom := bs "^1.2.3-alpha || >=4" in
  let v := mkVersion 1 2 3 (inline_tag (bs "beta.2") []) in
  Grp.satisfies (default Group_default (QParse.parse_text dom)) v dom [] = true.
Proof.
  intros sub dom v.
  apply (is_subset_of_sound sub dom (default Group_default (QParse.parse_text sub))
    (default Group_default (QParse.parse_text dom)) v []);
    first [apply text_check; reflexivity | apply version_ok_check; vm_compute; reflexivity
          | vm_compute; reflexivity].
Defined.
