(* ===== verification/SemverFindings.v ===== *)
(** * Where the code and its comments part

    Concrete inputs, evaluated, on which a routine does not do what its comment
    or its name says. *)

From S2P Require Import Prelude BunStrings Wyhash SemverString SemverVersion SemverOrder.
From S2P Require Import SemverVersionFacts SemverRange SemverQuery SemverQueryFacts.
From S2P Require Import SemverParse SemverParseFacts SemverIntersects SemverIntersectsFacts.
From S2P Require Import SemverSubsetFacts.
#[local] Open Scope Z_scope.

(** The pre-release and build text of a parsed version. *)
Definition parsed_tag (text : bytes) : option (bytes * bytes) :=
  r ← Ver.parse_utf8 text;
  let t := p_tag (version r) in
  Some (Ext.ext_slice (pre t) text, Ext.ext_slice (build t) text).

(** A version without [-] before its tag: what follows the text decides what the
    tag is, since a tag that ends before the text is stored a second time, from
    its first byte. *)
Example bare_tag_depends_on_what_follows :
  parsed_tag (bs "1.0.0rc+b") = Some (bs "rc", bs "b") ∧
  parsed_tag (bs "1.0.0rc+b ") = Some (bs "rc+b", bs "b") ∧
  parsed_tag (bs "1.0.0rc-1") = Some (bs "1", []) ∧
  parsed_tag (bs "1.0.0rc-1 ") = Some (bs "rc-1", []).
Proof. vm_compute. auto. Qed.

(** A version satisfies both ranges, and [intersects] is false. *)
Example intersects_misses_prereleases_of_zero :
  text_satisfies (bs ">=0.0.0 <=0.0.0-b") (bs "0.0.0-a") = Some true ∧
  text_intersects (bs ">=0.0.0 <=0.0.0-b") (bs ">=0.0.0 <=0.0.0-b") = Some false.
Proof. vm_compute. auto. Qed.

(** Ranges that are not separated: [is_subset_of] is true, and a version
    satisfies the first only. *)
Example is_subset_of_needs_separation :
  text_is_subset (bs ">=0.0.0-a <0.0.0-c") (bs ">=0.0.0 >=0.0.0-b") = Some true ∧
  text_satisfies (bs ">=0.0.0-a <0.0.0-c") (bs "0.0.0-a") = Some true ∧
  text_satisfies (bs ">=0.0.0 >=0.0.0-b") (bs "0.0.0-a") = Some false.
Proof. vm_compute. auto. Qed.

Example is_subset_of_past_the_last_patch :
  let sub := bs ">1.18446744073709551615.18446744073709551615 <2.0.0-b" in
  text_is_subset sub (bs "3.0.0") = Some true ∧
  text_satisfies sub (bs "2.0.0-a") = Some true ∧
  text_satisfies (bs "3.0.0") (bs "2.0.0-a") = Some false.
Proof. vm_compute. auto. Qed.

Definition text_fmt (text : bytes) : option bytes :=
  g ← QParse.parse_text text; Some (Grp.fmt g text).

(** [GroupFormatter] writes every alternative's rest of the OR chain, and joins
    with [&&]; [QueryFormatter] drops a third comparator. *)
Example group_fmt_repeats_alternatives :
  text_fmt (bs "1.2.3 || 4.5.6") = Some (bs "==1.2.3 || ==4.5.6 && ==4.5.6").
Proof. vm_compute. reflexivity. Qed.

Example query_fmt_drops_comparators :
  text_fmt (bs ">1.0.0 <5.0.0 <4.0.0") = Some (bs ">1.0.0 && <5.0.0").
Proof. vm_compute. reflexivity. Qed.

(** Two releases that differ in their build metadata only are not different. *)
Example different_ignores_build_of_releases :
  let v b := mkVersion 1 0 0 (inline_tag [] b) in
  Ver.order (v (bs "a")) (v (bs "b")) [] [] = Lt ∧
  Ver.which_version_is_different (v (bs "a")) (v (bs "b")) [] [] = None.
Proof. vm_compute. auto. Qed.
