(* ===== verification/IntrusiveHeap.v ===== *)
(** * [src/io/heap.rs]: the intrusive pairing heap of the event loop's timers

    The nodes live in a store, a map from addresses to their [IntrusiveField]s;
    every operation is a state transformer of the store, and following a null
    or dangling pointer, or a failing [debug_assert!], is [None]. The key of a
    node never changes while it is in the heap, so [HeapContext::less] is a
    function of the two addresses. *)

From S2P Require Import Prelude.

Abbreviation addr := positive.
(** [*mut T]: null or an address. *)
Abbreviation ptr := (option addr).

Record IntrusiveField := mkField { child : ptr; prev : ptr; next : ptr }.
Definition Field_default : IntrusiveField := mkField None None None.

Abbreviation store := (gmap addr IntrusiveField).

(** ** Stateful code over the store *)

Definition heapM (A : Type) : Type := store → option (A * store).

#[export] Instance heapM_ret : MRet heapM := λ A a h, Some (a, h).
#[export] Instance heapM_bind : MBind heapM := λ A B k m h, '(a, h) ← m h; k a h.

Definition panic {A} : heapM A := λ _, None.

(** The [heap] field of the node behind [p]. *)
Definition field (p : ptr) : heapM IntrusiveField := λ h, l ← p; f ← h !! l; Some (f, h).
Definition store_field (p : ptr) (f : IntrusiveField → IntrusiveField) : heapM unit :=
  λ h, l ← p; f0 ← h !! l; Some (tt, <[l := f f0]> h).
Definition set_child (p q : ptr) : heapM unit := store_field p (λ f, mkField q (prev f) (next f)).
Definition set_prev (p q : ptr) : heapM unit := store_field p (λ f, mkField (child f) q (next f)).
Definition set_next (p q : ptr) : heapM unit := store_field p (λ f, mkField (child f) (prev f) q).

Definition is_null (p : ptr) : bool := match p with None => true | Some _ => false end.
Definition debug_assert (b : bool) : heapM unit := if b then mret tt else panic.
(** [if !p.is_null() { m }] *)
Definition unless_null (p : ptr) (m : heapM unit) : heapM unit := if is_null p then mret tt else m.

(** [Intrusive<T, Context>] without its context. *)
Record Intrusive := mkIntrusive { root : ptr }.

Section heap.
Context (less : addr → addr → bool).

(** [self.context.less(a, b)]; both must be nodes. *)
Definition less_ptr (a b : ptr) : heapM bool :=
  match a, b with Some x, Some y => mret (less x y) | _, _ => panic end.

Definition meld (a b : ptr) : heapM ptr :=
  fa ← field a;
  _ ← debug_assert (is_null (next fa));
  lt ← less_ptr a b;
  if (lt : bool) then
    _ ← set_prev b a;
    fb ← field b;
    let b_next := next fb in
    _ ← unless_null b_next (
          _ ← set_next a b_next;
          _ ← set_prev b_next a;
          set_next b None);
    fa ← field a;
    let a_child := child fa in
    _ ← unless_null a_child (
          _ ← set_next b a_child;
          set_prev a_child b);
    _ ← set_child a b;
    mret a
  else
    fa ← field a;
    _ ← set_prev b (prev fa);
    _ ← set_prev a b;
    fb ← field b;
    let b_child := child fb in
    _ ← unless_null b_child (
          _ ← set_next a b_child;
          set_prev b_child a);
    _ ← set_child b a;
    mret b.

(** "Merge pairs right": the root of the last pair. *)
Fixpoint merge_right (fuel : nat) (a : ptr) : heapM ptr :=
  match fuel with
  | O => panic
  | S fuel =>
      fa ← field a;
      let b := next fa in
      if is_null b then mret a
      else
        _ ← set_next a None;
        b ← meld a b;
        fb ← field b;
        let next_a := next fb in
        if is_null next_a then mret b else merge_right fuel next_a
  end.

(** "Merge pairs left". *)
Fixpoint merge_left (fuel : nat) (root : ptr) : heapM ptr :=
  match fuel with
  | O => panic
  | S fuel =>
      fr ← field root;
      let b := prev fr in
      if is_null b then mret root
      else
        _ ← set_next b None;
        root ← meld b root;
        merge_left fuel root
  end.

(** One round per node at most in each pass. *)
Definition combine_siblings (left : ptr) : heapM ptr := λ h,
  (_ ← set_prev left None;
   root ← merge_right (S (size h)) left;
   merge_left (S (size h)) root) h.

Definition insert (self : Intrusive) (v : ptr) : heapM Intrusive :=
  if negb (is_null (root self)) then
    r ← meld v (root self);
    mret (mkIntrusive r)
  else mret (mkIntrusive v).

Definition peek (self : Intrusive) : ptr := root self.

Definition delete_min (self : Intrusive) : heapM (ptr * Intrusive) :=
  if is_null (root self) then mret (None, self)
  else
    let r := root self in
    fr ← field r;
    new ← (if is_null (child fr) then mret None else combine_siblings (child fr));
    _ ← store_field r (λ _, Field_default);
    mret (r, mkIntrusive new).

(** "Detach v from the tree": its neighbours point past it, and it points nowhere. *)
Definition unlink (v prev v_next : ptr) : heapM unit :=
  _ ← unless_null v_next (set_prev v_next prev);
  fp ← field prev;
  _ ← (if bool_decide (child fp = v) then set_child prev v_next else set_next prev v_next);
  _ ← set_prev v None;
  set_next v None.

Definition remove (self : Intrusive) (v : ptr) : heapM Intrusive :=
  fv ← field v;
  let pv := prev fv in
  if is_null pv then
    _ ← debug_assert (bool_decide (root self = v));
    r ← delete_min self;
    mret (snd r)
  else
    _ ← unlink v pv (next fv);
    fv ← field v;
    let c := child fv in
    if is_null c then mret self
    else
      _ ← set_child v None;
      x ← combine_siblings c;
      r ← meld x (root self);
      mret (mkIntrusive r).

(** The walk of [for_each], one pointer move at a time: at a node to visit, at a
    node whose subtree is done, or climbing to the parent. *)
Inductive Walk := Visit (node : ptr) | After (node : ptr) | Climb (node : ptr).

Fixpoint walk (fuel : nat) (w : Walk) : heapM (list addr) :=
  match fuel with
  | O => panic
  | S fuel =>
      match w with
      | Visit node =>
          f ← field node;
          rest ← walk fuel (if is_null (child f) then After node else Visit (child f));
          mret (match node with Some l => l :: rest | None => rest end)
      | After node =>
          f ← field node;
          walk fuel (if is_null (next f) then Climb node else Visit (next f))
      | Climb node =>
          f ← field node;
          if is_null (prev f) then mret []
          else
            fp ← field (prev f);
            walk fuel (if bool_decide (child fp = node) then After (prev f) else Climb (prev f))
      end
  end.

(** The nodes [f] is called on, in order; at most four moves per node. *)
Definition for_each (self : Intrusive) : heapM (list addr) := λ h,
  if is_null (root self) then Some ([], h) else walk (S (4 * size h)) (Visit (root self)) h.

Definition count (self : Intrusive) : heapM nat :=
  nodes ← for_each self; mret (length nodes).

Definition find_max (self : Intrusive) : heapM ptr :=
  nodes ← for_each self;
  mret (match root self with
        | None => None
        | Some r => Some (fold_left (λ max node, if less max node then node else max) nodes r)
        end).
End heap.

(** What a client's [less] promises the heap: some preorder [before] that it never
    contradicts, on the nodes that are in the order's domain, [before a a]. [less] itself
    may say yes both ways, or no both ways, between nodes that are before each other. *)
Class HeapOrder (less : addr → addr → bool) (before : addr → addr → Prop) : Prop := {
  before_trans a b c : before a b → before b c → before a c;
  less_before a b : before a a → before b b → less a b = true → before a b;
  not_less_before a b : before a a → before b b → less a b = false → before b a;
}.

Example heap_smoke :
  let less a b := (a <? b)%positive in
  let h0 : store := list_to_map (map (λ l, (l, Field_default)) [1; 2; 3; 4; 5; 6; 7]%positive) in
  let run :=
    (s ← foldl (λ m v, s ← m; insert less s (Some v)) (mret (mkIntrusive None)) [4; 2; 7; 1; 6; 3; 5]%positive;
     all ← for_each s;
     s ← remove less s (Some 3%positive);
     r1 ← delete_min less s;
     r2 ← delete_min less (snd r1);
     s ← remove less (snd r2) (Some 6%positive);
     r3 ← delete_min less s;
     rest ← for_each (snd r3);
     n ← count (snd r3);
     mx ← find_max less (snd r3);
     mret (all, fst r1, fst r2, fst r3, rest, n, mx)) in
  fst <$> run h0 = Some ([1; 5; 3; 6; 2; 7; 4], Some 1, Some 2, Some 4, [5; 7], 2%nat, Some 7)%positive.
Proof. vm_compute. reflexivity. Qed.
