(* ===== verification/TimerOrder.v ===== *)
(** * The comparators of the heap's clients

    [src/event_loop/EventLoopTimer.rs] orders the timers of the event loop, and
    [src/install/lifecycle_script_runner.rs] the running scripts of an install. Both
    are instances of the interface [HeapOrder]. [EventLoopTimer::less] is no strict
    order: it says yes both ways between JS timers of equal deadline and epoch, goes
    round in a circle over the range of the epochs, and is not transitive on ties
    with a timer that is not JavaScript's. It never contradicts the deadlines,
    though, and between JS timers whose epochs lie within half the range it never
    contradicts the order in which they were started. *)

From S2P Require Import Prelude IntrusiveHeap.

#[local] Open Scope Z_scope.

(** ** [TimerFlags]: the epoch is its low 25 bits *)

Module TimerFlags.
Definition EPOCH_MASK : Z := Z.shiftl 1 25 - 1.
Definition epoch (flags : Z) : Z := Z.land flags EPOCH_MASK.
Definition set_epoch (flags v : Z) : Z :=
  Z.lor (Z.land flags (Z.lxor (2 ^ 32 - 1) EPOCH_MASK)) (Z.land v EPOCH_MASK).
End TimerFlags.

(** [All::insert]: the next epoch of the program. *)
Definition bump_epoch (epoch : Z) : Z := Z.land (wrap32 (epoch + 1)) (Z.shiftl 1 25 - 1).

(** ** [EventLoopTimer] *)

(** The deadline, and the flags of the object around a JS timer. *)
Record EventLoopTimer := mkTimer { sec : Z; nsec : Z; js_timer_flags : option Z }.

Definition js_timer_epoch (t : EventLoopTimer) : option Z := TimerFlags.epoch <$> js_timer_flags t.

Definition NS_PER_MS : Z := 1000000.
Definition U25_MAX : Z := Z.shiftl 1 25 - 1.

(** The nanoseconds [less] compares: whole milliseconds for a JS timer. *)
Definition compared_ns (t : EventLoopTimer) : Z :=
  if js_timer_epoch t is Some _ then NS_PER_MS * Z.quot (nsec t) NS_PER_MS else nsec t.

(** [EventLoopTimer::less] *)
Definition timer_less (a b : EventLoopTimer) : bool :=
  match sec a ?= sec b with
  | Eq =>
      match compared_ns a ?= compared_ns b with
      | Eq =>
          match js_timer_epoch a, js_timer_epoch b with
          | Some a_epoch, Some b_epoch => Z.land (wrap32 (b_epoch - a_epoch)) U25_MAX <? U25_MAX / 2
          | _, _ => false
          end
      | order => bool_decide (order = Lt)
      end
  | sec_order => bool_decide (sec_order = Lt)
  end.

(** The comparator of [TimerHeapCtx], for timers at addresses. *)
Definition heap_less (timers : addr → EventLoopTimer) (a b : addr) : bool := timer_less (timers a) (timers b).

(** The comparator of [StartedAtCtx]. *)
Definition started_less (started_at : addr → Z) (a b : addr) : bool := started_at a <? started_at b.

(** ** Its three irregularities *)

(** A JS timer is less than itself. *)
Example less_reflexive : let t := mkTimer 5 0 (Some 7) in timer_less t t = true.
Proof. reflexivity. Qed.

(** Three epochs a third of the range apart: each is less than the next one. *)
Example less_cyclic :
  let t e := mkTimer 5 0 (Some e) in
  timer_less (t 0) (t 11184810) = true ∧ timer_less (t 11184810) (t 22369621) = true ∧ timer_less (t 22369621) (t 0) = true.
Proof. vm_compute. auto. Qed.

(** A timer of the runtime ties with two JS timers that do not tie. *)
Example less_ties_with_native :
  let native := mkTimer 5 3000000 None in let js e := mkTimer 5 3200000 (Some e) in
  timer_less (js 2) native = false ∧ timer_less native (js 1) = false
  ∧ timer_less native (js 2) = false ∧ timer_less (js 1) native = false ∧ timer_less (js 2) (js 1) = false.
Proof. vm_compute. auto 10. Qed.

(** ** What it does order *)

(** By the second, then by the nanoseconds compared. *)
Definition deadline_le (a b : EventLoopTimer) : Prop :=
  sec a < sec b ∨ (sec a = sec b ∧ compared_ns a <= compared_ns b).

(** The timers of a heap by their deadlines, whatever they are. *)
#[export] Instance deadline_order timers :
  HeapOrder (heap_less timers) (λ a b, deadline_le (timers a) (timers b)).
Proof.
  split; unfold deadline_le, heap_less, timer_less.
  - lia.
  - intros a b _ _. destruct (Z.compare_spec (sec (timers a)) (sec (timers b))); [|lia|done].
    destruct (Z.compare_spec (compared_ns (timers a)) (compared_ns (timers b))); [lia..|done].
  - intros a b _ _. destruct (Z.compare_spec (sec (timers a)) (sec (timers b))); [|done|lia].
    destruct (Z.compare_spec (compared_ns (timers a)) (compared_ns (timers b))); [lia|done|lia].
Qed.

(** The distance of an epoch from [e0], over the wrap-around. *)
Definition age (e0 e : Z) : Z := (e - e0) mod 2 ^ 25.

(** JS timers started within half the range of epochs from [e0] on. *)
Definition in_window (e0 : Z) (t : EventLoopTimer) : Prop :=
  match js_timer_epoch t with Some e => age e0 e < U25_MAX / 2 | None => False end.

Definition started_le (e0 : Z) (a b : EventLoopTimer) : Prop :=
  match js_timer_epoch a, js_timer_epoch b with Some x, Some y => age e0 x <= age e0 y | _, _ => False end.

(** By the deadline, and with equal ones in the order in which they were started. *)
Definition fires_before (e0 : Z) (a b : EventLoopTimer) : Prop :=
  in_window e0 a ∧ in_window e0 b ∧ deadline_le a b ∧ (deadline_le b a → started_le e0 a b).

Lemma wrapped_distance e0 x y : Z.land (wrap32 (y - x)) U25_MAX = (age e0 y - age e0 x) mod 2 ^ 25.
Proof.
  unfold wrap32, age. change U25_MAX with (Z.ones 25). rewrite Z.land_ones by lia.
  Z.to_euclidean_division_equations; lia.
Qed.

(** Within the window the circle is a line. *)
Lemma epoch_test e0 x y : age e0 x < U25_MAX / 2 → age e0 y < U25_MAX / 2 →
  (Z.land (wrap32 (y - x)) U25_MAX <? U25_MAX / 2) = (age e0 x <=? age e0 y).
Proof.
  intros Hx Hy. rewrite (wrapped_distance e0). change (U25_MAX / 2) with (2 ^ 24 - 1) in *.
  assert (0 <= age e0 x ∧ 0 <= age e0 y) by (unfold age; split; apply Z.mod_pos_bound; lia).
  destruct (Z.leb_spec (age e0 x) (age e0 y)) as [Hle|Hlt].
  - rewrite Z.mod_small by lia. apply Z.ltb_lt. lia.
  - replace (age e0 y - age e0 x) with (age e0 y - age e0 x + 2 ^ 25 + (-1) * 2 ^ 25) by lia.
    rewrite Z.mod_add, Z.mod_small by lia. apply Z.ltb_ge. lia.
Qed.

Lemma less_of_ties e0 a b :
  in_window e0 a → in_window e0 b → deadline_le a b → deadline_le b a →
  timer_less a b = true ∧ started_le e0 a b ∨ timer_less a b = false ∧ started_le e0 b a.
Proof.
  unfold in_window, deadline_le, started_le, timer_less. intros Ha Hb Hab Hba.
  rewrite (proj2 (Z.compare_eq_iff (sec a) (sec b))), (proj2 (Z.compare_eq_iff (compared_ns a) (compared_ns b))) by lia.
  destruct (js_timer_epoch a) as [x|], (js_timer_epoch b) as [y|]; try done. rewrite (epoch_test e0) by done.
  destruct (Z.leb_spec (age e0 x) (age e0 y)); [left|right]; split; [done|lia|done|lia].
Qed.

#[export] Instance fires_before_order timers e0 :
  HeapOrder (heap_less timers) (λ a b, fires_before e0 (timers a) (timers b)).
Proof.
  pose proof (deadline_order timers) as HD. split.
  - intros a b c (Ha & Hb & Hab & Eab) (_ & Hc & Hbc & Ebc). split_and!; [done|done|unfold deadline_le in *; lia|].
    intros Hca. specialize (Eab ltac:(unfold deadline_le in *; lia)). specialize (Ebc ltac:(unfold deadline_le in *; lia)).
    unfold started_le in *.
    destruct (js_timer_epoch (timers a)), (js_timer_epoch (timers b)), (js_timer_epoch (timers c)); lia || done.
  - intros a b (Ha & _ & Hda & _) (Hb & _ & Hdb & _) Hl. pose proof (less_before a b Hda Hdb Hl) as Hd.
    split_and!; [done|done|done|]. intros Hba.
    destruct (less_of_ties e0 (timers a) (timers b)) as [[_ ?]|[Hf _]]; [done..|]. unfold heap_less in Hl. congruence.
  - intros a b (Ha & _ & Hda & _) (Hb & _ & Hdb & _) Hl. pose proof (not_less_before a b Hda Hdb Hl) as Hd.
    split_and!; [done|done|done|]. intros Hba.
    destruct (less_of_ties e0 (timers a) (timers b)) as [[Ht _]|[_ ?]]; [done..| |done]. unfold heap_less in Hl. congruence.
Qed.

#[export] Instance started_at_order started_at :
  HeapOrder (started_less started_at) (λ a b, started_at a <= started_at b).
Proof. split; unfold started_less; lia. Qed.

(** ** The epochs the program hands out *)

Lemma set_epoch_read flags v : TimerFlags.epoch (TimerFlags.set_epoch flags v) = v mod 2 ^ 25.
Proof.
  unfold TimerFlags.epoch, TimerFlags.set_epoch. rewrite Z.land_lor_distr_l, <- !Z.land_assoc.
  change (Z.land (Z.lxor (2 ^ 32 - 1) TimerFlags.EPOCH_MASK) TimerFlags.EPOCH_MASK) with 0.
  change (Z.land TimerFlags.EPOCH_MASK TimerFlags.EPOCH_MASK) with (Z.ones 25).
  by rewrite Z.land_0_r, Z.lor_0_l, Z.land_ones by lia.
Qed.

Lemma bump_epoch_iter n e0 : 0 <= e0 < 2 ^ 25 → Nat.iter n bump_epoch e0 = (e0 + Z.of_nat n) mod 2 ^ 25.
Proof.
  intros He. induction n as [|n IH]; [cbn; rewrite Z.mod_small; lia|].
  rewrite Nat.iter_succ, IH. unfold bump_epoch, wrap32. change (Z.shiftl 1 25 - 1) with (Z.ones 25).
  rewrite Z.land_ones by lia. rewrite (Z.mod_small _ (2 ^ 32)) by (pose proof (Z.mod_pos_bound (e0 + Z.of_nat n) (2 ^ 25)); lia).
  rewrite Zplus_mod_idemp_l. f_equal. lia.
Qed.

(** A JS timer started [n] insertions after the epoch [e0] is in its window while [n] is
    below half the range, and its age is [n]. *)
Lemma started_in_window flags s ns n e0 :
  0 <= e0 < 2 ^ 25 → Z.of_nat n < U25_MAX / 2 →
  let t := mkTimer s ns (Some (TimerFlags.set_epoch flags (Nat.iter n bump_epoch e0))) in
  in_window e0 t ∧ ∃ e, js_timer_epoch t = Some e ∧ age e0 e = Z.of_nat n.
Proof.
  intros He Hn t. change (U25_MAX / 2) with (2 ^ 24 - 1) in *.
  assert (Ha : js_timer_epoch t = Some ((e0 + Z.of_nat n) mod 2 ^ 25)).
  { unfold js_timer_epoch. cbn. by rewrite set_epoch_read, bump_epoch_iter, Z.mod_mod by lia. }
  assert (Hg : age e0 ((e0 + Z.of_nat n) mod 2 ^ 25) = Z.of_nat n).
  { unfold age. rewrite Zminus_mod_idemp_l. replace (e0 + Z.of_nat n - e0) with (Z.of_nat n) by lia. apply Z.mod_small. lia. }
  split; [|by eexists]. unfold in_window. rewrite Ha, Hg. change (U25_MAX / 2) with (2 ^ 24 - 1). lia.
Qed.
