(* ===== verification/IntrusiveHeapFacts.v ===== *)
(** * The pairing heap implements a priority queue

    A store represents a forest in left-child right-sibling form: [sibs] says
    that the nodes of a sibling list are doubly linked, that the first one
    points back at its parent, and so on below. Every pointer operation is
    shown to be the corresponding operation on forests, on the nodes it owns
    only; from that, the heap holds exactly the nodes put in and not taken
    out, and takes the least one out first. *)

From S2P Require Import Prelude IntrusiveHeap TimerOrder.

(** ** Forests *)

Inductive forest := FNil | FNode (l : addr) (children siblings : forest).

Definition head (f : forest) : ptr := match f with FNil => None | FNode l _ _ => Some l end.

Fixpoint locs (f : forest) : list addr :=
  match f with FNil => [] | FNode l cs rest => l :: locs cs ++ locs rest end.

Fixpoint sibs (h : store) (p : ptr) (f : forest) : Prop :=
  match f with
  | FNil => True
  | FNode l cs rest =>
      h !! l = Some (mkField (head cs) p (head rest)) ∧ sibs h (Some l) cs ∧ sibs h (Some l) rest
  end.

(** A tree in place: its root has the links [p] and [n]. *)
Definition owns (h : store) (l : addr) (cs : forest) (p n : ptr) : Prop :=
  h !! l = Some (mkField (head cs) p n) ∧ sibs h (Some l) cs.

Abbreviation tree := (addr * forest)%type.
Definition tlocs (t : tree) : list addr := t.1 :: locs t.2.

(** The store is unchanged but for the nodes [ls]. *)
Definition frame (ls : list addr) (h h' : store) : Prop :=
  dom h' = dom h ∧ ∀ l, l ∉ ls → h' !! l = h !! l.

Lemma frame_refl ls h : frame ls h h.
Proof. done. Qed.

Lemma frame_trans ls h1 h2 h3 : frame ls h1 h2 → frame ls h2 h3 → frame ls h1 h3.
Proof. intros [D1 F1] [D2 F2]. split; [congruence|]. intros l Hl. by rewrite F2, F1. Qed.

Lemma frame_weaken ls ls' h h' : frame ls h h' → (∀ l, l ∈ ls → l ∈ ls') → frame ls' h h'.
Proof. intros [D F] Hs. split; [done|]. intros l Hl. apply F. auto. Qed.

Lemma frame_insert ls h l f g : h !! l = Some g → l ∈ ls → frame ls h (<[l := f]> h).
Proof.
  intros Hl Hin. split.
  - rewrite dom_insert_L. apply elem_of_dom_2 in Hl. set_solver.
  - intros l' Hl'. apply lookup_insert_ne. set_solver.
Qed.

Lemma frame_size ls h h' : frame ls h h' → size h' = size h.
Proof. intros [D _]. by rewrite <- !size_dom, D. Qed.

Lemma sibs_ext h h' p f :
  sibs h p f → (∀ l, l ∈ locs f → h' !! l = h !! l) → sibs h' p f.
Proof.
  revert p. induction f as [|l cs IHc rest IHr]; intros p; cbn; [done|].
  intros (Hl & Hc & Hr) He. rewrite He, Hl by set_solver.
  split_and!; [done|apply IHc; set_solver|apply IHr; set_solver].
Qed.

Lemma sibs_frame h h' ls p f :
  sibs h p f → frame ls h h' → (∀ l, l ∈ locs f → l ∉ ls) → sibs h' p f.
Proof. intros Hs [_ F] Hd. eapply sibs_ext; [done|]. auto. Qed.

(** Pointing the first node of a list back at another node. *)
Lemma sibs_reprev h h' p q l cs rest :
  sibs h p (FNode l cs rest) → NoDup (locs (FNode l cs rest)) →
  h' !! l = Some (mkField (head cs) q (head rest)) →
  (∀ l', l' ∈ locs (FNode l cs rest) → l' ≠ l → h' !! l' = h !! l') →
  sibs h' q (FNode l cs rest).
Proof.
  cbn. rewrite NoDup_cons, not_elem_of_app. intros (_ & Hc & Hr) [[Hn1 Hn2] _] Hl He.
  split_and!; [done|eapply sibs_ext; [done|]|eapply sibs_ext; [done|]];
    intros l' Hl'; apply He; set_solver.
Qed.

(** ** Running stateful code *)

Lemma bind_run {A B} (m : heapM A) (k : A → heapM B) h a h' :
  m h = Some (a, h') → (m ≫= k) h = k a h'.
Proof. intros H. unfold mbind, heapM_bind. by rewrite H. Qed.

Lemma field_run h l f : h !! l = Some f → field (Some l) h = Some (f, h).
Proof. intros H. unfold field. cbn. by rewrite H. Qed.

Lemma store_field_run h l f g : h !! l = Some f → store_field (Some l) g h = Some (tt, <[l := g f]> h).
Proof. intros H. unfold store_field. cbn. by rewrite H. Qed.

(** Look a node up through the writes before it. *)
Ltac look := repeat (first [ rewrite lookup_insert_eq | rewrite lookup_insert_ne by congruence ]); first [ eassumption | reflexivity ].

(** One read or write of a node that is known to be there. *)
Ltac step :=
  first
    [ erewrite bind_run by (first [ apply field_run | unfold set_prev, set_next, set_child; apply store_field_run ]; look)
    | erewrite bind_run by reflexivity ];
  cbv beta iota zeta; cbn [child prev next is_null].

(** A sequence of writes within [ls]. *)
Ltac framed :=
  repeat (eapply frame_trans; [|eapply frame_insert; [look|set_solver]]); apply frame_refl.

Section facts.
Context (less : addr → addr → bool).

(** The tree [meld] builds. *)
Definition link (x y : tree) : tree :=
  if less x.1 y.1 then (x.1, FNode y.1 y.2 x.2) else (y.1, FNode x.1 x.2 y.2).

Lemma link_locs x y : tlocs (link x y) ≡ₚ tlocs x ++ tlocs y.
Proof. unfold link, tlocs. destruct (less x.1 y.1); cbn; solve_Permutation. Qed.

(** What [meld] needs of the right sibling of its second argument. *)
Definition follows (h : store) (b : addr) (nb : ptr) (ls : list addr) : Prop :=
  ∀ n, nb = Some n → n ∉ ls ∧ ∃ c m, h !! n = Some (mkField c (Some b) m).

(** ... and does to it. *)
Definition relinked (h h' : store) (b r : addr) (nb : ptr) : Prop :=
  ∀ n c m, nb = Some n → h !! n = Some (mkField c (Some b) m) → h' !! n = Some (mkField c (Some r) m).

Lemma frame_lookup ls h h' l f : frame ls h h' → l ∉ ls → h !! l = f → h' !! l = f.
Proof. intros [_ F] Hl <-. auto. Qed.

(** [a] takes over the siblings of [b]. *)
Lemma inherit_run h a b fa fb nb ls :
  h !! a = Some fa → h !! b = Some fb → next fa = None → next fb = nb →
  a ≠ b → a ∈ ls → b ∈ ls → follows h b nb ls →
  ∃ h', unless_null nb (_ ← set_next (Some a) nb; _ ← set_prev nb (Some a); set_next (Some b) None) h
          = Some (tt, h') ∧
    h' !! a = Some (mkField (child fa) (prev fa) nb) ∧ h' !! b = Some (mkField (child fb) (prev fb) None) ∧
    relinked h h' b a nb ∧ frame (a :: b :: option_list nb) h h'.
Proof.
  intros Ha Hb Hna Hnb Hab Hal Hbl Hf. destruct nb as [n|]; cbn [unless_null is_null].
  - destruct (Hf n eq_refl) as (Hn & c & m & Hnf).
    assert (n ≠ a ∧ n ≠ b) as [??] by set_solver.
    eexists. split.
    { do 2 step. unfold set_next. apply store_field_run. look. }
    split; [look|]. split; [look|]. split.
    + intros n' c' m' [= <-]. rewrite Hnf. intros [= <- <-]. look.
    + framed.
  - exists h. destruct fa, fb; cbn in *; subst. split_and!; try done.
Qed.

(** [b] becomes the left sibling of the first of [cs]. *)
Lemma adopt_run h b fb p cs :
  h !! b = Some fb → next fb = None → sibs h p cs → b ∉ locs cs → NoDup (locs cs) →
  ∃ h', unless_null (head cs) (_ ← set_next (Some b) (head cs); set_prev (head cs) (Some b)) h
          = Some (tt, h') ∧
    h' !! b = Some (mkField (child fb) (prev fb) (head cs)) ∧ sibs h' (Some b) cs ∧
    frame (b :: locs cs) h h'.
Proof.
  intros Hb Hn Hs Hbc Hnd. destruct cs as [|x xc xr]; cbn [head unless_null is_null].
  - exists h. destruct fb; cbn in *; subst. by split_and!.
  - pose proof Hs as (Hx & _ & _). assert (b ≠ x) by set_solver. eexists. split.
    { step. unfold set_prev. apply store_field_run. look. }
    split; [look|]. split.
    + eapply sibs_reprev; [done|done|look|]. intros l Hl Hlx.
      rewrite !lookup_insert_ne by set_solver. done.
    + framed.
Qed.

Lemma meld_lt h a ca pa b cb pb nb :
  less a b = true → owns h a ca pa None → owns h b cb pb nb → NoDup (tlocs (a, ca) ++ tlocs (b, cb)) →
  follows h b nb (tlocs (a, ca) ++ tlocs (b, cb)) →
  ∃ h', meld less (Some a) (Some b) h = Some (Some a, h') ∧ owns h' a (FNode b cb ca) pa nb ∧
    relinked h h' b a nb ∧ frame ((tlocs (a, ca) ++ tlocs (b, cb)) ++ option_list nb) h h'.
Proof.
  intros Hlt [Ha Hca] [Hb Hcb] Hnd Hn. unfold tlocs in *. cbn [fst snd] in *.
  assert (Hab : a ≠ b) by (intros ->; rewrite NoDup_app in Hnd; set_solver).
  unfold meld. step. step. erewrite bind_run by (cbn; rewrite Hlt; reflexivity). cbv beta iota.
  step. step. set (h1 := <[b := _]> h).
  assert (Hf1 : frame [b] h h1) by (eapply frame_insert; [done|set_solver]).
  destruct (inherit_run h1 a b (mkField (head ca) pa None) (mkField (head cb) (Some a) nb) nb
    ((a :: locs ca) ++ b :: locs cb)) as (h2 & Hr2 & Ha2 & Hb2 & Hn2 & Hf2); try done.
  { unfold h1. look. } { unfold h1. look. } { set_solver. } { set_solver. }
  { intros n E. destruct (Hn n E) as (? & c & m & E'). split; [done|]. exists c, m.
    unfold h1. rewrite lookup_insert_ne by set_solver. done. }
  erewrite bind_run by exact Hr2. cbv beta. step.
  assert (Hf12 : frame (a :: b :: option_list nb) h h2)
    by (eapply frame_trans; [eapply frame_weaken; [done|set_solver]|done]).
  rewrite NoDup_app, !NoDup_cons in Hnd. destruct Hnd as ((Hac & Hnda) & Hd & Hbc & Hndb).
  assert (Hnn : ∀ l, l ∈ locs ca ∨ l ∈ locs cb → l ∉ a :: b :: option_list nb).
  { intros l Hl. destruct nb as [n|]; cbn; [destruct (Hn n eq_refl) as [? _]|]; set_solver. }
  destruct (adopt_run h2 b (mkField (head cb) (Some a) None) (Some a) ca) as (h3 & Hr3 & Hb3 & Hs3 & Hf3);
    try done. { eapply sibs_frame; eauto. } { set_solver. }
  erewrite bind_run by exact Hr3. cbv beta.
  assert (Ha3 : h3 !! a = Some (mkField (head ca) pa nb)) by (eapply frame_lookup; [done|set_solver|done]).
  step. eexists. split; [done|].
  assert (Hf4 : frame [a] h3 (<[a := mkField (Some b) pa nb]> h3)) by framed.
  assert (Hcb4 : sibs (<[a := mkField (Some b) pa nb]> h3) (Some b) cb).
  { eapply sibs_frame; [|exact Hf4|set_solver]. eapply sibs_frame; [|exact Hf3|set_solver].
    eapply sibs_frame; [exact Hcb|exact Hf12|]. eauto. }
  split_and!.
  - split; [look|]. cbn. split_and!; [look|done|]. eapply sibs_frame; [exact Hs3|exact Hf4|set_solver].
  - intros n c m E En. destruct (Hn n E) as [Hnl _].
    eapply frame_lookup; [exact Hf4|set_solver|]. eapply frame_lookup; [exact Hf3|set_solver|].
    apply (Hn2 n); [done|]. unfold h1. rewrite lookup_insert_ne by set_solver. done.
  - eapply frame_trans; [|eapply frame_trans]; eapply frame_weaken;
      [exact Hf12|set_solver|exact Hf3|set_solver|exact Hf4|set_solver].
Qed.

Lemma meld_ge h a ca pa b cb pb nb :
  less a b = false → owns h a ca pa None → owns h b cb pb nb → NoDup (tlocs (a, ca) ++ tlocs (b, cb)) →
  ∃ h', meld less (Some a) (Some b) h = Some (Some b, h') ∧ owns h' b (FNode a ca cb) pa nb ∧
    frame (tlocs (a, ca) ++ tlocs (b, cb)) h h'.
Proof.
  intros Hlt [Ha Hca] [Hb Hcb] Hnd. unfold tlocs in *. cbn [fst snd] in *.
  assert (Hab : a ≠ b) by (intros ->; rewrite NoDup_app in Hnd; set_solver).
  rewrite NoDup_app, !NoDup_cons in Hnd. destruct Hnd as ((Hac & Hnda) & Hd & Hbc & Hndb).
  unfold meld. step. step. erewrite bind_run by (cbn; rewrite Hlt; reflexivity). cbv beta iota.
  do 4 step. set (h1 := <[a := _]> _).
  assert (Hf1 : frame [a; b] h h1) by framed.
  destruct (adopt_run h1 a (mkField (head ca) (Some b) None) (Some b) cb) as (h2 & Hr2 & Ha2 & Hs2 & Hf2);
    try done. { unfold h1. look. } { eapply sibs_frame; [done..|set_solver]. } { set_solver. }
  erewrite bind_run by exact Hr2. cbv beta.
  assert (Hb2 : h2 !! b = Some (mkField (head cb) pa nb)).
  { eapply frame_lookup; [exact Hf2|set_solver|]. unfold h1. look. }
  step. eexists. split; [done|].
  assert (Hf3 : frame [b] h2 (<[b := mkField (Some a) pa nb]> h2)) by framed.
  split.
  - split; [look|]. cbn. split_and!; [look| |eapply sibs_frame; [done|exact Hf3|set_solver]].
    eapply sibs_frame; [|exact Hf3|set_solver]. eapply sibs_frame; [|exact Hf2|set_solver].
    eapply sibs_frame; [exact Hca|exact Hf1|set_solver].
  - eapply frame_trans; [|eapply frame_trans]; eapply frame_weaken;
      [exact Hf1|set_solver|exact Hf2|set_solver|exact Hf3|set_solver].
Qed.

(** [meld] puts the linked tree where the two were: the left link of the first,
    the right link of the second, whose next node points back at it. *)
Lemma meld_spec h x px y py ny :
  owns h x.1 x.2 px None → owns h y.1 y.2 py ny → NoDup (tlocs x ++ tlocs y) →
  follows h y.1 ny (tlocs x ++ tlocs y) →
  let r := link x y in
  ∃ h', meld less (Some x.1) (Some y.1) h = Some (Some r.1, h') ∧ owns h' r.1 r.2 px ny ∧
    relinked h h' y.1 r.1 ny ∧ frame ((tlocs x ++ tlocs y) ++ option_list ny) h h'.
Proof.
  destruct x as [a ca], y as [b cb]. cbn [fst snd]. intros Ha Hb Hnd Hf. unfold link. cbn [fst snd].
  destruct (less a b) eqn:E; cbn [fst snd].
  - by eapply meld_lt.
  - destruct (meld_ge h a ca px b cb py ny) as (h' & Hr & Ho & Hfr); try done.
    exists h'. split_and!; try done; [|eapply frame_weaken; [done|set_solver]].
    intros n c m En Hn. destruct (Hf n En) as [Hnl _]. by eapply frame_lookup.
Qed.

(** ** [combine_siblings] *)

(** The trees left behind by the first pass, last one first: only the links to
    the left still matter. *)
Fixpoint stack (h : store) (p : ptr) (ts : list tree) : Prop :=
  match ts with
  | [] => p = None
  | t :: ts => p = Some t.1 ∧ ∃ pr n, owns h t.1 t.2 pr n ∧ stack h pr ts
  end.

Definition all_locs (ts : list tree) : list addr := concat (map tlocs ts).

Lemma all_locs_cons t ts : all_locs (t :: ts) = tlocs t ++ all_locs ts.
Proof. done. Qed.

Lemma owns_frame h h' ls l cs p n :
  owns h l cs p n → frame ls h h' → (∀ x, x ∈ tlocs (l, cs) → x ∉ ls) → owns h' l cs p n.
Proof.
  intros [Hl Hs] Hf Hd. unfold tlocs in Hd. cbn in Hd. split.
  - eapply frame_lookup; [done|set_solver|done].
  - eapply sibs_frame; [done..|set_solver].
Qed.

Lemma stack_ext h h' p ts :
  stack h p ts → (∀ l, l ∈ all_locs ts → h' !! l = h !! l) → stack h' p ts.
Proof.
  revert p. induction ts as [|[l cs] ts IH]; intros p; [done|]. cbn [stack fst snd].
  intros (-> & pr & n & [Hl Hs] & Hst) He. setoid_rewrite all_locs_cons in He.
  setoid_rewrite elem_of_app in He. split; [done|]. exists pr, n. split; [split|apply IH; auto].
  - rewrite He; [done|left]. unfold tlocs. set_solver.
  - eapply sibs_ext; [done|]. intros x Hx. apply He. left. unfold tlocs. set_solver.
Qed.

Lemma stack_frame h h' ls p ts :
  stack h p ts → frame ls h h' → (∀ x, x ∈ all_locs ts → x ∉ ls) → stack h' p ts.
Proof. intros Hst [_ F] Hd. eapply stack_ext; [done|]. auto. Qed.

Fixpoint pairs (f : forest) : list tree :=
  match f with
  | FNil => []
  | FNode a ca FNil => [(a, ca)]
  | FNode a ca (FNode b cb rest) => link (a, ca) (b, cb) :: pairs rest
  end.

Fixpoint merge_all (t : tree) (ts : list tree) : tree :=
  match ts with [] => t | t' :: ts => merge_all (link t' t) ts end.

(** The tree [combine_siblings] builds of the siblings [f]. *)
Definition combined (f : forest) : tree :=
  match rev (pairs f) with [] => (1%positive, FNil) | t :: ts => merge_all t ts end.

Fixpoint roots (f : forest) : nat :=
  match f with FNil => 0 | FNode _ _ rest => S (roots rest) end.

(** One round of the first pass: the first two siblings, cut from the rest, become
    one tree, to which the rest points back. *)
Lemma merge_pair h p l cs b cb rest ts :
  let f := FNode l cs (FNode b cb rest) in
  let h1 := <[l := mkField (head cs) p None]> h in
  let r := link (l, cs) (b, cb) in
  sibs h p f → stack h p ts → NoDup (locs f ++ all_locs ts) →
  ∃ h2, meld less (Some l) (Some b) h1 = Some (Some r.1, h2) ∧ owns h2 r.1 r.2 p (head rest) ∧
    sibs h2 (Some r.1) rest ∧ stack h2 p ts ∧ frame (locs f) h h2 ∧
    NoDup (locs rest ++ all_locs (r :: ts)).
Proof.
  intros f h1 r (Hl & Hcs & Hb & Hcb & Hr) Hst Hnd. set (x := (l, cs)) in *. set (y := (b, cb)) in *.
  assert (Hf1 : frame [l] h h1) by framed.
  assert (Hp : locs f ≡ₚ (tlocs x ++ tlocs y) ++ locs rest) by (unfold tlocs; cbn; solve_Permutation).
  rewrite Hp, <- app_assoc in Hnd. pose proof Hnd as (Hxy & Hd1 & [Hrl [Hd2 Hts]]%NoDup_app)%NoDup_app.
  assert (Hlin : l ∈ tlocs x ++ tlocs y) by (unfold tlocs; set_solver).
  assert (Hlout : ∀ z, z ∈ locs rest ++ all_locs ts → z ∉ [l]).
  { intros z Hz ->%list_elem_of_singleton. by eapply Hd1. }
  pose proof Hxy as ([Hlx _]%NoDup_cons & Hdxy & _)%NoDup_app. cbn [fst snd] in Hlx.
  destruct (meld_spec h1 x p y (Some l) (head rest)) as (h2 & Hm & Ho2 & Hrel & Hf2); try done.
  { split; [unfold h1; look|]. eapply sibs_frame; [exact Hcs|exact Hf1|set_solver]. }
  { eapply owns_frame; [split; done|exact Hf1|]. intros z Hz ->%list_elem_of_singleton.
    eapply Hdxy; [|exact Hz]. unfold tlocs. set_solver. }
  { intros n En. destruct rest as [|n' cn rn]; [done|]. injection En as ->. destruct Hr as (Hn & _).
    split; [intros Hc; eapply Hd1; [exact Hc|cbn; set_solver]|]. eexists _, _.
    eapply frame_lookup; [exact Hf1|apply Hlout; cbn; set_solver|exact Hn]. }
  assert (Hout : ∀ z, z ∈ locs rest ++ all_locs ts → head rest ≠ Some z → h2 !! z = h !! z).
  { intros z Hz Hne. eapply frame_lookup; [exact Hf2| |by eapply frame_lookup; [exact Hf1|by apply Hlout|]].
    rewrite elem_of_app. intros [Hz'|Hz']; [by eapply Hd1|]. destruct (head rest); set_solver. }
  exists h2. split_and!; try done.
  - destruct rest as [|n cn rn]; [done|]. pose proof Hr as (Hn & _).
    eapply (sibs_reprev h); [exact Hr|done| |].
    + apply (Hrel n (head cn) (head rn)); [done|].
      eapply frame_lookup; [exact Hf1|apply Hlout; cbn; set_solver|exact Hn].
    + intros z Hz Hne. apply Hout; [set_solver|]. cbn. congruence.
  - eapply stack_ext; [exact Hst|]. intros z Hz. apply Hout; [set_solver|]. intros E.
    eapply Hd2; [|exact Hz]. destruct rest; cbn in *; simplify_eq. set_solver.
  - eapply frame_trans; eapply frame_weaken; [exact Hf1| |exact Hf2|]; intros z; rewrite Hp.
    + set_solver.
    + destruct rest; cbn [head option_list locs]; set_solver.
  - rewrite all_locs_cons. unfold r. rewrite link_locs.
    eapply NoDup_Permutation_proper; [|exact Hnd]. solve_Permutation.
Qed.

(** Before a round: the siblings [f], the first of which points back at the top
    of the stack [ts]. After the last one: a stack with all of them. *)
Lemma merge_right_spec fuel h p l cs rest ts :
  let f := FNode l cs rest in
  (roots f < fuel)%nat → sibs h p f → stack h p ts → NoDup (locs f ++ all_locs ts) →
  ∃ h' t ts' pr, merge_right less fuel (Some l) h = Some (Some t.1, h') ∧
    rev (pairs f) ++ ts = t :: ts' ∧ owns h' t.1 t.2 pr None ∧ stack h' pr ts' ∧
    frame (locs f) h h'.
Proof.
  revert h p l cs rest ts. induction fuel as [|fuel IH]; intros h p l cs rest ts f Hfu Hs Hst Hnd; [lia|].
  cbn [merge_right]. pose proof Hs as (Hl & Hcs & _). step.
  destruct rest as [|b cb rest].
  { cbn [head is_null]. exists h, (l, cs), ts, p. by split_and!. }
  destruct (merge_pair h p l cs b cb rest ts Hs Hst Hnd) as (h2 & Hm & Ho2 & Hs2 & Hst2 & Hf2 & Hnd2).
  cbn [head is_null]. step. erewrite bind_run by exact Hm. cbv beta. set (r := link _ _) in *.
  pose proof Ho2 as [Hr2 _]. step. destruct rest as [|n cn rn].
  { cbn [head is_null]. exists h2, r, ts, p. by split_and!. }
  cbn [head is_null].
  destruct (IH h2 (Some r.1) n cn rn (r :: ts)) as (h' & t & ts' & pr & Hrun & Hrev & Ho & Hst' & Hf'); try done.
  { unfold f in Hfu. cbn in *. lia. } { split; [done|]. by exists p, (Some n). }
  exists h', t, ts', pr. split_and!; try done.
  - rewrite <- Hrev. unfold f. cbn [pairs rev]. by rewrite <- app_assoc.
  - eapply frame_trans; [exact Hf2|]. eapply frame_weaken; [exact Hf'|]. unfold f. cbn. set_solver.
Qed.

(** The second pass folds the stack into one tree. *)
Lemma merge_left_spec fuel h t p ts :
  (length ts < fuel)%nat → owns h t.1 t.2 p None → stack h p ts → NoDup (tlocs t ++ all_locs ts) →
  let r := merge_all t ts in
  ∃ h', merge_left less fuel (Some t.1) h = Some (Some r.1, h') ∧ owns h' r.1 r.2 None None ∧
    frame (tlocs t ++ all_locs ts) h h'.
Proof.
  revert h t p ts. induction fuel as [|fuel IH]; intros h t p ts Hfu Ho Hst Hnd; [lia|].
  cbn [merge_left]. pose proof Ho as [Hl Hcs]. step. destruct ts as [|[b cb] ts].
  { cbn in Hst. subst p. cbn [is_null merge_all]. exists h. by split_and!. }
  destruct Hst as (-> & pr & n & [Hb Hcb] & Hst). cbn [fst snd is_null merge_all] in *.
  rewrite all_locs_cons in *. set (x := (b, cb)) in *.
  assert (Hp : tlocs t ++ tlocs x ++ all_locs ts ≡ₚ (tlocs x ++ tlocs t) ++ all_locs ts) by solve_Permutation.
  rewrite Hp in Hnd. pose proof Hnd as (Hxt & Hd & Hts)%NoDup_app.
  pose proof Hxt as ([Hbc _]%NoDup_cons & Hdx & _)%NoDup_app. cbn [fst snd] in Hbc.
  assert (Hbx : b ∈ tlocs x) by (unfold tlocs; set_solver).
  step. set (h1 := <[b := _]> h). assert (Hf1 : frame [b] h h1) by framed.
  destruct (meld_spec h1 x pr t (Some b) None) as (h2 & Hm & Ho2 & _ & Hf2); try done.
  { split; [unfold h1; look|]. eapply sibs_frame; [exact Hcb|exact Hf1|set_solver]. }
  { eapply owns_frame; [exact Ho|exact Hf1|]. destruct t. intros z Hz ->%list_elem_of_singleton. by eapply Hdx. }
  erewrite bind_run by exact Hm. cbv beta. cbn [option_list] in Hf2. rewrite app_nil_r in Hf2.
  assert (Hf12 : frame (tlocs x ++ tlocs t) h h2).
  { eapply frame_trans; [|exact Hf2]. eapply frame_weaken; [exact Hf1|set_solver]. }
  destruct (IH h2 (link x t) pr ts) as (h' & Hrun & Ho' & Hf'); try done; [cbn in Hfu; lia| |
    by rewrite link_locs|].
  { eapply stack_frame; [exact Hst|exact Hf12|]. intros z Hz Hz'. by eapply Hd. }
  exists h'. split_and!; try done. eapply frame_trans; eapply frame_weaken; [exact Hf12| |exact Hf'|];
    intros z; rewrite Hp, ?link_locs; set_solver.
Qed.

Lemma merge_all_locs t ts : tlocs (merge_all t ts) ≡ₚ tlocs t ++ all_locs ts.
Proof.
  revert t. induction ts as [|t' ts IH]; intros t; cbn [merge_all]; [by rewrite app_nil_r|].
  rewrite IH, link_locs, all_locs_cons. solve_Permutation.
Qed.

Lemma all_locs_app ts ts' : all_locs (ts ++ ts') = all_locs ts ++ all_locs ts'.
Proof. unfold all_locs. by rewrite map_app, concat_app. Qed.

(** Induction two siblings at a time. *)
Lemma forest_pairs_ind (P : forest → Prop) :
  P FNil → (∀ a ca, P (FNode a ca FNil)) →
  (∀ a ca b cb rest, P rest → P (FNode a ca (FNode b cb rest))) → ∀ f, P f.
Proof.
  intros H0 H1 H2. assert (H : ∀ f, P f ∧ ∀ a ca, P (FNode a ca f)).
  { induction f as [|l cs _ rest [IH1 IH2]]; [auto|]. split; [apply IH2|]. intros. by apply H2. }
  intros f. apply H.
Qed.

Lemma pairs_locs f : all_locs (rev (pairs f)) ≡ₚ locs f.
Proof.
  induction f as [|a ca|a ca b cb rest IH] using forest_pairs_ind; cbn [pairs rev]; [done| |].
  - unfold all_locs, tlocs. cbn. solve_Permutation.
  - rewrite all_locs_app, IH, all_locs_cons. unfold all_locs. cbn [map concat].
    rewrite link_locs. unfold tlocs. cbn [fst snd locs]. solve_Permutation.
Qed.

Lemma pairs_nonempty l cs rest : ∃ t ts, rev (pairs (FNode l cs rest)) = t :: ts.
Proof.
  destruct (rev (pairs (FNode l cs rest))) as [|t ts] eqn:E; [|eauto].
  apply (f_equal length) in E. rewrite length_rev in E. by destruct rest.
Qed.

Lemma combined_locs f : f ≠ FNil → tlocs (combined f) ≡ₚ locs f.
Proof.
  destruct f as [|l cs rest]; [done|]. intros _. unfold combined.
  destruct (pairs_nonempty l cs rest) as (t & ts & E). rewrite E, merge_all_locs, <- all_locs_cons, <- E.
  apply pairs_locs.
Qed.

Lemma roots_le f : (roots f <= length (locs f))%nat.
Proof. induction f; cbn; [lia|]. rewrite length_app. lia. Qed.

Lemma sibs_in_dom h p f l : sibs h p f → l ∈ locs f → is_Some (h !! l).
Proof.
  revert p. induction f as [|x cs IHc rest IHr]; intros p; cbn; [set_solver|].
  intros (Hx & Hc & Hr). rewrite elem_of_cons, elem_of_app. intros [-> |[?|?]]; eauto.
Qed.

Lemma locs_size h p f : sibs h p f → NoDup (locs f) → (length (locs f) <= size h)%nat.
Proof.
  intros Hs Hnd. rewrite <- size_dom, <- (size_list_to_set (C := gset addr)) by done.
  apply subseteq_size. intros l Hl%elem_of_list_to_set. apply elem_of_dom. eauto using sibs_in_dom.
Qed.

Lemma combine_spec h p l cs rest :
  let f := FNode l cs rest in
  sibs h p f → NoDup (locs f) →
  let r := combined f in
  ∃ h', combine_siblings less (Some l) h = Some (Some r.1, h') ∧ owns h' r.1 r.2 None None ∧
    frame (locs f) h h'.
Proof.
  intros f Hs Hnd r. pose proof (locs_size h p f Hs Hnd) as Hsz. pose proof (roots_le f) as Hro.
  unfold combine_siblings. pose proof Hs as (Hl & _ & _). step.
  set (h1 := <[l := _]> h). assert (Hf1 : frame (locs f) h h1) by (unfold f; cbn [locs]; framed).
  assert (Hs1 : sibs h1 None f).
  { eapply sibs_reprev; [exact Hs|done|unfold h1; look|]. intros z _ Hz. unfold h1.
    by rewrite lookup_insert_ne. }
  destruct (merge_right_spec (S (size h)) h1 None l cs rest []) as (h2 & t & ts & pr & Hrun & Hrev & Ho & Hst & Hf2);
    try done; [unfold f in Hro, Hsz; lia|by rewrite app_nil_r|].
  erewrite bind_run by exact Hrun. cbv beta. rewrite app_nil_r in Hrev.
  assert (Hp : tlocs t ++ all_locs ts ≡ₚ locs f).
  { rewrite <- all_locs_cons, <- Hrev. apply pairs_locs. }
  destruct (merge_left_spec (S (size h)) h2 t pr ts) as (h3 & Hrun3 & Ho3 & Hf3); try done.
  { apply Permutation_length in Hp. rewrite length_app in Hp. unfold tlocs in Hp. cbn [length app] in Hp.
    assert (length ts <= length (all_locs ts))%nat; [|lia]. clear.
    induction ts as [|t ts IH]; [done|]. rewrite all_locs_cons, length_app. unfold tlocs. cbn. lia. }
  { by rewrite Hp. }
  exists h3. unfold r, combined. fold f in Hrev. rewrite Hrev. split_and!; try done.
  eapply frame_trans; [exact Hf1|]. eapply frame_trans; [exact Hf2|].
  eapply frame_weaken; [exact Hf3|]. intros z. by rewrite Hp.
Qed.

(** ** The order *)

Context (before : addr → addr → Prop) `{!HeapOrder less before}.

Definition least (l : addr) (ls : list addr) : Prop := ∀ x, x ∈ ls → before l x.

(** A node is before itself, so in the domain of the order, and everything under it. *)
Fixpoint ordered (f : forest) : Prop :=
  match f with FNil => True | FNode l cs rest => least l (l :: locs cs) ∧ ordered cs ∧ ordered rest end.
Definition tordered (t : tree) : Prop := least t.1 (tlocs t) ∧ ordered t.2.

Lemma least_trans a b ls : before a b → least b ls → least a ls.
Proof. intros Hb Hl x Hx. eapply before_trans; [exact Hb|by apply Hl]. Qed.

Lemma least_self a ls : least a (a :: ls) → before a a.
Proof. intros H. apply H, elem_of_cons. by left. Qed.

Lemma least_app a ls ls' : least a ls → least a ls' → least a (ls ++ ls').
Proof. intros H1 H2 x [Hx|Hx]%elem_of_app; auto. Qed.

Lemma link_ordered x y : tordered x → tordered y → tordered (link x y).
Proof.
  intros [Hx Hox] [Hy Hoy]. split.
  - intros z. rewrite link_locs. revert z. unfold link.
    pose proof (least_self _ _ Hx) as Hxx. pose proof (least_self _ _ Hy) as Hyy.
    destruct (less x.1 y.1) eqn:E; apply least_app; cbn [fst]; try done.
    + eapply least_trans; [|exact Hy]. by apply (less_before (less := less)).
    + eapply least_trans; [|exact Hx]. by apply (not_less_before (less := less)).
  - unfold link. by destruct (less x.1 y.1); split_and!.
Qed.

Lemma pairs_ordered f : ordered f → Forall tordered (pairs f).
Proof.
  induction f as [|a ca|a ca b cb rest IH] using forest_pairs_ind; cbn [pairs ordered]; [done| |].
  { intros (Ha & Hca & _). by constructor. }
  intros (Ha & Hca & Hb & Hcb & Hr). constructor; [by apply link_ordered|by apply IH].
Qed.

Lemma merge_all_ordered t ts : tordered t → Forall tordered ts → tordered (merge_all t ts).
Proof.
  intros Ht Hts. revert t Ht. induction Hts as [|t' ts Ht' _ IH]; intros t Ht; cbn; [done|].
  apply IH. by apply link_ordered.
Qed.

Lemma combined_ordered f : f ≠ FNil → ordered f → tordered (combined f).
Proof.
  destruct f as [|l cs rest]; [done|]. intros _ Ho%pairs_ordered%Forall_rev. unfold combined.
  destruct (pairs_nonempty l cs rest) as (t & ts & E). rewrite E in *.
  apply Forall_cons in Ho as [Ht Hts]. by apply merge_all_ordered.
Qed.

(** ** The heap as a set of nodes *)

(** The heap is the tree [t]. *)
Definition heap_at (h : store) (s : Intrusive) (t : option tree) : Prop :=
  match t with
  | None => root s = None
  | Some t => root s = Some t.1 ∧ owns h t.1 t.2 None None ∧ NoDup (tlocs t) ∧ tordered t
  end.

(** The heap holds the nodes [ns]. *)
Definition heap_ok (h : store) (s : Intrusive) (ns : list addr) : Prop :=
  ∃ t, heap_at h s t ∧ from_option tlocs [] t ≡ₚ ns.

Lemma insert_spec h s ns v :
  heap_ok h s ns → h !! v = Some Field_default → v ∉ ns → before v v →
  ∃ s' h', insert less s (Some v) h = Some (s', h') ∧ heap_ok h' s' (v :: ns) ∧ frame (v :: ns) h h'.
Proof.
  intros (t & Hat & Hp) Hv Hvn Hvv. unfold insert.
  assert (Hov : owns h v FNil None None) by done.
  assert (Htv : tordered (v, FNil)) by (split; [by intros x ->%list_elem_of_singleton|done]).
  destruct t as [t|]; cbn in Hat, Hp.
  - destruct Hat as (Hr & Ho & Hnd & Hto). rewrite Hr. cbn [is_null negb].
    assert (Hnd' : NoDup (tlocs (v, FNil) ++ tlocs t)).
    { unfold tlocs at 1. cbn [fst snd locs app]. constructor; [by rewrite Hp|done]. }
    destruct (meld_spec h (v, FNil) None t None None) as (h' & Hm & Ho' & _ & Hf); try done.
    cbn [fst] in Hm. erewrite bind_run by exact Hm. cbv beta. eexists _, h'. split; [done|].
    assert (Hp' : tlocs (v, FNil) ++ tlocs t ≡ₚ v :: ns) by (unfold tlocs at 1; cbn; by rewrite Hp).
    split.
    + exists (Some (link (v, FNil) t)). cbn [from_option]. split; [|by rewrite link_locs].
      cbn [heap_at root]. split_and!; try done; [by rewrite link_locs|by apply link_ordered].
    + eapply frame_weaken; [exact Hf|]. intros x. by rewrite app_nil_r, Hp'.
  - rewrite Hat. cbn [is_null negb]. eexists _, h. split; [done|]. split; [|done].
    exists (Some (v, FNil)). cbn. split; [|unfold tlocs; cbn; by rewrite <- Hp].
    split_and!; try done. unfold tlocs. cbn. apply NoDup_singleton.
Qed.

Lemma combine_child h s t :
  heap_at h s (Some t) →
  ∃ h' t', (if is_null (head t.2) then mret None else combine_siblings less (head t.2)) h
             = Some (fst <$> t', h') ∧
    heap_at h' (mkIntrusive (fst <$> t')) t' ∧ from_option tlocs [] t' ≡ₚ locs t.2 ∧ frame (locs t.2) h h'.
Proof.
  destruct t as [l [|x xc xr]]; intros (Hr & [Hl Hs] & [Hln Hnd]%NoDup_cons & [_ Ho]); cbn [head is_null fst snd] in *.
  - exists h, None. by split_and!.
  - destruct (combine_spec h (Some l) x xc xr Hs Hnd) as (h' & Hrun & Ho' & Hf).
    exists h', (Some (combined (FNode x xc xr))). split_and!; try done.
    + cbn. split_and!; try done; [by rewrite combined_locs|by apply combined_ordered].
    + cbn [from_option]. by rewrite combined_locs.
Qed.

Lemma heap_at_frame h h' ls s t :
  heap_at h s t → frame ls h h' → (∀ x, x ∈ from_option tlocs [] t → x ∉ ls) → heap_at h' s t.
Proof.
  destruct t as [[l cs]|]; cbn; [|done]. intros (Hr & Ho & Hnd & Hto) Hf Hd.
  split_and!; try done. by eapply owns_frame.
Qed.

Lemma delete_min_some h s t :
  heap_at h s (Some t) →
  ∃ t' h', delete_min less s h = Some ((Some t.1, mkIntrusive (fst <$> t')), h') ∧
    heap_at h' (mkIntrusive (fst <$> t')) t' ∧ from_option tlocs [] t' ≡ₚ locs t.2 ∧
    h' !! t.1 = Some Field_default ∧ frame (tlocs t) h h'.
Proof.
  intros Hat. pose proof Hat as (Hr & [Hl Hs] & [Hln Hnd]%NoDup_cons & Hto).
  destruct (combine_child h s t Hat) as (h1 & t' & Hrun & Hat' & Hp & Hf1).
  unfold delete_min. rewrite Hr. cbn [is_null]. step. erewrite bind_run by exact Hrun. cbv beta.
  assert (Hl1 : h1 !! t.1 = Some (mkField (head t.2) None None)) by (by eapply frame_lookup).
  erewrite bind_run by (apply store_field_run; exact Hl1). cbv beta.
  assert (Hf2 : frame [t.1] h1 (<[t.1 := Field_default]> h1)) by framed.
  exists t', (<[t.1 := Field_default]> h1). split_and!; try done; [|look|].
  - eapply heap_at_frame; [exact Hat'|exact Hf2|]. intros x. rewrite Hp. set_solver.
  - eapply frame_trans; eapply frame_weaken; [exact Hf1| |exact Hf2|]; unfold tlocs; set_solver.
Qed.

Lemma delete_min_spec h s ns :
  heap_ok h s ns → ns ≠ [] →
  ∃ m s' h' ns', delete_min less s h = Some ((Some m, s'), h') ∧ ns ≡ₚ m :: ns' ∧ least m ns ∧
    heap_ok h' s' ns' ∧ h' !! m = Some Field_default ∧ frame ns h h'.
Proof.
  intros (t & Hat & Hp) Hne. destruct t as [t|]; cbn in Hp; [|by apply Permutation_nil_l in Hp].
  destruct (delete_min_some h s t Hat) as (t' & h' & Hrun & Hat' & Hp' & Hm & Hf).
  pose proof Hat as (_ & _ & _ & Hto). eexists t.1, _, h', (locs t.2). split_and!; [done|by rewrite <- Hp| |by exists t'|done|].
  - intros x. rewrite <- Hp. apply Hto.
  - eapply frame_weaken; [exact Hf|]. intros x. by rewrite Hp.
Qed.

(** ** [remove] *)

(** The forest without the subtree at [v]. *)
Fixpoint cut (v : addr) (f : forest) : forest :=
  match f with
  | FNil => FNil
  | FNode l cs rest => if decide (l = v) then rest else FNode l (cut v cs) (cut v rest)
  end.

Lemma cut_notin v f : v ∉ locs f → cut v f = f.
Proof.
  induction f as [|l cs IHc rest IHr]; cbn; [done|]. intros Hv. rewrite decide_False by set_solver.
  rewrite IHc, IHr by set_solver. done.
Qed.

Lemma cut_sub v f x : x ∈ locs (cut v f) → x ∈ locs f.
Proof.
  revert x. induction f as [|l cs IHc rest IHr]; intros x; cbn; [done|]. case_decide; cbn; [set_solver|].
  rewrite !elem_of_cons, !elem_of_app. naive_solver.
Qed.

Lemma cut_ordered v f : ordered f → ordered (cut v f).
Proof.
  induction f as [|l cs IHc rest IHr]; cbn; [done|]. intros (Hl & Hc & Hr).
  case_decide; [done|]. cbn. split_and!; auto.
  intros x [->|Hx%cut_sub]%elem_of_cons; apply Hl, elem_of_cons; auto.
Qed.

(** The subtree at [v], and what is left. *)
Lemma find_node h p f v :
  sibs h p f → NoDup (locs f) → ordered f → v ∈ locs f →
  ∃ cs pv nv, owns h v cs pv nv ∧ locs f ≡ₚ tlocs (v, cs) ++ locs (cut v f) ∧ tordered (v, cs).
Proof.
  revert p. induction f as [|l cs IHc rest IHr]; intros p; [set_solver|]. cbn [locs ordered sibs cut].
  intros (Hl & Hc & Hr) [Hn (Hnc & Hd & Hnr)%NoDup_app]%NoDup_cons (Ho & Hoc & Hor) Hv.
  destruct (decide (l = v)) as [->|Hne].
  { exists cs, p, (head rest). by split_and!. }
  rewrite elem_of_cons, elem_of_app in Hv. destruct Hv as [->|[Hv|Hv]]; [done| |].
  - destruct (IHc (Some l)) as (cv & pv & nv & Hov & Hp & Hto); try done. exists cv, pv, nv.
    split_and!; try done. rewrite (cut_notin v rest) by (by apply Hd). cbn [locs]. rewrite Hp. solve_Permutation.
  - destruct (IHr (Some l)) as (cv & pv & nv & Hov & Hp & Hto); try done. exists cv, pv, nv.
    split_and!; try done. rewrite (cut_notin v cs) by (intros ?; by eapply Hd). cbn [locs]. rewrite Hp. solve_Permutation.
Qed.

(** A node is the previous one of the node it points at, and conversely. *)
Lemma down_link h p f l fl w :
  sibs h p f → l ∈ locs f → h !! l = Some fl → child fl = Some w ∨ next fl = Some w →
  w ∈ locs f ∧ ∃ fw, h !! w = Some fw ∧ prev fw = Some l.
Proof.
  revert p. induction f as [|x cs IHc rest IHr]; intros p; [set_solver|]. cbn [locs sibs].
  intros (Hx & Hc & Hr) [->|[Hl|Hl]%elem_of_app]%elem_of_cons Hfl Hw.
  - rewrite Hx in Hfl. injection Hfl as <-. cbn in Hw. destruct Hw as [Hw|Hw].
    + destruct cs as [|y yc yr]; [done|]. injection Hw as ->. destruct Hc as (Hy & _). split; [set_solver|eauto].
    + destruct rest as [|y yc yr]; [done|]. injection Hw as ->. destruct Hr as (Hy & _). split; [set_solver|eauto].
  - destruct (IHc _ Hc Hl Hfl Hw). split; [set_solver|done].
  - destruct (IHr _ Hr Hl Hfl Hw). split; [set_solver|done].
Qed.

Lemma up_link h p f l fl w :
  sibs h p f → l ∈ locs f → h !! l = Some fl → prev fl = Some w →
  (p = Some w ∧ head f = Some l) ∨
  (w ∈ locs f ∧ ∃ fw, h !! w = Some fw ∧ (child fw = Some l ∨ next fw = Some l)).
Proof.
  revert p. induction f as [|x cs IHc rest IHr]; intros p; [set_solver|]. cbn [locs sibs].
  intros (Hx & Hc & Hr) [->|[Hl|Hl]%elem_of_app]%elem_of_cons Hfl Hw.
  - rewrite Hx in Hfl. injection Hfl as <-. by left.
  - right. destruct (IHc _ Hc Hl Hfl Hw) as [[[= ->] Hh]|[? ?]]; [|split; [set_solver|done]].
    split; [set_solver|]. eexists. split; [done|]. by left.
  - right. destruct (IHr _ Hr Hl Hfl Hw) as [[[= ->] Hh]|[? ?]]; [|split; [set_solver|done]].
    split; [set_solver|]. eexists. split; [done|]. by right.
Qed.

(** The links of the other nodes once [v], between [vp] and [vn], is gone. *)
Section cut.
Context (h h' : store) (v : addr) (fv : IntrusiveField).

Definition past (p : ptr) : ptr := if decide (p = Some v) then next fv else p.
Definition back (p : ptr) : ptr := if decide (p = Some v) then prev fv else p.
Definition around (f : IntrusiveField) : IntrusiveField :=
  mkField (past (child f)) (back (prev f)) (past (next f)).

Lemma past_head f : v ∉ locs f → past (head f) = head f.
Proof. intros Hv. unfold past. rewrite decide_False; [done|]. destruct f; cbn in *; [done|]. set_solver. Qed.

Lemma keep_sibs p f :
  v ∉ locs f → sibs h p f → (∀ l, l ∈ locs f → h' !! l = around <$> h !! l) → sibs h' (back p) f.
Proof.
  revert p. induction f as [|l cs IHc rest IHr]; intros p; cbn; [done|].
  intros Hv (Hl & Hc & Hr) He.
  assert (Hb : back (Some l) = Some l) by (unfold back; rewrite decide_False by set_solver; done).
  split_and!.
  - rewrite He, Hl by set_solver. cbn. unfold around. cbn. by rewrite !past_head by set_solver.
  - rewrite <- Hb. apply IHc; [set_solver|done|]. intros x Hx. apply He. set_solver.
  - rewrite <- Hb. apply IHr; [set_solver|done|]. intros x Hx. apply He. set_solver.
Qed.

Lemma cut_head p f : h !! v = Some fv → sibs h p f → head (cut v f) = past (head f).
Proof.
  intros Hv. destruct f as [|l cs rest]; cbn; [done|]. intros (Hl & _). unfold past.
  destruct (decide (l = v)) as [->|Hne].
  - rewrite decide_True by done. rewrite Hv in Hl. injection Hl as Hfv. by rewrite Hfv.
  - rewrite decide_False by congruence. done.
Qed.

Lemma cut_sibs p f :
  h !! v = Some fv → p ≠ Some v → NoDup (locs f) → sibs h p f →
  (∀ l, l ∈ locs (cut v f) → h' !! l = around <$> h !! l) → sibs h' p (cut v f).
Proof.
  intros Hv. revert p. induction f as [|l cs IHc rest IHr]; intros p Hp; [done|]. cbn [locs sibs cut].
  intros [Hn (Hnc & Hd & Hnr)%NoDup_app]%NoDup_cons (Hl & Hc & Hr) He.
  destruct (decide (l = v)) as [->|Hne].
  - rewrite Hv in Hl. injection Hl as Hfv.
    assert (Hb : back (Some v) = p) by (unfold back; by rewrite decide_True, Hfv). rewrite <- Hb.
    apply keep_sibs; [set_solver|done|done].
  - cbn [sibs locs] in *. assert (Some l ≠ Some v) by congruence. split_and!.
    + rewrite He, Hl by set_solver. cbn. unfold around, back. cbn.
      by rewrite decide_False, (cut_head (Some l) cs), (cut_head (Some l) rest) by done.
    + apply IHc; try done. intros x Hx. apply He. set_solver.
    + apply IHr; try done. intros x Hx. apply He. set_solver.
Qed.
End cut.

Lemma links_distinct h p f l fl :
  (∀ w, p = Some w → w ∉ locs f) → sibs h p f → NoDup (locs f) → l ∈ locs f → h !! l = Some fl →
  child fl ≠ Some l ∧ next fl ≠ Some l ∧ (∀ w, child fl = Some w → next fl ≠ Some w) ∧
  (∀ w, next fl = Some w → prev fl ≠ Some w).
Proof.
  revert p. induction f as [|x cs IHc rest IHr]; intros p Hp; [set_solver|]. cbn [locs sibs].
  intros (Hx & Hc & Hr) [Hn (Hnc & Hd & Hnr)%NoDup_app]%NoDup_cons [->|[Hl|Hl]%elem_of_app]%elem_of_cons Hfl.
  - rewrite Hx in Hfl. injection Hfl as <-. cbn [child prev next locs] in *.
    assert (Hh : ∀ g w, head g = Some w → w ∈ locs g) by (intros [] w; cbn; [done|intros [= ->]; set_solver]).
    split_and!; [intros E%Hh; set_solver..| |].
    + intros w E1%Hh E2%Hh. by eapply Hd.
    + intros w E1%Hh E2. eapply Hp; [exact E2|set_solver].
  - eapply IHc; try done. intros w [= ->]. set_solver.
  - eapply IHr; try done. intros w [= ->]. set_solver.
Qed.

Section unlink.
Context (h : store) (f : forest) (v : addr) (cs : forest) (q : addr) (nv : ptr).
Context (Hs : sibs h None f) (Hnd : NoDup (locs f)) (Hv : v ∈ locs f)
  (Ho : owns h v cs (Some q) nv) (Hp : locs f ≡ₚ tlocs (v, cs) ++ locs (cut v f)).

Let fv := mkField (head cs) (Some q) nv.

Lemma unlink_facts :
  v ∉ locs cs ∧ (∀ l, l ∈ locs (cut v f) → l ≠ v ∧ l ∉ locs cs) ∧ q ∈ locs (cut v f) ∧
  (∀ n, nv = Some n → n ≠ v ∧ n ≠ q ∧ n ∉ locs cs ∧ n ∈ locs f).
Proof.
  destruct Ho as [Hfv Hcs]. pose proof Hnd as Hnd'. rewrite Hp in Hnd'.
  apply NoDup_app in Hnd' as ([Hvc _]%NoDup_cons & Hd & _). cbn [fst snd] in Hvc.
  assert (Hcut : ∀ l, l ∈ locs (cut v f) → l ≠ v ∧ l ∉ locs cs).
  { intros l Hl. split; [intros ->|intros Hlc]; (eapply Hd; [|exact Hl]); unfold tlocs; set_solver. }
  destruct (links_distinct h None f v fv) as (D1 & D2 & D3 & D4); try done.
  destruct (up_link h None f v fv q Hs Hv Hfv eq_refl) as [[[=] _]|(Hq & fq & Hfq & Hqv)].
  assert (Hqn : q ≠ v).
  { intros ->. rewrite Hfv in Hfq. injection Hfq as <-. tauto. }
  assert (Hqc : q ∉ locs cs).
  { intros Hqc. destruct (down_link h (Some v) cs q fq v Hcs Hqc Hfq Hqv). done. }
  split_and!; try done.
  - rewrite Hp in Hq. apply elem_of_app in Hq as [[->|Hq]%elem_of_cons|]; done.
  - intros n ->. split_and!.
    + intros ->. done.
    + intros ->. by apply (D4 q).
    + intros Hnc. destruct (down_link h None f v fv n Hs Hv Hfv) as [_ (fn & Hfn & Hpn)]; [by right|].
      destruct (up_link h (Some v) cs n fn v Hcs Hnc Hfn Hpn) as [[_ Hh]|[? _]]; [|done].
      by apply (D3 n).
    + apply (down_link h None f v fv n Hs Hv Hfv). by right.
Qed.

(** No other node points at [v]. *)
Lemma unlink_other l fl :
  l ∈ locs (cut v f) → h !! l = Some fl →
  (l ≠ q → child fl ≠ Some v ∧ next fl ≠ Some v) ∧ (nv ≠ Some l → prev fl ≠ Some v).
Proof.
  intros Hl Hfl. destruct Ho as [Hfv Hcs]. pose proof (cut_sub _ _ _ Hl) as Hlf.
  destruct unlink_facts as (_ & Hcut & _ & _). split.
  - intros Hne. assert (¬ (child fl = Some v ∨ next fl = Some v)) as Hno; [|tauto].
    intros Hno. destruct (down_link h None f l fl v Hs Hlf Hfl Hno) as [_ (fv' & Hfv' & E)].
    rewrite Hfv in Hfv'. injection Hfv' as <-. cbn in E. congruence.
  - intros Hne E. destruct (up_link h None f l fl v Hs Hlf Hfl E) as [[[=] _]|(_ & fv' & Hfv' & E')].
    rewrite Hfv in Hfv'. injection Hfv' as <-. cbn in E'. destruct E' as [E'|E']; [|done].
    destruct (Hcut l Hl) as [_ Hlc]. destruct cs; cbn in *; simplify_eq. set_solver.
Qed.

(** The two writes of [unlink] to the neighbours of [v]. *)
Lemma unlink_next :
  ∃ h1, unless_null nv (set_prev nv (Some q)) h = Some (tt, h1) ∧ frame (option_list nv) h h1 ∧
    ∀ n fn, nv = Some n → h !! n = Some fn → h1 !! n = Some (around v fv fn).
Proof.
  destruct unlink_facts as (Hvc & Hcut & Hq & Hn). destruct Ho as [Hfv _].
  destruct (decide (nv = None)) as [E|[n E]%not_eq_None_Some]; [exists h; by rewrite E|].
  destruct (Hn n E) as (Hnv & Hnq & Hnc & Hnf). destruct (sibs_in_dom h None f n Hs Hnf) as [fn Hfn].
  exists (<[n := mkField (child fn) (Some q) (next fn)]> h). rewrite E. cbn [unless_null is_null].
  split; [unfold set_prev; by rewrite (store_field_run _ _ fn)|].
  split; [cbn [option_list]; framed|]. intros n' fn' [= <-] Hfn'.
  rewrite Hfn in Hfn'. injection Hfn' as <-. rewrite lookup_insert_eq. f_equal.
  assert (Hncut : n ∈ locs (cut v f)) by (rewrite Hp in Hnf; unfold tlocs in Hnf; cbn in Hnf; set_solver).
  destruct (unlink_other n fn Hncut Hfn) as [[E1 E2] _]; [done|].
  destruct (down_link h None f v fv n Hs Hv Hfv) as [_ (g & Hg & E3)]; [by right|].
  rewrite Hfn in Hg. injection Hg as <-. unfold around, past, back. rewrite E3. by repeat case_decide.
Qed.

Lemma unlink_prev h1 fq :
  h !! q = Some fq → h1 !! q = Some fq →
  (if bool_decide (child fq = Some v) then set_child (Some q) nv else set_next (Some q) nv) h1
  = Some (tt, <[q := around v fv fq]> h1).
Proof.
  intros Hfq Hfq1. destruct unlink_facts as (Hvc & Hcut & Hq & Hn). pose proof Ho as [Hfv _].
  pose proof (cut_sub _ _ _ Hq) as Hqf.
  destruct (unlink_other q fq Hq Hfq) as [_ Hback]. specialize (Hback ltac:(intros E; by destruct (Hn q E) as (_ & ? & _))).
  destruct (links_distinct h None f q fq) as (_ & _ & D & _); try done.
  destruct (up_link h None f v fv q Hs Hv Hfv eq_refl) as [[[=] _]|(_ & fq' & Hfq' & Hor)].
  rewrite Hfq in Hfq'. injection Hfq' as <-.
  unfold around, past, back. rewrite (decide_False (P := prev fq = Some v)) by done.
  destruct (bool_decide_reflect (child fq = Some v)) as [Hc|Hc].
  - unfold set_child. rewrite (store_field_run _ _ fq) by done.
    rewrite (decide_True _ _ Hc), decide_False by auto. done.
  - unfold set_next. rewrite (store_field_run _ _ fq) by done.
    rewrite (decide_False _ _ Hc), decide_True by tauto. done.
Qed.

Lemma unlink_spec :
  ∃ h1, unlink (Some v) (Some q) nv h = Some (tt, h1) ∧ h1 !! v = Some (mkField (head cs) None None) ∧
    (∀ l, l ∈ locs cs → h1 !! l = h !! l) ∧
    (∀ l, l ∈ locs (cut v f) → h1 !! l = around v fv <$> h !! l) ∧ frame (locs f) h h1.
Proof.
  destruct unlink_facts as (Hvc & Hcut & Hq & Hn). pose proof Ho as [Hfv Hcs].
  destruct (sibs_in_dom h None f q Hs (cut_sub _ _ _ Hq)) as [fq Hfq].
  destruct (Hcut q Hq) as [Hqv Hqc]. pose proof (cut_sub _ _ _ Hq) as Hqf.
  destruct unlink_next as (h1 & Hr1 & Hf1 & Hn1).
  assert (Hnl : ∀ l, (∀ n, nv = Some n → l ≠ n) → h1 !! l = h !! l).
  { intros l Hl. eapply frame_lookup; [exact Hf1| |done]. destruct nv as [n|]; cbn; [|set_solver].
    specialize (Hl n eq_refl). set_solver. }
  assert (Hq1 : h1 !! q = Some fq) by (rewrite Hnl; [done|]; intros n ->; by destruct (Hn n eq_refl) as (_ & ? & _)).
  assert (Hv1 : h1 !! v = Some fv) by (rewrite Hnl; [done|]; intros n ->; by destruct (Hn n eq_refl) as (? & _)).
  unfold unlink. erewrite bind_run by exact Hr1. cbv beta. step.
  erewrite bind_run by (by apply unlink_prev). cbv beta. unfold fv in Hv1. step.
  eexists. split; [unfold set_next; apply store_field_run; look|]. cbn [child prev next].
  split_and!; [look| | |].
  - intros l Hl. rewrite !lookup_insert_ne by (intros <-; done). apply Hnl. intros n ->.
    destruct (Hn n eq_refl) as (_ & _ & Hnc & _). congruence.
  - intros l Hl. destruct (Hcut l Hl) as [Hlv Hlc]. rewrite !(lookup_insert_ne _ v) by done.
    destruct (decide (l = q)) as [->|Hlq]; [by rewrite lookup_insert_eq, Hfq|].
    rewrite lookup_insert_ne by done. destruct (sibs_in_dom h None f l Hs (cut_sub _ _ _ Hl)) as [fl Hfl].
    rewrite Hfl. cbn. destruct (decide (nv = Some l)) as [E|E]; [by apply (Hn1 l)|].
    rewrite Hnl, Hfl by congruence. f_equal. destruct (unlink_other l fl Hl Hfl) as [H1 H2].
    unfold around, past, back. rewrite !decide_False by (try apply H1; auto). by destruct fl.
  - eapply frame_trans; [eapply frame_weaken; [exact Hf1|]|framed].
    destruct nv as [n|]; cbn; [|set_solver]. intros l ->%list_elem_of_singleton. by apply (Hn n).
Qed.
End unlink.

Lemma prev_some h p f l fl :
  sibs h (Some p) f → l ∈ locs f → h !! l = Some fl → ∃ q, prev fl = Some q.
Proof.
  revert p. induction f as [|x cs IHc rest IHr]; intros p; [set_solver|]. cbn [locs sibs].
  intros (Hx & Hc & Hr) [->|[Hl|Hl]%elem_of_app]%elem_of_cons Hfl; [|eauto..].
  rewrite Hx in Hfl. injection Hfl as <-. by exists p.
Qed.

(** The subtree at [v], detached, is melded back without [v]. *)
Lemma remove_children h s t v cs ls :
  heap_at h s (Some t) → owns h v cs None None → tordered (v, cs) → NoDup (tlocs (v, cs) ++ tlocs t) →
  (∀ x, x ∈ tlocs (v, cs) ++ tlocs t → x ∈ ls) →
  ∃ s' h', (if is_null (head cs) then mret s
            else _ ← set_child (Some v) None; x ← combine_siblings less (head cs);
                 r ← meld less x (root s); mret (mkIntrusive r)) h = Some (s', h') ∧
    heap_ok h' s' (locs cs ++ tlocs t) ∧ h' !! v = Some Field_default ∧ frame ls h h'.
Proof.
  intros Hat [Hv Hcs] [_ Hoc] Hnd Hls. pose proof Hat as (Hr & Ho & Hndt & Hto).
  destruct cs as [|x xc xr]; cbn [head is_null].
  { exists s, h. split_and!; try done. by exists (Some t). }
  set (cs := FNode x xc xr) in *. pose proof Hnd as ([Hvc Hndc]%NoDup_cons & Hd & _)%NoDup_app. cbn [fst snd] in *.
  assert (Hvt : v ∉ tlocs t) by (apply Hd; unfold tlocs; set_solver).
  step. set (h1 := <[v := _]> h). assert (Hf1 : frame [v] h h1) by framed.
  destruct (combine_spec h1 (Some v) x xc xr) as (h2 & Hr2 & Ho2 & Hf2); try done.
  { eapply sibs_frame; [exact Hcs|exact Hf1|set_solver]. }
  erewrite bind_run by exact Hr2. cbv beta. fold cs in Ho2, Hf2. fold cs.
  assert (Hpc : tlocs (combined cs) ≡ₚ locs cs) by (by apply combined_locs). rewrite Hr.
  destruct (meld_spec h2 (combined cs) None t None None) as (h3 & Hr3 & Ho3 & _ & Hf3); try done.
  { destruct t. eapply owns_frame; [eapply owns_frame; [exact Ho|exact Hf1|set_solver]|exact Hf2|].
    intros z Hz Hz'. eapply Hd; [|exact Hz]. unfold tlocs. set_solver. }
  { rewrite Hpc. unfold tlocs at 1 in Hnd. cbn [fst snd app] in Hnd. by apply NoDup_cons in Hnd as [_ ?]. }
  erewrite bind_run by exact Hr3. cbv beta. rewrite app_nil_r in Hf3.
  assert (Hf3' : frame (locs cs ++ tlocs t) h2 h3) by (eapply frame_weaken; [exact Hf3|]; intros z; by rewrite Hpc).
  eexists _, h3. split; [done|]. split_and!.
  - exists (Some (link (combined cs) t)). cbn [from_option heap_at root]. rewrite link_locs, Hpc.
    split; [|done]. split_and!; try done; [|apply link_ordered; [by apply combined_ordered|done]].
    unfold tlocs at 1 in Hnd. cbn [fst snd app] in Hnd. by apply NoDup_cons in Hnd as [_ ?].
  - eapply frame_lookup; [exact Hf3'|set_solver|]. eapply frame_lookup; [exact Hf2|done|]. unfold h1. look.
  - unfold tlocs at 1 in Hls. cbn [fst snd app] in Hls.
    eapply frame_trans; [|eapply frame_trans]; eapply frame_weaken; [exact Hf1| |exact Hf2| |exact Hf3'|]; set_solver.
Qed.

Lemma remove_spec h s ns v :
  heap_ok h s ns → v ∈ ns →
  ∃ s' h' ns', remove less s (Some v) h = Some (s', h') ∧ ns ≡ₚ v :: ns' ∧ heap_ok h' s' ns' ∧
    h' !! v = Some Field_default ∧ frame ns h h'.
Proof.
  intros (t & Hat & Hp) Hv. destruct t as [[r rc]|]; cbn in Hp; [|rewrite <- Hp in Hv; set_solver].
  pose proof Hat as (Hr & [Hfr Hrc] & Hnd & [Hlr Hor]). cbn [fst snd] in *.
  rewrite <- Hp in Hv. unfold remove. destruct (decide (v = r)) as [->|Hne].
  - step. rewrite Hr. erewrite bind_run by (rewrite bool_decide_eq_true_2 by done; reflexivity). cbv beta.
    destruct (delete_min_some h s (r, rc) Hat) as (t' & h' & Hrun & Hat' & Hp' & Hm & Hf).
    erewrite bind_run by exact Hrun. cbv beta. eexists _, h', (locs rc). split; [done|].
    split_and!; [by rewrite <- Hp|by exists t'|done|]. eapply frame_weaken; [exact Hf|]. intros x. by rewrite Hp.
  - apply elem_of_cons in Hv as [?|Hv]; [done|]. cbn [snd] in Hv.
    assert (Hv' : v ∈ locs rc) by done. set (f := FNode r rc FNil).
    assert (Hlf : locs f = tlocs (r, rc)) by (unfold f, tlocs; cbn; by rewrite app_nil_r).
    assert (Hs : sibs h None f) by (by split_and!).
    destruct (find_node h None f v Hs) as (cs & pv & nv & Hov & Hpf & Hto);
      [by rewrite Hlf|by split_and!|rewrite Hlf; unfold tlocs; set_solver|].
    pose proof Hov as [Hfv Hcs]. destruct (prev_some h r rc v _ Hrc Hv' Hfv) as [q Hq]. cbn in Hq. subst pv.
    destruct (unlink_spec h f v cs q nv) as (h1 & Hrun & Hv1 & Hc1 & Hcut & Hf1); try done;
      [by rewrite Hlf|rewrite Hlf; unfold tlocs; set_solver|].
    step. erewrite bind_run by exact Hrun. cbv beta. step.
    assert (Hcf : cut v f = FNode r (cut v rc) FNil) by (unfold f; cbn; by rewrite decide_False by congruence).
    assert (Hs1 : sibs h1 None (cut v f)).
    { eapply (cut_sibs h h1); try done. by rewrite Hlf. }
    assert (Ht : tlocs (r, cut v rc) = locs (cut v f)) by (rewrite Hcf; unfold tlocs; cbn; by rewrite app_nil_r).
    assert (Hndf : NoDup (tlocs (v, cs) ++ tlocs (r, cut v rc))) by (by rewrite Ht, <- Hpf, Hlf).
    destruct (remove_children h1 s (r, cut v rc) v cs (locs f)) as (s' & h' & Hrun' & Hok & Hvd & Hf'); try done.
    + rewrite Hcf in Hs1. destruct Hs1 as (Hr1 & Hc1' & _). cbn [heap_at fst snd].
      split_and!; try done; [by apply NoDup_app in Hndf as (_ & _ & ?)|].
      split; [|by apply cut_ordered].
      intros x [->|Hx%cut_sub]%elem_of_cons; apply Hlr, elem_of_cons; auto.
    + split; [done|]. by eapply sibs_ext.
    + intros x. by rewrite Hpf, Ht.
    + exists s', h', (locs cs ++ tlocs (r, cut v rc)). split; [done|]. split_and!; try done.
      * rewrite <- Hp, <- Hlf, Hpf, Ht. done.
      * eapply frame_weaken; [eapply frame_trans; [exact Hf1|exact Hf']|]. intros x. by rewrite Hlf, Hp.
Qed.

(** ** The walk *)

(** The moves it takes to visit a sibling list and climb back to its first node. *)
Fixpoint moves (f : forest) : nat :=
  match f with
  | FNil => 0
  | FNode _ cs rest =>
      2 + (match cs with FNil => 0 | _ => S (moves cs) end) + (match rest with FNil => 0 | _ => S (moves rest) end)
  end.

Lemma moves_bound f : f ≠ FNil → (S (moves f) <= 4 * length (locs f))%nat.
Proof.
  induction f as [|l cs IHc rest IHr]; [done|]. intros _. cbn [moves locs length]. rewrite length_app.
  destruct cs as [|? ? ?], rest as [|? ? ?]; cbn [locs length] in *; try specialize (IHc ltac:(done));
    try specialize (IHr ltac:(done)); lia.
Qed.

Lemma walk_forest h f : ∀ p l cs rest fuel ns,
  f = FNode l cs rest → sibs h p f → NoDup (locs f) → walk fuel (Climb (Some l)) h = Some (ns, h) →
  walk (moves f + fuel) (Visit (Some l)) h = Some (locs f ++ ns, h).
Proof.
  induction f as [|x xc IHc xr IHr]; intros p l cs rest fuel ns [= <- <- <-] Hs Hnd Hw.
  pose proof Hs as (Hx & Hc & Hr). cbn [locs] in Hnd.
  pose proof Hnd as [Hxn (Hndc & Hd & Hndr)%NoDup_app]%NoDup_cons.
  set (kr := match xr with FNil => 0%nat | _ => S (moves xr) end).
  set (kc := match xc with FNil => 0%nat | _ => S (moves xc) end).
  (* the right siblings *)
  assert (Hafter : walk (S kr + fuel) (After (Some x)) h = Some (locs xr ++ ns, h)).
  { cbn [Nat.add walk]. step. destruct xr as [|y yc yr]; cbn [head is_null]; [done|]. unfold kr.
    replace (S (moves (FNode y yc yr)) + fuel)%nat with (moves (FNode y yc yr) + S fuel)%nat by lia.
    eapply IHr; [done|exact Hr|done|]. destruct Hr as (Hy & _). cbn [walk]. step. step.
    rewrite bool_decide_eq_false_2; [done|]. intros E. destruct xc as [|z zc zr]; [done|].
    injection E as ->. apply (Hd y); apply elem_of_cons; by left. }
  cbn [moves]. fold kc. fold kr. replace (2 + kc + kr + fuel)%nat with (S (kc + (S kr + fuel))) by lia.
  cbn [walk]. step. destruct xc as [|y yc yr]; cbn [head is_null].
  - unfold kc. cbn [Nat.add] in *. erewrite bind_run by exact Hafter. done.
  - assert (Hchild : walk (kc + (S kr + fuel)) (Visit (Some y)) h
      = Some (locs (FNode y yc yr) ++ locs xr ++ ns, h)).
    { unfold kc. replace (S (moves (FNode y yc yr)) + (S kr + fuel))%nat
        with (moves (FNode y yc yr) + S (S kr + fuel))%nat by lia.
      eapply IHc; [done|exact Hc|done|]. destruct Hc as (Hy & _). cbn [walk]. step. step.
      rewrite bool_decide_eq_true_2 by done. exact Hafter. }
    erewrite bind_run by exact Hchild. unfold mret, heapM_ret. cbn [locs app]. by rewrite <- !app_assoc.
Qed.

Lemma for_each_spec h s t : heap_at h s t → for_each s h = Some (from_option tlocs [] t, h).
Proof.
  destruct t as [[r rc]|]; cbn; unfold for_each; [|by intros ->].
  intros (-> & [Hr Hrc] & Hnd & _). cbn [is_null]. set (f := FNode r rc FNil).
  assert (Hlf : locs f = tlocs (r, rc)) by (unfold f, tlocs; cbn; by rewrite app_nil_r).
  assert (Hs : sibs h None f) by (by split_and!).
  assert (Hsz : (S (moves f) <= 4 * size h)%nat).
  { pose proof (moves_bound f ltac:(done)). pose proof (locs_size h None f Hs ltac:(by rewrite Hlf)). lia. }
  replace (S (4 * size h))%nat with (moves f + S (4 * size h - moves f))%nat by lia.
  erewrite (walk_forest h f None r rc FNil _ []); [by rewrite app_nil_r, Hlf|done|done|by rewrite Hlf|].
  cbn [walk]. by step.
Qed.

(** The running maximum of [find_max]. *)
Lemma running_max ns r : before r r → (∀ x, x ∈ ns → before x x) →
  let m := fold_left (λ max node, if less max node then node else max) ns r in
  m ∈ r :: ns ∧ ∀ x, x ∈ r :: ns → before x m.
Proof.
  cbn. intros Hr Hns. assert (Hgen : ∀ seen m, m ∈ seen → (∀ x, x ∈ seen → before x m) →
    let m' := fold_left (λ max node, if less max node then node else max) ns m in
    m' ∈ seen ++ ns ∧ ∀ x, x ∈ seen ++ ns → before x m').
  { induction ns as [|n ns IH]; intros seen m Hm Hmax; cbn; [by rewrite app_nil_r|].
    replace (seen ++ n :: ns) with ((seen ++ [n]) ++ ns) by (by rewrite <- app_assoc).
    assert (Hnn : before n n) by (apply Hns; set_solver). assert (Hmm : before m m) by auto.
    apply IH; [intros x Hx; apply Hns; set_solver|destruct (less m n); set_solver|].
    destruct (less m n) eqn:E; intros x [Hx| ->%list_elem_of_singleton]%elem_of_app; auto.
    - eapply before_trans; [by apply Hmax|]. by apply (less_before (less := less)).
    - by apply (not_less_before (less := less)). }
  apply (Hgen [r]); [set_solver|]. by intros x ->%list_elem_of_singleton.
Qed.

Lemma ordered_domain f x : ordered f → x ∈ locs f → before x x.
Proof.
  induction f as [|l cs IHc rest IHr]; cbn [ordered locs]; [set_solver|].
  intros (Hl & Hc & Hr) [->|[Hx|Hx]%elem_of_app]%elem_of_cons; [by eapply least_self|auto..].
Qed.

Lemma tordered_domain t x : tordered t → x ∈ tlocs t → before x x.
Proof. intros [Hl Ho] [->|Hx]%elem_of_cons; [by eapply least_self|by eapply ordered_domain]. Qed.
End facts.

(** ** The properties *)

(** [insert] on a well-formed heap, of a node that is in no heap and in the domain of
    the order: no null or dangling pointer is followed and no assertion fails, the heap
    then holds exactly the old nodes and the new one, still linked and ordered, and no
    node outside it is touched. *)
Theorem heap_insert less before (HO : HeapOrder less before) h s ns v :
  heap_ok before h s ns → h !! v = Some Field_default → v ∉ ns → before v v →
  ∃ s' h', insert less s (Some v) h = Some (s', h') ∧ heap_ok before h' s' (v :: ns) ∧ frame (v :: ns) h h'.
Proof. by apply insert_spec. Qed.

(** C15. [delete_min], for a comparator [less] that never contradicts some preorder
    [before] on the nodes of the heap ([HeapOrder]; [EventLoopTimer::less] does so for
    the order of the deadlines, and between JS timers whose epochs lie within half
    their range for deadline and start, across the wrap of the epoch): it returns null
    on an empty heap and otherwise a node that is before every node of the heap; the
    heap then holds exactly the other nodes, linked and ordered, the node's own links
    are cleared, no null or dangling pointer is followed and no assertion fails, and
    the two passes of [combine_siblings] end within one round per node. *)
Theorem heap_delete_min less before (HO : HeapOrder less before) h s ns :
  heap_ok before h s ns →
  (ns = [] ∧ delete_min less s h = Some ((None, s), h)) ∨
  (∃ m s' h' ns', delete_min less s h = Some ((Some m, s'), h') ∧ ns ≡ₚ m :: ns' ∧ least before m ns ∧
     heap_ok before h' s' ns' ∧ h' !! m = Some Field_default ∧ frame ns h h').
Proof.
  intros Hok. destruct (decide (ns = [])) as [->|Hne]; [left|right; by apply (delete_min_spec less before)].
  destruct Hok as ([t|] & Hat & Hp); cbn in Hp; [by apply Permutation_nil_r in Hp|].
  unfold delete_min. by rewrite Hat.
Qed.

(** C28. [remove] of any node of a heap that is ordered by a preorder [before] the
    comparator never contradicts ([HeapOrder], as for [delete_min]), wherever the node
    is: its neighbours are relinked around it and its children melded back, the heap
    then holds exactly the other nodes, linked and still ordered by [before], and the
    node's links are cleared, so that it can be inserted again. *)
Theorem heap_remove less before (HO : HeapOrder less before) h s ns v :
  heap_ok before h s ns → v ∈ ns →
  ∃ s' h' ns', remove less s (Some v) h = Some (s', h') ∧ ns ≡ₚ v :: ns' ∧ heap_ok before h' s' ns' ∧
    h' !! v = Some Field_default ∧ frame ns h h'.
Proof. by apply remove_spec. Qed.

(** The walk without recursion visits every node of the heap exactly once
    and ends, changing nothing; so [count] is the number of nodes and
    [find_max] a node that every other one is before. *)
Theorem heap_walk less before (HO : HeapOrder less before) h s ns :
  heap_ok before h s ns →
  (∃ vs, for_each s h = Some (vs, h) ∧ vs ≡ₚ ns) ∧ count s h = Some (length ns, h) ∧
  (ns = [] ∧ find_max less s h = Some (None, h) ∨
   ∃ m, find_max less s h = Some (Some m, h) ∧ m ∈ ns ∧ ∀ x, x ∈ ns → before x m).
Proof.
  intros (t & Hat & Hp). pose proof (for_each_spec before h s t Hat) as Hw.
  split; [eauto|]. split.
  - unfold count. erewrite bind_run by exact Hw. by rewrite Hp.
  - unfold find_max. erewrite bind_run by exact Hw. destruct t as [t|]; cbn [from_option] in *.
    + right. destruct Hat as (-> & _ & _ & Hto). cbv beta.
      assert (Hdom : ∀ x, x ∈ tlocs t → before x x) by (intros x; by eapply tordered_domain).
      destruct (running_max less before (tlocs t) t.1) as [Hin Hmax]; [apply Hdom, elem_of_cons; by left|done|].
      eexists. split; [done|]. setoid_rewrite <- Hp. unfold tlocs at 2 in Hin.
      split; [|intros x Hx; apply Hmax; set_solver].
      apply elem_of_cons in Hin as [-> |Hin]; [unfold tlocs; set_solver|done].
    + left. apply Permutation_nil_l in Hp as ->. by rewrite Hat.
Qed.

(** The next timer of the event loop: none has an earlier deadline, and of the JS timers
    with the same one none was started earlier. *)
Theorem next_timer timers e0 h s ns :
  heap_ok (λ a b, fires_before e0 (timers a) (timers b)) h s ns → ns ≠ [] →
  ∃ m s' h' ns', delete_min (heap_less timers) s h = Some ((Some m, s'), h') ∧ ns ≡ₚ m :: ns' ∧
    (∀ x, x ∈ ns → deadline_le (timers m) (timers x) ∧
       (deadline_le (timers x) (timers m) → started_le e0 (timers m) (timers x))).
Proof.
  intros Hok Hne. destruct (delete_min_spec _ _ h s ns Hok Hne) as (m & s' & h' & ns' & Hrun & Hp & Hl & _).
  exists m, s', h', ns'. split_and!; [done|done|]. intros x Hx. by destruct (Hl x Hx) as (_ & _ & Hd & He).
Qed.

(** Three JS timers of the same millisecond, started around the wrap of the epoch: [1]
    just before it, above [2] just after it; [3] started last and in no heap. *)
Definition sample_timers (a : addr) : EventLoopTimer :=
  match a with
  | 1%positive => mkTimer 5 3700000 (Some (TimerFlags.set_epoch 1073741824 33554431))
  | 2%positive => mkTimer 5 3100000 (Some (TimerFlags.set_epoch 1073741824 0))
  | _ => mkTimer 5 3400000 (Some (TimerFlags.set_epoch 1073741824 1))
  end.

Definition sample_before (a b : addr) : Prop := fires_before 33554430 (sample_timers a) (sample_timers b).

Definition sample_store : store :=
  <[1%positive := mkField (Some 2%positive) None None]>
    (<[2%positive := mkField None (Some 1%positive) None]> {[3%positive := Field_default]}).

Abbreviation sample_root := (mkIntrusive (Some 1%positive)).

(** The comparator says yes to the wrapped epoch, and to a timer and itself. *)
Example sample_less :
  heap_less sample_timers 1 2 = true ∧ heap_less sample_timers 2 1 = false ∧ heap_less sample_timers 1 1 = true.
Proof. by vm_compute. Qed.

Lemma sample_ages (a b : addr) :
  ((a = 1 ∧ b = 1) ∨ (a = 1 ∧ b = 2) ∨ (a = 2 ∧ b = 2) ∨ (a = 3 ∧ b = 3))%positive → sample_before a b.
Proof.
  intros [[-> ->]|[[-> ->]|[[-> ->]|[-> ->]]]]; unfold sample_before, fires_before, in_window, deadline_le, started_le; vm_compute;
    intuition congruence.
Qed.

Lemma sample_heap : heap_ok sample_before sample_store sample_root [1; 2]%positive.
Proof.
  exists (Some (1%positive, FNode 2 FNil FNil)). split; [|done]. cbn. split_and!; try done.
  - unfold tlocs. cbn. repeat (apply NoDup_cons; split; [set_solver|]). apply NoDup_nil_2.
  - split; cbn.
    + intros x [->|[->|[]%elem_of_nil]%elem_of_cons]%elem_of_cons; apply sample_ages; auto.
    + split_and!; try done. intros x ->%list_elem_of_singleton. apply sample_ages. auto.
Qed.

Lemma heap_insert_witness :
  ∃ s' h', insert (heap_less sample_timers) sample_root (Some 3%positive) sample_store = Some (s', h') ∧
    heap_ok sample_before h' s' [3; 1; 2]%positive ∧ frame [3; 1; 2]%positive sample_store h'.
Proof.
  apply (heap_insert (heap_less sample_timers) sample_before _ sample_store sample_root [1; 2]%positive 3%positive);
    [apply sample_heap|vm_compute; reflexivity|set_solver|]. apply sample_ages. auto.
Defined.

(** The timer that comes out is the one started before the wrap. *)
Lemma heap_delete_min_witness :
  ∃ s' h' ns', delete_min (heap_less sample_timers) sample_root sample_store = Some ((Some 1%positive, s'), h') ∧
     [1; 2]%positive ≡ₚ 1%positive :: ns' ∧ least sample_before 1 [1; 2]%positive ∧ heap_ok sample_before h' s' ns' ∧
     h' !! 1%positive = Some Field_default ∧ frame [1; 2]%positive sample_store h'.
Proof.
  destruct (heap_delete_min (heap_less sample_timers) sample_before _ sample_store sample_root [1; 2]%positive sample_heap)
    as [[H _]|(m & s' & h' & ns' & H & Hrest)]; [discriminate H|].
  assert (m = 1%positive) as -> by (vm_compute in H; congruence). exists s', h', ns'. split; [exact H|exact Hrest].
Defined.

Lemma heap_remove_witness :
  ∃ s' h' ns', remove (heap_less sample_timers) sample_root (Some 2%positive) sample_store = Some (s', h') ∧
    [1; 2]%positive ≡ₚ 2%positive :: ns' ∧ heap_ok sample_before h' s' ns' ∧
    h' !! 2%positive = Some Field_default ∧ frame [1; 2]%positive sample_store h'.
Proof.
  apply (heap_remove (heap_less sample_timers) sample_before _ sample_store sample_root [1; 2]%positive 2%positive);
    [apply sample_heap|]. set_solver.
Defined.

Lemma heap_walk_witness :
  (∃ vs, for_each sample_root sample_store = Some (vs, sample_store) ∧ vs ≡ₚ [1; 2]%positive) ∧
  count sample_root sample_store = Some (2%nat, sample_store) ∧
  ([1; 2]%positive = [] ∧ find_max (heap_less sample_timers) sample_root sample_store = Some (None, sample_store) ∨
   ∃ m, find_max (heap_less sample_timers) sample_root sample_store = Some (Some m, sample_store) ∧
     m ∈ [1; 2]%positive ∧ ∀ x, x ∈ [1; 2]%positive → sample_before x m).
Proof.
  apply (heap_walk (heap_less sample_timers) sample_before _ sample_store sample_root [1; 2]%positive).
  apply sample_heap.
Defined.
