(* ===== verification/H2Wire.v ===== *)
(** * [runtime/api/bun/h2/wire.rs] and [settings.rs]: the HTTP/2 wire format

    Frame headers with their registries, the structural validation of an
    inbound header, and SETTINGS payloads. The theorems give the round trip of
    the nine-byte header, what a header that passes validation guarantees to
    the frame handlers, and that settings accepted from the wire stay in range. *)

From S2P Require Import Prelude.

#[local] Open Scope Z_scope.

(** [Result<T, E>]. *)
Inductive result (T E : Type) := Ok (t : T) | Err (e : E).
Arguments Ok {T E} _.
Arguments Err {T E} _.

(** [uN::from_be_bytes] and [z.to_be_bytes()]. *)
Definition be_bytes (l : bytes) : Z := le_bytes (rev l).
Definition to_be_bytes (n : nat) (z : Z) : bytes := rev (to_le_bytes n z).

Definition is_u32 (z : Z) : Prop := 0 <= z < 2 ^ 32.

(** ** Constants and registries *)

Definition CONNECTION_PREFACE : bytes := bs "PRI * HTTP/2.0" ++ [13; 10; 13; 10] ++ bs "SM" ++ [13; 10; 13; 10].
Definition FRAME_HEADER_SIZE : nat := 9.
Definition MAX_FRAME_SIZE_DEFAULT : Z := 16384.
Definition MAX_FRAME_SIZE_LOWER : Z := 16384.
Definition MAX_FRAME_SIZE_UPPER : Z := 16777215.
Definition DEFAULT_WINDOW_SIZE : Z := 65535.
Definition MAX_WINDOW_SIZE : Z := 2147483647.

Inductive FrameType :=
  | Data | Headers | Priority | RstStream | Settings_ | PushPromise | Ping | GoAway
  | WindowUpdate | Continuation | AltSvc | Origin.

#[export] Instance FrameType_eq_dec : EqDecision FrameType.
Proof. solve_decision. Defined.

(** [t as u8]. *)
Definition FrameType_code (t : FrameType) : Z :=
  match t with
  | Data => 0 | Headers => 1 | Priority => 2 | RstStream => 3 | Settings_ => 4 | PushPromise => 5
  | Ping => 6 | GoAway => 7 | WindowUpdate => 8 | Continuation => 9 | AltSvc => 10 | Origin => 12
  end.

Definition FrameType_from_u8 (v : Z) : option FrameType :=
  match v with
  | 0 => Some Data | 1 => Some Headers | 2 => Some Priority | 3 => Some RstStream
  | 4 => Some Settings_ | 5 => Some PushPromise | 6 => Some Ping | 7 => Some GoAway
  | 8 => Some WindowUpdate | 9 => Some Continuation | 10 => Some AltSvc | 12 => Some Origin
  | _ => None
  end.

(** The module [flags]. *)
Module flags.
Definition ACK : Z := 1.
Definition END_STREAM : Z := 1.
Definition END_HEADERS : Z := 4.
Definition PADDED : Z := 8.
Definition PRIORITY : Z := 32.
Definition has (flags mask : Z) : bool := negb (Z.land flags mask =? 0).
End flags.

Inductive ErrorCode :=
  | NoError | ProtocolError | InternalError | FlowControlError | SettingsTimeout | StreamClosed
  | FrameSizeError | RefusedStream | Cancel | CompressionError | ConnectError | EnhanceYourCalm
  | InadequateSecurity | Http11Required.

#[export] Instance ErrorCode_eq_dec : EqDecision ErrorCode.
Proof. solve_decision. Defined.

Definition as_u32 (c : ErrorCode) : Z :=
  match c with
  | NoError => 0 | ProtocolError => 1 | InternalError => 2 | FlowControlError => 3
  | SettingsTimeout => 4 | StreamClosed => 5 | FrameSizeError => 6 | RefusedStream => 7
  | Cancel => 8 | CompressionError => 9 | ConnectError => 10 | EnhanceYourCalm => 11
  | InadequateSecurity => 12 | Http11Required => 13
  end.

(** The module [lib_error]. *)
Module lib_error.
Definition PROTO : Z := -505.
Definition STREAM_CLOSED : Z := -510.
Definition BAD_CLIENT_MAGIC : Z := -903.
Definition FLOODED : Z := -904.
End lib_error.

Inductive SettingId :=
  | HeaderTableSize | EnablePush | MaxConcurrentStreams | InitialWindowSize | MaxFrameSize
  | MaxHeaderListSize | EnableConnectProtocol | NoRfc7540Priorities.

#[export] Instance SettingId_eq_dec : EqDecision SettingId.
Proof. solve_decision. Defined.

Definition SettingId_from_u16 (v : Z) : option SettingId :=
  match v with
  | 1 => Some HeaderTableSize | 2 => Some EnablePush | 3 => Some MaxConcurrentStreams
  | 4 => Some InitialWindowSize | 5 => Some MaxFrameSize | 6 => Some MaxHeaderListSize
  | 8 => Some EnableConnectProtocol | 9 => Some NoRfc7540Priorities
  | _ => None
  end.

(** ** Frame headers *)

Module FrameHeader.
Record t := mk { length : Z; frame_type : Z; flags : Z; stream_id : Z }.

(** [None] is the panic of an index past a short buffer. *)
Definition parse (buf : bytes) : option t :=
  match buf with
  | b0 :: b1 :: b2 :: b3 :: b4 :: b5 :: b6 :: b7 :: b8 :: _ =>
      Some (mk (Z.lor (Z.lor (Z.shiftl b0 16) (Z.shiftl b1 8)) b2) b3 b4
               (Z.land (be_bytes [b5; b6; b7; b8]) 0x7fffffff))
  | _ => None
  end.

(** The nine bytes written to [out]. *)
Definition write (self : t) : bytes :=
  [Z.shiftr (length self) 16 mod 256; Z.shiftr (length self) 8 mod 256; length self mod 256;
   frame_type self; flags self] ++ to_be_bytes 4 (Z.land (stream_id self) 0x7fffffff).

Definition typ (self : t) : option FrameType := FrameType_from_u8 (frame_type self).

(** The ranges of the fields of a header read from the wire. *)
Definition ok (h : t) : Prop :=
  0 <= length h < 2 ^ 24 ∧ is_u8 (frame_type h) ∧ is_u8 (flags h) ∧ 0 <= stream_id h < 2 ^ 31.
End FrameHeader.

Inductive HeaderValidation :=
  | HvOk
  | ConnectionError (code : ErrorCode)
  | StreamError (id : Z) (code : ErrorCode).

Inductive StreamScope := ScopeConnection | ScopeStream | ScopeEither.

Definition stream_scope (t : FrameType) : StreamScope :=
  match t with
  | Settings_ | Ping | GoAway => ScopeConnection
  | Data | Headers | Priority | RstStream | PushPromise | Continuation => ScopeStream
  | WindowUpdate | AltSvc | Origin => ScopeEither
  end.

Definition frame_size_error (hdr : FrameHeader.t) (t : FrameType) : HeaderValidation :=
  let stream_level := negb (FrameHeader.stream_id hdr =? 0) && bool_decide (t = Data) in
  if stream_level then StreamError (FrameHeader.stream_id hdr) FrameSizeError
  else ConnectionError FrameSizeError.

(** The [fixed] lengths of section 6. *)
Definition fixed_length (t : FrameType) : option Z :=
  match t with Priority => Some 5 | RstStream => Some 4 | Ping => Some 8 | WindowUpdate => Some 4 | _ => None end.

Definition validate_header (hdr : FrameHeader.t) (local_max_frame_size : Z) : HeaderValidation :=
  match FrameHeader.typ hdr with
  | None => HvOk
  | Some t =>
      let len := FrameHeader.length hdr in
      let id := FrameHeader.stream_id hdr in
      if local_max_frame_size <? len then frame_size_error hdr t
      else
        let scope_violated :=
          match stream_scope t with
          | ScopeConnection => negb (id =? 0)
          | ScopeStream => id =? 0
          | ScopeEither => false
          end in
        if scope_violated then ConnectionError ProtocolError
        else if (match fixed_length t with Some n => negb (len =? n) | None => false end)
        then frame_size_error hdr t
        else if bool_decide (t = Settings_) && negb (len mod 6 =? 0) then frame_size_error hdr t
        else HvOk
  end.

(** ** [settings.rs] *)

Module Settings.
Record t := mk {
  header_table_size : Z; enable_push : Z; max_concurrent_streams : Z; initial_window_size : Z;
  max_frame_size : Z; max_header_list_size : Z; enable_connect_protocol : Z }.

Definition default : t := mk 4096 1 4294967295 65535 16384 65535 0.

Definition apply (s : t) (id : SettingId) (value : Z) : t :=
  let '(mk hts ep mcs iws mfs mhl ecp) := s in
  match id with
  | HeaderTableSize => mk value ep mcs iws mfs mhl ecp
  | EnablePush => mk hts value mcs iws mfs mhl ecp
  | MaxConcurrentStreams => mk hts ep value iws mfs mhl ecp
  | InitialWindowSize => mk hts ep mcs value mfs mhl ecp
  | MaxFrameSize => mk hts ep mcs iws value mhl ecp
  | MaxHeaderListSize => mk hts ep mcs iws mfs value ecp
  | EnableConnectProtocol => mk hts ep mcs iws mfs mhl value
  | NoRfc7540Priorities => s
  end.

Definition validate_unit (id value : Z) : option ErrorCode :=
  match SettingId_from_u16 id with
  | Some (EnablePush | EnableConnectProtocol | NoRfc7540Priorities) =>
      if 1 <? value then Some ProtocolError else None
  | Some InitialWindowSize => if MAX_WINDOW_SIZE <? value then Some FlowControlError else None
  | Some MaxFrameSize =>
      if (value <? MAX_FRAME_SIZE_LOWER) || (MAX_FRAME_SIZE_UPPER <? value)
      then Some ProtocolError else None
  | _ => None
  end.

(** The unit at [i]: [payload[i]] to [payload[i + 5]], or a panic. *)
Definition unit_at (payload : bytes) (i : nat) : option (Z * Z) :=
  id ← slice_range payload i (i + 2); value ← slice_range payload (i + 2) (i + 6);
  Some (be_bytes id, be_bytes value).

(** [while i + 6 <= payload.len()]; a shorter rest is ignored. *)
Fixpoint validate_loop (fuel : nat) (payload : bytes) (i : nat) : option (option ErrorCode) :=
  if (i + 6 <=? length payload)%nat then
    match fuel with
    | O => None
    | S fuel =>
        '(id, value) ← unit_at payload i;
        match validate_unit id value with
        | Some code => Some (Some code)
        | None => validate_loop fuel payload (i + 6)
        end
    end
  else Some None.

Definition validate_payload (payload : bytes) : option (option ErrorCode) :=
  validate_loop (length payload) payload 0.

(** What the two loops over a payload read: its six-byte units. *)
Fixpoint units (payload : bytes) : list (Z * Z) :=
  match payload with
  | a :: b :: c :: d :: e :: f :: rest => (be_bytes [a; b], be_bytes [c; d; e; f]) :: units rest
  | _ => []
  end.

Fixpoint validate_units (us : list (Z * Z)) : option ErrorCode :=
  match us with
  | [] => None
  | (id, value) :: us =>
      match validate_unit id value with Some code => Some code | None => validate_units us end
  end.

Lemma unit_at_some payload i : (i + 6 <= length payload)%nat →
  ∃ u, unit_at payload i = Some u ∧ units (drop i payload) = u :: units (drop (i + 6) payload).
Proof.
  intros Hl. unfold unit_at. rewrite !slice_range_some by lia. cbn [mbind option_bind].
  eexists. split; [reflexivity|]. unfold slice. rewrite <- !drop_drop.
  assert (Hd : (6 <= length (drop i payload))%nat) by (rewrite length_drop; lia).
  destruct (drop i payload) as [|a [|b [|c [|d [|e [|f rest]]]]]]; cbn [length] in Hd; try lia.
  replace (i + 2 - i)%nat with 2%nat by lia. replace (i + 6 - (i + 2))%nat with 4%nat by lia. reflexivity.
Qed.

Lemma units_short payload i : (length payload < i + 6)%nat → units (drop i payload) = [].
Proof.
  intros Hl. assert (Hd : (length (drop i payload) < 6)%nat) by (rewrite length_drop; lia).
  destruct (drop i payload) as [|a [|b [|c [|d [|e [|f rest]]]]]]; cbn [length] in Hd; try lia; reflexivity.
Qed.

Lemma validate_loop_units fuel payload i : (length payload - i <= fuel)%nat →
  validate_loop fuel payload i = Some (validate_units (units (drop i payload))).
Proof.
  revert i. induction fuel as [|fuel IH]; intros i Hf; cbn [validate_loop];
    destruct (Nat.leb_spec (i + 6) (length payload)) as [Hl|Hl]; try lia; try (by rewrite units_short by lia).
  destruct (unit_at_some payload i Hl) as ([id value] & -> & ->). cbn [mbind option_bind validate_units].
  destruct (validate_unit id value); [done|]. apply IH. lia.
Qed.

Lemma validate_payload_units payload : validate_payload payload = Some (validate_units (units payload)).
Proof. unfold validate_payload. by rewrite validate_loop_units, drop_0 by lia. Qed.

(** What the rest of the engine relies on. *)
Definition ok (s : t) : Prop :=
  is_u32 (header_table_size s) ∧ (enable_push s = 0 ∨ enable_push s = 1) ∧ is_u32 (max_concurrent_streams s) ∧
  0 <= initial_window_size s <= MAX_WINDOW_SIZE ∧
  MAX_FRAME_SIZE_LOWER <= max_frame_size s <= MAX_FRAME_SIZE_UPPER ∧
  is_u32 (max_header_list_size s) ∧ (enable_connect_protocol s = 0 ∨ enable_connect_protocol s = 1).
End Settings.

(** ** Big-endian integers *)

Lemma be_to_be_bytes n z : be_bytes (to_be_bytes n z) = z mod 256 ^ Z.of_nat n.
Proof. unfold be_bytes, to_be_bytes. rewrite rev_involutive. apply le_to_le_bytes. Qed.

Lemma length_to_be_bytes n z : length (to_be_bytes n z) = n.
Proof. unfold to_be_bytes. by rewrite length_rev, length_to_le_bytes. Qed.

Lemma be_bytes_range l : Forall is_u8 l → 0 <= be_bytes l < 256 ^ Z.of_nat (length l).
Proof.
  intros H. unfold be_bytes. rewrite <- length_rev. apply le_bytes_range.
  by apply Forall_rev.
Qed.

Lemma to_be_bytes_u8 n z : Forall is_u8 (to_be_bytes n z).
Proof. apply Forall_rev, to_le_bytes_u8. Qed.

Lemma land_31 z : Z.land z 0x7fffffff = z mod 2 ^ 31.
Proof. change 0x7fffffff with (Z.ones 31). by apply Z.land_ones. Qed.

(** ** Headers on the wire *)

Lemma lor_byte X x : is_u8 x → Z.lor (Z.shiftl X 8) x = x + 256 * X.
Proof.
  intros Hx. apply Z.bits_inj'. intros n Hn.
  rewrite testbit_byte_split, Z.lor_spec, Z.shiftl_spec by done.
  destruct (Z.ltb_spec n 8); [by rewrite Z.testbit_neg_r by lia|].
  rewrite <- (Z.mod_small x (2 ^ 8)) by exact Hx. rewrite Z.mod_pow2_bits_high by lia. apply orb_false_r.
Qed.

Lemma or3 a b c : is_u8 b → is_u8 c →
  Z.lor (Z.lor (Z.shiftl a 16) (Z.shiftl b 8)) c = be_bytes [a; b; c].
Proof.
  intros Hb Hc. unfold be_bytes. cbn [rev app le_bytes].
  change 16 with (8 + 8). rewrite <- Z.shiftl_shiftl, <- Z.shiftl_lor by lia.
  rewrite !lor_byte by done. lia.
Qed.

Lemma split3 n : 0 <= n < 2 ^ 24 →
  be_bytes [Z.shiftr n 16 mod 256; Z.shiftr n 8 mod 256; n mod 256] = n.
Proof.
  intros Hn. unfold be_bytes. cbn [rev app le_bytes].
  rewrite !Z.shiftr_div_pow2 by lia. change (2 ^ 16) with (256 * 256). change (2 ^ 8) with 256.
  rewrite <- Z.div_div by lia. rewrite (Z.mod_small (n / 256 / 256)).
  - pose proof (Z.div_mod n 256). pose proof (Z.div_mod (n / 256) 256). lia.
  - rewrite Z.div_div by lia. split; [apply Z.div_pos; lia|apply Z.div_lt_upper_bound; lia].
Qed.

Lemma join3 a b c : is_u8 a → is_u8 b → is_u8 c →
  let n := be_bytes [a; b; c] in
  Z.shiftr n 16 mod 256 = a ∧ Z.shiftr n 8 mod 256 = b ∧ n mod 256 = c.
Proof.
  unfold is_u8, be_bytes. intros Ha Hb Hc. cbn [rev app le_bytes]. rewrite !Z.shiftr_div_pow2 by lia.
  change (2 ^ 16) with (256 * 256). change (2 ^ 8) with 256. rewrite <- Z.div_div by lia.
  assert (H : ∀ x X, 0 <= x < 256 → (x + 256 * X) / 256 = X ∧ (x + 256 * X) mod 256 = x).
  { intros x X Hx. split; symmetry; [apply (Z.div_unique _ _ _ x)|apply (Z.mod_unique _ _ X)]; lia. }
  destruct (H c (b + 256 * (a + 256 * 0)) Hc) as [-> ->]. destruct (H b (a + 256 * 0) Hb) as [-> ->].
  destruct (H a 0 Ha) as [_ ->]. done.
Qed.

Lemma mod256_u8 z : is_u8 (z mod 256).
Proof. apply Z.mod_pos_bound. lia. Qed.

#[export] Hint Resolve mod256_u8 to_be_bytes_u8 : bun.

(** A header with its reserved bits clear survives writing and parsing, with
    anything after it in the buffer. *)
Lemma parse_write h rest :
  FrameHeader.ok h → FrameHeader.parse (FrameHeader.write h ++ rest) = Some h.
Proof.
  destruct h as [n ty fl id]. intros (Hn & _ & _ & Hid). cbn in Hn, Hid.
  unfold FrameHeader.write. cbn [FrameHeader.length FrameHeader.frame_type FrameHeader.flags FrameHeader.stream_id].
  pose proof (be_to_be_bytes 4 (Z.land id 0x7fffffff)) as Hbe.
  pose proof (length_to_be_bytes 4 (Z.land id 0x7fffffff)) as Hl.
  destruct (to_be_bytes 4 _) as [|b5 [|b6 [|b7 [|b8 [|]]]]]; try discriminate Hl.
  cbn [app FrameHeader.parse]. rewrite Hbe, or3, split3 by auto with bun.
  rewrite !land_31, (Z.mod_small id) by lia. rewrite !(Z.mod_small id); [done| |]; change (256 ^ Z.of_nat 4) with (2 ^ 32); try rewrite Z.mod_small; lia.
Qed.

Lemma length_write h : length (FrameHeader.write h) = FRAME_HEADER_SIZE.
Proof. unfold FrameHeader.write. by rewrite length_app, length_to_be_bytes. Qed.

Lemma parse_total buf : (FRAME_HEADER_SIZE <= length buf)%nat → is_Some (FrameHeader.parse buf).
Proof.
  unfold FRAME_HEADER_SIZE. intros H.
  do 9 (destruct buf as [|? buf]; [cbn in H; lia|]). cbn. eauto.
Qed.

Lemma parse_ok buf h : Forall is_u8 buf → FrameHeader.parse buf = Some h → FrameHeader.ok h.
Proof.
  intros H. do 9 (destruct buf as [|? buf]; [done|]). intros [= <-].
  repeat (let Hx := fresh in inversion_clear H as [|?? Hx H']; rename H' into H). unfold FrameHeader.ok. cbn.
  rewrite or3, land_31 by done. split_and!; try done.
  - apply (be_bytes_range [_; _; _]). by repeat (apply List.Forall_cons || apply List.Forall_nil).
  - apply (be_bytes_range [_; _; _]). by repeat (apply List.Forall_cons || apply List.Forall_nil).
  - apply Z.mod_pos_bound. lia.
  - apply Z.mod_pos_bound. lia.
Qed.

(** ** Validation *)

(** What each handler may assume of a frame whose header was accepted. *)
Lemma validate_header_ok hdr max t :
  validate_header hdr max = HvOk → FrameHeader.typ hdr = Some t →
  FrameHeader.length hdr <= max ∧
  (∀ n, fixed_length t = Some n → FrameHeader.length hdr = n) ∧
  (t = Settings_ → FrameHeader.length hdr mod 6 = 0) ∧
  (stream_scope t = ScopeConnection → FrameHeader.stream_id hdr = 0) ∧
  (stream_scope t = ScopeStream → FrameHeader.stream_id hdr ≠ 0).
Proof.
  unfold validate_header. intros H Ht. rewrite Ht in H. unfold frame_size_error in H.
  destruct (Z.ltb_spec max (FrameHeader.length hdr)); [by case_match|].
  split; [done|].
  destruct (match stream_scope t with ScopeConnection => _ | _ => _ end) eqn:E1; [done|].
  destruct (match fixed_length t with Some _ => _ | None => _ end) eqn:E2; [by case_match|].
  destruct (bool_decide (t = Settings_) && _) eqn:E3; [by case_match|].
  split_and!.
  - intros n Hn. rewrite Hn in E2. apply negb_false_iff in E2. lia.
  - intros ->. cbn in E3. apply negb_false_iff in E3. lia.
  - intros Hs. rewrite Hs in E1. apply negb_false_iff in E1. lia.
  - intros Hs. rewrite Hs in E1. lia.
Qed.

(** ** SETTINGS *)

Lemma units_u32 payload : Forall is_u8 payload →
  Forall (λ u, 0 <= u.1 < 2 ^ 16 ∧ is_u32 u.2) (Settings.units payload).
Proof.
  revert payload. fix IH 1. intros payload H.
  do 6 (destruct payload as [|? payload]; [constructor|]).
  repeat (let Hx := fresh in inversion_clear H as [|?? Hx H']; rename H' into H). cbn [Settings.units]. constructor; [|by apply IH]. split.
  - apply (be_bytes_range [_; _]). by repeat (apply List.Forall_cons || apply List.Forall_nil).
  - apply (be_bytes_range [_; _; _; _]). by repeat (apply List.Forall_cons || apply List.Forall_nil).
Qed.

Lemma validate_units_cons u us :
  Settings.validate_units (u :: us) = None ↔
  Settings.validate_unit u.1 u.2 = None ∧ Settings.validate_units us = None.
Proof. destruct u as [id v]. cbn. case_match; naive_solver. Qed.

(** A unit that passes validation keeps the settings in range. *)
Lemma apply_ok s id v sid :
  Settings.ok s → is_u32 v → Settings.validate_unit id v = None → SettingId_from_u16 id = Some sid →
  Settings.ok (Settings.apply s sid v).
Proof.
  unfold Settings.ok, Settings.validate_unit, is_u32. intros Hs Hv Hval Hid. rewrite Hid in Hval.
  destruct s. destruct sid; cbn in *; repeat case_match; try discriminate; split_and!; lia.
Qed.

Lemma default_ok : Settings.ok Settings.default.
Proof. unfold Settings.ok, is_u32. cbn. unfold MAX_WINDOW_SIZE, MAX_FRAME_SIZE_LOWER, MAX_FRAME_SIZE_UPPER. lia. Qed.

Lemma from_u8_code t : FrameType_from_u8 (FrameType_code t) = Some t.
Proof. by destruct t. Qed.

Lemma code_u8 t : is_u8 (FrameType_code t).
Proof. unfold is_u8. destruct t; cbn; lia. Qed.

#[export] Hint Resolve from_u8_code code_u8 default_ok : bun.

Lemma to_be_31 b5 b6 b7 b8 : is_u8 b5 → is_u8 b6 → is_u8 b7 → is_u8 b8 →
  to_be_bytes 4 (Z.land (Z.land (be_bytes [b5; b6; b7; b8]) 0x7fffffff) 0x7fffffff) = [b5 mod 128; b6; b7; b8].
Proof.
  intros H5 H6 H7 H8. rewrite !land_31, Z.mod_mod by lia. unfold to_be_bytes, be_bytes. cbn [rev app le_bytes].
  change [b5 mod 128; b6; b7; b8] with (rev [b8; b7; b6; b5 mod 128]). f_equal.
  rewrite <- (to_le_le_bytes [b8; b7; b6; b5 mod 128]).
  - cbn [length le_bytes]. f_equal.
    pose proof (Z.div_mod b5 128 ltac:(lia)) as Hd. pose proof (Z.mod_pos_bound b5 128 ltac:(lia)).
    unfold is_u8 in *. symmetry.
    apply (Z.mod_unique _ _ (b5 / 128)); lia.
  - assert (is_u8 (b5 mod 128)) by (pose proof (Z.mod_pos_bound b5 128 ltac:(lia)); unfold is_u8; lia).
    by repeat (apply List.Forall_cons || apply List.Forall_nil).
Qed.

(** What [FrameHeader::write] produces, [FrameHeader::parse] reads back, for
    every header whose length fits 24 bits and whose stream identifier fits 31,
    whatever follows it; and nine bytes that are parsed and written again come
    back unchanged but for the reserved bit, which is cleared. *)
Theorem frame_header_roundtrip h rest buf :
  FrameHeader.ok h → Forall is_u8 buf → length buf = FRAME_HEADER_SIZE →
  FrameHeader.parse (FrameHeader.write h ++ rest) = Some h ∧
  ∃ h', FrameHeader.parse buf = Some h' ∧ FrameHeader.ok h' ∧
    FrameHeader.write h' = alter (λ b, b mod 128) 5%nat buf.
Proof.
  intros Hh Hb Hl. split; [by apply parse_write|].
  destruct (parse_total buf) as [h' Hp]; [by rewrite Hl|]. exists h'. split; [done|]. split; [by eapply parse_ok|].
  do 9 (destruct buf as [|? buf]; [done|]). destruct buf; [|done]. injection Hp as <-.
  repeat (let Hx := fresh in inversion_clear Hb as [|?? Hx H']; rename H' into Hb).
  unfold FrameHeader.write. cbn [FrameHeader.length FrameHeader.frame_type FrameHeader.flags FrameHeader.stream_id].
  rewrite to_be_31, or3 by done. by destruct (join3 z z0 z1) as (-> & -> & ->).
Qed.

Lemma frame_header_roundtrip_witness :
  let h := FrameHeader.mk 0x010203 4 1 0x7abcdef0 in
  let buf := [0; 0; 8; 6; 1; 128; 0; 0; 3] in
  FrameHeader.parse (FrameHeader.write h ++ [1; 2]) = Some h ∧
  ∃ h', FrameHeader.parse buf = Some h' ∧ FrameHeader.ok h' ∧
    FrameHeader.write h' = alter (λ b, b mod 128) 5%nat buf.
Proof.
  intros h buf. apply (frame_header_roundtrip h [1; 2] buf).
  - unfold FrameHeader.ok, is_u8. cbn. lia.
  - apply u8_check. reflexivity.
  - reflexivity.
Defined.
