(* ===== verification/H2Stream.v ===== *)
(** * [runtime/api/bun/h2/stream.rs]: the stream state machine

    [transition] is the table of RFC 9113 section 5.1. Besides the table this
    file has the system of two endpoints that each run it on one stream, with a
    FIFO of frames in flight in each direction, as a step relation; the theorem
    is that no interleaving makes one endpoint reject what the other, following
    the same table, has sent, except for frames that cross a reset. *)

From S2P Require Import Prelude H2Wire.

Inductive State := Idle | Open | ReservedLocal | ReservedRemote | HalfClosedLocal | HalfClosedRemote | Closed.

#[export] Instance State_eq_dec : EqDecision State.
Proof. solve_decision. Defined.

(** [state as u8]. *)
Definition State_code (s : State) : Z :=
  match s with
  | Idle => 1 | Open => 2 | ReservedLocal => 3 | ReservedRemote => 4
  | HalfClosedLocal => 5 | HalfClosedRemote => 6 | Closed => 7
  end%Z.

Inductive Event :=
  | SendHeaders | RecvHeaders | SendHeadersEndStream | RecvHeadersEndStream
  | SendEndStream | RecvEndStream | SendPushPromise | RecvPushPromise | SendRst | RecvRst.

#[export] Instance Event_eq_dec : EqDecision Event.
Proof. solve_decision. Defined.

Inductive TransitionError := TE_Protocol | TE_StreamClosed.

Definition transition (state : State) (ev : Event) : result State TransitionError :=
  match state with
  | Idle =>
      match ev with
      | SendHeaders | RecvHeaders => Ok Open
      | SendHeadersEndStream => Ok HalfClosedLocal
      | RecvHeadersEndStream => Ok HalfClosedRemote
      | SendPushPromise => Ok ReservedLocal
      | RecvPushPromise => Ok ReservedRemote
      | _ => Err TE_Protocol
      end
  | ReservedLocal =>
      match ev with
      | SendHeaders => Ok HalfClosedRemote
      | SendHeadersEndStream => Ok Closed
      | SendRst | RecvRst => Ok Closed
      | _ => Err TE_Protocol
      end
  | ReservedRemote =>
      match ev with
      | RecvHeaders => Ok HalfClosedLocal
      | RecvHeadersEndStream => Ok Closed
      | SendRst | RecvRst => Ok Closed
      | _ => Err TE_Protocol
      end
  | Open =>
      match ev with
      | SendEndStream | SendHeadersEndStream => Ok HalfClosedLocal
      | RecvEndStream | RecvHeadersEndStream => Ok HalfClosedRemote
      | SendRst | RecvRst => Ok Closed
      | SendHeaders | RecvHeaders => Ok Open
      | _ => Err TE_Protocol
      end
  | HalfClosedLocal =>
      match ev with
      | RecvEndStream | RecvHeadersEndStream => Ok Closed
      | RecvHeaders => Ok HalfClosedLocal
      | SendRst | RecvRst => Ok Closed
      | _ => Err TE_Protocol
      end
  | HalfClosedRemote =>
      match ev with
      | SendEndStream | SendHeadersEndStream => Ok Closed
      | SendHeaders => Ok HalfClosedRemote
      | SendRst | RecvRst => Ok Closed
      | RecvEndStream | RecvHeaders | RecvHeadersEndStream => Err TE_StreamClosed
      | _ => Err TE_Protocol
      end
  | Closed =>
      match ev with
      | SendRst | RecvRst => Ok Closed
      | _ => Err TE_StreamClosed
      end
  end.

Definition can_receive_data (state : State) : bool :=
  match state with Open | HalfClosedLocal => true | _ => false end.

(** [if let Ok(next) = transition(s.state, ev) { s.state = next }]: the callers
    that do not raise the error leave the state as it is. *)
Definition advance (s : State) (ev : Event) : State :=
  match transition s ev with Ok s' => s' | Err _ => s end.

(** ** Two endpoints *)

(** The other side's view of a state and of an event. *)
Definition mirror (s : State) : State :=
  match s with
  | ReservedLocal => ReservedRemote | ReservedRemote => ReservedLocal
  | HalfClosedLocal => HalfClosedRemote | HalfClosedRemote => HalfClosedLocal
  | s => s
  end.

Definition is_send (ev : Event) : bool :=
  match ev with SendHeaders | SendHeadersEndStream | SendEndStream | SendPushPromise | SendRst => true | _ => false end.

Definition dual (ev : Event) : Event :=
  match ev with
  | SendHeaders => RecvHeaders | RecvHeaders => SendHeaders
  | SendHeadersEndStream => RecvHeadersEndStream | RecvHeadersEndStream => SendHeadersEndStream
  | SendEndStream => RecvEndStream | RecvEndStream => SendEndStream
  | SendPushPromise => RecvPushPromise | RecvPushPromise => SendPushPromise
  | SendRst => RecvRst | RecvRst => SendRst
  end.

(** One side of a stream: its state, the frames on their way to it, oldest
    first, and whether it has sent RST_STREAM. *)
Record Endpoint := mkEndpoint { st : State; inbox : list Event; did_reset : bool }.

(** [x] sends [ev] to [y]. *)
Definition send (ev : Event) (s' : State) (x y : Endpoint) : Endpoint * Endpoint :=
  (mkEndpoint s' (inbox x) (did_reset x || bool_decide (ev = SendRst)),
   mkEndpoint (st y) (inbox y ++ [dual ev]) (did_reset y)).

(** The initiator of the stream, and the other side, which sends on it only
    once it has heard of it. *)
Inductive sys_step : Endpoint * Endpoint → Endpoint * Endpoint → Prop :=
  | initiator_sends a b ev s' : is_send ev = true → transition (st a) ev = Ok s' →
      sys_step (a, b) (send ev s' a b)
  | responder_sends a b ev s' : is_send ev = true → st b ≠ Idle → transition (st b) ev = Ok s' →
      sys_step (a, b) (let '(b', a') := send ev s' b a in (a', b'))
  | initiator_receives a b ev rest : inbox a = ev :: rest →
      sys_step (a, b) (mkEndpoint (advance (st a) ev) rest (did_reset a), b)
  | responder_receives a b ev rest : inbox b = ev :: rest →
      sys_step (a, b) (a, mkEndpoint (advance (st b) ev) rest (did_reset b)).

Definition new_endpoint : Endpoint := mkEndpoint Idle [] false.

Inductive reachable : Endpoint * Endpoint → Prop :=
  | reach_init : reachable (new_endpoint, new_endpoint)
  | reach_step s s' : reachable s → sys_step s s' → reachable s'.

(** Receiving a sequence of frames that are all accepted. *)
Fixpoint runs (s : State) (evs : list Event) : option State :=
  match evs with
  | [] => Some s
  | ev :: evs => match transition s ev with Ok s' => runs s' evs | Err _ => None end
  end.

Lemma runs_app s l k : runs s (l ++ k) = s' ← runs s l; runs s' k.
Proof. revert s. induction l as [|e l IH]; intros s; cbn; [done|]. by destruct (transition s e). Qed.

Lemma transition_dual s ev s' :
  transition s ev = Ok s' → transition (mirror s) (dual ev) = Ok (mirror s').
Proof. destruct s, ev; cbn; intros [= <-]; done. Qed.

Lemma mirror_mirror s : mirror (mirror s) = s.
Proof. by destruct s. Qed.

Lemma not_idle_again s ev s' : transition s ev = Ok s' → s' ≠ Idle.
Proof. destruct s, ev; cbn; intros [= <-]; done. Qed.

Lemma rst_closes s ev s' : transition s ev = Ok s' → ev = SendRst ∨ ev = RecvRst → s' = Closed.
Proof. intros H [-> | ->]; destruct s; cbn in H; congruence. Qed.

Lemma rst_accepted s : s ≠ Idle → transition s RecvRst = Ok Closed.
Proof. by destruct s. Qed.

(** A send and a receive that are both possible can be made in either order. *)
Lemma diamond s e r s1 s2 :
  s ≠ Idle → is_send e = true → e ≠ SendRst → is_send r = false → r ≠ RecvRst →
  transition s e = Ok s1 → transition s r = Ok s2 →
  ∃ s3, transition s1 r = Ok s3 ∧ transition s2 e = Ok s3.
Proof. destruct s, e, r; cbn; try done; intros; simplify_eq; cbn; eauto. Qed.

Lemma runs_closed q s : runs Closed q = Some s → s = Closed.
Proof. induction q as [|x q IH]; cbn; [by intros [= <-]|]. by destruct x. Qed.

(** A send commutes with everything in flight towards the sender; after a reset
    in flight it changes nothing. *)
Lemma send_past_inbox e q s s1 s' :
  s ≠ Idle → is_send e = true → e ≠ SendRst → Forall (λ r, is_send r = false) q →
  transition s e = Ok s1 → runs s q = Some s' →
  ∃ s1', runs s1 q = Some s1' ∧ (transition s' e = Ok s1' ∨ (s' = Closed ∧ s1' = Closed ∧ RecvRst ∈ q)).
Proof.
  intros Hi He Hr Hq. revert s s1 Hi. induction Hq as [|r q Hsr Hq IH]; intros s s1 Hi Hs Hruns.
  { injection Hruns as <-. eauto. }
  cbn in Hruns. destruct (transition s r) as [s2|] eqn:H2; [|done]. cbn.
  destruct (decide (r = RecvRst)) as [-> |Hne].
  - rewrite rst_accepted in H2 by done. injection H2 as <-.
    rewrite rst_accepted by (by eapply not_idle_again). exists s'. split; [done|]. right.
    apply runs_closed in Hruns as ->. split_and!; [done..|]. left.
  - destruct (diamond s e r s1 s2) as (s3 & H13 & H23); try done. rewrite H13.
    destruct (IH s2 s3) as (s1' & Hr1 & Hor); [by eapply not_idle_again|done|done|].
    exists s1'. split; [done|]. destruct Hor as [|(? & ? & ?)]; [by left|]. right. split_and!; try done. by right.
Qed.

(** ** The invariant of the two endpoints *)

(** Everything on its way to [x] will be accepted, and [x] will then be in state [s]. *)
Definition drains (x : Endpoint) (s : State) : Prop := runs (st x) (inbox x) = Some s.

Definition agree (x y : Endpoint) : Prop :=
  match did_reset x, did_reset y with
  | false, false => RecvRst ∉ inbox x ∧ RecvRst ∉ inbox y ∧ ∃ s, drains x s ∧ drains y (mirror s)
  | true, false => st x = Closed ∧ drains y Closed
  | false, true => st y = Closed ∧ drains x Closed
  | true, true => st x = Closed ∧ st y = Closed
  end.

Definition sys_inv (x y : Endpoint) : Prop :=
  Forall (λ r, is_send r = false) (inbox x) ∧ Forall (λ r, is_send r = false) (inbox y) ∧
  (st x = Idle → inbox x = [] ∧ inbox y = [] ∧ st y = Idle ∧ did_reset x = false ∧ did_reset y = false) ∧
  agree x y.

Lemma agree_sym x y : agree x y → agree y x.
Proof.
  unfold agree. destruct (did_reset x), (did_reset y); try tauto.
  intros (? & ? & s & Hx & Hy). split_and!; [done..|]. exists (mirror s). by rewrite mirror_mirror.
Qed.

Lemma drains_not_idle x s : drains x s → st x ≠ Idle → s ≠ Idle.
Proof.
  unfold drains. generalize (inbox x) as l, (st x) as t. induction l as [|e l IH]; intros t; cbn.
  - by intros [= <-].
  - destruct (transition t e) eqn:E; [|done]. intros H _. eapply IH; [done|by eapply not_idle_again].
Qed.

Lemma drains_snoc x s ev s' :
  drains x s → transition s ev = Ok s' → runs (st x) (inbox x ++ [ev]) = Some s'.
Proof. unfold drains. intros H E. rewrite runs_app, H. cbn. by rewrite E. Qed.

(** A send by either side, the other one being past [Idle] or the peer's initiator. *)
Lemma agree_send ev s' x y :
  is_send ev = true → transition (st x) ev = Ok s' → Forall (λ r, is_send r = false) (inbox x) →
  (st x = Idle → inbox x = []) → agree x y →
  let '(x', y') := send ev s' x y in agree x' y'.
Proof.
  intros Hev Ht Hin Hidle Ha. unfold send, agree, drains in *. cbn [did_reset st inbox].
  destruct (decide (ev = SendRst)) as [-> |Hne].
  - assert (s' = Closed) as -> by (eapply rst_closes; eauto).
    assert (Hni : st x ≠ Idle) by (intros Hi; rewrite Hi in Ht; done).
    rewrite bool_decide_true, orb_true_r by done.
    destruct (did_reset x), (did_reset y); try tauto.
    + split; [done|]. eapply drains_snoc; [apply Ha|done].
    + destruct Ha as (Hnx & Hny & s & Hx & Hy). split; [done|]. eapply drains_snoc; [done|].
      apply rst_accepted. intros E. apply (drains_not_idle x s Hx Hni). by destruct s.
  - rewrite bool_decide_false, orb_false_r by done.
    assert (Hsend : ∀ s, runs (st x) (inbox x) = Some s →
      ∃ s1, runs s' (inbox x) = Some s1 ∧ (transition s ev = Ok s1 ∨ s = Closed ∧ s1 = Closed ∧ RecvRst ∈ inbox x)).
    { intros s Hs. destruct (decide (st x = Idle)) as [Hi|Hni].
      - rewrite Hidle in Hs |- * by done. injection Hs as <-. eauto.
      - by eapply send_past_inbox. }
    destruct (did_reset x), (did_reset y).
    + destruct Ha as [Hx _]. rewrite Hx in Ht. by destruct ev.
    + destruct Ha as [Hx _]. rewrite Hx in Ht. by destruct ev.
    + destruct Ha as [Hy Hx]. split; [done|]. destruct (Hsend _ Hx) as (s1 & -> & [E|(_ & -> & _)]); [|done].
      by destruct ev.
    + destruct Ha as (Hnx & Hny & s & Hx & Hy). destruct (Hsend _ Hx) as (s1 & H1 & [E|(_ & _ & ?)]); [|done].
      split_and!; [done| |].
      * rewrite elem_of_app, list_elem_of_singleton. intros [?|Hd]; [done|]. by destruct ev.
      * exists s1. split; [done|]. eapply drains_snoc; [done|]. by apply transition_dual.
Qed.

Lemma agree_receive x y ev rest :
  inbox x = ev :: rest → agree x y → agree (mkEndpoint (advance (st x) ev) rest (did_reset x)) y.
Proof.
  intros Hi. unfold agree, drains. rewrite Hi. cbn [runs did_reset st inbox]. unfold advance.
  destruct (did_reset x), (did_reset y).
  - intros [-> ->]. split; [|done]. by destruct ev.
  - intros [-> ?]. split; [|done]. by destruct ev.
  - intros [-> H]. split; [done|]. by destruct (transition (st x) ev).
  - intros (Hn & ? & s & Hx & Hy). split_and!; [by intros ?; apply Hn; right|done|].
    exists s. by destruct (transition (st x) ev).
Qed.

Lemma dual_recv ev : is_send ev = true → is_send (dual ev) = false.
Proof. by destruct ev. Qed.

Lemma advance_idle s ev : advance s ev = Idle → s = Idle.
Proof. destruct s, ev; cbn; done. Qed.

Lemma sys_inv_step a b a' b' : sys_inv a b → sys_step (a, b) (a', b') → sys_inv a' b'.
Proof.
  intros (Ha & Hb & Hidle & Hag) Hs. unfold sys_inv. inversion Hs; subst; cbn.
  - pose proof (agree_send ev s' a b) as H. cbn in H. split_and!; [done| | |].
    + apply Forall_app. split; [done|]. apply Forall_singleton. by apply dual_recv.
    + intros Hi. by match goal with H : transition _ _ = Ok _ |- _ => apply not_idle_again in H end.
    + apply H; try done. intros. by apply Hidle.
  - pose proof (agree_send ev s' b a) as H. cbn in H. split_and!; [|done| |].
    + apply Forall_app. split; [done|]. apply Forall_singleton. by apply dual_recv.
    + intros Hi. destruct (Hidle Hi) as (_ & _ & ? & _). done.
    + apply agree_sym, H; try done. by apply agree_sym.
  - split_and!; [|done| |by apply agree_receive].
    + match goal with H : inbox _ = _ |- _ => rewrite H in Ha end. by inversion Ha.
    + intros Hi%advance_idle. destruct (Hidle Hi) as (E & _). congruence.
  - split_and!; [done| | |by apply agree_sym, agree_receive, agree_sym].
    + match goal with H : inbox _ = _ |- _ => rewrite H in Hb end. by inversion Hb.
    + intros Hi. destruct (Hidle Hi) as (_ & E & _). congruence.
Qed.

Lemma reachable_inv a b : reachable (a, b) → sys_inv a b.
Proof.
  remember (a, b) as c eqn:E. intros H. revert a b E. induction H as [|[a0 b0] s' Hr IH Hs]; intros a b E.
  - injection E as <- <-. split_and!; [constructor..|done|].
    split_and!; [set_solver..|by exists Idle].
  - subst. eapply sys_inv_step; eauto.
Qed.

(** What an endpoint rejects it rejects because it has reset the stream itself. *)
Lemma rejects_only_after_reset x y ev rest err :
  agree x y → inbox x = ev :: rest → transition (st x) ev = Err err →
  err = TE_StreamClosed ∧ did_reset x = true.
Proof.
  unfold agree, drains. intros Ha Hi He. rewrite Hi in Ha. cbn [runs] in Ha. rewrite He in Ha.
  destruct (did_reset x), (did_reset y).
  - destruct Ha as [Hc _]. rewrite Hc in He. destruct ev; cbn in He; by simplify_eq.
  - destruct Ha as [Hc _]. rewrite Hc in He. destruct ev; cbn in He; by simplify_eq.
  - by destruct Ha.
  - destruct Ha as (_ & _ & s & ? & _). done.
Qed.

(** C27. The two endpoints of a stream that follow [transition], with any
    interleaving of sends and deliveries: a frame that arrives is accepted,
    unless its receiver has reset the stream, and then it is a
    [StreamClosed] and never a [Protocol] error; when nothing is in flight the
    two states mirror each other, and after a reset both are [Closed]. *)
Theorem stream_endpoints_agree a b :
  reachable (a, b) →
  (∀ ev rest err, inbox a = ev :: rest → transition (st a) ev = Err err →
     err = TE_StreamClosed ∧ did_reset a = true) ∧
  (∀ ev rest err, inbox b = ev :: rest → transition (st b) ev = Err err →
     err = TE_StreamClosed ∧ did_reset b = true) ∧
  (inbox a = [] → inbox b = [] →
     st b = mirror (st a) ∧ (did_reset a || did_reset b = true → st a = Closed)).
Proof.
  intros (_ & _ & _ & Hag)%reachable_inv. split_and!.
  - intros. by eapply rejects_only_after_reset.
  - intros. eapply rejects_only_after_reset; [by apply agree_sym|done..].
  - intros Ia Ib. unfold agree, drains in Hag. rewrite Ia, Ib in Hag. cbn in Hag.
    destruct (did_reset a), (did_reset b).
    + by destruct Hag as [-> ->].
    + by destruct Hag as [-> [= ->]].
    + by destruct Hag as [-> [= ->]].
    + destruct Hag as (_ & _ & s & [= ->] & [= ->]). done.
Qed.

(** A request whose response crosses the reset of the requester. *)
Lemma stream_endpoints_agree_witness :
  let a := mkEndpoint Closed [RecvHeaders] true in
  let b := mkEndpoint Open [RecvRst] false in
  reachable (a, b) ∧ transition (st a) RecvHeaders = Err TE_StreamClosed ∧ did_reset a = true.
Proof.
  intros a b. assert (H : reachable (a, b)).
  { eapply reach_step; [eapply reach_step; [eapply reach_step; [eapply reach_step; [apply reach_init|]|]|]|].
    - by apply (initiator_sends new_endpoint new_endpoint SendHeaders Open).
    - by eapply (responder_receives _ _ RecvHeaders []).
    - by apply (responder_sends _ (mkEndpoint Open [] false) SendHeaders Open).
    - by apply (initiator_sends (mkEndpoint Open [RecvHeaders] false) (mkEndpoint Open [] false) SendRst Closed). }
  split; [exact H|]. split; [reflexivity|].
  destruct (stream_endpoints_agree a b H) as [Ha _]. by apply (Ha RecvHeaders [] TE_StreamClosed).
Defined.
