(* ===== verification/H2Flow.v ===== *)
(** * [runtime/api/bun/h2/flow_control.rs]: flow-control windows

    [SendWindow] and [RecvWindow] with [i64] arithmetic that panics on overflow
    ([None]). The theorems follow one send window through every sequence of
    DATA, WINDOW_UPDATE and SETTINGS, and a send window with the receive window
    of the peer through every interleaving of frames in flight. *)

From S2P Require Import Prelude H2Wire.

#[local] Open Scope Z_scope.

(** The result of [i64] arithmetic, or the overflow panic. *)
Definition i64 (z : Z) : option Z := if (- 2 ^ 63 <=? z) && (z <? 2 ^ 63) then Some z else None.

Lemma i64_small z : - 2 ^ 62 <= z <= 2 ^ 62 → i64 z = Some z.
Proof. intros H. unfold i64. by replace ((- 2 ^ 63 <=? z) && (z <? 2 ^ 63)) with true by lia. Qed.

Module SendWindow.
Record t := mk { remaining : Z }.

Definition default : t := mk DEFAULT_WINDOW_SIZE.
Definition new (initial : Z) : t := mk initial.
Definition available (self : t) : Z := if 0 <? remaining self then remaining self else 0.
Definition consume (self : t) (n : Z) : option t := r ← i64 (remaining self - n); Some (mk r).

Definition increase (self : t) (increment : Z) : option (t * result unit ErrorCode) :=
  next ← i64 (remaining self + increment);
  if MAX_WINDOW_SIZE <? next then Some (self, Err FlowControlError)
  else Some (mk next, Ok tt).

Definition apply_initial_delta (self : t) (delta : Z) : option t :=
  r ← i64 (remaining self + delta);
  Some (mk (Z.min r MAX_WINDOW_SIZE)).
End SendWindow.

Module RecvWindow.
Record t := mk { size : Z; consumed : Z }.

Definition default : t := mk DEFAULT_WINDOW_SIZE 0.
Definition new (initial : Z) : t := mk initial 0.
Definition on_data (self : t) (n : Z) : option t := c ← i64 (consumed self + n); Some (mk (size self) c).
Definition is_overflowed (self : t) : bool := size self <? consumed self.
Definition is_overflowed_with (self : t) (limit : Z) : bool := Z.max limit (size self) <? consumed self.
Definition needs_update (self : t) : bool := (0 <? consumed self) && (Z.quot (size self) 2 <=? consumed self).

Definition take_update (self : t) : option (Z * t) :=
  if consumed self <=? 0 then Some (0, self)
  else
    let inc := Z.min (consumed self) MAX_WINDOW_SIZE in
    c ← i64 (consumed self - inc);
    Some (wrap32 inc, mk (size self) c).

Definition grow (self : t) (delta : Z) : option t := s ← i64 (size self + delta); Some (mk s (consumed self)).
End RecvWindow.

(** ** One send window and the credit the peer has given *)

(** [initial] is the peer's current SETTINGS_INITIAL_WINDOW_SIZE, [granted] the
    sum of its WINDOW_UPDATEs and [sent] the DATA sent so far. *)
Record Ledger := mkLedger { window : SendWindow.t; initial : Z; granted : Z; sent : Z }.

Inductive ledger_step : Ledger → Ledger → Prop :=
  | sends_data w i g s n w' :
      0 <= n <= SendWindow.available w → SendWindow.consume w n = Some w' →
      ledger_step (mkLedger w i g s) (mkLedger w' i g (s + n))
  | gets_update w i g s inc w' :
      0 < inc <= MAX_WINDOW_SIZE → SendWindow.increase w inc = Some (w', Ok tt) →
      ledger_step (mkLedger w i g s) (mkLedger w' i (g + inc) s)
  | gets_settings w i g s i' w' :
      0 <= i' <= MAX_WINDOW_SIZE → SendWindow.apply_initial_delta w (i' - i) = Some w' →
      ledger_step (mkLedger w i g s) (mkLedger w' i' g s).

Inductive ledger_reach (i0 : Z) : Ledger → Prop :=
  | ledger_init : ledger_reach i0 (mkLedger (SendWindow.new i0) i0 0 0)
  | ledger_next l l' : ledger_reach i0 l → ledger_step l l' → ledger_reach i0 l'.

Definition ledger_inv (l : Ledger) : Prop :=
  let r := SendWindow.remaining (window l) in
  0 <= initial l <= MAX_WINDOW_SIZE ∧ initial l - MAX_WINDOW_SIZE <= r <= MAX_WINDOW_SIZE ∧
  r <= initial l + granted l - sent l.

Lemma bind_i64 {A} z (f : Z → option A) : - 2 ^ 62 <= z <= 2 ^ 62 → (i64 z ≫= f) = f z.
Proof. intros H. by rewrite i64_small. Qed.

(** Unfold the window operations, given bounds that exclude overflow. *)
Ltac windows :=
  unfold SendWindow.consume, SendWindow.increase, SendWindow.apply_initial_delta, SendWindow.available,
    SendWindow.new, RecvWindow.on_data, RecvWindow.take_update, RecvWindow.grow, RecvWindow.new,
    RecvWindow.is_overflowed, RecvWindow.needs_update in *;
  cbn [SendWindow.remaining RecvWindow.size RecvWindow.consumed window initial granted sent] in *.

(** The operations never overflow on a window within its bounds. *)
Lemma consume_ok w n :
  - 2 ^ 61 <= SendWindow.remaining w <= MAX_WINDOW_SIZE → 0 <= n <= SendWindow.available w →
  SendWindow.consume w n = Some (SendWindow.mk (SendWindow.remaining w - n)).
Proof.
  unfold MAX_WINDOW_SIZE. intros H Hn. windows. destruct (0 <? _); by rewrite bind_i64 by lia.
Qed.

Lemma increase_ok w inc :
  - 2 ^ 61 <= SendWindow.remaining w <= MAX_WINDOW_SIZE → 0 <= inc <= MAX_WINDOW_SIZE →
  SendWindow.increase w inc =
    Some (if MAX_WINDOW_SIZE <? SendWindow.remaining w + inc then (w, Err FlowControlError)
          else (SendWindow.mk (SendWindow.remaining w + inc), Ok tt)).
Proof.
  unfold MAX_WINDOW_SIZE. intros H Hn. windows. rewrite bind_i64 by lia. cbv beta. unfold MAX_WINDOW_SIZE.
  by destruct (2147483647 <? SendWindow.remaining w + inc).
Qed.

Lemma delta_ok w d :
  - 2 ^ 61 <= SendWindow.remaining w <= MAX_WINDOW_SIZE → - MAX_WINDOW_SIZE <= d <= MAX_WINDOW_SIZE →
  SendWindow.apply_initial_delta w d =
    Some (SendWindow.mk (Z.min (SendWindow.remaining w + d) MAX_WINDOW_SIZE)).
Proof. unfold MAX_WINDOW_SIZE. intros H Hn. windows. by rewrite bind_i64 by lia. Qed.

Lemma ledger_inv_reach i0 l : 0 <= i0 <= MAX_WINDOW_SIZE → ledger_reach i0 l → ledger_inv l.
Proof.
  intros Hi. induction 1 as [|l l' _ IH Hs]; unfold ledger_inv in *.
  - cbn. lia.
  - inversion Hs as [w i g s n w' Hn Hc|w i g s inc w' Hn Hc|w i g s i' w' Hn Hc]; subst; cbn in *.
    + rewrite consume_ok in Hc by (unfold MAX_WINDOW_SIZE in *; lia). injection Hc as <-. windows.
      destruct (Z.ltb_spec 0 (SendWindow.remaining w)); lia.
    + rewrite increase_ok in Hc by (unfold MAX_WINDOW_SIZE in *; lia). destruct (Z.ltb_spec MAX_WINDOW_SIZE (SendWindow.remaining w + inc)); simplify_eq.
      cbn. lia.
    + rewrite delta_ok in Hc by (unfold MAX_WINDOW_SIZE in *; lia). injection Hc as <-. cbn. lia.
Qed.

(** Whatever DATA, WINDOW_UPDATEs and INITIAL_WINDOW_SIZE changes a send window
    has seen: it stays between the initial size less the maximum and the
    maximum, no operation on it overflows [i64], and what [available] allows
    never exceeds the credit the peer has given. *)
Theorem send_window_within_credit i0 l :
  0 <= i0 <= MAX_WINDOW_SIZE → ledger_reach i0 l →
  initial l - MAX_WINDOW_SIZE <= SendWindow.remaining (window l) <= MAX_WINDOW_SIZE ∧
  (∀ n, 0 <= n <= SendWindow.available (window l) →
     is_Some (SendWindow.consume (window l) n) ∧ (0 < n → sent l + n <= initial l + granted l)) ∧
  (∀ inc, 0 < inc <= MAX_WINDOW_SIZE → is_Some (SendWindow.increase (window l) inc)) ∧
  (∀ i', 0 <= i' <= MAX_WINDOW_SIZE → is_Some (SendWindow.apply_initial_delta (window l) (i' - initial l))).
Proof.
  intros Hi Hr. destruct (ledger_inv_reach i0 l Hi Hr) as (Hil & Hb & Hc). split_and!; [lia..| | |].
  - intros n Hn. rewrite consume_ok by (unfold MAX_WINDOW_SIZE in *; lia). split; [eauto|]. intros Hp. windows.
    destruct (Z.ltb_spec 0 (SendWindow.remaining (window l))); lia.
  - intros inc Hinc. rewrite increase_ok by (unfold MAX_WINDOW_SIZE in *; lia). eauto.
  - intros i' Hi'. rewrite delta_ok by (unfold MAX_WINDOW_SIZE in *; lia). eauto.
Qed.

(** A peer that lowers its initial window below what was sent. *)
Lemma send_window_within_credit_witness :
  let l := mkLedger (SendWindow.mk (-60)) 40 0 100 in
  40 - MAX_WINDOW_SIZE <= SendWindow.remaining (window l) <= MAX_WINDOW_SIZE ∧
  SendWindow.available (window l) = 0.
Proof.
  intros l. split; [|reflexivity].
  apply (send_window_within_credit 100 l); [unfold MAX_WINDOW_SIZE; lia|].
  eapply ledger_next; [eapply ledger_next; [apply ledger_init|]|].
  - by apply (sends_data _ _ _ _ 100).
  - apply (gets_settings (SendWindow.mk 0) 100 0 100 40 (SendWindow.mk (-60))); [unfold MAX_WINDOW_SIZE; lia|reflexivity].
Defined.

(** ** A sender and its receiver *)

(** The window of the sender, the sizes of the DATA frames in flight, the window
    of the receiver and the WINDOW_UPDATEs in flight, oldest first. *)
Record Link := mkLink { sw : SendWindow.t; data : list Z; rw : RecvWindow.t; updates : list Z }.

Inductive link_step : Link → Link → Prop :=
  | transmit w d r u n w' :
      0 <= n <= SendWindow.available w → SendWindow.consume w n = Some w' →
      link_step (mkLink w d r u) (mkLink w' (d ++ [n]) r u)
  | arrive w n d r u r' :
      RecvWindow.on_data r n = Some r' → link_step (mkLink w (n :: d) r u) (mkLink w d r' u)
  | replenish w d r u inc r' :
      RecvWindow.needs_update r = true → RecvWindow.take_update r = Some (inc, r') →
      link_step (mkLink w d r u) (mkLink w d r' (u ++ [inc]))
  | enlarge w d r u inc r' :
      0 < inc → RecvWindow.size r + inc <= MAX_WINDOW_SIZE → RecvWindow.grow r inc = Some r' →
      link_step (mkLink w d r u) (mkLink w d r' (u ++ [inc]))
  | credit w d r inc u w' :
      SendWindow.increase w inc = Some (w', Ok tt) → link_step (mkLink w d r (inc :: u)) (mkLink w' d r u).

Inductive link_reach (size : Z) : Link → Prop :=
  | link_init : link_reach size (mkLink (SendWindow.new size) [] (RecvWindow.new size) [])
  | link_next l l' : link_reach size l → link_step l l' → link_reach size l'.

Fixpoint sum (l : list Z) : Z := match l with [] => 0 | x :: l => x + sum l end.

Lemma sum_app l k : sum (l ++ k) = sum l + sum k.
Proof. induction l as [|x l IH]; cbn [app sum]; lia. Qed.

Lemma sum_nonneg l : Forall (Z.le 0) l → 0 <= sum l.
Proof. induction 1; cbn [sum]; lia. Qed.

(** Every byte of the window is in one place. *)
Definition link_inv (l : Link) : Prop :=
  let s := RecvWindow.size (rw l) in
  0 <= SendWindow.remaining (sw l) ∧ Forall (Z.le 0) (data l) ∧ 0 <= RecvWindow.consumed (rw l) ∧
  Forall (Z.le 0) (updates l) ∧ s <= MAX_WINDOW_SIZE ∧
  SendWindow.remaining (sw l) + sum (data l) + RecvWindow.consumed (rw l) + sum (updates l) = s.

Lemma take_update_ok r :
  0 <= RecvWindow.consumed r <= MAX_WINDOW_SIZE →
  RecvWindow.take_update r = Some (RecvWindow.consumed r, RecvWindow.mk (RecvWindow.size r) 0).
Proof.
  unfold MAX_WINDOW_SIZE. intros H. destruct r as [s c]. windows.
  destruct (Z.leb_spec c 0); [by replace c with 0 by lia|].
  rewrite Z.min_l by (unfold MAX_WINDOW_SIZE; lia). rewrite bind_i64, Z.sub_diag by lia.
  unfold wrap32. by rewrite Z.mod_small by lia.
Qed.

Lemma link_inv_reach size l : 0 <= size <= MAX_WINDOW_SIZE → link_reach size l → link_inv l.
Proof.
  intros Hs. induction 1 as [|l l' _ (Hw & Hd & Hc & Hu & Hm & Hsum) Hst]; unfold link_inv.
  { cbn. split_and!; first [lia|constructor]. }
  pose proof (sum_nonneg _ Hd). pose proof (sum_nonneg _ Hu).
  inversion Hst as [w d r u n w' Hn Hop|w n d r u r' Hop|w d r u inc r' Hn Hop|w d r u inc r' Hp Hn Hop|w d r inc u w' Hop];
    subst; cbn in *.
  - rewrite consume_ok in Hop by (unfold MAX_WINDOW_SIZE in *; lia). injection Hop as <-. cbn. rewrite sum_app. cbn.
    windows. destruct (Z.ltb_spec 0 (SendWindow.remaining w)); split_and!; try lia; try done; decompose_Forall; lia.
  - inversion_clear Hd as [|?? Hn Hd']. pose proof (sum_nonneg _ Hd'). unfold MAX_WINDOW_SIZE in *. windows.
    rewrite bind_i64 in Hop by lia. injection Hop as <-. cbn. split_and!; try done; lia.
  - rewrite take_update_ok in Hop by lia. injection Hop as <- <-. cbn. rewrite sum_app. cbn.
    split_and!; try done; try lia. decompose_Forall; lia.
  - unfold MAX_WINDOW_SIZE in *. windows. rewrite bind_i64 in Hop by lia. injection Hop as <-.
    cbn in *. rewrite sum_app. cbn. split_and!; try done; try lia. decompose_Forall; lia.
  - inversion_clear Hu as [|?? Hn Hu']. pose proof (sum_nonneg _ Hu').
    rewrite increase_ok in Hop by (unfold MAX_WINDOW_SIZE in *; lia). case_match; simplify_eq. cbn. split_and!; try done; lia.
Qed.

(** C26. A sender that keeps to its window, against the receive window of its peer,
    with DATA and WINDOW_UPDATEs in flight in any order and the receiver free to
    enlarge its window: the receiver never sees its window exceeded, no
    WINDOW_UPDATE overflows the sender's, no operation overflows [i64], and when
    nothing is in flight either the receiver is due to update or the sender may
    send at least half of the window, so that the two never wait for each other. *)
Theorem flow_control_never_violated size l :
  0 <= size <= MAX_WINDOW_SIZE → link_reach size l →
  RecvWindow.is_overflowed (rw l) = false ∧
  (∀ n d, data l = n :: d →
     ∃ r, RecvWindow.on_data (rw l) n = Some r ∧ RecvWindow.is_overflowed r = false) ∧
  (∀ inc u, updates l = inc :: u → ∃ w, SendWindow.increase (sw l) inc = Some (w, Ok tt)) ∧
  (data l = [] → updates l = [] → RecvWindow.needs_update (rw l) = false →
     RecvWindow.size (rw l) - RecvWindow.size (rw l) / 2 <= SendWindow.available (sw l)).
Proof.
  intros Hs Hr. destruct (link_inv_reach size l Hs Hr) as (Hw & Hd & Hc & Hu & Hm & Hsum).
  destruct l as [w d r u]. cbn in *. pose proof (sum_nonneg _ Hd). pose proof (sum_nonneg _ Hu). split_and!.
  - windows. lia.
  - intros n d' ->. inversion_clear Hd as [|?? Hn Hd']. pose proof (sum_nonneg _ Hd'). cbn in Hsum.
    unfold MAX_WINDOW_SIZE in *. windows. rewrite bind_i64 by lia. eexists. split; [done|]. cbn. lia.
  - intros inc u' ->. inversion_clear Hu as [|?? Hn Hu']. pose proof (sum_nonneg _ Hu'). cbn in Hsum.
    rewrite increase_ok by (unfold MAX_WINDOW_SIZE in *; lia). replace (_ <? _) with false by lia. eauto.
  - intros -> -> Hn. cbn in Hsum. windows. destruct r as [s c]. cbn in *.
    rewrite Z.quot_div_nonneg in Hn by lia. pose proof (Z.div_pos s 2). destruct (Z.ltb_spec 0 (SendWindow.remaining w)); lia.
Qed.

Lemma flow_control_never_violated_witness :
  let l := mkLink (SendWindow.mk 40) [60] (RecvWindow.mk 100 0) [] in
  RecvWindow.is_overflowed (rw l) = false ∧
  ∃ r, RecvWindow.on_data (rw l) 60 = Some r ∧ RecvWindow.is_overflowed r = false.
Proof.
  intros l. assert (H : link_reach 100 l).
  { eapply link_next; [apply link_init|]. by apply (transmit _ [] _ [] 60). }
  destruct (flow_control_never_violated 100 l ltac:(unfold MAX_WINDOW_SIZE; lia) H) as (Ho & Hd & _).
  split; [exact Ho|]. by apply (Hd 60 []).
Defined.
