(* ===== verification/H2Hpack.v ===== *)
(** * [http/lshpack.rs] and [h2/hpack.rs]: the HPACK coder

    The ls-hpack library is the parameter [Lshpack]; this file has the checks
    that [lshpack.rs] makes on its results, the [Coder] with its pending
    capacity change, and the encoding of the Dynamic Table Size Update, which
    an integer decoder after RFC 7541 section 5.1 reads back. *)

From S2P Require Import Prelude H2Wire.

#[local] Open Scope Z_scope.

(** [lshpack_header] as the C wrapper fills it. *)
Record lshpack_header := mkHeader { h_name : bytes; h_value : bytes; h_never_index : bool; h_index : Z }.

(** The C functions: [lshpack_wrapper_decode] returns the length of the encoded
    field or 0, [lshpack_wrapper_encode] writes into the buffer at an offset and
    returns the length or 0. *)
Class Lshpack := {
  HPACK : Type;
  lshpack_wrapper_init : Z → HPACK;
  lshpack_wrapper_decode : HPACK → bytes → HPACK * (nat * lshpack_header);
  lshpack_wrapper_encode : HPACK → bytes → bytes → bool → bytes → nat → HPACK * (bytes * nat);
  lshpack_wrapper_enc_set_max_capacity : HPACK → Z → HPACK;
}.

Inductive HpackError := UnableToDecode | EmptyHeaderName | UnableToEncode.

Record DecodeResult := mkDecoded { name : bytes; value : bytes; never_index : bool; well_know : Z; next : nat }.

Section coder.
Context {L : Lshpack}.

Definition hpack_decode (self : HPACK) (src : bytes) : HPACK * result DecodeResult HpackError :=
  let '(self, (offset, header)) := lshpack_wrapper_decode self src in
  if (offset =? 0)%nat then (self, Err UnableToDecode)
  else if (length (h_name header) =? 0)%nat then (self, Err EmptyHeaderName)
  else (self, Ok (mkDecoded (h_name header) (h_value header) (h_never_index header) (h_index header) offset)).

Definition hpack_encode (self : HPACK) (name value : bytes) (never_index : bool) (dst : bytes) (offset : nat)
    : HPACK * (bytes * result nat HpackError) :=
  let '(self, (dst, n)) := lshpack_wrapper_encode self name value never_index dst offset in
  if (n =? 0)%nat then (self, (dst, Err UnableToEncode)) else (self, (dst, Ok n)).


Record Coder := mkCoder { hpack : HPACK; enc_capacity : Z; pending_enc_capacity : option Z }.

Definition Coder_new (max_capacity : Z) : Coder := mkCoder (lshpack_wrapper_init max_capacity) max_capacity None.

Definition queue_encoder_capacity (self : Coder) (capacity : Z) : Coder :=
  if (capacity =? enc_capacity self) && bool_decide (pending_enc_capacity self = None) then self
  else mkCoder (hpack self) (enc_capacity self) (Some capacity).

(** [dst[i] = b]. *)
Definition store_byte (dst : bytes) (i : nat) (b : Z) : option bytes :=
  if (i <? length dst)%nat then Some (<[i := b]> dst) else None.

(** [while rest >= 128], then the last byte; at most five rounds for a [u32]. *)
Fixpoint write_rest (fuel : nat) (dst : bytes) (i : nat) (rest : Z) : option (bytes * nat) :=
  match fuel with
  | O => None
  | S fuel =>
      if 128 <=? rest then
        dst ← store_byte dst i (Z.lor (rest mod 256) 0x80);
        write_rest fuel dst (S i) (Z.shiftr rest 7)
      else
        dst ← store_byte dst i (rest mod 256);
        Some (dst, S i)
  end.

Definition write_table_size_update (dst : bytes) (offset : nat) (value : Z) : option (bytes * nat) :=
  if value <? 31 then
    dst ← store_byte dst offset (Z.lor 0x20 (value mod 256));
    Some (dst, 1%nat)
  else
    dst ← store_byte dst offset (Z.lor 0x20 31);
    '(dst, i) ← write_rest 5 dst (S offset) (value - 31);
    n ← usize_sub i offset;
    Some (dst, n).

Definition take_pending_size_update (self : Coder) (dst : bytes) (offset : nat)
    : option (Coder * (bytes * nat)) :=
  match pending_enc_capacity self with
  | None => Some (self, (dst, 0%nat))
  | Some cap =>
      r ← write_table_size_update dst offset cap;
      Some (mkCoder (lshpack_wrapper_enc_set_max_capacity (hpack self) cap) cap None, r)
  end.

Definition Coder_encode (self : Coder) (name value : bytes) (never_index : bool) (dst : bytes) (offset : nat)
    : Coder * (bytes * result nat HpackError) :=
  let '(h, r) := hpack_encode (hpack self) name value never_index dst offset in
  (mkCoder h (enc_capacity self) (pending_enc_capacity self), r).

Definition Coder_decode (self : Coder) (src : bytes) : Coder * result DecodeResult HpackError :=
  let '(h, r) := hpack_decode (hpack self) src in
  (mkCoder h (enc_capacity self) (pending_enc_capacity self), r).
End coder.

Definition MAX_SIZE_UPDATE_BYTES : nat := 6.

Lemma decode_progress `{L : Lshpack} self src self' r :
  Coder_decode self src = (self', Ok r) → (0 < next r)%nat.
Proof.
  unfold Coder_decode, hpack_decode. destruct (lshpack_wrapper_decode _ src) as [h [off hd]].
  destruct (Nat.eqb_spec off 0); [done|]. destruct (_ =? 0)%nat; [done|]. intros [= _ <-]. cbn. lia.
Qed.

(** ** The size update on the wire *)

(** RFC 7541 section 5.1, from the byte after the prefix on: seven bits a byte,
    least significant first. *)
Fixpoint read_groups (l : bytes) : option (Z * bytes) :=
  match l with
  | [] => None
  | b :: l =>
      if 128 <=? b then '(v, l) ← read_groups l; Some (b mod 128 + 128 * v, l)
      else Some (b, l)
  end.

(** Section 6.3: the pattern [001] and an integer with a five-bit prefix. *)
Definition read_size_update (l : bytes) : option (Z * bytes) :=
  match l with
  | [] => None
  | b :: l =>
      if negb (b / 32 =? 1) then None
      else if b mod 32 <? 31 then Some (b mod 32, l)
      else '(v, l) ← read_groups l; Some (31 + v, l)
  end.

Lemma lor_0x20 v : 0 <= v < 32 → Z.lor 0x20 v = 32 + v.
Proof.
  intros H. assert (Hc : ∀ n : nat, (n < 32)%nat → Z.lor 0x20 (Z.of_nat n) = 32 + Z.of_nat n).
  { intros n Hn. do 32 (destruct n as [|n]; [reflexivity|]). lia. }
  rewrite <- (Z2Nat.id v) by lia. apply Hc. lia.
Qed.

Lemma lor_0x80 v : 0 <= v → Z.lor (v mod 256) 0x80 = 128 + v mod 128.
Proof.
  intros H. replace (v mod 128) with (v mod 256 mod 128).
  2: { change 256 with (128 * 2). rewrite Z.rem_mul_r by lia. rewrite Z.mul_comm, Z.mod_add, Z.mod_mod by lia. done. }
  pose proof (mod256_u8 v) as Hu. revert Hu. generalize (v mod 256) as x. intros x Hx. apply Z.eqb_eq. revert x Hx.
  apply (byte_forall (λ x, Z.lor x 128 =? 128 + x mod 128)). vm_compute. done.
Qed.

Lemma store_byte_ok dst i b : (i < length dst)%nat → store_byte dst i b = Some (<[i := b]> dst).
Proof. intros H. unfold store_byte. by rewrite (proj2 (Nat.ltb_lt _ _) H). Qed.

Lemma drop_cons_nth (dst : bytes) i b : dst !! i = Some b → drop i dst = b :: drop (S i) dst.
Proof. intros H. by rewrite (drop_S dst b i H). Qed.

Lemma write_rest_spec fuel dst i rest :
  0 <= rest < 128 ^ Z.of_nat fuel → (i + fuel <= length dst)%nat → (0 < fuel)%nat →
  ∃ dst' j, write_rest fuel dst i rest = Some (dst', j) ∧ (i < j <= i + fuel)%nat ∧
    length dst' = length dst ∧ take i dst' = take i dst ∧ drop j dst' = drop j dst ∧
    read_groups (drop i dst') = Some (rest, drop j dst).
Proof.
  revert dst i rest. induction fuel as [|fuel IH]; intros dst i rest Hr Hl Hf; [lia|].
  cbn [write_rest]. rewrite Nat2Z.inj_succ, Z.pow_succ_r in Hr by lia.
  rewrite !store_byte_ok by lia. cbn [mbind option_bind]. destruct (Z.leb_spec 128 rest).
  - assert (Hs : 0 <= rest / 128 < 128 ^ Z.of_nat fuel).
    { split; [apply Z.div_pos; lia|apply Z.div_lt_upper_bound; lia]. }
    rewrite Z.shiftr_div_pow2 by lia. change (2 ^ 7) with 128.
    assert ((0 < fuel)%nat) by (destruct fuel; [change (128 ^ Z.of_nat 0) with 1 in *; lia|lia]).
    set (d := <[i := _]> dst). assert (Hd : length d = length dst) by apply length_insert.
    destruct (IH d (S i) (rest / 128)) as (dst' & j & -> & Hj & Hl' & Ht & Hdr & Hg); [done|lia|done|].
    exists dst', j. assert (Hi : dst' !! i = Some (Z.lor (rest mod 256) 0x80)).
    { rewrite <- (lookup_take_lt dst' (S i)) by lia. rewrite Ht, lookup_take_lt by lia. apply list_lookup_insert_eq. lia. }
    split_and!; [done|lia|lia|congruence| | |].
    + apply (f_equal (take i)) in Ht. rewrite !take_take, !Nat.min_l in Ht by lia. rewrite Ht.
      apply take_insert_ge. lia.
    + rewrite Hdr. apply drop_insert_lt. lia.
    + rewrite (drop_cons_nth _ _ _ Hi). cbn [read_groups]. rewrite lor_0x80 by lia.
      pose proof (Z.mod_pos_bound rest 128). replace (128 <=? _) with true by lia. rewrite Hg. cbn.
      unfold d. rewrite (drop_insert_lt dst) by lia. do 2 f_equal.
      replace ((128 + rest mod 128) mod 128) with (rest mod 128); [pose proof (Z.div_mod rest 128); lia|].
      apply (Z.mod_unique _ _ 1); lia.
  - exists (<[i := rest mod 256]> dst), (S i).
    split_and!; [done|lia|lia|apply length_insert|apply take_insert_ge; lia|apply drop_insert_lt; lia|].
    rewrite (drop_cons_nth _ i (rest mod 256)) by (apply list_lookup_insert_eq; lia).
    cbn [read_groups]. rewrite (Z.mod_small rest) by lia. replace (128 <=? rest) with false by lia.
    by rewrite drop_insert_lt by lia.
Qed.

Lemma write_size_update_spec dst off cap :
  is_u32 cap → (off + MAX_SIZE_UPDATE_BYTES <= length dst)%nat →
  ∃ dst' n, write_table_size_update dst off cap = Some (dst', n) ∧ (1 <= n <= MAX_SIZE_UPDATE_BYTES)%nat ∧
    length dst' = length dst ∧ take off dst' = take off dst ∧
    read_size_update (drop off dst') = Some (cap, drop (off + n) dst).
Proof.
  unfold is_u32, MAX_SIZE_UPDATE_BYTES, write_table_size_update. intros Hc Hl.
  rewrite !store_byte_ok by lia. cbn [mbind option_bind]. destruct (Z.ltb_spec cap 31).
  - exists (<[off := Z.lor 0x20 (cap mod 256)]> dst), 1%nat.
    split_and!; [done|lia|lia|apply length_insert|apply take_insert_ge; lia|].
    rewrite (drop_cons_nth _ off (Z.lor 0x20 (cap mod 256))) by (apply list_lookup_insert_eq; lia).
    rewrite Z.mod_small, lor_0x20 by lia. cbn [read_size_update]. rewrite drop_insert_lt, Nat.add_1_r by lia.
    replace ((32 + cap) / 32) with 1 by (apply (Z.div_unique _ _ _ cap); lia).
    replace ((32 + cap) mod 32) with cap by (apply (Z.mod_unique _ _ 1); lia).
    cbn. by replace (cap <? 31) with true by lia.
  - set (d := <[off := _]> dst). assert (Hd : length d = length dst) by apply length_insert.
    destruct (write_rest_spec 5 d (S off) (cap - 31)) as (dst' & j & -> & Hj & Hl' & Ht & Hdr & Hg); [lia..|].
    cbn [mbind option_bind]. rewrite usize_sub_some by lia. cbn [mbind option_bind].
    exists dst', (j - off)%nat. split_and!; [done|lia|lia|congruence| |].
    + apply (f_equal (take off)) in Ht. rewrite !take_take, !Nat.min_l in Ht by lia. rewrite Ht.
      apply take_insert_ge. lia.
    + assert (Hi : dst' !! off = Some 63).
      { rewrite <- (lookup_take_lt dst' (S off)) by lia. rewrite Ht, lookup_take_lt by lia.
        apply list_lookup_insert_eq. lia. }
      rewrite (drop_cons_nth _ _ _ Hi). cbn [read_size_update]. cbn -[read_groups drop]. rewrite Hg. cbn -[drop].
      replace (off + (j - off))%nat with j by lia. unfold d. rewrite (drop_insert_lt dst) by lia. do 2 f_equal. lia.
Qed.

(** The Dynamic Table Size Update that the coder writes for any [u32] capacity
    fits the six bytes reserved for it, touches nothing else, and reads back as
    that capacity with whatever follows it. *)
Theorem size_update_roundtrip dst off cap :
  is_u32 cap → (off + MAX_SIZE_UPDATE_BYTES <= length dst)%nat →
  ∃ dst' n, write_table_size_update dst off cap = Some (dst', n) ∧ (1 <= n <= MAX_SIZE_UPDATE_BYTES)%nat ∧
    length dst' = length dst ∧ take off dst' = take off dst ∧
    read_size_update (drop off dst') = Some (cap, drop (off + n) dst).
Proof. apply write_size_update_spec. Qed.

Lemma size_update_roundtrip_witness :
  ∃ dst' n, write_table_size_update [0; 0; 0; 0; 0; 0] 0 4096 = Some (dst', n) ∧
    (1 <= n <= MAX_SIZE_UPDATE_BYTES)%nat ∧ length dst' = 6%nat ∧ take 0 dst' = [] ∧
    read_size_update (drop 0 dst') = Some (4096, drop (0 + n) [0; 0; 0; 0; 0; 0]).
Proof.
  apply (size_update_roundtrip [0; 0; 0; 0; 0; 0] 0 4096); [unfold is_u32; lia|].
  unfold MAX_SIZE_UPDATE_BYTES. cbn. lia.
Defined.
