(* ===== verification/H2Fields.v ===== *)
(** * Header fields of an HTTP/2 message

    The field checks of [h2_frame_parser.rs], [parse_content_length_strict] of
    [http_types], the module [pseudo] of [connection.rs] and the body of the
    decode loop of [Connection::finish_header_block]: one field at a time, with
    the locals of the loop in the record [Block]. *)

From S2P Require Import Prelude H2Wire.

#[local] Open Scope Z_scope.

Definition is_ascii_digit (c : Z) : bool := (ch "0" <=? c) && (c <=? ch "9").
Definition is_ascii_lower (c : Z) : bool := (ch "a" <=? c) && (c <=? ch "z").
Definition is_ascii_alphabetic (c : Z) : bool := is_ascii_lower c || ((ch "A" <=? c) && (c <=? ch "Z")).
Definition is_ascii_alphanumeric (c : Z) : bool := is_ascii_alphabetic c || is_ascii_digit c.
Definition contains (l : bytes) (c : Z) : bool := existsb (Z.eqb c) l.
Definition to_ascii_lowercase (c : Z) : Z := if (ch "A" <=? c) && (c <=? ch "Z") then c + 32 else c.
Definition eq_ignore_ascii_case (a b : bytes) : bool :=
  bool_decide (map to_ascii_lowercase a = map to_ascii_lowercase b).
Definition beq (a b : bytes) : bool := bool_decide (a = b).

(** ** [h2_frame_parser.rs] *)

Definition is_field_char (c : Z) : bool :=
  is_ascii_lower c || is_ascii_digit c || contains (bs "!#$%&'*+-.^_`|~") c.

Definition is_malformed_field_name (name : bytes) : bool :=
  match name with
  | [] => true
  | c :: t =>
      let rest := if c =? ch ":" then t else name in
      (length rest =? 0)%nat || negb (forallb is_field_char rest)
  end.

Definition is_malformed_field_value (value : bytes) : bool := existsb (contains [0; 13; 10]) value.

Definition has_control_byte (value : bytes) : bool :=
  existsb (λ c, ((c <? 32) && negb (c =? 9)) || (c =? 0x7f)) value.

Definition is_space_or_tab (c : Z) : bool := (c =? 32) || (c =? 9).

Definition has_edge_whitespace (value : bytes) : bool :=
  match head value with Some c => is_space_or_tab c | None => false end
  || match last value with Some c => is_space_or_tab c | None => false end.

(** ** [http_types/lib.rs] *)

(** [n.checked_mul(10)?.checked_add(d)?] on [u64]. *)
Definition push_digit (n d : Z) : option Z :=
  if U64_MAX <? n * 10 then None else if U64_MAX <? n * 10 + d then None else Some (n * 10 + d).

Fixpoint content_length_digits (n : Z) (value : bytes) : option Z :=
  match value with
  | [] => Some n
  | c :: value =>
      if negb (is_ascii_digit c) then None
      else n ← push_digit n (c - ch "0"); content_length_digits n value
  end.

Definition parse_content_length_strict (value : bytes) : option Z :=
  if (length value =? 0)%nat then None else content_length_digits 0 value.

(** ** The module [pseudo] *)
Module pseudo.
Definition METHOD : Z := 1.
Definition SCHEME : Z := 2.
Definition AUTHORITY : Z := 4.
Definition PATH : Z := 8.
Definition STATUS : Z := 16.
Definition PROTOCOL : Z := 32.
Definition UNKNOWN : Z := 64.

Definition is_valid_value (bit : Z) (value : bytes) : bool :=
  let all extra := forallb (λ c, is_ascii_alphanumeric c || contains extra c) value in
  if bit =? METHOD then all (bs "!#$%&'*+-.^_`|~")
  else if bit =? PATH then forallb (λ c, (32 <? c) && negb (c =? 0x7f)) value
  else if bit =? SCHEME then
    match head value with Some c => is_ascii_alphabetic c | None => false end && all (bs "+-.")
  else if bit =? AUTHORITY then all (bs "!$%&'()*+,-.:;=[]_~")
  else if bit =? STATUS then
    match value with
    | [a; b; c] =>
        ((ch "1" <=? a) && (a <=? ch "9") && is_ascii_digit b && is_ascii_digit c) && negb (beq value (bs "101"))
    | _ => false
    end
  else true.

(** The bit of the name after the colon. *)
Definition bit_of (rest : bytes) : Z :=
  if beq rest (bs "method") then METHOD
  else if beq rest (bs "scheme") then SCHEME
  else if beq rest (bs "authority") then AUTHORITY
  else if beq rest (bs "path") then PATH
  else if beq rest (bs "status") then STATUS
  else if beq rest (bs "protocol") then PROTOCOL
  else UNKNOWN.
End pseudo.

(** ** The decode loop of [finish_header_block] *)

(** What the loop reads of the connection and of the block. *)
Record BlockConfig := mkConfig {
  cfg_is_server : bool;
  cfg_is_push : bool;                 (* [push_parent.is_some()] *)
  cfg_is_trailer : bool;
  cfg_deliver : bool;                 (* [disposition == BlockDisposition::Deliver] *)
  cfg_strict_field_whitespace : bool;
  cfg_enable_connect_protocol : Z;    (* [local_settings.enable_connect_protocol] *)
  cfg_max_list_size : Z;
  cfg_max_pairs : Z }.

(** The locals of the loop. *)
Record Block := mkBlock {
  list_size : Z; field_count : Z; rejected : bool; malformed : bool; seen_regular : bool; seen_pseudo : Z;
  saw_connect : bool; saw_options : bool; saw_host : bool; http_scheme : bool; origin_form : bool;
  asterisk_form : bool; informational : bool; content_length : option Z }.

Definition Block_init (malformed saw_host : bool) : Block :=
  mkBlock 0 0 false malformed false 0 false false saw_host false false false false None.

Definition set_rejected (b : Block) : Block :=
  let '(mkBlock ls fc _ m sr sp sc so sh hs o a i cl) := b in mkBlock ls fc true m sr sp sc so sh hs o a i cl.
Definition set_malformed (b : Block) : Block :=
  let '(mkBlock ls fc r _ sr sp sc so sh hs o a i cl) := b in mkBlock ls fc r true sr sp sc so sh hs o a i cl.
Definition set_seen_regular (b : Block) : Block :=
  let '(mkBlock ls fc r m _ sp sc so sh hs o a i cl) := b in mkBlock ls fc r m true sp sc so sh hs o a i cl.
Definition set_saw_host (b : Block) : Block :=
  let '(mkBlock ls fc r m sr sp sc so _ hs o a i cl) := b in mkBlock ls fc r m sr sp sc so true hs o a i cl.
Definition set_content_length (b : Block) (n : Z) : Block :=
  let '(mkBlock ls fc r m sr sp sc so sh hs o a i _) := b in mkBlock ls fc r m sr sp sc so sh hs o a i (Some n).
Definition malformed_if (c : bool) (b : Block) : Block := if c then set_malformed b else b.

Section loop.
Context (cfg : BlockConfig).

(** The condition that makes a pseudo-header malformed. *)
Definition pseudo_is_malformed (b : Block) (rest value : bytes) : bool :=
  let bit := pseudo.bit_of rest in
  let wrong_direction := Bool.eqb (beq rest (bs "status")) (cfg_is_server cfg || cfg_is_push cfg) in
  let protocol_disabled :=
    cfg_is_server cfg && beq rest (bs "protocol") && (cfg_enable_connect_protocol cfg =? 0) in
  let edge_whitespace :=
    has_edge_whitespace value
    && (cfg_strict_field_whitespace cfg || negb (bit =? pseudo.PROTOCOL) || forallb is_space_or_tab value) in
  seen_regular b || (bit =? pseudo.UNKNOWN) || negb (Z.land (seen_pseudo b) bit =? 0) || wrong_direction
  || protocol_disabled || cfg_is_trailer cfg || (length value =? 0)%nat || edge_whitespace
  || has_control_byte value || negb (pseudo.is_valid_value bit value).

(** The [strip_prefix(b":")] branch. *)
Definition on_pseudo (b : Block) (rest value : bytes) : Block :=
  let bit := pseudo.bit_of rest in
  let b := malformed_if (pseudo_is_malformed b rest value) b in
  let '(mkBlock ls fc r m sr sp sc so sh hs o a i cl) := b in
  let i := if beq rest (bs "status") && (length value =? 3)%nat && bool_decide (head value = Some (ch "1"))
           then true else i in
  let sp := Z.lor sp bit in
  let sc := if beq rest (bs "method") && beq value (bs "CONNECT") then true else sc in
  let so := if bit =? pseudo.METHOD then beq value (bs "OPTIONS") else so in
  let hs := if bit =? pseudo.SCHEME
            then eq_ignore_ascii_case value (bs "http") || eq_ignore_ascii_case value (bs "https") else hs in
  let o := if bit =? pseudo.PATH then bool_decide (head value = Some (ch "/")) else o in
  let a := if bit =? pseudo.PATH then beq value (bs "*") else a in
  mkBlock ls fc r m sr sp sc so sh hs o a i cl.

Definition connection_specific (name : bytes) : bool :=
  beq name (bs "connection") || beq name (bs "keep-alive") || beq name (bs "proxy-connection")
  || beq name (bs "transfer-encoding") || beq name (bs "upgrade").

(** The [match name_b]; [true] is the [continue] of a Host that is no authority. *)
Definition on_regular (b : Block) (name value : bytes) : Block * bool :=
  let b := set_seen_regular b in
  if connection_specific name then (set_malformed b, false)
  else if beq name (bs "host") && (cfg_is_server cfg || cfg_is_push cfg) then
    if negb (pseudo.is_valid_value pseudo.AUTHORITY value) then (b, true)
    else (set_saw_host (malformed_if ((length value =? 0)%nat || saw_host b) b), false)
  else if beq name (bs "te") then (malformed_if (negb (eq_ignore_ascii_case value (bs "trailers"))) b, false)
  else if beq name (bs "content-length") then
    match parse_content_length_strict value, content_length b with
    | Some n, None => (set_content_length b n, false)
    | _, _ => (set_malformed b, false)
    end
  else (b, false).

(** The [if !malformed] block; [true] is a [continue]. *)
Definition check_field (b : Block) (name value : bytes) : Block * bool :=
  if is_malformed_field_name name || is_malformed_field_value value then (set_malformed b, false)
  else
    match name with
    | c :: rest =>
        if c =? ch ":" then (on_pseudo b rest value, false)
        else
          let '(b, skip) := on_regular b name value in
          (b, skip || has_control_byte value)
    | [] => (b, false)
    end.

(** One decoded field: the locals after it and whether it is surfaced. *)
Definition field_step (b : Block) (name value : bytes) : Block * bool :=
  let '(mkBlock ls fc r m sr sp sc so sh hs o a i cl) := b in
  let ls := ls + (Z.of_nat (length name) + Z.of_nat (length value) + 32) in
  let fc := fc + 1 in
  let b := mkBlock ls fc r m sr sp sc so sh hs o a i cl in
  if r || (cfg_max_list_size cfg <? ls) || (cfg_max_pairs cfg <? fc) then (set_rejected b, false)
  else if negb (cfg_deliver cfg) then (b, false)
  else if malformed b then (b, false)
  else
    let '(b, skip) := check_field b name value in
    (b, negb skip && negb (malformed b)).

(** The RFC 9113 section 8.3.1 check of a request block after the loop. *)
Definition request_is_malformed (b : Block) : bool :=
  let has bits := negb (Z.land (seen_pseudo b) bits =? 0) in
  let extended_connect := has pseudo.PROTOCOL in
  let base := Z.lor (Z.lor pseudo.METHOD pseudo.SCHEME) pseudo.PATH in
  if saw_connect b && negb extended_connect then
    has (Z.lor pseudo.SCHEME pseudo.PATH) || negb (has pseudo.AUTHORITY)
  else
    negb (Z.land (seen_pseudo b) base =? base)
    || (negb (has pseudo.AUTHORITY) && negb (saw_host b))
    || (extended_connect && (negb (saw_connect b) || negb (has pseudo.AUTHORITY)))
    || (http_scheme b && negb (origin_form b) && negb (asterisk_form b && saw_options b)).
End loop.

(** The whole block: the fields of [fs] in order, and those that are surfaced. *)
Fixpoint fold_fields (cfg : BlockConfig) (b : Block) (fs : list (bytes * bytes)) : Block * list (bytes * bytes) :=
  match fs with
  | [] => (b, [])
  | (name, value) :: fs =>
      let '(b, surfaced) := field_step cfg b name value in
      let '(b, out) := fold_fields cfg b fs in
      (b, if (surfaced : bool) then (name, value) :: out else out)
  end.

Example a_get_request :
  let cfg := mkConfig true false false true true 0 65535 128 in
  let '(b, out) := fold_fields cfg (Block_init false false)
    [(bs ":method", bs "GET"); (bs ":scheme", bs "https"); (bs ":path", bs "/"); (bs ":authority", bs "a.b");
     (bs "content-length", bs "12")] in
  malformed b = false ∧ request_is_malformed b = false ∧ content_length b = Some 12 ∧ length out = 5%nat.
Proof. vm_compute. repeat split. Qed.
