(* ===== verification/H2FieldsFacts.v ===== *)
(** * Accepted requests are well-formed

    The decode loop of [finish_header_block] on a request, against a declarative
    reading of sections 8.2 and 8.3.1 of RFC 9113: which blocks of fields are
    accepted, what is surfaced of them, and when the check after the loop lets
    the request through. *)

From S2P Require Import Prelude H2Wire H2Fields.

#[local] Open Scope Z_scope.

Abbreviation field := (bytes * bytes)%type.

(** ** Pseudo-header bits *)

Definition name_of_bit (bit : Z) : bytes :=
  if bit =? pseudo.METHOD then bs "method" else if bit =? pseudo.SCHEME then bs "scheme"
  else if bit =? pseudo.AUTHORITY then bs "authority" else if bit =? pseudo.PATH then bs "path"
  else if bit =? pseudo.STATUS then bs "status" else bs "protocol".

Lemma bit_of_cases r :
  pseudo.bit_of r = pseudo.UNKNOWN ∨
  pseudo.bit_of r ∈ [pseudo.METHOD; pseudo.SCHEME; pseudo.AUTHORITY; pseudo.PATH; pseudo.STATUS; pseudo.PROTOCOL] ∧
  r = name_of_bit (pseudo.bit_of r).
Proof.
  unfold pseudo.bit_of, beq. repeat case_bool_decide; subst; [..|by left]; right; (split; [|reflexivity]); set_solver.
Qed.

Lemma bit_of_inj r r' : pseudo.bit_of r = pseudo.bit_of r' → pseudo.bit_of r ≠ pseudo.UNKNOWN → r = r'.
Proof. intros He Hu. destruct (bit_of_cases r) as [|[_ ->]], (bit_of_cases r') as [|[_ ->]]; congruence. Qed.

Lemma land_bits r r' : Z.land (pseudo.bit_of r) (pseudo.bit_of r') = 0 ↔ pseudo.bit_of r ≠ pseudo.bit_of r'.
Proof. unfold pseudo.bit_of, beq. repeat case_bool_decide; done. Qed.

(** The bits of the names of [ps]. *)
Definition bits (ps : list field) : Z := foldl (λ acc f, Z.lor acc (pseudo.bit_of (tail f.1))) 0 ps.

Lemma bits_snoc ps f : bits (ps ++ [f]) = Z.lor (bits ps) (pseudo.bit_of (tail f.1)).
Proof. unfold bits. by rewrite foldl_app. Qed.

Lemma bits_land ps r :
  Z.land (bits ps) (pseudo.bit_of r) = 0 ↔ Forall (λ f, pseudo.bit_of (tail f.1) ≠ pseudo.bit_of r) ps.
Proof.
  induction ps as [|f ps IH] using rev_ind; [done|].
  rewrite bits_snoc, Z.land_lor_distr_l, Z.lor_eq_0_iff, IH, Forall_app, Forall_singleton, land_bits. done.
Qed.

(** ** Blocks of fields *)

Definition field_size (f : field) : Z := Z.of_nat (length f.1) + Z.of_nat (length f.2) + 32.
Definition block_size (fs : list field) : Z := foldr (λ f n, field_size f + n) 0 fs.

Definition is_host (f : field) : bool := beq f.1 (bs "host") && pseudo.is_valid_value pseudo.AUTHORITY f.2.
Definition is_content_length (f : field) : bool := beq f.1 (bs "content-length").

(** Regular fields that the application sees. *)
Definition is_surfaced (f : field) : bool :=
  negb (has_control_byte f.2)
  && negb (beq f.1 (bs "host") && negb (pseudo.is_valid_value pseudo.AUTHORITY f.2)).

Definition content_lengths (rs : list field) : list Z :=
  omap (λ f, if is_content_length f then parse_content_length_strict f.2 else None) rs.

Section request.
Context (cfg : BlockConfig).

Definition request_pseudo (r : bytes) : Prop :=
  r = bs "method" ∨ r = bs "scheme" ∨ r = bs "authority" ∨ r = bs "path" ∨
  r = bs "protocol" ∧ cfg_enable_connect_protocol cfg ≠ 0.

Definition pseudo_ok (f : field) : Prop :=
  ∃ r, f.1 = ch ":" :: r ∧ request_pseudo r ∧ f.2 ≠ [] ∧ is_malformed_field_value f.2 = false ∧
    has_control_byte f.2 = false ∧ pseudo.is_valid_value (pseudo.bit_of r) f.2 = true ∧
    (has_edge_whitespace f.2 = true →
       r = bs "protocol" ∧ cfg_strict_field_whitespace cfg = false ∧ forallb is_space_or_tab f.2 = false).

Definition regular_ok (f : field) : Prop :=
  head f.1 ≠ Some (ch ":") ∧ is_malformed_field_name f.1 = false ∧ is_malformed_field_value f.2 = false ∧
  connection_specific f.1 = false ∧
  (is_host f = true → f.2 ≠ []) ∧
  (f.1 = bs "te" → eq_ignore_ascii_case f.2 (bs "trailers") = true) ∧
  (is_content_length f = true → is_Some (parse_content_length_strict f.2)).

(** A block a request may have: pseudo-headers first, each at most once, one
    authority in [host], one [content-length], within the limits. *)
Record block_ok (ps rs : list field) : Prop := {
  bk_pseudo : Forall pseudo_ok ps;
  bk_nodup : NoDup ps.*1;
  bk_regular : Forall regular_ok rs;
  bk_host : (length (filter is_host rs) <= 1)%nat;
  bk_length : (length (filter is_content_length rs) <= 1)%nat;
  bk_size : block_size (ps ++ rs) <= cfg_max_list_size cfg;
  bk_count : Z.of_nat (length (ps ++ rs)) <= cfg_max_pairs cfg }.

(** What the locals of the loop hold after such a block. *)
Record locals (ps rs : list field) (b : Block) (out : list field) : Prop := {
  lo_rejected : rejected b = false;
  lo_malformed : malformed b = false;
  lo_size : list_size b = block_size (ps ++ rs);
  lo_count : field_count b = Z.of_nat (length (ps ++ rs));
  lo_regular : seen_regular b = negb (bool_decide (rs = []));
  lo_bits : seen_pseudo b = bits ps;
  lo_connect : saw_connect b = bool_decide ((bs ":method", bs "CONNECT") ∈ ps);
  lo_options : ∀ v, (bs ":method", v) ∈ ps → saw_options b = beq v (bs "OPTIONS");
  lo_http : ∀ v, (bs ":scheme", v) ∈ ps →
    http_scheme b = eq_ignore_ascii_case v (bs "http") || eq_ignore_ascii_case v (bs "https");
  lo_path : ∀ v, (bs ":path", v) ∈ ps →
    origin_form b = bool_decide (head v = Some (ch "/")) ∧ asterisk_form b = beq v (bs "*");
  lo_host : saw_host b = existsb is_host rs;
  lo_length : option_list (content_length b) = content_lengths rs;
  lo_out : out = ps ++ filter is_surfaced rs }.

(** ** One field *)

Definition accepted (b : Block) : Prop := rejected b = false ∧ malformed b = false.

(** The counters of the loop with one more field. *)
Definition count_field (b : Block) (f : field) : Block :=
  let '(mkBlock ls fc r m sr sp sc so sh hs o a i cl) := b in
  mkBlock (ls + field_size f) (fc + 1) r m sr sp sc so sh hs o a i cl.

Definition within_limits (b : Block) : Prop := list_size b <= cfg_max_list_size cfg ∧ field_count b <= cfg_max_pairs cfg.

Lemma check_field_limits b name value :
  let b' := (check_field cfg b name value).1 in
  rejected b' = rejected b ∧ list_size b' = list_size b ∧ field_count b' = field_count b.
Proof.
  destruct b as [ls fc r m sr sp sc so sh hs o a i cl]. unfold check_field. destruct (_ || _); [done|].
  destruct name as [|c rest]; [done|]. destruct (c =? ch ":").
  - unfold on_pseudo, malformed_if. by destruct (pseudo_is_malformed _ _ _ _).
  - destruct (on_regular _ _ _ _) as [b' sk] eqn:E. cbn [fst]. revert E. unfold on_regular, malformed_if. cbn.
    repeat case_match; by intros [= <- <-].
Qed.

Lemma field_step_accepted b f :
  cfg_deliver cfg = true → accepted (field_step cfg b f.1 f.2).1 →
  accepted b ∧ within_limits (count_field b f) ∧
  field_step cfg b f.1 f.2 =
    let '(b', skip) := check_field cfg (count_field b f) f.1 f.2 in (b', negb skip && negb (malformed b')).
Proof.
  intros Hd. unfold within_limits. unfold field_step. rewrite Hd.
  destruct b as [ls fc r m sr sp sc so sh hs o a i cl]. cbn [negb malformed count_field list_size field_count].
  change (ls + (Z.of_nat (length f.1) + Z.of_nat (length f.2) + 32)) with (ls + field_size f).
  destruct (r || _ || _) eqn:El; [by intros [? _]|]. apply orb_false_iff in El as [El Ef]. apply orb_false_iff in El as [-> El].
  destruct m; [by intros [_ ?]|]. intros _. split_and!; try done; lia.
Qed.

Lemma field_step_run b f :
  cfg_deliver cfg = true → accepted b → within_limits (count_field b f) →
  field_step cfg b f.1 f.2 =
    let '(b', skip) := check_field cfg (count_field b f) f.1 f.2 in (b', negb skip && negb (malformed b')).
Proof.
  intros Hd [Hr Hm] [Hl Hc]. unfold field_step. rewrite Hd. destruct b as [ls fc r m sr sp sc so sh hs o a i cl].
  cbn in Hr, Hm, Hl, Hc. subst r m. cbn [negb malformed count_field].
  change (ls + (Z.of_nat (length f.1) + Z.of_nat (length f.2) + 32)) with (ls + field_size f).
  destruct (Z.ltb_spec (cfg_max_list_size cfg) (ls + field_size f)); [lia|].
  destruct (Z.ltb_spec (cfg_max_pairs cfg) (fc + 1)); [lia|]. done.
Qed.

Context (Hserver : cfg_is_server cfg = true) (Htrailer : cfg_is_trailer cfg = false).

Lemma request_pseudo_bit r :
  request_pseudo r ↔
  pseudo.bit_of r ≠ pseudo.UNKNOWN ∧ r ≠ bs "status" ∧ (r = bs "protocol" → cfg_enable_connect_protocol cfg ≠ 0).
Proof.
  unfold request_pseudo. split.
  - intros [->|[->|[->|[->|[-> H]]]]]; done.
  - intros (Hu & Hs & Hp). destruct (bit_of_cases r) as [|[Hin Hr]]; [done|]. clear Hu. rewrite !elem_of_cons in Hin.
    destruct Hin as [Hb|[Hb|[Hb|[Hb|[Hb|[Hb|Hn%elem_of_nil]]]]]]; [..|done];
      rewrite Hb in Hr; subst r; auto 10. by destruct Hs.
Qed.

Lemma pseudo_malformed_iff b r v :
  pseudo_is_malformed cfg b r v = false ↔
  seen_regular b = false ∧ request_pseudo r ∧ Z.land (seen_pseudo b) (pseudo.bit_of r) = 0 ∧ v ≠ [] ∧
  has_control_byte v = false ∧ pseudo.is_valid_value (pseudo.bit_of r) v = true ∧
  (has_edge_whitespace v = true →
     r = bs "protocol" ∧ cfg_strict_field_whitespace cfg = false ∧ forallb is_space_or_tab v = false).
Proof.
  unfold pseudo_is_malformed. rewrite Hserver, Htrailer, request_pseudo_bit, !orb_false_iff, !negb_false_iff.
  cbn [orb andb]. rewrite Z.eqb_neq, Z.eqb_eq, Nat.eqb_neq.
  assert (Hst : Bool.eqb (beq r (bs "status")) true = false ↔ r ≠ bs "status").
  { unfold beq. by case_bool_decide. }
  assert (Hpr : beq r (bs "protocol") && (cfg_enable_connect_protocol cfg =? 0) = false ↔
    (r = bs "protocol" → cfg_enable_connect_protocol cfg ≠ 0)).
  { unfold beq. case_bool_decide; cbn [andb]; [rewrite Z.eqb_neq|]; tauto. }
  assert (Hv : length v ≠ 0%nat ↔ v ≠ []) by (by destruct v).
  assert (Hbit : (pseudo.bit_of r =? pseudo.PROTOCOL) = true ↔ r = bs "protocol").
  { rewrite Z.eqb_eq. split; [|by intros ->]. intros H. by apply bit_of_inj; rewrite H. }
  assert (Hed : has_edge_whitespace v &&
      (cfg_strict_field_whitespace cfg || negb (pseudo.bit_of r =? pseudo.PROTOCOL) || forallb is_space_or_tab v) = false ↔
    (has_edge_whitespace v = true →
     r = bs "protocol" ∧ cfg_strict_field_whitespace cfg = false ∧ forallb is_space_or_tab v = false)).
  { rewrite <- Hbit. generalize (has_edge_whitespace v), (cfg_strict_field_whitespace cfg), (pseudo.bit_of r =? pseudo.PROTOCOL),
      (forallb is_space_or_tab v). intros [] [] [] []; cbn; intuition congruence. }
  rewrite Hst, Hpr, Hv, Hed. tauto.
Qed.

Lemma pseudo_name_ok r : request_pseudo r → is_malformed_field_name (ch ":" :: r) = false.
Proof. by intros [->|[->|[->|[->|[-> _]]]]]. Qed.

(** A field whose name starts with a colon, in a block read so far. *)
Lemma check_pseudo b r v :
  malformed b = false →
  malformed (check_field cfg b (ch ":" :: r) v).1 = false ↔
  seen_regular b = false ∧ Z.land (seen_pseudo b) (pseudo.bit_of r) = 0 ∧ pseudo_ok (ch ":" :: r, v).
Proof.
  intros Hm. assert (Hok : pseudo_ok (ch ":" :: r, v) ↔ is_malformed_field_value v = false ∧ is_malformed_field_name (ch ":" :: r) = false ∧
    request_pseudo r ∧ v ≠ [] ∧ has_control_byte v = false ∧ pseudo.is_valid_value (pseudo.bit_of r) v = true ∧
    (has_edge_whitespace v = true → r = bs "protocol" ∧ cfg_strict_field_whitespace cfg = false ∧ forallb is_space_or_tab v = false)).
  { unfold pseudo_ok. cbn [fst snd]. split; [|naive_solver]. intros (r' & [= <-] & H & ?). pose proof (pseudo_name_ok r H). naive_solver. }
  rewrite Hok. unfold check_field.
  destruct (is_malformed_field_name _); [cbn; destruct b; cbn; naive_solver|].
  destruct (is_malformed_field_value v); [cbn; destruct b; cbn; naive_solver|]. cbn [orb fst]. rewrite Z.eqb_refl. cbn [fst].
  assert (malformed (on_pseudo cfg b r v) = pseudo_is_malformed cfg b r v) as ->.
  { destruct b as [ls fc rj m sr sp sc so sh hs o a i cl]. cbn in Hm. subst m. unfold on_pseudo, malformed_if.
    by destruct (pseudo_is_malformed _ _ _ _). }
  rewrite pseudo_malformed_iff. naive_solver.
Qed.

Lemma block_size_snoc fs f : block_size (fs ++ [f]) = block_size fs + field_size f.
Proof. unfold block_size. induction fs as [|g fs IH]; cbn [foldr app]; [lia|]. rewrite IH. lia. Qed.

Lemma check_pseudo_run b r v :
  malformed (check_field cfg b (ch ":" :: r) v).1 = false →
  check_field cfg b (ch ":" :: r) v = (on_pseudo cfg b r v, false) ∧ pseudo_is_malformed cfg b r v = false.
Proof.
  unfold check_field. destruct b as [ls fc rj m sr sp sc so sh hs o a i cl].
  destruct (_ || _); [done|]. rewrite Z.eqb_refl. cbn [fst]. intros H. split; [done|]. revert H. unfold on_pseudo, malformed_if.
  by destruct (pseudo_is_malformed _ _ _ _).
Qed.

(** A pseudo-header is in [ps], or new with a name [ps] does not have. *)
Lemma pseudo_cases ps r v n w :
  Forall (λ f : field, pseudo.bit_of (tail f.1) ≠ pseudo.bit_of r) ps →
  (ch ":" :: n, w) ∈ ps ++ [(ch ":" :: r, v)] →
  (ch ":" :: n, w) ∈ ps ∧ pseudo.bit_of n ≠ pseudo.bit_of r ∨ n = r ∧ w = v.
Proof.
  intros Hf. rewrite elem_of_app, list_elem_of_singleton. intros [Hin|[= -> ->]]; [left|by right].
  split; [done|]. rewrite Forall_forall in Hf. exact (Hf _ Hin).
Qed.

(** The locals after a pseudo-header that is accepted. *)
Lemma locals_pseudo ps b out r v :
  let f := (ch ":" :: r, v) in
  locals ps [] b out → malformed (check_field cfg (count_field b f) f.1 f.2).1 = false →
  ∃ b', check_field cfg (count_field b f) f.1 f.2 = (b', false) ∧ locals (ps ++ [f]) [] b' (out ++ [f]).
Proof.
  intros f [Hr Hmf Hsz Hct Hrg Hbt Hcn Hopt Hht Hpt Hho Hle Hout] Hm.
  destruct (check_pseudo_run _ _ _ Hm) as [Hrun Hpm]. eexists. split; [exact Hrun|].
  apply pseudo_malformed_iff in Hpm as Hp. destruct Hp as (_ & _ & Hland & _). clear Hrun Hm.
  destruct b as [ls fc rj m sr sp sc so sh hs o a i cl]. cbn in *. subst. unfold on_pseudo. rewrite Hpm. cbn [malformed_if].
  apply bits_land in Hland. rewrite app_nil_r in *.
  split; cbn [rejected malformed list_size field_count seen_regular seen_pseudo saw_connect saw_options http_scheme
    origin_form asterisk_form saw_host content_length]; try done; rewrite ?app_nil_r.
  - by rewrite block_size_snoc.
  - rewrite length_app. cbn. lia.
  - by rewrite bits_snoc.
  - unfold beq. rewrite (bool_decide_ext ((bs ":method", bs "CONNECT") ∈ ps ++ [f])
      ((bs ":method", bs "CONNECT") ∈ ps ∨ r = bs "method" ∧ v = bs "CONNECT")).
    + rewrite bool_decide_or, bool_decide_and. destruct (bool_decide _ && _); [by rewrite orb_true_r|by rewrite orb_false_r].
    + rewrite elem_of_app, list_elem_of_singleton. unfold f. split; (intros [?|He]; [by left|right]).
      * by injection He as <- <-.
      * by destruct He as [-> ->].
  - intros w Hw. apply (pseudo_cases ps r v (bs "method") w Hland) in Hw as [[Hin Hne]|[<- ->]]; [|done].
    destruct (Z.eqb_spec (pseudo.bit_of r) pseudo.METHOD) as [He|]; [by destruct Hne|]. by apply Hopt.
  - intros w Hw. apply (pseudo_cases ps r v (bs "scheme") w Hland) in Hw as [[Hin Hne]|[<- ->]]; [|done].
    destruct (Z.eqb_spec (pseudo.bit_of r) pseudo.SCHEME) as [He|]; [by destruct Hne|]. by apply Hht.
  - intros w Hw. apply (pseudo_cases ps r v (bs "path") w Hland) in Hw as [[Hin Hne]|[<- ->]]; [|done].
    destruct (Z.eqb_spec (pseudo.bit_of r) pseudo.PATH) as [He|]; [by destruct Hne|]. by apply Hpt.
  - done.
Qed.

(** A field whose name does not start with a colon. *)
Lemma check_regular b f :
  malformed b = false → head f.1 ≠ Some (ch ":") →
  malformed (check_field cfg b f.1 f.2).1 = false ↔
  regular_ok f ∧ (is_host f = true → saw_host b = false) ∧ (is_content_length f = true → content_length b = None).
Proof.
  intros Hm Hh. destruct f as [name v]. unfold regular_ok, check_field, is_host, is_content_length. cbn [fst snd] in *.
  destruct b as [ls fc rj m sr sp sc so sh hs o a i cl]. cbn in Hm. subst m.
  destruct (is_malformed_field_name name) eqn:En; [cbn; split; [done|naive_solver]|].
  destruct (is_malformed_field_value v) eqn:Ev; [cbn; split; [done|naive_solver]|]. cbn [orb].
  destruct name as [|c rest]; [done|]. destruct (Z.eqb_spec c (ch ":")) as [->|Hc]; [by destruct Hh|].
  destruct (on_regular _ _ _ _) as [b' sk] eqn:E. cbn [fst]. revert E. set (name := c :: rest) in *.
  unfold on_regular. rewrite Hserver. cbn [orb]. rewrite andb_true_r.
  destruct (connection_specific name) eqn:Ec; [intros [= <- <-]; cbn; split; [done|naive_solver]|].
  destruct (beq name (bs "host")) eqn:Eh.
  { assert (name ≠ bs "te" ∧ beq name (bs "content-length") = false) as [Ht ->].
    { apply bool_decide_eq_true in Eh. rewrite Eh. done. }
    clearbody name. destruct (pseudo.is_valid_value pseudo.AUTHORITY v); intros [= <- <-]; cbn;
      [destruct v as [|x v], sh|]; cbn; intuition congruence. }
  cbn [andb]. destruct (beq name (bs "te")) eqn:Et.
  { assert (beq name (bs "content-length") = false) as ->.
    { apply bool_decide_eq_true in Et. by rewrite Et. }
    apply bool_decide_eq_true in Et. clearbody name. intros [= <- <-].
    destruct (eq_ignore_ascii_case v (bs "trailers")); cbn; intuition congruence. }
  apply bool_decide_eq_false in Et. clearbody name. destruct (beq name (bs "content-length")).
  - cbn [content_length set_seen_regular]. destruct (parse_content_length_strict v) as [n|]; [destruct cl as [n'|]|];
      intros [= <- <-]; cbn; (split; [intros Hx|intros ((_ & _ & _ & _ & _ & _ & Hp) & _ & Hcl)]); try done.
    + by specialize (Hcl eq_refl).
    + by destruct (Hp eq_refl).
  - intros [= <- <-]. cbn. split; [intros _; by split_and!|done].
Qed.

(** The locals of the loop after a regular field that is accepted. *)
Definition regular_block (b : Block) (f : field) : Block :=
  let '(mkBlock ls fc r m sr sp sc so sh hs o a i cl) := b in
  mkBlock ls fc r m true sp sc so (sh || is_host f) hs o a i
    (if is_content_length f then parse_content_length_strict f.2 else cl).

Lemma check_regular_run b f :
  head f.1 ≠ Some (ch ":") → regular_ok f → (is_host f = true → saw_host b = false) →
  (is_content_length f = true → content_length b = None) →
  check_field cfg b f.1 f.2 = (regular_block b f, negb (is_surfaced f)).
Proof.
  destruct f as [name v]. unfold regular_block, regular_ok, is_surfaced, is_host, is_content_length. cbn [fst snd].
  intros Hh (_ & Hnm & Hvm & Hcs & Hv & Hte & Hpc) Hsh Hcl. unfold check_field. rewrite Hnm, Hvm. cbn [orb].
  destruct name as [|c rest]; [done|]. destruct (Z.eqb_spec c (ch ":")) as [->|Hc]; [by destruct Hh|].
  set (name := c :: rest) in *. destruct b as [ls fc rj m sr sp sc so sh hs o a i cl]. unfold on_regular.
  rewrite Hcs, Hserver. cbn [orb]. rewrite andb_true_r. cbn [saw_host content_length] in Hsh, Hcl.
  destruct (beq name (bs "host")) eqn:Eh; cbn [andb] in *.
  { assert (beq name (bs "content-length") = false) as -> by (apply bool_decide_eq_true in Eh; by rewrite Eh).
    destruct (pseudo.is_valid_value pseudo.AUTHORITY v); cbn [negb]; rewrite ?orb_false_r, ?andb_true_r, ?andb_false_r, ?negb_involutive; [|done].
    rewrite Hsh by done. specialize (Hv eq_refl). by destruct v. }
  rewrite orb_false_r, andb_true_r, negb_involutive. destruct (beq name (bs "te")) eqn:Et.
  { assert (beq name (bs "content-length") = false) as -> by (apply bool_decide_eq_true in Et; by rewrite Et).
    apply bool_decide_eq_true in Et. by rewrite (Hte Et). }
  destruct (beq name (bs "content-length")); [|done]. cbn [content_length set_seen_regular]. rewrite (Hcl eq_refl).
  by destruct (Hpc eq_refl) as [n ->].
Qed.

Lemma locals_regular ps rs b out f :
  locals ps rs b out → head f.1 ≠ Some (ch ":") →
  malformed (check_field cfg (count_field b f) f.1 f.2).1 = false →
  ∃ b', check_field cfg (count_field b f) f.1 f.2 = (b', negb (is_surfaced f)) ∧
    locals ps (rs ++ [f]) b' (out ++ if is_surfaced f then [f] else []).
Proof.
  intros [Hr Hmf Hsz Hct Hrg Hbt Hcn Hopt Hht Hpt Hho Hle Hout] Hh Hm.
  apply check_regular in Hm as (Hok & Hoh & Hoc); [|by destruct b|done].
  rewrite (check_regular_run _ f Hh Hok Hoh Hoc). eexists. split; [reflexivity|]. destruct Hok as (_ & _ & _ & _ & _ & _ & Hpc).
  destruct b as [ls fc rj m sr sp sc so sh hs o a i cl]. cbn in *. subst.
  split; cbn; try done; rewrite ?(assoc app ps rs [f]).
  - by rewrite block_size_snoc.
  - rewrite !length_app. cbn. lia.
  - by destruct rs.
  - by rewrite existsb_app; cbn; rewrite orb_false_r.
  - unfold content_lengths in *. rewrite omap_app, <- Hle. cbn. destruct (is_content_length f); [|by rewrite app_nil_r].
    rewrite (Hoc eq_refl). by destruct (Hpc eq_refl) as [n ->].
  - rewrite filter_app, <- (assoc app). do 2 f_equal. unfold filter. cbn. by destruct (is_surfaced f).
Qed.

(** ** The whole block *)

Definition within (fs : list field) : Prop :=
  block_size fs <= cfg_max_list_size cfg ∧ Z.of_nat (length fs) <= cfg_max_pairs cfg.

Lemma within_snoc fs f : within (fs ++ [f]) → within fs.
Proof. unfold within. rewrite block_size_snoc, length_app. unfold field_size. lia. Qed.

Lemma new_name ps f :
  Forall pseudo_ok ps → pseudo_ok f →
  f.1 ∉ ps.*1 ↔ Forall (λ g, pseudo.bit_of (tail g.1) ≠ pseudo.bit_of (tail f.1)) ps.
Proof.
  intros Hps (r & Hf & Hr & _). rewrite Hf. cbn [tail]. apply request_pseudo_bit in Hr as [Hu _].
  rewrite list_elem_of_fmap, Forall_forall. rewrite Forall_forall in Hps. split.
  - intros Hn g Hg He. destruct (Hps g Hg) as (r' & Hg1 & _). apply Hn. exists g. split; [|done]. rewrite Hg1 in He |- *. cbn in He.
    f_equal. symmetry in He. by apply bit_of_inj in He.
  - intros Hn (g & Hg1 & Hg). apply (Hn g Hg). by rewrite <- Hg1.
Qed.

Lemma forall_snoc (P : field → Prop) l x : Forall P (l ++ [x]) ↔ Forall P l ∧ P x.
Proof. by rewrite Forall_app, Forall_singleton. Qed.

Lemma block_ok_pseudo ps f :
  block_ok (ps ++ [f]) [] ↔ block_ok ps [] ∧ pseudo_ok f ∧ f.1 ∉ ps.*1 ∧ within (ps ++ [f]).
Proof.
  split.
  - intros [H1 H2 H3 H4 H5 H6 H7]. rewrite app_nil_r in *. apply forall_snoc in H1 as [H1 H1f].
    rewrite fmap_app in H2. apply NoDup_app in H2 as (H2 & Hd & _). destruct (within_snoc ps f (conj H6 H7)).
    split_and!; [split; by rewrite ?app_nil_r|done| |by split]. intros Hin. apply (Hd _ Hin). cbn. apply list_elem_of_singleton. done.
  - intros ([H1 H2 H3 H4 H5 _ _] & Hf & Hn & H6 & H7). split; rewrite ?app_nil_r; try done.
    + by apply forall_snoc.
    + rewrite fmap_app. apply NoDup_app. split_and!; [done| |apply NoDup_singleton].
      intros x Hx ->%list_elem_of_singleton. done.
Qed.

Lemma no_lengths rs : Forall regular_ok rs → content_lengths rs = [] ↔ filter is_content_length rs = [].
Proof.
  intros Hrs. unfold content_lengths, filter. induction Hrs as [|f rs (_ & _ & _ & _ & _ & _ & Hp) _ IH]; [done|]. cbn.
  destruct (is_content_length f) eqn:E; [|exact IH]. by destruct (Hp eq_refl) as [n ->].
Qed.

Lemma no_hosts rs : existsb is_host rs = false ↔ filter is_host rs = [].
Proof. unfold filter. induction rs as [|f rs IH]; [done|]. cbn. destruct (is_host f); [done|exact IH]. Qed.

Lemma filter_snoc_le (P : field → bool) rs f :
  (length (filter P (rs ++ [f])) <= 1)%nat ↔ (length (filter P rs) <= 1)%nat ∧ (P f = true → filter P rs = []).
Proof.
  rewrite filter_app, length_app, filter_cons, filter_nil. destruct (P f); cbn [Is_true]; [rewrite decide_True by done|rewrite decide_False by tauto]; cbn [length].
  - rewrite <- length_zero_iff_nil. split; [intros; split; [|intros _]; lia|]. intros [_ H]. specialize (H eq_refl). lia.
  - split; [split; [lia|done]|lia].
Qed.

Lemma block_ok_regular ps rs f :
  block_ok ps (rs ++ [f]) ↔
  block_ok ps rs ∧ regular_ok f ∧ (is_host f = true → existsb is_host rs = false) ∧
  (is_content_length f = true → content_lengths rs = []) ∧ within (ps ++ rs ++ [f]).
Proof.
  split.
  - intros [H1 H2 H3 H4 H5 H6 H7]. apply forall_snoc in H3 as [H3 H3f].
    apply filter_snoc_le in H4 as [H4 H4f]. apply filter_snoc_le in H5 as [H5 H5f].
    pose proof (conj H6 H7) as Hw. rewrite (assoc app) in Hw. destruct (within_snoc _ f Hw).
    split_and!; try done. { by rewrite no_hosts. } { by rewrite no_lengths. }
  - intros ([H1 H2 H3 H4 H5 _ _] & Hf & Hh & Hl & H6 & H7). rewrite no_hosts in Hh. rewrite no_lengths in Hl by done.
    split; try done; [by apply forall_snoc|by apply filter_snoc_le..].
Qed.

Context (Hdeliver : cfg_deliver cfg = true).

Lemma step_accepted_iff b f :
  accepted b →
  accepted (field_step cfg b f.1 f.2).1 ↔
  within_limits (count_field b f) ∧ malformed (check_field cfg (count_field b f) f.1 f.2).1 = false.
Proof.
  intros Hb. split.
  - intros Ha. destruct (field_step_accepted b f Hdeliver Ha) as (_ & Hw & Hrun). split; [done|].
    rewrite Hrun in Ha. destruct Ha as [_ Hm]. by destruct (check_field _ _ _ _).
  - intros [Hw Hm]. rewrite (field_step_run b f Hdeliver Hb Hw).
    pose proof (check_field_limits (count_field b f) f.1 f.2) as [Hr _].
    destruct (check_field _ _ _ _) as [b' sk]. cbn in *. split; [|done]. rewrite Hr. destruct Hb. by destruct b.
Qed.

Lemma within_count ps rs b out f :
  locals ps rs b out → within_limits (count_field b f) ↔ within (ps ++ rs ++ [f]).
Proof.
  intros [_ _ Hsz Hct _ _ _ _ _ _ _ _ _]. unfold within_limits, within. rewrite (assoc app ps rs [f]), block_size_snoc, length_app.
  destruct b as [ls fc rj m sr sp sc so sh hs o a i cl]. cbn in *. lia.
Qed.

Definition surface (s : bool) (f : field) : list field := if s then [f] else [].

(** A pseudo-header is accepted exactly when no regular field came before it and the block stays well-formed. *)
Lemma step_pseudo ps rs b out f :
  block_ok ps rs → locals ps rs b out → head f.1 = Some (ch ":") →
  let '(b', s) := field_step cfg b f.1 f.2 in
  (accepted b' ↔ rs = [] ∧ block_ok (ps ++ [f]) []) ∧
  (accepted b' → locals (ps ++ [f]) [] b' (out ++ surface s f)).
Proof.
  intros Hk Hl Hh. destruct f as [[|c r] v]; [done|]. injection Hh as ->. set (f := (ch ":" :: r, v)).
  assert (Hb : accepted b) by (split; apply Hl).
  assert (Hmc : malformed (count_field b f) = false) by (destruct b; apply Hl).
  pose proof (step_accepted_iff b f Hb) as Hiff. pose proof (field_step_run b f Hdeliver Hb) as Hrun.
  pose proof (within_count _ _ _ _ f Hl) as Hwc.
  assert (Hsr : seen_regular (count_field b f) = negb (bool_decide (rs = []))) by (destruct b; apply Hl).
  assert (Hsp : seen_pseudo (count_field b f) = bits ps) by (destruct b; apply Hl).
  pose proof (check_pseudo _ r v Hmc) as Hck. rewrite Hsr, Hsp, bits_land in Hck.
  destruct (field_step cfg b f.1 f.2) as [b' s]. cbn [fst] in Hiff. split.
  - rewrite Hiff. change (check_field cfg (count_field b f) f.1 f.2) with (check_field cfg (count_field b f) (ch ":" :: r) v).
    rewrite Hck, Hwc, block_ok_pseudo. clear Hiff Hrun Hck Hwc. case_bool_decide as Hrs; [subst rs|]; [|naive_solver].
    pose proof (new_name ps f (bk_pseudo _ _ Hk)) as Hn. cbn [tail f fst] in Hn. split.
    + intros (Hw & _ & Hland & Hok). split_and!; [done|done|done|by apply Hn|done].
    + intros (_ & _ & Hok & Hni & Hw). split_and!; [done|done|by apply Hn|done].
  - rewrite Hiff. intros [Hw Hm]. specialize (Hrun Hw). assert (rs = []) as ->.
    { apply Hck in Hm as [Hm _]. by case_bool_decide. }
    destruct (locals_pseudo ps b out r v Hl Hm) as (b1 & Hc & Hl'). fold f in Hc, Hl'. rewrite Hc in Hrun.
    injection Hrun as -> ->. rewrite (lo_malformed _ _ _ _ Hl'). exact Hl'.
Qed.

Lemma step_regular ps rs b out f :
  block_ok ps rs → locals ps rs b out → head f.1 ≠ Some (ch ":") →
  let '(b', s) := field_step cfg b f.1 f.2 in
  (accepted b' ↔ block_ok ps (rs ++ [f])) ∧
  (accepted b' → locals ps (rs ++ [f]) b' (out ++ surface s f)).
Proof.
  intros Hk Hl Hh. assert (Hb : accepted b) by (split; apply Hl).
  assert (Hmc : malformed (count_field b f) = false) by (destruct b; apply Hl).
  pose proof (step_accepted_iff b f Hb) as Hiff. pose proof (field_step_run b f Hdeliver Hb) as Hrun.
  pose proof (within_count _ _ _ _ f Hl) as Hwc. pose proof (check_regular _ f Hmc Hh) as Hck.
  assert (Hsh : saw_host (count_field b f) = existsb is_host rs) by (destruct b; apply Hl).
  assert (Hcl : content_length (count_field b f) = None ↔ content_lengths rs = []).
  { rewrite <- (lo_length _ _ _ _ Hl). destruct b as [? ? ? ? ? ? ? ? ? ? ? ? ? []]; cbn; naive_solver. }
  rewrite Hsh, Hcl in Hck. destruct (field_step cfg b f.1 f.2) as [b' s]. cbn [fst] in Hiff. split.
  - rewrite Hiff, Hck, Hwc, block_ok_regular. naive_solver.
  - rewrite Hiff. intros [Hw Hm]. specialize (Hrun Hw).
    destruct (locals_regular ps rs b out f Hl Hh Hm) as (b1 & Hc & Hl'). rewrite Hc in Hrun.
    injection Hrun as -> ->. rewrite (lo_malformed _ _ _ _ Hl'), negb_involutive, andb_true_r. exact Hl'.
Qed.

Lemma fold_fields_snoc b l f :
  fold_fields cfg b (l ++ [f]) =
  let '(b1, o1) := fold_fields cfg b l in
  let '(b2, s) := field_step cfg b1 f.1 f.2 in (b2, o1 ++ surface s f).
Proof.
  revert b. induction l as [|[n v] l IH]; intros b; cbn [fold_fields app].
  - destruct f as [n v]. cbn [fold_fields fst snd]. by destruct (field_step cfg b n v) as [b2 []].
  - destruct (field_step cfg b n v) as [b1 s1]. rewrite IH. destruct (fold_fields cfg b1 l) as [b2 o2].
    destruct (field_step cfg b2 f.1 f.2) as [b3 s3]. by destruct s1.
Qed.

Context (Hlimits : 0 <= cfg_max_list_size cfg ∧ 0 <= cfg_max_pairs cfg).

Lemma pseudo_ok_head f : pseudo_ok f → head f.1 = Some (ch ":").
Proof. by intros (r & -> & _). Qed.

(** The loop accepts a block exactly when it splits into well-formed parts, and its locals then describe them. *)
Lemma loop_spec fs :
  let '(b, out) := fold_fields cfg (Block_init false false) fs in
  (accepted b ↔ ∃ ps rs, fs = ps ++ rs ∧ block_ok ps rs) ∧
  (∀ ps rs, fs = ps ++ rs → block_ok ps rs → locals ps rs b out).
Proof.
  induction fs as [|f l IH] using rev_ind.
  - cbn. split.
    + split; [|done]. intros _. exists [], []. split; [done|]. split; cbn; try lia; constructor.
    + intros ps rs H _. symmetry in H. apply app_nil in H as [-> ->]. split; try done; cbn; intros v Hv%elem_of_nil; done.
  - rewrite fold_fields_snoc. destruct (fold_fields cfg _ l) as [b o]. destruct IH as [IHa IHl].
    assert (Hp : ∀ ps, l = ps → block_ok (ps ++ [f]) [] → block_ok ps [] ∧ locals ps [] b o ∧ head f.1 = Some (ch ":")).
    { intros ps Hl Hk. apply block_ok_pseudo in Hk as (Hk & Hf & _). split_and!; [done| |by apply pseudo_ok_head].
      apply IHl; [by rewrite app_nil_r|done]. }
    assert (Hr : ∀ ps rs, l = ps ++ rs → block_ok ps (rs ++ [f]) → block_ok ps rs ∧ locals ps rs b o ∧ head f.1 ≠ Some (ch ":")).
    { intros ps rs Hl Hk. apply block_ok_regular in Hk as (Hk & Hf & _). split_and!; [done| |apply Hf]. by apply IHl. }
    assert (Hcases : ∀ ps rs, l ++ [f] = ps ++ rs →
      (∃ ps', ps = ps' ++ [f] ∧ rs = [] ∧ l = ps') ∨ (∃ rs', rs = rs' ++ [f] ∧ l = ps ++ rs')).
    { intros ps rs He. destruct rs as [|x rs _] using rev_ind.
      - left. rewrite app_nil_r in He. by exists l.
      - right. rewrite (assoc app) in He. apply app_inj_tail in He as [-> ->]. by exists rs. }
    destruct (field_step cfg b f.1 f.2) as [b' s] eqn:Es. split; [split|].
    + intros Ha. assert (Hb : accepted b).
      { apply (field_step_accepted b f Hdeliver). by rewrite Es. }
      apply IHa in Hb as (ps & rs & Hl & Hk). pose proof (IHl _ _ Hl Hk) as Hlo. destruct (decide (head f.1 = Some (ch ":"))) as [Hh|Hh].
      * pose proof (step_pseudo ps rs b o f Hk Hlo Hh) as Hst. rewrite Es in Hst. destruct Hst as [Hst _].
        destruct (proj1 Hst Ha) as [Hrs Hk']. rewrite Hrs, app_nil_r in Hl. exists (ps ++ [f]), []. by rewrite app_nil_r, Hl.
      * pose proof (step_regular ps rs b o f Hk Hlo Hh) as Hst. rewrite Es in Hst. destruct Hst as [Hst _].
        exists ps, (rs ++ [f]). rewrite (assoc app), <- Hl. split; [done|by apply Hst].
    + intros (ps & rs & He & Hk). apply Hcases in He as [(ps' & -> & -> & Hl)|(rs' & -> & Hl)].
      * destruct (Hp ps' Hl Hk) as (Hk' & Hlo & Hh). pose proof (step_pseudo _ _ _ _ f Hk' Hlo Hh) as Hst. rewrite Es in Hst. by apply Hst.
      * destruct (Hr ps rs' Hl Hk) as (Hk' & Hlo & Hh). pose proof (step_regular _ _ _ _ f Hk' Hlo Hh) as Hst. rewrite Es in Hst. by apply Hst.
    + intros ps rs He Hk. apply Hcases in He as [(ps' & -> & -> & Hl)|(rs' & -> & Hl)].
      * destruct (Hp ps' Hl Hk) as (Hk' & Hlo & Hh). pose proof (step_pseudo _ _ _ _ f Hk' Hlo Hh) as Hst. rewrite Es in Hst.
        destruct Hst as [Ha Hst]. by apply Hst, Ha.
      * destruct (Hr ps rs' Hl Hk) as (Hk' & Hlo & Hh). pose proof (step_regular _ _ _ _ f Hk' Hlo Hh) as Hst. rewrite Es in Hst.
        destruct Hst as [Ha Hst]. by apply Hst, Ha.
Qed.

(** ** The check after the loop *)

Definition has_pseudo (n : bytes) (ps : list field) : bool := existsb (λ f, beq f.1 (ch ":" :: n)) ps.

Definition is_http (s : bytes) : bool := eq_ignore_ascii_case s (bs "http") || eq_ignore_ascii_case s (bs "https").

(** The pseudo-headers of a request: [:authority] alone for CONNECT, and otherwise
    method, scheme and path with an authority, where [:protocol] asks for an
    extended CONNECT and a path of http starts with a slash unless it is the
    asterisk of OPTIONS. *)
Definition request_shape (ps rs : list field) : Prop :=
  let connect := bool_decide ((bs ":method", bs "CONNECT") ∈ ps) in
  if connect && negb (has_pseudo (bs "protocol") ps) then
    has_pseudo (bs "scheme") ps = false ∧ has_pseudo (bs "path") ps = false ∧ has_pseudo (bs "authority") ps = true
  else
    (has_pseudo (bs "method") ps = true ∧ has_pseudo (bs "scheme") ps = true ∧ has_pseudo (bs "path") ps = true) ∧
    (has_pseudo (bs "authority") ps = true ∨ existsb is_host rs = true) ∧
    (has_pseudo (bs "protocol") ps = true → connect = true ∧ has_pseudo (bs "authority") ps = true) ∧
    (∀ s p, (bs ":scheme", s) ∈ ps → (bs ":path", p) ∈ ps → is_http s = true →
       head p = Some (ch "/") ∨ p = bs "*" ∧ (bs ":method", bs "OPTIONS") ∈ ps).

Lemma has_pseudo_iff n ps : has_pseudo n ps = true ↔ ∃ v, (ch ":" :: n, v) ∈ ps.
Proof.
  unfold has_pseudo. rewrite existsb_exists. split.
  - intros ([m v] & Hin & He). apply bool_decide_eq_true in He. cbn in He. subst m. exists v. by apply list_elem_of_In.
  - intros (v & Hin). exists (ch ":" :: n, v). split; [by apply list_elem_of_In|]. by apply bool_decide_eq_true.
Qed.

Lemma has_bit ps n :
  Forall pseudo_ok ps → pseudo.bit_of n ≠ pseudo.UNKNOWN →
  (Z.land (bits ps) (pseudo.bit_of n) =? 0) = negb (has_pseudo n ps).
Proof.
  intros Hps Hu. rewrite Forall_forall in Hps. apply eq_true_iff_eq. rewrite Z.eqb_eq, bits_land, negb_true_iff, <- not_true_iff_false, has_pseudo_iff, Forall_forall.
  split.
  - intros Hn (v & Hin). by apply (Hn _ Hin).
  - intros Hn f Hin He. destruct (Hps f Hin) as (r & Hf & _). apply Hn. exists f.2. rewrite Hf in He. cbn in He.
    symmetry in He. apply bit_of_inj in He; [|done]. subst r. by rewrite <- Hf, <- surjective_pairing.
Qed.

Lemma land_pow2 s k : 0 <= k → Z.land s (2 ^ k) = if Z.testbit s k then 2 ^ k else 0.
Proof.
  intros Hk. apply Z.bits_inj'. intros i Hi. rewrite Z.land_spec, Z.pow2_bits_eqb by done.
  destruct (Z.eqb_spec k i) as [->|]; [|rewrite andb_false_r; destruct (Z.testbit s k); by rewrite ?Z.pow2_bits_false, ?Z.bits_0].
  destruct (Z.testbit s i); by rewrite ?Z.pow2_bits_true, ?Z.bits_0.
Qed.

Lemma land_base s :
  (Z.land s (Z.lor (Z.lor pseudo.METHOD pseudo.SCHEME) pseudo.PATH) =? Z.lor (Z.lor pseudo.METHOD pseudo.SCHEME) pseudo.PATH) =
  negb (Z.land s pseudo.METHOD =? 0) && negb (Z.land s pseudo.SCHEME =? 0) && negb (Z.land s pseudo.PATH =? 0).
Proof.
  rewrite !Z.land_lor_distr_r. unfold pseudo.METHOD, pseudo.SCHEME, pseudo.PATH.
  change 1 with (2 ^ 0). change 2 with (2 ^ 1) at 2 4 6. change 8 with (2 ^ 3).
  rewrite !land_pow2 by lia. by destruct (Z.testbit s 0), (Z.testbit s 1), (Z.testbit s 3).
Qed.

Lemma shape_spec ps rs b out :
  block_ok ps rs → locals ps rs b out → request_is_malformed b = false ↔ request_shape ps rs.
Proof.
  intros Hk [_ _ _ _ _ Hbt Hcn Hopt Hht Hpt Hho _ _]. pose proof (bk_pseudo _ _ Hk) as Hps.
  unfold request_is_malformed, request_shape. rewrite land_base, Hbt, Hcn, Hho, !Z.land_lor_distr_r.
  assert (Hz : ∀ x y, (Z.lor x y =? 0) = (x =? 0) && (y =? 0)).
  { intros x y. apply eq_true_iff_eq. by rewrite andb_true_iff, !Z.eqb_eq, Z.lor_eq_0_iff. }
  rewrite Hz. change pseudo.METHOD with (pseudo.bit_of (bs "method")). change pseudo.SCHEME with (pseudo.bit_of (bs "scheme")).
  change pseudo.PATH with (pseudo.bit_of (bs "path")). change pseudo.AUTHORITY with (pseudo.bit_of (bs "authority")).
  change pseudo.PROTOCOL with (pseudo.bit_of (bs "protocol")). rewrite !has_bit, !negb_involutive by done.
  set (connect := bool_decide _).
  assert (Hform : has_pseudo (bs "method") ps = true → has_pseudo (bs "scheme") ps = true → has_pseudo (bs "path") ps = true →
    http_scheme b && negb (origin_form b) && negb (asterisk_form b && saw_options b) = false ↔
    (∀ s p, (bs ":scheme", s) ∈ ps → (bs ":path", p) ∈ ps → is_http s = true →
       head p = Some (ch "/") ∨ p = bs "*" ∧ (bs ":method", bs "OPTIONS") ∈ ps)).
  { rewrite !has_pseudo_iff. intros (m & Hm) (s & Hs) (p & Hp). split.
    - intros H s' p' Hs' Hp' Hh. rewrite (Hht s' Hs') in H. fold (is_http s') in H. rewrite Hh in H.
      destruct (Hpt p' Hp') as [Ho Ha]. rewrite Ho, Ha, (Hopt m Hm) in H. cbn [andb] in H.
      case_bool_decide; [by left|right]. cbn [negb andb] in H. apply negb_false_iff, andb_prop in H as [H1 H2].
      apply bool_decide_eq_true in H1, H2. split; [done|]. by rewrite <- H2.
    - intros H. specialize (H s p Hs Hp). rewrite (Hht s Hs). fold (is_http s). destruct (Hpt p Hp) as [-> ->].
      destruct (is_http s); [|done]. destruct (H eq_refl) as [Hd|[-> Ho]].
      + by rewrite Hd.
      + rewrite (Hopt _ Ho). by rewrite andb_false_r. }
  revert Hform. generalize (has_pseudo (bs "method") ps), (has_pseudo (bs "scheme") ps), (has_pseudo (bs "path") ps),
    (has_pseudo (bs "authority") ps), (has_pseudo (bs "protocol") ps), (existsb is_host rs).
  generalize (http_scheme b && negb (origin_form b) && negb (asterisk_form b && saw_options b)).
  generalize (∀ s p, (bs ":scheme", s) ∈ ps → (bs ":path", p) ∈ ps → is_http s = true →
       head p = Some (ch "/") ∨ p = bs "*" ∧ (bs ":method", bs "OPTIONS") ∈ ps).
  clear. clearbody connect. intros F h [] [] [] [] [] [] HF; destruct connect; cbn in *;
    try specialize (HF eq_refl eq_refl eq_refl); intuition congruence.
Qed.
End request.

(** C3. On a server, a request block passes the decode loop and the check after it
    exactly when it is a request as RFC 9113 describes it: pseudo-headers first,
    known, each once, with valid values; then regular fields with lower-case
    names and no connection-specific ones, one [content-length] and one authority
    in [host] at most; the whole within the limits on size and number; and the
    pseudo-headers those of a request or a CONNECT. The fields surfaced are then
    the pseudo-headers and the regular fields without control bytes, in order,
    and the length kept is the one declared. *)
Theorem accepted_request_is_well_formed (cfg : BlockConfig) (fs : list field) (b : Block) (out : list field) :
  cfg_is_server cfg = true → cfg_is_trailer cfg = false → cfg_deliver cfg = true →
  0 <= cfg_max_list_size cfg ∧ 0 <= cfg_max_pairs cfg →
  fold_fields cfg (Block_init false false) fs = (b, out) →
  (rejected b = false ∧ malformed b = false ∧ request_is_malformed b = false ↔
     ∃ ps rs, fs = ps ++ rs ∧ block_ok cfg ps rs ∧ request_shape ps rs) ∧
  (∀ ps rs, fs = ps ++ rs → block_ok cfg ps rs →
     out = ps ++ filter is_surfaced rs ∧ option_list (content_length b) = content_lengths rs).
Proof.
  intros Hs Ht Hd Hlim Hf. pose proof (loop_spec cfg Hs Ht Hd Hlim fs) as H. rewrite Hf in H. destruct H as [Ha Hl].
  split; [split|].
  - intros (Hr & Hm & Hq). destruct (proj1 Ha (conj Hr Hm)) as (ps & rs & He & Hk). exists ps, rs. split_and!; [done..|].
    by apply (shape_spec cfg ps rs b out Hk (Hl ps rs He Hk)).
  - intros (ps & rs & He & Hk & Hsh). pose proof (Hl ps rs He Hk) as Hlo. split_and!; [apply Hlo..|].
    by apply (shape_spec cfg ps rs b out Hk Hlo).
  - intros ps rs He Hk. destruct (Hl ps rs He Hk). done.
Qed.

Lemma accepted_request_is_well_formed_witness :
  let cfg := mkConfig true false false true true 0 65535 128 in
  let fs := [(bs ":method", bs "GET"); (bs ":scheme", bs "https"); (bs ":path", bs "/"); (bs ":authority", bs "a.b");
             (bs "content-length", bs "12")] in
  ∃ ps rs, fs = ps ++ rs ∧ block_ok cfg ps rs ∧ request_shape ps rs.
Proof.
  intros cfg fs. destruct (fold_fields cfg (Block_init false false) fs) as [b out] eqn:E.
  apply (accepted_request_is_well_formed cfg fs b out); [reflexivity..|cbn; lia|exact E|].
  vm_compute in E. injection E as <- <-. repeat split; vm_compute; reflexivity.
Defined.
