(* ===== verification/H2Conn.v ===== *)
(** * [runtime/api/bun/h2/connection.rs]: the HTTP/2 connection engine

    The whole of [Connection]: every handler, inbound and outbound. The calls
    that the engine makes on its [Sink] are recorded in order in a trace, and
    the answers of the sink (and the clock) are arbitrary functions of the
    trace so far: the sink is the embedder, whose state only these calls
    change while the engine runs. A panic is [None]: every index, every slice and
    every unsigned subtraction of the source is checked, and so are the windows
    and the assertions. The stream map is a finite map;
    the order in which [HashMap] iterates is a parameter. Frame counters wrap
    as in a release build; the scratch vectors [replenish_buf] and [evict_buf],
    which are emptied before each use, are not kept in the state. *)

From S2P Require Import Prelude H2Wire H2Stream H2Flow H2Hpack H2Fields.

#[local] Open Scope Z_scope.

Module Stream.
Record t := mk {
  state : State; send_window : SendWindow.t; recv_window : RecvWindow.t; recv_final_headers : bool;
  recv_host : bool; content_length : option Z; recv_body_bytes : Z; opened_after_goaway : bool }.

Definition new (initial_send initial_recv : Z) : t :=
  mk Idle (SendWindow.new initial_send) (RecvWindow.new initial_recv) false false None 0 false.

Definition body_exceeds_content_length (self : t) : bool :=
  match content_length self with Some declared => declared <? recv_body_bytes self | None => false end.

(** [content_length.is_some_and(|declared| declared != recv_body_bytes)] *)
Definition body_differs (self : t) : bool :=
  match content_length self with Some declared => negb (declared =? recv_body_bytes self) | None => false end.

Definition set_state v (s : t) : t :=
  mk v (send_window s) (recv_window s) (recv_final_headers s) (recv_host s) (content_length s) (recv_body_bytes s) (opened_after_goaway s).
Definition set_send_window v (s : t) : t :=
  mk (state s) v (recv_window s) (recv_final_headers s) (recv_host s) (content_length s) (recv_body_bytes s) (opened_after_goaway s).
Definition set_recv_window v (s : t) : t :=
  mk (state s) (send_window s) v (recv_final_headers s) (recv_host s) (content_length s) (recv_body_bytes s) (opened_after_goaway s).
Definition set_recv_final_headers v (s : t) : t :=
  mk (state s) (send_window s) (recv_window s) v (recv_host s) (content_length s) (recv_body_bytes s) (opened_after_goaway s).
Definition set_recv_host v (s : t) : t :=
  mk (state s) (send_window s) (recv_window s) (recv_final_headers s) v (content_length s) (recv_body_bytes s) (opened_after_goaway s).
Definition set_content_length v (s : t) : t :=
  mk (state s) (send_window s) (recv_window s) (recv_final_headers s) (recv_host s) v (recv_body_bytes s) (opened_after_goaway s).
Definition set_recv_body_bytes v (s : t) : t :=
  mk (state s) (send_window s) (recv_window s) (recv_final_headers s) (recv_host s) (content_length s) v (opened_after_goaway s).
Definition set_opened_after_goaway v (s : t) : t :=
  mk (state s) (send_window s) (recv_window s) (recv_final_headers s) (recv_host s) (content_length s) (recv_body_bytes s) v.
End Stream.

Module DataInFlight.
Record t := mk { stream_id : Z; payload_remaining : Z; data_remaining : Z; end_stream : bool; discard : bool }.
End DataInFlight.

Inductive BlockDisposition := Deliver | DispStreamClosed | Refused.

#[export] Instance BlockDisposition_eq_dec : EqDecision BlockDisposition.
Proof. solve_decision. Defined.

Record HeaderBlockMeta := mkMeta {
  target : Z; push_parent : option Z; meta_flags : Z; meta_end_stream : bool; is_request : bool;
  disposition : BlockDisposition }.

Record HeaderBlockInFlight := mkInFlight { continuation_stream : Z; meta : HeaderBlockMeta }.

Record Feed := mkFeed { consumed : nat; fatal : bool }.

Inductive StreamedDataStart := Fatal | Consumed (n : nat).

Definition MAX_OUTBOUND_ACK_QUEUE : Z := 1000.
Definition DEFAULT_STREAM_RESET_BURST : Z := 1000.
Definition DEFAULT_STREAM_RESET_RATE : Z := 33.

Inductive ResetBy := ByPeer | ByUs.

(** [a.saturating_add(b)] on [u32] and [u64]. *)
Definition sat_add32 (a b : Z) : Z := Z.min (a + b) U32_MAX.
Definition sat_add64 (a b : Z) : Z := Z.min (a + b) U64_MAX.

(** [a - b] on [u32] and on lengths held as integers; [None] is the overflow. *)
Definition unsigned_sub (a b : Z) : option Z := if b <=? a then Some (a - b) else None.

(** Instants are nanoseconds of a monotonic clock. *)
Module RateLimit.
Record t := mk { burst : Z; rate : Z; tokens : Z; last_refill : Z }.

Definition new (now burst rate : Z) : t := mk burst rate burst now.

(** [last_refill.elapsed().as_secs()]; [elapsed] saturates at zero. *)
Definition elapsed_secs (now last : Z) : Z := Z.max 0 (now - last) / 1000000000.

Definition refill (now : Z) (self : t) : t :=
  let elapsed := elapsed_secs now (last_refill self) in
  if 0 <? elapsed then
    let gain := Z.min (Z.min elapsed U32_MAX * rate self) U32_MAX in
    mk (burst self) (rate self) (Z.min (sat_add32 (tokens self) gain) (burst self))
       (last_refill self + elapsed * 1000000000)
  else self.

Definition drain (now : Z) (self : t) : bool * t :=
  let self := refill now self in
  if tokens self =? 0 then (false, self)
  else (true, mk (burst self) (rate self) (tokens self - 1) (last_refill self)).
End RateLimit.

(** ** The trait [Sink] *)

Inductive Call :=
  | Write (b : bytes)
  | OnError (lib_code last_stream_id : Z) (debug : bytes)
  | OnLocalSettings (s : Settings.t)
  | OnRemoteSettings (s : Settings.t)
  | OnPing (payload : bytes) (is_ack : bool)
  | OnGoAway (code last_stream_id : Z) (debug : bytes)
  | OnWindowUpdate (stream_id increment : Z)
  | OnStreamOpen (stream_id : Z)
  | OnRemoteCustomSetting (id value : Z)
  | OnHeader (stream_id : Z) (name value : bytes) (never_index : bool)
  | OnHeadersComplete (stream_id : Z) (end_stream : bool) (flags : Z)
  | OnData (stream_id : Z) (data : bytes)
  | OnStreamEnd (stream_id state : Z)
  | OnStreamReset (stream_id code : Z)
  | OnStreamRejected (stream_id : Z)
  | OnPushPromise (parent_id promised_id : Z)
  | OnAltsvc (stream_id : Z) (origin value : bytes)
  | OnOrigin (payload : bytes)
  | OnTooManyInvalidFrames
  | OnFrameCounters (received sent : Z).

Abbreviation trace := (list Call).

(** The answers of the sink after the calls it has had, the clock, and the
    order in which [streams.iter()] visits the entries. *)
Record Env := mkEnv {
  should_stop : trace → bool;
  can_open_stream : trace → bool;
  goaway_sent : trace → bool;
  is_local_stream : trace → Z → bool;
  highest_started_stream_id : trace → Z;
  is_stream_reading : trace → Z → bool;
  now : trace → Z;
  iter : trace → gmap Z Stream.t → list Z }.

(** [iter] visits every key once. *)
Class EnvLaws (E : Env) : Prop := {
  iter_keys : ∀ tr m, iter E tr m ≡ₚ (map_to_list m).*1;
}.

(** The default answers of the trait, for a clock that stands still. *)
Definition default_env : Env :=
  mkEnv (λ _, false) (λ _, true) (λ _, false) (λ _ _, false) (λ _, 0) (λ _ _, true) (λ _, 0)
    (λ _ m, (map_to_list m).*1).

#[export] Instance default_env_laws : EnvLaws default_env.
Proof. split. done. Qed.

(** ** [Connection] *)

Section engine.
Context {L : Lshpack}.

Record Connection := mkConnection {
  is_server : bool; frames_received : Z; frames_sent : Z; local_settings : Settings.t;
  remote_settings : Settings.t; local_settings_acked : bool; max_header_list_pairs : Z;
  max_invalid_frames : Z; strict_field_whitespace : bool; acked_local_initial_window : Z;
  enforced_max_header_list_size : Z; pending_local_settings_acks : list Settings.t; invalid_frame_count : Z;
  max_settings : Z; send_window : SendWindow.t; recv_window : RecvWindow.t; coder : Coder;
  streams : gmap Z Stream.t; header_block_in_flight : option HeaderBlockInFlight; header_block : bytes;
  data_in_flight : option DataInFlight.t; terminated : bool; obq_ack_pending : Z;
  stream_reset_limit : RateLimit.t; sent_reset_limit : RateLimit.t; reset_flood : bool; enc_buf : bytes;
  preface_received : nat; last_stream_id : Z; going_away : bool }.

Definition set_frames_received (v : Z) (c : Connection) : Connection :=
  mkConnection (is_server c) v (frames_sent c) (local_settings c) (remote_settings c)
  (local_settings_acked c) (max_header_list_pairs c) (max_invalid_frames c) (strict_field_whitespace c)
  (acked_local_initial_window c) (enforced_max_header_list_size c) (pending_local_settings_acks c)
  (invalid_frame_count c) (max_settings c) (send_window c) (recv_window c) (coder c) (streams c)
  (header_block_in_flight c) (header_block c) (data_in_flight c) (terminated c) (obq_ack_pending c)
  (stream_reset_limit c) (sent_reset_limit c) (reset_flood c) (enc_buf c) (preface_received c)
  (last_stream_id c) (going_away c).
Definition set_frames_sent (v : Z) (c : Connection) : Connection :=
  mkConnection (is_server c) (frames_received c) v (local_settings c) (remote_settings c)
  (local_settings_acked c) (max_header_list_pairs c) (max_invalid_frames c) (strict_field_whitespace c)
  (acked_local_initial_window c) (enforced_max_header_list_size c) (pending_local_settings_acks c)
  (invalid_frame_count c) (max_settings c) (send_window c) (recv_window c) (coder c) (streams c)
  (header_block_in_flight c) (header_block c) (data_in_flight c) (terminated c) (obq_ack_pending c)
  (stream_reset_limit c) (sent_reset_limit c) (reset_flood c) (enc_buf c) (preface_received c)
  (last_stream_id c) (going_away c).
Definition set_remote_settings (v : Settings.t) (c : Connection) : Connection :=
  mkConnection (is_server c) (frames_received c) (frames_sent c) (local_settings c) v
  (local_settings_acked c) (max_header_list_pairs c) (max_invalid_frames c) (strict_field_whitespace c)
  (acked_local_initial_window c) (enforced_max_header_list_size c) (pending_local_settings_acks c)
  (invalid_frame_count c) (max_settings c) (send_window c) (recv_window c) (coder c) (streams c)
  (header_block_in_flight c) (header_block c) (data_in_flight c) (terminated c) (obq_ack_pending c)
  (stream_reset_limit c) (sent_reset_limit c) (reset_flood c) (enc_buf c) (preface_received c)
  (last_stream_id c) (going_away c).
Definition set_local_settings_acked (v : bool) (c : Connection) : Connection :=
  mkConnection (is_server c) (frames_received c) (frames_sent c) (local_settings c) (remote_settings c) v
  (max_header_list_pairs c) (max_invalid_frames c) (strict_field_whitespace c) (acked_local_initial_window c)
  (enforced_max_header_list_size c) (pending_local_settings_acks c) (invalid_frame_count c) (max_settings c)
  (send_window c) (recv_window c) (coder c) (streams c) (header_block_in_flight c) (header_block c)
  (data_in_flight c) (terminated c) (obq_ack_pending c) (stream_reset_limit c) (sent_reset_limit c)
  (reset_flood c) (enc_buf c) (preface_received c) (last_stream_id c) (going_away c).
Definition set_acked_local_initial_window (v : Z) (c : Connection) : Connection :=
  mkConnection (is_server c) (frames_received c) (frames_sent c) (local_settings c) (remote_settings c)
  (local_settings_acked c) (max_header_list_pairs c) (max_invalid_frames c) (strict_field_whitespace c) v
  (enforced_max_header_list_size c) (pending_local_settings_acks c) (invalid_frame_count c) (max_settings c)
  (send_window c) (recv_window c) (coder c) (streams c) (header_block_in_flight c) (header_block c)
  (data_in_flight c) (terminated c) (obq_ack_pending c) (stream_reset_limit c) (sent_reset_limit c)
  (reset_flood c) (enc_buf c) (preface_received c) (last_stream_id c) (going_away c).
Definition set_enforced_max_header_list_size (v : Z) (c : Connection) : Connection :=
  mkConnection (is_server c) (frames_received c) (frames_sent c) (local_settings c) (remote_settings c)
  (local_settings_acked c) (max_header_list_pairs c) (max_invalid_frames c) (strict_field_whitespace c)
  (acked_local_initial_window c) v (pending_local_settings_acks c) (invalid_frame_count c) (max_settings c)
  (send_window c) (recv_window c) (coder c) (streams c) (header_block_in_flight c) (header_block c)
  (data_in_flight c) (terminated c) (obq_ack_pending c) (stream_reset_limit c) (sent_reset_limit c)
  (reset_flood c) (enc_buf c) (preface_received c) (last_stream_id c) (going_away c).
Definition set_pending_local_settings_acks (v : list Settings.t) (c : Connection) : Connection :=
  mkConnection (is_server c) (frames_received c) (frames_sent c) (local_settings c) (remote_settings c)
  (local_settings_acked c) (max_header_list_pairs c) (max_invalid_frames c) (strict_field_whitespace c)
  (acked_local_initial_window c) (enforced_max_header_list_size c) v (invalid_frame_count c) (max_settings c)
  (send_window c) (recv_window c) (coder c) (streams c) (header_block_in_flight c) (header_block c)
  (data_in_flight c) (terminated c) (obq_ack_pending c) (stream_reset_limit c) (sent_reset_limit c)
  (reset_flood c) (enc_buf c) (preface_received c) (last_stream_id c) (going_away c).
Definition set_invalid_frame_count (v : Z) (c : Connection) : Connection :=
  mkConnection (is_server c) (frames_received c) (frames_sent c) (local_settings c) (remote_settings c)
  (local_settings_acked c) (max_header_list_pairs c) (max_invalid_frames c) (strict_field_whitespace c)
  (acked_local_initial_window c) (enforced_max_header_list_size c) (pending_local_settings_acks c) v
  (max_settings c) (send_window c) (recv_window c) (coder c) (streams c) (header_block_in_flight c)
  (header_block c) (data_in_flight c) (terminated c) (obq_ack_pending c) (stream_reset_limit c)
  (sent_reset_limit c) (reset_flood c) (enc_buf c) (preface_received c) (last_stream_id c) (going_away c).
Definition set_send_window (v : SendWindow.t) (c : Connection) : Connection :=
  mkConnection (is_server c) (frames_received c) (frames_sent c) (local_settings c) (remote_settings c)
  (local_settings_acked c) (max_header_list_pairs c) (max_invalid_frames c) (strict_field_whitespace c)
  (acked_local_initial_window c) (enforced_max_header_list_size c) (pending_local_settings_acks c)
  (invalid_frame_count c) (max_settings c) v (recv_window c) (coder c) (streams c) (header_block_in_flight c)
  (header_block c) (data_in_flight c) (terminated c) (obq_ack_pending c) (stream_reset_limit c)
  (sent_reset_limit c) (reset_flood c) (enc_buf c) (preface_received c) (last_stream_id c) (going_away c).
Definition set_recv_window (v : RecvWindow.t) (c : Connection) : Connection :=
  mkConnection (is_server c) (frames_received c) (frames_sent c) (local_settings c) (remote_settings c)
  (local_settings_acked c) (max_header_list_pairs c) (max_invalid_frames c) (strict_field_whitespace c)
  (acked_local_initial_window c) (enforced_max_header_list_size c) (pending_local_settings_acks c)
  (invalid_frame_count c) (max_settings c) (send_window c) v (coder c) (streams c) (header_block_in_flight c)
  (header_block c) (data_in_flight c) (terminated c) (obq_ack_pending c) (stream_reset_limit c)
  (sent_reset_limit c) (reset_flood c) (enc_buf c) (preface_received c) (last_stream_id c) (going_away c).
Definition set_coder (v : Coder) (c : Connection) : Connection :=
  mkConnection (is_server c) (frames_received c) (frames_sent c) (local_settings c) (remote_settings c)
  (local_settings_acked c) (max_header_list_pairs c) (max_invalid_frames c) (strict_field_whitespace c)
  (acked_local_initial_window c) (enforced_max_header_list_size c) (pending_local_settings_acks c)
  (invalid_frame_count c) (max_settings c) (send_window c) (recv_window c) v (streams c)
  (header_block_in_flight c) (header_block c) (data_in_flight c) (terminated c) (obq_ack_pending c)
  (stream_reset_limit c) (sent_reset_limit c) (reset_flood c) (enc_buf c) (preface_received c)
  (last_stream_id c) (going_away c).
Definition set_streams (v : gmap Z Stream.t) (c : Connection) : Connection :=
  mkConnection (is_server c) (frames_received c) (frames_sent c) (local_settings c) (remote_settings c)
  (local_settings_acked c) (max_header_list_pairs c) (max_invalid_frames c) (strict_field_whitespace c)
  (acked_local_initial_window c) (enforced_max_header_list_size c) (pending_local_settings_acks c)
  (invalid_frame_count c) (max_settings c) (send_window c) (recv_window c) (coder c) v
  (header_block_in_flight c) (header_block c) (data_in_flight c) (terminated c) (obq_ack_pending c)
  (stream_reset_limit c) (sent_reset_limit c) (reset_flood c) (enc_buf c) (preface_received c)
  (last_stream_id c) (going_away c).
Definition set_header_block_in_flight (v : option HeaderBlockInFlight) (c : Connection) : Connection :=
  mkConnection (is_server c) (frames_received c) (frames_sent c) (local_settings c) (remote_settings c)
  (local_settings_acked c) (max_header_list_pairs c) (max_invalid_frames c) (strict_field_whitespace c)
  (acked_local_initial_window c) (enforced_max_header_list_size c) (pending_local_settings_acks c)
  (invalid_frame_count c) (max_settings c) (send_window c) (recv_window c) (coder c) (streams c) v
  (header_block c) (data_in_flight c) (terminated c) (obq_ack_pending c) (stream_reset_limit c)
  (sent_reset_limit c) (reset_flood c) (enc_buf c) (preface_received c) (last_stream_id c) (going_away c).
Definition set_header_block (v : bytes) (c : Connection) : Connection :=
  mkConnection (is_server c) (frames_received c) (frames_sent c) (local_settings c) (remote_settings c)
  (local_settings_acked c) (max_header_list_pairs c) (max_invalid_frames c) (strict_field_whitespace c)
  (acked_local_initial_window c) (enforced_max_header_list_size c) (pending_local_settings_acks c)
  (invalid_frame_count c) (max_settings c) (send_window c) (recv_window c) (coder c) (streams c)
  (header_block_in_flight c) v (data_in_flight c) (terminated c) (obq_ack_pending c) (stream_reset_limit c)
  (sent_reset_limit c) (reset_flood c) (enc_buf c) (preface_received c) (last_stream_id c) (going_away c).
Definition set_data_in_flight (v : option DataInFlight.t) (c : Connection) : Connection :=
  mkConnection (is_server c) (frames_received c) (frames_sent c) (local_settings c) (remote_settings c)
  (local_settings_acked c) (max_header_list_pairs c) (max_invalid_frames c) (strict_field_whitespace c)
  (acked_local_initial_window c) (enforced_max_header_list_size c) (pending_local_settings_acks c)
  (invalid_frame_count c) (max_settings c) (send_window c) (recv_window c) (coder c) (streams c)
  (header_block_in_flight c) (header_block c) v (terminated c) (obq_ack_pending c) (stream_reset_limit c)
  (sent_reset_limit c) (reset_flood c) (enc_buf c) (preface_received c) (last_stream_id c) (going_away c).
Definition set_terminated (v : bool) (c : Connection) : Connection :=
  mkConnection (is_server c) (frames_received c) (frames_sent c) (local_settings c) (remote_settings c)
  (local_settings_acked c) (max_header_list_pairs c) (max_invalid_frames c) (strict_field_whitespace c)
  (acked_local_initial_window c) (enforced_max_header_list_size c) (pending_local_settings_acks c)
  (invalid_frame_count c) (max_settings c) (send_window c) (recv_window c) (coder c) (streams c)
  (header_block_in_flight c) (header_block c) (data_in_flight c) v (obq_ack_pending c) (stream_reset_limit c)
  (sent_reset_limit c) (reset_flood c) (enc_buf c) (preface_received c) (last_stream_id c) (going_away c).
Definition set_obq_ack_pending (v : Z) (c : Connection) : Connection :=
  mkConnection (is_server c) (frames_received c) (frames_sent c) (local_settings c) (remote_settings c)
  (local_settings_acked c) (max_header_list_pairs c) (max_invalid_frames c) (strict_field_whitespace c)
  (acked_local_initial_window c) (enforced_max_header_list_size c) (pending_local_settings_acks c)
  (invalid_frame_count c) (max_settings c) (send_window c) (recv_window c) (coder c) (streams c)
  (header_block_in_flight c) (header_block c) (data_in_flight c) (terminated c) v (stream_reset_limit c)
  (sent_reset_limit c) (reset_flood c) (enc_buf c) (preface_received c) (last_stream_id c) (going_away c).
Definition set_stream_reset_limit (v : RateLimit.t) (c : Connection) : Connection :=
  mkConnection (is_server c) (frames_received c) (frames_sent c) (local_settings c) (remote_settings c)
  (local_settings_acked c) (max_header_list_pairs c) (max_invalid_frames c) (strict_field_whitespace c)
  (acked_local_initial_window c) (enforced_max_header_list_size c) (pending_local_settings_acks c)
  (invalid_frame_count c) (max_settings c) (send_window c) (recv_window c) (coder c) (streams c)
  (header_block_in_flight c) (header_block c) (data_in_flight c) (terminated c) (obq_ack_pending c) v
  (sent_reset_limit c) (reset_flood c) (enc_buf c) (preface_received c) (last_stream_id c) (going_away c).
Definition set_sent_reset_limit (v : RateLimit.t) (c : Connection) : Connection :=
  mkConnection (is_server c) (frames_received c) (frames_sent c) (local_settings c) (remote_settings c)
  (local_settings_acked c) (max_header_list_pairs c) (max_invalid_frames c) (strict_field_whitespace c)
  (acked_local_initial_window c) (enforced_max_header_list_size c) (pending_local_settings_acks c)
  (invalid_frame_count c) (max_settings c) (send_window c) (recv_window c) (coder c) (streams c)
  (header_block_in_flight c) (header_block c) (data_in_flight c) (terminated c) (obq_ack_pending c)
  (stream_reset_limit c) v (reset_flood c) (enc_buf c) (preface_received c) (last_stream_id c)
  (going_away c).
Definition set_reset_flood (v : bool) (c : Connection) : Connection :=
  mkConnection (is_server c) (frames_received c) (frames_sent c) (local_settings c) (remote_settings c)
  (local_settings_acked c) (max_header_list_pairs c) (max_invalid_frames c) (strict_field_whitespace c)
  (acked_local_initial_window c) (enforced_max_header_list_size c) (pending_local_settings_acks c)
  (invalid_frame_count c) (max_settings c) (send_window c) (recv_window c) (coder c) (streams c)
  (header_block_in_flight c) (header_block c) (data_in_flight c) (terminated c) (obq_ack_pending c)
  (stream_reset_limit c) (sent_reset_limit c) v (enc_buf c) (preface_received c) (last_stream_id c)
  (going_away c).
Definition set_enc_buf (v : bytes) (c : Connection) : Connection :=
  mkConnection (is_server c) (frames_received c) (frames_sent c) (local_settings c) (remote_settings c)
  (local_settings_acked c) (max_header_list_pairs c) (max_invalid_frames c) (strict_field_whitespace c)
  (acked_local_initial_window c) (enforced_max_header_list_size c) (pending_local_settings_acks c)
  (invalid_frame_count c) (max_settings c) (send_window c) (recv_window c) (coder c) (streams c)
  (header_block_in_flight c) (header_block c) (data_in_flight c) (terminated c) (obq_ack_pending c)
  (stream_reset_limit c) (sent_reset_limit c) (reset_flood c) v (preface_received c) (last_stream_id c)
  (going_away c).
Definition set_preface_received (v : nat) (c : Connection) : Connection :=
  mkConnection (is_server c) (frames_received c) (frames_sent c) (local_settings c) (remote_settings c)
  (local_settings_acked c) (max_header_list_pairs c) (max_invalid_frames c) (strict_field_whitespace c)
  (acked_local_initial_window c) (enforced_max_header_list_size c) (pending_local_settings_acks c)
  (invalid_frame_count c) (max_settings c) (send_window c) (recv_window c) (coder c) (streams c)
  (header_block_in_flight c) (header_block c) (data_in_flight c) (terminated c) (obq_ack_pending c)
  (stream_reset_limit c) (sent_reset_limit c) (reset_flood c) (enc_buf c) v (last_stream_id c)
  (going_away c).
Definition set_last_stream_id (v : Z) (c : Connection) : Connection :=
  mkConnection (is_server c) (frames_received c) (frames_sent c) (local_settings c) (remote_settings c)
  (local_settings_acked c) (max_header_list_pairs c) (max_invalid_frames c) (strict_field_whitespace c)
  (acked_local_initial_window c) (enforced_max_header_list_size c) (pending_local_settings_acks c)
  (invalid_frame_count c) (max_settings c) (send_window c) (recv_window c) (coder c) (streams c)
  (header_block_in_flight c) (header_block c) (data_in_flight c) (terminated c) (obq_ack_pending c)
  (stream_reset_limit c) (sent_reset_limit c) (reset_flood c) (enc_buf c) (preface_received c) v
  (going_away c).
Definition set_going_away (v : bool) (c : Connection) : Connection :=
  mkConnection (is_server c) (frames_received c) (frames_sent c) (local_settings c) (remote_settings c)
  (local_settings_acked c) (max_header_list_pairs c) (max_invalid_frames c) (strict_field_whitespace c)
  (acked_local_initial_window c) (enforced_max_header_list_size c) (pending_local_settings_acks c)
  (invalid_frame_count c) (max_settings c) (send_window c) (recv_window c) (coder c) (streams c)
  (header_block_in_flight c) (header_block c) (data_in_flight c) (terminated c) (obq_ack_pending c)
  (stream_reset_limit c) (sent_reset_limit c) (reset_flood c) (enc_buf c) (preface_received c)
  (last_stream_id c) v.

Definition Connection_new (now : Z) (is_server : bool) (local : Settings.t) : Connection :=
  let limit := RateLimit.new now DEFAULT_STREAM_RESET_BURST DEFAULT_STREAM_RESET_RATE in
  mkConnection is_server 0 0 local Settings.default false 128 1000 true 65535
    (Settings.max_header_list_size local) [] 0 32 (SendWindow.new DEFAULT_WINDOW_SIZE)
    (RecvWindow.new DEFAULT_WINDOW_SIZE) (Coder_new (Settings.header_table_size local)) ∅ None [] None false 0
    limit limit false [] 0 0 false.

(** *** Stateful code *)

Definition M (A : Type) : Type := Connection → trace → option (A * (Connection * trace)).

#[export] Instance M_ret : MRet M := λ A a c tr, Some (a, (c, tr)).
#[export] Instance M_bind : MBind M := λ A B k m c tr,
  match m c tr with Some (a, (c, tr)) => k a c tr | None => None end.

Definition panic {A} : M A := λ _ _, None.
Definition lift {A} (o : option A) : M A := match o with Some a => mret a | None => panic end.
(** A field of [self]. *)
Definition gets {A} (f : Connection → A) : M A := λ c tr, Some (f c, (c, tr)).
Definition modify (f : Connection → Connection) : M unit := λ c tr, Some (tt, (f c, tr)).
(** A call on the sink, and a question to it. *)
Definition call (k : Call) : M unit := λ c tr, Some (tt, (c, tr ++ [k])).
Definition ask {A} (q : trace → A) : M A := λ c tr, Some (q tr, (c, tr)).

(** [self.streams.get(&id)] *)
Definition get_stream (id : Z) : M (option Stream.t) := gets (λ c, streams c !! id).
(** [if let Some(s) = self.streams.get_mut(&id) { .. }] *)
Definition with_stream (id : Z) (f : Stream.t → Stream.t) : M unit :=
  modify (λ c, set_streams (alter f id (streams c)) c).
Definition put_stream (id : Z) (s : Stream.t) : M unit :=
  modify (λ c, set_streams (<[id := s]> (streams c)) c).
Definition close_entry (id : Z) : M unit := with_stream id (Stream.set_state Closed).
Definition contains_stream (id : Z) : M bool := s ← get_stream id; mret (bool_decide (is_Some s)).

(** [Stream::new(send_init, recv_init)] with the settings of [self]. *)
Definition fresh_stream (c : Connection) : Stream.t :=
  Stream.new (Settings.initial_window_size (remote_settings c)) (Settings.initial_window_size (local_settings c)).
(** [self.streams.entry(id).or_insert_with(..)] *)
Definition or_insert_stream (id : Z) : M Stream.t :=
  s ← get_stream id;
  match s with
  | Some s => mret s
  | None => s ← gets fresh_stream; _ ← put_stream id s; mret s
  end.

Section handlers.
Context (E : Env).

(** *** Outbound *)

Definition write_frame (ftype : FrameType) (flags stream_id : Z) (payload : bytes) : M unit :=
  _ ← modify (λ c, set_frames_sent (wrap64 (frames_sent c + 1)) c);
  received ← gets frames_received; sent ← gets frames_sent;
  _ ← call (OnFrameCounters received sent);
  let hdr := FrameHeader.mk (wrap32 (Z.of_nat (length payload))) (FrameType_code ftype) flags stream_id in
  _ ← call (Write (FrameHeader.write hdr));
  if (length payload =? 0)%nat then mret tt else call (Write payload).

Definition send_settings_ack : M unit := write_frame Settings_ flags.ACK 0 [].
Definition send_ping_ack (payload : bytes) : M unit := write_frame Ping flags.ACK 0 payload.

Definition local_connection_error (code : ErrorCode) (lib_code : Z) (debug : bytes) : M unit :=
  _ ← modify (set_going_away true);
  _ ← modify (set_terminated true);
  last ← gets last_stream_id;
  _ ← write_frame GoAway 0 0 (to_be_bytes 4 last ++ to_be_bytes 4 (as_u32 code) ++ debug);
  call (OnError lib_code last debug).

Definition send_go_away (code : ErrorCode) (debug : bytes) : M unit :=
  local_connection_error code lib_error.PROTO debug.

(** [self.send_go_away(..); return true] *)
Definition go_away (code : ErrorCode) (debug : bytes) : M bool := _ ← send_go_away code debug; mret true.

Definition send_window_update (stream_id increment : Z) : M unit :=
  write_frame WindowUpdate 0 stream_id (to_be_bytes 4 increment).

Definition note_reset (by_ : ResetBy) : M unit :=
  server ← gets is_server; flood ← gets reset_flood;
  if negb server || flood then mret tt
  else
    t ← ask (now E);
    limit ← gets (match by_ with ByPeer => stream_reset_limit | ByUs => sent_reset_limit end);
    let '(drained, limit) := RateLimit.drain t limit in
    _ ← modify (match by_ with ByPeer => set_stream_reset_limit limit | ByUs => set_sent_reset_limit limit end);
    if (drained : bool) then mret tt else modify (set_reset_flood true).

Definition send_rst_stream (stream_id : Z) (code : ErrorCode) : M unit :=
  _ ← write_frame RstStream 0 stream_id (to_be_bytes 4 (as_u32 code));
  s ← get_stream stream_id;
  let delivered s := Stream.recv_final_headers s && negb (bool_decide (Stream.state s = Closed)) in
  match s with
  | Some s => if delivered s then note_reset ByUs else mret tt
  | None => mret tt
  end.

(** [send_rst_stream], close the entry, tell the embedder. *)
Definition reset_stream (stream_id : Z) (code : ErrorCode) : M unit :=
  _ ← send_rst_stream stream_id code;
  _ ← close_entry stream_id;
  call (OnStreamReset stream_id (as_u32 code)).

Definition note_outbound_drained : M unit := modify (set_obq_ack_pending 0).

(** [set_stream_reset_limit]; the name is that of the field's setter here. *)
Definition configure_stream_reset_limit (burst rate : Z) : M unit :=
  lim ← gets stream_reset_limit;
  if negb (RateLimit.burst lim =? burst) || negb (RateLimit.rate lim =? rate) then
    t ← ask (now E); modify (set_stream_reset_limit (RateLimit.new t burst rate))
  else mret tt.

Definition check_reset_flood : M bool :=
  flood ← gets reset_flood; term ← gets terminated;
  if negb flood || term then mret false
  else
    _ ← local_connection_error EnhanceYourCalm lib_error.FLOODED (bs "too many stream resets");
    mret true.

Definition note_outbound_ack : M bool :=
  _ ← modify (λ c, set_obq_ack_pending (sat_add32 (obq_ack_pending c) 1) c);
  pending ← gets obq_ack_pending;
  if pending <? MAX_OUTBOUND_ACK_QUEUE then mret false
  else
    _ ← local_connection_error EnhanceYourCalm lib_error.FLOODED (bs "too many outbound control frames queued");
    mret true.

(** [let count = self.invalid_frame_count; ..; if count > self.max_invalid_frames]:
    one more invalid frame; [true] when the session is torn down. *)
Definition count_invalid_frame : M bool :=
  count ← gets invalid_frame_count;
  _ ← modify (set_invalid_frame_count (sat_add32 count 1));
  max ← gets max_invalid_frames;
  if max <? count then
    _ ← modify (set_terminated true); _ ← call OnTooManyInvalidFrames; mret true
  else mret false.

(** *** Control frames *)

(** One unit of a SETTINGS payload; [true] is the early return. *)
Definition apply_unit (id value : Z) : M bool :=
  match SettingId_from_u16 id with
  | Some sid =>
      remote ← gets remote_settings;
      if bool_decide (sid = EnableConnectProtocol) && (value =? 0)
         && (Settings.enable_connect_protocol remote =? 1)
      then go_away ProtocolError (bs "SETTINGS: server attempted to disable enableConnectProtocol")
      else
        _ ← modify (set_remote_settings (Settings.apply remote sid value));
        mret false
  | None => _ ← call (OnRemoteCustomSetting id value); mret false
  end.

(** [while i + 6 <= payload.len()] *)
Fixpoint apply_loop (fuel : nat) (payload : bytes) (i : nat) : M bool :=
  if (i + 6 <=? length payload)%nat then
    match fuel with
    | O => panic
    | S fuel =>
        u ← lift (Settings.unit_at payload i);
        stop ← apply_unit u.1 u.2;
        if (stop : bool) then mret true else apply_loop fuel payload (i + 6)
    end
  else mret false.

(** [for (_, s) in self.streams.iter_mut()]: shift the window of every stream that is not closed. *)
Fixpoint shift_send_windows (delta : Z) (ids : list Z) : M unit :=
  match ids with
  | [] => mret tt
  | id :: ids =>
      s ← get_stream id;
      _ ← match s with
          | Some s =>
              if bool_decide (Stream.state s = Closed) then mret tt
              else w ← lift (SendWindow.apply_initial_delta (Stream.send_window s) delta);
                   put_stream id (Stream.set_send_window w s)
          | None => mret tt
          end;
      shift_send_windows delta ids
  end.

Definition handle_settings_ack (hdr : FrameHeader.t) : M bool :=
  if negb (FrameHeader.length hdr =? 0) then go_away FrameSizeError (bs "SETTINGS ACK with payload")
  else
    acked ← gets local_settings_acked; pending ← gets pending_local_settings_acks;
    if acked && (length pending =? 0)%nat then mret false
    else
      _ ← modify (set_local_settings_acked true);
      local ← gets local_settings;
      let '(acked, rest) := match pending with s :: rest => (s, rest) | [] => (local, []) end in
      _ ← modify (set_pending_local_settings_acks rest);
      _ ← modify (set_acked_local_initial_window (Settings.initial_window_size acked));
      _ ← modify (set_enforced_max_header_list_size (Settings.max_header_list_size acked));
      _ ← call (OnLocalSettings acked);
      mret false.

Definition handle_settings (hdr : FrameHeader.t) (payload : bytes) : M bool :=
  if flags.has (FrameHeader.flags hdr) flags.ACK then handle_settings_ack hdr
  else
    max ← gets max_settings;
    if max <? wrap32 (Z.of_nat (length payload / 6)) then
      go_away EnhanceYourCalm (bs "SETTINGS: too many settings entries")
    else
      invalid ← lift (Settings.validate_payload payload);
      match invalid with
      | Some code => go_away code (bs "SETTINGS value out of range")
      | None =>
          old ← gets remote_settings;
          stop ← apply_loop (length payload) payload 0;
          if (stop : bool) then mret true
          else
            new ← gets remote_settings;
            _ ← (if negb (Settings.header_table_size new =? Settings.header_table_size old)
                 then modify (λ c, set_coder (queue_encoder_capacity (coder c) (Settings.header_table_size new)) c)
                 else mret tt);
            _ ← (if negb (Settings.initial_window_size new =? Settings.initial_window_size old) then
                   let delta := Settings.initial_window_size new - Settings.initial_window_size old in
                   ss ← gets streams; ids ← ask (λ tr, iter E tr ss);
                   shift_send_windows delta ids
                 else mret tt);
            _ ← send_settings_ack;
            flooded ← note_outbound_ack;
            if (flooded : bool) then mret true
            else
              snapshot ← gets remote_settings;
              _ ← call (OnRemoteSettings snapshot);
              mret false
      end.

Definition handle_ping (hdr : FrameHeader.t) (payload : bytes) : M bool :=
  if flags.has (FrameHeader.flags hdr) flags.ACK then _ ← call (OnPing payload true); mret false
  else
    (* [echo.copy_from_slice(&payload[..8])] *)
    echo ← lift (slice_to payload 8);
    _ ← send_ping_ack echo;
    _ ← call (OnPing echo false);
    note_outbound_ack.

(** [u32::from_be_bytes([payload[i], .., payload[i + 3]])] *)
Definition u32_at (payload : bytes) (i : nat) : M Z :=
  b ← lift (slice_range payload i (i + 4)); mret (be_bytes b).

Definition is_multiple_of_2 (z : Z) : bool := z mod 2 =? 0.

Definition handle_go_away (payload : bytes) : M bool :=
  if (length payload <? 8)%nat then go_away FrameSizeError (bs "GOAWAY too short")
  else
    last ← u32_at payload 0;
    let last := Z.land last 0x7fffffff in
    code_raw ← u32_at payload 4;
    server ← gets is_server;
    let initiated_locally := if (server : bool) then is_multiple_of_2 last else negb (is_multiple_of_2 last) in
    if (0 <? last) && negb initiated_locally then
      go_away ProtocolError (bs "GOAWAY: invalid last_stream_id")
    else
      _ ← modify (set_going_away true);
      debug ← lift (slice_from payload 8);
      _ ← call (OnGoAway code_raw last debug);
      mret false.

Definition handle_window_update (hdr : FrameHeader.t) (payload : bytes) : M bool :=
  let id := FrameHeader.stream_id hdr in
  raw ← u32_at payload 0;
  let increment := Z.land raw 0x7fffffff in
  if increment =? 0 then
    if id =? 0 then go_away ProtocolError (bs "WINDOW_UPDATE with 0 increment")
    else _ ← reset_stream id ProtocolError; mret false
  else if id =? 0 then
    w ← gets send_window;
    r ← lift (SendWindow.increase w increment);
    let '(w, r) := r in
    _ ← modify (set_send_window w);
    match r with
    | Err _ => go_away FlowControlError (bs "connection flow-control window overflow")
    | Ok _ => _ ← call (OnWindowUpdate id increment); mret false
    end
  else
    s ← get_stream id;
    match s with
    | Some s =>
        r ← lift (SendWindow.increase (Stream.send_window s) increment);
        let '(w, r) := r in
        _ ← put_stream id (Stream.set_send_window w s);
        match r with
        | Err _ => _ ← reset_stream id FlowControlError; mret false
        | Ok _ => _ ← call (OnWindowUpdate id increment); mret false
        end
    | None => _ ← call (OnWindowUpdate id increment); mret false
    end.

(** *** Header blocks *)

(** The decode loop: the fields of the block from [off] on, surfaced as they are
    accepted; the result is the locals, or [None] after a decoding error. *)
Fixpoint decode_loop (fuel : nat) (cfg : BlockConfig) (tgt : Z) (block : bytes) (off : nat) (b : Block)
    : M (option Block) :=
  if (off <? length block)%nat then
    match fuel with
    | O => panic
    | S fuel =>
        cd ← gets coder;
        src ← lift (slice_from block off);
        let '(cd, r) := Coder_decode cd src in
        _ ← modify (set_coder cd);
        match r with
        | Ok h =>
            let '(b, surfaced) := field_step cfg b (name h) (value h) in
            _ ← (if (surfaced : bool) then call (OnHeader tgt (name h) (value h) (never_index h)) else mret tt);
            decode_loop fuel cfg tgt block (off + next h) b
        | Err _ => _ ← send_go_away CompressionError (bs "HPACK decode error"); mret None
        end
    end
  else mret (Some b).

(** The tail of [finish_header_block] for a block that is to be delivered. *)
Definition deliver_block (m : HeaderBlockMeta) (b : Block) : M bool :=
  server ← gets is_server;
  let tgt := target m in
  let bad := if is_request m && negb (rejected b) && negb (malformed b)
             then request_is_malformed b else malformed b in
  bad ← (if bool_decide (push_parent m = None) && server && negb bad && negb (rejected b) then
           s ← get_stream tgt;
           match s with
           | Some s =>
               let s := Stream.set_recv_host (saw_host b) s in
               let s := if negb (saw_connect b) && bool_decide (Stream.content_length s = None)
                        then Stream.set_content_length (content_length b) s else s in
               _ ← put_stream tgt s;
               mret (meta_end_stream m && Stream.body_differs s)
           | None => mret bad
           end
         else mret bad);
  if (bad : bool) && negb (rejected b) then
    stop ← count_invalid_frame;
    if (stop : bool) then mret true
    else
      _ ← reset_stream tgt ProtocolError;
      _ ← call (OnStreamRejected tgt);
      mret false
  else if rejected b then
    _ ← reset_stream tgt EnhanceYourCalm;
    _ ← call (OnStreamRejected tgt);
    mret false
  else
    _ ← (if bool_decide (push_parent m = None) && negb (informational b)
         then with_stream tgt (Stream.set_recv_final_headers true) else mret tt);
    _ ← call (OnHeadersComplete tgt (meta_end_stream m) (meta_flags m));
    if meta_end_stream m then
      s ← get_stream tgt;
      match s with
      | Some s => _ ← call (OnStreamEnd tgt (State_code (Stream.state s))); mret false
      | None => mret false
      end
    else mret false.

Definition finish_header_block (m : HeaderBlockMeta) : M bool :=
  let tgt := target m in
  _ ← match push_parent m with Some parent => call (OnPushPromise parent tgt) | None => mret tt end;
  block ← gets header_block;
  _ ← modify (set_header_block []);
  c ← gets (λ c, c);
  let is_trailer :=
    bool_decide (push_parent m = None) && bool_decide (disposition m = Deliver)
    && match streams c !! tgt with Some s => Stream.recv_final_headers s | None => false end in
  let saw_host := match streams c !! tgt with Some s => Stream.recv_host s | None => false end in
  let cfg := mkConfig (is_server c) (bool_decide (is_Some (push_parent m))) is_trailer
               (bool_decide (disposition m = Deliver)) (strict_field_whitespace c)
               (Settings.enable_connect_protocol (local_settings c)) (enforced_max_header_list_size c)
               (max_header_list_pairs c) in
  r ← decode_loop (length block) cfg tgt block 0 (Block_init (is_trailer && negb (meta_end_stream m)) saw_host);
  match r with
  | None => mret true
  | Some b =>
      match disposition m with
      | Refused =>
          _ ← send_rst_stream tgt EnhanceYourCalm; _ ← call (OnStreamRejected tgt); mret false
      | DispStreamClosed => _ ← reset_stream tgt H2Wire.StreamClosed; mret false
      | Deliver => deliver_block m b
      end
  end.

Definition finish_or_park_header_block (hdr : FrameHeader.t) (m : HeaderBlockMeta) : M bool :=
  if negb (flags.has (FrameHeader.flags hdr) flags.END_HEADERS) then
    _ ← modify (set_header_block_in_flight (Some (mkInFlight (FrameHeader.stream_id hdr) m)));
    mret false
  else finish_header_block m.

(** The [PADDED] prelude of HEADERS, DATA and PUSH_PROMISE: the range of the
    payload left, or the error. *)
Definition strip_padding (flags_ : Z) (payload : bytes) (empty large : bytes)
    : M (result (nat * nat) (ErrorCode * bytes)) :=
  if flags.has flags_ flags.PADDED then
    if (length payload =? 0)%nat then mret (Err (FrameSizeError, empty))
    else
      pad ← lift (payload !! 0%nat);
      let pad := Z.to_nat pad in
      if (length payload <? 1 + pad)%nat then mret (Err (ProtocolError, large))
      else end_ ← lift (usize_sub (length payload) pad); mret (Ok (1%nat, end_))
  else mret (Ok (0%nat, length payload)).

(** [off + 5 > end] under the flag [PRIORITY]. *)
Definition strip_priority (flags_ : Z) (off end_ : nat) : option nat :=
  if flags.has flags_ flags.PRIORITY then if (end_ <? off + 5)%nat then None else Some (off + 5)%nat
  else Some off.

(** The transition of HEADERS on its stream: how to dispose of the block, or
    [None] when the connection is torn down. *)
Definition headers_transition (id : Z) (is_new end_stream : bool) : M (option BlockDisposition) :=
  s ← or_insert_stream id;
  sent ← ask (goaway_sent E);
  let s := if is_new then Stream.set_opened_after_goaway sent s else s in
  _ ← put_stream id s;
  let cur_state := Stream.state s in
  match transition cur_state (if end_stream then RecvHeadersEndStream else RecvHeaders) with
  | Ok next => _ ← with_stream id (Stream.set_state next); mret (Some Deliver)
  | Err TE_Protocol => _ ← send_go_away ProtocolError (bs "HEADERS in invalid stream state"); mret None
  | Err TE_StreamClosed =>
      if bool_decide (cur_state = HalfClosedRemote) then
        _ ← local_connection_error H2Wire.StreamClosed lib_error.STREAM_CLOSED (bs "HEADERS: stream closed");
        mret None
      else mret (Some DispStreamClosed)
  end.

Definition handle_headers (hdr : FrameHeader.t) (payload : bytes) : M bool :=
  let id := FrameHeader.stream_id hdr in
  let fl := FrameHeader.flags hdr in
  range ← strip_padding fl payload (bs "HEADERS padded but empty") (bs "HEADERS padding too large");
  match range with
  | Err (code, debug) => go_away code debug
  | Ok (off, end_) =>
      match strip_priority fl off end_ with
      | None => go_away FrameSizeError (bs "HEADERS priority truncated")
      | Some off =>
          let end_stream := flags.has fl flags.END_STREAM in
          known ← contains_stream id;
          let is_new := negb known in
          server ← gets is_server;
          if is_new && server && is_multiple_of_2 id then
            go_away ProtocolError (bs "invalid stream id for HEADERS")
          else
            can_open ← ask (can_open_stream E);
            let refused := is_new && server && negb can_open in
            disp ← (if refused then mret (Some Refused) else headers_transition id is_new end_stream);
            match disp with
            | None => mret true
            | Some disp =>
                _ ← (if is_new then
                       _ ← modify (λ c, if last_stream_id c <? id then set_last_stream_id id c else c);
                       if refused then mret tt else call (OnStreamOpen id)
                     else mret tt);
                block ← lift (slice_range payload off end_);
                _ ← modify (set_header_block block);
                finish_or_park_header_block hdr (mkMeta id None fl end_stream (server && is_new) disp)
            end
      end
  end.

Definition handle_continuation (hdr : FrameHeader.t) (payload : bytes) : M bool :=
  inflight ← gets header_block_in_flight;
  match inflight with
  | None => go_away ProtocolError (bs "unexpected CONTINUATION frame")
  | Some inflight =>
      _ ← modify (set_header_block_in_flight None);
      limit ← gets enforced_max_header_list_size;
      block ← gets header_block;
      let cap := Z.max limit 65536 in
      if cap <? Z.of_nat (length block + length payload) then
        go_away CompressionError (bs "header block too large")
      else
        _ ← modify (set_header_block (block ++ payload));
        if negb (flags.has (FrameHeader.flags hdr) flags.END_HEADERS) then
          _ ← modify (set_header_block_in_flight (Some inflight)); mret false
        else finish_header_block (meta inflight)
  end.

(** *** DATA *)

Definition has_existed (stream_id : Z) : M bool :=
  last ← gets last_stream_id; high ← ask (highest_started_stream_id E);
  mret ((stream_id <=? last) || (stream_id <=? high)).

Definition is_closed_stream (stream_id : Z) : M bool :=
  s ← get_stream stream_id;
  match s with
  | Some s => mret (bool_decide (Stream.state s = Closed))
  | None =>
      local ← ask (λ tr, is_local_stream E tr stream_id);
      existed ← has_existed stream_id;
      mret (negb local && existed)
  end.

(** The transition shim: an entry for a stream that the embedder opened. *)
Definition open_local_stream (id : Z) : M unit :=
  known ← contains_stream id;
  local ← ask (λ tr, is_local_stream E tr id);
  if negb known && local then s ← gets fresh_stream; put_stream id (Stream.set_state Open s)
  else mret tt.

Definition recv_limit (c : Connection) : Z :=
  Z.max (acked_local_initial_window c) (Settings.initial_window_size (local_settings c)).

Definition enforce_content_length (stream_id : Z) : M bool :=
  server ← gets is_server;
  if negb server then mret false
  else
    s ← get_stream stream_id;
    if match s with Some s => Stream.body_differs s | None => false end then
      _ ← reset_stream stream_id ProtocolError; mret true
    else mret false.

(** END_STREAM on DATA: the transition and the notification. *)
Definition end_of_data (stream_id : Z) : M unit :=
  _ ← with_stream stream_id (λ s, Stream.set_state (advance (Stream.state s) RecvEndStream) s);
  s ← get_stream stream_id;
  match s with
  | Some s => call (OnStreamEnd stream_id (State_code (Stream.state s)))
  | None => mret tt
  end.

Definition finish_streamed_data (inflight : DataInFlight.t) : M unit :=
  if DataInFlight.end_stream inflight && negb (DataInFlight.discard inflight) then
    stop ← enforce_content_length (DataInFlight.stream_id inflight);
    if (stop : bool) then mret tt else end_of_data (DataInFlight.stream_id inflight)
  else mret tt.

Inductive DataDecision := Rst (code : ErrorCode) | FlowControlViolation | DeliverData.

(** The checks of DATA on the stream [s]: [wire] bytes of the window, [body]
    bytes of content. *)
Definition data_decision (limit : Z) (s : Stream.t) (wire body : Z) : M (DataDecision * Stream.t) :=
  if negb (can_receive_data (Stream.state s)) then mret (Rst H2Wire.StreamClosed, s)
  else
    w ← lift (RecvWindow.on_data (Stream.recv_window s) wire);
    let s := Stream.set_recv_window w s in
    if RecvWindow.is_overflowed_with w limit then mret (FlowControlViolation, s)
    else
      let s := Stream.set_recv_body_bytes (sat_add64 (Stream.recv_body_bytes s) body) s in
      mret (if Stream.body_exceeds_content_length s then Rst ProtocolError else DeliverData, s).

(** The connection window: [true] when the peer has exceeded it. *)
Definition charge_connection_window (n : Z) : M bool :=
  w ← gets recv_window;
  w ← lift (RecvWindow.on_data w n);
  _ ← modify (set_recv_window w);
  if RecvWindow.is_overflowed w then go_away FlowControlError (bs "connection flow-control window exceeded")
  else mret false.

Definition handle_data (hdr : FrameHeader.t) (payload : bytes) : M bool :=
  let id := FrameHeader.stream_id hdr in
  let fl := FrameHeader.flags hdr in
  range ← strip_padding fl payload (bs "DATA padded but empty") (bs "DATA padding too large");
  match range with
  | Err (code, debug) => go_away code debug
  | Ok (off, end_) =>
      exceeded ← charge_connection_window (Z.of_nat (length payload));
      if (exceeded : bool) then mret true
      else
        flooded ← (if (length payload =? 0)%nat && negb (flags.has fl flags.END_STREAM)
                   then count_invalid_frame else mret false);
        if (flooded : bool) then mret true
        else
          _ ← open_local_stream id;
          closed ← is_closed_stream id;
          if (closed : bool) then mret false
          else
            limit ← gets recv_limit;
            s ← get_stream id;
            decision ← match s with
                       | None => mret (Rst H2Wire.StreamClosed)
                       | Some s =>
                           body ← lift (usize_sub end_ off);
                           r ← data_decision limit s (Z.of_nat (length payload)) (Z.of_nat body);
                           _ ← put_stream id r.2;
                           mret r.1
                       end;
            match decision with
            | Rst code => _ ← reset_stream id code; mret false
            | FlowControlViolation => go_away FlowControlError (bs "stream flow-control window exceeded")
            | DeliverData =>
                _ ← (if (end_ =? off)%nat then mret tt 
                     else data ← lift (slice_range payload off end_); call (OnData id data));
                if flags.has fl flags.END_STREAM then
                  stop ← enforce_content_length id;
                  if (stop : bool) then mret false else _ ← end_of_data id; mret false
                else mret false
            end
  end.

Definition begin_streamed_data (hdr : FrameHeader.t) (remaining : bytes) (padded : bool) : M StreamedDataStart :=
  let id := FrameHeader.stream_id hdr in
  let len := FrameHeader.length hdr in
  payload_avail ← lift (slice_from remaining FRAME_HEADER_SIZE);
  pad ← (if padded then lift (payload_avail !! 0%nat) else mret 0);
  let off := if padded then 1%nat else 0%nat in
  if padded && (len <? 1 + pad) then
    _ ← send_go_away ProtocolError (bs "DATA padding too large"); mret Fatal
  else
    rest ← lift (unsigned_sub len (Z.of_nat off));
    data_total ← lift (unsigned_sub rest pad);
    exceeded ← charge_connection_window len;
    if (exceeded : bool) then mret Fatal
    else
      _ ← open_local_stream id;
      limit ← gets recv_limit;
      closed ← is_closed_stream id;
      s ← get_stream id;
      (* [Some discard], or [None] for a violation of the stream's window *)
      discard ← (if (closed : bool) then mret (Some true)
                 else
                   match s with
                   | None =>
                       _ ← send_rst_stream id H2Wire.StreamClosed;
                       _ ← call (OnStreamReset id (as_u32 H2Wire.StreamClosed));
                       mret (Some true)
                   | Some s =>
                       r ← data_decision limit s len data_total;
                       _ ← put_stream id r.2;
                       match r.1 with
                       | Rst code => _ ← reset_stream id code; mret (Some true)
                       | FlowControlViolation =>
                           _ ← send_go_away FlowControlError (bs "stream flow-control window exceeded");
                           mret None
                       | DeliverData => mret (Some false)
                       end
                   end);
      match discard with
      | None => mret Fatal
      | Some discard =>
          body_avail ← lift (slice_from payload_avail off);
          let data_now := Nat.min (length body_avail) (Z.to_nat data_total) in
          _ ← (if (0 <? data_now)%nat && negb discard
               then data ← lift (slice_to body_avail data_now); call (OnData id data) else mret tt);
          let consumed_payload := (off + length body_avail)%nat in
          payload_remaining ← lift (unsigned_sub len (Z.of_nat consumed_payload));
          data_remaining ← lift (unsigned_sub data_total (Z.of_nat data_now));
          let inflight :=
            DataInFlight.mk id (wrap32 payload_remaining) (wrap32 data_remaining)
              (flags.has (FrameHeader.flags hdr) flags.END_STREAM) discard in
          (* [debug_assert!(inflight.payload_remaining > 0)] *)
          _ ← (if 0 <? DataInFlight.payload_remaining inflight then mret tt else panic);
          _ ← modify (set_data_in_flight (Some inflight));
          _ ← modify (λ c, set_frames_received (wrap64 (frames_received c + 1)) c);
          received ← gets frames_received; sent ← gets frames_sent;
          _ ← call (OnFrameCounters received sent);
          mret (Consumed (FRAME_HEADER_SIZE + consumed_payload))
      end.

(** *** RST_STREAM, PUSH_PROMISE, ALTSVC, ORIGIN *)

Definition handle_rst_stream (hdr : FrameHeader.t) (payload : bytes) : M bool :=
  let id := FrameHeader.stream_id hdr in
  code_raw ← u32_at payload 0;
  s ← get_stream id;
  sent ← ask (goaway_sent E);
  let live := match s with Some s => negb (bool_decide (Stream.state s = Idle)) | None => false end in
  let charged := match s with
                 | Some s => negb (bool_decide (Stream.state s = Closed))
                             && negb (sent && negb (Stream.opened_after_goaway s))
                 | None => false
                 end in
  _ ← (if live then close_entry id else mret tt);
  local ← ask (λ tr, is_local_stream E tr id);
  let shim := negb live && local in
  _ ← (if shim then _ ← or_insert_stream id; close_entry id else mret tt);
  let on_idle := negb live && negb shim in
  existed ← has_existed id;
  if on_idle && existed then mret false
  else if on_idle then go_away ProtocolError (bs "RST_STREAM on idle stream")
  else
    _ ← call (OnStreamReset id code_raw);
    _ ← (if live && charged then note_reset ByPeer else mret tt);
    mret false.

Definition handle_push_promise (hdr : FrameHeader.t) (payload : bytes) : M bool :=
  server ← gets is_server;
  if (server : bool) then go_away ProtocolError (bs "server received PUSH_PROMISE")
  else
    local ← gets local_settings;
    if Settings.enable_push local =? 0 then go_away ProtocolError (bs "PUSH_PROMISE with push disabled")
    else
      range ← strip_padding (FrameHeader.flags hdr) payload (bs "PUSH_PROMISE padded but empty")
                (bs "PUSH_PROMISE padding too large");
      match range with
      | Err (code, debug) => go_away code debug
      | Ok (off, end_) =>
          if (end_ <? off + 4)%nat then go_away FrameSizeError (bs "PUSH_PROMISE missing promised id")
          else
            raw ← u32_at payload off;
            let promised := Z.land raw 0x7fffffff in
            let off := (off + 4)%nat in
            known ← contains_stream promised;
            if (promised =? 0) || (Z.land promised 1 =? 1) || known then
              go_away ProtocolError (bs "PUSH_PROMISE invalid promised stream id")
            else
              _ ← or_insert_stream promised;
              _ ← with_stream promised (Stream.set_state ReservedRemote);
              _ ← modify (λ c, if last_stream_id c <? promised then set_last_stream_id promised c else c);
              block ← lift (slice_range payload off end_);
              _ ← modify (set_header_block block);
              let id := FrameHeader.stream_id hdr in
              (* [NonZeroU32::new(hdr.stream_id)] *)
              let parent := if id =? 0 then None else Some id in
              finish_or_park_header_block hdr (mkMeta promised parent 0 false true Deliver)
      end.

Definition handle_altsvc (hdr : FrameHeader.t) (payload : bytes) : M bool :=
  if (length payload <? 2)%nat then mret false
  else
    len ← lift (slice_range payload 0 2);
    let origin_len := Z.to_nat (be_bytes len) in
    if (length payload <? 2 + origin_len)%nat then mret false
    else
      origin ← lift (slice_range payload 2 (2 + origin_len));
      value ← lift (slice_from payload (2 + origin_len));
      server ← gets is_server;
      let id := FrameHeader.stream_id hdr in
      let empty := (length origin =? 0)%nat in
      if server || ((id =? 0) && empty) || (negb (id =? 0) && negb empty) then mret false
      else _ ← call (OnAltsvc id origin value); mret false.

Definition handle_origin (hdr : FrameHeader.t) (payload : bytes) : M bool :=
  server ← gets is_server;
  if negb (FrameHeader.stream_id hdr =? 0) || server then mret false
  else _ ← call (OnOrigin payload); mret false.

(** *** [dispatch] and [receive] *)

Definition dispatch (hdr : FrameHeader.t) (payload : bytes) : M bool :=
  let typ := FrameHeader.typ hdr in
  _ ← (if bool_decide (typ = Some GoAway) then mret tt
       else
         _ ← modify (λ c, set_frames_received (wrap64 (frames_received c + 1)) c);
         received ← gets frames_received; sent ← gets frames_sent;
         call (OnFrameCounters received sent));
  inflight ← gets header_block_in_flight;
  let expected :=
    match inflight with
    | Some inflight =>
        bool_decide (typ = Some Continuation) && (FrameHeader.stream_id hdr =? continuation_stream inflight)
    | None => true
    end in
  if negb expected then go_away ProtocolError (bs "expected CONTINUATION frame")
  else
    local ← gets local_settings;
    match validate_header hdr (Settings.max_frame_size local) with
    | ConnectionError code => go_away code (bs "frame validation failed")
    | StreamError id code => _ ← send_rst_stream id code; mret false
    | HvOk =>
        match typ with
        | Some Settings_ => handle_settings hdr payload
        | Some Ping => handle_ping hdr payload
        | Some GoAway => handle_go_away payload
        | Some WindowUpdate => handle_window_update hdr payload
        | Some Headers => handle_headers hdr payload
        | Some Continuation => handle_continuation hdr payload
        | Some Data => handle_data hdr payload
        | Some RstStream => handle_rst_stream hdr payload
        | Some PushPromise => handle_push_promise hdr payload
        | Some AltSvc => handle_altsvc hdr payload
        | Some Origin => handle_origin hdr payload
        | Some Priority => mret false
        | None => mret false
        end
    end.

(** [for (id, s) in self.streams.iter_mut()]: the increments due. *)
Fixpoint take_updates (ids : list Z) : M (list (Z * Z)) :=
  match ids with
  | [] => mret []
  | id :: ids =>
      s ← get_stream id;
      reading ← ask (λ tr, is_stream_reading E tr id);
      here ← match s with
             | Some s =>
                 if negb (bool_decide (Stream.state s = Closed))
                    && RecvWindow.needs_update (Stream.recv_window s) && reading then
                   r ← lift (RecvWindow.take_update (Stream.recv_window s));
                   _ ← put_stream id (Stream.set_recv_window r.2 s);
                   mret (if 0 <? r.1 then [(id, r.1)] else [])
                 else mret []
             | None => mret []
             end;
      rest ← take_updates ids;
      mret (here ++ rest)
  end.

Fixpoint send_updates (buf : list (Z * Z)) : M unit :=
  match buf with
  | [] => mret tt
  | (id, inc) :: buf => _ ← send_window_update id inc; send_updates buf
  end.

Definition evict_closed (c : Connection) : Connection :=
  set_streams (filter (λ p, Stream.state p.2 ≠ Closed) (streams c)) c.

Definition replenish_windows : M unit :=
  w ← gets recv_window;
  _ ← (if RecvWindow.needs_update w then
         r ← lift (RecvWindow.take_update w);
         _ ← modify (set_recv_window r.2);
         if 0 <? r.1 then send_window_update 0 r.1 else mret tt
       else mret tt);
  ss ← gets streams;
  ids ← ask (λ tr, iter E tr ss);
  buf ← take_updates ids;
  _ ← send_updates buf;
  modify evict_closed.

(** [loop] of [receive] from [offset] on: the offset reached and whether the
    connection is torn down; at least one header's worth of bytes per round. *)
Fixpoint receive_loop (fuel : nat) (bytes_ : bytes) (offset : nat) : M (nat * bool) :=
  match fuel with
  | O => panic
  | S fuel =>
      remaining ← lift (slice_from bytes_ offset);
      stop ← ask (should_stop E);
      if (length remaining <? FRAME_HEADER_SIZE)%nat || stop then mret (offset, false)
      else
        hdr ← lift (FrameHeader.parse remaining);
        local ← gets local_settings;
        if Settings.max_frame_size local <? FrameHeader.length hdr then
          _ ← send_go_away FrameSizeError (bs "frame exceeds SETTINGS_MAX_FRAME_SIZE");
          mret (offset, true)
        else
          let total := (FRAME_HEADER_SIZE + Z.to_nat (FrameHeader.length hdr))%nat in
          if (length remaining <? total)%nat then
            inflight ← gets header_block_in_flight;
            if bool_decide (FrameHeader.typ hdr = Some Data) && bool_decide (inflight = None)
               && negb (FrameHeader.stream_id hdr =? 0) && (0 <? FrameHeader.length hdr) then
              let padded := flags.has (FrameHeader.flags hdr) flags.PADDED in
              avail_payload ← lift (usize_sub (length remaining) FRAME_HEADER_SIZE);
              if negb padded || (1 <=? avail_payload)%nat then
                r ← begin_streamed_data hdr remaining padded;
                match r with
                | Fatal => mret (offset, true)
                | Consumed n => mret ((offset + n)%nat, false)
                end
              else mret (offset, false)
            else mret (offset, false)
          else
            payload ← lift (slice_range remaining FRAME_HEADER_SIZE total);
            stop ← dispatch hdr payload;
            if (stop : bool) then mret ((offset + total)%nat, true)
            else
              flooded ← check_reset_flood;
              if (flooded : bool) then mret ((offset + total)%nat, true)
              else receive_loop fuel bytes_ (offset + total)
  end.

(** The client preface: the offset after it, or the result to return. *)
Definition receive_preface (bytes_ : bytes) : M (result nat Feed) :=
  server ← gets is_server; got ← gets preface_received;
  if server && (got <? length CONNECTION_PREFACE)%nat then
    need ← lift (usize_sub (length CONNECTION_PREFACE) got);
    let avail := Nat.min need (length bytes_) in
    expect ← lift (slice_range CONNECTION_PREFACE got (got + avail));
    head ← lift (slice_to bytes_ avail);
    if negb (beq head expect) then
      _ ← local_connection_error ProtocolError lib_error.BAD_CLIENT_MAGIC (bs "invalid connection preface");
      mret (Err (mkFeed avail true))
    else
      _ ← modify (set_preface_received (got + avail));
      if (got + avail <? length CONNECTION_PREFACE)%nat then mret (Err (mkFeed avail false))
      else mret (Ok avail)
  else mret (Ok 0%nat).

(** The rest of a DATA frame that is being streamed. *)
Definition receive_inflight (bytes_ : bytes) (offset : nat) : M (result nat Feed) :=
  inflight ← gets data_in_flight;
  match inflight with
  | None => mret (Ok offset)
  | Some d =>
      _ ← modify (set_data_in_flight None);
      left_ ← lift (usize_sub (length bytes_) offset);
      let avail := Nat.min left_ (Z.to_nat (DataInFlight.payload_remaining d)) in
      let data_now := Nat.min avail (Z.to_nat (DataInFlight.data_remaining d)) in
      _ ← (if (0 <? data_now)%nat && negb (DataInFlight.discard d)
           then data ← lift (slice_range bytes_ offset (offset + data_now)); call (OnData (DataInFlight.stream_id d) data)
           else mret tt);
      data_remaining ← lift (unsigned_sub (DataInFlight.data_remaining d) (Z.of_nat data_now));
      payload_remaining ← lift (unsigned_sub (DataInFlight.payload_remaining d) (Z.of_nat avail));
      let d := DataInFlight.mk (DataInFlight.stream_id d) payload_remaining data_remaining
                 (DataInFlight.end_stream d) (DataInFlight.discard d) in
      let offset := (offset + avail)%nat in
      if DataInFlight.payload_remaining d =? 0 then
        _ ← finish_streamed_data d; mret (Ok offset)
      else
        _ ← modify (set_data_in_flight (Some d));
        _ ← replenish_windows;
        mret (Err (mkFeed offset false))
  end.

Definition receive (bytes_ : bytes) : M Feed :=
  dead ← gets terminated;
  if (dead : bool) then mret (mkFeed (length bytes_) true)
  else
    r ← receive_preface bytes_;
    match r with
    | Err feed => mret feed
    | Ok offset =>
        r ← receive_inflight bytes_ offset;
        match r with
        | Err feed => mret feed
        | Ok offset =>
            r ← receive_loop (S (length bytes_)) bytes_ offset;
            let '(offset, stop) := r in
            if (stop : bool) then mret (mkFeed offset true)
            else
              flooded ← check_reset_flood;
              if (flooded : bool) then mret (mkFeed offset true)
              else _ ← replenish_windows; mret (mkFeed offset false)
        end
    end.

(** *** The outbound stream API *)

Definition begin_header_block : M unit :=
  cd ← gets coder;
  r ← lift (take_pending_size_update cd (replicate MAX_SIZE_UPDATE_BYTES 0) 0);
  let '(cd, (tmp, n)) := r in
  _ ← modify (set_coder cd);
  head ← lift (slice_to tmp n);
  modify (set_enc_buf head).

Definition encode_header (name value : bytes) (never_index : bool) : M bool :=
  buf ← gets enc_buf; cd ← gets coder;
  let old := length buf in
  let grown := buf ++ replicate (length name + length value + 16) 0 in
  let '(cd, (dst, r)) := Coder_encode cd name value never_index grown old in
  _ ← modify (set_coder cd);
  match r with
  | Ok n => _ ← modify (set_enc_buf (take (old + n) dst)); mret true
  | Err _ => _ ← modify (set_enc_buf (take old dst)); mret false
  end.

(** The CONTINUATION frames for [block[off..]], at most [max] bytes each. *)
Fixpoint send_continuations (fuel : nat) (stream_id : Z) (max : nat) (block : bytes) (off : nat) : M unit :=
  if (off <? length block)%nat then
    match fuel with
    | O => panic
    | S fuel =>
        left_ ← lift (usize_sub (length block) off);
        let len := Nat.min left_ max in
        let f := if (off + len =? length block)%nat then flags.END_HEADERS else 0 in
        part ← lift (slice_range block off (off + len));
        _ ← write_frame Continuation f stream_id part;
        send_continuations fuel stream_id max block (off + len)
    end
  else mret tt.

Definition note_stream_id (id : Z) : M unit :=
  modify (λ c, if last_stream_id c <? id then set_last_stream_id id c else c).

Definition send_header_block (stream_id : Z) (end_stream : bool) : M unit :=
  block ← gets enc_buf;
  remote ← gets remote_settings;
  let max := Nat.max (Z.to_nat (Settings.max_frame_size remote)) 1 in
  let total := length block in
  let first_len := Nat.min total max in
  let fl := if (first_len =? total)%nat then Z.lor 0 flags.END_HEADERS else 0 in
  let fl := if end_stream then Z.lor fl flags.END_STREAM else fl in
  first ← lift (slice_to block first_len);
  _ ← write_frame Headers fl stream_id first;
  _ ← send_continuations total stream_id max block first_len;
  _ ← modify (set_enc_buf []);
  s ← or_insert_stream stream_id;
  let ev := if end_stream then SendHeadersEndStream else SendHeaders in
  _ ← with_stream stream_id (Stream.set_state (advance (Stream.state s) ev));
  note_stream_id stream_id.

Definition send_data (stream_id : Z) (data : bytes) (end_stream : bool) : M nat :=
  w ← gets send_window;
  let conn_avail := SendWindow.available w in
  s ← get_stream stream_id;
  let stream_avail := match s with Some s => SendWindow.available (Stream.send_window s) | None => 0 end in
  remote ← gets remote_settings;
  let max_frame := Settings.max_frame_size remote in
  let allowed := Z.to_nat (Z.max (Z.min (Z.min conn_avail stream_avail) max_frame) 0) in
  let to_send := Nat.min allowed (length data) in
  let send_all := (to_send =? length data)%nat in
  if (to_send =? 0)%nat && negb ((length data =? 0)%nat && end_stream) then mret 0%nat
  else
    let fl := if end_stream && send_all then flags.END_STREAM else 0 in
    chunk ← lift (slice_to data to_send);
    _ ← write_frame Data fl stream_id chunk;
    w ← lift (SendWindow.consume w (Z.of_nat to_send));
    _ ← modify (set_send_window w);
    s ← get_stream stream_id;
    _ ← match s with
        | Some s =>
            w ← lift (SendWindow.consume (Stream.send_window s) (Z.of_nat to_send));
            let s := Stream.set_send_window w s in
            put_stream stream_id
              (if end_stream && send_all then Stream.set_state (advance (Stream.state s) SendEndStream) s else s)
        | None => mret tt
        end;
    mret to_send.

Definition close_stream (stream_id : Z) : M unit :=
  modify (λ c, set_streams (delete stream_id (streams c)) c).

Definition replenish_stream (stream_id : Z) : M unit :=
  s ← get_stream stream_id;
  match s with
  | Some s =>
      if negb (bool_decide (Stream.state s = Closed)) && RecvWindow.needs_update (Stream.recv_window s) then
        r ← lift (RecvWindow.take_update (Stream.recv_window s));
        _ ← put_stream stream_id (Stream.set_recv_window r.2 s);
        if 0 <? r.1 then send_window_update stream_id r.1 else mret tt
      else mret tt
  | None => mret tt
  end.

Definition send_push_promise (parent_id promised_id : Z) : M unit :=
  block ← gets enc_buf;
  remote ← gets remote_settings;
  let max := Nat.max (Z.to_nat (Settings.max_frame_size remote)) 5 in
  first_cap ← lift (usize_sub max 4);
  let first_len := Nat.min (length block) first_cap in
  head ← lift (slice_to block first_len);
  let first := to_be_bytes 4 (Z.land promised_id 0x7fffffff) ++ head in
  let fl := if (first_len =? length block)%nat then flags.END_HEADERS else 0 in
  _ ← write_frame PushPromise fl parent_id first;
  _ ← send_continuations (length block) parent_id max block first_len;
  _ ← modify (set_enc_buf []);
  _ ← or_insert_stream promised_id;
  _ ← with_stream promised_id (Stream.set_state ReservedLocal);
  note_stream_id promised_id.
End handlers.
End engine.

(** ** A coder for examples: each field as a length and its bytes, twice *)

Definition toy_field (src : bytes) : option (bytes * bytes) :=
  match src with
  | n :: rest => Some (take (Z.to_nat n) rest, drop (Z.to_nat n) rest)
  | [] => None
  end.

#[export] Instance toy_lshpack : Lshpack := {|
  HPACK := unit;
  lshpack_wrapper_init := λ _, tt;
  lshpack_wrapper_decode := λ h src,
    (h, match toy_field src with
        | Some (n, rest) =>
            match toy_field rest with
            | Some (v, rest) => ((length src - length rest)%nat, mkHeader n v false 255)
            | None => (0%nat, mkHeader [] [] false 255)
            end
        | None => (0%nat, mkHeader [] [] false 255)
        end);
  lshpack_wrapper_encode := λ h name value _ dst off,
    let enc := Z.of_nat (length name) :: name ++ Z.of_nat (length value) :: value in
    (h, if (length dst <? off + length enc)%nat then (dst, 0%nat) else (splice dst off enc, length enc));
  lshpack_wrapper_enc_set_max_capacity := λ h _, h |}.

(** A client's request as a server receives it, in two chunks. *)
Example request_reaches_server :
  let E := default_env in
  let client := Connection_new 0 false Settings.default in
  let server := Connection_new 0 true Settings.default in
  let request :=
    (_ ← begin_header_block;
     _ ← encode_header (bs ":method") (bs "POST") false;
     _ ← encode_header (bs ":scheme") (bs "https") false;
     _ ← encode_header (bs ":path") (bs "/x") false;
     _ ← encode_header (bs ":authority") (bs "a.b") false;
     _ ← encode_header (bs "content-length") (bs "2") false;
     _ ← send_header_block 1 false;
     send_data 1 (bs "hi") true) in
  let out tr := concat (omap (λ k, match k with Write b => Some b | _ => None end) tr) in
  let events := omap (λ k, match k with Write _ | OnFrameCounters _ _ => None | k => Some k end) in
  match request client [] with
  | Some (n, (_, tr)) =>
      let wire := CONNECTION_PREFACE ++ out tr in
      match (_ ← receive E (take 30 wire); receive E (drop 24 wire)) server [] with
      | Some (feed, (_, tr)) =>
          n = 2%nat ∧ consumed feed = (length wire - 24)%nat ∧ fatal feed = false ∧
          events tr =
            [OnStreamOpen 1; OnHeader 1 (bs ":method") (bs "POST") false; OnHeader 1 (bs ":scheme") (bs "https") false;
             OnHeader 1 (bs ":path") (bs "/x") false; OnHeader 1 (bs ":authority") (bs "a.b") false;
             OnHeader 1 (bs "content-length") (bs "2") false; OnHeadersComplete 1 false 4;
             OnData 1 (bs "hi"); OnStreamEnd 1 6]
      | None => False
      end
  | None => False
  end.
Proof. vm_compute. repeat split. Qed.

(** Zero-increment WINDOW_UPDATE on the connection: GOAWAY(PROTOCOL_ERROR). *)
Example window_update_zero_increment_on_conn_is_goaway :
  let frame := FrameHeader.write (FrameHeader.mk 4 8 0 0) ++ [0; 0; 0; 0] in
  match receive default_env frame (Connection_new 0 false Settings.default) [] with
  | Some (feed, (c, tr)) => fatal feed = true ∧ terminated c = true ∧
      last tr = Some (OnError (-505) 0 (bs "WINDOW_UPDATE with 0 increment"))
  | None => False
  end.
Proof. vm_compute. repeat split. Qed.
