(* ===== verification/H2Embedder.v ===== *)
(** * [runtime/api/bun/h2_frame_parser.rs]: what the embedder writes into the engine

    [H2FrameParser] drives the engine of [H2Conn]: it creates it on the first read
    ([ensure_engine]) and, before it hands it the bytes of a read ([rewrite_read]), it
    writes its own configuration and what its encoder has sent since the last read
    into the engine's fields. [setLocalWindowSize] grows the receive window directly.
    Between these calls JavaScript may change the cells of the parser in any way, so a
    [Bridge] is what they hold at one call. *)

From S2P Require Import Prelude H2Wire H2Stream H2Flow H2Hpack H2Fields H2Conn.

#[local] Open Scope Z_scope.

(** The cells of [H2FrameParser] that [rewrite_read] reads or drains. *)
Module Bridge.
Record t := mk {
  local_settings : Settings.t; max_header_list_pairs : Z; max_settings : Z; max_session_invalid_frames : Z;
  strict_field_whitespace : bool; stream_reset_burst : Z; stream_reset_rate : Z;
  write_buffer : bytes; write_buffer_offset : nat;
  pending_recv_window_growth : Z; pending_send_window_consumed : Z;
  pending_stream_send_consumed : list (Z * Z); pending_settings_window_submissions : list Settings.t;
  dispatch_depth : Z; pending_engine_stream_closes : list Z; streams : gset Z }.

(** The queues after [rewrite_read] has drained them. *)
Definition drained (kept : list (Z * Z)) (closes : list Z) (alive : gset Z) (b : t) : t :=
  mk (local_settings b) (max_header_list_pairs b) (max_settings b) (max_session_invalid_frames b)
    (strict_field_whitespace b) (stream_reset_burst b) (stream_reset_rate b) (write_buffer b)
    (write_buffer_offset b) 0 0 kept [] (dispatch_depth b) closes alive.
End Bridge.

(** [n as i64] *)
Definition as_i64 (n : Z) : Z := if n <? 2 ^ 63 then n else n - 2 ^ 64.

(** [note_engine_send_consumed] on the two cells it changes; sums of [u64]. *)
Definition note_engine_send_consumed (total : Z) (v : list (Z * Z)) (stream_id n : Z) : option (Z * list (Z * Z)) :=
  if n =? 0 then Some (total, v)
  else
    total ← (if total + n <=? U64_MAX then Some (total + n) else None);
    match last v with
    | Some (id, m) =>
        if id =? stream_id then
          m ← (if m + n <=? U64_MAX then Some (m + n) else None);
          Some (total, removelast v ++ [(id, m)])
        else Some (total, v ++ [(stream_id, n)])
    | None => Some (total, v ++ [(stream_id, n)])
    end.

Section embedder.
Context {L : Lshpack} (E : Env).

(** [ensure_engine]: a new connection with the limit of the constructor. *)
Definition ensure_engine (now : Z) (is_server : bool) (local : Settings.t) (limit : Z) : Connection :=
  set_enforced_max_header_list_size limit (Connection_new now is_server local).

(** The five fields that are copied over. *)
Definition set_config (b : Bridge.t) (c : Connection) : Connection :=
  mkConnection (is_server c) (frames_received c) (frames_sent c) (Bridge.local_settings b) (remote_settings c)
  (local_settings_acked c) (Bridge.max_header_list_pairs b) (Bridge.max_session_invalid_frames b)
  (Bridge.strict_field_whitespace b) (acked_local_initial_window c) (enforced_max_header_list_size c)
  (pending_local_settings_acks c) (invalid_frame_count c) (Bridge.max_settings b) (send_window c) (recv_window c)
  (coder c) (streams c) (header_block_in_flight c) (header_block c) (data_in_flight c) (terminated c)
  (obq_ack_pending c) (stream_reset_limit c) (sent_reset_limit c) (reset_flood c) (enc_buf c)
  (preface_received c) (last_stream_id c) (going_away c).

(** [engine.recv_window.grow(delta)]: of [rewrite_read], and of [setLocalWindowSize]. *)
Definition grow_recv_window (delta : Z) : M unit :=
  w ← gets recv_window;
  w ← lift (RecvWindow.grow w delta);
  modify (set_recv_window w).

(** [v.retain(..)]: debit the entries of the engine, keep the others while their stream lives. *)
Fixpoint retain_consumed (alive : gset Z) (v : list (Z * Z)) : M (list (Z * Z)) :=
  match v with
  | [] => mret []
  | (id, n) :: v =>
      s ← get_stream id;
      keep ← match s with
             | Some s =>
                 w ← lift (SendWindow.consume (Stream.send_window s) (as_i64 n));
                 _ ← put_stream id (Stream.set_send_window w s);
                 mret false
             | None => mret (bool_decide (id ∈ alive))
             end;
      rest ← retain_consumed alive v;
      mret (if (keep : bool) then (id, n) :: rest else rest)
  end.

(** [for id in v.drain(..) { engine.close_stream(id); .. }] *)
Fixpoint close_streams (ids : list Z) : M unit :=
  match ids with
  | [] => mret tt
  | id :: ids => _ ← close_stream id; close_streams ids
  end.

(** The configuration of the embedder. *)
Definition sync_config (b : Bridge.t) : M unit :=
  _ ← modify (set_config b);
  configure_stream_reset_limit E (Bridge.stream_reset_burst b) (Bridge.stream_reset_rate b).

(** [if pending > 0 { .. grow }] and [if sent > 0 { .. consume }] *)
Definition sync_growth (pending : Z) : M unit := if 0 <? pending then grow_recv_window pending else mret tt.
Definition sync_sent (sent : Z) : M unit :=
  if 0 <? sent then
    w ← gets send_window;
    w ← lift (SendWindow.consume w (as_i64 sent));
    modify (set_send_window w)
  else mret tt.

(** The part of [rewrite_read] between [ensure_engine] and [receive]. *)
Definition rewrite_sync (b : Bridge.t) : M Bridge.t :=
  _ ← sync_config b;
  unsent ← lift (slice_from (Bridge.write_buffer b) (Bridge.write_buffer_offset b));
  _ ← (if (length unsent =? 0)%nat then note_outbound_drained else mret tt);
  _ ← sync_growth (Bridge.pending_recv_window_growth b);
  _ ← sync_sent (Bridge.pending_send_window_consumed b);
  kept ← retain_consumed (Bridge.streams b) (Bridge.pending_stream_send_consumed b);
  _ ← modify (λ c, set_pending_local_settings_acks
                     (pending_local_settings_acks c ++ Bridge.pending_settings_window_submissions b) c);
  let ids := Bridge.pending_engine_stream_closes b in
  if Bridge.dispatch_depth b =? 0 then
    _ ← close_streams ids;
    mret (Bridge.drained kept [] (Bridge.streams b ∖ list_to_set ids) b)
  else mret (Bridge.drained kept ids (Bridge.streams b) b).
End embedder.

(** Bytes of one stream merge with its last entry. *)
Example notes_merge :
  note_engine_send_consumed 5 [(1, 5)] 1 7 = Some (12, [(1, 12)]) ∧
  note_engine_send_consumed 5 [(1, 5)] 3 7 = Some (12, [(1, 5); (3, 7)]).
Proof. done. Qed.
