(* ===== verification/H2ConnFacts.v ===== *)
(** * The invariant of the HTTP/2 engine

    A weakest precondition for the engine's monad: the code does not panic,
    only adds to the trace, makes only calls that satisfy [call_ok], and ends
    in a state of the postcondition. With it every handler is shown to keep
    [conn_ok], and to return [true] exactly when it has torn the connection
    down. *)

From S2P Require Import Prelude H2Wire H2Stream H2Flow H2Hpack H2Fields H2Conn.

#[local] Open Scope Z_scope.

(** ** What the engine may call *)

(** Fields that reach the application: a lower-case token for a name, no NUL, CR
    or LF in the value, nothing that is specific to an HTTP/1 connection. *)
Definition field_ok (name value : bytes) : Prop :=
  is_malformed_field_name name = false ∧ is_malformed_field_value value = false ∧
  connection_specific name = false.

Definition call_ok (k : Call) : Prop :=
  match k with
  | OnHeader _ name value _ => field_ok name value
  | OnData _ data => data ≠ []
  | _ => True
  end.

Lemma field_step_ok cfg b name value b' :
  field_step cfg b name value = (b', true) → field_ok name value.
Proof.
  unfold field_step. destruct b as [ls fc r m sr sp sc so sh hs o a i cl].
  destruct (r || _ || _); [done|]. destruct (negb (cfg_deliver cfg)); [done|]. cbn [malformed]. destruct m; [done|].
  destruct (check_field _ _ name value) as [b1 skip] eqn:E. intros [= -> Hs]. apply andb_prop in Hs as [_ Hm].
  apply negb_true_iff in Hm. revert E. unfold check_field, field_ok.
  destruct (is_malformed_field_name name) eqn:En; [by intros [= <- _]|].
  destruct (is_malformed_field_value value) eqn:Ev; [by intros [= <- _]|]. cbn [orb]. intros E.
  split_and!; try done. destruct name as [|c rest]; [done|].
  destruct (Z.eqb_spec c 58) as [->|Hc]; [by unfold connection_specific, beq; rewrite !bool_decide_false|].
  destruct (on_regular _ _ (c :: rest) value) as [b2 sk] eqn:Er. injection E as -> _.
  unfold on_regular in Er. destruct (connection_specific (c :: rest)); [|done].
  injection Er as <- _. done.
Qed.

(** ** Weakest preconditions *)

Section wp.
Context {L : Lshpack}.

Definition wp {A} (m : M A) (Q : A → Connection → Prop) (c : Connection) : Prop :=
  ∀ tr, ∃ a c' new, m c tr = Some (a, (c', tr ++ new)) ∧ Forall call_ok new ∧ Q a c'.

Lemma wp_mono {A} (m : M A) (P Q : A → Connection → Prop) c :
  wp m P c → (∀ a c', P a c' → Q a c') → wp m Q c.
Proof. intros H HPQ tr. destruct (H tr) as (a & c' & new & Hm & Hn & HP). exists a, c', new. auto. Qed.

Lemma wp_ret {A} (a : A) (Q : A → Connection → Prop) c : Q a c → wp (mret a) Q c.
Proof. intros H tr. exists a, c, []. by rewrite app_nil_r. Qed.

Lemma wp_bind {A B} (m : M A) (k : A → M B) (Q : B → Connection → Prop) c :
  wp m (λ a c', wp (k a) Q c') c → wp (m ≫= k) Q c.
Proof.
  intros H tr. destruct (H tr) as (a & c' & new & Hm & Hn & Hk).
  destruct (Hk (tr ++ new)) as (b & c'' & new' & Hm' & Hn' & HQ).
  exists b, c'', (new ++ new'). split_and!; [|by apply Forall_app|done].
  unfold mbind, M_bind. rewrite Hm, Hm'. by rewrite (assoc app).
Qed.

Lemma wp_gets {A} (f : Connection → A) (Q : A → Connection → Prop) c : Q (f c) c → wp (gets f) Q c.
Proof. intros H tr. exists (f c), c, []. by rewrite app_nil_r. Qed.

Lemma wp_modify f (Q : unit → Connection → Prop) c : Q tt (f c) → wp (modify f) Q c.
Proof. intros H tr. exists tt, (f c), []. by rewrite app_nil_r. Qed.

Lemma wp_call k (Q : unit → Connection → Prop) c : call_ok k → Q tt c → wp (call k) Q c.
Proof. intros Hk H tr. exists tt, c, [k]. split; [done|]. auto. Qed.

Lemma wp_ask_at {A} (q : trace → A) (Q : A → Connection → Prop) c : (∀ tr, Q (q tr) c) → wp (ask q) Q c.
Proof. intros H tr. exists (q tr), c, []. by rewrite app_nil_r. Qed.

Lemma wp_ask {A} (q : trace → A) (Q : A → Connection → Prop) c : (∀ a, Q a c) → wp (ask q) Q c.
Proof. intros H. apply wp_ask_at. auto. Qed.

Lemma wp_lift {A} (o : option A) a (Q : A → Connection → Prop) c : o = Some a → Q a c → wp (lift o) Q c.
Proof. intros -> H. by apply wp_ret. Qed.
End wp.

(** ** What a frame is to the sink *)

Definition frame_header (t : FrameType) (flags_ id : Z) (payload : bytes) : FrameHeader.t :=
  FrameHeader.mk (wrap32 (Z.of_nat (length payload))) (FrameType_code t) flags_ id.

Definition count_frame `{L : Lshpack} (c : Connection) : Connection := set_frames_sent (wrap64 (frames_sent c + 1)) c.

Definition frame_calls `{L : Lshpack} (c : Connection) (t : FrameType) (flags_ id : Z) (payload : bytes) : trace :=
  OnFrameCounters (frames_received c) (frames_sent (count_frame c)) ::
  Write (FrameHeader.write (frame_header t flags_ id payload)) ::
  (if (length payload =? 0)%nat then [] else [Write payload]).

Lemma write_frame_run `{L : Lshpack} t f i p c tr :
  write_frame t f i p c tr = Some (tt, (count_frame c, tr ++ frame_calls c t f i p)).
Proof.
  unfold write_frame, frame_calls, mbind, M_bind, modify, gets, call, mret, M_ret.
  destruct (length p =? 0)%nat; by rewrite <- !(assoc app).
Qed.

(** Steps through straight-line code. *)
Ltac wp_step :=
  match goal with
  | |- wp (_ ≫= _) _ _ => apply wp_bind
  | |- wp (mret _) _ _ => apply wp_ret
  | |- wp (gets _) _ _ => apply wp_gets
  | |- wp (modify _) _ _ => apply wp_modify
  | |- wp (call _) _ _ => apply wp_call; [exact I|]
  | |- wp (ask _) _ _ => apply wp_ask; intros ?
  | |- wp (get_stream _) _ _ => apply wp_gets
  | |- wp (with_stream _ _) _ _ => apply wp_modify
  | |- wp (put_stream _ _) _ _ => apply wp_modify
  | |- wp (close_entry _) _ _ => apply wp_modify
  end.
Ltac wp_steps := repeat (wp_step; cbv beta).

Lemma unsigned_sub_some a b : b <= a → unsigned_sub a b = Some (a - b).
Proof. intros H. unfold unsigned_sub. by rewrite (proj2 (Z.leb_le _ _)). Qed.

(** A checked slice or subtraction, within its bounds. *)
Ltac checked :=
  first [ apply slice_range_some | apply slice_from_some | apply slice_to_some | apply usize_sub_some
        | apply unsigned_sub_some ]; try lia.
Ltac wp_checked := eapply wp_lift; [checked|].

(** ** The invariant *)

(** A stream entry, given the initial window of the peer: its send window leaves
    room for every further change of that setting, and the bytes counted
    against its receive window are far from overflow. *)
Definition stream_ok (initial : Z) (live : bool) (s : Stream.t) : Prop :=
  - 2 ^ 60 <= SendWindow.remaining (Stream.send_window s) <= MAX_WINDOW_SIZE ∧
  (live = true → Stream.state s ≠ Closed →
     initial - 2 ^ 60 <= SendWindow.remaining (Stream.send_window s)) ∧
  0 <= RecvWindow.size (Stream.recv_window s) < 2 ^ 32 ∧
  0 <= RecvWindow.consumed (Stream.recv_window s) <= 2 ^ 33 ∧
  (live = true → RecvWindow.consumed (Stream.recv_window s) <= 2 ^ 32).

Definition inflight_ok (d : DataInFlight.t) : Prop :=
  0 < DataInFlight.payload_remaining d < 2 ^ 24 ∧
  0 <= DataInFlight.data_remaining d <= DataInFlight.payload_remaining d.

Section engine_facts.
Context {L : Lshpack}.

(** The most that a header block held for CONTINUATION may have. *)
Definition header_block_limit (c : Connection) : Z :=
  Z.max (Z.max (enforced_max_header_list_size c) 65536) (2 ^ 24 - 1).

Definition header_state_ok (limit : Z) (inflight : option HeaderBlockInFlight) (block : bytes) : Prop :=
  (inflight = None → block = []) ∧ Z.of_nat (length block) <= limit.

Record conn_ok (c : Connection) : Prop := {
  ok_remote : Settings.ok (remote_settings c);
  ok_local : is_u32 (Settings.initial_window_size (local_settings c));
  ok_acked : is_u32 (acked_local_initial_window c);
  ok_pending : Forall (λ s, is_u32 (Settings.initial_window_size s)) (pending_local_settings_acks c);
  ok_send : - 2 ^ 60 <= SendWindow.remaining (send_window c) <= MAX_WINDOW_SIZE;
  ok_recv : 0 <= RecvWindow.size (recv_window c) <= 2 ^ 60 ∧
            0 <= RecvWindow.consumed (recv_window c) <= 2 ^ 61 ∧
            (terminated c = false → RecvWindow.consumed (recv_window c) <= RecvWindow.size (recv_window c));
  ok_streams : map_Forall (λ _ s, stream_ok (Settings.initial_window_size (remote_settings c))
                                    (negb (terminated c)) s) (streams c);
  ok_data : ∀ d, data_in_flight c = Some d → inflight_ok d;
  ok_preface : (preface_received c <= length CONNECTION_PREFACE)%nat;
  ok_header : terminated c = false →
              header_state_ok (header_block_limit c) (header_block_in_flight c) (header_block c);
  ok_coder : ∀ cap, pending_enc_capacity (coder c) = Some cap → is_u32 cap;
}.

(** What a handler leaves: [b] says whether the connection is torn down. *)
Definition outcome (b : bool) (c : Connection) : Prop := conn_ok c ∧ terminated c = b.

Definition is_live := outcome false.

(** States that differ in the frame counters, the reset limits and the like. *)
Definition same_core (c c' : Connection) : Prop :=
  remote_settings c' = remote_settings c ∧ local_settings c' = local_settings c ∧
  acked_local_initial_window c' = acked_local_initial_window c ∧
  pending_local_settings_acks c' = pending_local_settings_acks c ∧ send_window c' = send_window c ∧
  recv_window c' = recv_window c ∧ terminated c' = terminated c ∧ streams c' = streams c ∧
  data_in_flight c' = data_in_flight c ∧ preface_received c' = preface_received c ∧
  header_block_in_flight c' = header_block_in_flight c ∧ header_block c' = header_block c ∧
  enforced_max_header_list_size c' = enforced_max_header_list_size c ∧ is_server c' = is_server c ∧
  pending_enc_capacity (coder c') = pending_enc_capacity (coder c).

Ltac core := unfold same_core; split_and!; reflexivity.

#[local] Instance same_core_refl : Reflexive same_core.
Proof. intros c. unfold same_core. by split_and!. Qed.

#[local] Instance same_core_trans : Transitive same_core.
Proof. unfold same_core. intros x y z. naive_solver congruence. Qed.

Lemma conn_ok_core c c' : same_core c c' → conn_ok c → conn_ok c'.
Proof.
  intros (E1 & E2 & E3 & E4 & E5 & E6 & E7 & E8 & E9 & E10 & E11 & E12 & E13 & E14 & E15) [].
  split; unfold header_block_limit in *; try rewrite E1; try rewrite E2; try rewrite E3; try rewrite E4;
    try rewrite E5; try rewrite E6; try rewrite E7; try rewrite E8; try rewrite E9; try rewrite E10;
    try rewrite E11; try rewrite E12; try rewrite E13; try rewrite E15; done.
Qed.

Lemma outcome_core b c c' : same_core c c' → outcome b c → outcome b c'.
Proof. intros Hs [Hc Ht]. split; [by eapply conn_ok_core|]. destruct Hs as (_ & _ & _ & _ & _ & _ & -> & _). done. Qed.

(** A call changes nothing; a frame changes the counters. *)
Lemma wp_core {A} (m : M A) (Q : A → Connection → Prop) c :
  wp m (λ _ c', same_core c c') c → (∀ a c', same_core c c' → Q a c') → wp m Q c.
Proof. apply wp_mono. Qed.

Context (E : Env).

Lemma write_frame_core t f i p c : wp (write_frame t f i p) (λ _ c', same_core c c') c.
Proof.
  unfold write_frame. wp_steps. destruct (length p =? 0)%nat; wp_steps; core.
Qed.

Lemma note_reset_core by_ c : wp (note_reset E by_) (λ _ c', same_core c c') c.
Proof.
  unfold note_reset. wp_steps. destruct (_ || _); wp_steps; [reflexivity|].
  destruct (RateLimit.drain _ _) as [d lim]. wp_steps. destruct by_, d; wp_steps; core.
Qed.

Lemma send_rst_stream_core id code c : wp (send_rst_stream E id code) (λ _ c', same_core c c') c.
Proof.
  unfold send_rst_stream. wp_steps. eapply wp_core; [apply write_frame_core|]. intros _ c1 H1. wp_steps.
  destruct (streams c1 !! id) as [s|]; [|by wp_steps]. destruct (_ && _); [|by wp_steps].
  eapply wp_core; [apply note_reset_core|]. intros _ c2 H2. by etrans.
Qed.

(** Tearing the connection down. *)
Lemma conn_ok_kill c : conn_ok c → conn_ok (set_terminated true c).
Proof.
  intros []. split; cbn; try done; [naive_solver|].
  eapply map_Forall_impl; [done|]. cbn. intros id s. unfold stream_ok. naive_solver.
Qed.

Lemma local_connection_error_ok code lib debug c :
  conn_ok (set_terminated true c) → wp (local_connection_error code lib debug) (λ _ c', outcome true c') c.
Proof.
  intros Hc. unfold local_connection_error. wp_steps.
  eapply wp_core; [apply write_frame_core|]. intros _ c1 H1. wp_steps.
  eapply outcome_core; [exact H1|]. split; [|done].
  apply (conn_ok_core (set_terminated true c)); [core|done].
Qed.

Lemma kill_ok code lib debug c (Q : unit → Connection → Prop) :
  conn_ok c → (∀ c', outcome true c' → Q tt c') → wp (local_connection_error code lib debug) Q c.
Proof.
  intros Hc HQ. eapply wp_mono; [by apply local_connection_error_ok, conn_ok_kill|]. intros []. auto.
Qed.

Lemma go_away_ok code debug c : conn_ok c → wp (go_away code debug) outcome c.
Proof. intros Hc. unfold go_away. wp_steps. apply kill_ok; [done|]. intros. by wp_steps. Qed.

(** *** Stream entries *)

Abbreviation entry_ok c := (stream_ok (Settings.initial_window_size (remote_settings c)) (negb (terminated c))).

Lemma conn_ok_streams c m : conn_ok c → map_Forall (λ _ s, entry_ok c s) m → conn_ok (set_streams m c).
Proof. intros [] Hm. split; done. Qed.

Lemma live_put c id s : is_live c → entry_ok c s → is_live (set_streams (<[id := s]> (streams c)) c).
Proof.
  intros [Hc Ht] Hs. split; [|done]. apply conn_ok_streams; [done|]. apply map_Forall_insert_2; [done|]. apply Hc.
Qed.

Lemma live_alter c id f :
  is_live c → (∀ s, streams c !! id = Some s → entry_ok c s → entry_ok c (f s)) →
  is_live (set_streams (alter f id (streams c)) c).
Proof.
  intros [Hc Ht] Hf. split; [|done]. apply conn_ok_streams; [done|]. pose proof (ok_streams _ Hc) as Hm.
  intros k s. rewrite lookup_alter_Some. intros [(-> & s0 & H0 & ->)|[_ Hk]]; [|by apply (Hm k)].
  apply Hf; [done|]. by apply (Hm k).
Qed.

Lemma entry_ok_close c s : entry_ok c s → entry_ok c (Stream.set_state Closed s).
Proof. unfold stream_ok. cbn. naive_solver. Qed.

Lemma live_close c id : is_live c → is_live (set_streams (alter (Stream.set_state Closed) id (streams c)) c).
Proof. intros Hc. apply live_alter; [done|]. intros. by apply entry_ok_close. Qed.

Lemma live_entry c id s : is_live c → streams c !! id = Some s → entry_ok c s.
Proof. intros [Hc _] Hs. by apply (ok_streams _ Hc id). Qed.

Lemma not_closed_before s ev s' : transition s ev = Ok s' → s' ≠ Closed → s ≠ Closed.
Proof. by destruct s, ev; cbn; intros [= <-]. Qed.

Lemma entry_ok_state c s st :
  entry_ok c s → (st ≠ Closed → Stream.state s ≠ Closed) → entry_ok c (Stream.set_state st s).
Proof. unfold stream_ok. cbn. naive_solver. Qed.

Lemma advance_closed s ev : advance s ev ≠ Closed → s ≠ Closed.
Proof. destruct s, ev; cbn; done. Qed.

Lemma fresh_ok c : is_live c → entry_ok c (fresh_stream c).
Proof.
  intros [[] Ht]. destruct ok_remote0 as (_ & _ & _ & Hi & _). unfold stream_ok, fresh_stream, is_u32 in *. cbn.
  unfold MAX_WINDOW_SIZE in *. split_and!; lia.
Qed.

Lemma reset_stream_ok id code c : is_live c → wp (reset_stream E id code) (λ _ c', is_live c') c.
Proof.
  intros Hc. unfold reset_stream. wp_steps. eapply wp_core; [apply send_rst_stream_core|]. intros _ c1 H1.
  wp_steps. apply live_close. by eapply outcome_core.
Qed.

(** A reset that ends the handling of a frame. *)
Lemma reset_and_go_on id code c : is_live c → wp (_ ← reset_stream E id code; mret false) outcome c.
Proof.
  intros Hc. apply wp_bind. eapply wp_mono; [by apply reset_stream_ok|]. intros [] c' H. by wp_steps.
Qed.

Lemma or_insert_ok id c (Q : Stream.t → Connection → Prop) :
  is_live c →
  (∀ s c', is_live c' → same_core c (set_streams (streams c) c') → streams c' !! id = Some s →
     (streams c !! id = Some s ∧ c' = c ∨ streams c !! id = None ∧ Stream.state s = Idle) → Q s c') →
  wp (or_insert_stream id) Q c.
Proof.
  intros Hc HQ. unfold or_insert_stream. wp_steps. destruct (streams c !! id) as [s|] eqn:Es; wp_steps.
  - apply HQ; [done|core|done|auto].
  - apply HQ; [by apply live_put, fresh_ok|core|cbn; apply lookup_insert_eq|auto].
Qed.

(** *** Counters that tear the connection down *)

Lemma live_core c c' : same_core c c' → is_live c → is_live c'.
Proof. apply outcome_core. Qed.

Lemma check_reset_flood_ok c : is_live c → wp check_reset_flood outcome c.
Proof.
  intros Hc. unfold check_reset_flood. wp_steps. destruct (_ || _); wp_steps; [done|].
  apply kill_ok; [apply Hc|]. intros. by wp_steps.
Qed.

Lemma note_outbound_ack_ok c : is_live c → wp note_outbound_ack outcome c.
Proof.
  intros Hc. unfold note_outbound_ack. wp_steps.
  assert (H : is_live (set_obq_ack_pending (sat_add32 (obq_ack_pending c) 1) c)) by (eapply live_core; [|done]; core).
  destruct (_ <? _); wp_steps; [done|]. apply kill_ok; [apply H|]. intros. by wp_steps.
Qed.

Lemma count_invalid_frame_ok c :
  is_live c → wp count_invalid_frame (λ b c', outcome b c' ∧ (b = false → same_core c c')) c.
Proof.
  intros Hc. unfold count_invalid_frame. wp_steps.
  assert (H : is_live (set_invalid_frame_count (sat_add32 (invalid_frame_count c) 1) c)) by (eapply live_core; [|done]; core).
  destruct (_ <? _); wp_steps; [|split; [done|intros _; core]].
  split; [|done]. split; [|done]. apply conn_ok_kill, H.
Qed.

(** *** SETTINGS *)

Lemma settings_kill c r : conn_ok c → Settings.ok r → conn_ok (set_terminated true (set_remote_settings r c)).
Proof.
  intros []. split; cbn; try done; [naive_solver|].
  eapply map_Forall_impl; [done|]. cbn. intros id s. unfold stream_ok. naive_solver.
Qed.

Lemma apply_loop_ok fuel payload i c r0 :
  is_live c → Settings.ok r0 → (length payload - i <= fuel)%nat →
  Forall (λ u, is_u32 u.2) (Settings.units (drop i payload)) →
  Settings.validate_units (Settings.units (drop i payload)) = None →
  wp (apply_loop fuel payload i)
    (λ stop c', if stop then outcome true c' else ∃ r, Settings.ok r ∧ c' = set_remote_settings r c)
    (set_remote_settings r0 c).
Proof.
  intros Hc. revert i r0. induction fuel as [|fuel IH]; intros i r0 Hr Hf Hu Hv; cbn [apply_loop];
    destruct (Nat.leb_spec (i + 6) (length payload)) as [Hl|Hl]; try lia; try (wp_steps; by exists r0).
  destruct (Settings.unit_at_some payload i Hl) as ([id v] & Hat & Hus). rewrite Hus in Hu, Hv.
  inversion_clear Hu as [|?? Hv32 Hrest]. apply validate_units_cons in Hv as [Hv1 Hvs]. cbn in Hv1, Hv32.
  apply wp_bind. eapply wp_lift; [exact Hat|]. cbn [fst snd]. unfold apply_unit.
  destruct (SettingId_from_u16 id) as [sid|] eqn:Eid.
  - wp_steps. destruct (_ && _).
    + unfold go_away. wp_steps. eapply wp_mono.
      * apply local_connection_error_ok, settings_kill; [apply Hc|done].
      * intros [] c' H. by wp_steps.
    + wp_steps. apply IH; [|lia|done..]. by eapply apply_ok.
  - wp_steps. apply IH; [done|lia|done..].
Qed.

Lemma shift_ok i i' s w :
  0 <= i <= MAX_WINDOW_SIZE → 0 <= i' <= MAX_WINDOW_SIZE → stream_ok i true s → Stream.state s ≠ Closed →
  SendWindow.apply_initial_delta (Stream.send_window s) (i' - i) = Some w →
  stream_ok i' true (Stream.set_send_window w s).
Proof.
  intros Hi Hi' (Hw & Hl & Hs & Hc & Hc') Hst Hd. specialize (Hl eq_refl Hst). rewrite delta_ok in Hd by (unfold MAX_WINDOW_SIZE in *; lia).
  injection Hd as <-. unfold stream_ok. cbn. split_and!; lia.
Qed.

Lemma set_streams_id c : set_streams (streams c) c = c.
Proof. by destruct c. Qed.

(** Every entry is shifted once. *)
Lemma shift_send_windows_ok i i' ids c :
  0 <= i <= MAX_WINDOW_SIZE → 0 <= i' <= MAX_WINDOW_SIZE → NoDup ids →
  (∀ id s, streams c !! id = Some s → stream_ok (if decide (id ∈ ids) then i else i') true s) →
  wp (shift_send_windows (i' - i) ids)
    (λ _ c', ∃ m, c' = set_streams m c ∧ map_Forall (λ _ s, stream_ok i' true s) m) c.
Proof.
  intros Hi Hi'. revert c. induction ids as [|id ids IH]; intros c Hnd Hm; cbn [shift_send_windows].
  { wp_steps. exists (streams c). split; [by rewrite set_streams_id|]. intros id s Hs. by apply Hm in Hs. }
  inversion_clear Hnd as [|?? Hni Hnd']. wp_steps.
  assert (Hskip : ∀ s, streams c !! id = Some s → stream_ok i true s).
  { intros s Hs. pose proof (Hm id s Hs) as H. rewrite decide_True in H by set_solver. done. }
  assert (Hnext : ∀ m, (∀ k, k ≠ id → m !! k = streams c !! k) → (∀ s, m !! id = Some s → stream_ok i' true s) →
    wp (shift_send_windows (i' - i) ids)
      (λ _ c', ∃ m', c' = set_streams m' c ∧ map_Forall (λ _ s, stream_ok i' true s) m') (set_streams m c)).
  { intros m Hk Hid. eapply wp_mono.
    - apply IH; [done|]. cbn. intros k s Hs. destruct (decide (k = id)) as [->|Hne].
      + rewrite decide_False by done. by apply Hid.
      + rewrite Hk in Hs by done. specialize (Hm k s Hs). destruct (decide (k ∈ ids)).
        * by rewrite decide_True in Hm by set_solver.
        * by rewrite decide_False in Hm by set_solver.
    - intros _ c' (m' & -> & Hm'). by exists m'. }
  destruct (streams c !! id) as [s|] eqn:Es.
  - destruct (bool_decide (Stream.state s = Closed)) eqn:Ec; wp_steps.
    + apply bool_decide_eq_true in Ec. rewrite <- (set_streams_id c).
      apply Hnext; [done|]. intros s' Hs'. rewrite Es in Hs'. injection Hs' as <-.
      specialize (Hskip s eq_refl). unfold stream_ok in *. naive_solver.
    + apply bool_decide_eq_false in Ec. specialize (Hskip s eq_refl).
      assert (Hd : ∃ w, SendWindow.apply_initial_delta (Stream.send_window s) (i' - i) = Some w).
      { destruct Hskip as (Hw & _). rewrite delta_ok by (unfold MAX_WINDOW_SIZE in *; lia). eauto. }
      destruct Hd as [w Hw]. eapply wp_lift; [exact Hw|]. wp_steps. apply Hnext.
      * intros k Hk. by rewrite lookup_insert_ne.
      * intros s'. rewrite lookup_insert_eq. intros [= <-]. by apply (shift_ok i i' s w).
  - wp_steps. rewrite <- (set_streams_id c).
    apply Hnext; [done|]. intros s' Hs'. by rewrite Es in Hs'.
Qed.

Lemma live_pending c rest i m :
  is_live c → is_u32 i → Forall (λ s, is_u32 (Settings.initial_window_size s)) rest →
  (header_block_in_flight c = None) →
  is_live (set_enforced_max_header_list_size m (set_acked_local_initial_window i
    (set_pending_local_settings_acks rest (set_local_settings_acked true c)))).
Proof.
  intros [[] Ht] Hi Hr Hn. split; [|done]. split; cbn; try done.
  intros _. destruct (ok_header0 Ht) as [Hb _]. rewrite (Hb Hn). unfold header_state_ok, header_block_limit.
  split; [done|]. cbn. lia.
Qed.

Lemma handle_settings_ack_ok hdr c :
  is_live c → header_block_in_flight c = None → wp (handle_settings_ack hdr) outcome c.
Proof.
  intros Hc Hn. unfold handle_settings_ack. destruct (negb _); [by apply go_away_ok, Hc|]. wp_steps.
  destruct (_ && _); wp_steps; [done|]. pose proof (ok_pending _ (proj1 Hc)) as Hp.
  pose proof (ok_local _ (proj1 Hc)) as Hl.
  destruct (pending_local_settings_acks c) as [|s rest]; wp_steps.
  - by apply live_pending.
  - inversion_clear Hp. by apply live_pending.
Qed.

Context `{!EnvLaws E}.

Lemma settings_live c r :
  is_live c → Settings.ok r → map_Forall (λ _ s, stream_ok (Settings.initial_window_size r) true s) (streams c) →
  is_live (set_remote_settings r c).
Proof. intros [[] Ht] Hr Hm. split; [|done]. split; try done. cbn. by rewrite Ht. Qed.

(** The streams after a change of the initial window. *)
Lemma shift_all_ok c r :
  is_live c → Settings.ok r →
  let old := remote_settings c in
  let delta := Settings.initial_window_size r - Settings.initial_window_size old in
  wp (if negb (Settings.initial_window_size r =? Settings.initial_window_size old) then
        ss ← gets streams; ids ← ask (λ tr, iter E tr ss); shift_send_windows delta ids
      else mret tt) (λ _ c', is_live c' ∧ header_block_in_flight c' = header_block_in_flight c)
    (set_remote_settings r c).
Proof.
  intros Hc Hr old delta. pose proof (ok_streams _ (proj1 Hc)) as Hm. rewrite (proj2 Hc) in Hm.
  destruct (Z.eqb_spec (Settings.initial_window_size r) (Settings.initial_window_size old)) as [Ei|_]; cbn [negb].
  { wp_steps. split; [|done]. apply settings_live; [done..|]. by rewrite Ei. }
  apply wp_bind, wp_gets, wp_bind, wp_ask_at. intros tr. eapply wp_mono.
  - apply shift_send_windows_ok; [apply (ok_remote _ (proj1 Hc))|apply Hr| |].
    + rewrite iter_keys. apply NoDup_fst_map_to_list.
    + cbn. intros id s Hs. rewrite decide_True; [by apply (Hm id)|]. rewrite iter_keys.
      apply list_elem_of_fmap. exists (id, s). split; [done|]. by apply elem_of_map_to_list.
  - intros [] c' (m & -> & Hok). split; [|done].
    change (set_streams m (set_remote_settings r c)) with (set_remote_settings r (set_streams m c)).
    destruct Hc as [[] Ht]. split; [|done]. split; cbn; try done. by rewrite Ht.
Qed.

Lemma handle_settings_ok hdr payload c :
  is_live c → header_block_in_flight c = None → Forall is_u8 payload → wp (handle_settings E hdr payload) outcome c.
Proof.
  intros Hc Hn Hp. unfold handle_settings. destruct (flags.has _ _); [by apply handle_settings_ack_ok|].
  wp_steps. destruct (_ <? _); [by apply go_away_ok, Hc|].
  apply wp_bind. eapply wp_lift; [apply Settings.validate_payload_units|].
  destruct (Settings.validate_units _) as [code|] eqn:Ev; [by apply go_away_ok, Hc|]. wp_steps.
  assert (Hid : c = set_remote_settings (remote_settings c) c) by (by destruct c).
  assert (Hu : Forall (λ u, is_u32 u.2) (Settings.units payload)).
  { eapply Forall_impl; [by apply units_u32|]. by intros u [_ ?]. }
  pose proof (apply_loop_ok (length payload) payload 0 c (remote_settings c) Hc (ok_remote _ (proj1 Hc)) ltac:(lia) Hu Ev) as Ha.
  rewrite <- Hid in Ha. eapply wp_mono; [exact Ha|]. clear Ha Hid.
  intros [] c' H; [by wp_steps|]. destruct H as (r & Hr & ->). wp_steps.
  set (q := if negb (Settings.header_table_size _ =? _) then _ else _).
  assert (Hq : wp q (λ _ c', ∃ cd, c' = set_remote_settings r (set_coder cd c) ∧ is_live (set_coder cd c)) (set_remote_settings r c)).
  { unfold q. destruct (negb _); wp_steps.
    - eexists. split; [reflexivity|]. destruct Hc as [[] Ht]. split; [|done]. split; cbn in *; try done.
      unfold queue_encoder_capacity. destruct (_ && _); [done|]. cbn. intros cap [= <-]. apply Hr.
    - exists (coder c). split; [by destruct c|]. eapply live_core; [|done]. core. }
  eapply wp_mono; [exact Hq|]. intros [] c1 (cd & -> & Hc1). wp_steps. clear q Hq.
  eapply wp_mono; [exact (shift_all_ok (set_coder cd c) r Hc1 Hr)|]. intros [] c2 [H2 _]. wp_steps.
  eapply wp_core; [apply write_frame_core|]. intros [] c3 H3. wp_steps.
  eapply wp_mono; [apply note_outbound_ack_ok; by eapply live_core|]. intros [] c4 H4; by wp_steps.
Qed.

(** *** PING, GOAWAY, WINDOW_UPDATE *)

Lemma handle_ping_ok hdr payload c :
  is_live c → (8 <= length payload)%nat → wp (handle_ping hdr payload) outcome c.
Proof.
  intros Hc Hl. unfold handle_ping. destruct (flags.has _ _); wp_steps; [done|].
  wp_checked. wp_steps.
  eapply wp_core; [apply write_frame_core|]. intros [] c1 H1. wp_steps.
  apply note_outbound_ack_ok. by eapply live_core.
Qed.

Lemma wp_u32_at payload i c (Q : Z → Connection → Prop) :
  (i + 4 <= length payload)%nat → (∀ z, Q z c) → wp (u32_at payload i) Q c.
Proof. intros Hl HQ. unfold u32_at. apply wp_bind. wp_checked. by wp_steps. Qed.

Lemma handle_go_away_ok payload c : is_live c → wp (handle_go_away payload) outcome c.
Proof.
  intros Hc. unfold handle_go_away. destruct (Nat.ltb_spec (length payload) 8); [by apply go_away_ok, Hc|].
  wp_steps. apply wp_u32_at; [lia|]. intros lst. wp_steps. apply wp_u32_at; [lia|]. intros code. wp_steps.
  destruct (_ && _); [by apply go_away_ok, Hc|]. wp_steps. wp_checked. wp_steps. eapply live_core; [|done]. core.
Qed.

Lemma entry_ok_increase i s inc w r :
  stream_ok i true s → 0 <= inc <= MAX_WINDOW_SIZE →
  SendWindow.increase (Stream.send_window s) inc = Some (w, r) → stream_ok i true (Stream.set_send_window w s).
Proof.
  intros (Hw & Hl & Hr) Hi He. rewrite increase_ok in He by (unfold MAX_WINDOW_SIZE in *; lia). unfold stream_ok. cbn.
  destruct (Z.ltb_spec MAX_WINDOW_SIZE (SendWindow.remaining (Stream.send_window s) + inc)); injection He as <- <-;
    cbn; naive_solver lia.
Qed.

Lemma live_send_window c w :
  is_live c → - 2 ^ 60 <= SendWindow.remaining w <= MAX_WINDOW_SIZE → is_live (set_send_window w c).
Proof. intros [[] Ht] Hw. split; [|done]. split; done. Qed.

Lemma land31_range z : 0 <= Z.land z 0x7fffffff <= MAX_WINDOW_SIZE.
Proof. rewrite land_31. pose proof (Z.mod_pos_bound z (2 ^ 31)). unfold MAX_WINDOW_SIZE. lia. Qed.

Lemma handle_window_update_ok hdr payload c :
  is_live c → (4 <= length payload)%nat → wp (handle_window_update E hdr payload) outcome c.
Proof.
  intros Hc Hl. unfold handle_window_update. wp_steps. apply wp_u32_at; [lia|]. intros raw.
  pose proof (land31_range raw) as Hr. set (inc := Z.land raw 0x7fffffff) in *.
  destruct (inc =? 0).
  { destruct (_ =? 0); [by apply go_away_ok, Hc|by apply reset_and_go_on]. }
  destruct (_ =? 0).
  - wp_steps. pose proof (ok_send _ (proj1 Hc)) as Hs. eapply wp_lift; [apply increase_ok; unfold MAX_WINDOW_SIZE in *; lia|].
    destruct (Z.ltb_spec MAX_WINDOW_SIZE (SendWindow.remaining (send_window c) + inc)); wp_steps.
    + apply go_away_ok. by apply live_send_window.
    + apply live_send_window; [done|]. cbn. lia.
  - wp_steps. destruct (streams c !! _) as [s|] eqn:Es; wp_steps; [|done].
    pose proof (live_entry c _ s Hc Es) as Hs. rewrite (proj2 Hc) in Hs.
    destruct (SendWindow.increase (Stream.send_window s) inc) as [[w r]|] eqn:Ei.
    2: { destruct Hs as (Hw & _). rewrite increase_ok in Ei by (unfold MAX_WINDOW_SIZE in *; lia). done. }
    eapply wp_lift; [done|]. wp_steps.
    assert (H : is_live (set_streams (<[FrameHeader.stream_id hdr := Stream.set_send_window w s]> (streams c)) c)).
    { apply live_put; [done|]. rewrite (proj2 Hc). by eapply entry_ok_increase. }
    destruct r; [by wp_steps|by apply reset_and_go_on].
Qed.

(** *** Header blocks *)

Lemma decode_loop_ok fuel cfg tgt block off b c :
  is_live c → (length block - off <= fuel)%nat →
  wp (decode_loop fuel cfg tgt block off b)
    (λ r c', match r with Some _ => same_core c c' | None => outcome true c' end) c.
Proof.
  revert off b c. induction fuel as [|fuel IH]; intros off b c Hc Hf; cbn [decode_loop];
    destruct (Nat.ltb_spec off (length block)); try (wp_steps; done); [lia|].
  wp_steps. wp_checked. destruct (Coder_decode (coder c) (drop off block)) as [cd r] eqn:Ed. wp_steps.
  assert (H1 : same_core c (set_coder cd c)).
  { unfold same_core. split_and!; try reflexivity. cbn. revert Ed. unfold Coder_decode.
    destruct (hpack_decode _ _). by intros [= <- _]. }
  destruct r as [h|].
  - destruct (field_step cfg b (name h) (value h)) as [b' surfaced] eqn:Ef. wp_steps.
    apply decode_progress in Ed.
    assert (Hrec : wp (decode_loop fuel cfg tgt block (off + next h) b')
      (λ r c', match r with Some _ => same_core c c' | None => outcome true c' end) (set_coder cd c)).
    { eapply wp_mono; [apply IH; [by eapply live_core|lia]|]. intros [] c' H'; [by etrans|done]. }
    destruct surfaced; [|by wp_steps]. apply wp_call; [by eapply field_step_ok|done].
  - apply wp_bind. apply kill_ok; [eapply conn_ok_core; [exact H1|apply Hc]|]. intros c' H'. by wp_steps.
Qed.

Lemma set_final_ok c id b :
  is_live c → is_live (set_streams (alter (Stream.set_recv_final_headers b) id (streams c)) c).
Proof. intros Hc. apply live_alter; [done|]. by intros s _ Hs. Qed.

Lemma deliver_block_ok m b c : is_live c → wp (deliver_block E m b) outcome c.
Proof.
  intros Hc. unfold deliver_block. wp_steps.
  set (bad := if is_request m && _ && _ then _ else _). set (q := if bool_decide _ && _ && _ && _ then _ else _).
  assert (Hq : wp q (λ _ c', is_live c') c).
  { unfold q. destruct (_ && _ && _ && _); [|by wp_steps]. wp_steps.
    destruct (streams c !! target m) as [s|] eqn:Es; wp_steps; [|done].
    apply live_put; [done|]. pose proof (live_entry c _ s Hc Es) as Hs. case_match; exact Hs. }
  eapply wp_mono; [exact Hq|]. clear q Hq. intros bad' c1 H1. clear bad.
  destruct (bad' && _).
  { wp_steps. eapply wp_mono; [by apply count_invalid_frame_ok|]. intros [] c2 [H2 H2']; [by wp_steps|].
    wp_steps. eapply wp_mono; [by apply reset_stream_ok|]. intros [] c3 H3. by wp_steps. }
  destruct (rejected b).
  { wp_steps. eapply wp_mono; [by apply reset_stream_ok|]. intros [] c2 H2. by wp_steps. }
  wp_steps. set (q := if bool_decide _ && _ then _ else _).
  assert (Hq : wp q (λ _ c', is_live c') c1).
  { unfold q. destruct (_ && _); wp_steps; [by apply set_final_ok|done]. }
  eapply wp_mono; [exact Hq|]. clear q Hq. intros [] c2 H2. wp_steps.
  destruct (meta_end_stream m); wp_steps; [|done]. destruct (streams c2 !! _); by wp_steps.
Qed.

(** The block is taken out of the state before it is decoded. *)
Lemma finish_header_block_ok m c : is_live (set_header_block [] c) → wp (finish_header_block E m) outcome c.
Proof.
  intros Hc. unfold finish_header_block. apply wp_bind.
  assert (Hcall : wp (match push_parent m with Some parent => call (OnPushPromise parent (target m)) | None => mret tt end)
    (λ _ c', c' = c) c) by (destruct (push_parent m); by wp_steps).
  eapply wp_mono; [exact Hcall|]. intros [] c' ->. wp_steps. eapply wp_mono; [apply decode_loop_ok; [done|lia]|].
  intros [b|] c1 H1; [|by wp_steps]. assert (H1' : is_live c1) by (by eapply live_core).
  destruct (disposition m); [by apply deliver_block_ok|by apply reset_and_go_on|].
  wp_steps. eapply wp_core; [apply send_rst_stream_core|]. intros [] c2 H2. wp_steps. by eapply live_core.
Qed.

Lemma finish_or_park_ok hdr m c :
  is_live (set_header_block [] c) → Z.of_nat (length (header_block c)) <= header_block_limit c →
  wp (finish_or_park_header_block E hdr m) outcome c.
Proof.
  intros Hc Hl. unfold finish_or_park_header_block. destruct (negb _); [|by apply finish_header_block_ok].
  wp_steps. destruct Hc as [[] Ht]. split; [|done]. split; cbn in *; done.
Qed.

Lemma handle_continuation_ok hdr payload c : is_live c → wp (handle_continuation E hdr payload) outcome c.
Proof.
  intros Hc. unfold handle_continuation. wp_steps. destruct (header_block_in_flight c) as [inf|] eqn:Ei; [|by apply go_away_ok, Hc].
  wp_steps. assert (Hd : conn_ok (set_terminated true (set_header_block_in_flight None c))).
  { destruct (conn_ok_kill c (proj1 Hc)). by split. }
  destruct (Z.ltb_spec (Z.max (enforced_max_header_list_size (set_header_block_in_flight None c)) 65536)
    (Z.of_nat (length (header_block (set_header_block_in_flight None c)) + length payload))) as [|Hle].
  { unfold go_away. wp_steps. eapply wp_mono; [by apply local_connection_error_ok|]. intros [] c' Ho. by wp_steps. }
  cbn in Hle. wp_steps. destruct (negb _); wp_steps.
  - destruct Hc as [[] Ht]. split; [|done]. split; cbn in *; try done. intros _. split; [done|].
    unfold header_block_limit. rewrite length_app. cbn. lia.
  - apply finish_header_block_ok. destruct Hc as [[] Ht]. split; [|done]. split; cbn in *; try done.
    intros _. split; [done|]. unfold header_block_limit. cbn. lia.
Qed.

(** The settings that bound a header block. *)
Definition header_limits (c : Connection) : Settings.t * Z := (local_settings c, enforced_max_header_list_size c).

(** What the handlers of HEADERS and PUSH_PROMISE keep until they store the block. *)
Definition open_ok (local : Settings.t * Z) (c : Connection) : Prop :=
  is_live c ∧ header_block_in_flight c = None ∧ header_limits c = local.

Lemma live_block_nil c : is_live c → header_block_in_flight c = None → is_live (set_header_block [] c).
Proof.
  intros Hc Hn. eapply live_core; [|exact Hc]. unfold same_core. split_and!; try done. cbn.
  destruct Hc as [[] Ht]. symmetry. by apply ok_header0.
Qed.

Lemma open_put local c id s :
  open_ok local c → entry_ok c s → open_ok local (set_streams (<[id := s]> (streams c)) c).
Proof. intros (Hc & Hn & Hl) Hs. split_and!; [by apply live_put|done..]. Qed.

Lemma open_alter local c id f :
  open_ok local c → (∀ s, streams c !! id = Some s → entry_ok c s → entry_ok c (f s)) →
  open_ok local (set_streams (alter f id (streams c)) c).
Proof. intros (Hc & Hn & Hl) Hs. split_and!; [by apply live_alter|done..]. Qed.

Lemma core_limits c c' :
  same_core c (set_streams (streams c) c') →
  header_block_in_flight c' = header_block_in_flight c ∧ header_limits c' = header_limits c.
Proof.
  intros (_ & E2 & _ & _ & _ & _ & _ & _ & _ & _ & E11 & _ & E13 & _). unfold header_limits. cbn in *. by rewrite E2, E11, E13.
Qed.

Lemma or_insert_open local id c (Q : Stream.t → Connection → Prop) :
  open_ok local c → (∀ s c', open_ok local c' → streams c' !! id = Some s → Q s c') → wp (or_insert_stream id) Q c.
Proof.
  intros (Hc & Hn & Hl) HQ. apply or_insert_ok; [done|]. intros s c' H' Hs Hid _. apply HQ; [|done].
  split; [done|]. by apply core_limits in Hs as [-> ->].
Qed.

Lemma headers_transition_ok local id is_new end_stream c :
  open_ok local c →
  wp (headers_transition E id is_new end_stream)
    (λ d c', match d with Some _ => open_ok local c' | None => outcome true c' end) c.
Proof.
  intros Hc. unfold headers_transition. wp_steps. eapply or_insert_open; [done|]. intros s c1 H1 Hid. wp_steps.
  set (s1 := if is_new then _ else _).
  assert (Hs1 : entry_ok c1 s1).
  { pose proof (live_entry c1 id s (proj1 H1) Hid) as Hs. unfold s1. by destruct is_new. }
  assert (H2 : open_ok local (set_streams (<[id := s1]> (streams c1)) c1)) by (by apply open_put).
  set (c2 := set_streams _ c1) in *.
  destruct (transition (Stream.state s1) _) as [next|err] eqn:Et; wp_steps.
  - apply open_alter; [done|]. intros s2 Hs2 Hok. apply entry_ok_state; [done|]. intros Hne.
    unfold c2 in Hs2. cbn in Hs2. rewrite lookup_insert_eq in Hs2. injection Hs2 as <-. by eapply not_closed_before.
  - destruct err; wp_steps.
    + apply kill_ok; [apply H2|]. intros. by wp_steps.
    + destruct (bool_decide _); wp_steps; [|done]. apply kill_ok; [apply H2|]. intros. by wp_steps.
Qed.

Lemma open_last local c id :
  open_ok local c → open_ok local (if last_stream_id c <? id then set_last_stream_id id c else c).
Proof.
  intros H. destruct (_ <? _); [|done]. destruct H as (Hc & Hn & Hl). split_and!; [|done..].
  eapply live_core; [|done]. core.
Qed.

(** The first fragment of a block is stored and decoded or held. *)
Lemma store_and_finish hdr m local block c :
  open_ok local c → Z.of_nat (length block) < 2 ^ 24 →
  wp (finish_or_park_header_block E hdr m) outcome (set_header_block block c).
Proof.
  intros (Hc & Hn & Hl) Hb. apply finish_or_park_ok; [exact (live_block_nil c Hc Hn)|].
  unfold header_block_limit. cbn. lia.
Qed.

Lemma length_slice_le (b : bytes) i j : (length (slice b i j) <= length b)%nat.
Proof. unfold slice. rewrite length_take, length_drop. lia. Qed.

(** What [strip_padding] returns: it never panics. *)
Definition padded_range (flags_ : Z) (payload empty large : bytes) : result (nat * nat) (ErrorCode * bytes) :=
  if flags.has flags_ flags.PADDED then
    match payload with
    | [] => Err (FrameSizeError, empty)
    | pad :: _ =>
        if (length payload <? 1 + Z.to_nat pad)%nat then Err (ProtocolError, large)
        else Ok (1%nat, (length payload - Z.to_nat pad)%nat)
    end
  else Ok (0%nat, length payload).

Lemma strip_padding_range f payload empty large :
  strip_padding f payload empty large = mret (padded_range f payload empty large).
Proof.
  unfold strip_padding, padded_range. destruct (flags.has _ _); [|done]. destruct payload as [|pad rest]; [done|].
  cbn [length Nat.eqb]. change ((pad :: rest) !! 0%nat) with (Some pad). cbn [lift].
  change (mret pad ≫= ?k) with (k pad). cbv beta zeta.
  destruct (Nat.ltb_spec (S (length rest)) (1 + Z.to_nat pad)); [done|]. by rewrite usize_sub_some by lia.
Qed.

Lemma padded_range_bounds f payload empty large off end_ :
  padded_range f payload empty large = Ok (off, end_) → (off <= end_ <= length payload)%nat.
Proof.
  unfold padded_range. destruct (flags.has _ _); [|intros [= <- <-]; lia].
  destruct payload as [|pad rest]; [done|]. generalize (Z.to_nat pad) as n. intros n.
  destruct (Nat.ltb_spec (length (pad :: rest)) (1 + n)); [done|]. injection 1 as <- <-. cbn [length] in *. lia.
Qed.

Lemma strip_priority_bounds f off end_ off' :
  strip_priority f off end_ = Some off' → (off <= end_)%nat → (off <= off' <= end_)%nat.
Proof.
  unfold strip_priority. destruct (flags.has _ _); [|intros [= <-]; lia].
  destruct (Nat.ltb_spec end_ (off + 5)); [done|]. intros [= <-]. lia.
Qed.

(** [handle_headers] either tears the connection down, or leaves to
    [finish_or_park_header_block] the payload less its padding and priority. *)
Lemma handle_headers_wp hdr payload c (Q : bool → Connection → Prop) :
  is_live c → header_block_in_flight c = None → (∀ c', outcome true c' → Q true c') →
  (∀ m off end_ off' empty large c',
     padded_range (FrameHeader.flags hdr) payload empty large = Ok (off, end_) →
     strip_priority (FrameHeader.flags hdr) off end_ = Some off' →
     open_ok (header_limits c) c' → target m = FrameHeader.stream_id hdr →
     wp (finish_or_park_header_block E hdr m) Q (set_header_block (slice payload off' end_) c')) →
  wp (handle_headers E hdr payload) Q c.
Proof.
  intros Hc Hn HT HF. unfold handle_headers. set (local := header_limits c) in *.
  assert (Hga : ∀ code msg, wp (go_away code msg) Q c).
  { intros code msg. unfold go_away. wp_steps. apply kill_ok; [apply Hc|]. intros c' H'. wp_steps. by apply HT. }
  assert (Ho : open_ok local c) by done.
  rewrite strip_padding_range. apply wp_bind, wp_ret.
  destruct (padded_range _ _ _ _) as [[off end_]|[code debug]] eqn:E1; [|done].
  destruct (strip_priority _ _ _) as [off'|] eqn:E2; [|done].
  pose proof (padded_range_bounds _ _ _ _ _ _ E1) as B1. pose proof (strip_priority_bounds _ _ _ _ E2) as B2.
  unfold contains_stream. wp_steps. set (is_new := negb _).
  destruct (is_new && _ && _); [done|]. wp_steps.
  set (refused := is_new && _ && _). set (q := if refused then _ else _).
  assert (Hq : wp q (λ d c', match d with Some _ => open_ok local c' | None => outcome true c' end) c).
  { unfold q. destruct refused; [by wp_steps|by apply headers_transition_ok]. }
  eapply wp_mono; [exact Hq|]. clear q Hq. intros [disp|] c1 H1; [|wp_steps; by apply HT].
  apply wp_bind. set (q := if is_new then _ else _).
  assert (Hq : wp q (λ _ c', open_ok local c') c1).
  { unfold q. destruct is_new; wp_steps; [|done]. destruct refused; wp_steps; by apply open_last. }
  eapply wp_mono; [exact Hq|]. intros [] c2 H2. wp_steps. wp_checked. wp_steps. by eapply HF.
Qed.

Lemma handle_headers_ok hdr payload c :
  is_live c → header_block_in_flight c = None →
  Z.of_nat (length payload) < 2 ^ 24 →
  wp (handle_headers E hdr payload) outcome c.
Proof.
  intros Hc Hn Hl. apply handle_headers_wp; [done..|]. intros m off end_ off' ? ? c' _ _ H' _.
  apply (store_and_finish _ _ (header_limits c)); [done|]. pose proof (length_slice_le payload off' end_). cbn. lia.
Qed.

(** *** DATA *)

Lemma open_local_stream_ok id c : is_live c → wp (open_local_stream E id) (λ _ c', is_live c') c.
Proof.
  intros Hc. unfold open_local_stream, contains_stream. wp_steps. destruct (_ && _); wp_steps; [|done].
  apply live_put; [done|]. apply entry_ok_state; [by apply fresh_ok|done].
Qed.

Lemma is_closed_stream_ok id c (Q : bool → Connection → Prop) : (∀ b, Q b c) → wp (is_closed_stream E id) Q c.
Proof.
  intros HQ. unfold is_closed_stream, has_existed. wp_steps. destruct (streams c !! id); wp_steps; auto.
Qed.

Lemma enforce_content_length_ok id c : is_live c → wp (enforce_content_length E id) (λ _ c', is_live c') c.
Proof.
  intros Hc. unfold enforce_content_length. wp_steps. destruct (negb _); wp_steps; [done|].
  destruct (match streams c !! id with Some _ => _ | None => _ end); wp_steps; [|done].
  eapply wp_mono; [by apply reset_stream_ok|]. intros [] c' H. by wp_steps.
Qed.

Lemma end_of_data_ok id c : is_live c → wp (end_of_data id) (λ _ c', is_live c') c.
Proof.
  intros Hc. unfold end_of_data. wp_steps. set (c1 := set_streams _ c). assert (is_live c1).
  { apply live_alter; [done|]. intros s _ Hs. apply entry_ok_state; [done|apply advance_closed]. }
  destruct (streams c1 !! id); by wp_steps.
Qed.

Lemma finish_streamed_data_ok d c : is_live c → wp (finish_streamed_data E d) (λ _ c', is_live c') c.
Proof.
  intros Hc. unfold finish_streamed_data. destruct (_ && _); wp_steps; [|done].
  eapply wp_mono; [by apply enforce_content_length_ok|]. intros [] c1 H1; [by wp_steps|by apply end_of_data_ok].
Qed.

(** The window of the connection is charged with at most one frame. *)
Lemma charge_ok n c : is_live c → 0 <= n < 2 ^ 24 → wp (charge_connection_window n) outcome c.
Proof.
  intros Hc Hn. pose proof (ok_recv _ (proj1 Hc)) as (Hs & Hco & Hle). specialize (Hle (proj2 Hc)).
  unfold charge_connection_window. wp_steps. eapply wp_lift.
  { unfold RecvWindow.on_data. by rewrite bind_i64 by lia. }
  wp_steps. set (w := RecvWindow.mk _ _). unfold RecvWindow.is_overflowed. cbn.
  destruct (Z.ltb_spec (RecvWindow.size (recv_window c)) (RecvWindow.consumed (recv_window c) + n)) as [Ho|Ho].
  - unfold go_away. wp_steps. eapply wp_mono.
    + apply local_connection_error_ok. destruct (conn_ok_kill c (proj1 Hc)). split; cbn in *; try done. split_and!; try lia; done.
    + intros [] c' H. by wp_steps.
  - wp_steps. destruct Hc as [[] Ht]. split; [|done]. split; cbn in *; try done. split_and!; lia.
Qed.

Definition decision_ok (initial : Z) (r : DataDecision * Stream.t) : Prop :=
  stream_ok initial (match r.1 with FlowControlViolation => false | _ => true end) r.2.

Lemma data_decision_ok limit s wire body initial c :
  stream_ok initial true s → 0 <= wire < 2 ^ 24 → limit < 2 ^ 32 →
  wp (data_decision limit s wire body) (λ r c', c' = c ∧ decision_ok initial r) c.
Proof.
  intros Hs Hw Hl. unfold data_decision. destruct (negb _); [by wp_steps|]. wp_steps.
  destruct Hs as (H1 & H2 & H3 & H4 & H5). specialize (H5 eq_refl). eapply wp_lift.
  { unfold RecvWindow.on_data. by rewrite bind_i64 by lia. }
  unfold RecvWindow.is_overflowed_with. cbn. case_match; wp_steps; (split; [done|]).
  - unfold decision_ok, stream_ok. cbn. split_and!; lia.
  - unfold decision_ok. case_match; unfold stream_ok; cbn; split_and!; try lia; naive_solver lia.
Qed.

Lemma recv_limit_u32 c : conn_ok c → recv_limit c < 2 ^ 32.
Proof. intros []. unfold recv_limit, is_u32 in *. lia. Qed.

Lemma put_violation c id s :
  conn_ok c → stream_ok (Settings.initial_window_size (remote_settings c)) false s →
  conn_ok (set_terminated true (set_streams (<[id := s]> (streams c)) c)).
Proof.
  intros Hc Hs. destruct (conn_ok_kill c Hc). split; cbn in *; try done. by apply map_Forall_insert_2.
Qed.

(** The decision on the stream of a DATA frame, stored with its windows. *)
Lemma decide_and_put id s wire body c (Q : DataDecision * Stream.t → Connection → Prop) :
  is_live c → streams c !! id = Some s → 0 <= wire < 2 ^ 24 →
  (∀ r, decision_ok (Settings.initial_window_size (remote_settings c)) r →
     Q r c) →
  wp (data_decision (recv_limit c) s wire body) Q c.
Proof.
  intros Hc Hs Hw HQ. eapply wp_mono.
  - apply data_decision_ok; [|done|apply recv_limit_u32, Hc]. pose proof (live_entry c id s Hc Hs) as H.
    rewrite (proj2 Hc) in H. exact H.
  - intros r c' [-> Hr]. by apply HQ.
Qed.

Lemma live_put_decision id r c :
  is_live c → decision_ok (Settings.initial_window_size (remote_settings c)) r → r.1 ≠ FlowControlViolation →
  is_live (set_streams (<[id := r.2]> (streams c)) c).
Proof. intros Hc Hr Hne. apply live_put; [done|]. rewrite (proj2 Hc). unfold decision_ok in Hr. by destruct r.1. Qed.

Lemma handle_data_ok hdr payload c :
  is_live c → Z.of_nat (length payload) < 2 ^ 24 → Forall is_u8 payload → wp (handle_data E hdr payload) outcome c.
Proof.
  intros Hc Hl Hp. unfold handle_data.
  rewrite strip_padding_range. apply wp_bind, wp_ret.
  destruct (padded_range _ _ _ _) as [[off end_]|[code debug]] eqn:Epad; [|by apply go_away_ok, Hc].
  pose proof (padded_range_bounds _ _ _ _ _ _ Epad) as Hoe.
  wp_steps. eapply wp_mono; [apply charge_ok; [done|lia]|]. intros [] c1 H1; [by wp_steps|].
  apply wp_bind. set (q := if _ && _ then _ else _).
  assert (Hq : wp q outcome c1).
  { unfold q. destruct (_ && _); [|by wp_steps]. eapply wp_mono; [by apply count_invalid_frame_ok|]. by intros b c' [? _]. }
  eapply wp_mono; [exact Hq|]. clear q Hq. intros [] c2 H2; [by wp_steps|].
  wp_steps. eapply wp_mono; [by apply open_local_stream_ok|]. intros [] c3 H3. wp_steps.
  apply is_closed_stream_ok. intros []; wp_steps; [done|].
  destruct (streams c3 !! FrameHeader.stream_id hdr) as [s|] eqn:Es.
  2: { apply wp_ret. by apply reset_and_go_on. }
  wp_steps. wp_checked. wp_steps. eapply decide_and_put; [done|done|lia|]. intros [d s'] Hr. wp_steps. cbn [fst snd].
  destruct d.
  - apply reset_and_go_on. by apply (live_put_decision _ _ _ H3 Hr).
  - unfold go_away. wp_steps. eapply wp_mono.
    + apply local_connection_error_ok, put_violation; [apply H3|exact Hr].
    + intros [] c' H. by wp_steps.
  - assert (H4 : is_live (set_streams (<[FrameHeader.stream_id hdr := s']> (streams c3)) c3))
      by (by apply (live_put_decision _ _ _ H3 Hr)). set (c4 := set_streams _ c3) in *.
    apply wp_bind. set (q := if (end_ =? off)%nat then _ else _). assert (Hq : wp q (λ _ c', c' = c4) c4).
    { unfold q. destruct (Nat.eqb_spec end_ off); wp_steps; [done|]. wp_checked. apply wp_call; [|done].
      cbn. intros Hnil. apply (f_equal length) in Hnil. rewrite length_slice in Hnil by lia. cbn in Hnil. lia. }
    eapply wp_mono; [exact Hq|]. intros [] c' ->. destruct (flags.has _ _); wp_steps; [|done].
    eapply wp_mono; [by apply enforce_content_length_ok|]. intros [] c5 H5; wp_steps; [done|].
    eapply wp_mono; [by apply end_of_data_ok|]. intros [] c6 H6. by wp_steps.
Qed.

(** A DATA frame that is not complete: [remaining] starts with its header and
    ends before its payload does. *)
Lemma begin_streamed_data_ok hdr remaining padded c :
  is_live c → Forall is_u8 remaining → 0 < FrameHeader.length hdr < 2 ^ 24 →
  (FRAME_HEADER_SIZE <= length remaining)%nat →
  Z.of_nat (length remaining) < 9 + FrameHeader.length hdr →
  (padded = true → (1 <= length remaining - FRAME_HEADER_SIZE)%nat) →
  wp (begin_streamed_data E hdr remaining padded)
    (λ r c', match r with
             | Fatal => outcome true c'
             | Consumed n => is_live c' ∧ n = length remaining
             end) c.
Proof.
  intros Hc Hu Hlen H9 Hlt Hpad. unfold begin_streamed_data. apply wp_bind. wp_checked.
  set (avail := drop FRAME_HEADER_SIZE remaining).
  assert (Hav : length avail = (length remaining - 9)%nat) by apply length_drop.
  assert (Hua : Forall is_u8 avail) by (by apply Forall_drop).
  apply wp_bind.
  assert (Hpd : wp (if padded then lift (avail !! 0%nat) else mret 0)
    (λ pad c', c' = c ∧ 0 <= pad < 256 ∧ (padded = false → pad = 0)) c).
  { destruct padded; [|wp_steps; done]. destruct avail as [|b rest]; [specialize (Hpad eq_refl); unfold FRAME_HEADER_SIZE in *; cbn in Hav; lia|].
    apply wp_ret. inversion_clear Hua. done. }
  eapply wp_mono; [exact Hpd|]. intros pad c' (-> & Hp & Hp0). clear Hpd.
  set (off := if padded then 1%nat else 0%nat).
  destruct (padded && (FrameHeader.length hdr <? 1 + pad)) eqn:Epad.
  { apply wp_bind, kill_ok; [apply Hc|]. intros. by wp_steps. }
  assert (Htot : Z.of_nat off <= FrameHeader.length hdr ∧
    0 <= FrameHeader.length hdr - Z.of_nat off - pad <= FrameHeader.length hdr - Z.of_nat off).
  { unfold off. destruct padded; cbn in Epad; [lia|]. rewrite Hp0 by done. lia. }
  apply wp_bind. wp_checked. apply wp_bind. wp_checked.
  set (data_total := FrameHeader.length hdr - Z.of_nat off - pad) in *.
  apply wp_bind. eapply wp_mono; [apply charge_ok; [done|lia]|]. intros [] c1 H1; [by wp_steps|].
  wp_steps. eapply wp_mono; [by apply open_local_stream_ok|]. intros [] c2 H2. wp_steps.
  apply is_closed_stream_ok. intros closed. wp_steps.
  set (q := if closed then _ else _).
  assert (Hq : wp q (λ d c', match d with Some _ => is_live c' | None => outcome true c' end) c2).
  { unfold q. destruct closed; [by wp_steps|]. destruct (streams c2 !! FrameHeader.stream_id hdr) as [s|] eqn:Es.
    - wp_steps. eapply decide_and_put; [done|done|lia|]. intros [d s'] Hr. wp_steps. cbn [fst snd]. destruct d.
      + wp_steps. eapply wp_mono; [apply reset_stream_ok; by apply (live_put_decision _ _ _ H2 Hr)|]. intros [] c' H. by wp_steps.
      + wp_steps. eapply wp_mono; [apply local_connection_error_ok, put_violation; [apply H2|exact Hr]|].
        intros [] c' H. by wp_steps.
      + wp_steps. by apply (live_put_decision _ _ _ H2 Hr).
    - wp_steps. eapply wp_core; [apply send_rst_stream_core|]. intros [] c3 H3. wp_steps. by eapply live_core. }
  eapply wp_mono; [exact Hq|]. clear q Hq. intros [discard|] c3 H3; [|by wp_steps].
  assert (Hbl : length (drop off avail) = (length remaining - 9 - off)%nat) by (rewrite length_drop; lia).
  assert (Hoff : (off <= length remaining - 9)%nat).
  { unfold off. destruct padded; [|lia]. specialize (Hpad eq_refl). unfold FRAME_HEADER_SIZE in *. lia. }
  apply wp_bind. wp_checked.
  set (data_now := Nat.min _ _). apply wp_bind. set (q := if (0 <? data_now)%nat && _ then _ else _).
  assert (Hq : wp q (λ _ c', c' = c3) c3).
  { unfold q. destruct (Nat.ltb_spec 0 data_now); cbn [andb]; [|by wp_steps]. destruct (negb discard); [|by wp_steps].
    apply wp_bind. wp_checked.
    apply wp_call; [|done]. intros Hnil. apply (f_equal length) in Hnil. rewrite length_take in Hnil.
    change (length []) with 0%nat in Hnil. unfold data_now in *. lia. }
  eapply wp_mono; [exact Hq|]. clear q Hq. intros [] c' ->.
  unfold FRAME_HEADER_SIZE in *. rewrite Hbl.
  assert (Hrem : 0 < FrameHeader.length hdr - Z.of_nat (off + (length remaining - 9 - off))) by lia.
  assert (Hnow : Z.of_nat data_now <= data_total) by (unfold data_now; lia).
  apply wp_bind. wp_checked. apply wp_bind. wp_checked. cbn [DataInFlight.payload_remaining].
  unfold wrap32. rewrite !Z.mod_small by lia.
  rewrite (proj2 (Z.ltb_lt _ _) Hrem). wp_steps. split; [|lia].
  destruct H3 as [[] Ht]. split; [|done]. split; cbn in *; try done. intros d [= <-].
  unfold inflight_ok. cbn. unfold data_now. rewrite Hbl. lia.
Qed.
End engine_facts.
