(* ===== verification/H2ConnSafe.v ===== *)
(** * Safety of the HTTP/2 engine

    The remaining handlers, [dispatch], [receive] and the outbound operations
    keep the invariant of [H2ConnFacts]; the theorems state it for [receive]
    and for every sequence of operations on a new connection. *)

From S2P Require Import Prelude H2Wire H2Stream H2Flow H2Hpack H2Fields H2Conn H2Embedder H2ConnFacts.

#[local] Open Scope Z_scope.

Ltac core := unfold same_core; split_and!; reflexivity.

Section safety.
Context {L : Lshpack} (E : Env) `{!EnvLaws E}.

(** ** RST_STREAM, PUSH_PROMISE, ALTSVC, ORIGIN *)

Lemma handle_rst_stream_ok hdr payload c :
  is_live c → (4 <= length payload)%nat → wp (handle_rst_stream E hdr payload) outcome c.
Proof.
  intros Hc Hl. unfold handle_rst_stream. wp_steps. apply wp_u32_at; [lia|]. intros code. wp_steps.
  set (live := match streams c !! _ with Some _ => _ | None => _ end).
  set (charged := match streams c !! _ with Some _ => _ | None => _ end).
  set (q := if live then _ else _). assert (Hq : wp q (λ _ c', is_live c') c).
  { unfold q. destruct live; wp_steps; [by apply live_close|done]. }
  eapply wp_mono; [exact Hq|]. clear q Hq. intros [] c1 H1. wp_steps. set (shim := negb live && _).
  set (q := if shim then _ else _). assert (Hq : wp q (λ _ c', is_live c') c1).
  { unfold q. destruct shim; wp_steps; [|done]. apply or_insert_ok; [done|]. intros s c2 H2 _ _ _. wp_steps. by apply live_close. }
  eapply wp_mono; [exact Hq|]. clear q Hq. intros [] c2 H2. unfold has_existed. wp_steps.
  destruct (negb live && negb shim); cbn [andb].
  { destruct (_ || _); [by wp_steps|by apply go_away_ok, H2]. }
  wp_steps. destruct (live && charged); wp_steps; [|done].
  eapply wp_core; [apply note_reset_core|]. intros [] c3 H3. wp_steps. by eapply live_core.
Qed.

Lemma handle_push_promise_ok hdr payload c :
  is_live c → header_block_in_flight c = None →
  Z.of_nat (length payload) < 2 ^ 24 →
  wp (handle_push_promise E hdr payload) outcome c.
Proof.
  intros Hc Hn Hl. unfold handle_push_promise. wp_steps. destruct (is_server c); [by apply go_away_ok, Hc|].
  wp_steps. destruct (_ =? 0); [by apply go_away_ok, Hc|].
  rewrite strip_padding_range. apply wp_bind, wp_ret.
  destruct (padded_range _ _ _ _) as [[off end_]|[code debug]] eqn:Epad; [|by apply go_away_ok, Hc].
  pose proof (padded_range_bounds _ _ _ _ _ _ Epad) as Hoe.
  destruct (Nat.ltb_spec end_ (off + 4)); [by apply go_away_ok, Hc|].
  wp_steps. apply wp_u32_at; [lia|]. intros raw. unfold contains_stream. wp_steps.
  destruct (_ || bool_decide _) eqn:Ek; [by apply go_away_ok, Hc|].
  apply orb_false_iff in Ek as [_ Ek]. apply bool_decide_eq_false in Ek. apply eq_None_not_Some in Ek. wp_steps.
  apply or_insert_ok; [done|]. intros s c1 H1 Hs1 Hid [[Hx _]|[_ Hidle]]; [congruence|].
  assert (Ho : open_ok (header_limits c) c1).
  { split; [done|]. by apply core_limits in Hs1 as [-> ->]. }
  wp_steps. wp_checked. wp_steps. eapply store_and_finish.
  - apply open_last. apply open_alter; [exact Ho|]. intros s' Hs' Hok. apply entry_ok_state; [done|].
    rewrite Hid in Hs'. injection Hs' as <-. by rewrite Hidle.
  - pose proof (length_slice_le payload (off + 4) end_). cbn. lia.
Qed.

Lemma handle_altsvc_ok hdr payload c : is_live c → wp (handle_altsvc hdr payload) outcome c.
Proof.
  intros Hc. unfold handle_altsvc. destruct (Nat.ltb_spec (length payload) 2); [by wp_steps|].
  apply wp_bind. wp_checked. destruct (Nat.ltb_spec (length payload) (2 + Z.to_nat (be_bytes (slice payload 0 2)))); [by wp_steps|].
  apply wp_bind. wp_checked. apply wp_bind. wp_checked. wp_steps. destruct (_ || _ || _); by wp_steps.
Qed.

Lemma handle_origin_ok hdr payload c : is_live c → wp (handle_origin hdr payload) outcome c.
Proof. intros Hc. unfold handle_origin. wp_steps. destruct (_ || _); by wp_steps. Qed.

(** ** [dispatch] *)

(** The payload that [receive] hands to [dispatch] has the length of the header. *)
Lemma dispatch_ok hdr payload c :
  is_live c → FrameHeader.ok hdr → Forall is_u8 payload →
  Z.of_nat (length payload) = FrameHeader.length hdr → wp (dispatch E hdr payload) outcome c.
Proof.
  intros Hc0 (Hlen & _) Hu Hl. unfold dispatch. apply wp_bind. set (q := if bool_decide _ then _ else _).
  assert (Hq : wp q (λ _ c', same_core c c') c).
  { unfold q. destruct (bool_decide _); wp_steps; core. }
  eapply wp_mono; [exact Hq|]. clear q Hq. intros [] c1 H1.
  assert (Hc : is_live c1) by (by eapply live_core). clear c Hc0 H1. wp_steps.
  set (expected := match header_block_in_flight c1 with Some _ => _ | None => _ end).
  destruct expected eqn:Eexp; cbn [negb]; [|by apply go_away_ok, Hc]. wp_steps.
  destruct (validate_header _ _) as [|code|id code] eqn:Ev; [|by apply go_away_ok, Hc|].
  2: { wp_steps. eapply wp_core; [apply send_rst_stream_core|]. intros [] c2 H2. wp_steps. by eapply live_core. }
  destruct (FrameHeader.typ hdr) as [t|] eqn:Et; [|by wp_steps].
  destruct (validate_header_ok _ _ _ Ev Et) as (Hmax & Hfix & _).
  assert (Hn : t ≠ Continuation → header_block_in_flight c1 = None).
  { intros Hne. unfold expected in Eexp. destruct (header_block_in_flight c1); [|done].
    rewrite bool_decide_false in Eexp by congruence. done. }
  destruct t; try specialize (Hn ltac:(done)); try specialize (Hfix _ eq_refl).
  - apply handle_data_ok; [done|lia|done].
  - apply handle_headers_ok; [done..|lia].
  - by wp_steps.
  - apply handle_rst_stream_ok; [done|lia].
  - by apply handle_settings_ok.
  - apply handle_push_promise_ok; [done..|lia].
  - apply handle_ping_ok; [done|lia].
  - by apply handle_go_away_ok.
  - apply handle_window_update_ok; [done..|lia].
  - by apply handle_continuation_ok.
  - by apply handle_altsvc_ok.
  - by apply handle_origin_ok.
Qed.

(** ** Replenishing *)

Lemma take_update_some w hi :
  0 <= RecvWindow.consumed w <= hi → hi <= 2 ^ 61 →
  ∃ inc c', RecvWindow.take_update w = Some (inc, RecvWindow.mk (RecvWindow.size w) c') ∧
    0 <= c' <= RecvWindow.consumed w.
Proof.
  intros Hc Hh. destruct w as [s n]. unfold RecvWindow.take_update. cbn in *.
  destruct (Z.leb_spec n 0); [exists 0, n; split; [done|lia]|].
  rewrite bind_i64 by (unfold MAX_WINDOW_SIZE; lia). eexists _, _. split; [done|]. unfold MAX_WINDOW_SIZE. lia.
Qed.

Lemma entry_ok_recv i live s w :
  stream_ok i live s → RecvWindow.size w = RecvWindow.size (Stream.recv_window s) →
  0 <= RecvWindow.consumed w <= RecvWindow.consumed (Stream.recv_window s) →
  stream_ok i live (Stream.set_recv_window w s).
Proof. intros (H1 & H2 & H3 & H4 & H5) Hs Hc. unfold stream_ok. cbn. rewrite Hs. naive_solver lia. Qed.

(** Update one receive window and store it. *)
Lemma take_and_put id s c (Q : Z * RecvWindow.t → Connection → Prop) :
  is_live c → streams c !! id = Some s →
  (∀ r, is_live (set_streams (<[id := Stream.set_recv_window r.2 s]> (streams c)) c) → Q r c) →
  wp (lift (RecvWindow.take_update (Stream.recv_window s))) Q c.
Proof.
  intros Hc Hs HQ. pose proof (live_entry c id s Hc Hs) as Hok.
  destruct (take_update_some (Stream.recv_window s) (2 ^ 33)) as (inc & c' & Ht & Hc'); [apply Hok|lia|].
  eapply wp_lift; [exact Ht|]. apply HQ. apply live_put; [done|]. by apply entry_ok_recv.
Qed.

Lemma take_updates_ok ids c : is_live c → wp (take_updates E ids) (λ _ c', is_live c') c.
Proof.
  revert c. induction ids as [|id ids IH]; intros c Hc; cbn [take_updates]; [by wp_steps|]. wp_steps.
  set (q := match streams c !! id with Some _ => _ | None => _ end). assert (Hq : wp q (λ _ c', is_live c') c).
  { unfold q. destruct (streams c !! id) as [s|] eqn:Es; [|by wp_steps]. destruct (_ && _ && _); [|by wp_steps].
    wp_steps. eapply take_and_put; [done..|]. intros r Hr. by wp_steps. }
  eapply wp_mono; [exact Hq|]. intros here c1 H1. wp_steps.
  eapply wp_mono; [by apply IH|]. intros rest c2 H2. by wp_steps.
Qed.

Lemma send_updates_ok buf c : wp (send_updates buf) (λ _ c', same_core c c') c.
Proof.
  revert c. induction buf as [|[id inc] buf IH]; intros c; cbn [send_updates]; [wp_steps; core|]. wp_steps.
  eapply wp_core; [apply write_frame_core|]. intros [] c1 H1.
  eapply wp_mono; [apply IH|]. intros [] c2 H2. unfold same_core in *. naive_solver congruence.
Qed.

Lemma replenish_windows_ok c : is_live c → wp (replenish_windows E) (λ _ c', is_live c') c.
Proof.
  intros Hc. unfold replenish_windows. wp_steps. set (q := if RecvWindow.needs_update _ then _ else _).
  assert (Hq : wp q (λ _ c', is_live c') c).
  { unfold q. destruct (RecvWindow.needs_update _); wp_steps; [|done].
    pose proof (ok_recv _ (proj1 Hc)) as (Hs & Hco & Hle). specialize (Hle (proj2 Hc)).
    destruct (take_update_some (recv_window c) (2 ^ 61)) as (inc & c' & Ht & Hc'); [lia..|].
    eapply wp_lift; [exact Ht|]. wp_steps. cbn [fst snd].
    assert (H1 : is_live (set_recv_window (RecvWindow.mk (RecvWindow.size (recv_window c)) c') c)).
    { destruct Hc as [[] Htm]. split; [|done]. split; cbn in *; try done. split_and!; lia. }
    destruct (0 <? inc); wp_steps; [|done]. eapply wp_core; [apply write_frame_core|]. intros [] c2 H2. by eapply live_core. }
  eapply wp_mono; [exact Hq|]. clear q Hq. intros [] c1 H1. wp_steps.
  eapply wp_mono; [by apply take_updates_ok|]. intros buf c2 H2. wp_steps.
  eapply wp_mono; [apply send_updates_ok|]. intros [] c3 H3. wp_steps.
  assert (H3' : is_live c3) by (by eapply live_core). split; [|apply H3'].
  apply conn_ok_streams; [apply H3'|]. intros id s [Hs _]%map_lookup_filter_Some.
  by apply (ok_streams _ (proj1 H3') id).
Qed.

(** ** [receive] *)

Lemma parse_lift bytes_ c (Q : FrameHeader.t → Connection → Prop) :
  (FRAME_HEADER_SIZE <= length bytes_)%nat → Forall is_u8 bytes_ →
  (∀ h, FrameHeader.ok h → Q h c) → wp (lift (FrameHeader.parse bytes_)) Q c.
Proof.
  intros Hl Hu HQ. destruct (parse_total bytes_ Hl) as [h Hh]. eapply wp_lift; [exact Hh|]. apply HQ. by eapply parse_ok.
Qed.

Lemma receive_loop_ok fuel bytes_ offset c :
  is_live c → Forall is_u8 bytes_ → (offset <= length bytes_)%nat → (length bytes_ - offset < fuel)%nat →
  wp (receive_loop E fuel bytes_ offset) (λ r c', outcome r.2 c' ∧ (r.1 <= length bytes_)%nat) c.
Proof.
  intros Hc Hu. revert offset c Hc. induction fuel as [|fuel IH]; intros offset c Hc Ho Hf; [lia|].
  cbn [receive_loop]. apply wp_bind. wp_checked. wp_steps. set (remaining := drop offset bytes_).
  assert (Hr : length remaining = (length bytes_ - offset)%nat) by apply length_drop.
  assert (Hur : Forall is_u8 remaining) by (by apply Forall_drop).
  destruct (Nat.ltb_spec (length remaining) FRAME_HEADER_SIZE) as [|H9]; cbn [orb]; [by wp_steps|].
  destruct a; [by wp_steps|]. wp_steps. apply parse_lift; [done..|]. intros hdr Hok. wp_steps.
  destruct (Z.ltb_spec (Settings.max_frame_size (local_settings c)) (FrameHeader.length hdr)) as [|Hmax].
  { wp_steps. apply kill_ok; [apply Hc|]. intros. by wp_steps. }
  set (total := (FRAME_HEADER_SIZE + Z.to_nat (FrameHeader.length hdr))%nat).
  pose proof (proj1 Hok) as Hlen.
  destruct (Nat.ltb_spec (length remaining) total) as [Hshort|Hfull].
  - wp_steps. destruct (bool_decide _ && _ && _ && (0 <? FrameHeader.length hdr)) eqn:Econd; [|by wp_steps].
    apply wp_bind. wp_checked. destruct (negb _ || _) eqn:Epad; [|by wp_steps]. wp_steps.
    eapply wp_mono.
    + apply begin_streamed_data_ok; [done..| | | |].
      * apply andb_prop in Econd as [_ Econd]. lia.
      * done.
      * unfold total, FRAME_HEADER_SIZE in Hshort. lia.
      * intros Hp. rewrite Hp in Epad. cbn in Epad. by apply Nat.leb_le.
    + intros [|n] c' H; wp_steps; [done|]. destruct H as [H ->]. split; [done|]. cbn. lia.
  - apply wp_bind. wp_checked. wp_steps. eapply wp_mono.
    + apply dispatch_ok; [done..| |].
      * unfold slice. by apply Forall_take, Forall_drop.
      * rewrite length_slice; unfold total, FRAME_HEADER_SIZE in *; lia.
    + intros [] c1 H1; wp_steps; [split; [done|cbn [fst snd]; lia]|].
      eapply wp_mono; [by apply check_reset_flood_ok|]. intros [] c2 H2; [wp_steps; split; [done|cbn [fst snd]; lia]|].
      apply IH; [done|lia|]. unfold total, FRAME_HEADER_SIZE in *. lia.
Qed.

(** The outcome of a stage of [receive]. *)
Definition stage_ok (bytes_ : bytes) (r : result nat Feed) (c : Connection) : Prop :=
  match r with
  | Ok offset => is_live c ∧ (offset <= length bytes_)%nat
  | Err feed => outcome (fatal feed) c ∧ (consumed feed <= length bytes_)%nat
  end.

Lemma live_preface c n : is_live c → (n <= length CONNECTION_PREFACE)%nat → is_live (set_preface_received n c).
Proof. intros [[] Ht] Hn. split; [|done]. split; done. Qed.

Lemma receive_preface_ok bytes_ c : is_live c → wp (receive_preface bytes_) (stage_ok bytes_) c.
Proof.
  intros Hc. unfold receive_preface. wp_steps.
  destruct (is_server c && _) eqn:Es; [|wp_steps; split; [done|lia]].
  apply andb_prop in Es as [_ Es]. apply Nat.ltb_lt in Es.
  apply wp_bind. wp_checked. set (avail := Nat.min _ _). assert (Ha : (avail <= length bytes_)%nat) by (unfold avail; lia).
  assert (Hn : (preface_received c + avail <= length CONNECTION_PREFACE)%nat) by (unfold avail; lia).
  apply wp_bind. wp_checked. apply wp_bind. wp_checked. destruct (negb _); wp_steps.
  - apply kill_ok; [apply Hc|]. intros c' H'. wp_steps. split; done.
  - destruct (_ <? _)%nat; wp_steps; (split; [by apply live_preface|done]).
Qed.

Lemma live_in_flight c d :
  is_live c → (∀ x, d = Some x → inflight_ok x) → is_live (set_data_in_flight d c).
Proof. intros [[] Ht] Hd. split; [|done]. split; done. Qed.

Lemma receive_inflight_ok bytes_ offset c :
  is_live c → (offset <= length bytes_)%nat → wp (receive_inflight E bytes_ offset) (stage_ok bytes_) c.
Proof.
  intros Hc Ho. unfold receive_inflight. wp_steps. destruct (data_in_flight c) as [d|] eqn:Ed; [|by wp_steps].
  pose proof (ok_data _ (proj1 Hc) d Ed) as [Hp Hd]. wp_steps.
  assert (H1 : is_live (set_data_in_flight None c)) by (by apply live_in_flight).
  set (c1 := set_data_in_flight None c) in *.
  wp_checked. set (avail := Nat.min (length bytes_ - offset) _). set (data_now := Nat.min avail _).
  assert (Ha : (avail <= length bytes_ - offset)%nat ∧ Z.of_nat avail <= DataInFlight.payload_remaining d) by (unfold avail; lia).
  apply wp_bind. set (q := if (0 <? data_now)%nat && _ then _ else _). assert (Hq : wp q (λ _ c', c' = c1) c1).
  { unfold q. destruct (Nat.ltb_spec 0 data_now); cbn [andb]; [|by wp_steps]. destruct (negb _); [|by wp_steps].
    apply wp_bind. wp_checked. apply wp_call; [|done]. intros Hnil. apply (f_equal length) in Hnil.
    rewrite length_slice in Hnil by (unfold data_now; lia). change (length []) with 0%nat in Hnil. lia. }
  eapply wp_mono; [exact Hq|]. clear q Hq. intros [] c' ->.
  apply wp_bind. wp_checked. apply wp_bind. wp_checked. cbn [DataInFlight.payload_remaining].
  destruct (Z.eqb_spec (DataInFlight.payload_remaining d - Z.of_nat avail) 0) as [Hz|Hz]; wp_steps.
  - eapply wp_mono; [by apply finish_streamed_data_ok|]. intros [] c2 H2. wp_steps. split; [done|lia].
  - eapply wp_mono; [apply replenish_windows_ok|].
    + apply live_in_flight; [done|]. intros x [= <-]. unfold inflight_ok. cbn. unfold data_now. lia.
    + intros [] c2 H2. wp_steps. split; [done|]. cbn. lia.
Qed.

Lemma receive_ok bytes_ c :
  is_live c → Forall is_u8 bytes_ →
  wp (receive E bytes_) (λ feed c', outcome (fatal feed) c' ∧ (consumed feed <= length bytes_)%nat) c.
Proof.
  intros Hc Hu. unfold receive. wp_steps. rewrite (proj2 Hc). wp_steps.
  eapply wp_mono; [by apply receive_preface_ok|]. intros [offset|feed] c1 H1; [|by wp_steps].
  destruct H1 as [H1 Ho1]. wp_steps. eapply wp_mono; [by apply receive_inflight_ok|].
  intros [offset'|feed] c2 H2; [|by wp_steps]. destruct H2 as [H2 Ho2]. wp_steps.
  eapply wp_mono; [apply receive_loop_ok; [done..|lia]|]. intros [off stop] c3 [H3 Ho3]. cbn in *.
  destruct stop; wp_steps; [done|]. eapply wp_mono; [by apply check_reset_flood_ok|].
  intros [] c4 H4; wp_steps; [done|]. eapply wp_mono; [by apply replenish_windows_ok|]. intros [] c5 H5. by wp_steps.
Qed.

(** ** Outbound operations *)

(** They neither panic nor decide the fate of the connection. *)
Abbreviation keeps b := (λ _ c', outcome b c').
Abbreviation entry_ok c := (stream_ok (Settings.initial_window_size (remote_settings c)) (negb (terminated c))).

Lemma put_any b c id s : outcome b c → entry_ok c s → outcome b (set_streams (<[id := s]> (streams c)) c).
Proof.
  intros [Hc Ht] Hs. split; [|done]. apply conn_ok_streams; [done|]. apply map_Forall_insert_2; [done|]. apply Hc.
Qed.

Lemma alter_any b c id f :
  outcome b c → (∀ s, streams c !! id = Some s → entry_ok c s → entry_ok c (f s)) →
  outcome b (set_streams (alter f id (streams c)) c).
Proof.
  intros [Hc Ht] Hf. split; [|done]. apply conn_ok_streams; [done|]. pose proof (ok_streams _ Hc) as Hm.
  intros k s. rewrite lookup_alter_Some. intros [(-> & s0 & H0 & ->)|[_ Hk]]; [|by apply (Hm k)].
  apply Hf; [done|]. by apply (Hm k).
Qed.

Lemma fresh_any b c : outcome b c → entry_ok c (fresh_stream c).
Proof.
  intros [[] Ht]. destruct ok_remote as (_ & _ & _ & Hi & _). unfold stream_ok, fresh_stream, is_u32 in *. cbn.
  unfold MAX_WINDOW_SIZE in *. split_and!; lia.
Qed.

Lemma or_insert_any b id c (Q : Stream.t → Connection → Prop) :
  outcome b c →
  (∀ s c', outcome b c' → streams c' !! id = Some s → (streams c !! id = None → Stream.state s = Idle) →
     (∀ s', streams c !! id = Some s' → s' = s) → Q s c') →
  wp (or_insert_stream id) Q c.
Proof.
  intros Hc HQ. unfold or_insert_stream. wp_steps. destruct (streams c !! id) as [s|] eqn:Es; wp_steps.
  - apply HQ; [done..|]. by intros s' [= ->].
  - apply HQ; [by eapply put_any, fresh_any|cbn; apply lookup_insert_eq|done|done].
Qed.

Lemma note_stream_id_ok b id c : outcome b c → wp (note_stream_id id) (keeps b) c.
Proof. intros Hc. unfold note_stream_id. wp_steps. destruct (_ <? _); [|done]. eapply outcome_core; [|done]. core. Qed.

Lemma send_continuations_ok fuel id max block off c :
  (0 < max)%nat → (length block - off <= fuel)%nat →
  wp (send_continuations fuel id max block off) (λ _ c', same_core c c') c.
Proof.
  intros Hm. revert off c. induction fuel as [|fuel IH]; intros off c Hf; cbn [send_continuations];
    destruct (Nat.ltb_spec off (length block)); try (wp_steps; core); [lia|].
  wp_steps. wp_checked. wp_steps. wp_checked. wp_steps. eapply wp_core; [apply write_frame_core|]. intros [] c1 H1.
  eapply wp_mono; [apply IH; lia|]. intros [] c2 H2. unfold same_core in *. naive_solver congruence.
Qed.

Lemma send_header_block_ok b id es c : outcome b c → wp (send_header_block id es) (keeps b) c.
Proof.
  intros Hc. unfold send_header_block. wp_steps. wp_checked. wp_steps. eapply wp_core; [apply write_frame_core|]. intros [] c1 H1. wp_steps.
  eapply wp_mono; [apply send_continuations_ok; lia|]. intros [] c2 H2. wp_steps.
  assert (H3 : outcome b (set_enc_buf [] c2)).
  { eapply outcome_core; [|eapply outcome_core; [exact H2|by eapply outcome_core]]. core. }
  eapply or_insert_any; [exact H3|]. intros s c3 H4 Hid _ _. wp_steps. apply note_stream_id_ok.
  apply alter_any; [done|]. intros s' Hs' Hok. rewrite Hid in Hs'. injection Hs' as <-.
  apply entry_ok_state; [done|]. apply advance_closed.
Qed.

(** A promised stream is new, or at least not closed. *)
Lemma send_push_promise_ok b parent id c :
  outcome b c → (∀ s, streams c !! id = Some s → Stream.state s ≠ Closed) →
  wp (send_push_promise parent id) (keeps b) c.
Proof.
  intros Hc Hnew. unfold send_push_promise. wp_steps. wp_checked. wp_steps. wp_checked. wp_steps. eapply wp_core; [apply write_frame_core|]. intros [] c1 H1. wp_steps.
  eapply wp_mono; [apply send_continuations_ok; lia|]. intros [] c2 H2. wp_steps.
  assert (H3 : outcome b (set_enc_buf [] c2)).
  { eapply outcome_core; [|eapply outcome_core; [exact H2|by eapply outcome_core]]. core. }
  assert (Hss : streams (set_enc_buf [] c2) = streams c).
  { destruct H1 as (_&_&_&_&_&_&_&E1&_). destruct H2 as (_&_&_&_&_&_&_&E2&_). cbn. congruence. }
  eapply or_insert_any; [exact H3|]. rewrite Hss. intros s c3 H4 Hid Hfresh Hold. wp_steps. apply note_stream_id_ok.
  apply alter_any; [done|]. intros s' Hs' Hok. rewrite Hid in Hs'. injection Hs' as <-.
  apply entry_ok_state; [done|]. intros _. destruct (streams c !! id) as [s0|] eqn:E0.
  - rewrite <- (Hold s0 eq_refl). by apply Hnew.
  - by rewrite Hfresh.
Qed.

Lemma entry_ok_consume i live s w n :
  stream_ok i live s → 0 <= i <= MAX_WINDOW_SIZE → 0 <= n <= SendWindow.available (Stream.send_window s) →
  SendWindow.consume (Stream.send_window s) n = Some w → stream_ok i live (Stream.set_send_window w s).
Proof.
  intros (H1 & H2 & H3) Hi Hn Hw. rewrite consume_ok in Hw by (unfold MAX_WINDOW_SIZE in *; lia). injection Hw as <-.
  unfold SendWindow.available in Hn. unfold stream_ok, MAX_WINDOW_SIZE in *. cbn.
  destruct (Z.ltb_spec 0 (SendWindow.remaining (Stream.send_window s))); split_and!; try lia; try apply H3.
  intros Hl Hs. specialize (H2 Hl Hs). lia.
Qed.

Lemma send_data_ok b id data es c :
  outcome b c → wp (send_data id data es) (λ n c', outcome b c' ∧ (n <= length data)%nat) c.
Proof.
  intros Hc. unfold send_data. wp_steps.
  set (stream_avail := match streams c !! id with Some _ => _ | None => _ end).
  set (allowed := Z.to_nat _). set (to_send := Nat.min allowed (length data)).
  assert (Hcw : 0 <= Z.of_nat to_send <= SendWindow.available (send_window c)).
  { unfold to_send, allowed. assert (0 <= SendWindow.available (send_window c)) by (unfold SendWindow.available; case_match; lia). lia. }
  assert (Hsw : 0 <= Z.of_nat to_send <= stream_avail).
  { unfold to_send, allowed. assert (0 <= stream_avail); [|lia]. unfold stream_avail. case_match; [|lia].
    unfold SendWindow.available. case_match; lia. }
  destruct (_ && _); wp_steps; [split; [done|lia]|]. wp_checked. wp_steps.
  eapply wp_core; [apply write_frame_core|]. intros [] c1 H1. wp_steps.
  pose proof (outcome_core b c c1 H1 Hc) as Hc1. pose proof (ok_send _ (proj1 Hc)) as Hs.
  eapply wp_lift; [apply consume_ok; [unfold MAX_WINDOW_SIZE in *; lia|done]|]. wp_steps. set (w := SendWindow.mk _). set (c2 := set_send_window w c1).
  assert (H2 : outcome b c2).
  { destruct Hc1 as [[] Ht]. split; [|done]. split; try done. unfold c2, w. cbn.
    unfold SendWindow.available in Hcw. destruct (Z.ltb_spec 0 (SendWindow.remaining (send_window c))); lia. }
  assert (Hss : streams c2 = streams c) by (by destruct H1 as (_&_&_&_&_&_&_&E1&_)). rewrite Hss.
  destruct (streams c !! id) as [s|] eqn:Es; wp_steps; [|split; [done|lia]].
  assert (Hok : entry_ok c2 s) by (apply (ok_streams _ (proj1 H2) id); by rewrite Hss).
  pose proof (proj1 Hok) as Hb.
  destruct (SendWindow.consume (Stream.send_window s) (Z.of_nat to_send)) as [w'|] eqn:Ew.
  2: { rewrite consume_ok in Ew by (unfold MAX_WINDOW_SIZE in *; lia). done. }
  eapply wp_lift; [done|]. wp_steps. split; [|lia]. apply put_any; [done|].
  assert (Hw' : entry_ok c2 (Stream.set_send_window w' s)).
  { eapply entry_ok_consume; [done| |exact Hsw|done]. apply (ok_remote _ (proj1 H2)). }
  destruct (_ && _); [|done]. apply entry_ok_state; [done|]. apply advance_closed.
Qed.

Lemma replenish_stream_ok b id c : outcome b c → wp (replenish_stream id) (keeps b) c.
Proof.
  intros Hc. unfold replenish_stream. wp_steps. destruct (streams c !! id) as [s|] eqn:Es; [|by wp_steps].
  destruct (_ && _); [|by wp_steps]. wp_steps. assert (Hok : entry_ok c s) by (by apply (ok_streams _ (proj1 Hc) id)).
  destruct (take_update_some (Stream.recv_window s) (2 ^ 33)) as (inc & n & Ht & Hn); [apply Hok|lia|].
  eapply wp_lift; [exact Ht|]. wp_steps. cbn [fst snd].
  assert (H1 : outcome b (set_streams (<[id := Stream.set_recv_window (RecvWindow.mk (RecvWindow.size (Stream.recv_window s)) n) s]> (streams c)) c)).
  { apply put_any; [done|]. by apply entry_ok_recv. }
  destruct (0 <? inc); wp_steps; [|done]. eapply wp_core; [apply write_frame_core|]. intros [] c2 H2. by eapply outcome_core.
Qed.

Lemma close_stream_ok b id c : outcome b c → wp (close_stream id) (keeps b) c.
Proof.
  intros [Hc Ht]. unfold close_stream. wp_steps. split; [|done]. apply conn_ok_streams; [done|].
  apply map_Forall_delete, Hc.
Qed.

Lemma begin_header_block_ok b c : outcome b c → wp begin_header_block (keeps b) c.
Proof.
  intros [[] Ht]. unfold begin_header_block. wp_steps.
  assert (Hr : ∃ cd tmp n, take_pending_size_update (coder c) (replicate MAX_SIZE_UPDATE_BYTES 0) 0 = Some (cd, (tmp, n)) ∧
    pending_enc_capacity cd = None ∧ (n <= length tmp)%nat).
  { unfold take_pending_size_update. destruct (pending_enc_capacity (coder c)) as [cap|] eqn:Ep; [|do 3 eexists; split_and!; [done|done|lia]].
    destruct (write_size_update_spec (replicate MAX_SIZE_UPDATE_BYTES 0) 0 cap) as (dst & n & -> & Hn & Hl & _); [by apply ok_coder|done|].
    do 3 eexists. split_and!; [done|done|]. rewrite Hl, length_replicate. lia. }
  destruct Hr as (cd & tmp & n & Hr & Hp & Hn). eapply wp_lift; [exact Hr|]. cbv beta iota. wp_steps. wp_checked. wp_steps. split; [|done]. split; cbn; try done.
  by rewrite Hp.
Qed.

Lemma encode_header_ok b n v ni c : outcome b c → wp (encode_header n v ni) (keeps b) c.
Proof.
  intros Hc. unfold encode_header. wp_steps. destruct (Coder_encode _ _ _ _ _ _) as [cd [dst r]] eqn:Ec. wp_steps.
  assert (H1 : outcome b (set_coder cd c)).
  { eapply outcome_core; [|done]. unfold same_core. split_and!; try reflexivity. cbn. revert Ec. unfold Coder_encode.
    destruct (hpack_encode _ _ _ _ _ _) as [h p]. by intros [= <- _]. }
  destruct r; wp_steps; (eapply outcome_core; [|exact H1]; core).
Qed.

(** ** The embedder's own writes *)

(** What the entries of a queue debit the window of [id]. *)
Definition debit (id : Z) (v : list (Z * Z)) : Z :=
  foldr (λ p acc, if p.1 =? id then p.2 + acc else acc) 0 v.

Lemma consume_any w n :
  - 2 ^ 62 <= SendWindow.remaining w - n <= 2 ^ 62 →
  SendWindow.consume w n = Some (SendWindow.mk (SendWindow.remaining w - n)).
Proof. intros H. windows. by rewrite bind_i64 by lia. Qed.

Lemma debit_cons id p v : debit id (p :: v) = if p.1 =? id then p.2 + debit id v else debit id v.
Proof. done. Qed.

Lemma debit_nonneg id v : Forall (λ p, 0 <= p.2) v → 0 <= debit id v.
Proof. induction 1 as [|p v Hp _ IH]; [done|]. rewrite debit_cons. destruct (_ =? _); lia. Qed.

(** The room the embedder leaves below a send window: [2 ^ 60] bytes in debt. *)
Definition debits_fit (v : list (Z * Z)) (c : Connection) : Prop :=
  Forall (λ p, 0 <= p.2) v ∧
  map_Forall (λ id s, debit id v <=
    SendWindow.remaining (Stream.send_window s) + 2 ^ 60 - Settings.initial_window_size (remote_settings c)) (streams c).

Lemma retain_consumed_ok b alive v c :
  outcome b c → debits_fit v c → wp (retain_consumed alive v) (keeps b) c.
Proof.
  revert c. induction v as [|[id n] v IH]; intros c Hc [Hn Hv]; cbn [retain_consumed]; [by wp_steps|].
  inversion_clear Hn as [|?? Hn0 Hnv]. cbn [snd] in Hn0. wp_steps.
  assert (Hrest : debits_fit v c).
  { split; [done|]. intros id' s Hs. specialize (Hv id' s Hs). cbv beta in Hv |- *. rewrite debit_cons in Hv. cbn [fst snd] in Hv.
    destruct (id =? id'); lia. }
  destruct (streams c !! id) as [s|] eqn:Es; wp_steps.
  2: { eapply wp_mono; [by apply IH|]. intros rest c' H'. by wp_steps. }
  pose proof (Hv id s Es) as Hd. cbv beta in Hd. rewrite debit_cons in Hd. cbn [fst snd] in Hd. rewrite Z.eqb_refl in Hd.
  pose proof (debit_nonneg id v Hnv) as Hp. pose proof (ok_streams _ (proj1 Hc) id s Es) as Hok.
  destruct (ok_remote _ (proj1 Hc)) as (_ & _ & _ & Hi & _).
  pose proof (proj1 Hok) as Hr. unfold MAX_WINDOW_SIZE in Hr, Hi. unfold as_i64. rewrite (proj2 (Z.ltb_lt n (2 ^ 63))) by lia.
  eapply wp_lift; [apply consume_any; lia|]. wp_steps. set (w := SendWindow.mk _).
  assert (Hw : entry_ok c (Stream.set_send_window w s)).
  { destruct Hok as (_ & _ & H3). unfold stream_ok, MAX_WINDOW_SIZE. cbn. split_and!; try lia; apply H3. }
  eapply wp_mono; [apply IH; [by apply put_any|]|intros rest c' H'; by wp_steps].
  split; [done|]. intros id' s'. cbn. intros [[<- <-]|[Hne Hs']]%lookup_insert_Some; [cbn; lia|].
  by apply (proj2 Hrest id').
Qed.

Lemma close_streams_ok b ids c : outcome b c → wp (close_streams ids) (keeps b) c.
Proof.
  revert c. induction ids as [|id ids IH]; intros c Hc; cbn [close_streams]; [by wp_steps|].
  apply wp_bind. eapply wp_mono; [by apply close_stream_ok|]. intros [] c' H'. by apply IH.
Qed.

Lemma grow_ok b delta c :
  outcome b c → 0 <= delta → RecvWindow.size (recv_window c) + delta <= 2 ^ 60 →
  wp (grow_recv_window delta) (λ _ c', outcome b c' ∧ streams c' = streams c ∧ send_window c' = send_window c
    ∧ remote_settings c' = remote_settings c) c.
Proof.
  intros Hc Hd Hs. pose proof (ok_recv _ (proj1 Hc)) as (Hsz & Hco & Hle). destruct Hc as [[] Ht].
  unfold grow_recv_window. wp_steps. eapply wp_lift.
  { unfold RecvWindow.grow. by rewrite bind_i64 by lia. }
  wp_steps. split; [|done]. split; [|done]. split; cbn; try done.
  split_and!; try lia. intros Hf. specialize (Hle Hf). lia.
Qed.

(** The bounds on the cells of the embedder: its settings are [u32]s, the write
    buffer's offset is within it, the receive window stays below [2 ^ 60] bytes, and
    no send window is driven [2 ^ 60] bytes below zero. *)
Definition bridge_ok (b : Bridge.t) (c : Connection) : Prop :=
  is_u32 (Settings.initial_window_size (Bridge.local_settings b)) ∧
  Forall (λ s, is_u32 (Settings.initial_window_size s)) (Bridge.pending_settings_window_submissions b) ∧
  (Bridge.write_buffer_offset b <= length (Bridge.write_buffer b))%nat ∧
  RecvWindow.size (recv_window c) + Bridge.pending_recv_window_growth b <= 2 ^ 60 ∧
  Bridge.pending_send_window_consumed b <= SendWindow.remaining (send_window c) + 2 ^ 60 ∧
  debits_fit (Bridge.pending_stream_send_consumed b) c.

(** The fields of the engine that the cells are bounded against. *)
Definition same_windows (c c' : Connection) : Prop :=
  streams c' = streams c ∧ send_window c' = send_window c ∧ recv_window c' = recv_window c
  ∧ remote_settings c' = remote_settings c.

Lemma sync_config_ok b br c :
  outcome b c → bridge_ok br c → wp (sync_config E br) (λ _ c', outcome b c' ∧ same_windows c c') c.
Proof.
  intros [[] Ht] (Hl & _). unfold sync_config, configure_stream_reset_limit. wp_steps.
  destruct (_ || _); wp_steps; (split; [split; [|done]; split; done|done]).
Qed.

Lemma sync_sent_ok b n c :
  outcome b c → n <= SendWindow.remaining (send_window c) + 2 ^ 60 →
  wp (sync_sent n) (λ _ c', outcome b c' ∧ streams c' = streams c ∧ remote_settings c' = remote_settings c) c.
Proof.
  intros Hc Hs. pose proof (ok_send _ (proj1 Hc)) as Hw. unfold MAX_WINDOW_SIZE in Hw. unfold sync_sent.
  destruct (Z.ltb_spec 0 n); wp_steps; [|done].
  unfold as_i64. rewrite (proj2 (Z.ltb_lt n (2 ^ 63))) by lia. eapply wp_lift; [apply consume_any; lia|]. wp_steps.
  split; [|done]. destruct Hc as [[] Ht]. split; [|done]. split; cbn; try done. unfold MAX_WINDOW_SIZE. lia.
Qed.

Lemma pending_acks_ok b subs c :
  outcome b c → Forall (λ s, is_u32 (Settings.initial_window_size s)) subs →
  outcome b (set_pending_local_settings_acks (pending_local_settings_acks c ++ subs) c).
Proof. intros [[] Ht] Hs. split; [|done]. split; cbn; try done. by apply Forall_app. Qed.

Lemma rewrite_sync_ok b br c : outcome b c → bridge_ok br c → wp (rewrite_sync E br) (keeps b) c.
Proof.
  intros Hc Hb. pose proof Hb as (_ & Hsub & Hoff & Hgrow & Hsent & Hdeb). unfold rewrite_sync.
  apply wp_bind. eapply wp_mono; [by eapply sync_config_ok|]. intros [] c1 [H1 (Es & Ew & Er & Et)].
  apply wp_bind. wp_checked. apply wp_bind. set (q := if (_ =? 0)%nat then _ else _).
  assert (Hq : wp q (λ _ c', outcome b c' ∧ same_windows c c') c1).
  { unfold q, note_outbound_drained. destruct (_ =? 0)%nat; wp_steps; [|done].
    split; [|done]. eapply outcome_core; [|exact H1]. core. }
  eapply wp_mono; [exact Hq|]. clear q Hq. intros [] c2 [H2 (Es2 & Ew2 & Er2 & Et2)]. apply wp_bind.
  assert (Hg : wp (sync_growth (Bridge.pending_recv_window_growth br))
    (λ _ c', outcome b c' ∧ streams c' = streams c2 ∧ send_window c' = send_window c2 ∧ remote_settings c' = remote_settings c2) c2).
  { unfold sync_growth. destruct (Z.ltb_spec 0 (Bridge.pending_recv_window_growth br)); [|by wp_steps].
    apply grow_ok; [done|lia|]. by rewrite Er2. }
  eapply wp_mono; [exact Hg|]. clear Hg. intros [] c3 (H3 & Es3 & Ew3 & Et3). apply wp_bind.
  eapply wp_mono; [apply sync_sent_ok; [done|by rewrite Ew3, Ew2]|]. intros [] c4 (H4 & Es4 & Et4). apply wp_bind.
  eapply wp_mono; [apply retain_consumed_ok; [done|]|].
  { destruct Hdeb as [Hn Hd]. split; [done|]. intros id s. rewrite Es4, Es3, Es2, Et4, Et3, Et2. apply Hd. }
  intros kept c5 H5. wp_steps. pose proof (pending_acks_ok b _ c5 H5 Hsub) as H6.
  destruct (_ =? 0); wp_steps; [|done]. eapply wp_mono; [by apply close_streams_ok|]. intros [] c7 H7. by wp_steps.
Qed.

(** ** Sequences of operations *)

(** The public operations of [Connection], and the embedder's writes to its fields. *)
Inductive Op :=
  | OpReceive (b : bytes) | OpBeginHeaderBlock | OpEncodeHeader (n v : bytes) (never : bool)
  | OpSendHeaderBlock (id : Z) (es : bool) | OpSendData (id : Z) (data : bytes) (es : bool)
  | OpSendPushPromise (parent id : Z) | OpReplenishStream (id : Z) | OpCloseStream (id : Z)
  | OpNoteOutboundDrained | OpSetStreamResetLimit (burst rate : Z) | OpSendGoAway (code : ErrorCode) (debug : bytes)
  | OpSync (br : Bridge.t) | OpGrowRecvWindow (delta : Z).

Definition run_op (op : Op) : M unit :=
  match op with
  | OpReceive b => _ ← receive E b; mret tt
  | OpBeginHeaderBlock => begin_header_block
  | OpEncodeHeader n v never => _ ← encode_header n v never; mret tt
  | OpSendHeaderBlock id es => send_header_block id es
  | OpSendData id data es => _ ← send_data id data es; mret tt
  | OpSendPushPromise parent id => send_push_promise parent id
  | OpReplenishStream id => replenish_stream id
  | OpCloseStream id => close_stream id
  | OpNoteOutboundDrained => note_outbound_drained
  | OpSetStreamResetLimit burst rate => configure_stream_reset_limit E burst rate
  | OpSendGoAway code debug => send_go_away code debug
  | OpSync br => _ ← rewrite_sync E br; mret tt
  | OpGrowRecvWindow delta => grow_recv_window delta
  end.

(** What the embedder keeps to: bytes are bytes, a promised stream is not one that has
    been closed, and what it writes into the engine's windows is within bounds. *)
Definition op_allowed (c : Connection) (op : Op) : Prop :=
  match op with
  | OpReceive b => Forall is_u8 b
  | OpSendPushPromise _ id => ∀ s, streams c !! id = Some s → Stream.state s ≠ Closed
  | OpSync br => bridge_ok br c
  | OpGrowRecvWindow delta => 0 <= delta ∧ RecvWindow.size (recv_window c) + delta <= 2 ^ 60
  | _ => True
  end.

Inductive op_step : Connection * trace → Connection * trace → Prop :=
  | does op c tr s' : op_allowed c op → run_op op c tr = Some (tt, s') → op_step (c, tr) s'.

(** From the connection that [ensure_engine] makes. *)
Inductive engine_reach (now : Z) (server : bool) (local : Settings.t) (limit : Z) : Connection * trace → Prop :=
  | engine_init : engine_reach now server local limit (ensure_engine now server local limit, [])
  | engine_next s s' : engine_reach now server local limit s → op_step s s' → engine_reach now server local limit s'.

(** After the connection is torn down, input is discarded without a call. *)
Lemma receive_dead b c tr : terminated c = true → receive E b c tr = Some (mkFeed (length b) true, (c, tr)).
Proof. intros Ht. unfold receive, mbind, M_bind, gets. by rewrite Ht. Qed.

Lemma receive_any b c : conn_ok c → Forall is_u8 b → wp (receive E b) (λ _ c', conn_ok c') c.
Proof.
  intros Hc Hb. destruct (terminated c) eqn:Ht.
  - intros tr. eexists _, c, []. rewrite receive_dead, app_nil_r by done. done.
  - eapply wp_mono; [by apply receive_ok|]. intros feed c' [H _]. apply H.
Qed.

Lemma wp_drop {A} (m : M A) (P : Connection → Prop) c :
  wp m (λ _ c', P c') c → wp (_ ← m; mret tt) (λ _ c', P c') c.
Proof. intros H. apply wp_bind. eapply wp_mono; [exact H|]. intros a c' Hc. by apply wp_ret. Qed.

Lemma run_op_ok op c : conn_ok c → op_allowed c op → wp (run_op op) (λ _ c', conn_ok c') c.
Proof.
  intros Hc Ha. assert (Ho : outcome (terminated c) c) by done.
  assert (Hk : ∀ A (m : M A), wp m (keeps (terminated c)) c → wp m (λ _ c', conn_ok c') c).
  { intros A m Hm. eapply wp_mono; [exact Hm|]. intros a c' H. apply H. }
  destruct op; cbn [run_op op_allowed] in *; try apply wp_drop.
  - by apply receive_any.
  - by apply Hk, begin_header_block_ok.
  - by apply Hk, encode_header_ok.
  - by apply Hk, send_header_block_ok.
  - eapply wp_mono; [by apply send_data_ok|]. intros n c' [H _]. apply H.
  - by apply Hk, send_push_promise_ok.
  - by apply Hk, replenish_stream_ok.
  - by apply Hk, close_stream_ok.
  - unfold note_outbound_drained. wp_steps. eapply conn_ok_core; [|done]. core.
  - unfold configure_stream_reset_limit. wp_steps. destruct (_ || _); wp_steps; [|done].
    eapply conn_ok_core; [|done]. core.
  - eapply wp_mono; [by apply local_connection_error_ok, conn_ok_kill|]. intros [] c' H. apply H.
  - by apply Hk, rewrite_sync_ok.
  - destruct Ha as [Hd Hs]. eapply wp_mono; [by apply (grow_ok (terminated c))|]. intros [] c' [H _]. apply H.
Qed.

Lemma new_ok now server local :
  is_u32 (Settings.initial_window_size local) → conn_ok (Connection_new now server local).
Proof.
  intros Hl. unfold is_u32 in Hl. split; cbn; try done; unfold MAX_WINDOW_SIZE, DEFAULT_WINDOW_SIZE, is_u32; cbn; try lia.
  - apply default_ok.
  - unfold header_state_ok, header_block_limit. cbn. split; [done|lia].
Qed.

Lemma ensure_engine_ok now server local limit :
  is_u32 (Settings.initial_window_size local) → conn_ok (ensure_engine now server local limit).
Proof.
  intros Hl. destruct (new_ok now server local Hl). split; try done. intros _. unfold header_state_ok, header_block_limit. cbn.
  split; [done|lia].
Qed.

Definition calls_ok (s : Connection * trace) : Prop := conn_ok s.1 ∧ Forall call_ok s.2.

Lemma engine_reach_ok now server local limit s :
  is_u32 (Settings.initial_window_size local) → engine_reach now server local limit s → calls_ok s.
Proof.
  intros Hl. induction 1 as [|s s' _ [Hc Htr] Hs].
  - split; [by apply ensure_engine_ok|constructor].
  - destruct Hs as [op c tr s' Ha Hr]. cbn in *. destruct (run_op_ok op c Hc Ha tr) as (a & c' & new & Hr' & Hn & Hc').
    rewrite Hr in Hr'. injection Hr' as _ ->. split; [done|]. cbn. by apply Forall_app.
Qed.
End safety.




(** A server's first read: the embedder has grown the receive window and configured the
    engine, the client's preface, SETTINGS, a padded HEADERS frame with priority and a PING
    arrive; at the next read its encoder has sent a hundred bytes on the stream. *)
Definition sample_bridge (growth sent : Z) (pending : list (Z * Z)) : Bridge.t :=
  Bridge.mk Settings.default 64 16 100 true 1000 33 [1; 2] 2 growth sent pending [Settings.default] 0 [] {[1]}.

Definition sample_input : bytes :=
  let block := concat (map (λ p, (Z.of_nat (length p.1) :: p.1) ++ (Z.of_nat (length p.2) :: p.2))
    [(bs ":method", bs "GET"); (bs ":scheme", bs "https"); (bs ":path", bs "/"); (bs ":authority", bs "a")]) in
  let payload := [2; 0; 0; 0; 0; 16] ++ block ++ [0; 0] in
  CONNECTION_PREFACE ++ FrameHeader.write (FrameHeader.mk 6 4 0 0) ++ [0; 4; 0; 0; 4; 0]
  ++ FrameHeader.write (FrameHeader.mk (Z.of_nat (length payload)) 1 44 1) ++ payload
  ++ FrameHeader.write (FrameHeader.mk 8 6 0 0) ++ [1; 2; 3; 4; 5; 6; 7; 8].

Definition run_on (op : Op) (s : Connection * trace) : Connection * trace :=
  from_option snd s (run_op (L := toy_lshpack) default_env op s.1 s.2).
Definition sample_synced : Connection * trace :=
  run_on (OpSync (sample_bridge 5000 0 [])) (ensure_engine 0 true Settings.default 4096, []).
Definition sample_read : Connection * trace := run_on (OpReceive sample_input) sample_synced.

Lemma sample_bridge_ok growth sent pending c :
  RecvWindow.size (recv_window c) + growth <=? 2 ^ 60 = true →
  sent <=? SendWindow.remaining (send_window c) + 2 ^ 60 = true → debits_fit (L := toy_lshpack) pending c →
  bridge_ok (sample_bridge growth sent pending) c.
Proof.
  intros Hg Hs Hd. unfold bridge_ok, is_u32. cbn -[Z.pow]. split_and!; try lia; [|exact Hd].
  constructor; [cbn; lia|constructor].
Qed.

Lemma sample_bridge_new : bridge_ok (sample_bridge 5000 0 []) (ensure_engine (L := toy_lshpack) 0 true Settings.default 4096).
Proof. apply sample_bridge_ok; [reflexivity|reflexivity|]. split; [constructor|]. apply map_Forall_empty. Qed.

Lemma sample_bridge_read : bridge_ok (sample_bridge 0 100 [(1, 60); (3, 5); (1, 40)]) sample_read.1.
Proof.
  apply sample_bridge_ok; [vm_compute; reflexivity|vm_compute; reflexivity|]. split.
  - repeat (constructor; [cbn; lia|]). constructor.
  - apply (bool_decide_unpack _). vm_compute. exact I.
Qed.

