(* ===== verification/H2Report.v ===== *)
(** * How the HTTP/2 engine tears a connection down

    The connection is never torn down in silence: whenever [terminated] becomes
    true, the calls made meanwhile contain the GOAWAY frame and the
    [on_error] that carries the same code, or [on_too_many_invalid_frames]. The
    proof is one lemma per operation, composed like the code. *)

From S2P Require Import Prelude H2Wire H2Stream H2Flow H2Hpack H2Fields H2Conn H2ConnFacts.

#[local] Open Scope Z_scope.

(** The calls of [local_connection_error] after the frame counters, and those of
    the invalid-frame limit. *)
Inductive teardown : trace → Prop :=
  | goaway_and_error code lib_code last debug :
      let payload := to_be_bytes 4 last ++ to_be_bytes 4 (as_u32 code) ++ debug in
      teardown [Write (FrameHeader.write (frame_header GoAway 0 0 payload)); Write payload;
                OnError lib_code last debug]
  | too_many_invalid_frames : teardown [OnTooManyInvalidFrames].

Definition torn_down (tr : trace) : Prop := ∃ l1 seg l2, tr = l1 ++ seg ++ l2 ∧ teardown seg.

Lemma torn_down_l l k : torn_down l → torn_down (l ++ k).
Proof. intros (l1 & seg & l2 & -> & H). exists l1, seg, (l2 ++ k). by rewrite <- !(assoc app). Qed.

Lemma torn_down_r l k : torn_down k → torn_down (l ++ k).
Proof. intros (l1 & seg & l2 & -> & H). exists (l ++ l1), seg, l2. by rewrite <- !(assoc app). Qed.

Section report.
Context {L : Lshpack} (E : Env).

Definition reports {A} (m : M A) : Prop :=
  ∀ c tr a c' tr', m c tr = Some (a, (c', tr')) →
    ∃ new, tr' = tr ++ new ∧ (terminated c = false → terminated c' = true → torn_down new).

Lemma reports_bind {A B} (m : M A) (k : A → M B) : reports m → (∀ a, reports (k a)) → reports (m ≫= k).
Proof.
  intros Hm Hk c tr b c2 tr2. unfold mbind, M_bind. destruct (m c tr) as [[a [c1 tr1]]|] eqn:E1; [|done].
  intros E2. destruct (Hm _ _ _ _ _ E1) as (n1 & -> & H1). destruct (Hk _ _ _ _ _ _ E2) as (n2 & -> & H2).
  exists (n1 ++ n2). split; [by rewrite (assoc app)|]. intros Ht Ht2.
  destruct (terminated c1) eqn:Ec; [by apply torn_down_l, H1|by apply torn_down_r, H2].
Qed.

Lemma reports_pure {A} (m : M A) : (∀ c tr, ∃ a new c', m c tr = Some (a, (c', tr ++ new)) ∧ terminated c' = terminated c) → reports m.
Proof.
  intros H c tr a c' tr' Hm. destruct (H c tr) as (a0 & new & c0 & Hm0 & Ht). rewrite Hm0 in Hm.
  injection Hm as -> -> <-. exists new. split; [done|]. congruence.
Qed.

Lemma reports_ret {A} (a : A) : reports (mret a).
Proof. apply reports_pure. intros c tr. exists a, [], c. by rewrite app_nil_r. Qed.

Lemma reports_gets {A} (f : Connection → A) : reports (gets f).
Proof. apply reports_pure. intros c tr. exists (f c), [], c. by rewrite app_nil_r. Qed.

Lemma reports_ask {A} (q : trace → A) : reports (ask q).
Proof. apply reports_pure. intros c tr. exists (q tr), [], c. by rewrite app_nil_r. Qed.

Lemma reports_call k : reports (call k).
Proof. apply reports_pure. intros c tr. by exists tt, [k], c. Qed.

Lemma reports_modify f : (∀ c, terminated (f c) = terminated c) → reports (modify f).
Proof. intros Hf. apply reports_pure. intros c tr. exists tt, [], (f c). by rewrite app_nil_r. Qed.

Lemma reports_panic {A} : reports (A := A) panic.
Proof. by intros c tr a c' tr' H. Qed.

Lemma reports_lift {A} (o : option A) : reports (lift o).
Proof. destruct o; [apply reports_ret|apply reports_panic]. Qed.

Lemma reports_get_stream id : reports (get_stream id).
Proof. apply reports_gets. Qed.

Lemma reports_with_stream id f : reports (with_stream id f).
Proof. by apply reports_modify. Qed.

Lemma reports_put_stream id s : reports (put_stream id s).
Proof. by apply reports_modify. Qed.

Lemma reports_if {A} (b : bool) (m n : M A) : reports m → reports n → reports (if b then m else n).
Proof. by destruct b. Qed.

Create HintDb reports.
#[local] Hint Resolve reports_ret reports_gets reports_ask reports_call reports_panic reports_lift
  reports_get_stream reports_with_stream reports_put_stream : reports.

(** One step of the composition: binds, branches and known operations. *)
Ltac report_step :=
  match goal with
  | |- ∀ _, _ => intros ?
  | |- reports (_ ≫= _) => apply reports_bind
  | |- reports (modify _) => apply reports_modify; first [done|intros ?; by case_match]
  | |- reports (if _ then _ else _) => apply reports_if
  | |- reports (match ?x with _ => _ end) => destruct x
  | |- reports (let '_ := ?x in _) => destruct x
  | |- reports _ => solve [eauto with reports]
  end.
Ltac report := repeat (report_step; cbv beta zeta).

Lemma reports_write_frame t f i p : reports (write_frame t f i p).
Proof. unfold write_frame. report. Qed.
#[local] Hint Resolve reports_write_frame : reports.

(** The two places that set [terminated]. *)
Lemma reports_error code lib debug : reports (local_connection_error code lib debug).
Proof.
  intros c tr a c' tr' H. unfold local_connection_error, mbind, M_bind, modify, gets, call in H.
  cbv beta iota in H.
  set (payload := to_be_bytes 4 _ ++ to_be_bytes 4 (as_u32 code) ++ debug) in H.
  assert (Hne : (length payload =? 0)%nat = false) by (unfold payload; by rewrite length_app, length_to_be_bytes).
  rewrite write_frame_run in H. unfold frame_calls in H. rewrite Hne in H. injection H as _ <- <-.
  eexists. split; [rewrite <- app_assoc; reflexivity|].
  intros _ _. eexists [_], _, []. rewrite app_nil_r. split; [reflexivity|]. apply (goaway_and_error code lib).
Qed.

Lemma reports_count : reports count_invalid_frame.
Proof.
  intros c tr a c' tr' H. unfold count_invalid_frame, mbind, M_bind, modify, gets, call, mret, M_ret in H.
  cbv beta iota in H. destruct (_ <? _); injection H as _ <- <-.
  - eexists. split; [reflexivity|]. intros _ _. exists [], [OnTooManyInvalidFrames], []. split; [done|constructor].
  - exists []. split; [by rewrite app_nil_r|]. cbn. congruence.
Qed.
#[local] Hint Resolve reports_error reports_count : reports.

Lemma reports_go_away code debug : reports (go_away code debug).
Proof. unfold go_away, send_go_away. report. Qed.

Lemma reports_send_go_away code debug : reports (send_go_away code debug).
Proof. apply reports_error. Qed.

Lemma reports_note_reset b : reports (note_reset E b).
Proof. unfold note_reset. report; try by destruct b. Qed.
#[local] Hint Resolve reports_go_away reports_send_go_away reports_note_reset : reports.

Lemma reports_rst id code : reports (send_rst_stream E id code).
Proof. unfold send_rst_stream. report. Qed.
#[local] Hint Resolve reports_rst : reports.

Lemma reports_reset id code : reports (reset_stream E id code).
Proof. unfold reset_stream, close_entry. report. Qed.

Lemma reports_flood : reports check_reset_flood.
Proof. unfold check_reset_flood. report. Qed.

Lemma reports_ack : reports note_outbound_ack.
Proof. unfold note_outbound_ack. report. Qed.

Lemma reports_or_insert id : reports (or_insert_stream id).
Proof. unfold or_insert_stream. report. Qed.

Lemma reports_u32_at p i : reports (u32_at p i).
Proof. unfold u32_at. report. Qed.

Lemma reports_contains id : reports (contains_stream id).
Proof. unfold contains_stream. report. Qed.
#[local] Hint Resolve reports_reset reports_flood reports_ack reports_or_insert reports_u32_at reports_contains : reports.

Lemma reports_unit id v : reports (apply_unit id v).
Proof. unfold apply_unit. report. Qed.
#[local] Hint Resolve reports_unit : reports.

Lemma reports_units fuel p i : reports (apply_loop fuel p i).
Proof. revert i. induction fuel as [|fuel IH]; intros i; cbn [apply_loop]; report. Qed.

Lemma reports_padding f p e l : reports (strip_padding f p e l).
Proof. unfold strip_padding. report. Qed.

Lemma reports_shift d ids : reports (shift_send_windows d ids).
Proof. induction ids as [|id ids IH]; cbn [shift_send_windows]; report. Qed.
#[local] Hint Resolve reports_units reports_shift reports_padding : reports.

Lemma reports_settings hdr p : reports (handle_settings E hdr p).
Proof. unfold handle_settings, handle_settings_ack, send_settings_ack. report. Qed.

Lemma reports_ping hdr p : reports (handle_ping hdr p).
Proof. unfold handle_ping, send_ping_ack. report. Qed.

Lemma reports_goaway_frame p : reports (handle_go_away p).
Proof. unfold handle_go_away. report. Qed.

Lemma reports_window_update hdr p : reports (handle_window_update E hdr p).
Proof. unfold handle_window_update. report. Qed.

Lemma reports_decode fuel cfg tgt block off b : reports (decode_loop fuel cfg tgt block off b).
Proof. revert off b. induction fuel as [|fuel IH]; intros off b; cbn [decode_loop]; report. Qed.
#[local] Hint Resolve reports_settings reports_ping reports_goaway_frame reports_window_update reports_decode : reports.

Lemma reports_deliver m b : reports (deliver_block E m b).
Proof. unfold deliver_block. report. Qed.
#[local] Hint Resolve reports_deliver : reports.

Lemma reports_finish m : reports (finish_header_block E m).
Proof. unfold finish_header_block. report. Qed.
#[local] Hint Resolve reports_finish : reports.

Lemma reports_park hdr m : reports (finish_or_park_header_block E hdr m).
Proof. unfold finish_or_park_header_block. report. Qed.
#[local] Hint Resolve reports_park : reports.

Lemma reports_headers hdr p : reports (handle_headers E hdr p).
Proof. unfold handle_headers, headers_transition. report. Qed.

Lemma reports_continuation hdr p : reports (handle_continuation E hdr p).
Proof. unfold handle_continuation. report. Qed.

Lemma reports_existed id : reports (has_existed E id).
Proof. unfold has_existed. report. Qed.
#[local] Hint Resolve reports_headers reports_continuation reports_existed : reports.

Lemma reports_closed id : reports (is_closed_stream E id).
Proof. unfold is_closed_stream. report. Qed.

Lemma reports_open_local id : reports (open_local_stream E id).
Proof. unfold open_local_stream. report. Qed.

Lemma reports_enforce id : reports (enforce_content_length E id).
Proof. unfold enforce_content_length. report. Qed.

Lemma reports_end_of_data id : reports (end_of_data id).
Proof. unfold end_of_data. report. Qed.

Lemma reports_decision l s w b : reports (data_decision l s w b).
Proof. unfold data_decision. report. Qed.

Lemma reports_charge n : reports (charge_connection_window n).
Proof. unfold charge_connection_window. report. Qed.
#[local] Hint Resolve reports_closed reports_open_local reports_enforce reports_end_of_data reports_decision
  reports_charge : reports.

Lemma reports_data hdr p : reports (handle_data E hdr p).
Proof. unfold handle_data. report. Qed.

Lemma reports_begin hdr r pd : reports (begin_streamed_data E hdr r pd).
Proof. unfold begin_streamed_data. report. Qed.

Lemma reports_finish_data d : reports (finish_streamed_data E d).
Proof. unfold finish_streamed_data. report. Qed.

Lemma reports_rst_frame hdr p : reports (handle_rst_stream E hdr p).
Proof. unfold handle_rst_stream, close_entry. report. Qed.

Lemma reports_push hdr p : reports (handle_push_promise E hdr p).
Proof. unfold handle_push_promise. report. Qed.

Lemma reports_altsvc hdr p : reports (handle_altsvc hdr p).
Proof. unfold handle_altsvc. report. Qed.

Lemma reports_origin hdr p : reports (handle_origin hdr p).
Proof. unfold handle_origin. report. Qed.
#[local] Hint Resolve reports_data reports_begin reports_finish_data reports_rst_frame reports_push reports_altsvc
  reports_origin : reports.

Lemma reports_dispatch hdr p : reports (dispatch E hdr p).
Proof. unfold dispatch. report. Qed.

Lemma reports_take_updates ids : reports (take_updates E ids).
Proof. induction ids as [|id ids IH]; cbn [take_updates]; report. Qed.

Lemma reports_send_updates buf : reports (send_updates buf).
Proof. induction buf as [|[id inc] buf IH]; cbn [send_updates]; unfold send_window_update; report. Qed.
#[local] Hint Resolve reports_dispatch reports_take_updates reports_send_updates : reports.

Lemma reports_replenish : reports (replenish_windows E).
Proof. unfold replenish_windows, send_window_update. report. Qed.
#[local] Hint Resolve reports_replenish : reports.

Lemma reports_loop fuel b off : reports (receive_loop E fuel b off).
Proof. revert off. induction fuel as [|fuel IH]; intros off; cbn [receive_loop]; report. Qed.

Lemma reports_preface b : reports (receive_preface b).
Proof. unfold receive_preface. report. Qed.

Lemma reports_inflight b off : reports (receive_inflight E b off).
Proof. unfold receive_inflight. report. Qed.
#[local] Hint Resolve reports_loop reports_preface reports_inflight : reports.

Lemma reports_receive b : reports (receive E b).
Proof. unfold receive. report. Qed.
End report.

(** C29. Whatever a peer sends and the embedder answers: if [receive] tears the
    connection down, then among the calls it made on the sink are the GOAWAY
    frame, its last stream id, code and debug text, followed at once by the
    [on_error] for it, or [on_too_many_invalid_frames]. *)
Theorem teardown_is_reported `{L : Lshpack} (E : Env) (c c' : Connection) (tr tr' : trace) (input : bytes) feed :
  receive E input c tr = Some (feed, (c', tr')) → terminated c = false → terminated c' = true →
  ∃ new, tr' = tr ++ new ∧ torn_down new.
Proof.
  intros Hr Ht Ht'. destruct (reports_receive E input c tr feed c' tr' Hr) as (new & -> & H). exists new. auto.
Qed.

Lemma teardown_is_reported_witness :
  let c := Connection_new (L := toy_lshpack) 0 true Settings.default in
  match receive default_env (bs "GET / HTTP/1.1") c [] with
  | Some (feed, (c', tr')) => ∃ new, tr' = [] ++ new ∧ torn_down new
  | None => False
  end.
Proof.
  intros c. destruct (receive default_env (bs "GET / HTTP/1.1") c []) as [[feed [c' tr']]|] eqn:Hr.
  - assert (Ht : terminated c' = true).
    { transitivity (match receive default_env (bs "GET / HTTP/1.1") c [] with
                    | Some (_, (x, _)) => terminated x | None => false end); [by rewrite Hr|vm_compute; reflexivity]. }
    apply (teardown_is_reported default_env c c' [] tr' (bs "GET / HTTP/1.1") feed Hr); [reflexivity|exact Ht].
  - exfalso. revert Hr. vm_compute. discriminate.
Defined.
