(* ===== verification/H2Send.v ===== *)
(** * The outbound side of the HTTP/2 engine

    What [send_data] and [send_header_block] put on the wire: DATA within the
    windows and the frame size of the peer, and a header block split into
    HEADERS and CONTINUATION frames that a receiving engine puts together again. *)

From S2P Require Import Prelude H2Wire H2Stream H2Flow H2Hpack H2Fields H2Conn H2ConnFacts H2ConnSafe.

#[local] Open Scope Z_scope.

(** ** Runs of straight-line code *)

Section runs.
Context {L : Lshpack}.

Lemma M_bind_run {A B} (m : M A) (k : A → M B) c tr a c1 tr1 :
  m c tr = Some (a, (c1, tr1)) → (m ≫= k) c tr = k a c1 tr1.
Proof. intros H. unfold mbind, M_bind. by rewrite H. Qed.

Lemma gets_run {A B} (f : Connection → A) (k : A → M B) c tr : (gets f ≫= k) c tr = k (f c) c tr.
Proof. done. Qed.

Lemma get_stream_run {B} id (k : option Stream.t → M B) c tr : (get_stream id ≫= k) c tr = k (streams c !! id) c tr.
Proof. done. Qed.

Lemma modify_run {B} f (k : unit → M B) c tr : (modify f ≫= k) c tr = k tt (f c) tr.
Proof. done. Qed.

Lemma lift_run {A B} (o : option A) (k : A → M B) a c tr : o = Some a → (lift o ≫= k) c tr = k a c tr.
Proof. by intros ->. Qed.

Lemma write_frame_bind {B} t f i p (k : unit → M B) c tr :
  (write_frame t f i p ≫= k) c tr = k tt (count_frame c) (tr ++ frame_calls c t f i p).
Proof. erewrite M_bind_run; [done|]. apply write_frame_run. Qed.
End runs.

(** ** DATA *)

(** How much of [data] the windows and the frame size let through. *)
Definition sendable `{L : Lshpack} (c : Connection) (s : Stream.t) (data : bytes) : Z :=
  Z.min (Z.of_nat (length data))
    (Z.min (Z.min (SendWindow.available (send_window c)) (SendWindow.available (Stream.send_window s)))
       (Settings.max_frame_size (remote_settings c))).

Lemma available_nonneg w : 0 <= SendWindow.available w.
Proof. unfold SendWindow.available. destruct (Z.ltb_spec 0 (SendWindow.remaining w)); lia. Qed.

(** C23. [send_data] on a stream of the connection sends as much of the data as both
    windows and the peer's frame size allow and nothing else, in one DATA frame
    that carries END_STREAM exactly when it is asked for and everything fits; both windows are
    debited by that amount, the stream moves to its next state on END_STREAM,
    and no other stream changes. *)
Theorem send_data_within_windows `{L : Lshpack} (c : Connection) tr id data end_stream s :
  conn_ok c → streams c !! id = Some s →
  let n := sendable c s data in
  let all := bool_decide (n = Z.of_nat (length data)) in
  let idle := (n =? 0) && negb (bool_decide (data = []) && end_stream) in
  ∃ c' s',
    send_data id data end_stream c tr =
      Some (Z.to_nat n, (c', tr ++ if idle then []
                               else frame_calls c Data (if end_stream && all then flags.END_STREAM else 0) id
                                      (take (Z.to_nat n) data))) ∧
    SendWindow.remaining (send_window c') = SendWindow.remaining (send_window c) - n ∧
    streams c' = <[id := s']> (streams c) ∧
    SendWindow.remaining (Stream.send_window s') = SendWindow.remaining (Stream.send_window s) - n ∧
    Stream.state s' = (if end_stream && all then advance (Stream.state s) SendEndStream else Stream.state s).
Proof.
  intros Hc Hs n all idle. pose proof (ok_send _ Hc) as Hw. pose proof (ok_streams _ Hc id s Hs) as [Hsw _].
  destruct (ok_remote _ Hc) as (_ & _ & _ & _ & Hmf & _). unfold MAX_FRAME_SIZE_LOWER in Hmf.
  pose proof (available_nonneg (send_window c)). pose proof (available_nonneg (Stream.send_window s)).
  assert (Hn : 0 <= n <= SendWindow.available (send_window c) ∧ n <= SendWindow.available (Stream.send_window s)).
  { unfold n, sendable. lia. }
  unfold send_data. rewrite gets_run. cbv beta zeta. rewrite get_stream_run. cbv beta zeta. rewrite gets_run, Hs. cbv beta zeta.
  set (to_send := Nat.min _ _). assert (Hto : to_send = Z.to_nat n) by (unfold to_send, n, sendable; lia).
  assert (Hall : (to_send =? length data)%nat = all).
  { unfold all. rewrite Hto. symmetry. destruct (Nat.eqb_spec (Z.to_nat n) (length data)) as [Heq|Hne].
    - apply bool_decide_eq_true. lia.
    - apply bool_decide_eq_false. lia. }
  assert (Hidle : (to_send =? 0)%nat && negb ((length data =? 0)%nat && end_stream) = idle).
  { unfold idle. rewrite Hto. f_equal; [|do 2 f_equal; by destruct data]. destruct (Nat.eqb_spec (Z.to_nat n) 0); lia. }
  rewrite Hidle, Hall. destruct idle eqn:Ei.
  - apply andb_prop in Ei as [En Enb]. assert (n = 0) as Hn0 by lia. exists c, s. rewrite app_nil_r, Hn0. split_and!; try lia.
    + done.
    + by rewrite insert_id.
    + destruct end_stream; [|done]. destruct all eqn:Ea; [|done]. exfalso.
      apply bool_decide_eq_true in Ea. destruct data; [done|]. cbn in Ea. lia.
  - erewrite lift_run by (apply slice_to_some; unfold to_send; lia). rewrite write_frame_bind, Hto. erewrite M_bind_run.
    2: { rewrite consume_ok by (rewrite ?Z2Nat.id; unfold MAX_WINDOW_SIZE in *; lia). reflexivity. }
    rewrite modify_run, get_stream_run.
    change (streams (set_send_window _ (count_frame c))) with (streams c). rewrite Hs.
    erewrite M_bind_run.
    2: { erewrite M_bind_run; [|rewrite consume_ok by (rewrite ?Z2Nat.id; unfold MAX_WINDOW_SIZE in *; lia); reflexivity]. reflexivity. }
    eexists _, _. split; [reflexivity|]. cbn. rewrite Z2Nat.id by lia. split_and!; [done|reflexivity|..];
      by destruct (end_stream && all).
Qed.

Lemma send_data_within_windows_witness :
  let c := set_streams {[1 := Stream.new 4 100]} (Connection_new (L := toy_lshpack) 0 false Settings.default) in
  ∃ c' s', send_data 1 (bs "hello") true c [] = Some (4%nat, (c', [] ++ frame_calls c Data 0 1 (bs "hell"))) ∧
    SendWindow.remaining (send_window c') = 65535 - 4 ∧ streams c' = <[1 := s']> (streams c) ∧
    SendWindow.remaining (Stream.send_window s') = 4 - 4 ∧ Stream.state s' = Idle.
Proof.
  intros c. apply (send_data_within_windows c [] 1 (bs "hello") true (Stream.new 4 100)); [|reflexivity].
  apply conn_ok_streams.
  - apply new_ok. unfold is_u32. cbn. lia.
  - apply map_Forall_singleton. unfold stream_ok, MAX_WINDOW_SIZE. cbn. lia.
Defined.

(** ** Frames on the wire *)

Abbreviation frame := (FrameHeader.t * bytes)%type.

Definition encode_frame (f : frame) : bytes := FrameHeader.write f.1 ++ f.2.

(** The bytes written to the sink. *)
Definition written (tr : trace) : bytes := concat (omap (λ k, match k with Write b => Some b | _ => None end) tr).

(** A reading of a byte sequence as frames, as [receive] cuts it. *)
Fixpoint read_frames (fuel : nat) (b : bytes) : option (list frame) :=
  match fuel with
  | O => None
  | S fuel =>
      if (length b =? 0)%nat then Some []
      else
        h ← FrameHeader.parse b;
        let total := (FRAME_HEADER_SIZE + Z.to_nat (FrameHeader.length h))%nat in
        if (length b <? total)%nat then None
        else fs ← read_frames fuel (drop total b); Some ((h, slice b FRAME_HEADER_SIZE total) :: fs)
  end.

Lemma written_app l k : written (l ++ k) = written l ++ written k.
Proof. unfold written. by rewrite omap_app, concat_app. Qed.

Lemma written_frame `{L : Lshpack} c t f i p : written (frame_calls c t f i p) = encode_frame (frame_header t f i p, p).
Proof.
  unfold written, frame_calls, encode_frame. cbn. destruct p; cbn; [done|]. by rewrite !app_nil_r.
Qed.

(** A frame as the engine builds it. *)
Definition frame_ok (f : frame) : Prop := FrameHeader.ok f.1 ∧ FrameHeader.length f.1 = Z.of_nat (length f.2).

Lemma frame_header_ok t f i p :
  is_u8 f → 0 <= i < 2 ^ 31 → Z.of_nat (length p) < 2 ^ 24 → frame_ok (frame_header t f i p, p).
Proof.
  intros Hf Hi Hp. unfold frame_ok, FrameHeader.ok, frame_header, wrap32. cbn [fst snd FrameHeader.length FrameHeader.frame_type FrameHeader.flags FrameHeader.stream_id].
  rewrite Z.mod_small by lia. split_and!; try done; try lia; apply code_u8.
Qed.

Lemma read_encode fs fuel :
  Forall frame_ok fs → (length fs < fuel)%nat → read_frames fuel (concat (encode_frame <$> fs)) = Some fs.
Proof.
  intros Hfs. revert fuel. induction Hfs as [|[h p] fs [Hh Hl] _ IH]; intros fuel Hf; (destruct fuel as [|fuel]; [cbn in Hf; lia|]); [done|].
  cbn [fst snd] in *. cbn [length] in Hf. set (rest := concat (encode_frame <$> fs)) in *.
  assert (Hb : concat (encode_frame <$> (h, p) :: fs) = FrameHeader.write h ++ p ++ rest) by (symmetry; apply (assoc app)).
  rewrite Hb. pose proof (length_write h) as Hw. unfold FRAME_HEADER_SIZE in Hw.
  assert (Hlen : length (FrameHeader.write h ++ p ++ rest) = (9 + length p + length rest)%nat) by (rewrite !length_app; lia).
  assert (Hdrop : drop (9 + length p) (FrameHeader.write h ++ p ++ rest) = rest).
  { rewrite app_assoc. apply drop_app_length'. rewrite length_app. lia. }
  assert (Hslice : slice (FrameHeader.write h ++ p ++ rest) 9 (9 + length p) = p).
  { unfold slice. rewrite drop_app_length' by lia. apply take_app_length'. lia. }
  cbn [read_frames]. rewrite Hlen, parse_write by done. cbn [mbind option_bind].
  destruct (Nat.eqb_spec (9 + length p + length rest) 0); [lia|]. rewrite Hl, Nat2Z.id. unfold FRAME_HEADER_SIZE.
  destruct (Nat.ltb_spec (9 + length p + length rest) (9 + length p)); [lia|].
  by rewrite Hdrop, Hslice, IH by lia.
Qed.

(** ** Header blocks in fragments *)

(** CONTINUATION frames of at most [max] bytes that carry [rest], with
    END_HEADERS on the last one only. *)
Fixpoint fragments (max : nat) (id : Z) (rest : bytes) (fs : list frame) : Prop :=
  match fs with
  | [] => rest = []
  | (h, p) :: t =>
      h = frame_header Continuation (if (length t =? 0)%nat then flags.END_HEADERS else 0) id p ∧
      (0 < length p <= max)%nat ∧ ∃ rest', rest = p ++ rest' ∧ fragments max id rest' t
  end.

Lemma fragments_concat max id rest fs : fragments max id rest fs → concat fs.*2 = rest.
Proof.
  revert rest. induction fs as [|[h p] t IH]; intros rest; cbn; [done|].
  intros (_ & _ & rest' & -> & H). by rewrite (IH rest').
Qed.

Lemma fragments_ok max id rest fs :
  fragments max id rest fs → 0 <= id < 2 ^ 31 → Z.of_nat max < 2 ^ 24 → Forall frame_ok fs.
Proof.
  intros H Hi Hm. revert rest H. induction fs as [|[h p] t IH]; intros rest; [constructor|].
  intros (-> & Hp & rest' & -> & H). constructor; [|by eapply IH].
  apply frame_header_ok; [|done|lia]. unfold is_u8, flags.END_HEADERS. case_match; lia.
Qed.

Section fragments_facts.
Context {L : Lshpack}.

(** What [send_continuations] writes, and that it only counts frames. *)
Lemma send_continuations_run fuel id max block off c tr :
  (0 < max)%nat → (off <= length block)%nat → (length block - off <= fuel)%nat →
  ∃ n new fs, send_continuations fuel id max block off c tr = Some (tt, (set_frames_sent n c, tr ++ new)) ∧
    written new = concat (encode_frame <$> fs) ∧ fragments max id (drop off block) fs.
Proof.
  intros Hm. revert off c tr. induction fuel as [|fuel IH]; intros off c tr Ho Hf; cbn [send_continuations];
    destruct (Nat.ltb_spec off (length block)) as [Hlt|Hge]; [lia| | |].
  1, 3: exists (frames_sent c), [], []; rewrite app_nil_r; split_and!; [by destruct c|done|]; cbn; apply drop_ge; lia.
  erewrite lift_run by (apply usize_sub_some; lia).
  set (len := Nat.min (length block - off) max). erewrite lift_run by (apply slice_range_some; unfold len; lia).
  rewrite write_frame_bind.
  destruct (IH (off + len)%nat (count_frame c) (tr ++ frame_calls c Continuation
    (if (off + len =? length block)%nat then flags.END_HEADERS else 0) id (slice block off (off + len))))
    as (n & new & fs & -> & Hw & Hfr); [unfold len; lia..|].
  assert (Hsl : length (slice block off (off + len)) = len) by (rewrite length_slice; unfold len; lia).
  eexists n, _, ((_, slice block off (off + len)) :: fs). split_and!.
  - by rewrite <- (assoc app).
  - rewrite written_app, written_frame, Hw. done.
  - cbn [fragments]. split_and!.
    + f_equal. destruct fs as [|f fs].
      * cbn in Hfr. apply (f_equal length) in Hfr. rewrite length_drop in Hfr. cbn in Hfr.
        destruct (Nat.eqb_spec (off + len) (length block)); [done|unfold len in *; lia].
      * destruct (Nat.eqb_spec (off + len) (length block)) as [Heq|]; [|done]. exfalso.
        rewrite drop_ge in Hfr by lia. destruct f as [h p]. destruct Hfr as (_ & Hp & rest' & Hr & _).
        symmetry in Hr. apply app_nil in Hr as [-> _]. cbn in Hp. lia.
    + rewrite Hsl. unfold len. lia.
    + rewrite Hsl. unfold len. lia.
    + exists (drop (off + len) block). split; [|done]. unfold slice. replace (off + len - off)%nat with len by lia.
      rewrite <- drop_drop. by rewrite take_drop.
Qed.

(** ** The receiving side *)

Context (E : Env).

(** The frames are dispatched one after the other, until one tears the connection down. *)
Fixpoint dispatch_all (fs : list frame) : M bool :=
  match fs with
  | [] => mret false
  | (h, p) :: fs => stop ← dispatch E h p; if (stop : bool) then mret true else dispatch_all fs
  end.

Definition count_received (c : Connection) : Connection := set_frames_received (wrap64 (frames_received c + 1)) c.

(** The frames of a header block pass [validate_header]. *)
Lemma validate_block_frame t f id p max :
  t = Headers ∨ t = Continuation → 0 < id → Z.of_nat (length p) <= max → Z.of_nat (length p) < 2 ^ 24 →
  validate_header (frame_header t f id p) max = HvOk.
Proof.
  intros Ht Hid Hmax Hlen. unfold validate_header. set (h := frame_header t f id p).
  assert (FrameHeader.typ h = Some t) as -> by (by destruct Ht as [-> | ->]).
  assert (stream_scope t = ScopeStream ∧ fixed_length t = None ∧ t ≠ Settings_) as (-> & -> & Hset) by (by destruct Ht as [-> | ->]).
  change (FrameHeader.stream_id h) with id. change (FrameHeader.length h) with (wrap32 (Z.of_nat (length p))).
  unfold wrap32. rewrite Z.mod_small by lia. destruct (Z.ltb_spec max (Z.of_nat (length p))); [lia|].
  destruct (Z.eqb_spec id 0); [lia|]. by rewrite bool_decide_false by done.
Qed.

(** An expected CONTINUATION passes the checks of [dispatch]. *)
Lemma dispatch_continuation f id p c tr inf :
  header_block_in_flight c = Some inf → continuation_stream inf = id → 0 < id →
  Z.of_nat (length p) <= Settings.max_frame_size (local_settings c) → Z.of_nat (length p) < 2 ^ 24 →
  let h := frame_header Continuation f id p in
  dispatch E h p c tr = handle_continuation E h p (count_received c)
    (tr ++ [OnFrameCounters (frames_received (count_received c)) (frames_sent c)]).
Proof.
  intros Hinf Hid Hpos Hmax Hlen h. unfold dispatch. change (FrameHeader.typ h) with (Some Continuation).
  change (bool_decide (Some Continuation = Some GoAway)) with false. unfold mbind, M_bind, modify, gets, call. cbv beta iota.
  change (header_block_in_flight (set_frames_received _ c)) with (header_block_in_flight c). rewrite Hinf.
  change (bool_decide (Some Continuation = Some Continuation)) with true.
  change (FrameHeader.stream_id h) with id. rewrite Hid, Z.eqb_refl. cbn [andb negb].
  change (local_settings (set_frames_received _ c)) with (local_settings c).
  unfold h. by rewrite (validate_block_frame Continuation) by auto.
Qed.

(** The fragments of [rest] added to a block in flight: the last one hands the
    whole block to [finish_header_block]. *)
Lemma reassemble max id fs rest c tr inf :
  fragments max id rest fs → fs ≠ [] →
  header_block_in_flight c = Some inf → continuation_stream inf = id → 0 < id < 2 ^ 31 →
  Z.of_nat max <= Settings.max_frame_size (local_settings c) → Z.of_nat max < 2 ^ 24 →
  Z.of_nat (length (header_block c ++ rest)) <= Z.max (enforced_max_header_list_size c) 65536 →
  ∃ c' new, dispatch_all fs c tr = finish_header_block E (meta inf) c' (tr ++ new) ∧
    header_block c' = header_block c ++ rest ∧ streams c' = streams c ∧ written new = [].
Proof.
  intros Hfr Hne Hinf Hid Hpos Hmax H24. revert rest c tr Hfr Hne Hinf Hmax.
  induction fs as [|[h p] t IH]; intros rest c tr Hfr Hne Hinf Hmax Hcap; [done|].
  destruct Hfr as (-> & Hp & rest' & -> & Hfr). cbn [dispatch_all].
  set (f := if (length t =? 0)%nat then flags.END_HEADERS else 0).
  pose proof (dispatch_continuation f id p c tr inf Hinf Hid ltac:(lia) ltac:(lia) ltac:(lia)) as Hd. cbv zeta in Hd.
  set (tr1 := tr ++ [_]) in Hd. set (c1 := count_received c) in *.
  assert (Hcap1 : (Z.max (enforced_max_header_list_size c1) 65536 <? Z.of_nat (length (header_block c1) + length p)) = false).
  { change (header_block c1) with (header_block c). change (enforced_max_header_list_size c1) with (enforced_max_header_list_size c).
    rewrite !length_app in Hcap. apply Z.ltb_ge. clear -Hcap. lia. }
  set (c2 := set_header_block (header_block c ++ p) (set_header_block_in_flight None c1)).
  assert (Hrun : handle_continuation E (frame_header Continuation f id p) p c1 tr1 =
    if (length t =? 0)%nat then finish_header_block E (meta inf) c2 tr1
    else Some (false, (set_header_block_in_flight (Some inf) c2, tr1))).
  { unfold handle_continuation. unfold mbind at 1, M_bind at 1, gets at 1.
    change (header_block_in_flight c1) with (header_block_in_flight c). rewrite Hinf. cbv beta iota.
    rewrite modify_run, gets_run, gets_run. cbv zeta.
    change (enforced_max_header_list_size (set_header_block_in_flight None c1)) with (enforced_max_header_list_size c1).
    change (header_block (set_header_block_in_flight None c1)) with (header_block c1). rewrite Hcap1, modify_run.
    unfold f. by destruct (length t =? 0)%nat. }
  unfold mbind, M_bind. rewrite Hd, Hrun. destruct t as [|f2 t].
  - cbn in Hfr. subst rest'. cbn [length Nat.eqb]. exists c2, [OnFrameCounters (frames_received c1) (frames_sent c)].
    rewrite app_nil_r. split_and!; [|done..]. change tr1 with (tr ++ [OnFrameCounters (frames_received c1) (frames_sent c)]).
    destruct (finish_header_block E (meta inf) c2 _) as [[[] [c3 tr3]]|]; done.
  - cbn [length Nat.eqb]. destruct (IH rest' (set_header_block_in_flight (Some inf) c2) tr1 Hfr) as (c' & new & Hda & Hb & Hs & Hw);
      [done|done|done| |].
    + cbn. rewrite <- (assoc app). exact Hcap.
    + exists c', ([OnFrameCounters (frames_received c1) (frames_sent c)] ++ new). rewrite (assoc app). split_and!.
      * exact Hda.
      * rewrite Hb. cbn. by rewrite <- (assoc app).
      * done.
      * by rewrite written_app.
Qed.
(** Whether [handle_headers] goes on with a block for [id]: its stream accepts
    HEADERS, and a client did not open it with an even id. *)
Definition accepts_headers (c : Connection) (id : Z) (end_stream : bool) : bool :=
  match transition (from_option Stream.state Idle (streams c !! id)) (if end_stream then RecvHeadersEndStream else RecvHeaders) with
  | Ok _ => negb (negb (bool_decide (is_Some (streams c !! id))) && is_server c && is_multiple_of_2 id)
  | Err _ => false
  end.

Lemma headers_transition_run id is_new es c tr :
  accepts_headers c id es = true →
  ∃ ss, headers_transition E id is_new es c tr = Some (Some Deliver, (set_streams ss c, tr)).
Proof.
  unfold accepts_headers. intros Ha. unfold headers_transition.
  assert (Ho : ∃ s ss, or_insert_stream id c tr = Some (s, (set_streams ss c, tr)) ∧
    Stream.state s = from_option Stream.state Idle (streams c !! id)).
  { unfold or_insert_stream. rewrite get_stream_run. destruct (streams c !! id) as [s|]; eexists _, _; split; try reflexivity.
    by instantiate (1 := streams c); destruct c. }
  destruct Ho as (s & ss & Ho & Hs). erewrite M_bind_run by exact Ho. rewrite <- Hs in Ha.
  unfold mbind, M_bind, ask, put_stream, with_stream, modify. cbv beta iota zeta.
  replace (Stream.state (if is_new then _ else s)) with (Stream.state s) by (by destruct is_new).
  destruct (transition _ _); [|done]. eexists. reflexivity.
Qed.

(** A frame of HEADERS without padding and priority reaches [finish_or_park_header_block] whole. *)
Lemma handle_headers_run f id p c tr es :
  accepts_headers c id es = true → flags.has f flags.END_STREAM = es →
  flags.has f flags.PADDED = false → flags.has f flags.PRIORITY = false →
  let h := frame_header Headers f id p in
  ∃ m c' new, handle_headers E h p c tr = finish_or_park_header_block E h m (set_header_block p c') (tr ++ new) ∧
    target m = id ∧ meta_end_stream m = es ∧ written new = [] ∧
    (local_settings c', enforced_max_header_list_size c') = (local_settings c, enforced_max_header_list_size c) ∧
    ((∀ t, can_open_stream E t = true) → disposition m = Deliver).
Proof.
  intros Ha He Hp Hr h. unfold handle_headers. change (FrameHeader.flags h) with f. change (FrameHeader.stream_id h) with id.
  rewrite strip_padding_range. unfold padded_range, strip_priority. rewrite Hp, Hr, He.
  change (mret ?a ≫= ?k) with (k a). cbv beta iota zeta.
  assert (Hsl : slice p 0 (length p) = p) by (unfold slice; rewrite drop_0, Nat.sub_0_r; by apply take_ge).
  unfold contains_stream. unfold mbind at 1, M_bind at 1. unfold mbind at 1, M_bind at 1, get_stream, gets at 1, mret at 1, M_ret at 1. cbv beta iota.
  rewrite gets_run. set (is_new := negb _). set (server := is_server c).
  assert (Hok : is_new && server && is_multiple_of_2 id = false).
  { unfold accepts_headers in Ha. fold is_new server in Ha. destruct (transition _ _); [|done]. by apply negb_true_iff in Ha. }
  rewrite Hok. unfold mbind at 1, M_bind at 1, ask. cbv beta iota. set (refused := is_new && server && _).
  assert (Hd : ∃ ss, (if refused then mret (Some Refused) else headers_transition E id is_new es) c tr =
    Some (Some (if refused then Refused else Deliver), (set_streams ss c, tr))).
  { destruct refused; [|by apply headers_transition_run]. exists (streams c). by destruct c. }
  destruct Hd as (ss & Hd). erewrite M_bind_run by exact Hd. cbv beta iota.
  assert (Ho : ∃ last new, (if is_new then modify (λ c, if last_stream_id c <? id then set_last_stream_id id c else c) ≫=
      λ _, if refused then mret tt else call (OnStreamOpen id) else mret tt) (set_streams ss c) tr =
    Some (tt, (set_last_stream_id last (set_streams ss c), tr ++ new)) ∧ written new = []).
  { destruct is_new; [rewrite modify_run|exists (last_stream_id c), []; split; [by rewrite app_nil_r; destruct c|done]].
    exists (if last_stream_id c <? id then id else last_stream_id c), (if refused then [] else [OnStreamOpen id]).
    split; [|by destruct refused]. cbn [last_stream_id set_streams].
    destruct refused; rewrite ?app_nil_r; destruct (_ <? _); by destruct c. }
  destruct Ho as (last & new & Ho & Hw). erewrite M_bind_run by exact Ho.
  erewrite lift_run by (apply slice_range_some; lia). rewrite Hsl, modify_run.
  eexists _, (set_last_stream_id last (set_streams ss c)), new. split_and!; [reflexivity|done..|].
  intros Hcan. cbn. unfold refused. by rewrite Hcan, andb_false_r.
Qed.

(** A frame of HEADERS passes the checks of [dispatch] when no block is in flight. *)
Lemma dispatch_headers f id p c tr :
  header_block_in_flight c = None → 0 < id →
  Z.of_nat (length p) <= Settings.max_frame_size (local_settings c) → Z.of_nat (length p) < 2 ^ 24 →
  let h := frame_header Headers f id p in
  dispatch E h p c tr = handle_headers E h p (count_received c)
    (tr ++ [OnFrameCounters (frames_received (count_received c)) (frames_sent c)]).
Proof.
  intros Hn Hpos Hmax Hlen h. unfold dispatch. change (FrameHeader.typ h) with (Some Headers).
  change (bool_decide (Some Headers = Some GoAway)) with false. unfold mbind, M_bind, modify, gets, call. cbv beta iota.
  change (header_block_in_flight (set_frames_received _ c)) with (header_block_in_flight c). rewrite Hn. cbn [negb].
  change (local_settings (set_frames_received _ c)) with (local_settings c).
  unfold h. by rewrite (validate_block_frame Headers) by auto.
Qed.

(** ** From one engine to the other *)

Lemma encode_frame_length fs : (length fs <= length (concat (encode_frame <$> fs)))%nat.
Proof.
  induction fs as [|[h p] fs IH]; [done|]. rewrite fmap_cons. cbn [concat length]. rewrite length_app.
  assert (0 < length (encode_frame (h, p)))%nat by (unfold encode_frame; rewrite length_app; cbn; lia). lia.
Qed.

(** The flags [send_header_block] puts on its HEADERS frame. *)
Definition block_flags (last end_stream : bool) : Z :=
  let fl := if last then flags.END_HEADERS else 0 in if end_stream then Z.lor fl flags.END_STREAM else fl.

(** The frames of a block: HEADERS, then the fragments. *)
Definition block_frames (max : nat) (id : Z) (end_stream : bool) (block : bytes) (fs : list frame) : Prop :=
  ∃ rest, fragments max id (drop max block) rest ∧
    fs = (frame_header Headers (block_flags (bool_decide (rest = [])) end_stream) id (take max block), take max block) :: rest.

Lemma block_frames_ok max id es block fs :
  block_frames max id es block fs → 0 <= id < 2 ^ 31 → Z.of_nat max < 2 ^ 24 →
  Forall frame_ok fs ∧ Forall (λ f, (length f.2 <= max)%nat) fs.
Proof.
  intros (rest & Hfr & ->) Hid Hmax. pose proof (length_take block max) as Hl. split.
  - constructor; [|by eapply fragments_ok]. apply frame_header_ok; [|done|lia].
    by destruct (bool_decide _), es; unfold is_u8.
  - constructor; [cbn; lia|]. revert Hfr. generalize (drop max block). clear Hl.
    induction rest as [|[h p] t IH]; intros r; [done|]. intros (_ & Hp & r' & _ & Hfr). constructor; [cbn; lia|eauto].
Qed.

Lemma send_header_block_run id es c tr :
  conn_ok c →
  let max := Z.to_nat (Settings.max_frame_size (remote_settings c)) in
  ∃ c' new fs, send_header_block id es c tr = Some (tt, (c', tr ++ new)) ∧
    written new = concat (encode_frame <$> fs) ∧ block_frames max id es (enc_buf c) fs.
Proof.
  intros Hc max. destruct (ok_remote _ Hc) as (_ & _ & _ & _ & Hmf & _). unfold MAX_FRAME_SIZE_LOWER in Hmf.
  unfold send_header_block. rewrite gets_run, gets_run. cbv zeta. replace (Nat.max _ 1) with max by (unfold max; lia).
  set (block := enc_buf c). set (fl := if es then _ else _).
  assert (Hfirst : take (Nat.min (length block) max) block = take max block).
  { destruct (decide (length block <= max)%nat) as [Hle|Hgt].
    - rewrite Nat.min_l by done. by rewrite !take_ge by lia.
    - by rewrite Nat.min_r by lia. }
  assert (Hdrop : drop (Nat.min (length block) max) block = drop max block).
  { destruct (decide (length block <= max)%nat) as [Hle|Hgt].
    - rewrite Nat.min_l by done. by rewrite !drop_ge by lia.
    - by rewrite Nat.min_r by lia. }
  erewrite lift_run by (apply slice_to_some; lia). rewrite write_frame_bind, Hfirst. set (c1 := count_frame c). set (tr1 := tr ++ _).
  destruct (send_continuations_run (length block) id max block (Nat.min (length block) max) c1 tr1)
    as (n & new & fs & Hrun & Hw & Hfr); [unfold max; lia|lia|lia|]. rewrite Hdrop in Hfr.
  erewrite M_bind_run by exact Hrun. rewrite modify_run. set (c2 := set_enc_buf _ _).
  assert (Hins : ∃ s c3, or_insert_stream id c2 (tr1 ++ new) = Some (s, (c3, tr1 ++ new))).
  { unfold or_insert_stream. rewrite get_stream_run. by destruct (streams c2 !! id); eexists _, _. }
  destruct Hins as (s & c3 & Hins). erewrite M_bind_run by exact Hins. cbv zeta.
  eexists _, _, (_ :: fs). split; [|split; [|exists fs; split; [exact Hfr|reflexivity]]].
  - unfold mbind, M_bind, with_stream, note_stream_id, modify, tr1. by rewrite <- (assoc app).
  - rewrite written_app, written_frame, Hw. cbn [fmap list_fmap concat]. repeat f_equal. unfold fl, block_flags.
    assert ((Nat.min (length block) max =? length block)%nat = bool_decide (fs = [])) as ->; [|by case_bool_decide].
    apply (f_equal length) in Hdrop as Hd2. rewrite !length_drop in Hd2. apply fragments_concat in Hfr as Hcat.
    destruct (Nat.eqb_spec (Nat.min (length block) max) (length block)) as [He|He]; symmetry.
    + apply bool_decide_eq_true. destruct fs as [|[h p] fs]; [done|]. exfalso. destruct Hfr as (_ & Hp & r & Hr & _).
      apply (f_equal length) in Hr. rewrite length_drop, length_app in Hr. lia.
    + apply bool_decide_eq_false. intros ->. cbn in Hcat. apply (f_equal length) in Hcat. rewrite length_drop in Hcat. cbn in Hcat. lia.
Qed.

Lemma has_block_flags last es :
  flags.has (block_flags last es) flags.END_STREAM = es ∧ flags.has (block_flags last es) flags.END_HEADERS = last ∧
  flags.has (block_flags last es) flags.PADDED = false ∧ flags.has (block_flags last es) flags.PRIORITY = false.
Proof. by destruct last, es. Qed.

Lemma block_received max id es block fs c tr :
  block_frames max id es block fs → 0 < id < 2 ^ 31 → Z.of_nat max < 2 ^ 24 →
  header_block_in_flight c = None → accepts_headers c id es = true →
  Z.of_nat max <= Settings.max_frame_size (local_settings c) →
  Z.of_nat (length block) <= Z.max (enforced_max_header_list_size c) 65536 →
  ∃ m c' new, dispatch_all fs c tr = finish_header_block E m c' (tr ++ new) ∧ header_block c' = block ∧
    target m = id ∧ meta_end_stream m = es ∧ written new = [] ∧
    ((∀ t, can_open_stream E t = true) → disposition m = Deliver).
Proof.
  intros (rest & Hfr & ->) Hid H24 Hn Ha Hmax Hcap. set (f := block_flags _ es). set (p := take max block).
  destruct (has_block_flags (bool_decide (rest = [])) es) as (Hes & Heh & Hpad & Hpri). fold f in Hes, Heh, Hpad, Hpri.
  assert (Hlp : (length p <= max)%nat) by (unfold p; rewrite length_take; lia).
  pose proof (dispatch_headers f id p c tr Hn ltac:(lia) ltac:(lia) ltac:(lia)) as Hd. cbv zeta in Hd.
  set (tr1 := tr ++ [_]) in Hd. set (c1 := count_received c) in *.
  destruct (handle_headers_run f id p c1 tr1 es Ha Hes Hpad Hpri) as (m & c2 & new & Hrun & Hm & Hme & Hw & [= Hl2 He2] & Hdel).
  cbv zeta in Hrun. cbn [dispatch_all]. unfold mbind, M_bind. rewrite Hd, Hrun. unfold finish_or_park_header_block.
  change (FrameHeader.flags (frame_header Headers f id p)) with f. rewrite Heh.
  destruct (bool_decide_reflect (rest = [])) as [->|Hne]; cbn [negb].
  - exists m, (set_header_block p c2), ([OnFrameCounters (frames_received c1) (frames_sent c)] ++ new). cbn in Hfr.
    rewrite (assoc app). split_and!; [|cbn; by rewrite <- (take_drop max block), Hfr, app_nil_r|done|done|by rewrite written_app|done].
    change (tr ++ [_]) with tr1. cbn [dispatch_all]. by destruct (finish_header_block E m _ (tr1 ++ new)) as [[[] [? ?]]|].
  - unfold mbind, M_bind, modify. cbv beta iota. set (inf := mkInFlight _ m). set (c3 := set_header_block_in_flight _ _).
    destruct (reassemble max id rest (drop max block) c3 (tr1 ++ new) inf) as (c' & new' & Hda & Hb & _ & Hw');
      [exact Hfr|exact Hne|reflexivity|reflexivity|exact Hid| |exact H24| |].
    + cbn. rewrite Hl2. exact Hmax.
    + cbn. unfold p. rewrite take_drop, He2. exact Hcap.
    + exists m, c', ([OnFrameCounters (frames_received c1) (frames_sent c)] ++ new ++ new'). rewrite !(assoc app).
      change (tr ++ [_]) with tr1. split_and!; [exact Hda|rewrite Hb; apply take_drop|done|done| |done].
      by rewrite !written_app, Hw, Hw'.
Qed.
End fragments_facts.



