(* ===== verification/ZigHashMap.v ===== *)
(** * [src/collections/zig_hash_map.rs]: the open-addressing hash map

    Linear probing over a power-of-two table, tombstones on removal, at most 80
    per cent load. The table is two vectors, the metadata bytes and the slots,
    as in the code; a panic (an index out of range, a failed assertion, an
    overflow that is checked, an [unwrap] of [None]) is [None], and so is a probe
    that would not end. References into the table are slot indices. *)

From S2P Require Import Prelude.

#[local] Open Scope Z_scope.

(** ** Metadata bytes *)

Definition SLOT_FREE : Z := 0x00.
Definition SLOT_TOMBSTONE : Z := 0x01.

Definition meta_is_used (m : Z) : bool := negb (Z.land m 0x80 =? 0).
Definition meta_is_free (m : Z) : bool := m =? SLOT_FREE.
Definition meta_is_tombstone (m : Z) : bool := m =? SLOT_TOMBSTONE.
Definition meta_fingerprint (m : Z) : Z := Z.land m 0x7F.
Definition take_fingerprint (hash : Z) : Z := Z.shiftr hash (64 - 7) mod 256.
Definition meta_fill (fp : Z) : Z := Z.lor 0x80 (Z.land fp 0x7F).

Definition MINIMAL_CAPACITY : Z := 8.
Definition MAX_LOAD_PERCENTAGE : Z := 80.

(** [u32::next_power_of_two]: it overflows above 2{^31}. *)
Definition next_power_of_two (n : Z) : option Z :=
  let p := 2 ^ Z.log2_up n in if p <? 2 ^ 32 then Some p else None.

Definition capacity_for_size (size : Z) : option Z :=
  next_power_of_two (wrap32 (size * 100 / MAX_LOAD_PERCENTAGE + 1)).

Definition is_power_of_two (n : Z) : bool := (0 <? n) && (Z.land n (n - 1) =? 0).

(** [debug_assert!] *)
Definition debug_assert (b : bool) : option unit := if b then Some tt else None.

(** A checked [u32] result, and [usize - 1]. *)
Definition u32 (z : Z) : option Z := if (0 <=? z) && (z <? 2 ^ 32) then Some z else None.
Definition checked_pred (n : nat) : option nat := match n with O => None | S m => Some m end.

(** [v\[i\] = x] *)
Definition store {A} (l : list A) (i : nat) (x : A) : option (list A) :=
  if (i <? length l)%nat then Some (<[i := x]> l) else None.

(** ** The hashing strategy *)

Class HashContext (K : Type) := { ctx_hash : K → Z; ctx_eql : K → K → bool }.

Class HashContextLaws (K : Type) `{HashContext K} : Prop := {
  ctx_hash_u64 : ∀ k, is_u64 (ctx_hash k);
  ctx_eql_spec : ∀ a b, ctx_eql a b = true ↔ a = b }.

(** [IdentityContext] over the integers [self as u64]. *)
#[export] Instance IdentityContext : HashContext Z := {| ctx_hash := wrap64; ctx_eql := Z.eqb |}.

#[export] Instance IdentityContext_laws : HashContextLaws Z.
Proof.
  split; [|apply Z.eqb_eq]. intros k. unfold is_u64, ctx_hash. cbn. unfold wrap64. apply Z.mod_pos_bound. lia.
Qed.

Section hash_map.
Context {K V : Type} `{C : HashContext K}.

Record HashMap := mkHashMap {
  metadata : list Z; slots : list (option (K * V)); size : Z; available : Z }.

Definition HashMap_default : HashMap := mkHashMap [] [] 0 0.

Definition len (self : HashMap) : Z := size self.
Definition is_empty (self : HashMap) : bool := size self =? 0.
Definition capacity (self : HashMap) : nat := length (metadata self).

(** [(cap as u64 * MAX_LOAD_PERCENTAGE) / 100] *)
Definition max_load (cap : nat) : Z := wrap32 (Z.of_nat cap * MAX_LOAD_PERCENTAGE / 100).

Definition deinit (self : HashMap) : HashMap := HashMap_default.

Definition clear (self : HashMap) : HashMap :=
  if (length (metadata self) =? 0)%nat then self
  else
    mkHashMap ((λ _, SLOT_FREE) <$> metadata self) ((λ _, None) <$> slots self) 0 (max_load (length (metadata self))).

(** ** Probing *)

(** [x & mask] as an index. *)
Definition and_mask (x : Z) (mask : nat) : nat := Z.to_nat (Z.land x (Z.of_nat mask)).
Definition next_index (idx mask : nat) : nat := and_mask (Z.of_nat (idx + 1)) mask.

(** [while meta_is_used(self.metadata\[idx\])] *)
Fixpoint probe_unused (fuel : nat) (md : list Z) (mask idx : nat) : option nat :=
  m ← md !! idx;
  if meta_is_used m then
    match fuel with O => None | S fuel => probe_unused fuel md mask (next_index idx mask) end
  else Some idx.

Definition put_assume_capacity_no_clobber (self : HashMap) (key : K) (value : V) : option HashMap :=
  let cap := length (metadata self) in
  let hash := ctx_hash key in
  mask ← checked_pred cap;
  idx ← probe_unused cap (metadata self) mask (and_mask hash mask);
  _ ← debug_assert (0 <? available self);
  available' ← u32 (available self - 1);
  md ← store (metadata self) idx (meta_fill (take_fingerprint hash));
  sl ← store (slots self) idx (Some (key, value));
  size' ← u32 (size self + 1);
  Some (mkHashMap md sl size' available').

(** The slot holds [key]: [if let Some((k, _)) = &self.slots\[idx\]]. *)
Definition slot_has (sl : list (option (K * V))) (idx : nat) (key : K) : option bool :=
  s ← sl !! idx;
  Some (match s with Some (k, _) => ctx_eql key k | None => false end).

Fixpoint get_index_loop (limit : nat) (self : HashMap) (key : K) (fp : Z) (mask idx : nat) : option (option nat) :=
  m ← metadata self !! idx;
  if meta_is_free m then Some None
  else
    match limit with
    | O => Some None
    | S limit =>
        hit ← (if meta_is_used m && (meta_fingerprint m =? fp) then slot_has (slots self) idx key else Some false);
        if (hit : bool) then Some (Some idx) else get_index_loop limit self key fp mask (next_index idx mask)
    end.

Definition get_index (self : HashMap) (key : K) : option (option nat) :=
  if size self =? 0 then Some None
  else
    let cap := length (metadata self) in
    let hash := ctx_hash key in
    mask ← checked_pred cap;
    get_index_loop cap self key (take_fingerprint hash) mask (and_mask hash mask).

(** [self.slots\[i\]] *)
Definition slot (self : HashMap) (i : nat) : option (option (K * V)) := slots self !! i.

Definition get_key_value (self : HashMap) (key : K) : option (option (K * V)) :=
  i ← get_index self key;
  match i with Some i => slot self i | None => Some None end.

Definition get (self : HashMap) (key : K) : option (option V) :=
  kv ← get_key_value self key; Some (option_map snd kv).

Definition contains_key (self : HashMap) (key : K) : option bool :=
  i ← get_index self key; Some (bool_decide (is_Some i)).

(** A write through the [&mut V] into slot [i]. *)
Definition write_value (self : HashMap) (i : nat) (f : V → V) : option HashMap :=
  s ← slot self i;
  kv ← s;
  sl ← store (slots self) i (Some (kv.1, f kv.2));
  Some (mkHashMap (metadata self) sl (size self) (available self)).

(** [get_mut] and a write of [f] of the value through the reference. *)
Definition get_mut (self : HashMap) (key : K) (f : V → V) : option (HashMap * bool) :=
  i ← get_index self key;
  match i with
  | Some i => m ← write_value self i f; Some (m, true)
  | None => Some (self, false)
  end.

(** ** Growth *)

Definition load (self : HashMap) : option Z :=
  let m := max_load (length (metadata self)) in
  _ ← debug_assert (available self <=? m);
  Some (m - available self).

(** [for i in 0..old_cap], over what is left of the old table. *)
Fixpoint reinsert (md : list Z) (sl : list (option (K * V))) (old_size : Z) (map : HashMap) : option HashMap :=
  match md, sl with
  | [], _ => Some map
  | m :: md, s :: sl =>
      if negb (meta_is_used m) then reinsert md sl old_size map
      else
        map ← match s with Some (k, v) => put_assume_capacity_no_clobber map k v | None => Some map end;
        if size map =? old_size then Some map else reinsert md sl old_size map
  | _ :: _, [] => None
  end.

Definition grow (self : HashMap) (new_capacity : Z) : option HashMap :=
  let new_cap := Z.max new_capacity MINIMAL_CAPACITY in
  _ ← debug_assert (Z.of_nat (length (metadata self)) <? new_cap);
  _ ← debug_assert (is_power_of_two new_cap);
  let n := Z.to_nat new_cap in
  let map := mkHashMap (replicate n SLOT_FREE) (replicate n None) 0 (max_load n) in
  if size self =? 0 then Some map else reinsert (metadata self) (slots self) (size self) map.

Definition grow_if_needed (self : HashMap) (new_count : Z) : option HashMap :=
  if available self <? new_count then
    l ← load self;
    n ← u32 (l + new_count);
    cap ← capacity_for_size n;
    grow self cap
  else Some self.

Definition ensure_total_capacity (self : HashMap) (new_size : Z) : option HashMap :=
  let new_size := wrap32 new_size in
  if size self <? new_size then grow_if_needed self (new_size - size self) else Some self.

Definition ensure_unused_capacity (self : HashMap) (additional : Z) : option HashMap :=
  ensure_total_capacity self (size self + additional).

Definition reserve (self : HashMap) (additional : Z) : option HashMap := ensure_unused_capacity self additional.

Definition with_capacity (capacity : Z) : option HashMap :=
  if 0 <? capacity then ensure_total_capacity HashMap_default capacity else Some HashMap_default.

(** ** Insertion *)

(** The probe of [get_or_put_slot]: the slot of the key, or where the probe
    stopped and the first tombstone it saw ([cap] for none). *)
Fixpoint get_or_put_loop (limit : nat) (self : HashMap) (key : K) (fp : Z) (mask idx first_tombstone_idx : nat)
    : option (nat + nat * nat) :=
  m ← metadata self !! idx;
  if meta_is_free m then Some (inr (idx, first_tombstone_idx))
  else
    match limit with
    | O => Some (inr (idx, first_tombstone_idx))
    | S limit =>
        if meta_is_used m && (meta_fingerprint m =? fp) then
          hit ← slot_has (slots self) idx key;
          if (hit : bool) then Some (inl idx)
          else get_or_put_loop limit self key fp mask (next_index idx mask) first_tombstone_idx
        else
          let first_tombstone_idx :=
            if (first_tombstone_idx =? length (metadata self))%nat && meta_is_tombstone m then idx
            else first_tombstone_idx in
          get_or_put_loop limit self key fp mask (next_index idx mask) first_tombstone_idx
    end.

Definition get_or_put_slot (self : HashMap) (key : K) : option (HashMap * (nat * bool)) :=
  self ← grow_if_needed self 1;
  let cap := length (metadata self) in
  let hash := ctx_hash key in
  mask ← checked_pred cap;
  let fp := take_fingerprint hash in
  r ← get_or_put_loop cap self key fp mask (and_mask hash mask) cap;
  match r with
  | inl idx => Some (self, (idx, true))
  | inr (idx, first_tombstone_idx) =>
      let idx := if (first_tombstone_idx <? cap)%nat then first_tombstone_idx else idx in
      available' ← u32 (available self - 1);
      md ← store (metadata self) idx (meta_fill fp);
      size' ← u32 (size self + 1);
      Some (mkHashMap md (slots self) size' available', (idx, false))
  end.

(** [self.slots\[idx\] = Some((key, value))] *)
Definition fill_slot (self : HashMap) (idx : nat) (key : K) (value : V) : option HashMap :=
  sl ← store (slots self) idx (Some (key, value));
  Some (mkHashMap (metadata self) sl (size self) (available self)).

(** [get_or_put] and a write of [f] of the value through [value_ptr]. *)
Definition get_or_put (default : V) (self : HashMap) (key : K) (f : V → V) : option (HashMap * bool) :=
  r ← get_or_put_slot self key;
  let '(self, (idx, found_existing)) := r in
  self ← (if (found_existing : bool) then Some self else fill_slot self idx key default);
  self ← write_value self idx f;
  Some (self, found_existing).

Definition insert (self : HashMap) (key : K) (value : V) : option (HashMap * option V) :=
  r ← get_or_put_slot self key;
  let '(self, (idx, found_existing)) := r in
  if (found_existing : bool) then
    s ← slot self idx;
    kv ← s;
    self ← write_value self idx (λ _, value);
    Some (self, Some kv.2)
  else self ← fill_slot self idx key value; Some (self, None).

Definition put (self : HashMap) (key : K) (value : V) : option HashMap :=
  r ← insert self key value; Some r.1.

Definition put_no_clobber (self : HashMap) (key : K) (value : V) : option HashMap :=
  r ← insert self key value;
  _ ← debug_assert (bool_decide (r.2 = None));
  Some r.1.

(** [entry(key).or_insert_with(f)]: the value behind the reference it returns. *)
Definition or_insert_with (self : HashMap) (key : K) (f : unit → V) : option (HashMap * V) :=
  i ← get_index self key;
  match i with
  | Some idx => s ← slot self idx; kv ← s; Some (self, kv.2)
  | None =>
      let value := f tt in
      r ← get_or_put_slot self key;
      let '(self, (idx, found)) := r in
      _ ← debug_assert (negb found);
      self ← fill_slot self idx key value;
      Some (self, value)
  end.

(** ** Removal *)

Definition remove_by_index (self : HashMap) (idx : nat) : option (HashMap * option (K * V)) :=
  md ← store (metadata self) idx SLOT_TOMBSTONE;
  kv ← slot self idx;
  sl ← store (slots self) idx None;
  size' ← u32 (size self - 1);
  available' ← u32 (available self + 1);
  Some (mkHashMap md sl size' available', kv).

Definition remove_entry (self : HashMap) (key : K) : option (HashMap * option (K * V)) :=
  i ← get_index self key;
  match i with Some i => remove_by_index self i | None => Some (self, None) end.

Definition remove (self : HashMap) (key : K) : option (HashMap * option V) :=
  r ← remove_entry self key; Some (r.1, option_map snd r.2).

Definition fetch_remove (self : HashMap) (key : K) : option (HashMap * option (K * V)) := remove_entry self key.

(** [retain]: [keep] is a closure with state [S] that may change the value. *)
Fixpoint retain_loop {S : Type} (keep : S → K → V → S * (V * bool)) (idxs : list nat) (self : HashMap) (st : S)
    : option (HashMap * S) :=
  match idxs with
  | [] => Some (self, st)
  | idx :: idxs =>
      s ← slot self idx;
      match s with
      | Some (key, value) =>
          let '(st, (value, kept)) := keep st key value in
          self ← write_value self idx (λ _, value);
          self ← (if (kept : bool) then Some self else r ← remove_by_index self idx; Some r.1);
          retain_loop keep idxs self st
      | None => retain_loop keep idxs self st
      end
  end.

Definition retain {S : Type} (keep : S → K → V → S * (V * bool)) (self : HashMap) (st : S) : option (HashMap * S) :=
  retain_loop keep (seq 0 (length (slots self))) self st.

(** ** Iteration *)

Record Iter := mkIter { it_idx : nat; remaining : Z }.

Definition iter (self : HashMap) : Iter := mkIter 0 (size self).

(** [while self.idx < self.metadata.len()], from index [i] over the metadata left. *)
Fixpoint next_used (self : HashMap) (md : list Z) (i : nat) (rem : Z) : option (option (K * V) * Iter) :=
  match md with
  | [] => Some (None, mkIter i rem)
  | m :: md =>
      if meta_is_used m then
        rem' ← u32 (rem - 1);
        s ← slot self i;
        kv ← s;
        Some (Some kv, mkIter (i + 1) rem')
      else next_used self md (i + 1) rem
  end.

Definition next (self : HashMap) (it : Iter) : option (option (K * V) * Iter) :=
  if remaining it =? 0 then Some (None, it)
  else next_used self (drop (it_idx it) (metadata self)) (it_idx it) (remaining it).

(** The items of an iterator until it gives [None]. *)
Fixpoint collect (fuel : nat) (self : HashMap) (it : Iter) : option (list (K * V)) :=
  match fuel with
  | O => None
  | S fuel =>
      r ← next self it;
      match r with
      | (Some kv, it) => l ← collect fuel self it; Some (kv :: l)
      | (None, _) => Some []
      end
  end.

(** [for (k, v) in map.iter_mut()] with a body that writes [f k v] to [v]. *)
Fixpoint iter_mut_loop (f : K → V → V) (md : list Z) (i : nat) (rem : Z) (self : HashMap) : option HashMap :=
  if rem =? 0 then Some self
  else
    match md with
    | [] => Some self
    | m :: md =>
        if meta_is_used m then
          rem' ← u32 (rem - 1);
          s ← slot self i;
          kv ← s;
          self ← write_value self i (f kv.1);
          iter_mut_loop f md (i + 1) rem' self
        else iter_mut_loop f md (i + 1) rem self
    end.

Definition iter_mut (f : K → V → V) (self : HashMap) : option HashMap :=
  iter_mut_loop f (metadata self) 0 (size self) self.

Definition items (self : HashMap) : option (list (K * V)) := collect (S (length (metadata self))) self (iter self).
Definition keys (self : HashMap) : option (list K) := l ← items self; Some l.*1.
Definition values (self : HashMap) : option (list V) := l ← items self; Some l.*2.
End hash_map.

Arguments HashMap : clear implicits.

(** Keys 2 and 10 share a home slot; removing the first leaves a tombstone that
    the second is still found behind. *)
Example tombstone_is_passed :
  (m ← insert (HashMap_default : HashMap Z Z) 2 20; m ← insert m.1 10 100; m ← insert m.1 3 30;
   m ← remove m.1 2; v ← get m.1 10; l ← items m.1; Some (m.2, v, l)) =
  Some (Some 20, Some 100, [(10, 100); (3, 30)]).
Proof. reflexivity. Qed.
