(* ===== verification/ZigHashMapFacts.v ===== *)
(** * The open-addressing hash map implements a finite map

    [wf] is the invariant of the table: metadata and slots agree, the counters
    count, keys are distinct, and from the home slot of a key to its slot no
    slot is free. Under it a probe finds a key exactly when it is there, and
    every operation is the corresponding one on [gmap]. *)

From S2P Require Import Prelude ZigHashMap.

#[local] Open Scope Z_scope.

(** ** Metadata bytes *)

Lemma used_fill fp : meta_is_used (meta_fill fp) = true.
Proof.
  unfold meta_is_used, meta_fill. by rewrite Z.land_lor_distr_l, <- Z.land_assoc, Z.land_0_r.
Qed.

Lemma fingerprint_fill fp : 0 <= fp < 128 → meta_fingerprint (meta_fill fp) = fp.
Proof.
  intros H. unfold meta_fingerprint, meta_fill. rewrite Z.land_lor_distr_l, <- Z.land_assoc.
  change (Z.land 0x80 0x7F) with 0. change (Z.land 0x7F 0x7F) with (Z.ones 7).
  rewrite Z.lor_0_l, Z.land_ones by lia. apply Z.mod_small. lia.
Qed.

Lemma take_fingerprint_range h : is_u64 h → 0 <= take_fingerprint h < 128.
Proof.
  unfold is_u64, take_fingerprint. intros H. rewrite Z.shiftr_div_pow2 by lia. change (2 ^ (64 - 7)) with (2 ^ 57).
  assert (0 <= h / 2 ^ 57 < 128) by (split; [apply Z.div_pos; lia|apply Z.div_lt_upper_bound; lia]).
  rewrite Z.mod_small; lia.
Qed.

(** ** Positions of a probe *)

(** The [j]-th slot from [h] in a table of [cap]. *)
Definition pos (cap h j : nat) : nat := ((h + j) mod cap)%nat.

Definition is_cap (cap : nat) : Prop := ∃ k, 3 <= k <= 31 ∧ Z.of_nat cap = 2 ^ k.

Lemma is_cap_pos cap : is_cap cap → (8 <= cap)%nat ∧ Z.of_nat cap <= 2 ^ 31.
Proof.
  intros (k & Hk & Hc). pose proof (Z.pow_le_mono_r 2 3 k). pose proof (Z.pow_le_mono_r 2 k 31). lia.
Qed.

Lemma and_mask_mod cap x : is_cap cap → 0 <= x → and_mask x (cap - 1) = Z.to_nat (x mod Z.of_nat cap).
Proof.
  intros Hc Hx. pose proof (is_cap_pos cap Hc) as [H8 _]. destruct Hc as (k & Hk & Hc). unfold and_mask.
  replace (Z.of_nat (cap - 1)) with (Z.ones k); [by rewrite Z.land_ones, Hc by lia|].
  rewrite Z.ones_equiv. lia.
Qed.

Lemma pos_lt cap h j : is_cap cap → (pos cap h j < cap)%nat.
Proof. intros Hc%is_cap_pos. unfold pos. apply Nat.mod_upper_bound. lia. Qed.

Lemma next_pos cap h j : is_cap cap → next_index (pos cap h j) (cap - 1) = pos cap h (S j).
Proof.
  intros Hc. unfold next_index. rewrite and_mask_mod by (done || lia). apply is_cap_pos in Hc as [H8 _].
  unfold pos. rewrite <- Nat2Z.inj_mod, Nat2Z.id.
  rewrite Nat.Div0.add_mod_idemp_l. f_equal. lia.
Qed.

Lemma pos_onto cap h i : is_cap cap → (h < cap)%nat → (i < cap)%nat → ∃ j, (j < cap)%nat ∧ pos cap h j = i.
Proof.
  intros Hc%is_cap_pos Hh Hi. unfold pos. destruct (decide (h <= i)%nat).
  - exists (i - h)%nat. split; [lia|]. rewrite Nat.mod_small; lia.
  - exists (i + cap - h)%nat. split; [lia|]. replace (h + (i + cap - h))%nat with (i + 1 * cap)%nat by lia.
    rewrite Nat.Div0.mod_add. apply Nat.mod_small. lia.
Qed.

Lemma pos_0 cap h : (h < cap)%nat → pos cap h 0 = h.
Proof. intros Hh. unfold pos. rewrite Nat.add_0_r. by apply Nat.mod_small. Qed.

Lemma pos_cap cap h : (h < cap)%nat → pos cap h cap = h.
Proof.
  intros Hh. unfold pos. replace (h + cap)%nat with (h + 1 * cap)%nat by lia. rewrite Nat.Div0.mod_add. by apply Nat.mod_small.
Qed.

(** ** Growth arithmetic *)

Lemma next_power_spec n :
  0 < n <= 2 ^ 31 → ∃ k, 0 <= k <= 31 ∧ next_power_of_two n = Some (2 ^ k) ∧ n <= 2 ^ k.
Proof.
  intros Hn. exists (Z.log2_up n). pose proof (Z.log2_up_nonneg n).
  assert (Hu : Z.log2_up n <= 31) by (apply Z.log2_up_le_pow2; lia).
  split; [done|]. unfold next_power_of_two. pose proof (Z.pow_le_mono_r 2 (Z.log2_up n) 31).
  destruct (Z.ltb_spec (2 ^ Z.log2_up n) (2 ^ 32)); [|lia]. split; [done|]. apply Z.log2_up_le_pow2; lia.
Qed.

Definition MAX_ENTRIES : Z := 2 ^ 30.

(** The capacity for [n] entries is more than any table holds whose load is below [n]. *)
Lemma capacity_for_size_spec n :
  0 < n <= MAX_ENTRIES →
  ∃ k, 0 <= k <= 31 ∧ capacity_for_size n = Some (2 ^ k) ∧ n * 100 / 80 + 1 <= 2 ^ k.
Proof.
  intros Hn. unfold MAX_ENTRIES in Hn. unfold capacity_for_size, MAX_LOAD_PERCENTAGE, wrap32.
  assert (0 <= n * 100 / 80 < 2 ^ 31 - 1) by (split; [apply Z.div_pos; lia|apply Z.div_lt_upper_bound; lia]).
  rewrite (Z.mod_small (n * 100 / 80 + 1)) by lia. apply next_power_spec. lia.
Qed.

Lemma max_load_spec cap : Z.of_nat cap <= 2 ^ 31 → max_load cap = Z.of_nat cap * 80 / 100.
Proof.
  intros Hc. unfold max_load, MAX_LOAD_PERCENTAGE, wrap32. apply Z.mod_small.
  split; [apply Z.div_pos; lia|apply Z.div_lt_upper_bound; lia].
Qed.

Lemma max_load_bounds cap : Z.of_nat cap <= 2 ^ 31 → 0 <= max_load cap < 2 ^ 31 ∧ (0 < Z.of_nat cap → max_load cap < Z.of_nat cap).
Proof.
  intros Hc. rewrite max_load_spec by done. split; [split; [apply Z.div_pos; lia|]|intros H0]; apply Z.div_lt_upper_bound; lia.
Qed.

(** ** Entries *)

Section facts.
Context {K V : Type} `{Countable K} `{CL : HashContextLaws K}.
Implicit Types (self : HashMap K V) (sl : list (option (K * V))) (md : list Z).

Definition entries sl : list (K * V) := omap id sl.

Lemma entries_app sl1 sl2 : entries (sl1 ++ sl2) = entries sl1 ++ entries sl2.
Proof. apply omap_app. Qed.

(** A slot split off the table. *)
Lemma slots_split sl i s :
  sl !! i = Some s → sl = take i sl ++ s :: drop (S i) sl.
Proof. intros H1. symmetry. by apply take_drop_middle. Qed.

Lemma entries_fill sl i kv : sl !! i = Some None → entries (<[i := Some kv]> sl) ≡ₚ kv :: entries sl.
Proof.
  intros H1. assert (Hi : (i < length sl)%nat) by (by apply lookup_lt_Some in H1).
  rewrite (slots_split _ _ _ H1) at 2. rewrite insert_take_drop by done. rewrite !entries_app. cbn.
  symmetry. apply Permutation_middle.
Qed.

Lemma entries_clear sl i kv : sl !! i = Some (Some kv) → entries sl ≡ₚ kv :: entries (<[i := None]> sl).
Proof.
  intros H1. assert (Hi : (i < length sl)%nat) by (by apply lookup_lt_Some in H1).
  rewrite (slots_split _ _ _ H1) at 1. rewrite insert_take_drop by done. rewrite !entries_app. cbn.
  symmetry. apply Permutation_middle.
Qed.

Lemma elem_of_entries sl k v : (k, v) ∈ entries sl ↔ ∃ i, sl !! i = Some (Some (k, v)).
Proof.
  unfold entries. rewrite list_elem_of_omap. split.
  - intros (s & Hin & Hs). cbn in Hs. subst s. by apply list_elem_of_lookup_1 in Hin.
  - intros (i & Hi). exists (Some (k, v)). split; [by eapply list_elem_of_lookup_2|done].
Qed.

Lemma entries_length_le sl : (length (entries sl) <= length sl)%nat.
Proof. unfold entries. induction sl as [|[] sl IH]; cbn; lia. Qed.

(** A table that is not full of entries has an empty slot. *)
Lemma empty_slot sl : (length (entries sl) < length sl)%nat → ∃ i, sl !! i = Some None.
Proof.
  induction sl as [|[kv|] sl IH]; cbn; intros Hl; [lia| |by exists 0%nat].
  destruct IH as [i Hi]; [change (omap id sl) with (entries sl) in Hl; lia|]. by exists (S i).
Qed.

(** ** The invariant *)

Definition meta_ok (m : Z) (s : option (K * V)) : Prop :=
  match s with
  | Some (k, _) => m = meta_fill (take_fingerprint (ctx_hash k))
  | None => m = SLOT_FREE ∨ m = SLOT_TOMBSTONE
  end.

Definition home (cap : nat) (k : K) : nat := and_mask (ctx_hash k) (cap - 1).

(** No free slot from the home of [k] to slot [i]. *)
Definition reaches md (k : K) (i : nat) : Prop :=
  ∃ d, (d < length md)%nat ∧ pos (length md) (home (length md) k) d = i ∧
    ∀ j, (j < d)%nat → md !! pos (length md) (home (length md) k) j ≠ Some SLOT_FREE.

(** The part of the invariant that probing needs. *)
Record table_ok md sl : Prop := {
  tb_cap : is_cap (length md);
  tb_meta : Forall2 meta_ok md sl;
  tb_nodup : NoDup (entries sl).*1;
  tb_reach : ∀ i k v, sl !! i = Some (Some (k, v)) → reaches md k i }.

Record wf self : Prop := {
  wf_table : metadata self = [] ∧ slots self = [] ∨ table_ok (metadata self) (slots self);
  wf_size : size self = Z.of_nat (length (entries (slots self)));
  wf_available : available self = max_load (length (metadata self)) - size self;
  wf_room : 0 <= available self }.

Definition to_map self : gmap K V := list_to_map (entries (slots self)).

Lemma home_lt cap k : is_cap cap → (home cap k < cap)%nat.
Proof.
  intros Hc. unfold home. rewrite and_mask_mod; [|done|apply ctx_hash_u64]. pose proof (is_cap_pos _ Hc).
  pose proof (Z.mod_pos_bound (ctx_hash k) (Z.of_nat cap)). lia.
Qed.

Lemma table_length md sl : table_ok md sl → length sl = length md.
Proof. intros []. symmetry. by eapply Forall2_length. Qed.

Lemma meta_at md sl i : table_ok md sl → (i < length md)%nat → ∃ m s, md !! i = Some m ∧ sl !! i = Some s ∧ meta_ok m s.
Proof.
  intros Ht Hi. destruct (lookup_lt_is_Some_2 md i Hi) as [m Hm].
  destruct (Forall2_lookup_l _ _ _ _ _ (tb_meta _ _ Ht) Hm) as (s & Hs & Hok). by exists m, s.
Qed.

Lemma used_meta m s : meta_ok m s → meta_is_used m = bool_decide (is_Some s).
Proof. destruct s as [[k v]|]; cbn; [intros ->; apply used_fill|intros [-> | ->]; done]. Qed.

Lemma free_meta m s : meta_ok m s → m = SLOT_FREE → s = None.
Proof.
  intros Hm ->. apply used_meta in Hm. destruct s; [|done]. by rewrite bool_decide_true in Hm.
Qed.

Definition holds (s : option (K * V)) (key : K) : bool :=
  match s with Some (k, _) => bool_decide (k = key) | None => false end.

(** What the probes test at a slot: it holds the key. *)
Lemma slot_test sl i m s key :
  sl !! i = Some s → meta_ok m s →
  (if meta_is_used m && (meta_fingerprint m =? take_fingerprint (ctx_hash key)) then slot_has sl i key else Some false) =
  Some (holds s key).
Proof.
  intros Hs Hm. rewrite (used_meta m s Hm). unfold slot_has. rewrite Hs. cbn. destruct s as [[k v]|]; [|done]. cbn.
  cbn in Hm. rewrite Hm, fingerprint_fill by (apply take_fingerprint_range, ctx_hash_u64).
  destruct (decide (k = key)) as [->|Hne].
  - rewrite Z.eqb_refl. rewrite bool_decide_true by done. f_equal. by apply ctx_eql_spec.
  - rewrite bool_decide_false by done. destruct (_ =? _); [|done]. f_equal.
    destruct (ctx_eql key k) eqn:E; [|done]. apply ctx_eql_spec in E. congruence.
Qed.

(** ** Probes *)

(** The first [j] slots of the probe for [key] are neither free nor hold it. *)
Definition passed md sl (key : K) (j : nat) : Prop :=
  ∀ i m s, (i < j)%nat → md !! pos (length md) (home (length md) key) i = Some m →
    sl !! pos (length md) (home (length md) key) i = Some s → m ≠ SLOT_FREE ∧ holds s key = false.

Lemma passed_S md sl key j m s :
  passed md sl key j → md !! pos (length md) (home (length md) key) j = Some m →
  sl !! pos (length md) (home (length md) key) j = Some s → m ≠ SLOT_FREE → holds s key = false →
  passed md sl key (S j).
Proof.
  intros Hp Hm Hs Hf Hh i m' s' Hi Hm' Hs'. destruct (decide (i = j)) as [->|Hne]; [|by apply (Hp i); [lia|..]].
  rewrite Hm in Hm'. rewrite Hs in Hs'. by injection Hm' as <-; injection Hs' as <-.
Qed.

Definition absent sl (key : K) : Prop := ∀ i v, sl !! i ≠ Some (Some (key, v)).

(** Where a probe gives up, the key is nowhere. *)
Lemma passed_absent md sl key j :
  table_ok md sl → passed md sl key j →
  j = length md ∨ (j < length md)%nat ∧ md !! pos (length md) (home (length md) key) j = Some SLOT_FREE →
  absent sl key.
Proof.
  intros Ht Hp Hj i v Hi. destruct (tb_reach _ _ Ht i key v Hi) as (d & Hd & Hpos & Hfree).
  destruct (meta_at md sl i Ht) as (m & s & Hm & Hs & Hok).
  { rewrite <- Hpos. apply pos_lt, Ht. }
  rewrite Hi in Hs. injection Hs as <-.
  assert (Hlt : (d < j)%nat).
  { destruct Hj as [->|[_ Hj]]; [done|]. destruct (decide (j < d)%nat) as [Hlt|Hge]; [by destruct (Hfree j Hlt)|].
    assert (d ≠ j); [|lia]. intros ->. rewrite Hpos, Hm in Hj. injection Hj as ->. by apply free_meta in Hok. }
  destruct (Hp d m (Some (key, v)) Hlt) as [_ Hh]; [by rewrite Hpos..|]. cbn in Hh. by rewrite bool_decide_true in Hh.
Qed.

Lemma get_index_loop_spec self key limit j :
  table_ok (metadata self) (slots self) → (limit + j = length (metadata self))%nat →
  passed (metadata self) (slots self) key j →
  let cap := length (metadata self) in
  ∃ r, get_index_loop limit self key (take_fingerprint (ctx_hash key)) (cap - 1) (pos cap (home cap key) j) = Some r ∧
    match r with
    | Some i => ∃ v, slots self !! i = Some (Some (key, v))
    | None => absent (slots self) key
    end.
Proof.
  intros Ht Hlj Hp cap. revert j Hlj Hp. induction limit as [|limit IH]; intros j Hlj Hp; cbn [get_index_loop];
    (destruct (meta_at _ _ (pos cap (home cap key) j) Ht) as (m & s & Hm & Hs & Hok); [apply pos_lt, Ht|]);
    rewrite Hm; cbn [mbind option_bind]; unfold meta_is_free; destruct (Z.eqb_spec m SLOT_FREE) as [->|Hf].
  - exists None. split; [done|]. eapply passed_absent; [done..|]. left. lia.
  - exists None. split; [done|]. eapply passed_absent; [done..|]. left. lia.
  - exists None. split; [done|]. eapply passed_absent; [done..|]. right. split; [lia|done].
  - rewrite (slot_test _ _ _ _ key Hs Hok). cbn. destruct (holds s key) eqn:Eh.
    + eexists. split; [done|]. destruct s as [[k v]|]; [|done]. cbn in Eh. apply bool_decide_eq_true in Eh. subst k. eauto.
    + rewrite next_pos by apply Ht. apply IH; [lia|]. by eapply passed_S.
Qed.

Lemma wf_nodup self : wf self → NoDup (entries (slots self)).*1.
Proof. intros [[[_ ->]|[]] _ _ _]; [constructor|done]. Qed.

Lemma to_map_at self i k v : wf self → slots self !! i = Some (Some (k, v)) → to_map self !! k = Some v.
Proof.
  intros Hw Hi. apply elem_of_list_to_map_1; [by apply wf_nodup|]. apply elem_of_entries. eauto.
Qed.

Lemma to_map_absent self k : wf self → absent (slots self) k ↔ to_map self !! k = None.
Proof.
  intros Hw. split.
  - intros Ha. apply not_elem_of_list_to_map_1. intros ([k' v] & -> & Hin)%list_elem_of_fmap.
    apply elem_of_entries in Hin as [i Hi]. by apply (Ha i v).
  - intros Hn i v Hi. apply to_map_at in Hi; [|done]. congruence.
Qed.

Lemma get_index_spec self key :
  wf self →
  ∃ r, get_index self key = Some r ∧
    match r with
    | Some i => table_ok (metadata self) (slots self) ∧ ∃ v, slots self !! i = Some (Some (key, v))
    | None => absent (slots self) key
    end.
Proof.
  intros Hw. unfold get_index. destruct (Z.eqb_spec (size self) 0) as [Hz|Hz].
  - exists None. split; [done|]. intros i v Hi. pose proof (wf_size _ Hw) as Hs. rewrite Hz in Hs.
    assert (Hin : (key, v) ∈ entries (slots self)) by (apply elem_of_entries; eauto).
    destruct (entries (slots self)); [by apply elem_of_nil in Hin|cbn in Hs; lia].
  - destruct (wf_table _ Hw) as [[_ Hs]|Ht]; [by destruct Hz; rewrite (wf_size _ Hw), Hs|].
    pose proof (tb_cap _ _ Ht) as Hcap. pose proof (is_cap_pos _ Hcap).
    assert (checked_pred (length (metadata self)) = Some (length (metadata self) - 1)%nat) as ->.
    { destruct (length (metadata self)); [lia|]. cbn. by rewrite Nat.sub_0_r. }
    cbn [mbind option_bind]. change (and_mask (ctx_hash key) (length (metadata self) - 1)) with (home (length (metadata self)) key).
    destruct (get_index_loop_spec self key (length (metadata self)) 0 Ht) as (r & Hr & Hspec); [lia|by intros i m s Hi; lia|].
    rewrite pos_0 in Hr by (by apply home_lt). exists r. split; [exact Hr|]. by destruct r.
Qed.

(** The probe of [get_or_put_slot]: where a new entry goes. *)
Definition place_for md sl (key : K) (i : nat) : Prop := sl !! i = Some None ∧ reaches md key i.

(** The first tombstone seen on the way, if any. *)
Definition tombstone_seen md (key : K) (j ft : nat) : Prop :=
  let cap := length md in
  ft = cap ∧ (∀ i, (i < j)%nat → md !! pos cap (home cap key) i ≠ Some SLOT_TOMBSTONE) ∨
  (ft < cap)%nat ∧ ∃ i, (i < j)%nat ∧ (i < cap)%nat ∧ pos cap (home cap key) i = ft ∧ md !! ft = Some SLOT_TOMBSTONE.

Lemma passed_nonfree md sl key j i :
  table_ok md sl → passed md sl key j → (i < j)%nat → md !! pos (length md) (home (length md) key) i ≠ Some SLOT_FREE.
Proof.
  intros Ht Hp Hi Hm. destruct (meta_at md sl (pos (length md) (home (length md) key) i) Ht) as (m & s & Hm' & Hs & _).
  { apply pos_lt, Ht. }
  rewrite Hm in Hm'. injection Hm' as <-. by destruct (Hp i SLOT_FREE s Hi Hm Hs).
Qed.

Lemma place_of_meta md sl key j m s :
  table_ok md sl → passed md sl key j → (j < length md)%nat →
  md !! pos (length md) (home (length md) key) j = Some m → sl !! pos (length md) (home (length md) key) j = Some s →
  meta_ok m s → meta_is_used m = false → place_for md sl key (pos (length md) (home (length md) key) j).
Proof.
  intros Ht Hp Hj Hm Hs Hok Hu. rewrite (used_meta m s Hok) in Hu. apply bool_decide_eq_false in Hu. apply eq_None_not_Some in Hu.
  subst s. split; [done|]. exists j. split_and!; [done..|]. intros i Hi. by eapply passed_nonfree.
Qed.

Lemma passed_le md sl key i j : passed md sl key j → (i <= j)%nat → passed md sl key i.
Proof. intros Hp Hi a m s Ha. apply Hp. lia. Qed.

(** Where the probe stops: the first tombstone, or the free slot. *)
Lemma stop_place md sl key j ft m :
  table_ok md sl → passed md sl key j → tombstone_seen md key j ft → (∃ i, sl !! i = Some None) →
  let cap := length md in
  md !! pos cap (home cap key) j = Some m →
  (j < cap)%nat ∧ m = SLOT_FREE ∨ j = cap →
  place_for md sl key (if (ft <? cap)%nat then ft else pos cap (home cap key) j).
Proof.
  intros Ht Hp Hts Hempty cap Hm Hstop. destruct Hts as [[-> Hno]|(Hft & i & Hij & Hic & Hpos & Htomb)].
  - fold cap. rewrite (proj2 (Nat.ltb_ge cap cap)) by done. destruct Hstop as [[Hj ->]|Hj].
    + destruct (meta_at md sl (pos cap (home cap key) j) Ht) as (m & s & Hm' & Hs & Hok); [apply pos_lt, Ht|].
      unfold cap in *. rewrite Hm in Hm'. injection Hm' as <-. by eapply place_of_meta.
    + destruct Hempty as (i & Hi). assert (Hic : (i < cap)%nat).
      { apply lookup_lt_Some in Hi. by rewrite (table_length _ _ Ht) in Hi. }
      destruct (pos_onto cap (home cap key) i) as (d & Hd & Hpos); [apply Ht|apply home_lt, Ht|done|].
      destruct (meta_at md sl i Ht Hic) as (m' & s & Hm' & Hs & Hok). rewrite Hi in Hs. injection Hs as <-.
      destruct Hok as [-> | ->]; exfalso.
      * rewrite <- Hpos in Hm'. eapply passed_nonfree; [exact Ht|exact Hp| |exact Hm']. lia.
      * apply (Hno d); [lia|]. fold cap. by rewrite Hpos.
  - fold cap in Hft. rewrite (proj2 (Nat.ltb_lt ft cap)) by done. fold cap in Hpos. rewrite <- Hpos in *.
    destruct (meta_at md sl (pos cap (home cap key) i) Ht) as (m' & s & Hm' & Hs & Hok); [apply pos_lt, Ht|].
    rewrite Htomb in Hm'. injection Hm' as <-. eapply place_of_meta; try done. eapply passed_le; [done|lia].
Qed.

Lemma tombstone_seen_S md key j ft m :
  tombstone_seen md key j ft → (j < length md)%nat → md !! pos (length md) (home (length md) key) j = Some m →
  is_cap (length md) →
  tombstone_seen md key (S j)
    (if (ft =? length md)%nat && meta_is_tombstone m then pos (length md) (home (length md) key) j else ft).
Proof.
  intros Hts Hj Hm Hcap. unfold meta_is_tombstone. destruct Hts as [[-> Hno]|(Hft & i & Hij & Hic & Hpos & Htomb)].
  - rewrite Nat.eqb_refl. cbn [andb]. destruct (Z.eqb_spec m SLOT_TOMBSTONE) as [->|Hne].
    + right. split; [by apply pos_lt|]. exists j. split_and!; [lia|done..].
    + left. split; [done|]. intros i Hi. destruct (decide (i = j)) as [->|]; [congruence|]. apply Hno. lia.
  - destruct (Nat.eqb_spec ft (length md)); [lia|]. cbn [andb]. right. split; [done|]. exists i. split_and!; [lia|done..].
Qed.

Lemma get_or_put_loop_spec self key limit j ft :
  table_ok (metadata self) (slots self) → (limit + j = length (metadata self))%nat →
  passed (metadata self) (slots self) key j → tombstone_seen (metadata self) key j ft →
  (∃ i, slots self !! i = Some None) →
  let cap := length (metadata self) in
  ∃ r, get_or_put_loop limit self key (take_fingerprint (ctx_hash key)) (cap - 1) (pos cap (home cap key) j) ft = Some r ∧
    match r with
    | inl i => ∃ v, slots self !! i = Some (Some (key, v))
    | inr (i, ft) =>
        absent (slots self) key ∧
        place_for (metadata self) (slots self) key (if (ft <? cap)%nat then ft else i)
    end.
Proof.
  intros Ht Hlj Hp Hts Hempty cap. revert j ft Hlj Hp Hts. induction limit as [|limit IH]; intros j ft Hlj Hp Hts; cbn [get_or_put_loop];
    (destruct (meta_at _ _ (pos cap (home cap key) j) Ht) as (m & s & Hm & Hs & Hok); [apply pos_lt, Ht|]);
    rewrite Hm; cbn [mbind option_bind]; unfold meta_is_free; destruct (Z.eqb_spec m SLOT_FREE) as [->|Hf].
  1, 2: eexists; (split; [done|]); cbn; split; [eapply passed_absent; [done..|]; left; lia|eapply stop_place; try done; right; lia].
  - eexists. split; [done|]. cbn. split; [eapply passed_absent; [done..|]; right; split; [lia|done]|].
    eapply stop_place; try done. left. split; [lia|done].
  - pose proof (slot_test _ _ _ _ key Hs Hok) as Hst.
    assert (Hgo : holds s key = false → ∀ ft', tombstone_seen (metadata self) key (S j) ft' →
      ∃ r, get_or_put_loop limit self key (take_fingerprint (ctx_hash key)) (cap - 1) (next_index (pos cap (home cap key) j) (cap - 1)) ft' = Some r ∧
        match r with
        | inl i => ∃ v, slots self !! i = Some (Some (key, v))
        | inr (i, ft) => absent (slots self) key ∧ place_for (metadata self) (slots self) key (if (ft <? cap)%nat then ft else i)
        end).
    { intros Hh ft' Hts'. rewrite next_pos by apply Ht. apply IH; [lia| |done]. by eapply passed_S. }
    pose proof (tombstone_seen_S _ _ _ _ m Hts ltac:(lia) Hm (tb_cap _ _ Ht)) as Hts'.
    destruct (meta_is_used m && (meta_fingerprint m =? _)) eqn:Eu.
    + rewrite Hst. cbn. destruct (holds s key) eqn:Eh.
      * eexists. split; [done|]. destruct s as [[k v]|]; [|done]. cbn in Eh. apply bool_decide_eq_true in Eh. subst k. eauto.
      * apply Hgo; [done|]. apply andb_prop in Eu as [Eu _].
        assert (meta_is_tombstone m = false) as Hnt.
        { unfold meta_is_tombstone. destruct (Z.eqb_spec m SLOT_TOMBSTONE) as [->|]; done. }
        by rewrite Hnt, andb_false_r in Hts'.
    + injection Hst as Hh. by apply Hgo.
Qed.

Lemma probe_unused_spec md sl key fuel j :
  table_ok md sl → (fuel + j = length md)%nat → (∀ i, (i < j)%nat → ∃ kv, sl !! pos (length md) (home (length md) key) i = Some (Some kv)) →
  (∃ i, sl !! i = Some None) →
  ∃ i, probe_unused fuel md (length md - 1) (pos (length md) (home (length md) key) j) = Some i ∧ place_for md sl key i.
Proof.
  intros Ht Hf Hused Hempty. revert j Hf Hused. induction fuel as [|fuel IH]; intros j Hf Hused.
  - exfalso. destruct Hempty as (i & Hi). assert (Hic : (i < length md)%nat).
    { apply lookup_lt_Some in Hi. by rewrite (table_length _ _ Ht) in Hi. }
    destruct (pos_onto (length md) (home (length md) key) i) as (d & Hd & Hpos); [apply Ht|apply home_lt, Ht|done|].
    destruct (Hused d) as [kv Hkv]; [lia|]. rewrite Hpos in Hkv. congruence.
  - cbn [probe_unused]. destruct (meta_at md sl (pos (length md) (home (length md) key) j) Ht) as (m & s & Hm & Hs & Hok); [apply pos_lt, Ht|].
    rewrite Hm. cbn [mbind option_bind]. rewrite (used_meta m s Hok). destruct s as [kv|].
    + rewrite bool_decide_true by done. rewrite next_pos by apply Ht. apply IH; [lia|]. intros i Hi.
      destruct (decide (i = j)) as [->|]; [eauto|]. apply Hused. lia.
    + rewrite bool_decide_false by (intros [? ?]; done). eexists. split; [done|]. split; [done|]. exists j. split_and!; [lia|done|].
      intros i Hi Hfree. destruct (Hused i Hi) as [kv Hkv].
      destruct (meta_at md sl (pos (length md) (home (length md) key) i) Ht) as (m' & s' & Hm' & Hs' & Hok'); [apply pos_lt, Ht|].
      rewrite Hfree in Hm'. injection Hm' as <-. apply free_meta in Hok'; [|done]. congruence.
Qed.

(** ** Changing one slot *)

Lemma reaches_mono md md' k i :
  length md' = length md → (∀ j, md' !! j = Some SLOT_FREE → md !! j = Some SLOT_FREE) → reaches md k i → reaches md' k i.
Proof.
  intros Hl Hf (d & Hd & Hpos & Hr). unfold reaches. rewrite Hl. exists d. split_and!; [done..|]. intros j Hj Hfree.
  by apply (Hr j Hj), Hf.
Qed.

Lemma insert_nonfree md i m j : m ≠ SLOT_FREE → <[i := m]> md !! j = Some SLOT_FREE → md !! j = Some SLOT_FREE.
Proof. intros Hm. rewrite list_lookup_insert_Some. naive_solver. Qed.

Lemma fill_nonfree fp : meta_fill fp ≠ SLOT_FREE.
Proof. intros Hf. pose proof (used_fill fp) as Hu. by rewrite Hf in Hu. Qed.

Lemma table_fill md sl key value i :
  table_ok md sl → place_for md sl key i → absent sl key →
  table_ok (<[i := meta_fill (take_fingerprint (ctx_hash key))]> md) (<[i := Some (key, value)]> sl).
Proof.
  intros Ht [Hi Hr] Ha. assert (Hlt : (i < length sl)%nat) by (by apply lookup_lt_Some in Hi). split.
  - rewrite length_insert. apply Ht.
  - apply Forall2_insert; [apply Ht|done].
  - rewrite (entries_fill _ _ _ Hi). cbn. constructor; [|apply Ht].
    intros ([k v] & -> & Hin)%list_elem_of_fmap. apply elem_of_entries in Hin as [j Hj]. by apply (Ha j v).
  - intros j k v Hj. eapply reaches_mono; [apply length_insert|intros a; apply insert_nonfree, fill_nonfree|].
    rewrite list_lookup_insert_Some in Hj. destruct Hj as [(-> & [= -> ->] & _)|[_ Hj]]; [done|]. by eapply tb_reach.
Qed.

Lemma table_remove md sl key value i :
  table_ok md sl → sl !! i = Some (Some (key, value)) → table_ok (<[i := SLOT_TOMBSTONE]> md) (<[i := None]> sl).
Proof.
  intros Ht Hi. split.
  - rewrite length_insert. apply Ht.
  - apply Forall2_insert; [apply Ht|by right].
  - pose proof (tb_nodup _ _ Ht) as Hn. rewrite (entries_clear _ _ _ Hi) in Hn. cbn in Hn. by apply NoDup_cons in Hn as [_ Hn].
  - intros j k v Hj. eapply reaches_mono; [apply length_insert|intros a; by apply insert_nonfree|].
    rewrite list_lookup_insert_Some in Hj. destruct Hj as [(_ & ? & _)|[_ Hj]]; [done|]. by eapply tb_reach.
Qed.

Lemma table_update md sl key value value' i :
  table_ok md sl → sl !! i = Some (Some (key, value)) → table_ok md (<[i := Some (key, value')]> sl).
Proof.
  intros Ht Hi. assert (Hlt : (i < length sl)%nat) by (by apply lookup_lt_Some in Hi). split.
  - apply Ht.
  - pose proof (tb_meta _ _ Ht) as Hm. destruct (Forall2_lookup_r _ _ _ _ _ Hm Hi) as (m & Hmd & Hok).
    rewrite <- (list_insert_id md i m Hmd). by apply Forall2_insert.
  - pose proof (tb_nodup _ _ Ht) as Hn. rewrite (entries_clear _ _ _ Hi) in Hn.
    replace (<[i := Some (key, value')]> sl) with (<[i := Some (key, value')]> (<[i := None]> sl)) by apply list_insert_insert_eq.
    rewrite entries_fill; [exact Hn|]. by apply list_lookup_insert_eq.
  - intros j k v Hj. rewrite list_lookup_insert_Some in Hj. destruct Hj as [(-> & [= -> ->] & _)|[_ Hj]]; by eapply tb_reach.
Qed.

(** ** Operations on well-formed maps *)

Lemma wf_bounds self : wf self → 0 <= size self < 2 ^ 31 ∧ 0 <= available self < 2 ^ 31 ∧ size self <= max_load (length (metadata self)).
Proof.
  intros Hw. pose proof (wf_size _ Hw). pose proof (wf_available _ Hw). pose proof (wf_room _ Hw).
  assert (Z.of_nat (length (metadata self)) <= 2 ^ 31).
  { destruct (wf_table _ Hw) as [[-> _]|Ht]; [done|]. apply is_cap_pos, Ht. }
  pose proof (max_load_bounds (length (metadata self))). lia.
Qed.

Lemma u32_ok z : 0 <= z < 2 ^ 32 → u32 z = Some z.
Proof. intros H1. unfold u32. destruct (Z.leb_spec 0 z), (Z.ltb_spec z (2 ^ 32)); try lia. done. Qed.

Lemma store_ok {A} (l : list A) i x : (i < length l)%nat → store l i x = Some (<[i := x]> l).
Proof. intros H1. unfold store. by rewrite (proj2 (Nat.ltb_lt _ _)). Qed.

(** Room left means an empty slot. *)
Lemma wf_empty_slot self : wf self → table_ok (metadata self) (slots self) → 0 < available self → ∃ i, slots self !! i = Some None.
Proof.
  intros Hw Ht Ha. apply empty_slot. rewrite (table_length _ _ Ht). pose proof (wf_size _ Hw). pose proof (wf_available _ Hw).
  pose proof (is_cap_pos _ (tb_cap _ _ Ht)) as [H8 H31]. pose proof (max_load_bounds _ H31) as [_ Hml]. lia.
Qed.

Lemma wf_fill self key value i :
  wf self → table_ok (metadata self) (slots self) → 0 < available self →
  place_for (metadata self) (slots self) key i → absent (slots self) key →
  let self' := mkHashMap (<[i := meta_fill (take_fingerprint (ctx_hash key))]> (metadata self))
                 (<[i := Some (key, value)]> (slots self)) (size self + 1) (available self - 1) in
  wf self' ∧ to_map self' = <[key := value]> (to_map self).
Proof.
  intros Hw Ht Ha Hpl Hab self'. pose proof (table_fill _ _ key value i Ht Hpl Hab) as Ht'. destruct Hpl as [Hi _]. split.
  - pose proof (wf_size _ Hw). pose proof (wf_available _ Hw). split; cbn.
    + by right.
    + rewrite (entries_fill _ _ _ Hi). cbn. lia.
    + rewrite length_insert. lia.
    + lia.
  - unfold to_map. cbn. rewrite (list_to_map_proper _ ((key, value) :: entries (slots self))); [done|apply Ht'|].
    by apply entries_fill.
Qed.

Lemma put_assume_spec self key value :
  wf self → table_ok (metadata self) (slots self) → 0 < available self → to_map self !! key = None →
  ∃ self', put_assume_capacity_no_clobber self key value = Some self' ∧ wf self' ∧
    to_map self' = <[key := value]> (to_map self) ∧ length (metadata self') = length (metadata self) ∧
    size self' = size self + 1 ∧ available self' = available self - 1 ∧ table_ok (metadata self') (slots self').
Proof.
  intros Hw Ht Ha Hnone. apply to_map_absent in Hnone; [|done].
  pose proof (is_cap_pos _ (tb_cap _ _ Ht)) as [H8 H31]. pose proof (wf_bounds _ Hw).
  destruct (probe_unused_spec (metadata self) (slots self) key (length (metadata self)) 0 Ht) as (i & Hp & Hpl);
    [lia|lia|by apply wf_empty_slot|].
  rewrite pos_0 in Hp by apply home_lt, Ht. unfold put_assume_capacity_no_clobber.
  assert (checked_pred (length (metadata self)) = Some (length (metadata self) - 1)%nat) as ->.
  { destruct (length (metadata self)); [lia|]. cbn. by rewrite Nat.sub_0_r. }
  cbn [mbind option_bind]. fold (home (length (metadata self)) key). rewrite Hp. cbn [mbind option_bind].
  rewrite (proj2 (Z.ltb_lt _ _) Ha). cbn [debug_assert mbind option_bind].
  assert (Hi : (i < length (slots self))%nat) by (destruct Hpl as [Hi _]; by apply lookup_lt_Some in Hi).
  assert (Hi' : (i < length (metadata self))%nat) by (by rewrite <- (table_length _ _ Ht)).
  rewrite (u32_ok (available self - 1)) by lia. cbn [mbind option_bind]. rewrite (store_ok (metadata self)) by done. cbn [mbind option_bind].
  rewrite (store_ok (slots self)) by done. cbn [mbind option_bind]. rewrite u32_ok by lia. cbn [mbind option_bind].
  destruct (wf_fill self key value i Hw Ht Ha Hpl Hnone) as [Hw' Hm']. eexists. split; [reflexivity|].
  split_and!; [done|done|by apply length_insert|done|done|by apply table_fill].
Qed.

(** ** Growth *)

Lemma reinsert_spec md sl n map :
  Forall2 meta_ok md sl → NoDup (entries sl).*1 → wf map → table_ok (metadata map) (slots map) →
  (∀ k, k ∈ (entries sl).*1 → to_map map !! k = None) →
  size map + Z.of_nat (length (entries sl)) = n → Z.of_nat (length (entries sl)) <= available map →
  ∃ map', reinsert md sl n map = Some map' ∧ wf map' ∧ table_ok (metadata map') (slots map') ∧
    to_map map' = list_to_map (entries sl) ∪ to_map map ∧ size map' = n ∧ length (metadata map') = length (metadata map).
Proof.
  intros Hf. revert map. induction Hf as [|m s md sl Hms Hf IH]; intros map Hnd Hw Ht Hfresh Hn Hav.
  - exists map. cbn in *. split_and!; try done; [|lia]. by rewrite (left_id_L ∅ (∪)).
  - cbn [reinsert]. rewrite (used_meta m s Hms). destruct s as [[k v]|].
    2: { rewrite bool_decide_false by (intros [? ?]; done). cbn [negb]. by apply IH. }
    rewrite bool_decide_true by done. cbn [negb]. change (entries (Some (k, v) :: sl)) with ((k, v) :: entries sl) in *.
    cbn [fmap list_fmap length] in *. apply NoDup_cons in Hnd as [Hk Hnd].
    destruct (put_assume_spec map k v Hw Ht) as (map1 & -> & Hw1 & Hm1 & Hl1 & Hs1 & Ha1 & Ht1); [cbn in Hav; lia|apply Hfresh; set_solver|].
    cbn [mbind option_bind]. assert (Hlk : (list_to_map (entries sl) : gmap K V) !! k = None) by (by apply not_elem_of_list_to_map_1).
    assert (Hun : (list_to_map ((k, v) :: entries sl) : gmap K V) ∪ to_map map = list_to_map (entries sl) ∪ to_map map1).
    { cbn. rewrite Hm1. rewrite <- insert_union_l, insert_union_r by done. done. }
    destruct (Z.eqb_spec (size map1) n) as [He|He].
    + assert (entries sl = []) as Hnil by (destruct (entries sl); [done|cbn in *; lia]).
      exists map1. split_and!; try done. rewrite Hun, Hnil. cbn. by rewrite (left_id_L ∅ (∪)).
    + destruct (IH map1 Hnd Hw1 Ht1) as (map' & Hr & Hw' & Ht' & Hm' & Hs' & Hl').
      * intros k' Hk'. rewrite Hm1, lookup_insert_ne by (intros ->; done). apply Hfresh. set_solver.
      * cbn in Hn. lia.
      * cbn in Hav. lia.
      * exists map'. split_and!; try done; [by rewrite Hun|by rewrite Hl'].
Qed.

Lemma entries_replicate n : entries (replicate n None) = [].
Proof. unfold entries. by induction n. Qed.

Definition fresh_table (n : nat) : HashMap K V := mkHashMap (replicate n SLOT_FREE) (replicate n None) 0 (max_load n).

Lemma fresh_table_ok n : is_cap n → table_ok (metadata (fresh_table n)) (slots (fresh_table n)) ∧ wf (fresh_table n) ∧ to_map (fresh_table n) = ∅.
Proof.
  intros Hc. assert (Ht : table_ok (metadata (fresh_table n)) (slots (fresh_table n))).
  { split; cbn.
    - by rewrite length_replicate.
    - apply Forall2_replicate. by left.
    - rewrite entries_replicate. constructor.
    - intros i k v [? _]%lookup_replicate. done. }
  split_and!; [done| |unfold to_map; cbn; by rewrite entries_replicate].
  apply is_cap_pos in Hc as [_ H31]. pose proof (max_load_bounds n H31). split; cbn; [by right|by rewrite entries_replicate|rewrite length_replicate; lia|lia].
Qed.

Lemma pow2_is_power k : 0 <= k → is_power_of_two (2 ^ k) = true.
Proof.
  intros Hk. unfold is_power_of_two. pose proof (Z.pow_pos_nonneg 2 k).
  rewrite (proj2 (Z.ltb_lt 0 (2 ^ k))) by lia. cbn [andb]. rewrite Z.sub_1_r, <- Z.ones_equiv, Z.land_ones by lia.
  rewrite Z_mod_same_full. done.
Qed.

Lemma grow_spec self k :
  wf self → 3 <= k <= 31 → Z.of_nat (length (metadata self)) < 2 ^ k → size self <= max_load (Z.to_nat (2 ^ k)) →
  ∃ self', grow self (2 ^ k) = Some self' ∧ wf self' ∧ table_ok (metadata self') (slots self') ∧
    to_map self' = to_map self ∧ size self' = size self ∧ length (metadata self') = Z.to_nat (2 ^ k).
Proof.
  intros Hw Hk Hlt Hsz. unfold grow. pose proof (Z.pow_le_mono_r 2 3 k ltac:(lia) ltac:(lia)) as H8.
  rewrite Z.max_l by (unfold MINIMAL_CAPACITY; lia). rewrite (proj2 (Z.ltb_lt _ _) Hlt). cbn [debug_assert mbind option_bind].
  rewrite pow2_is_power by lia. cbn [debug_assert mbind option_bind]. set (n := Z.to_nat (2 ^ k)) in *. fold (fresh_table n).
  assert (Hcap : is_cap n) by (exists k; unfold n; lia). destruct (fresh_table_ok n Hcap) as (Ht & Hwf & Hem).
  assert (Hlen : length (metadata (fresh_table n)) = n) by (cbn; by rewrite length_replicate).
  destruct (Z.eqb_spec (size self) 0) as [Hz|Hz].
  - eexists. split; [reflexivity|]. split_and!; try done. rewrite Hem. unfold to_map. pose proof (wf_size _ Hw) as Hs.
    destruct (entries (slots self)); [done|cbn in Hs; lia].
  - destruct (wf_table _ Hw) as [[_ Hs]|Hts]; [by destruct Hz; rewrite (wf_size _ Hw), Hs|].
    destruct (reinsert_spec (metadata self) (slots self) (size self) (fresh_table n)) as (self' & Hr & Hw' & Ht' & Hm' & Hs' & Hl');
      try done; try apply Hts.
    + intros key _. by rewrite Hem.
    + cbn. by rewrite (wf_size _ Hw).
    + rewrite <- (wf_size _ Hw). exact Hsz.
    + exists self'. split; [exact Hr|]. split_and!; try done; [|by rewrite Hl'].
      rewrite Hm', Hem. by rewrite (right_id_L ∅ (∪)).
Qed.

Lemma wf_table_of_room self : wf self → 0 < available self → table_ok (metadata self) (slots self).
Proof.
  intros Hw Ha. destruct (wf_table _ Hw) as [[Hmd _]|Ht]; [|done]. pose proof (wf_available _ Hw) as He. pose proof (wf_bounds _ Hw).
  rewrite Hmd in He. change (max_load (length (@nil Z))) with 0 in He. lia.
Qed.

(** After [grow_if_needed] there is room, and the contents are the same. *)
Lemma grow_if_needed_spec self n :
  wf self → 0 < n → size self + n <= MAX_ENTRIES →
  ∃ self', grow_if_needed self n = Some self' ∧ wf self' ∧ table_ok (metadata self') (slots self') ∧
    to_map self' = to_map self ∧ size self' = size self ∧ n <= available self'.
Proof.
  intros Hw Hn Hmax. unfold grow_if_needed. pose proof (wf_bounds _ Hw) as (Hsz & Hav & Hld). pose proof (wf_available _ Hw) as Hae.
  destruct (Z.ltb_spec (available self) n) as [Hlt|Hge].
  2: { exists self. split_and!; try done; try lia. apply wf_table_of_room; [done|lia]. }
  unfold load. rewrite (proj2 (Z.leb_le _ _)) by lia. cbn [debug_assert mbind option_bind].
  replace (max_load (length (metadata self)) - available self + n) with (size self + n) by lia.
  rewrite u32_ok by (unfold MAX_ENTRIES in Hmax; lia). cbn [mbind option_bind].
  destruct (capacity_for_size_spec (size self + n)) as (k0 & Hk0 & -> & Hcap); [lia|]. cbn [mbind option_bind].
  (* the table has at least eight slots *)
  assert (Hk : ∃ k, 3 <= k <= 31 ∧ grow self (2 ^ k0) = grow self (2 ^ k) ∧ 2 ^ k0 <= 2 ^ k).
  { destruct (decide (3 <= k0)); [exists k0; split; [lia|by split]|]. exists 3. split; [lia|]. pose proof (Z.pow_le_mono_r 2 k0 3 ltac:(lia) ltac:(lia)).
    unfold grow, MINIMAL_CAPACITY. by rewrite (Z.max_r (2 ^ k0)), (Z.max_l (2 ^ 3)) by lia. }
  destruct Hk as (k & Hk & -> & Hle).
  assert (H31 : Z.of_nat (Z.to_nat (2 ^ k)) = 2 ^ k) by (rewrite Z2Nat.id; lia).
  pose proof (Z.pow_le_mono_r 2 k 31 ltac:(lia) ltac:(lia)) as Hp31.
  assert (Hnew : size self + n <= max_load (Z.to_nat (2 ^ k))).
  { rewrite max_load_spec, H31 by lia. apply Z.div_le_lower_bound; [lia|]. Z.to_euclidean_division_equations. lia. }
  assert (Hold : Z.of_nat (length (metadata self)) < 2 ^ k).
  { destruct (wf_table _ Hw) as [[-> _]|Ht]; [cbn; lia|]. pose proof (is_cap_pos _ (tb_cap _ _ Ht)) as [_ Hc31].
    rewrite max_load_spec in Hae by done. Z.to_euclidean_division_equations. lia. }
  destruct (grow_spec self k Hw Hk Hold ltac:(lia)) as (self' & Hg & Hw' & Ht' & Hm' & Hs' & Hl'). exists self'.
  split_and!; try done. rewrite (wf_available _ Hw'), Hl'. lia.
Qed.

(** ** Insertion, removal, writes *)

Lemma pred_cap self : table_ok (metadata self) (slots self) →
  checked_pred (length (metadata self)) = Some (length (metadata self) - 1)%nat.
Proof.
  intros Ht. pose proof (is_cap_pos _ (tb_cap _ _ Ht)) as [H8 _]. destruct (length (metadata self)); [lia|]. cbn. by rewrite Nat.sub_0_r.
Qed.

Lemma get_or_put_slot_spec self key :
  wf self → size self + 1 <= MAX_ENTRIES →
  ∃ g, wf g ∧ to_map g = to_map self ∧ size g = size self ∧
  ((∃ idx v, get_or_put_slot self key = Some (g, (idx, true)) ∧ slots g !! idx = Some (Some (key, v))) ∨
   (∃ idx, to_map g !! key = None ∧
      get_or_put_slot self key =
        Some (mkHashMap (<[idx := meta_fill (take_fingerprint (ctx_hash key))]> (metadata g)) (slots g) (size g + 1) (available g - 1), (idx, false)) ∧
      ∀ value, ∃ g', fill_slot (mkHashMap (<[idx := meta_fill (take_fingerprint (ctx_hash key))]> (metadata g)) (slots g) (size g + 1) (available g - 1))
          idx key value = Some g' ∧ wf g' ∧ to_map g' = <[key := value]> (to_map g) ∧ slots g' !! idx = Some (Some (key, value)))).
Proof.
  intros Hw Hmax. destruct (grow_if_needed_spec self 1 Hw ltac:(lia) Hmax) as (g & Hg & Hwg & Ht & Hm & Hs & Ha).
  exists g. split_and!; [done..|]. unfold get_or_put_slot. rewrite Hg. cbn [mbind option_bind]. rewrite (pred_cap g Ht). cbn [mbind option_bind].
  fold (home (length (metadata g)) key). pose proof (home_lt (length (metadata g)) key (tb_cap _ _ Ht)) as Hh.
  destruct (get_or_put_loop_spec g key (length (metadata g)) 0 (length (metadata g)) Ht) as (r & Hr & Hspec).
  { lia. } { intros i m s Hi. lia. } { left. split; [done|]. intros i Hi. lia. } { apply wf_empty_slot; [done..|lia]. }
  rewrite pos_0 in Hr by done. rewrite Hr. cbn [mbind option_bind]. destruct r as [idx|[i ft]].
  - left. destruct Hspec as [v Hv]. by exists idx, v.
  - right. destruct Hspec as [Hab Hpl]. set (idx := if (ft <? _)%nat then ft else i) in *. exists idx.
    pose proof (wf_bounds _ Hwg). assert (Hi : (idx < length (slots g))%nat) by (destruct Hpl as [Hi _]; by apply lookup_lt_Some in Hi).
    assert (Hi' : (idx < length (metadata g))%nat) by (by rewrite <- (table_length _ _ Ht)).
    split_and!.
    + by apply to_map_absent.
    + rewrite (u32_ok (available g - 1)) by lia. cbn [mbind option_bind]. rewrite store_ok by done. cbn [mbind option_bind].
      by rewrite u32_ok by lia.
    + intros value. unfold fill_slot. cbn [slots]. rewrite store_ok by done. cbn [mbind option_bind].
      destruct (wf_fill g key value idx Hwg Ht ltac:(lia) Hpl Hab) as [Hw' Hm']. eexists. split_and!; [reflexivity|done|done|].
      cbn. by apply list_lookup_insert_eq.
Qed.

Lemma write_value_spec self i f k v :
  wf self → slots self !! i = Some (Some (k, v)) →
  ∃ self', write_value self i f = Some self' ∧ wf self' ∧ to_map self' = <[k := f v]> (to_map self) ∧
    slots self' = <[i := Some (k, f v)]> (slots self) ∧ size self' = size self.
Proof.
  intros Hw Hi. unfold write_value, slot. rewrite Hi. cbn [mbind option_bind fst snd].
  assert (Hlt : (i < length (slots self))%nat) by (by apply lookup_lt_Some in Hi).
  rewrite store_ok by done. cbn [mbind option_bind]. eexists. split; [reflexivity|].
  destruct (wf_table _ Hw) as [[_ Hs]|Ht]; [rewrite Hs in Hi; done|].
  pose proof (table_update _ _ _ _ (f v) _ Ht Hi) as Ht'.
  assert (Hins : <[i := Some (k, f v)]> (slots self) = <[i := Some (k, f v)]> (<[i := None]> (slots self))) by (symmetry; apply list_insert_insert_eq).
  assert (Hp : entries (<[i := Some (k, f v)]> (slots self)) ≡ₚ (k, f v) :: entries (<[i := None]> (slots self))).
  { rewrite Hins. apply entries_fill. by apply list_lookup_insert_eq. }
  assert (Hlen : length (entries (<[i := Some (k, f v)]> (slots self))) = length (entries (slots self))).
  { rewrite Hp. by rewrite (entries_clear _ _ _ Hi). }
  split_and!; [|unfold to_map; cbn|done..].
  - split; cbn [metadata slots size available]; [by right|by rewrite Hlen; apply Hw|apply Hw..].
  - rewrite (list_to_map_proper _ _ (tb_nodup _ _ Ht') Hp).
    rewrite (list_to_map_proper (entries (slots self)) _ (tb_nodup _ _ Ht) (entries_clear _ _ _ Hi)). cbn. by rewrite insert_insert_eq.
Qed.

Lemma remove_by_index_spec self i k v :
  wf self → slots self !! i = Some (Some (k, v)) →
  ∃ self', remove_by_index self i = Some (self', Some (k, v)) ∧ wf self' ∧ to_map self' = delete k (to_map self) ∧
    slots self' = <[i := None]> (slots self).
Proof.
  intros Hw Hi. assert (Hlt : (i < length (slots self))%nat) by (by apply lookup_lt_Some in Hi).
  destruct (wf_table _ Hw) as [[_ Hs]|Ht]; [rewrite Hs in Hi; done|].
  assert (Hlt' : (i < length (metadata self))%nat) by (by rewrite <- (table_length _ _ Ht)).
  pose proof (entries_clear _ _ _ Hi) as Hp. pose proof (wf_bounds _ Hw). pose proof (wf_size _ Hw) as Hsz.
  assert (Hlen : length (entries (slots self)) = S (length (entries (<[i := None]> (slots self))))) by (by rewrite Hp).
  pose proof (wf_available _ Hw) as Hav. pose proof (wf_room _ Hw).
  unfold remove_by_index, slot. rewrite (store_ok (metadata self)) by done. cbn [mbind option_bind]. rewrite Hi. cbn [mbind option_bind].
  rewrite (store_ok (slots self)) by done. cbn [mbind option_bind]. rewrite (u32_ok (size self - 1)) by lia. cbn [mbind option_bind].
  rewrite u32_ok by lia. cbn [mbind option_bind]. eexists. split; [reflexivity|].
  pose proof (table_remove _ _ _ _ _ Ht Hi) as Ht'. split_and!; [|unfold to_map; cbn|done].
  - split; cbn [metadata slots size available]; [by right|lia|rewrite length_insert; lia|lia].
  - rewrite (list_to_map_proper (entries (slots self)) _ (tb_nodup _ _ Ht) Hp). cbn.
    pose proof (tb_nodup _ _ Ht) as Hn. rewrite Hp in Hn. cbn in Hn. apply NoDup_cons in Hn as [Hn _].
    rewrite delete_insert_id; [done|]. by apply not_elem_of_list_to_map_1.
Qed.

(** ** [retain] *)

(** [keep] over a list of entries, in order: its last state and what it keeps. *)
Fixpoint keep_all {S : Type} (keep : S → K → V → S * (V * bool)) (st : S) (l : list (K * V)) : S * list (K * V) :=
  match l with
  | [] => (st, [])
  | (k, v) :: l =>
      let '(st, (v, kept)) := keep st k v in
      let '(st, l) := keep_all keep st l in
      (st, if (kept : bool) then (k, v) :: l else l)
  end.

Lemma retain_loop_spec {S : Type} (keep : S → K → V → S * (V * bool)) suf pre self st :
  wf self → slots self = pre ++ suf →
  ∃ self' suf', retain_loop keep (seq (length pre) (length suf)) self st = Some (self', (keep_all keep st (entries suf)).1) ∧
    wf self' ∧ slots self' = pre ++ suf' ∧ entries suf' = (keep_all keep st (entries suf)).2.
Proof.
  revert pre self st. induction suf as [|s suf IH]; intros pre self st Hw Hs.
  - exists self, []. by cbn.
  - cbn [length seq retain_loop]. assert (Hi : slots self !! length pre = Some s) by (by rewrite Hs; apply list_lookup_middle).
    assert (Hgo : ∀ self1 s1 st1, wf self1 → slots self1 = pre ++ s1 :: suf →
      ∃ self' suf', retain_loop keep (seq (Datatypes.S (length pre)) (length suf)) self1 st1 = Some (self', (keep_all keep st1 (entries suf)).1) ∧
        wf self' ∧ slots self' = pre ++ s1 :: suf' ∧ entries suf' = (keep_all keep st1 (entries suf)).2).
    { intros self1 s1 st1 Hw1 Hs1. destruct (IH (pre ++ [s1]) self1 st1 Hw1) as (self' & suf' & Hr & Hw' & Hs' & He').
      { by rewrite Hs1, <- (assoc app). }
      exists self', suf'. rewrite length_app, Nat.add_1_r in Hr. split_and!; [done..| |done]. by rewrite Hs', <- (assoc app). }
    unfold slot. rewrite Hi. cbn [mbind option_bind]. destruct s as [[k v]|].
    2: { destruct (Hgo self None st Hw Hs) as (self' & suf' & Hr & Hw' & Hs' & He'). by exists self', (None :: suf'). }
    change (entries (Some (k, v) :: suf)) with ((k, v) :: entries suf). cbn [keep_all].
    destruct (keep st k v) as [st1 [v1 kept]].
    destruct (write_value_spec self (length pre) (λ _, v1) k v Hw Hi) as (self1 & -> & Hw1 & _ & Hs1 & _). cbn [mbind option_bind].
    rewrite Hs, insert_app_r_alt, Nat.sub_diag in Hs1 by done. cbn in Hs1.
    destruct kept.
    + cbn [mbind option_bind]. destruct (Hgo self1 (Some (k, v1)) st1 Hw1 Hs1) as (self' & suf' & Hr & Hw' & Hs' & He').
      exists self', (Some (k, v1) :: suf'). destruct (keep_all keep st1 (entries suf)) as [st2 l2]. cbn [fst snd] in *.
      split_and!; [done..|]. by rewrite <- He'.
    + assert (Hi1 : slots self1 !! length pre = Some (Some (k, v1))) by (by rewrite Hs1; apply list_lookup_middle).
      destruct (remove_by_index_spec self1 (length pre) k v1 Hw1 Hi1) as (self2 & -> & Hw2 & _ & Hs2). cbn [mbind option_bind fst].
      rewrite Hs1, insert_app_r_alt, Nat.sub_diag in Hs2 by done. cbn in Hs2.
      destruct (Hgo self2 None st1 Hw2 Hs2) as (self' & suf' & Hr & Hw' & Hs' & He').
      exists self', (None :: suf'). destruct (keep_all keep st1 (entries suf)) as [st2 l2]. cbn [fst snd] in *. by split_and!.
Qed.

Lemma retain_spec {S : Type} (keep : S → K → V → S * (V * bool)) self st :
  wf self →
  ∃ self', retain keep self st = Some (self', (keep_all keep st (entries (slots self))).1) ∧ wf self' ∧
    entries (slots self') = (keep_all keep st (entries (slots self))).2.
Proof.
  intros Hw. destruct (retain_loop_spec keep (slots self) [] self st Hw eq_refl) as (self' & suf' & Hr & Hw' & Hs' & He).
  exists self'. rewrite Hs'. by split_and!.
Qed.

(** ** Iteration *)

Lemma next_used_spec self md suf pre rem kv rest :
  Forall2 meta_ok md suf → slots self = pre ++ suf → entries suf = kv :: rest → 0 < rem < 2 ^ 31 →
  ∃ pre' suf', next_used self md (length pre) rem = Some (Some kv, mkIter (length pre') (rem - 1)) ∧
    slots self = pre' ++ suf' ∧ entries suf' = rest ∧ (length suf' < length suf)%nat.
Proof.
  intros Hf. revert pre. induction Hf as [|m s md suf Hms Hf IH]; intros pre Hs He Hrem; [done|].
  cbn [next_used]. rewrite (used_meta m s Hms). destruct s as [kv'|].
  - rewrite bool_decide_true by done. change (entries (Some kv' :: suf)) with (kv' :: entries suf) in He. injection He as -> <-.
    rewrite u32_ok by lia. cbn [mbind option_bind]. unfold slot. rewrite Hs, list_lookup_middle by done. cbn [mbind option_bind].
    exists (pre ++ [Some kv]), suf. rewrite length_app. split_and!; [done| |done|cbn; lia]. by rewrite <- (assoc app).
  - rewrite bool_decide_false by (intros [? ?]; done). change (entries (None :: suf)) with (entries suf) in He.
    destruct (IH (pre ++ [None])) as (pre' & suf' & Hn & Hs' & He' & Hl'); [by rewrite <- (assoc app)|done..|].
    rewrite length_app in Hn. exists pre', suf'. split_and!; [done..|cbn; lia].
Qed.

Lemma collect_spec self fuel pre suf :
  wf self → slots self = pre ++ suf → (length suf < fuel)%nat →
  collect fuel self (mkIter (length pre) (Z.of_nat (length (entries suf)))) = Some (entries suf).
Proof.
  intros Hw. revert pre suf. induction fuel as [|fuel IH]; intros pre suf Hs Hf; [lia|]. cbn [collect]. unfold next. cbn [remaining it_idx].
  destruct (Z.eqb_spec (Z.of_nat (length (entries suf))) 0) as [Hz|Hz].
  - cbn [mbind option_bind]. by destruct (entries suf).
  - destruct (entries suf) as [|kv rest] eqn:Ee; [done|].
    destruct (wf_table _ Hw) as [[_ Hnil]|Ht]; [rewrite Hnil in Hs; destruct pre, suf; done|].
    pose proof (tb_meta _ _ Ht) as Hm. rewrite Hs in Hm.
    pose proof (Forall2_drop _ _ _ (length pre) Hm) as Hd. rewrite drop_app_length in Hd.
    assert (Hlt : Z.of_nat (length (kv :: rest)) < 2 ^ 31).
    { pose proof (wf_bounds _ Hw) as [Hb _]. rewrite (wf_size _ Hw), Hs, entries_app, length_app, Ee in Hb. lia. }
    destruct (next_used_spec self _ suf pre (Z.of_nat (length (kv :: rest))) kv rest Hd Hs Ee) as (pre' & suf' & -> & Hs' & He' & Hl'); [lia|].
    cbn [mbind option_bind]. replace (Z.of_nat (length (kv :: rest)) - 1) with (Z.of_nat (length (entries suf'))) by (rewrite He'; cbn; lia).
    rewrite IH; [by rewrite <- He'|done|lia].
Qed.

Lemma items_spec self : wf self → items self = Some (entries (slots self)).
Proof.
  intros Hw. unfold items, iter. rewrite (wf_size _ Hw). apply (collect_spec self _ [] (slots self) Hw eq_refl).
  destruct (wf_table _ Hw) as [[-> ->]|Ht]; [cbn; lia|]. rewrite (table_length _ _ Ht). lia.
Qed.

Lemma iter_mut_spec f md suf pre self :
  Forall2 meta_ok md suf → wf self → slots self = pre ++ suf → Z.of_nat (length (entries suf)) < 2 ^ 32 →
  ∃ self' suf', iter_mut_loop f md (length pre) (Z.of_nat (length (entries suf))) self = Some self' ∧ wf self' ∧
    slots self' = pre ++ suf' ∧ entries suf' = (λ kv, (kv.1, f kv.1 kv.2)) <$> entries suf.
Proof.
  intros Hf. revert pre self. induction Hf as [|m s md suf Hms Hf IH]; intros pre self Hw Hs Hlen; cbn [iter_mut_loop].
  - exists self, []. rewrite Z.eqb_refl. by split_and!.
  - destruct (Z.eqb_spec (Z.of_nat (length (entries (s :: suf)))) 0) as [Hz|Hz].
    { exists self, (s :: suf). split_and!; [done..|]. by destruct (entries (s :: suf)). }
    rewrite (used_meta m s Hms). destruct s as [[k v]|].
    + rewrite bool_decide_true by done. change (entries (Some (k, v) :: suf)) with ((k, v) :: entries suf) in *. cbn [length] in *.
      rewrite u32_ok by lia. cbn [mbind option_bind]. assert (Hi : slots self !! length pre = Some (Some (k, v))) by (by rewrite Hs; apply list_lookup_middle).
      unfold slot. rewrite Hi. cbn [mbind option_bind fst snd].
      destruct (write_value_spec self (length pre) (f k) k v Hw Hi) as (self1 & -> & Hw1 & _ & Hs1 & _). cbn [mbind option_bind].
      rewrite Hs, insert_app_r_alt, Nat.sub_diag in Hs1 by done. cbn in Hs1.
      destruct (IH (pre ++ [Some (k, f k v)]) self1 Hw1) as (self' & suf' & Hr & Hw' & Hs' & He'); [by rewrite Hs1, <- (assoc app)|lia|].
      exists self', (Some (k, f k v) :: suf'). rewrite length_app in Hr. replace (Z.of_nat (S (length (entries suf))) - 1) with (Z.of_nat (length (entries suf))) by lia.
      split_and!; [done..|by rewrite Hs', <- (assoc app)|]. change (entries (Some (k, f k v) :: suf')) with ((k, f k v) :: entries suf'). by rewrite He'.
    + rewrite bool_decide_false by (intros [? ?]; done). change (entries (None :: suf)) with (entries suf) in *.
      destruct (IH (pre ++ [None]) self Hw) as (self' & suf' & Hr & Hw' & Hs' & He'); [by rewrite Hs, <- (assoc app)|done|].
      exists self', (None :: suf'). rewrite length_app in Hr. split_and!; [done..|by rewrite Hs', <- (assoc app)|done].
Qed.

(** ** Refinement of finite maps *)

Inductive Op :=
  | OpInsert (k : K) (v : V) | OpPutNoClobber (k : K) (v : V) | OpGetOrPut (d : V) (k : K) (f : V → V)
  | OpOrInsertWith (k : K) (f : unit → V) | OpGetMut (k : K) (f : V → V) | OpGet (k : K) | OpGetKeyValue (k : K)
  | OpContainsKey (k : K) | OpRemove (k : K) | OpRemoveEntry (k : K) | OpRetain (keep : K → V → V * bool)
  | OpIterMut (f : K → V → V) | OpReserve (n : Z) | OpClear | OpDeinit.

Inductive Res := RUnit | RBool (b : bool) | RVal (o : option V) | REntry (o : option (K * V)).

Definition run_op self (op : Op) : option (HashMap K V * Res) :=
  match op with
  | OpInsert k v => r ← insert self k v; Some (r.1, RVal r.2)
  | OpPutNoClobber k v => self ← put_no_clobber self k v; Some (self, RUnit)
  | OpGetOrPut d k f => r ← get_or_put d self k f; Some (r.1, RBool r.2)
  | OpOrInsertWith k f => r ← or_insert_with self k f; Some (r.1, RVal (Some r.2))
  | OpGetMut k f => r ← get_mut self k f; Some (r.1, RBool r.2)
  | OpGet k => v ← get self k; Some (self, RVal v)
  | OpGetKeyValue k => kv ← get_key_value self k; Some (self, REntry kv)
  | OpContainsKey k => b ← contains_key self k; Some (self, RBool b)
  | OpRemove k => r ← remove self k; Some (r.1, RVal r.2)
  | OpRemoveEntry k => r ← remove_entry self k; Some (r.1, REntry r.2)
  | OpRetain keep => r ← retain (λ st k v, (st, keep k v)) self tt; Some (r.1, RUnit)
  | OpIterMut f => self ← iter_mut f self; Some (self, RUnit)
  | OpReserve n => self ← reserve self n; Some (self, RUnit)
  | OpClear => Some (clear self, RUnit)
  | OpDeinit => Some (deinit self, RUnit)
  end.

Definition spec_op (m : gmap K V) (op : Op) : gmap K V * Res :=
  match op with
  | OpInsert k v => (<[k := v]> m, RVal (m !! k))
  | OpPutNoClobber k v => (<[k := v]> m, RUnit)
  | OpGetOrPut d k f => (<[k := f (default d (m !! k))]> m, RBool (bool_decide (is_Some (m !! k))))
  | OpOrInsertWith k f => (<[k := default (f tt) (m !! k)]> m, RVal (Some (default (f tt) (m !! k))))
  | OpGetMut k f => (alter f k m, RBool (bool_decide (is_Some (m !! k))))
  | OpGet k => (m, RVal (m !! k))
  | OpGetKeyValue k => (m, REntry (pair k <$> m !! k))
  | OpContainsKey k => (m, RBool (bool_decide (is_Some (m !! k))))
  | OpRemove k => (delete k m, RVal (m !! k))
  | OpRemoveEntry k => (delete k m, REntry (pair k <$> m !! k))
  | OpRetain keep => (map_imap (λ k v, let '(v, kept) := keep k v in if (kept : bool) then Some v else None) m, RUnit)
  | OpIterMut f => (map_imap (λ k v, Some (f k v)) m, RUnit)
  | OpReserve _ => (m, RUnit)
  | OpClear | OpDeinit => (∅, RUnit)
  end.

(** What a caller keeps to: no more than 2{^30} entries, and a key that is new for [put_no_clobber]. *)
Definition fits (m : gmap K V) (op : Op) : Prop :=
  let n := Z.of_nat (base.size m) in
  match op with
  | OpInsert _ _ | OpGetOrPut _ _ _ | OpOrInsertWith _ _ => n + 1 <= MAX_ENTRIES
  | OpPutNoClobber k _ => n + 1 <= MAX_ENTRIES ∧ m !! k = None
  | OpReserve a => 0 <= a ∧ n + a <= MAX_ENTRIES
  | _ => True
  end.

Lemma size_to_map self : wf self → size self = Z.of_nat (base.size (to_map self)).
Proof. intros Hw. rewrite (wf_size _ Hw). unfold to_map. by rewrite map_size_list_to_map by (by apply wf_nodup). Qed.

(** What an operation that answers [r] and leaves [m] has to show. *)
Definition refines (o : option (HashMap K V * Res)) (m : gmap K V) (r : Res) : Prop :=
  ∃ self', o = Some (self', r) ∧ wf self' ∧ to_map self' = m.

Lemma map_insert_spec self k v :
  wf self → size self + 1 <= MAX_ENTRIES →
  ∃ self', insert self k v = Some (self', to_map self !! k) ∧ wf self' ∧ to_map self' = <[k := v]> (to_map self).
Proof.
  intros Hw Hmax. destruct (get_or_put_slot_spec self k Hw Hmax) as (g & Hwg & Hmg & _ & [(idx & v0 & Hg & Hs)|(idx & Hn & Hg & Hfill)]).
  - unfold insert. rewrite Hg. cbn [mbind option_bind]. unfold slot at 1. rewrite Hs. cbn [mbind option_bind].
    destruct (write_value_spec g idx (λ _, v) k v0 Hwg Hs) as (self' & -> & Hw' & Hm' & _ & _). cbn [mbind option_bind snd].
    exists self'. rewrite <- Hmg, (to_map_at g idx k v0) by done. by split_and!.
  - unfold insert. rewrite Hg. cbn [mbind option_bind]. destruct (Hfill v) as (g' & -> & Hw' & Hm' & _). cbn [mbind option_bind].
    exists g'. by rewrite <- Hmg, Hn.
Qed.

Lemma get_key_value_spec self k : wf self → get_key_value self k = Some (pair k <$> to_map self !! k).
Proof.
  intros Hw. unfold get_key_value. destruct (get_index_spec self k Hw) as ([i|] & -> & Hi); cbn [mbind option_bind].
  - destruct Hi as (_ & v & Hv). unfold slot. by rewrite Hv, (to_map_at self i k v).
  - apply to_map_absent in Hi; [|done]. by rewrite Hi.
Qed.

Lemma remove_entry_spec self k :
  wf self → ∃ self', remove_entry self k = Some (self', pair k <$> to_map self !! k) ∧ wf self' ∧ to_map self' = delete k (to_map self).
Proof.
  intros Hw. unfold remove_entry. destruct (get_index_spec self k Hw) as ([i|] & -> & Hi); cbn [mbind option_bind].
  - destruct Hi as (_ & v & Hv). destruct (remove_by_index_spec self i k v Hw Hv) as (self' & -> & Hw' & Hm' & _).
    exists self'. rewrite (to_map_at self i k v) by done. by split_and!.
  - apply to_map_absent in Hi; [|done]. exists self. rewrite Hi. split_and!; [done..|]. by rewrite delete_id.
Qed.

Lemma keep_all_stateless (keep : K → V → V * bool) l :
  NoDup l.*1 →
  (list_to_map (keep_all (λ (st : unit) k v, (st, keep k v)) tt l).2 : gmap K V) =
  map_imap (λ k v, let '(v, kept) := keep k v in if (kept : bool) then Some v else None) (list_to_map l).
Proof.
  intros Hn. induction l as [|[k v] l IH]; [cbn; symmetry; apply map_imap_empty|]. cbn in Hn. apply NoDup_cons in Hn as [Hk Hn].
  specialize (IH Hn). cbn [keep_all]. destruct (keep k v) as [v' kept] eqn:Ek.
  destruct (keep_all _ tt l) as [[] l']. cbn [fst snd] in *. cbn [list_to_map foldr]. apply map_eq. intros a.
  rewrite map_lookup_imap. assert (Hkl : (list_to_map l : gmap K V) !! k = None) by (by apply not_elem_of_list_to_map_1).
  assert (IHa : (list_to_map l' : gmap K V) !! a = (list_to_map l : gmap K V) !! a ≫= λ v, let '(v, kept) := keep a v in if kept then Some v else None).
  { rewrite IH. apply map_lookup_imap. }
  change (foldr (λ p, <[p.1 := p.2]>) ∅ l) with (list_to_map l : gmap K V).
  destruct (decide (a = k)) as [->|Hne].
  - rewrite lookup_insert_eq. cbn. rewrite Ek. destruct kept; [by rewrite list_to_map_cons, lookup_insert_eq|]. by rewrite IHa, Hkl.
  - rewrite lookup_insert_ne by done. destruct kept; [by rewrite list_to_map_cons, lookup_insert_ne|done].
Qed.

Lemma list_to_map_values (f : K → V → V) l a :
  NoDup l.*1 →
  (list_to_map ((λ kv, (kv.1, f kv.1 kv.2)) <$> l) : gmap K V) !! a = (list_to_map l : gmap K V) !! a ≫= λ v, Some (f a v).
Proof.
  intros Hn. induction l as [|[k v] l IH]; [done|]. cbn in Hn. apply NoDup_cons in Hn as [Hk Hn]. cbn [fmap list_fmap fst snd].
  rewrite !list_to_map_cons. destruct (decide (a = k)) as [->|Hne]; [by rewrite !lookup_insert_eq|].
  rewrite !lookup_insert_ne by done. by apply IH.
Qed.

Lemma clear_spec self : wf self → wf (clear self) ∧ to_map (clear self) = ∅.
Proof.
  intros Hw. unfold clear. destruct (wf_table _ Hw) as [[Hm Hs]|Ht].
  - rewrite Hm. cbn. split; [done|]. unfold to_map. by rewrite Hs.
  - pose proof (is_cap_pos _ (tb_cap _ _ Ht)) as [H8 _]. destruct (Nat.eqb_spec (length (metadata self)) 0); [lia|].
    assert (Hc : ∀ A B (x : B) (l : list A), (λ _, x) <$> l = replicate (length l) x) by (intros A B x l; by induction l as [|? ? IH]; cbn; [|f_equal]).
    rewrite !Hc, (table_length _ _ Ht). apply fresh_table_ok, Ht.
Qed.

Lemma alter_some (f : V → V) k (m : gmap K V) v : m !! k = Some v → alter f k m = <[k := f v]> m.
Proof.
  intros Hk. apply map_eq. intros a. destruct (decide (a = k)) as [->|Hne].
  - by rewrite lookup_alter_eq, lookup_insert_eq, Hk.
  - by rewrite lookup_alter_ne, lookup_insert_ne.
Qed.

Lemma alter_none (f : V → V) k (m : gmap K V) : m !! k = None → alter f k m = m.
Proof.
  intros Hk. apply map_eq. intros a. destruct (decide (a = k)) as [->|Hne]; [by rewrite lookup_alter_eq, Hk|by rewrite lookup_alter_ne].
Qed.

Lemma op_refines self op : wf self → fits (to_map self) op → refines (run_op self op) (spec_op (to_map self) op).1 (spec_op (to_map self) op).2.
Proof.
  intros Hw Hf. unfold fits in Hf. rewrite <- (size_to_map _ Hw) in Hf. unfold refines. destruct op; cbn [run_op spec_op fst snd].
  - destruct (map_insert_spec self k v Hw Hf) as (s' & -> & Hw' & Hm'). by exists s'.
  - destruct Hf as [Hf Hn]. destruct (map_insert_spec self k v Hw Hf) as (s' & Hi & Hw' & Hm'). exists s'. unfold put_no_clobber.
    rewrite Hi, Hn. cbn. by split_and!.
  - destruct (get_or_put_slot_spec self k Hw Hf) as (g & Hwg & Hmg & _ & [(idx & v & Hg & Hs)|(idx & Hn & Hg & Hfill)]);
      unfold get_or_put; rewrite Hg; cbn [mbind option_bind].
    + destruct (write_value_spec g idx f k v Hwg Hs) as (s' & -> & Hw' & Hm' & _). cbn. exists s'.
      rewrite <- Hmg, (to_map_at g idx k v) by done. by split_and!.
    + destruct (Hfill d) as (g' & -> & Hw' & Hm' & Hs'). cbn [mbind option_bind].
      destruct (write_value_spec g' idx f k d Hw' Hs') as (s' & -> & Hw2 & Hm2 & _). cbn. exists s'.
      rewrite <- Hmg, Hn. split_and!; [done..|]. by rewrite Hm2, Hm', insert_insert_eq.
  - unfold or_insert_with. destruct (get_index_spec self k Hw) as ([i|] & -> & Hi); cbn [mbind option_bind].
    + destruct Hi as (_ & v & Hv). unfold slot. rewrite Hv. cbn. exists self. rewrite (to_map_at self i k v) by done. cbn.
      split_and!; [done..|]. rewrite insert_id; [done|]. by eapply to_map_at.
    + apply to_map_absent in Hi; [|done]. rewrite Hi. cbn.
      destruct (get_or_put_slot_spec self k Hw Hf) as (g & Hwg & Hmg & _ & [(idx & v & Hg & Hs)|(idx & Hn & Hg & Hfill)]).
      { apply to_map_at in Hs; [|done]. congruence. }
      rewrite Hg. cbn. destruct (Hfill (f tt)) as (g' & -> & Hw' & Hm' & _). cbn. exists g'. by rewrite <- Hmg.
  - unfold get_mut. destruct (get_index_spec self k Hw) as ([i|] & -> & Hi); cbn [mbind option_bind].
    + destruct Hi as (_ & v & Hv). destruct (write_value_spec self i f k v Hw Hv) as (s' & -> & Hw' & Hm' & _). cbn. exists s'.
      pose proof (to_map_at self i k v Hw Hv) as Hk. rewrite Hk. split_and!; [done..|]. rewrite Hm'. by rewrite (alter_some _ _ _ v).
    + apply to_map_absent in Hi; [|done]. rewrite Hi. cbn. exists self. split_and!; [done..|]. by rewrite alter_none.
  - unfold get. rewrite get_key_value_spec by done. cbn. exists self. split_and!; try done. by destruct (to_map self !! k).
  - rewrite get_key_value_spec by done. cbn. by exists self.
  - unfold contains_key. destruct (get_index_spec self k Hw) as ([i|] & -> & Hi); cbn [mbind option_bind]; exists self.
    + destruct Hi as (_ & v & Hv). by rewrite (to_map_at self i k v).
    + apply to_map_absent in Hi; [|done]. by rewrite Hi.
  - unfold remove. destruct (remove_entry_spec self k Hw) as (s' & -> & Hw' & Hm'). cbn. exists s'. split_and!; try done. by destruct (to_map self !! k).
  - destruct (remove_entry_spec self k Hw) as (s' & -> & Hw' & Hm'). cbn. by exists s'.
  - destruct (retain_spec (λ (st : unit) k v, (st, keep k v)) self tt Hw) as (s' & -> & Hw' & He'). cbn. exists s'. split_and!; try done.
    unfold to_map. rewrite He'. by apply keep_all_stateless, wf_nodup.
  - destruct (wf_table _ Hw) as [[Hm Hs]|Ht].
    { exists self. unfold iter_mut. rewrite Hm. cbn. destruct (_ =? 0); (split_and!; [done..|]);
        unfold to_map; rewrite Hs; symmetry; apply map_imap_empty. }
    destruct (iter_mut_spec f (metadata self) (slots self) [] self (tb_meta _ _ Ht) Hw eq_refl) as (s' & suf' & Hr & Hw' & Hs' & He').
    { rewrite <- (wf_size _ Hw). pose proof (wf_bounds _ Hw). lia. }
    rewrite <- (wf_size _ Hw) in Hr. unfold iter_mut. cbn [length] in Hr. rewrite Hr. cbn. exists s'. split_and!; [done..|].
    unfold to_map. rewrite Hs'. cbn [app]. rewrite He'. apply map_eq. intros a. rewrite map_lookup_imap. by apply list_to_map_values, wf_nodup.
  - destruct Hf as [Hn Hf]. unfold reserve, ensure_unused_capacity, ensure_total_capacity, wrap32. unfold MAX_ENTRIES in Hf.
    pose proof (wf_bounds _ Hw). rewrite Z.mod_small by lia. destruct (Z.ltb_spec (size self) (size self + n)); [|by exists self].
    replace (size self + n - size self) with n by lia.
    destruct (grow_if_needed_spec self n Hw) as (s' & -> & Hw' & _ & Hm' & _); [lia|done|]. cbn. by exists s'.
  - destruct (clear_spec self Hw). by exists (clear self).
  - exists HashMap_default. split_and!; [done| |done]. split; cbn; [by left|done..].
Qed.

(** Maps that operations lead to, with the finite map they stand for. *)
Inductive map_reach : HashMap K V → gmap K V → Prop :=
  | reach_new : map_reach HashMap_default ∅
  | reach_op self m op self' r :
      map_reach self m → fits m op → run_op self op = Some (self', r) → map_reach self' (spec_op m op).1.

Lemma map_default_wf : wf HashMap_default.
Proof. split; cbn; [by left|done..]. Qed.

Lemma map_reach_wf self m : map_reach self m → wf self ∧ to_map self = m.
Proof.
  induction 1 as [|self m op self' r _ [Hw <-] Hf Hrun]; [split; [apply map_default_wf|done]|].
  destruct (op_refines self op Hw Hf) as (s' & Hs' & Hw' & Hm'). rewrite Hrun in Hs'. by injection Hs' as -> ->.
Qed.
End facts.

(** C8. Any sequence of the map's operations, with at most 2{^30} entries: none of
    them panics or probes forever, each answers what the same operation on a
    finite map answers and leaves that map's contents, however keys collide and
    whatever tombstones are left; the length and the iteration are those of the
    finite map. *)
Theorem hash_map_refines_finite_map {K V : Type} `{Countable K} `{HashContextLaws K} (self : HashMap K V) (m : gmap K V) op :
  map_reach self m → fits m op →
  len self = Z.of_nat (base.size m) ∧
  (∃ l, items self = Some l ∧ l ≡ₚ map_to_list m) ∧
  ∃ self', run_op self op = Some (self', (spec_op m op).2) ∧ map_reach self' (spec_op m op).1.
Proof.
  intros Hr Hf. destruct (map_reach_wf self m Hr) as [Hw <-]. split_and!.
  - by apply size_to_map.
  - eexists. split; [by apply items_spec|]. unfold to_map. by rewrite map_to_list_to_map by (by apply wf_nodup).
  - destruct (op_refines self op Hw Hf) as (s' & Hs' & _). exists s'. split; [done|]. by eapply reach_op.
Qed.

Lemma hash_map_refines_finite_map_witness :
  ∃ self : HashMap Z Z, run_op self (OpRemove 2) = Some (mkHashMap [0; 0; 1; 128; 0; 0; 0; 0] [None; None; None; Some (10, 7); None; None; None; None] 1 5, RVal (Some 6)) ∧
  len self = 2.
Proof.
  destruct (insert HashMap_default 2 6) as [[s1 o1]|] eqn:E1; [|by vm_compute in E1].
  destruct (insert s1 10 7) as [[s2 o2]|] eqn:E2; [|by vm_compute in E1; injection E1 as <- <-; vm_compute in E2].
  assert (R1 : map_reach s1 {[2 := 6]}).
  { apply (reach_op HashMap_default ∅ (OpInsert 2 6) s1 (RVal o1) reach_new); [by vm_compute|unfold run_op; by rewrite E1]. }
  assert (R2 : map_reach s2 (<[10 := 7]> {[2 := 6]})).
  { apply (reach_op s1 _ (OpInsert 10 7) s2 (RVal o2) R1); [by vm_compute|unfold run_op; by rewrite E2]. }
  destruct (hash_map_refines_finite_map s2 _ (OpRemove 2) R2 I) as (Hl & _ & s3 & Hr & _).
  exists s2. split; [|rewrite Hl; reflexivity].
  vm_compute in E1. injection E1 as <- <-. vm_compute in E2. injection E2 as <- <-. reflexivity.
Defined.

(** [retain] shows every entry to the closure exactly once, in the order of
    iteration, threading the closure's state, and the entries it accepts are
    left, with the values it wrote, in that order. *)
Theorem retain_shows_each_entry_once {K V S : Type} `{Countable K} `{HashContextLaws K} (self : HashMap K V) (m : gmap K V)
    (keep : S → K → V → S * (V * bool)) (st : S) :
  map_reach self m →
  ∃ l self', items self = Some l ∧ l ≡ₚ map_to_list m ∧
    retain keep self st = Some (self', (keep_all keep st l).1) ∧ items self' = Some (keep_all keep st l).2.
Proof.
  intros Hr. destruct (map_reach_wf self m Hr) as [Hw <-]. destruct (retain_spec keep self st Hw) as (self' & Hrun & Hw' & He).
  exists (entries (slots self)), self'. rewrite !items_spec, He by done. split_and!; [done| |done..].
  unfold to_map. by rewrite map_to_list_to_map by (by apply wf_nodup).
Qed.

Lemma retain_shows_each_entry_once_witness :
  ∃ (self : HashMap Z Z) l self', items self = Some l ∧ l ≡ₚ map_to_list {[2 := 6]} ∧
    retain (λ st k v, (st ++ [k], (v + 1, true))) self [] = Some (self', [2]) ∧ items self' = Some [(2, 7)].
Proof.
  destruct (insert HashMap_default 2 6) as [[s1 o1]|] eqn:E1; [|by vm_compute in E1].
  assert (R1 : map_reach s1 {[2 := 6]}).
  { apply (reach_op HashMap_default ∅ (OpInsert 2 6) s1 (RVal o1) reach_new); [by vm_compute|unfold run_op; by rewrite E1]. }
  destruct (retain_shows_each_entry_once s1 _ (λ (st : list Z) (k v : Z), (st ++ [k], (v + 1, true))) [] R1) as (l & s2 & Hl & Hp & Hr & Hi).
  exists s1, l, s2. vm_compute in E1. injection E1 as <- <-. vm_compute in Hl. injection Hl as <-. by split_and!.
Defined.
