(* ===== verification/Base64.v ===== *)
(** * [src/base64/lib.rs]: the scalar base64 codec and the VLQ of source maps

    The modules [zig_base64] and [vlq]: the encoder and the decoder over a
    destination buffer with their 16-bit accumulator, the decoder that skips
    ignored characters, and base64 variable-length quantities. A write outside
    the destination, which [Base64Decoder::decode] makes through
    [get_unchecked_mut], is [None], like a panic. The SIMD codec that the rest
    of the file calls is a foreign library. *)

From S2P Require Import Prelude.

#[local] Open Scope Z_scope.

Definition wrap16 (z : Z) : Z := z mod 2 ^ 16.

(** [dest\[i\] = c] *)
Definition put (dest : bytes) (i : nat) (c : Z) : option bytes :=
  if (i <? length dest)%nat then Some (<[i := c]> dest) else None.

Definition debug_assert (b : bool) : option unit := if b then Some tt else None.

Inductive Error := InvalidCharacter | InvalidPadding | NoSpaceLeft.

Inductive result (A : Type) := Ok (a : A) | Err (e : Error).
Arguments Ok {A} a.
Arguments Err {A} e.

Definition STANDARD_ALPHABET_CHARS : bytes := bs "ABCDEFGHIJKLMNOPQRSTUVWXYZabcdefghijklmnopqrstuvwxyz0123456789+/".
Definition URL_SAFE_ALPHABET_CHARS : bytes := bs "ABCDEFGHIJKLMNOPQRSTUVWXYZabcdefghijklmnopqrstuvwxyz0123456789-_".

(** ** The encoder *)

Record Base64Encoder := mkEncoder { alphabet_chars : bytes; enc_pad_char : option Z }.

(** The assertions of [init]: no character twice, the padding not among them. *)
Fixpoint alphabet_check (seen : list bool) (pad_char : option Z) (chars : bytes) : option unit :=
  match chars with
  | [] => Some tt
  | c :: chars =>
      dup ← seen !! Z.to_nat c;
      _ ← debug_assert (negb dup);
      _ ← debug_assert (match pad_char with None => true | Some p => negb (c =? p) end);
      alphabet_check (<[Z.to_nat c := true]> seen) pad_char chars
  end.

Definition Encoder_init (alphabet_chars : bytes) (pad_char : option Z) : option Base64Encoder :=
  _ ← alphabet_check (replicate 256 false) pad_char alphabet_chars;
  Some (mkEncoder alphabet_chars pad_char).

(** [a + b] on [u16]; [None] is the overflow. *)
Definition u16_add (a b : Z) : option Z := if a + b <? 2 ^ 16 then Some (a + b) else None.

Definition div_ceil (a b : nat) : nat := ((a + b - 1) / b)%nat.

Definition calc_size (self : Base64Encoder) (source_len : nat) : nat :=
  match enc_pad_char self with
  | Some _ => (div_ceil source_len 3 * 4)%nat
  | None => let leftover := (source_len mod 3)%nat in (source_len / 3 * 4 + div_ceil (leftover * 4) 3)%nat
  end.

(** [while acc_len >= 6] *)
Fixpoint emit (fuel : nat) (self : Base64Encoder) (acc : Z) (acc_len : nat) (dest : bytes) (out_idx : nat)
    : option (nat * (bytes * nat)) :=
  if (6 <=? acc_len)%nat then
    match fuel with
    | O => None
    | S fuel =>
        acc_len ← usize_sub acc_len 6;
        c ← alphabet_chars self !! Z.to_nat (Z.land (Z.shiftr acc (Z.of_nat acc_len)) 0x3F);
        dest ← put dest out_idx c;
        emit fuel self acc acc_len dest (out_idx + 1)
    end
  else Some (acc_len, (dest, out_idx)).

(** [for &v in source] *)
Fixpoint encode_loop (self : Base64Encoder) (source : bytes) (acc : Z) (acc_len : nat) (dest : bytes) (out_idx : nat)
    : option ((Z * nat) * (bytes * nat)) :=
  match source with
  | [] => Some ((acc, acc_len), (dest, out_idx))
  | v :: source =>
      acc ← u16_add (wrap16 (Z.shiftl acc 8)) v;
      r ← emit 16 self acc (acc_len + 8) dest out_idx;
      let '(acc_len, (dest, out_idx)) := r in
      encode_loop self source acc acc_len dest out_idx
  end.

Definition encode_without_size_check (self : Base64Encoder) (dest source : bytes) : option (bytes * nat) :=
  r ← encode_loop self source 0 0 dest 0;
  let '((acc, acc_len), (dest, out_idx)) := r in
  if (0 <? acc_len)%nat then
    shift ← usize_sub 6 acc_len;
    c ← alphabet_chars self !! Z.to_nat (Z.land (wrap16 (Z.shiftl acc (Z.of_nat shift))) 0x3F);
    dest ← put dest out_idx c;
    Some (dest, (out_idx + 1)%nat)
  else Some (dest, out_idx).

(** [for pad in &mut dest\[out_idx..out_len\]] *)
Fixpoint pad_loop (n : nat) (pad_char : Z) (dest : bytes) (i : nat) : option bytes :=
  match n with
  | O => Some dest
  | S n => dest ← put dest i pad_char; pad_loop n pad_char dest (i + 1)
  end.

(** The destination after the call, and the part of it that is returned. *)
Definition encode (self : Base64Encoder) (dest source : bytes) : option (bytes * bytes) :=
  let out_len := calc_size self (length source) in
  _ ← debug_assert (out_len <=? length dest)%nat;
  r ← encode_without_size_check self dest source;
  let '(dest, out_idx) := r in
  dest ← match enc_pad_char self with
         | Some pad_char =>
             if (out_len <? out_idx)%nat then None else pad_loop (out_len - out_idx) pad_char dest out_idx
         | None => Some dest
         end;
  if (out_len <=? length dest)%nat then Some (dest, take out_len dest) else None.

(** ** The decoder *)

Definition INVALID_CHAR : Z := 0xFF.

Record Base64Decoder := mkDecoder { char_to_index : bytes; dec_pad_char : option Z }.

Fixpoint index_chars (table : bytes) (i : Z) (chars : bytes) : bytes :=
  match chars with
  | [] => table
  | c :: chars => index_chars (<[Z.to_nat c := i]> table) (i + 1) chars
  end.

Definition Decoder_init (alphabet_chars : bytes) (pad_char : option Z) : option Base64Decoder :=
  _ ← alphabet_check (replicate 256 false) pad_char alphabet_chars;
  Some (mkDecoder (index_chars (replicate 256 INVALID_CHAR) 0 alphabet_chars) pad_char).

Definition calc_size_upper_bound (self : Base64Decoder) (source_len : nat) : result nat :=
  let res := (source_len / 4 * 3)%nat in
  let leftover := (source_len mod 4)%nat in
  match dec_pad_char self with
  | Some _ => if negb (leftover mod 4 =? 0)%nat then Err InvalidPadding else Ok res
  | None => if (leftover mod 4 =? 1)%nat then Err InvalidPadding else Ok (res + leftover * 3 / 4)%nat
  end.

(** [result -= 1] when the [n]-th character from the end is the padding. *)
Definition less_pad (pad_char : Z) (source : bytes) (n : nat) (res : nat) : option nat :=
  let source_len := length source in
  if (n <=? source_len)%nat then
    i ← usize_sub source_len n;
    c ← source !! i;
    if c =? pad_char then usize_sub res 1 else Some res
  else Some res.

Definition calc_size_for_slice (self : Base64Decoder) (source : bytes) : option (result nat) :=
  match calc_size_upper_bound self (length source) with
  | Err e => Some (Err e)
  | Ok res =>
      match dec_pad_char self with
      | Some pad_char => r ← less_pad pad_char source 1 res; r ← less_pad pad_char source 2 r; Some (Ok r)
      | None => Some (Ok res)
      end
  end.

(** How the loop over the source ends: an error, or at a padding character (the
    rest of the source from it) or at the end. *)
Inductive Scan := ScanErr (e : Error) | ScanEnd (acc : Z) (acc_len : nat) (leftover : option bytes).

(** [for (src_idx, &c) in source.iter().enumerate()]; the destination and the next index with it. *)
Fixpoint decode_loop (self : Base64Decoder) (source : bytes) (acc : Z) (acc_len : nat) (dest : bytes) (dest_idx : nat)
    : option (Scan * (bytes * nat)) :=
  match source with
  | [] => Some (ScanEnd acc acc_len None, (dest, dest_idx))
  | c :: rest =>
      d ← char_to_index self !! Z.to_nat c;
      if d =? INVALID_CHAR then
        if negb (bool_decide (dec_pad_char self = Some c)) then Some (ScanErr InvalidCharacter, (dest, dest_idx))
        else Some (ScanEnd acc acc_len (Some source), (dest, dest_idx))
      else
        acc ← u16_add (wrap16 (Z.shiftl acc 6)) d;
        let acc_len := (acc_len + 6)%nat in
        if (8 <=? acc_len)%nat then
          acc_len ← usize_sub acc_len 8;
          dest ← put dest dest_idx (Z.shiftr acc (Z.of_nat acc_len) mod 256);
          decode_loop self rest acc acc_len dest (dest_idx + 1)
        else decode_loop self rest acc acc_len dest dest_idx
  end.

(** [acc & ((1u16 << acc_len) - 1)] *)
Definition low_bits (acc : Z) (acc_len : nat) : Z := Z.land acc (Z.shiftl 1 (Z.of_nat acc_len) - 1).

(** [for &c in leftover], counting the padding. *)
Fixpoint count_padding (skip : Z → bool) (pad_char : Z) (leftover : bytes) (n : nat) : result nat :=
  match leftover with
  | [] => Ok n
  | c :: leftover =>
      if skip c then count_padding skip pad_char leftover n
      else if negb (c =? pad_char) then
        if c =? INVALID_CHAR then Err InvalidCharacter else Err InvalidPadding
      else count_padding skip pad_char leftover (n + 1)
  end.

Definition check_padding (skip : Z → bool) (pad_char : Z) (leftover : bytes) (acc_len : nat) : result unit :=
  match count_padding skip pad_char leftover 0 with
  | Err e => Err e
  | Ok n => if negb (n =? acc_len / 2)%nat then Err InvalidPadding else Ok tt
  end.

Definition decode (self : Base64Decoder) (dest source : bytes) : option (result unit * bytes) :=
  if bool_decide (is_Some (dec_pad_char self)) && negb (length source mod 4 =? 0)%nat then Some (Err InvalidPadding, dest)
  else
    r ← decode_loop self source 0 0 dest 0;
    let '(scan, (dest, _)) := r in
    Some (match scan with
          | ScanErr e => Err e
          | ScanEnd acc acc_len leftover =>
              if (4 <? acc_len)%nat || negb (low_bits acc acc_len =? 0) then Err InvalidPadding
              else
                match leftover, dec_pad_char self with
                | Some leftover, Some pad_char => check_padding (λ _, false) pad_char leftover acc_len
                | _, _ => Ok tt
                end
          end, dest).

(** ** The decoder that ignores characters *)

Record Base64DecoderWithIgnore := mkIgnore { decoder : Base64Decoder; char_is_ignored : list bool }.

Fixpoint ignore_chars (self : Base64DecoderWithIgnore) (chars : bytes) : option Base64DecoderWithIgnore :=
  match chars with
  | [] => Some self
  | c :: chars =>
      d ← char_to_index (decoder self) !! Z.to_nat c;
      _ ← debug_assert (d =? INVALID_CHAR);
      b ← char_is_ignored self !! Z.to_nat c;
      _ ← debug_assert (negb b);
      _ ← debug_assert (match dec_pad_char (decoder self) with None => true | Some p => negb (c =? p) end);
      ignore_chars (mkIgnore (decoder self) (<[Z.to_nat c := true]> (char_is_ignored self))) chars
  end.

Definition DecoderWithIgnore_init (alphabet_chars : bytes) (pad_char : option Z) (ignored : bytes) : option Base64DecoderWithIgnore :=
  d ← Decoder_init alphabet_chars pad_char;
  ignore_chars (mkIgnore d (replicate 256 false)) ignored.

Definition is_ignored (self : Base64DecoderWithIgnore) (c : Z) : bool := default false (char_is_ignored self !! Z.to_nat c).

Fixpoint decode_ignore_loop (self : Base64DecoderWithIgnore) (source : bytes) (acc : Z) (acc_len : nat) (dest : bytes) (wrote : nat)
    : option (Scan * (bytes * nat)) :=
  match source with
  | [] => Some (ScanEnd acc acc_len None, (dest, wrote))
  | c :: rest =>
      if is_ignored self c then decode_ignore_loop self rest acc acc_len dest wrote
      else
        d ← char_to_index (decoder self) !! Z.to_nat c;
        if d =? INVALID_CHAR then
          if bool_decide (dec_pad_char (decoder self) = Some c) then
            Some (ScanEnd acc acc_len (Some source), (dest, wrote))
          else if is_ignored self INVALID_CHAR then decode_ignore_loop self rest acc acc_len dest wrote
          else Some (ScanErr InvalidCharacter, (dest, wrote))
        else
          acc ← u16_add (wrap16 (Z.shiftl acc 6)) d;
          let acc_len := (acc_len + 6)%nat in
          if (8 <=? acc_len)%nat then
            if (wrote =? length dest)%nat then Some (ScanErr NoSpaceLeft, (dest, wrote))
            else
              acc_len ← usize_sub acc_len 8;
              dest ← put dest wrote (Z.shiftr acc (Z.of_nat acc_len) mod 256);
              decode_ignore_loop self rest acc acc_len dest (wrote + 1)
          else decode_ignore_loop self rest acc acc_len dest wrote
  end.

(** The result, the destination and [*wrote]. *)
Definition decode_with_ignore (self : Base64DecoderWithIgnore) (dest source : bytes) : option (result unit * (bytes * nat)) :=
  r ← decode_ignore_loop self source 0 0 dest 0;
  let '(scan, (dest, wrote)) := r in
  Some (match scan with
        | ScanErr e => Err e
        | ScanEnd acc acc_len leftover =>
            if (4 <? acc_len)%nat || negb (low_bits acc acc_len =? 0) then Err InvalidPadding
            else
              match dec_pad_char (decoder self), leftover with
              | Some pad_char, Some leftover => check_padding (is_ignored self) pad_char leftover acc_len
              | Some _, None => if (0 <? acc_len / 2)%nat then Err InvalidPadding else Ok tt
              | None, _ => Ok tt
              end
        end, (dest, wrote)).

(** ** The codecs *)

Record Codecs := mkCodecs { c_encoder : Base64Encoder; c_decoder : Base64Decoder }.

Definition codecs (alphabet_chars : bytes) (pad_char : option Z) : option Codecs :=
  e ← Encoder_init alphabet_chars pad_char;
  d ← Decoder_init alphabet_chars pad_char;
  Some (mkCodecs e d).

Definition STANDARD : option Codecs := codecs STANDARD_ALPHABET_CHARS (Some (ch "=")).
Definition STANDARD_NO_PAD : option Codecs := codecs STANDARD_ALPHABET_CHARS None.

Definition standard_base64_decoder_with_ignore (ignored : bytes) : option Base64DecoderWithIgnore :=
  DecoderWithIgnore_init STANDARD_ALPHABET_CHARS (Some (ch "=")) ignored.

(** [MIXED_DECODER]: 62 and 63 have their URL-safe characters too. *)
Definition MIXED_DECODER : option Base64DecoderWithIgnore :=
  self ← standard_base64_decoder_with_ignore [0xFF; 32; 9; 13; 10; 0x0B; 0x0C];
  a ← URL_SAFE_ALPHABET_CHARS !! 62%nat;
  b ← URL_SAFE_ALPHABET_CHARS !! 63%nat;
  let table := <[Z.to_nat b := 63]> (<[Z.to_nat a := 62]> (char_to_index (decoder self))) in
  Some (mkIgnore (mkDecoder table (dec_pad_char (decoder self))) (char_is_ignored self)).

(** ** Variable-length quantities *)

Module vlq.
Definition VLQ_MAX_IN_BYTES : nat := 7.

(** [bytes\[0..len\]] is the text; the rest of the array is not read. *)
Record VLQ := mkVLQ { text : bytes }.

(** [while iter < VLQ_MAX_IN_BYTES]; [None] is the table's index out of range. *)
Fixpoint encode_digits (fuel : nat) (vlq : Z) (acc : bytes) : option bytes :=
  match fuel with
  | O => Some []
  | S fuel =>
      let digit := Z.land vlq 31 in
      let vlq := Z.shiftr vlq 5 in
      let digit := if negb (vlq =? 0) then Z.lor digit 32 else digit in
      c ← STANDARD_ALPHABET_CHARS !! Z.to_nat digit;
      let acc := acc ++ [c] in
      if vlq =? 0 then Some acc else encode_digits fuel vlq acc
  end.

Definition encode_slow_path (value : Z) : option VLQ :=
  let vlq := if 0 <=? value then wrap32 (Z.shiftl value 1)
             else Z.lor (wrap32 (Z.shiftl (Z.abs value) 1)) 1 in
  t ← encode_digits VLQ_MAX_IN_BYTES vlq [];
  Some (mkVLQ t).

Definition VLQ_LOOKUP_TABLE : list (option VLQ) := encode_slow_path <$> (Z.of_nat <$> seq 0 256).

Definition encode (value : Z) : option VLQ :=
  if (0 <=? value) && (value <=? 255) then e ← VLQ_LOOKUP_TABLE !! Z.to_nat value; e
  else encode_slow_path value.

Definition U7_MAX : Z := 127.
Definition BASE64_LUT : bytes := index_chars (replicate 128 U7_MAX) 0 STANDARD_ALPHABET_CHARS.

Record VLQResult := mkResult { value : Z; start : nat }.

(** [for i in 0..encoded_.len()] *)
Fixpoint decode_digits (assert_valid : bool) (encoded : bytes) (shift vlq : Z) (start i : nat) : option VLQResult :=
  match encoded with
  | [] => Some (mkResult 0 start)
  | c :: encoded =>
      _ ← debug_assert (negb assert_valid || (c <? U7_MAX));
      index ← BASE64_LUT !! Z.to_nat (Z.land c 0x7f);
      _ ← debug_assert (negb assert_valid || negb (index =? U7_MAX));
      let vlq := Z.lor vlq (wrap32 (Z.shiftl (Z.land index 31) (Z.land shift 31))) in
      let shift := shift + 5 in
      if Z.land index 32 =? 0 then
        Some (mkResult (if Z.land vlq 1 =? 0 then Z.shiftr vlq 1 else - Z.shiftr vlq 1) (start + i + 1))
      else decode_digits assert_valid encoded shift vlq start (i + 1)
  end.

Definition decode_impl (assert_valid : bool) (encoded : bytes) (start : nat) : option VLQResult :=
  if (length encoded <? start)%nat then None
  else
    let encoded_ := take (Nat.min (length encoded - start) (VLQ_MAX_IN_BYTES + 1)) (drop start encoded) in
    decode_digits assert_valid encoded_ 0 0 start 0.

Definition decode (encoded : bytes) (start : nat) : option VLQResult := decode_impl false encoded start.
Definition decode_assume_valid (encoded : bytes) (start : nat) : option VLQResult := decode_impl true encoded start.
End vlq.

Example vlq_extremes :
  (vlq.text <$> vlq.encode (2 ^ 31 - 1)) = Some (bs "+/////D") ∧ (vlq.text <$> vlq.encode (- 2 ^ 31 + 1)) = Some (bs "//////D").
Proof. by vm_compute. Qed.

Example foobar : (c ← STANDARD; r ← encode (c_encoder c) (replicate 8 0) (bs "fooba"); Some r.2) = Some (bs "Zm9vYmE=").
Proof. by vm_compute. Qed.
