(* ===== verification/Base64Facts.v ===== *)
(** * Base64 and VLQ read back what they write

    A string of bytes and a string of base64 digits are read as the same string
    of bits. The encoder's and the decoder's accumulators hold the bits that are
    pending, so that each is one invariant on bits; from it the round trip, and
    that the decoder keeps to a destination of the size it computes. *)

From Stdlib Require Import ZifyNat.
From S2P Require Import Prelude Base64.

#[local] Open Scope Z_scope.

(** ** Bits *)

(** The [n] low bits, the highest first. *)
Fixpoint bits (n : nat) (z : Z) : list bool :=
  match n with O => [] | S n => Z.testbit z (Z.of_nat n) :: bits n z end.

Lemma length_bits n z : length (bits n z) = n.
Proof. induction n as [|n IH]; cbn; [done|]. by rewrite IH. Qed.

Lemma bits_ext n a b : (∀ i, 0 <= i < Z.of_nat n → Z.testbit a i = Z.testbit b i) → bits n a = bits n b.
Proof.
  induction n as [|n IH]; intros H; cbn; [done|]. f_equal; [apply H; lia|]. apply IH. intros i Hi. apply H. lia.
Qed.

Lemma bits_inj n a b : bits n a = bits n b → ∀ i, 0 <= i < Z.of_nat n → Z.testbit a i = Z.testbit b i.
Proof.
  induction n as [|n IH]; cbn; [lia|]. intros [= H1 H2] i Hi. destruct (decide (i = Z.of_nat n)) as [->|]; [done|]. apply IH; [done|lia].
Qed.

Lemma bits_app n m z : bits (n + m) z = bits n (Z.shiftr z (Z.of_nat m)) ++ bits m z.
Proof.
  induction n as [|n IH]; cbn [bits Nat.add app]; [done|]. f_equal; [|done].
  rewrite Z.shiftr_spec by lia. f_equal. lia.
Qed.

(** Below its width a value is its bits. *)
Lemma bits_inj_lt n a b : 0 <= a < 2 ^ Z.of_nat n → 0 <= b < 2 ^ Z.of_nat n → bits n a = bits n b → a = b.
Proof.
  intros Ha Hb H. apply Z.bits_inj'. intros i Hi. destruct (decide (i < Z.of_nat n)) as [Hlt|Hge]; [by apply (bits_inj n)|].
  rewrite <- (Z.mod_small a (2 ^ Z.of_nat n)), <- (Z.mod_small b (2 ^ Z.of_nat n)) by done.
  by rewrite !Z.mod_pow2_bits_high by lia.
Qed.

Lemma bits_mod n k z : (n <= k)%nat → bits n (z mod 2 ^ Z.of_nat k) = bits n z.
Proof. intros H. apply bits_ext. intros i Hi. apply Z.mod_pow2_bits_low. lia. Qed.

(** [(acc << m) + v] appends the bits of [v]. *)
Lemma bits_push n m k acc v :
  0 <= v < 2 ^ Z.of_nat m → (n + m <= k)%nat →
  bits (n + m) (Z.shiftl acc (Z.of_nat m) mod 2 ^ Z.of_nat k + v) = bits n acc ++ bits m v.
Proof.
  intros Hv Hk. assert (Hlow : ∀ i, 0 <= i < Z.of_nat m → Z.testbit (Z.shiftl acc (Z.of_nat m)) i = false).
  { intros i Hi. apply Z.shiftl_spec_low. lia. }
  assert (Hland : Z.land (Z.shiftl acc (Z.of_nat m) mod 2 ^ Z.of_nat k) v = 0).
  { apply Z.bits_inj'. intros i Hi. rewrite Z.land_spec, Z.bits_0. destruct (decide (i < Z.of_nat m)) as [Hlt|Hge].
    - by rewrite Z.mod_pow2_bits_low, Hlow by lia.
    - rewrite <- (Z.mod_small v (2 ^ Z.of_nat m)) by done. by rewrite (Z.mod_pow2_bits_high v), andb_false_r by lia. }
  rewrite Z.add_nocarry_lxor by done. rewrite Z.lxor_lor by done. rewrite bits_app. f_equal; apply bits_ext; intros i Hi.
  - rewrite Z.shiftr_spec, Z.lor_spec by lia. rewrite <- (Z.mod_small v (2 ^ Z.of_nat m)) by done.
    rewrite (Z.mod_pow2_bits_high v), orb_false_r by lia. rewrite Z.mod_pow2_bits_low, Z.shiftl_spec by lia. f_equal. lia.
  - rewrite Z.lor_spec. by rewrite Z.mod_pow2_bits_low, Hlow by lia.
Qed.

Lemma bits_0 n : bits n 0 = replicate n false.
Proof. induction n as [|n IH]; cbn; [done|]. by rewrite Z.bits_0, IH. Qed.

Definition stream (n : nat) (l : list Z) : list bool := concat (bits n <$> l).

Lemma stream_app n l k : stream n (l ++ k) = stream n l ++ stream n k.
Proof. unfold stream. by rewrite fmap_app, concat_app. Qed.

Lemma length_stream n l : length (stream n l) = (n * length l)%nat.
Proof. induction l as [|x l IH]; [cbn; lia|]. unfold stream in *. cbn. rewrite length_app, length_bits, IH. lia. Qed.

Lemma stream_inj n l k :
  Forall (λ z, 0 <= z < 2 ^ Z.of_nat n) l → Forall (λ z, 0 <= z < 2 ^ Z.of_nat n) k → length l = length k →
  stream n l = stream n k → l = k.
Proof.
  intros Hl. revert k. induction Hl as [|x l Hx Hl IH]; intros k Hk Hlen H; [by destruct k|].
  destruct k as [|y k]; [done|]. apply Forall_cons in Hk as [Hy Hk]. unfold stream in H. cbn in H.
  apply app_inj_1 in H as [H1 H2]; [|by rewrite !length_bits]. apply bits_inj_lt in H1; [|done..]. subst y. f_equal. apply IH; auto.
Qed.

Lemma low_bits_0 acc n : low_bits acc n = 0 ↔ bits n acc = replicate n false.
Proof.
  unfold low_bits. rewrite Z.shiftl_1_l, Z.sub_1_r, <- Z.ones_equiv, Z.land_ones by lia. rewrite <- (bits_0 n). split.
  - intros H. rewrite <- (bits_mod n n acc) by done. by rewrite H.
  - intros H. apply (bits_inj_lt n); [apply Z.mod_pos_bound; lia|lia|]. by rewrite bits_mod.
Qed.

(** ** Writing into the destination *)

Lemma splice_nil dest i : splice dest i [] = dest.
Proof. unfold splice. cbn. rewrite Nat.add_0_r. apply take_drop. Qed.

Lemma splice_app dest i l k :
  (i + length l + length k <= length dest)%nat → splice (splice dest i l) (i + length l) k = splice dest i (l ++ k).
Proof.
  intros H. unfold splice.
  assert (Hl : length (take i dest ++ l) = (i + length l)%nat) by (rewrite length_app, length_take; lia).
  rewrite (app_assoc (take i dest)), take_app_length' by lia.
  rewrite (drop_app_ge _ _ (i + length l + length k)) by lia. rewrite Hl, drop_drop, length_app, <- !app_assoc.
  do 4 f_equal. lia.
Qed.

Lemma splice_splice dest i n l k :
  n = (i + length l)%nat → (i + length l + length k <= length dest)%nat → splice (splice dest i l) n k = splice dest i (l ++ k).
Proof. intros ->. apply splice_app. Qed.

Lemma put_splice dest i c : (i < length dest)%nat → put dest i c = Some (splice dest i [c]).
Proof.
  intros H. unfold put. destruct (Nat.ltb_spec i (length dest)); [|lia]. f_equal. unfold splice. cbn.
  rewrite Nat.add_1_r. by apply insert_take_drop.
Qed.

Lemma take_splice_0 n dest l : n = length l → (length l <= length dest)%nat → take n (splice dest 0 l) = l.
Proof. intros -> H. unfold splice. rewrite take_0, app_nil_l. by rewrite take_app_length. Qed.

Lemma splice_all dest l : length l = length dest → splice dest 0 l = l.
Proof. intros H. unfold splice. cbn. rewrite H, drop_all. apply app_nil_r. Qed.

(** ** The encoder as a string of bits *)

Definition digit_ok (d : Z) : Prop := 0 <= d < 2 ^ Z.of_nat 6.

(** A digit or a byte fits under the accumulator shifted left. *)
Lemma u16_add_some acc k d :
  0 <= k <= 16 → 0 <= d < 2 ^ k → u16_add (wrap16 (Z.shiftl acc k)) d = Some (wrap16 (Z.shiftl acc k) + d).
Proof.
  intros Hk Hd. unfold u16_add, wrap16. rewrite Z.shiftl_mul_pow2 by lia.
  replace (2 ^ 16) with (2 ^ (16 - k) * 2 ^ k) by (rewrite <- Z.pow_add_r by lia; f_equal; lia).
  rewrite Z.mul_mod_distr_r by (apply Z.pow_nonzero; lia).
  pose proof (Z.mod_pos_bound acc (2 ^ (16 - k)) ltac:(apply Z.pow_pos_nonneg; lia)).
  rewrite (proj2 (Z.ltb_lt _ _)); [done|]. nia.
Qed.

Section encoder.
Context (self : Base64Encoder) (Halpha : length (alphabet_chars self) = 64%nat).

Definition char_of (d : Z) : Z := alphabet_chars self !!! Z.to_nat d.

Lemma alphabet_lookup d : digit_ok d → alphabet_chars self !! Z.to_nat d = Some (char_of d).
Proof. intros H. unfold digit_ok in H. apply list_lookup_lookup_total_lt. rewrite Halpha. lia. Qed.

Lemma land_63_ok z : digit_ok (Z.land z 0x3F).
Proof. change 0x3F with (Z.ones 6). rewrite Z.land_ones by lia. apply Z.mod_pos_bound. lia. Qed.

Lemma bits_land_63 z : bits 6 (Z.land z 0x3F) = bits 6 z.
Proof. change 0x3F with (Z.ones 6). rewrite Z.land_ones by lia. by apply (bits_mod 6 6). Qed.

Lemma emit_small fuel acc n dest i : (n < 6)%nat → emit fuel self acc n dest i = Some (n, (dest, i)).
Proof. intros H. destruct fuel; cbn [emit]; by rewrite (proj2 (Nat.leb_gt 6 n) H). Qed.

Lemma emit_spec fuel acc n :
  (n <= 6 * fuel + 5)%nat →
  ∃ ds, Forall digit_ok ds ∧ stream 6 ds ++ bits (n mod 6) acc = bits n acc
    ∧ (∀ dest i, (i + length ds <= length dest)%nat →
        emit fuel self acc n dest i = Some ((n mod 6)%nat, (splice dest i (char_of <$> ds), (i + length ds)%nat))).
Proof.
  revert n. induction fuel as [|fuel IH]; intros n Hn.
  { exists []. rewrite Nat.mod_small by lia. split; [done|]. split; [done|]. intros dest i Hi.
    rewrite splice_nil, Nat.add_0_r. apply emit_small; lia. }
  destruct (Nat.leb_spec 6 n) as [Hge|Hlt].
  - destruct (IH (n - 6)%nat) as (ds & Hds & Hbits & Hrun); [lia|].
    assert (Hmod : ((n - 6) mod 6 = n mod 6)%nat).
    { pose proof (Nat.Div0.mod_add (n - 6) 1 6) as E. rewrite <- E. f_equal. lia. }
    set (d := Z.land (Z.shiftr acc (Z.of_nat (n - 6))) 0x3F). exists (d :: ds). split_and!.
    + apply Forall_cons. split; [apply land_63_ok|done].
    + unfold stream in *. cbn [fmap list_fmap concat]. rewrite <- app_assoc, <- Hmod, Hbits. unfold d. rewrite bits_land_63.
      rewrite <- bits_app. f_equal. lia.
    + intros dest i Hi. cbn in Hi. cbn [emit]. destruct (Nat.leb_spec 6 n); [|lia]. rewrite usize_sub_some by lia. cbn [mbind option_bind]. fold d.
      rewrite (alphabet_lookup d) by apply land_63_ok. cbn [mbind option_bind]. rewrite put_splice by lia. cbn [mbind option_bind].
      rewrite Hrun by (rewrite length_splice; cbn; lia). rewrite Hmod. cbn [fmap list_fmap length].
      change (i + 1)%nat with (i + length [char_of d])%nat. rewrite splice_app by (rewrite length_fmap; cbn; lia).
      do 3 f_equal. cbn. lia.
  - exists []. rewrite Nat.mod_small by lia. split; [done|]. split; [done|]. intros dest i Hi.
    rewrite splice_nil, Nat.add_0_r. apply emit_small; lia.
Qed.

Lemma encode_loop_spec source acc n :
  Forall is_u8 source → (n < 6)%nat →
  ∃ ds acc' n', Forall digit_ok ds ∧ (n' < 6)%nat ∧ stream 6 ds ++ bits n' acc' = bits n acc ++ stream 8 source
    ∧ (∀ dest i, (i + length ds <= length dest)%nat →
        encode_loop self source acc n dest i = Some ((acc', n'), (splice dest i (char_of <$> ds), (i + length ds)%nat))).
Proof.
  intros Hu. revert acc n. induction Hu as [|v source Hv Hu IH]; intros acc n Hn.
  { exists [], acc, n. split_and!; [done|done|by rewrite app_nil_r|]. intros dest i Hi. cbn. by rewrite splice_nil, Nat.add_0_r. }
  set (acc1 := wrap16 (Z.shiftl acc 8) + v).
  destruct (emit_spec 16 acc1 (n + 8)) as (ds1 & Hds1 & Hb1 & Hr1); [lia|].
  destruct (IH acc1 ((n + 8) mod 6)%nat) as (ds2 & acc' & n' & Hds2 & Hn' & Hb2 & Hr2); [apply Nat.mod_upper_bound; lia|].
  exists (ds1 ++ ds2), acc', n'. split_and!.
  - by apply Forall_app.
  - done.
  - rewrite stream_app, <- app_assoc, Hb2, app_assoc, Hb1. unfold stream. cbn [fmap list_fmap concat]. rewrite app_assoc. f_equal.
    unfold acc1. apply (bits_push n 8 16); [|lia]. unfold is_u8 in Hv. lia.
  - intros dest i Hi. rewrite length_app in Hi. cbn [encode_loop].
    rewrite u16_add_some by (unfold is_u8 in Hv; lia). cbn [mbind option_bind]. fold acc1. rewrite Hr1 by lia. cbn [mbind option_bind].
    rewrite Hr2 by (rewrite length_splice; rewrite ?length_fmap; lia).
    rewrite <- (length_fmap char_of ds1) at 1. rewrite splice_app by (rewrite !length_fmap; lia). rewrite fmap_app.
    do 3 f_equal. rewrite length_app. lia.
Qed.

(** The last digit is filled up with [k] zero bits. *)
Lemma encode_digits_spec source :
  Forall is_u8 source →
  ∃ ds k, Forall digit_ok ds ∧ (k < 6)%nat ∧ stream 6 ds = stream 8 source ++ replicate k false
    ∧ (∀ dest, (length ds <= length dest)%nat →
        encode_without_size_check self dest source = Some (splice dest 0 (char_of <$> ds), length ds)).
Proof.
  intros Hu. destruct (encode_loop_spec source 0 0 Hu) as (ds & acc & n & Hds & Hn & Hb & Hr); [lia|]. cbn [bits app] in Hb.
  unfold encode_without_size_check. destruct (Nat.ltb_spec 0 n) as [Hpos|Hz].
  - set (d := Z.land (wrap16 (Z.shiftl acc (Z.of_nat (6 - n)))) 0x3F). exists (ds ++ [d]), (6 - n)%nat. split_and!.
    + apply Forall_app_2; [done|]. apply Forall_singleton, land_63_ok.
    + lia.
    + rewrite stream_app. unfold stream at 2. cbn [fmap list_fmap concat]. rewrite app_nil_r. unfold d. rewrite bits_land_63.
      rewrite <- Hb, <- app_assoc. f_equal. rewrite <- bits_0.
      rewrite <- (bits_push n (6 - n) 16 acc 0) by lia. rewrite Z.add_0_r. f_equal. lia.
    + intros dest Hlen. rewrite length_app in Hlen. cbn in Hlen. rewrite Hr by lia. cbn [mbind option_bind].
      destruct (Nat.ltb_spec 0 n); [|lia]. rewrite usize_sub_some by lia. cbn [mbind option_bind]. fold d. rewrite alphabet_lookup by apply land_63_ok. cbn [mbind option_bind].
      rewrite put_splice by (rewrite length_splice; rewrite ?length_fmap; lia). cbn [mbind option_bind Nat.add].
      rewrite <- (length_fmap char_of ds) at 1.
      rewrite (splice_app dest 0) by (rewrite length_fmap; cbn; lia). rewrite fmap_app. do 2 f_equal. by rewrite length_app.
  - exists ds, 0%nat. assert (n = 0%nat) as -> by lia. split_and!; [done|lia|cbn; by rewrite app_nil_r in *|].
    intros dest Hlen. by rewrite Hr by lia.
Qed.

Lemma pad_loop_spec n p dest i : (i + n <= length dest)%nat → pad_loop n p dest i = Some (splice dest i (replicate n p)).
Proof.
  revert dest i. induction n as [|n IH]; intros dest i H; cbn [pad_loop replicate]; [by rewrite splice_nil|].
  rewrite put_splice by lia. cbn [mbind option_bind]. rewrite IH by (rewrite length_splice; cbn; lia).
  change (i + 1)%nat with (i + length [p])%nat. rewrite splice_app by (rewrite length_replicate; cbn; lia). done.
Qed.

Definition padded : bool := bool_decide (is_Some (enc_pad_char self)).

(** The whole text: the digits and, with padding, one character per two zero bits. *)
Lemma encode_spec source :
  Forall is_u8 source →
  ∃ ds k, Forall digit_ok ds ∧ (k < 6)%nat ∧ stream 6 ds = stream 8 source ++ replicate k false
    ∧ let text := (char_of <$> ds) ++ replicate (if padded then k / 2 else 0)%nat (default 0 (enc_pad_char self)) in
      length text = calc_size self (length source)
      ∧ ∀ dest, (length text <= length dest)%nat → encode self dest source = Some (splice dest 0 text, text).
Proof.
  intros Hu. destruct (encode_digits_spec source Hu) as (ds & k & Hds & Hk & Hb & Hr). exists ds, k.
  split; [done|]. split; [done|]. split; [done|]. cbv zeta.
  assert (Hlen : (6 * length ds = 8 * length source + k)%nat).
  { apply (f_equal length) in Hb. by rewrite length_app, !length_stream, length_replicate in Hb. }
  assert (Hsize : length ((char_of <$> ds) ++ replicate (if padded then k / 2 else 0)%nat (default 0 (enc_pad_char self)))
                  = calc_size self (length source)).
  { rewrite length_app, length_fmap, length_replicate. unfold padded, calc_size, div_ceil.
    destruct (enc_pad_char self); cbn -[Nat.div Nat.modulo Nat.mul]; zify; Z.to_euclidean_division_equations; nia. }
  split; [exact Hsize|]. intros dest Hd. unfold encode. rewrite <- Hsize. rewrite (proj2 (Nat.leb_le _ _) Hd).
  cbn [debug_assert mbind option_bind]. rewrite length_app, length_fmap, length_replicate in *. rewrite Hr by lia. cbn [mbind option_bind].
  unfold padded in *. destruct (enc_pad_char self) as [p|]; cbn -[Nat.div Nat.ltb Nat.leb] in *.
  - destruct (Nat.ltb_spec (length ds + k / 2) (length ds)); [lia|].
    rewrite pad_loop_spec by (rewrite length_splice; rewrite ?length_fmap; lia). cbn [mbind option_bind].
    replace (length ds + k / 2 - length ds)%nat with (k / 2)%nat by lia.
    rewrite splice_splice by (rewrite ?length_fmap, ?length_replicate; lia).
    rewrite length_splice by (rewrite length_app, length_fmap, length_replicate; lia). rewrite (proj2 (Nat.leb_le _ _) Hd).
    by rewrite take_splice_0 by (rewrite length_app, length_fmap, length_replicate; lia).
  - rewrite app_nil_r. rewrite length_splice by (rewrite length_fmap; lia). rewrite (proj2 (Nat.leb_le _ _) Hd).
    by rewrite take_splice_0 by (rewrite length_fmap; lia).
Qed.
End encoder.

(** ** The decoder's table *)

Lemma alphabet_check_spec pad chars seen :
  alphabet_check seen pad chars = Some tt →
  NoDup chars ∧ (∀ c, c ∈ chars → seen !! Z.to_nat c = Some false) ∧ (∀ p, pad = Some p → p ∉ chars).
Proof.
  revert seen. induction chars as [|c chars IH]; intros seen H; [split_and!; [constructor|set_solver..]|].
  cbn in H. destruct (seen !! Z.to_nat c) as [[]|] eqn:Ec; cbn in H; try done.
  assert (Hp : ∀ p, pad = Some p → p ≠ c).
  { intros p -> ->. by rewrite Z.eqb_refl in H. }
  assert (H' : alphabet_check (<[Z.to_nat c := true]> seen) pad chars = Some tt).
  { destruct pad as [p|]; [|done]. specialize (Hp p eq_refl). destruct (Z.eqb_spec c p); [by subst|done]. }
  apply IH in H' as (Hnd & Hs & Hpad). split_and!.
  - constructor; [|done]. intros Hin. apply Hs in Hin. rewrite list_lookup_insert_eq in Hin; [done|].
    by apply lookup_lt_is_Some_1; exists false.
  - intros x [->|Hx]%elem_of_cons; [done|]. specialize (Hs _ Hx).
    destruct (decide (Z.to_nat x = Z.to_nat c)) as [E|E]; [by rewrite E|]. by rewrite list_lookup_insert_ne in Hs.
  - intros p -> [->|Hx]%elem_of_cons; [by apply (Hp c)|]. by apply (Hpad p).
Qed.

Lemma length_index_chars chars table i : length (index_chars table i chars) = length table.
Proof. revert table i. induction chars as [|c chars IH]; intros; cbn; [done|]. by rewrite IH, length_insert. Qed.

Lemma index_chars_other chars table i x :
  (∀ c, c ∈ chars → Z.to_nat c ≠ x) → index_chars table i chars !! x = table !! x.
Proof.
  revert table i. induction chars as [|c chars IH]; intros table i H; cbn; [done|].
  rewrite IH by set_solver. apply list_lookup_insert_ne. apply H. set_solver.
Qed.

Lemma index_chars_lookup chars table i j c :
  NoDup chars → Forall is_u8 chars → (256 <= length table ∨ ∀ x, x ∈ chars → Z.to_nat x < length table)%nat →
  chars !! j = Some c → index_chars table i chars !! Z.to_nat c = Some (i + Z.of_nat j).
Proof.
  revert table i j. induction chars as [|c' chars IH]; intros table i j Hnd Hu Ht Hj; [done|].
  apply NoDup_cons in Hnd as [Hnin Hnd]. apply Forall_cons in Hu as [Hc' Hu]. cbn.
  destruct j as [|j]; cbn in Hj.
  - injection Hj as ->. rewrite index_chars_other.
    + rewrite list_lookup_insert_eq; [f_equal; lia|]. unfold is_u8 in Hc'. destruct Ht as [Ht|Ht]; [lia|apply Ht; set_solver].
    + intros x Hx E. rewrite Forall_forall in Hu. specialize (Hu x Hx). unfold is_u8 in *. replace x with c in Hx by lia. done.
  - rewrite (IH _ _ j); [f_equal; lia|done|done| |done]. rewrite length_insert. set_solver.
Qed.

Lemma index_chars_range chars table i x d :
  index_chars table i chars !! x = Some d → table !! x = Some d ∨ i <= d < i + Z.of_nat (length chars).
Proof.
  revert table i. induction chars as [|c chars IH]; intros table i H; cbn in H; [by left|].
  apply IH in H as [H|H]; [|right; cbn; lia]. destruct (decide (Z.to_nat c = x)) as [<-|Hne].
  - apply list_lookup_insert_Some in H as [(_ & -> & _)|[? ?]]; [right; cbn; lia|done].
  - left. by rewrite list_lookup_insert_ne in H.
Qed.

(** What [init] establishes of a decoder's table. *)
Record decoder_wf (self : Base64Decoder) : Prop := {
  wf_length : length (char_to_index self) = 256%nat;
  wf_entries : ∀ x d, char_to_index self !! x = Some d → d = INVALID_CHAR ∨ digit_ok d;
  wf_pad : ∀ p, dec_pad_char self = Some p → char_to_index self !! Z.to_nat p = Some INVALID_CHAR;
}.

Definition alphabet_ok (chars : bytes) (pad : option Z) : Prop :=
  length chars = 64%nat ∧ Forall is_u8 chars ∧ ∀ p, pad = Some p → is_u8 p.

Lemma Decoder_init_wf chars pad self : alphabet_ok chars pad → Decoder_init chars pad = Some self → decoder_wf self.
Proof.
  intros (Hlen & Hu & Hp) H. unfold Decoder_init in H. destruct (alphabet_check _ _ _) as [[]|] eqn:E; cbn [mbind option_bind] in H; [|done].
  apply (inj Some) in H as <-. apply alphabet_check_spec in E as (Hnd & _ & Hpad). split; cbn [char_to_index dec_pad_char].
  - by rewrite length_index_chars, length_replicate.
  - intros x d Hd. apply index_chars_range in Hd as [Hd|Hd]; [left|right; unfold digit_ok; lia].
    by apply lookup_replicate in Hd as [-> _].
  - intros p E. specialize (Hp p E). specialize (Hpad p E). rewrite index_chars_other.
    + apply lookup_replicate_2. unfold is_u8 in Hp. lia.
    + intros c Hc Ec. rewrite Forall_forall in Hu. specialize (Hu c Hc). unfold is_u8 in *. by replace c with p in Hc by lia.
Qed.

(** The decoder of a pair of codecs knows the digits of its encoder. *)
Lemma codecs_tables chars pad c d :
  alphabet_ok chars pad → codecs chars pad = Some c → digit_ok d →
  char_to_index (c_decoder c) !! Z.to_nat (char_of (c_encoder c) d) = Some d.
Proof.
  intros (Hlen & Hu & Hp) H Hd. unfold codecs, Encoder_init, Decoder_init in H.
  destruct (alphabet_check _ _ _) as [[]|] eqn:E; cbn [mbind option_bind] in H; [|done]. apply (inj Some) in H as <-. cbn [c_decoder c_encoder char_to_index].
  apply alphabet_check_spec in E as (Hnd & _ & _). unfold digit_ok in Hd.
  rewrite (index_chars_lookup _ _ _ (Z.to_nat d)); [f_equal; lia|done|done|left; by rewrite length_replicate|].
  apply (alphabet_lookup (mkEncoder chars pad)); [done|done].
Qed.

Lemma codecs_fields chars pad c :
  codecs chars pad = Some c →
  Decoder_init chars pad = Some (c_decoder c) ∧ alphabet_chars (c_encoder c) = chars
  ∧ enc_pad_char (c_encoder c) = pad ∧ dec_pad_char (c_decoder c) = pad.
Proof.
  unfold codecs, Encoder_init, Decoder_init. destruct (alphabet_check _ _ _) as [[]|]; cbn; [|done]. by intros [= <-].
Qed.

(** ** The decoder as a string of bits *)

Section decoder.
Context (self : Base64Decoder) (Hwf : decoder_wf self).

Definition reads : bytes → list Z → Prop := Forall2 (λ c d, char_to_index self !! Z.to_nat c = Some d ∧ digit_ok d).

Lemma digit_valid d : digit_ok d → (d =? INVALID_CHAR) = false.
Proof. unfold digit_ok, INVALID_CHAR. intros H. apply Z.eqb_neq. lia. Qed.

(** One byte leaves the accumulator. *)
Lemma byte_out acc n :
  (8 <= n)%nat → bits 8 (Z.shiftr acc (Z.of_nat (n - 8)) mod 256) ++ bits (n - 8) acc = bits n acc.
Proof.
  intros H. change 256 with (2 ^ Z.of_nat 8). rewrite bits_mod by lia. rewrite <- bits_app. f_equal. lia.
Qed.

Lemma decode_loop_digits cs ds tail acc n :
  reads cs ds → (n < 8)%nat →
  ∃ out acc' n', Forall is_u8 out ∧ (n' < 8)%nat ∧ stream 8 out ++ bits n' acc' = bits n acc ++ stream 6 ds
    ∧ (∀ dest i, (i + length out <= length dest)%nat →
        decode_loop self (cs ++ tail) acc n dest i = decode_loop self tail acc' n' (splice dest i out) (i + length out)).
Proof.
  intros H. revert acc n. induction H as [|c d cs ds [Hc Hd] H IH]; intros acc n Hn.
  { exists [], acc, n. split_and!; [done|done|by rewrite app_nil_r|]. intros dest i _. by rewrite splice_nil, Nat.add_0_r. }
  set (acc1 := wrap16 (Z.shiftl acc 6) + d).
  assert (Hb1 : bits (n + 6) acc1 = bits n acc ++ bits 6 d) by (apply (bits_push n 6 16); [exact Hd|lia]).
  cbn [app decode_loop]. rewrite Hc. cbn [mbind option_bind]. rewrite (digit_valid d Hd).
  rewrite u16_add_some by (unfold digit_ok in Hd; lia). cbn [mbind option_bind]. fold acc1.
  destruct (Nat.leb_spec 8 (n + 6)) as [Hge|Hlt].
  - destruct (IH acc1 (n + 6 - 8)%nat) as (out & acc' & n' & Hu & Hn' & Hb & Hr); [lia|].
    set (v := Z.shiftr acc1 (Z.of_nat (n + 6 - 8)) mod 256). exists (v :: out), acc', n'. split_and!.
    + apply Forall_cons. split; [apply Z.mod_pos_bound; lia|done].
    + done.
    + unfold stream in *. cbn [fmap list_fmap concat]. rewrite <- app_assoc, Hb, app_assoc. unfold v.
      rewrite byte_out by lia. rewrite Hb1. by rewrite app_assoc.
    + intros dest i Hi. cbn in Hi. rewrite usize_sub_some by lia. cbn [mbind option_bind].
      rewrite put_splice by lia. cbn [mbind option_bind].
      rewrite Hr by (rewrite length_splice; cbn; lia). fold v. rewrite splice_splice by (cbn; lia). f_equal. cbn. lia.
  - destruct (IH acc1 (n + 6)%nat) as (out & acc' & n' & Hu & Hn' & Hb & Hr); [lia|].
    exists out, acc', n'. split_and!; [done|done| |done]. rewrite Hb, Hb1. unfold stream. cbn. by rewrite <- app_assoc.
Qed.

(** A source is digits up to its end or to the first character that is none. *)
Lemma source_split source :
  Forall is_u8 source →
  ∃ cs ds tail, source = cs ++ tail ∧ reads cs ds
    ∧ (tail = [] ∨ ∃ c t, tail = c :: t ∧ char_to_index self !! Z.to_nat c = Some INVALID_CHAR).
Proof.
  induction 1 as [|c source Hc Hu (cs & ds & tail & -> & Hr & Ht)]; [exists [], [], []; split_and!; [done|constructor|by left]|].
  destruct (char_to_index self !! Z.to_nat c) as [d|] eqn:E.
  - destruct (wf_entries self Hwf _ _ E) as [->|Hd].
    + exists [], [], (c :: cs ++ tail). split_and!; [done|constructor|]. right. by exists c, (cs ++ tail).
    + exists (c :: cs), (d :: ds), tail. split_and!; [done| |done]. by constructor.
  - apply lookup_ge_None in E. rewrite (wf_length self Hwf) in E. unfold is_u8 in Hc. lia.
Qed.

Lemma reads_not_pad cs ds p : reads cs ds → dec_pad_char self = Some p → is_u8 p → p ∉ cs.
Proof.
  intros H Hp Hu. apply (wf_pad self Hwf) in Hp. induction H as [|c d cs ds [Hc Hd] H IH]; [set_solver|].
  intros [->|Hin]%elem_of_cons; [|done]. rewrite Hp in Hc. injection Hc as <-. by apply digit_valid in Hd.
Qed.

Lemma count_padding_spec p tail n m :
  count_padding (λ _, false) p tail n = Ok m → tail = replicate (length tail) p ∧ m = (n + length tail)%nat.
Proof.
  revert n. induction tail as [|c tail IH]; intros n H; cbn in H; [injection H as <-; split; [done|cbn; lia]|].
  destruct (Z.eqb_spec c p) as [->|]; cbn in H; [|by destruct (_ =? _)]. apply IH in H as [-> ->].
  cbn. rewrite length_replicate. split; [done|lia].
Qed.

Lemma count_padding_replicate p k n : count_padding (λ _, false) p (replicate k p) n = Ok (n + k)%nat.
Proof. revert n. induction k as [|k IH]; intros n; cbn; [f_equal; lia|]. rewrite Z.eqb_refl. cbn. rewrite IH. f_equal. lia. Qed.

(** ** The size of the destination *)

(** 1 when the [j]-th character from the end is the padding. *)
Definition is_pad (p : Z) (source : bytes) (j : nat) : nat :=
  if (j <=? length source)%nat && bool_decide (source !! (length source - j)%nat = Some p) then 1%nat else 0%nat.

Lemma less_pad_spec p source j res : (1 <= j)%nat → (is_pad p source j <= res)%nat → less_pad p source j res = Some (res - is_pad p source j)%nat.
Proof.
  intros Hpos. unfold less_pad, is_pad. destruct (Nat.leb_spec j (length source)) as [Hj|]; cbn [andb]; [|by rewrite Nat.sub_0_r].
  rewrite (usize_sub_some (length source)) by done. cbn [mbind option_bind].
  destruct (lookup_lt_is_Some_2 source (length source - j)) as [c ->]; [lia|]. cbn [mbind option_bind].
  destruct (Z.eqb_spec c p) as [->|Hne].
  - rewrite bool_decide_eq_true_2 by done. intros H. by rewrite usize_sub_some by lia.
  - rewrite bool_decide_eq_false_2 by congruence. by rewrite Nat.sub_0_r.
Qed.

Lemma is_pad_range p source j : (is_pad p source j <= 1)%nat ∧ (is_pad p source j = 1 → j <= length source)%nat.
Proof. unfold is_pad. destruct (Nat.leb_spec j (length source)); cbn; [case_bool_decide|]; lia. Qed.

Lemma is_pad_tail p cs tail j : p ∉ cs → (1 <= j)%nat → is_pad p (cs ++ tail) j = 1%nat → (j <= length tail)%nat.
Proof.
  intros Hp Hj. unfold is_pad. destruct (Nat.leb_spec j (length (cs ++ tail))) as [Hle|]; cbn; [|done].
  case_bool_decide as E; [intros _|done]. rewrite length_app in *. destruct (decide (j <= length tail)%nat) as [|Hgt]; [done|].
  rewrite lookup_app_l in E by lia. apply list_elem_of_lookup_2 in E. done.
Qed.

Lemma is_pad_replicate p cs m j :
  p ∉ cs → (1 <= j)%nat → is_pad p (cs ++ replicate m p) j = if (j <=? m)%nat then 1%nat else 0%nat.
Proof.
  intros Hp Hj. destruct (Nat.leb_spec j m) as [Hle|Hgt].
  - unfold is_pad. rewrite length_app, length_replicate. rewrite (proj2 (Nat.leb_le _ _)) by lia. cbn.
    rewrite bool_decide_eq_true_2; [done|]. rewrite lookup_app_r by lia. apply lookup_replicate_2. lia.
  - pose proof (is_pad_range p (cs ++ replicate m p) j) as [H1 _].
    destruct (is_pad p (cs ++ replicate m p) j) as [|[|?]] eqn:E; [done| |lia].
    apply is_pad_tail in E; [|done|done]. rewrite length_replicate in E. lia.
Qed.

Definition size_ok (source : bytes) : Prop :=
  match dec_pad_char self with Some _ => length source mod 4 = 0 | None => length source mod 4 ≠ 1 end%nat.

Definition size_of (source : bytes) : nat :=
  match dec_pad_char self with
  | Some p => (length source / 4 * 3 - is_pad p source 1 - is_pad p source 2)%nat
  | None => (length source * 3 / 4)%nat
  end.

(** [calc_size_for_slice] never underflows. *)
Lemma calc_size_spec source :
  (size_ok source ∧ calc_size_for_slice self source = Some (Ok (size_of source)))
  ∨ (¬ size_ok source ∧ calc_size_for_slice self source = Some (Err InvalidPadding)).
Proof.
  unfold size_ok, size_of, calc_size_for_slice, calc_size_upper_bound. destruct (dec_pad_char self) as [p|].
  - rewrite Nat.Div0.mod_mod. destruct (Nat.eqb_spec (length source mod 4) 0) as [H|H]; cbn [negb]; [left|by right].
    split; [done|]. pose proof (is_pad_range p source 1) as [H1 H1']. pose proof (is_pad_range p source 2) as [H2 H2'].
    assert (Hn : (is_pad p source 1 + is_pad p source 2 <= length source / 4 * 3)%nat)
      by (zify; Z.to_euclidean_division_equations; nia).
    rewrite (less_pad_spec p source 1) by lia. cbn [mbind option_bind]. by rewrite (less_pad_spec p source 2) by lia.
  - rewrite Nat.Div0.mod_mod. destruct (Nat.eqb_spec (length source mod 4) 1) as [H|H]; [right; naive_solver|left].
    split; [done|]. do 2 f_equal. zify. Z.to_euclidean_division_equations. nia.
Qed.

(** ** What [decode] answers *)

Definition closing (acc : Z) (n : nat) (r : result unit) : result unit :=
  if (4 <? n)%nat || negb (low_bits acc n =? 0) then Err InvalidPadding else r.

Definition verdict (acc : Z) (n : nat) (tail : bytes) : result unit :=
  match tail with
  | [] => closing acc n (Ok tt)
  | c :: _ => if bool_decide (dec_pad_char self = Some c) then closing acc n (check_padding (λ _, false) c tail n) else Err InvalidCharacter
  end.

Lemma decode_spec cs ds tail :
  size_ok (cs ++ tail) → reads cs ds → (tail = [] ∨ ∃ c t, tail = c :: t ∧ char_to_index self !! Z.to_nat c = Some INVALID_CHAR) →
  ∃ out acc n, Forall is_u8 out ∧ (n < 8)%nat ∧ stream 8 out ++ bits n acc = stream 6 ds
    ∧ ∀ dest, (length out <= length dest)%nat → decode self dest (cs ++ tail) = Some (verdict acc n tail, splice dest 0 out).
Proof.
  intros Hsize Hr Ht. destruct (decode_loop_digits cs ds tail 0 0 Hr) as (out & acc & n & Hu & Hn & Hb & Hrun); [lia|].
  exists out, acc, n. split_and!; [done..|]. intros dest Hd. unfold decode.
  assert (bool_decide (is_Some (dec_pad_char self)) && negb (length (cs ++ tail) mod 4 =? 0)%nat = false) as ->.
  { unfold size_ok in Hsize. destruct (dec_pad_char self); cbn -[Nat.modulo]; [|done]. by rewrite Hsize. }
  rewrite Hrun by lia. destruct Ht as [->|(c & t & -> & Hc)]; cbn [decode_loop]; cbn [mbind option_bind].
  - unfold verdict, closing. done.
  - rewrite Hc. cbn [mbind option_bind]. rewrite Z.eqb_refl. unfold verdict, closing. case_bool_decide as E; cbn [negb].
    + by rewrite E.
    + done.
Qed.

(** Padding characters are not digits. *)
Context (Hpu : ∀ p, dec_pad_char self = Some p → is_u8 p).

Lemma fits cs ds tail (out : bytes) (n : nat) :
  size_ok (cs ++ tail) → reads cs ds → (8 * length out + n = 6 * length ds)%nat → (length out <= size_of (cs ++ tail))%nat.
Proof.
  intros Hs Hr Hlen. assert (Hl : length cs = length ds) by (by eapply Forall2_length). unfold size_ok, size_of in *.
  destruct (dec_pad_char self) as [p|] eqn:Ep.
  - pose proof (reads_not_pad cs ds p Hr Ep (Hpu p eq_refl)) as Hnin.
    pose proof (is_pad_range p (cs ++ tail) 1) as [H1 _]. pose proof (is_pad_range p (cs ++ tail) 2) as [H2 _].
    pose proof (is_pad_tail p cs tail 1 Hnin) as T1. pose proof (is_pad_tail p cs tail 2 Hnin) as T2.
    rewrite length_app in *. zify. Z.to_euclidean_division_equations. nia.
  - rewrite length_app in *. zify. Z.to_euclidean_division_equations. nia.
Qed.

Lemma verdict_ok acc n tail :
  verdict acc n tail = Ok tt →
  (n <= 4)%nat ∧ bits n acc = replicate n false
  ∧ (tail = [] ∨ ∃ p, dec_pad_char self = Some p ∧ tail = replicate (n / 2) p).
Proof.
  unfold verdict, closing. intros H.
  assert (Hc : (4 <? n)%nat || negb (low_bits acc n =? 0) = false).
  { destruct tail; [|case_bool_decide; [|done]]; by destruct (_ || _). }
  rewrite Hc in H. apply orb_false_iff in Hc as [H4%Nat.ltb_ge Hb%negb_false_iff%Z.eqb_eq].
  apply low_bits_0 in Hb. split_and!; [done..|]. destruct tail as [|c t]; [by left|right]. exists c.
  case_bool_decide as E; [|done]. split; [done|]. unfold check_padding in H.
  destruct (count_padding _ _ _ _) as [m|] eqn:Ec; [|done]. apply count_padding_spec in Ec as [Et ->].
  destruct (Nat.eqb_spec (0 + length (c :: t)) (n / 2)) as [En|]; [|done]. rewrite Et. f_equal. exact En.
Qed.

Lemma verdict_pads acc n tail :
  (n <= 4)%nat → bits n acc = replicate n false →
  (tail = [] ∨ ∃ p, dec_pad_char self = Some p ∧ tail = replicate (n / 2) p) → verdict acc n tail = Ok tt.
Proof.
  intros Hn Hb Ht. apply low_bits_0 in Hb.
  assert (Hc : ∀ r, closing acc n r = r).
  { intros r. unfold closing. destruct (Nat.ltb_spec 4 n); [lia|]. by rewrite Hb. }
  destruct Ht as [->|(p & Hp & ->)]; [apply Hc|]. unfold verdict. destruct (replicate (n / 2) p) as [|c t] eqn:E; [apply Hc|].
  assert (c = p) as ->. { apply (f_equal head) in E. destruct (n / 2)%nat; [done|]. by injection E. }
  rewrite bool_decide_eq_true_2 by done. rewrite Hc. unfold check_padding. rewrite <- E, count_padding_replicate. cbn.
  by rewrite Nat.eqb_refl.
Qed.

(** A source that decodes fills its destination. *)
Lemma fills cs ds tail (out : bytes) n acc :
  size_ok (cs ++ tail) → reads cs ds → (8 * length out + n = 6 * length ds)%nat → verdict acc n tail = Ok tt →
  length out = size_of (cs ++ tail).
Proof.
  intros Hs Hr Hlen (Hn & _ & Ht)%verdict_ok. assert (Hl : length cs = length ds) by (by eapply Forall2_length).
  unfold size_ok, size_of in *. destruct (dec_pad_char self) as [p|] eqn:Ep.
  - pose proof (reads_not_pad cs ds p Hr Ep (Hpu p eq_refl)) as Hnin.
    assert (Ht' : ∃ m, tail = replicate m p ∧ (m = 0 ∨ m = n / 2)%nat).
    { destruct Ht as [->|(p' & [= <-] & ->)]; [exists 0%nat|exists (n / 2)%nat]; auto. }
    destruct Ht' as (m & -> & Hm). rewrite !is_pad_replicate by (done || lia). rewrite length_app, length_replicate in *.
    destruct (Nat.leb_spec 1 m), (Nat.leb_spec 2 m); zify; Z.to_euclidean_division_equations; nia.
  - destruct Ht as [->|(p & [=] & _)]. rewrite app_nil_r in *. zify. Z.to_euclidean_division_equations. nia.
Qed.
End decoder.

(** C35. [calc_size_for_slice] never panics (its subtractions and its two looks at the
    end of the source are checked), whatever the source, the empty one included, and a
    destination of the size it returns is enough: whatever the characters, [decode]
    neither reads outside the source nor writes outside the destination. Whether the source decodes, and with which error it does not, does not
    depend on the destination; when it decodes, every byte of the destination
    is written, so that nothing of what it held before is left. *)
Theorem decode_stays_in_destination chars pad self source :
  alphabet_ok chars pad → Decoder_init chars pad = Some self → Forall is_u8 source →
  calc_size_for_slice self source = Some (Err InvalidPadding)
  ∨ ∃ n, calc_size_for_slice self source = Some (Ok n)
      ∧ ((∃ out, length out = n ∧ Forall is_u8 out ∧ ∀ dest, length dest = n → decode self dest source = Some (Ok tt, out))
         ∨ ∃ e, ∀ dest, length dest = n → ∃ dest', length dest' = n ∧ decode self dest source = Some (Err e, dest')).
Proof.
  intros Ha Hi Hu. pose proof (Decoder_init_wf _ _ _ Ha Hi) as Hwf.
  assert (Hpad : dec_pad_char self = pad).
  { unfold Decoder_init in Hi. destruct (alphabet_check _ _ _); cbn [mbind option_bind] in Hi; [|done]. by apply (inj Some) in Hi as <-. }
  assert (Hpu : ∀ p, dec_pad_char self = Some p → is_u8 p) by (rewrite Hpad; apply Ha).
  destruct (calc_size_spec self source) as [[Hs Hc]|[_ Hc]]; [right|by left]. exists (size_of self source). split; [done|].
  destruct (source_split self Hwf source Hu) as (cs & ds & tail & -> & Hr & Ht).
  destruct (decode_spec self cs ds tail Hs Hr Ht) as (out & acc & n & Hout & Hn & Hb & Hrun).
  assert (Hlen : (8 * length out + n = 6 * length ds)%nat).
  { apply (f_equal length) in Hb. by rewrite length_app, !length_stream, length_bits in Hb. }
  pose proof (fits self Hwf Hpu cs ds tail out n Hs Hr Hlen) as Hfit. destruct (verdict self acc n tail) as [[]|e] eqn:Ev.
  - left. exists out. pose proof (fills self Hwf Hpu cs ds tail out n acc Hs Hr Hlen Ev) as Hfill. split_and!; [done..|].
    intros dest Hd. rewrite Hrun by lia. by rewrite splice_all by lia.
  - right. exists e. intros dest Hd. exists (splice dest 0 out). rewrite Hrun by lia. split; [|done]. rewrite length_splice; lia.
Qed.

Lemma Forall_u8_b l : forallb (λ z, (0 <=? z) && (z <? 256)) l = true → Forall is_u8 l.
Proof. intros H. apply Forall_forall. intros x Hx. eapply forallb_forall in H; [|by apply list_elem_of_In]. unfold is_u8. lia. Qed.

Lemma standard_alphabet_ok pad : (∀ p, pad = Some p → is_u8 p) → alphabet_ok STANDARD_ALPHABET_CHARS pad.
Proof. intros H. split_and!; [done|by apply Forall_u8_b|done]. Qed.

Definition standard_decoder : Base64Decoder :=
  mkDecoder (index_chars (replicate 256 INVALID_CHAR) 0 STANDARD_ALPHABET_CHARS) (Some (ch "=")).

(** [=] in the middle: the size allows three bytes, and none is decoded. *)
Lemma decode_stays_in_destination_witness :
  calc_size_for_slice standard_decoder (bs "A=AA") = Some (Ok 3%nat)
  ∧ ∃ n, calc_size_for_slice standard_decoder (bs "Zm9=") = Some (Ok n) ∧ n = 2%nat.
Proof.
  split; [reflexivity|].
  destruct (decode_stays_in_destination STANDARD_ALPHABET_CHARS (Some (ch "=")) standard_decoder (bs "Zm9=")) as [H|(n & H & _)].
  - apply standard_alphabet_ok. intros p [= <-]. unfold is_u8. lia.
  - reflexivity.
  - by apply Forall_u8_b.
  - discriminate H.
  - exists n. split; [exact H|]. vm_compute in H. by injection H.
Defined.

(** The digits of an encoding, in the characters [cs] the decoder reads as them. *)
Lemma decode_encoding self cs ds k m p source :
  decoder_wf self → (∀ p, dec_pad_char self = Some p → is_u8 p) → reads self cs ds → Forall is_u8 source → (k < 6)%nat →
  stream 6 ds = stream 8 source ++ replicate k false →
  (dec_pad_char self = None ∧ m = 0 ∨ dec_pad_char self = Some p ∧ m = k / 2)%nat →
  calc_size_for_slice self (cs ++ replicate m p) = Some (Ok (length source))
  ∧ ∀ out, (length source <= length out)%nat → decode self out (cs ++ replicate m p) = Some (Ok tt, splice out 0 source).
Proof.
  intros Hwf Hpu Hr Hu Hk Hb Hm. assert (Hl : length cs = length ds) by (by eapply Forall2_length).
  assert (Hbits : (6 * length ds = 8 * length source + k)%nat).
  { apply (f_equal length) in Hb. by rewrite length_app, !length_stream, length_replicate in Hb. }
  assert (Hs : size_ok self (cs ++ replicate m p)).
  { unfold size_ok. rewrite length_app, length_replicate.
    destruct Hm as [[-> ->]|[-> ->]]; zify; Z.to_euclidean_division_equations; nia. }
  destruct (decode_spec self cs ds (replicate m p) Hs Hr) as (out & acc & n & Hout & Hn & Hb2 & Hrun).
  { destruct m as [|m']; [by left|right]. exists p, (replicate m' p). split; [done|]. apply (wf_pad _ Hwf). naive_solver. }
  assert (Hlens : (8 * length out + n = 6 * length ds)%nat).
  { apply (f_equal length) in Hb2. by rewrite length_app, !length_stream, length_bits in Hb2. }
  rewrite Hb in Hb2. apply app_inj_1 in Hb2 as [Hsame Hzero]; [|rewrite !length_stream; lia].
  assert (n = k) as -> by lia. apply stream_inj in Hsame as ->; [|done|done|lia].
  assert (Hv : verdict self acc k (replicate m p) = Ok tt).
  { apply (verdict_pads self); [lia|done|]. destruct Hm as [[_ ->]|[-> ->]]; [by left|right; by exists p]. }
  pose proof (fills _ Hwf Hpu _ _ _ _ _ _ Hs Hr Hlens Hv) as Hfill. split.
  - destruct (calc_size_spec self (cs ++ replicate m p)) as [[_ ->]|[? _]]; [by rewrite Hfill|done].
  - intros o Ho. rewrite Hrun by lia. by rewrite Hv.
Qed.

Lemma reads_encoding self enc ds :
  Forall digit_ok ds → (∀ d, digit_ok d → char_to_index self !! Z.to_nat (char_of enc d) = Some d) → reads self (char_of enc <$> ds) ds.
Proof.
  intros Hds H. apply Forall2_fmap_l, Forall_Forall2_diag. eapply Forall_impl; [exact Hds|]. intros d Hd. split; [|done]. by apply H.
Qed.

(** C34. Encoding and decoding: for every alphabet that [init] accepts and every
    string of bytes, [encode] writes exactly [calc_size] characters, the decoder
    computes the length of the original from them, and decoding gives the
    original back. *)
Theorem base64_roundtrip chars pad c source dest :
  alphabet_ok chars pad → codecs chars pad = Some c → Forall is_u8 source →
  (calc_size (c_encoder c) (length source) <= length dest)%nat →
  ∃ text, encode (c_encoder c) dest source = Some (text ++ drop (length text) dest, text)
    ∧ length text = calc_size (c_encoder c) (length source)
    ∧ calc_size_for_slice (c_decoder c) text = Some (Ok (length source))
    ∧ ∀ out, length out = length source → decode (c_decoder c) out text = Some (Ok tt, source).
Proof.
  intros Ha Hc Hu Hd. destruct (codecs_fields _ _ _ Hc) as (Hi & Hchars & Hep & Hdp). pose proof (Decoder_init_wf _ _ _ Ha Hi) as Hwf.
  destruct (encode_spec (c_encoder c) ltac:(rewrite Hchars; apply Ha) source Hu) as (ds & k & Hds & Hk & Hb & Hlen & Henc).
  rewrite <- Hlen in Hd. eexists. split; [by rewrite Henc|]. split; [done|].
  destruct (decode_encoding (c_decoder c) (char_of (c_encoder c) <$> ds) ds k (if padded (c_encoder c) then k / 2 else 0)%nat
              (default 0 (enc_pad_char (c_encoder c))) source) as [Hsize Hdec]; try done.
  - rewrite Hdp. apply Ha.
  - apply reads_encoding; [done|]. intros d. by eapply codecs_tables.
  - unfold padded. rewrite Hep, Hdp. destruct pad; cbn; auto.
  - split; [exact Hsize|]. intros o Ho. rewrite Hdec by lia. by rewrite splice_all.
Qed.

Lemma base64_roundtrip_witness :
  ∃ c text, STANDARD = Some c ∧ length text = 8%nat ∧ decode (c_decoder c) (replicate 5 7) text = Some (Ok tt, bs "fooba").
Proof.
  destruct STANDARD as [c|] eqn:E; [|discriminate E]. exists c.
  destruct (base64_roundtrip STANDARD_ALPHABET_CHARS (Some (ch "=")) c (bs "fooba") (replicate 8 0)) as (text & _ & Hlen & _ & Hd).
  - apply standard_alphabet_ok. intros p [= <-]. unfold is_u8. lia.
  - exact E.
  - by apply Forall_u8_b.
  - vm_compute in E. injection E as <-. vm_compute. lia.
  - exists text. split; [reflexivity|]. split; [|by apply Hd]. rewrite Hlen. vm_compute in E. injection E as <-. reflexivity.
Defined.

(** ** Variable-length quantities *)

Definition lut_check (d : nat) : bool :=
  match STANDARD_ALPHABET_CHARS !! d with
  | Some c => (c <? 127) && bool_decide (vlq.BASE64_LUT !! Z.to_nat (Z.land c 0x7f) = Some (Z.of_nat d))
  | None => false
  end.

Lemma lut_digit d : 0 <= d < 64 →
  ∃ c, STANDARD_ALPHABET_CHARS !! Z.to_nat d = Some c ∧ (c <? 127) = true ∧ vlq.BASE64_LUT !! Z.to_nat (Z.land c 0x7f) = Some d.
Proof.
  intros H. assert (E : forallb lut_check (seq 0 64) = true) by (by vm_compute).
  eapply forallb_forall with (x := Z.to_nat d) in E; [|apply in_seq; lia]. unfold lut_check in E.
  destruct (STANDARD_ALPHABET_CHARS !! Z.to_nat d) as [c|]; [|done]. exists c. apply andb_prop in E as [E1 E2].
  apply bool_decide_eq_true in E2. rewrite Z2Nat.id in E2 by lia. done.
Qed.

(** The last digit is read as it was written; [v] holds the [shift] bits before it. *)
Definition sign_magnitude (v : Z) : Z := if Z.land v 1 =? 0 then Z.shiftr v 1 else - Z.shiftr v 1.

Lemma vlq_accumulate v d shift :
  0 <= shift <= 30 → 0 <= v < 2 ^ shift → 0 <= d → v + d * 2 ^ shift < 2 ^ 32 →
  Z.lor v (wrap32 (Z.shiftl d (Z.land shift 31))) = v + d * 2 ^ shift.
Proof.
  intros Hs Hv Hd Hlt. change 31 with (Z.ones 5). rewrite Z.land_ones, Z.mod_small by lia. rewrite Z.shiftl_mul_pow2 by lia.
  unfold wrap32. rewrite Z.mod_small by lia. rewrite <- Z.lxor_lor, <- Z.add_nocarry_lxor; [done|..];
    (apply Z.bits_inj'; intros i Hi; rewrite Z.land_spec, Z.bits_0; destruct (decide (i < shift)) as [Hlo|Hhi];
     [rewrite (Z.mul_pow2_bits_low d) by lia; apply andb_false_r|];
     rewrite <- (Z.mod_small v (2 ^ shift)) by lia; by rewrite (Z.mod_pow2_bits_high v) by lia).
Qed.

Lemma digit_bits lo : 0 <= lo < 32 →
  Z.lor lo 32 = lo + 32 ∧ Z.land (lo + 32) 31 = lo ∧ Z.land (lo + 32) 32 = 32 ∧ Z.land lo 31 = lo ∧ Z.land lo 32 = 0.
Proof.
  intros H. set (f := λ n, let z := Z.of_nat n in (Z.lor z 32 =? z + 32) && (Z.land (z + 32) 31 =? z) && (Z.land (z + 32) 32 =? 32)
                          && (Z.land z 31 =? z) && (Z.land z 32 =? 0)).
  assert (E : forallb f (seq 0 32) = true) by (by vm_compute).
  eapply forallb_forall with (x := Z.to_nat lo) in E; [|apply in_seq; lia]. unfold f in E. rewrite Z2Nat.id in E by lia. lia.
Qed.

Lemma encode_digits_decode b fuel v acc :
  (1 <= fuel <= 7)%nat → 0 <= v < 2 ^ (32 - 5 * (7 - Z.of_nat fuel)) →
  ∃ t, vlq.encode_digits fuel v acc = Some (acc ++ t) ∧ (1 <= length t <= fuel)%nat
    ∧ ∀ rest v0 start i, 0 <= v0 < 2 ^ (5 * (7 - Z.of_nat fuel)) →
        vlq.decode_digits b (t ++ rest) (5 * (7 - Z.of_nat fuel)) v0 start i
        = Some (vlq.mkResult (sign_magnitude (v0 + v * 2 ^ (5 * (7 - Z.of_nat fuel)))) (start + i + length t)).
Proof.
  revert v acc. induction fuel as [|fuel IH]; intros v acc Hf Hv; [lia|].
  set (s := 5 * (7 - Z.of_nat (S fuel))) in *. assert (Hs : 0 <= s <= 30) by lia.
  assert (Hpow : 2 ^ s * 2 ^ (32 - s) = 2 ^ 32) by (rewrite <- Z.pow_add_r by lia; f_equal; lia).
  cbn [vlq.encode_digits]. set (lo := Z.land v 31). set (hi := Z.shiftr v 5).
  assert (Hlo : lo = v mod 32) by (unfold lo; change 31 with (Z.ones 5); by rewrite Z.land_ones by lia).
  assert (Hhi : hi = v / 32) by (unfold hi; by rewrite Z.shiftr_div_pow2 by lia).
  pose proof (Z.mod_pos_bound v 32 ltac:(lia)). pose proof (Z.div_pos v 32 ltac:(lia) ltac:(lia)). pose proof (Z.div_mod v 32 ltac:(lia)).
  destruct (digit_bits lo ltac:(lia)) as (D1 & D2 & D3 & D4 & D5).
  assert (Hmul : v * 2 ^ s = lo * 2 ^ s + hi * (2 ^ 5 * 2 ^ s)) by (rewrite Hlo, Hhi; nia).
  assert (Hpos : 0 < 2 ^ s) by lia. assert (Hmax : v * 2 ^ s < 2 ^ 32 - 2 ^ s + 1) by nia.
  destruct (Z.eqb_spec hi 0) as [Hz|Hnz]; cbn [negb].
  - destruct (lut_digit lo ltac:(lia)) as (c & -> & Hc & Hl). exists [c]. cbn [mbind option_bind]. split; [done|]. split; [cbn; lia|].
    intros rest v0 start i Hv0. cbn [app vlq.decode_digits]. change vlq.U7_MAX with 127. rewrite Hc, orb_true_r. cbn [debug_assert mbind option_bind].
    rewrite Hl. cbn [mbind option_bind]. rewrite (proj2 (Z.eqb_neq lo 127)), orb_true_r by lia. cbn [debug_assert mbind option_bind].
    rewrite D4, D5. cbn [Z.eqb]. rewrite vlq_accumulate by nia.
    rewrite Hmul, Hz, Z.mul_0_l, Z.add_0_r. reflexivity.
  - assert (Hfuel : (1 <= fuel)%nat).
    { destruct fuel; [|lia]. assert (v < 2 ^ 2) by (eapply Z.lt_le_trans; [apply Hv|apply Z.pow_le_mono_r; lia]). rewrite Hhi in Hnz. lia. }
    replace (5 * (7 - Z.of_nat fuel)) with (s + 5) in IH by lia.
    destruct (IH hi (acc ++ [STANDARD_ALPHABET_CHARS !!! Z.to_nat (lo + 32)]) ltac:(lia)) as (t & Ht & Hlen & Hdec).
    { split; [lia|]. rewrite Hhi. apply Z.div_lt_upper_bound; [lia|]. change 32 with (2 ^ 5). rewrite <- Z.pow_add_r by lia.
      replace (5 + (2 ^ 5 - (s + 5))) with (32 - s) by lia. lia. }
    rewrite D1. destruct (lut_digit (lo + 32) ltac:(lia)) as (c & Ec & Hc & Hl). rewrite (list_lookup_total_correct _ _ _ Ec) in Ht.
    rewrite Ec. cbn [mbind option_bind]. rewrite Ht, <- app_assoc. exists (c :: t). split; [done|]. split; [cbn; lia|].
    intros rest v0 start i Hv0. cbn [app vlq.decode_digits]. change vlq.U7_MAX with 127. rewrite Hc, orb_true_r. cbn [debug_assert mbind option_bind].
    rewrite Hl. cbn [mbind option_bind]. rewrite (proj2 (Z.eqb_neq (lo + 32) 127)), orb_true_r by lia. cbn [debug_assert mbind option_bind].
    rewrite D2, D3. cbn [Z.eqb]. rewrite vlq_accumulate by nia. rewrite Hdec; [|rewrite Z.pow_add_r by lia; nia].
    do 2 f_equal; [|cbn; lia]. f_equal. rewrite Hmul, Z.pow_add_r by lia. ring.
Qed.

Lemma sign_bit m : 0 <= m → Z.lor (2 * m) 1 = 2 * m + 1 ∧ sign_magnitude (2 * m) = m ∧ sign_magnitude (2 * m + 1) = - m.
Proof. intros H. by destruct m. Qed.

Lemma encode_is_slow_path v : vlq.encode v = vlq.encode_slow_path v.
Proof.
  unfold vlq.encode. destruct (_ && _) eqn:E; [|done]. unfold vlq.VLQ_LOOKUP_TABLE.
  rewrite !list_lookup_fmap, lookup_seq_lt by lia. cbn [fmap option_fmap option_map mbind option_bind]. f_equal. lia.
Qed.

(** C36. Variable-length quantities: the text of a 32-bit integer is one to seven
    characters long, and wherever it stands in a mapping, [decode] and
    [decode_assume_valid] read the integer back and stop right after it; only
    [i32::MIN], which has no sign and magnitude, is read as 0. *)
Theorem vlq_roundtrip v pre rest assert_valid :
  - 2 ^ 31 <= v < 2 ^ 31 →
  ∃ t, vlq.encode v = Some (vlq.mkVLQ t) ∧ (1 <= length t <= vlq.VLQ_MAX_IN_BYTES)%nat
    ∧ vlq.decode_impl assert_valid (pre ++ t ++ rest) (length pre)
      = Some (vlq.mkResult (if v =? - 2 ^ 31 then 0 else v) (length pre + length t)).
Proof.
  intros Hv. rewrite encode_is_slow_path. unfold vlq.encode_slow_path.
  set (u := if 0 <=? v then _ else _).
  assert (Hu : 0 <= u < 2 ^ 32 ∧ sign_magnitude u = if v =? - 2 ^ 31 then 0 else v).
  { subst u. unfold wrap32. rewrite !Z.shiftl_mul_pow2 by lia. change (2 ^ 1) with 2. destruct (Z.leb_spec 0 v) as [Hp|Hn].
    - rewrite (proj2 (Z.eqb_neq v (- 2 ^ 31))) by lia. rewrite Z.mod_small by lia. rewrite Z.mul_comm.
      split; [lia|]. by apply sign_bit.
    - destruct (Z.eqb_spec v (- 2 ^ 31)) as [->|]; [done|]. rewrite Z.mod_small, Z.mul_comm by lia.
      destruct (sign_bit (Z.abs v) ltac:(lia)) as (-> & _ & ->). lia. }
  destruct (encode_digits_decode assert_valid 7 u []) as (t & Ht & Hlen & Hd); [lia|lia|]. change vlq.VLQ_MAX_IN_BYTES with 7%nat. rewrite Ht.
  exists t. split; [done|]. split; [lia|]. unfold vlq.decode_impl. change vlq.VLQ_MAX_IN_BYTES with 7%nat.
  rewrite !length_app. rewrite (proj2 (Nat.ltb_ge _ _)) by lia. rewrite drop_app_length, take_app_ge by lia.
  change 0 with (5 * (7 - Z.of_nat 7)) at 1. rewrite Hd by lia. do 2 f_equal; [|lia].
  rewrite Z.mul_1_r, Z.add_0_l. apply Hu.
Qed.

Lemma vlq_roundtrip_witness : (- 2 ^ 31 <= -1000 < 2 ^ 31) ∧ ∃ t, vlq.encode (-1000) = Some (vlq.mkVLQ t) ∧ length t = 3%nat.
Proof.
  split; [lia|]. destruct (vlq_roundtrip (-1000) (bs "AAgB,") (bs "CA") true) as (t & Ht & _ & _); [lia|].
  exists t. split; [exact Ht|]. vm_compute in Ht. by injection Ht as <-.
Defined.

(** ** The decoder that ignores characters *)

Definition kept (self : Base64DecoderWithIgnore) : bytes → bytes := filter (λ c, is_ignored self c = false).

Lemma count_padding_kept self p l n : count_padding (is_ignored self) p l n = count_padding (λ _, false) p (kept self l) n.
Proof.
  revert n. induction l as [|c l IH]; intros n; [done|]. cbn [count_padding]. unfold kept. rewrite filter_cons.
  destruct (is_ignored self c); [rewrite decide_False by done; apply IH|]. rewrite decide_True by done. cbn [count_padding].
  destruct (negb _); [done|apply IH].
Qed.

(** While the destination has room, and on characters of which none is skipped,
    the two decoders take the same steps. *)
Lemma ignore_loop_agrees self source acc n dest i acc' n' left r :
  decode_loop (decoder self) (kept self source) acc n dest i = Some (ScanEnd acc' n' left, r) →
  ∃ left', decode_ignore_loop self source acc n dest i = Some (ScanEnd acc' n' left', r) ∧ kept self <$> left' = left.
Proof.
  revert acc n dest i. induction source as [|c source IH]; intros acc n dest i H.
  { cbn in H. injection H as -> -> <- <-. by exists None. }
  cbn [decode_ignore_loop]. unfold kept in H. rewrite filter_cons in H. fold (kept self source) in H.
  destruct (is_ignored self c) eqn:Ei.
  { rewrite decide_False in H by done. by apply IH. }
  rewrite decide_True in H by done. cbn [decode_loop] in H. destruct (_ !! _) as [d|]; [|done]. cbn [mbind option_bind] in *.
  destruct (d =? INVALID_CHAR).
  - case_bool_decide; cbn [negb] in H; [|done]. injection H as -> -> <- <-. exists (Some (c :: source)). split; [done|].
    cbn [fmap option_fmap option_map]. unfold kept. rewrite filter_cons. by rewrite decide_True.
  - destruct (u16_add _ _) as [acc1|]; cbn [mbind option_bind] in *; [|done].
    destruct (8 <=? n + 6)%nat; [|by apply IH]. destruct (usize_sub _ _) as [n1|]; cbn [mbind option_bind] in *; [|done].
    unfold put in *. destruct (Nat.ltb_spec i (length dest)) as [Hlt|]; [|done].
    cbn [mbind option_bind] in *. rewrite (proj2 (Nat.eqb_neq i (length dest))) by lia. by apply IH.
Qed.

(** The digits of an encoding, without the decoder's checks of the length. *)
Lemma decode_loop_encoding self cs ds k tail source :
  reads self cs ds → Forall is_u8 source → (k < 6)%nat → stream 6 ds = stream 8 source ++ replicate k false →
  ∃ acc, bits k acc = replicate k false
    ∧ ∀ dest, (length source <= length dest)%nat →
        decode_loop self (cs ++ tail) 0 0 dest 0 = decode_loop self tail acc k (splice dest 0 source) (length source).
Proof.
  intros Hr Hu Hk Hb. destruct (decode_loop_digits self cs ds tail 0 0 Hr) as (out & acc & n & Hout & Hn & Hb2 & Hrun); [lia|].
  cbn [bits app] in Hb2. rewrite Hb in Hb2. pose proof (f_equal length Hb2) as Hlen.
  rewrite !length_app, !length_stream, length_bits, length_replicate in Hlen.
  apply app_inj_1 in Hb2 as [Hsame Hzero]; [|rewrite !length_stream; lia].
  assert (n = k) as -> by lia. apply stream_inj in Hsame as ->; [|done|done|lia]. exists acc. split; [done|]. intros dest Hd. by apply Hrun.
Qed.

(** [+] and [/] have a second character each. *)
Definition url_safe (c : Z) : Z := if c =? ch "+" then ch "-" else if c =? ch "/" then ch "_" else c.

Definition mixed_check (self : Base64DecoderWithIgnore) (d : nat) : bool :=
  let c := STANDARD_ALPHABET_CHARS !!! d in
  bool_decide (char_to_index (decoder self) !! Z.to_nat c = Some (Z.of_nat d))
  && bool_decide (char_to_index (decoder self) !! Z.to_nat (url_safe c) = Some (Z.of_nat d)).

Lemma mixed_table self d :
  MIXED_DECODER = Some self → digit_ok d →
  let c := STANDARD_ALPHABET_CHARS !!! Z.to_nat d in
  char_to_index (decoder self) !! Z.to_nat c = Some d ∧ char_to_index (decoder self) !! Z.to_nat (url_safe c) = Some d.
Proof.
  intros H Hd. assert (E : forallb (mixed_check self) (seq 0 64) = true) by (vm_compute in H; injection H as <-; by vm_compute).
  unfold digit_ok in Hd. eapply forallb_forall with (x := Z.to_nat d) in E; [|apply in_seq; lia]. unfold mixed_check in E.
  rewrite andb_true_iff, !bool_decide_eq_true, Z2Nat.id in E by lia. exact E.
Qed.

Lemma mixed_pad self : MIXED_DECODER = Some self →
  dec_pad_char (decoder self) = Some (ch "=") ∧ char_to_index (decoder self) !! Z.to_nat (ch "=") = Some INVALID_CHAR.
Proof. intros H. vm_compute in H. apply (inj Some) in H as <-. by vm_compute. Qed.

Lemma url_safe_pads tail m : Forall2 (λ x t, x = t ∨ x = url_safe t) tail (replicate m (ch "=")) → tail = replicate m (ch "=").
Proof.
  revert tail. induction m as [|m IH]; intros tail H; [by apply Forall2_nil_inv_r in H|]. cbn [replicate] in *.
  apply Forall2_cons_inv_r in H as (x & t & Hx & Ht & ->). f_equal; [naive_solver|by apply IH].
Qed.

Lemma mixed_reads self enc cs ds :
  MIXED_DECODER = Some self → alphabet_chars enc = STANDARD_ALPHABET_CHARS → Forall digit_ok ds →
  Forall2 (λ x t, x = t ∨ x = url_safe t) cs (char_of enc <$> ds) → reads (decoder self) cs ds.
Proof.
  intros Hm He Hds. revert cs. induction Hds as [|d ds Hd Hds IH]; intros cs H; [apply Forall2_nil_inv_r in H as ->; constructor|].
  rewrite fmap_cons in H. apply Forall2_cons_inv_r in H as (x & t & Hx & Ht & ->). constructor; [|by apply IH]. split; [|done].
  destruct (mixed_table self d Hm Hd) as [H1 H2]. unfold char_of in Hx. rewrite He in Hx. by destruct Hx as [->| ->].
Qed.

(** The decoder that ignores white space: if what is left of a text after the
    characters it ignores are taken out is an encoding with padding, in the
    standard or the URL-safe alphabet or in a mixture of the two, then it writes
    exactly the original and counts its bytes, into any destination that has room. *)
Theorem mixed_decoder_reads_encodings self c source buf text noisy dest :
  MIXED_DECODER = Some self → STANDARD = Some c → Forall is_u8 source →
  (calc_size (c_encoder c) (length source) <= length buf)%nat →
  snd <$> encode (c_encoder c) buf source = Some text →
  Forall2 (λ x t, x = t ∨ x = url_safe t) (filter (λ x, is_ignored self x = false) noisy) text →
  (length source <= length dest)%nat →
  decode_with_ignore self dest noisy = Some (Ok tt, (source ++ drop (length source) dest, length source)).
Proof.
  intros Hm Hc Hu Hbuf Henc Hnoisy Hd. destruct (codecs_fields _ _ _ Hc) as (_ & Hchars & Hep & _).
  destruct (encode_spec (c_encoder c) ltac:(by rewrite Hchars) source Hu) as (ds & k & Hds & Hk & Hb & Hlen & Hrun).
  rewrite <- Hlen in Hbuf. rewrite Hrun in Henc by done. apply (inj Some) in Henc. cbn [snd] in Henc. subst text.
  unfold padded in Hnoisy. rewrite Hep in Hnoisy. rewrite bool_decide_eq_true_2 in Hnoisy by done. cbn [default from_option] in Hnoisy.
  apply Forall2_app_inv_r in Hnoisy as (cs & tail & Hcs & Htail & Hkept). apply url_safe_pads in Htail as ->.
  apply (mixed_reads self) in Hcs; [|done..]. destruct (mixed_pad self Hm) as [Hpad Hinv].
  assert (Heven : (k <= 4)%nat).
  { apply (f_equal length) in Hb. rewrite length_app, !length_stream, length_replicate in Hb. lia. }
  destruct (decode_loop_encoding (decoder self) cs ds k (replicate (k / 2) (ch "=")) source) as (acc & Hacc & Hloop); [done..|].
  rewrite <- Hkept in Hloop. specialize (Hloop dest Hd). apply low_bits_0 in Hacc. unfold decode_with_ignore.
  destruct (k / 2)%nat as [|m] eqn:Em; cbn [replicate decode_loop] in Hloop.
  - apply ignore_loop_agrees in Hloop as (left' & -> & Hl). destruct left'; [done|]. cbn [mbind option_bind]. rewrite Hacc, Hpad, Em.
    by rewrite (proj2 (Nat.ltb_ge 4 k)) by lia.
  - rewrite Hinv in Hloop. cbn [mbind option_bind] in Hloop. rewrite Z.eqb_refl, bool_decide_eq_true_2 in Hloop by done. cbn [negb] in Hloop.
    apply ignore_loop_agrees in Hloop as ([l|] & -> & Hl); [|done]. apply (inj Some) in Hl.
    cbn [mbind option_bind]. rewrite Hacc, Hpad. rewrite (proj2 (Nat.ltb_ge 4 k)) by lia. cbn [orb negb Z.eqb].
    unfold check_padding. rewrite count_padding_kept, Hl. change (ch "=" :: replicate m (ch "=")) with (replicate (S m) (ch "=")).
    rewrite count_padding_replicate, Em. cbn [Nat.add]. by rewrite Nat.eqb_refl.
Qed.

(** The bytes [fb ff] are [+/8=]; here with a blank and the characters of the other alphabet. *)
Lemma mixed_decoder_reads_encodings_witness :
  ∃ self, MIXED_DECODER = Some self
    ∧ decode_with_ignore self [0; 0; 7] (bs "- _8=") = Some (Ok tt, ([0xfb; 0xff; 7], 2%nat)).
Proof.
  destruct MIXED_DECODER as [self|] eqn:Em; [|discriminate Em]. destruct STANDARD as [c|] eqn:Ec; [|discriminate Ec].
  exists self. split; [reflexivity|].
  apply (mixed_decoder_reads_encodings self c [0xfb; 0xff] (replicate 4 0) (bs "+/8=") (bs "- _8=") [0; 0; 7] Em Ec).
  - by apply Forall_u8_b.
  - vm_compute in Ec. injection Ec as <-. vm_compute. lia.
  - vm_compute in Ec. injection Ec as <-. by vm_compute.
  - vm_compute in Em. injection Em as <-. repeat (constructor; [by vm_compute; auto|]). constructor.
  - cbn. lia.
Defined.
