(* ===== verification/ThreadModel.v ===== *)
(** * Threads that share memory

    What the synchronisation primitives of [src/threading] have in common. A
    program gives, for the shared state and the place a thread is at, the atomic
    steps the thread may take. Any number of threads run it; one step of one
    thread at a time, in any order. A thread that sleeps in the futex takes no
    step of its own: it is woken by the step of another, as many sleepers as the
    wake asks for and there are, or for no reason at all. Memory is sequentially
    consistent: every atomic access is one step. *)

From S2P Require Import Prelude.

#[local] Open Scope Z_scope.

(** A step of a thread: the shared state and the place after it, and how many
    sleepers it asks the futex to wake. *)
Record Program (Sh Pc : Type) := mkProgram {
  next : nat → Sh → Pc → list (Sh * Pc * Z);
  asleep : Pc → bool;
  woken : Pc → Pc;
}.
Arguments next {_ _} _ _ _ _.
Arguments asleep {_ _} _ _.
Arguments woken {_ _} _ _.

Record Conf (Sh Pc : Type) := mkConf { shared : Sh; threads : list Pc }.
Arguments mkConf {_ _} _ _.
Arguments shared {_ _} _.
Arguments threads {_ _} _.

(** ** Words of several fields *)

Lemma land_shiftl a b n : 0 <= n → Z.land a (Z.shiftl b n) = Z.shiftl (Z.land (Z.shiftr a n) b) n.
Proof.
  intros Hn. apply Z.bits_inj'. intros i Hi. rewrite Z.land_spec. destruct (decide (i < n)) as [Hlt|Hge].
  - by rewrite !Z.shiftl_spec_low, andb_false_r by lia.
  - rewrite !Z.shiftl_spec, Z.land_spec, Z.shiftr_spec by lia. do 2 f_equal. lia.
Qed.

(** ** Sums over the threads *)

Definition total {Pc} (w : Pc → Z) (ts : list Pc) : Z := foldr (λ pc acc, w pc + acc) 0 ts.

Definition b2z (b : bool) : Z := if b then 1 else 0.

(** How many threads are at a place of a kind. *)
Definition count {Pc} (f : Pc → bool) (ts : list Pc) : Z := total (λ pc, b2z (f pc)) ts.

Section total.
Context {Pc : Type}.
Implicit Types (w v : Pc → Z) (f g : Pc → bool) (ts : list Pc).

Lemma total_cons w x ts : total w (x :: ts) = w x + total w ts.
Proof. done. Qed.

Lemma total_insert w ts t pc pc' : ts !! t = Some pc → total w (<[t := pc']> ts) = total w ts - w pc + w pc'.
Proof.
  revert t. induction ts as [|x ts IH]; intros [|t] H; try done; cbn in H.
  - injection H as ->. cbn. lia.
  - change (<[S t := pc']> (x :: ts)) with (x :: <[t := pc']> ts). rewrite !total_cons, (IH t H). lia.
Qed.

Lemma total_nonneg w ts : (∀ pc, 0 <= w pc) → 0 <= total w ts.
Proof. intros H. induction ts as [|x ts IH]; cbn; [lia|]. specialize (H x). unfold total in IH. lia. Qed.

Lemma total_lookup w ts t pc : (∀ pc, 0 <= w pc) → ts !! t = Some pc → w pc <= total w ts.
Proof.
  intros Hw. revert t. induction ts as [|x ts IH]; intros [|t] H; try done; rewrite total_cons; cbn in H.
  - injection H as ->. pose proof (total_nonneg w ts Hw). lia.
  - specialize (IH t H). specialize (Hw x). lia.
Qed.

Lemma total_le w v ts : (∀ pc, w pc <= v pc) → total w ts <= total v ts.
Proof. intros H. induction ts as [|x ts IH]; cbn; [lia|]. specialize (H x). unfold total in IH. lia. Qed.

Lemma total_add w v ts : total (λ pc, w pc + v pc) ts = total w ts + total v ts.
Proof. induction ts as [|x ts IH]; cbn; [done|]. unfold total in IH. lia. Qed.

Lemma total_replicate w n pc : total w (replicate n pc) = Z.of_nat n * w pc.
Proof. induction n as [|n IH]; cbn [replicate total foldr]; [done|]. unfold total in IH. lia. Qed.

Lemma total_zero w ts : (∀ t pc, ts !! t = Some pc → w pc = 0) → total w ts = 0.
Proof.
  induction ts as [|x ts IH]; intros H; [done|]. rewrite total_cons, (H 0%nat x eq_refl), IH; [done|].
  intros t pc Ht. by apply (H (S t)).
Qed.

Lemma count_cons f x ts : count f (x :: ts) = b2z (f x) + count f ts.
Proof. done. Qed.

Lemma count_insert f ts t pc pc' : ts !! t = Some pc → count f (<[t := pc']> ts) = count f ts - b2z (f pc) + b2z (f pc').
Proof. apply (total_insert (λ pc, b2z (f pc))). Qed.

Lemma count_bounds f ts : 0 <= count f ts <= Z.of_nat (length ts).
Proof. induction ts as [|x ts IH]; cbn -[Z.of_nat]; [lia|]. unfold count, total, b2z in *. destruct (f x); lia. Qed.

Lemma count_lookup f ts t pc : ts !! t = Some pc → f pc = true → 1 <= count f ts.
Proof.
  revert t. induction ts as [|x ts IH]; intros [|t] H Hf; try done; cbn in *.
  - injection H as ->. rewrite Hf. pose proof (count_bounds f ts). unfold count, total, b2z in *. lia.
  - specialize (IH t H Hf). unfold count, total, b2z in *. destruct (f x); lia.
Qed.

Lemma count_missing f ts t pc : ts !! t = Some pc → f pc = false → count f ts < Z.of_nat (length ts).
Proof.
  revert t. induction ts as [|x ts IH]; intros [|t] H Hf; try done; cbn -[Z.of_nat] in H; rewrite count_cons.
  - injection H as ->. rewrite Hf. pose proof (count_bounds f ts). cbn -[Z.of_nat]. lia.
  - specialize (IH t H Hf). cbn -[Z.of_nat]. destruct (f x); cbn; lia.
Qed.

Lemma count_pos f ts : 0 < count f ts → ∃ t pc, ts !! t = Some pc ∧ f pc = true.
Proof.
  induction ts as [|x ts IH]; cbn; [lia|]. destruct (f x) eqn:E; [by exists 0%nat, x|]. intros H. cbn in H.
  destruct IH as (t & pc & Ht & Hf); [done|]. by exists (S t), pc.
Qed.

Lemma count_zero f ts t pc : count f ts = 0 → ts !! t = Some pc → f pc = false.
Proof. intros H Ht. destruct (f pc) eqn:E; [|done]. pose proof (count_lookup f ts t pc Ht E). lia. Qed.

(** A kind that at most one thread is at. *)
Lemma count_unique f ts t t' pc pc' :
  count f ts <= 1 → ts !! t = Some pc → f pc = true → ts !! t' = Some pc' → f pc' = true → t = t'.
Proof.
  revert t t'. induction ts as [|x ts IH]; intros [|t] [|t'] Hc H Hf H' Hf'; try done; cbn in *.
  - injection H as ->. rewrite Hf in Hc. pose proof (count_lookup f ts t' pc' H' Hf'). unfold count, total, b2z in *. lia.
  - injection H' as ->. rewrite Hf' in Hc. pose proof (count_lookup f ts t pc H Hf). unfold count, total, b2z in *. lia.
  - f_equal. apply (IH t t'); try done. unfold count, total, b2z in *. destruct (f x); lia.
Qed.

Lemma count_at_most_one f ts :
  (∀ t t' pc pc', ts !! t = Some pc → f pc = true → ts !! t' = Some pc' → f pc' = true → t = t') → count f ts <= 1.
Proof.
  induction ts as [|x ts IH]; intros H; [done|]. rewrite count_cons. destruct (f x) eqn:E.
  - assert (count f ts <= 0); [|cbn; lia]. apply Z.nlt_ge. intros Hp. apply count_pos in Hp as (t & pc & Ht & Hf).
    by pose proof (H 0%nat (S t) x pc eq_refl E Ht Hf).
  - cbn. apply IH. intros t t' pc pc' Ht Hf Ht' Hf'. by pose proof (H (S t) (S t') pc pc' Ht Hf Ht' Hf') as [= ->].
Qed.

Lemma lookup_insert_Some ts t t' pc pc' x :
  ts !! t = Some pc → (<[t := pc']> ts) !! t' = Some x → t' = t ∧ x = pc' ∨ t' ≠ t ∧ ts !! t' = Some x.
Proof.
  intros H H'. destruct (decide (t' = t)) as [->|Hne]; [left|right].
  - rewrite list_lookup_insert_eq in H' by (by eapply lookup_lt_Some). split; [done|congruence].
  - by rewrite list_lookup_insert_ne in H'.
Qed.
End total.

(** ** Steps *)

Section steps.
Context {Sh Pc : Type} (P : Program Sh Pc).

(** [n] sleepers are woken, in some order. *)
Inductive wakes : nat → list Pc → list Pc → Prop :=
| wakes_none ts : wakes 0 ts ts
| wakes_one n t pc ts ts' :
    ts !! t = Some pc → asleep P pc = true → wakes n (<[t := woken P pc]> ts) ts' → wakes (S n) ts ts'.

Definition wake_count (n : Z) (ts : list Pc) : nat := Z.to_nat (Z.min n (count (asleep P) ts)).

(** A step of the program, and a wake-up for no reason. *)
Inductive step : Conf Sh Pc → Conf Sh Pc → Prop :=
| step_thread sh sh' ts ts' t pc pc' n :
    ts !! t = Some pc → (sh', pc', n) ∈ next P t sh pc →
    wakes (wake_count n (<[t := pc']> ts)) (<[t := pc']> ts) ts' → step (mkConf sh ts) (mkConf sh' ts')
| step_spurious sh ts t pc :
    ts !! t = Some pc → asleep P pc = true → step (mkConf sh ts) (mkConf sh (<[t := woken P pc]> ts)).

(** A step of a thread at a place of the kind [f], with no wake-up that was not asked for. *)
Inductive step_at (f : Pc → bool) : Conf Sh Pc → Conf Sh Pc → Prop :=
| step_at_thread sh sh' ts ts' t pc pc' n :
    ts !! t = Some pc → f pc = true → (sh', pc', n) ∈ next P t sh pc →
    wakes (wake_count n (<[t := pc']> ts)) (<[t := pc']> ts) ts' → step_at f (mkConf sh ts) (mkConf sh' ts').

Definition reach (start c : Conf Sh Pc) : Prop := rtc step start c.

Lemma wakes_length n ts ts' : wakes n ts ts' → length ts' = length ts.
Proof. induction 1 as [|n t pc ts ts' Ht Hs _ IH]; [done|]. by rewrite IH, length_insert. Qed.

(** Waking [n] sleepers changes a sum by [n] times what one waking changes it. *)
Lemma wakes_total w d n ts ts' :
  (∀ pc, asleep P pc = true → w (woken P pc) = w pc + d) → wakes n ts ts' → total w ts' = total w ts + Z.of_nat n * d.
Proof.
  intros Hw. induction 1 as [|n t pc ts ts' Ht Hs _ IH]; [lia|].
  rewrite IH, (total_insert w ts t pc) by done. rewrite (Hw pc Hs). lia.
Qed.

Lemma wakes_count f n ts ts' :
  (∀ pc, asleep P pc = true → f (woken P pc) = f pc) → wakes n ts ts' → count f ts' = count f ts.
Proof.
  intros Hf H. unfold count. rewrite (wakes_total (λ pc, b2z (f pc)) 0 n ts ts'); [lia| |done].
  intros pc Hs. cbn. rewrite Hf by done. lia.
Qed.

(** A thread after a waking is where it was, or was asleep and is woken. *)
Lemma wakes_lookup n ts ts' t pc :
  (∀ pc, asleep P pc = true → asleep P (woken P pc) = false) → wakes n ts ts' → ts' !! t = Some pc →
  ts !! t = Some pc ∨ ∃ pc0, ts !! t = Some pc0 ∧ asleep P pc0 = true ∧ pc = woken P pc0.
Proof.
  intros Hw. induction 1 as [|n t' pc' ts ts' Ht Hs _ IH]; intros H; [by left|].
  apply IH in H as [H|(pc0 & H & Hs0 & ->)].
  - apply (lookup_insert_Some _ t' t pc') in H as [[-> ->]|[_ H]]; [|by left|done]. right. by exists pc'.
  - apply (lookup_insert_Some _ t' t pc') in H as [[-> ->]|[_ H]]; [|right; by exists pc0|done]. by rewrite Hw in Hs0.
Qed.

Lemma wakes_lookup_awake n ts ts' t pc : wakes n ts ts' → ts !! t = Some pc → asleep P pc = false → ts' !! t = Some pc.
Proof.
  induction 1 as [|n t' pc' ts ts' Ht Hs _ IH]; intros H Ha; [done|]. apply IH; [|done].
  rewrite list_lookup_insert_ne; [done|]. intros ->. congruence.
Qed.

(** As many sleepers as asked for can always be woken. *)
Lemma wakes_exist n ts :
  (∀ pc, asleep P pc = true → asleep P (woken P pc) = false) → Z.of_nat n <= count (asleep P) ts → ∃ ts', wakes n ts ts'.
Proof.
  intros Hw. revert ts. induction n as [|n IH]; intros ts H; [by exists ts; constructor|].
  destruct (count_pos (asleep P) ts) as (t & pc & Ht & Hs); [lia|].
  destruct (IH (<[t := woken P pc]> ts)) as [ts' H'].
  - unfold count in *. rewrite (total_insert _ ts t pc) by done. rewrite Hs, (Hw pc Hs). cbn [b2z]. lia.
  - exists ts'. by apply (wakes_one n t pc).
Qed.

Lemma wakes_zero ts ts' : wakes (wake_count 0 ts) ts ts' → ts' = ts.
Proof.
  unfold wake_count. pose proof (count_bounds (asleep P) ts). replace (Z.to_nat _) with 0%nat by lia. by inversion 1.
Qed.

Lemma step_at_quiet f sh sh' ts t pc pc' :
  ts !! t = Some pc → f pc = true → (sh', pc', 0) ∈ next P t sh pc → step_at f (mkConf sh ts) (mkConf sh' (<[t := pc']> ts)).
Proof.
  intros Ht Hf Hn. apply (step_at_thread f sh sh' ts _ t pc pc' 0); [done..|].
  unfold wake_count. pose proof (count_bounds (asleep P) (<[t := pc']> ts)). replace (Z.to_nat _) with 0%nat by lia. constructor.
Qed.

(** Rule induction: what holds at the start and survives every step holds ever after. *)
Lemma reach_invariant (I : Conf Sh Pc → Prop) start c :
  I start → (∀ c c', I c → step c c' → I c') → reach start c → I c.
Proof. intros H0 Hs H. revert H0. induction H as [|c1 c2 c3 H12 _ IH]; [done|]. intros H. apply IH. by eapply Hs. Qed.
End steps.

(** ** A mutex seen from outside *)

(** Where [ThreadMutex] has shown that a mutex has at most one holder, its users
    see the holder only: the threads at the places [holds] are the owner. *)
Section owned.
Context {Sh Pc : Type} (owner : Sh → option nat) (holds : Pc → bool).

Definition owned (s : Sh) (ts : list Pc) : Prop := ∀ t pc, ts !! t = Some pc → holds pc = true → owner s = Some t.

(** Taking the mutex, letting it go, and everything else. *)
Definition owner_step (t : nat) (s s' : Sh) (pc pc' : Pc) : Prop :=
  owner s' = owner s ∧ (holds pc' = true → holds pc = true)
  ∨ owner s = None ∧ owner s' = Some t
  ∨ holds pc = true ∧ owner s' = None ∧ holds pc' = false.

Lemma owned_step t s s' ts pc pc' :
  owned s ts → ts !! t = Some pc → owner_step t s s' pc pc' → owned s' (<[t := pc']> ts).
Proof.
  intros Ho Ht Hs t' x Hx Hh. apply (lookup_insert_Some _ _ _ pc) in Hx as [[-> ->]|[Hne Hx]]; [| |done].
  - destruct Hs as [[-> H]|[[_ ->]|(_ & _ & H)]]; [by eapply Ho; eauto|done|congruence].
  - pose proof (Ho t' x Hx Hh) as E. destruct Hs as [[-> _]|[[E' _]|(Hp & _)]]; [done|congruence|].
    pose proof (Ho t pc Ht Hp). congruence.
Qed.

Lemma owned_unique s ts t t' pc pc' :
  owned s ts → ts !! t = Some pc → holds pc = true → ts !! t' = Some pc' → holds pc' = true → t = t'.
Proof. intros Ho Ht Hp Ht' Hp'. pose proof (Ho t pc Ht Hp). pose proof (Ho t' pc' Ht' Hp'). congruence. Qed.

Lemma owned_count s ts : owned s ts → count holds ts <= 1.
Proof. intros Ho. apply count_at_most_one. intros t t' pc pc' H1 H2 H3 H4. by eapply owned_unique. Qed.

Lemma owned_free s ts : owned s ts → owner s = None → count holds ts = 0.
Proof.
  intros Ho E. pose proof (count_bounds holds ts) as [Hb _]. destruct (decide (count holds ts = 0)) as [|Hne]; [done|].
  destruct (count_pos holds ts) as (t & pc & Ht & Hp); [lia|]. pose proof (Ho t pc Ht Hp). congruence.
Qed.
End owned.

(** The steps in a list, one by one. *)
Ltac choices Hn :=
  rewrite ?elem_of_cons, ?elem_of_nil in Hn;
  repeat match type of Hn with _ ∨ _ => destruct Hn as [Hn|Hn] end; try done;
  injection Hn; clear Hn; intros;
  repeat match goal with H : ?x = _ |- _ => is_var x; lazymatch type of x with Z => fail | _ => subst x end end.

(** ** Running a schedule *)

(** The thread that moves, which of its steps it takes, and whom the futex wakes; or a sleeper that wakes by itself. *)
Inductive Move := Go (t i : nat) (ws : list nat) | Stir (t : nat).

Section run.
Context {Sh Pc : Type} (P : Program Sh Pc).

Fixpoint wake_all (ws : list nat) (ts : list Pc) : option (list Pc) :=
  match ws with
  | [] => Some ts
  | t :: ws =>
      pc ← ts !! t;
      if asleep P pc then wake_all ws (<[t := woken P pc]> ts) else None
  end.

Definition move (m : Move) (c : Conf Sh Pc) : option (Conf Sh Pc) :=
  match m with
  | Go t i ws =>
      pc ← threads c !! t;
      r ← next P t (shared c) pc !! i;
      let '(sh, pc', n) := r in
      let ts := <[t := pc']> (threads c) in
      if (length ws =? wake_count P n ts)%nat then ts ← wake_all ws ts; Some (mkConf sh ts) else None
  | Stir t =>
      pc ← threads c !! t;
      if asleep P pc then Some (mkConf (shared c) (<[t := woken P pc]> (threads c))) else None
  end.

Fixpoint run (ms : list Move) (c : Conf Sh Pc) : option (Conf Sh Pc) :=
  match ms with
  | [] => Some c
  | m :: ms => c ← move m c; run ms c
  end.

Lemma wake_all_wakes ws ts ts' : wake_all ws ts = Some ts' → wakes P (length ws) ts ts'.
Proof.
  revert ts. induction ws as [|t ws IH]; intros ts H; cbn in H; [injection H as ->; constructor|].
  destruct (ts !! t) as [pc|] eqn:E; cbn in H; [|done]. destruct (asleep P pc) eqn:Ea; [|done].
  apply (wakes_one _ _ t pc); [done|done|]. by apply IH.
Qed.

Lemma move_step m c c' : move m c = Some c' → step P c c'.
Proof.
  destruct c as [sh ts]. destruct m as [t i ws|t]; cbn; intros H.
  - destruct (ts !! t) as [pc|] eqn:E; cbn in H; [|done]. destruct (next P t sh pc !! i) as [[[sh' pc'] n]|] eqn:En; cbn in H; [|done].
    destruct (Nat.eqb_spec (length ws) (wake_count P n (<[t := pc']> ts))) as [El|]; [|done].
    destruct (wake_all ws _) as [ts'|] eqn:Ew; cbn in H; [|done]. injection H as <-.
    apply (step_thread P sh sh' ts ts' t pc pc' n); [done|by eapply list_elem_of_lookup_2|]. rewrite <- El. by apply wake_all_wakes.
  - destruct (ts !! t) as [pc|] eqn:E; cbn in H; [|done]. destruct (asleep P pc) eqn:Ea; [|done]. injection H as <-.
    by apply step_spurious.
Qed.

Lemma run_reach ms c c' : run ms c = Some c' → reach P c c'.
Proof.
  revert c. induction ms as [|m ms IH]; intros c H; cbn in H; [injection H as ->; apply rtc_refl|].
  destruct (move m c) as [c1|] eqn:E; cbn in H; [|done]. eapply rtc_l; [by eapply move_step|]. by apply IH.
Qed.
End run.
