(* ===== verification/ThreadMutex.v ===== *)
(** * [src/threading/Mutex.rs]: the futex mutex

    [FutexImpl], with the layer [DebugImpl] around it in debug builds and both
    versions of [try_lock] (x86 and others), as a program of [ThreadModel]: the
    places name the atomic access that comes next. *)

From S2P Require Import Prelude ThreadModel.

#[local] Open Scope Z_scope.

Module Mutex.
Definition UNLOCKED : Z := 0.
Definition LOCKED : Z := 1.
Definition CONTENDED : Z := 3.

(** [FutexImpl::state] and [DebugImpl::locking_thread]. *)
Record Mutex := mkMutex { state : Z; locking_thread : Z }.
Definition new : Mutex := mkMutex UNLOCKED 0.

Definition set_state (s : Z) (m : Mutex) : Mutex := mkMutex s (locking_thread m).
Definition set_locking_thread (i : Z) (m : Mutex) : Mutex := mkMutex (state m) i.

Inductive Pc :=
| Idle
| LockCheck (* [DebugImpl::lock]: the load that detects a deadlock *)
| TryLock (blocking : bool) (* the access of [FutexImpl::try_lock], called by [lock] or by [try_lock] *)
| SlowLoad (* the load of [lock_slow] *)
| Wait (* [Futex::wait_forever(&self.state, CONTENDED)] *)
| Asleep (* in the futex *)
| Swap (* the swap of [lock_slow] *)
| LockStore (* [DebugImpl]: the store of the thread that locks *)
| Critical
| UnlockCheck | UnlockClear (* [DebugImpl::unlock_raw] *)
| UnlockSwap (* the swap of [FutexImpl::unlock_raw] *)
| Wake (* [Futex::wake_raw(state_ptr, 1)] *)
| Panicked.

Section program.
Context (debug x86 : bool).

(** Thread ids are not 0. *)
Definition current_thread_id (t : nat) : Z := Z.of_nat t + 1.

Definition acquired : Pc := if debug then LockStore else Critical.

Definition try_lock (m : Mutex) (failed : Pc) : list (Mutex * Pc * Z) :=
  if x86 then
    [(set_state (Z.lor (state m) LOCKED) m, if Z.land (state m) LOCKED =? 0 then acquired else failed, 0)]
  else if state m =? UNLOCKED then [(set_state LOCKED m, acquired, 0); (m, failed, 0)]
  else [(m, failed, 0)].

(** [DebugImpl]: its own accesses, before and after those of [ReleaseImpl]. *)
Definition debug_next (t : nat) (m : Mutex) (pc : Pc) : list (Mutex * Pc * Z) :=
  match pc with
  | LockCheck =>
      [(m, if (locking_thread m =? current_thread_id t) && negb (current_thread_id t =? 0) then Panicked else TryLock true, 0)]
  | LockStore => [(set_locking_thread (current_thread_id t) m, Critical, 0)]
  | UnlockCheck => [(m, if locking_thread m =? current_thread_id t then UnlockClear else Panicked, 0)]
  | UnlockClear => [(set_locking_thread 0 m, UnlockSwap, 0)]
  | _ => []
  end.

Definition next (t : nat) (m : Mutex) (pc : Pc) : list (Mutex * Pc * Z) :=
  match pc with
  | Idle => [(m, if debug then LockCheck else TryLock true, 0); (m, TryLock false, 0)]
  | TryLock blocking => try_lock m (if blocking then SlowLoad else Idle)
  | SlowLoad => [(m, if state m =? CONTENDED then Wait else Swap, 0)]
  | Swap => [(set_state CONTENDED m, if state m =? UNLOCKED then acquired else Wait, 0)]
  | Wait => [(m, if state m =? CONTENDED then Asleep else Swap, 0)]
  | Asleep => []
  | Critical => [(m, if debug then UnlockCheck else UnlockSwap, 0)]
  | UnlockSwap =>
      [(set_state UNLOCKED m,
        if state m =? UNLOCKED then Panicked else if state m =? CONTENDED then Wake else Idle, 0)]
  | Wake => [(m, Idle, 1)]
  | LockCheck | LockStore | UnlockCheck | UnlockClear => debug_next t m pc
  | Panicked => []
  end.

Definition is_asleep (pc : Pc) : bool := match pc with Asleep => true | _ => false end.

(** [wait_forever] returns to the swap, whoever called it. *)
Definition program : Program Mutex Pc := mkProgram _ _ next is_asleep (λ _, Swap).

(** ** The invariant *)

(** Between taking the lock and letting it go. *)
Definition holds (pc : Pc) : bool :=
  match pc with LockStore | Critical | UnlockCheck | UnlockClear | UnlockSwap => true | _ => false end.

(** Between the store of the owner's id and its being cleared. *)
Definition marked (pc : Pc) : bool := match pc with Critical | UnlockCheck | UnlockClear => true | _ => false end.

Definition debug_only (pc : Pc) : bool :=
  match pc with LockCheck | LockStore | UnlockCheck | UnlockClear => true | _ => false end.

Definition panicked (pc : Pc) : bool := match pc with Panicked => true | _ => false end.

(** About to take the lock as contended, or to wake one that will. *)
Definition relay (pc : Pc) : bool := match pc with Swap | Wake => true | _ => false end.

(** In [lock], the sleepers included. *)
Definition waiting (pc : Pc) : bool :=
  match pc with LockCheck | TryLock true | SlowLoad | Wait | Asleep | Swap => true | _ => false end.

Record inv (c : Conf Mutex Pc) : Prop := {
  inv_state : state (shared c) = UNLOCKED ∨ state (shared c) = LOCKED ∨ state (shared c) = CONTENDED;
  inv_holds : count holds (threads c) = b2z (negb (state (shared c) =? UNLOCKED));
  inv_panicked : count panicked (threads c) = 0;
  inv_release : debug = false → count debug_only (threads c) = 0;
  inv_owner : debug = true → locking_thread (shared c) = 0
    ∨ ∃ t pc, threads c !! t = Some pc ∧ marked pc = true ∧ locking_thread (shared c) = current_thread_id t;
  inv_marked : debug = true → ∀ t pc, threads c !! t = Some pc → marked pc = true → locking_thread (shared c) = current_thread_id t;
  inv_relay : 0 < count is_asleep (threads c) → state (shared c) = CONTENDED ∨ 0 < count relay (threads c);
}.

Definition start (n : nat) : Conf Mutex Pc := mkConf new (replicate n Idle).

Lemma mutex_inv_start n : inv (start n).
Proof.
  assert (H : ∀ t pc, replicate n Idle !! t = Some pc → pc = Idle) by (intros t pc; rewrite lookup_replicate; naive_solver).
  split; cbn [start shared threads new state locking_thread]; unfold count; rewrite ?total_replicate; cbn [b2z holds panicked is_asleep debug_only];
    try lia.
  - rewrite Z.eqb_refl. cbn. lia.
  - intros _ t pc Ht Hm. apply H in Ht as ->. done.
Qed.

(** The places a step can lead to, with the state of the mutex at each. *)
Ltac moves Hn :=
  unfold UNLOCKED, LOCKED, CONTENDED in Hn; cbn -[current_thread_id] in Hn;
  repeat match type of Hn with _ ∈ (if ?b then _ else _) => destruct b end;
  rewrite ?elem_of_cons, ?elem_of_nil in Hn;
  repeat match type of Hn with _ ∨ _ => destruct Hn as [Hn|Hn] end; try (destruct Hn; fail);
  first [discriminate Hn|injection Hn; clear Hn; intros; subst].

Lemma debug_place c t pc : inv c → threads c !! t = Some pc → debug_only pc = true → debug = true.
Proof.
  intros Hi Ht Hx. destruct debug eqn:E; [done|]. pose proof (count_lookup debug_only _ t pc Ht Hx). rewrite (inv_release c Hi E) in *. lia.
Qed.

(** A thread that is not in the critical section is not taken for its own predecessor. *)
Lemma lock_check_passes c t : inv c → threads c !! t = Some LockCheck → (locking_thread (shared c) =? current_thread_id t) = false.
Proof.
  intros Hi Ht. apply Z.eqb_neq. intros E. destruct (inv_owner c Hi (debug_place c t _ Hi Ht eq_refl)) as [E0|(t' & x & Ht' & Hx & E')].
  - unfold current_thread_id in *. lia.
  - assert (t' = t) as -> by (unfold current_thread_id in *; lia). rewrite Ht in Ht'. by injection Ht' as <-.
Qed.

Lemma inv_move_counts m m' ts t pc pc' :
  inv (mkConf m ts) → ts !! t = Some pc → (m', pc', 0) ∈ next t m pc →
  (state m' = UNLOCKED ∨ state m' = LOCKED ∨ state m' = CONTENDED)
  ∧ count holds (<[t := pc']> ts) = b2z (negb (state m' =? UNLOCKED))
  ∧ count panicked (<[t := pc']> ts) = 0
  ∧ (debug = false → count debug_only (<[t := pc']> ts) = 0)
  ∧ (0 < count is_asleep (<[t := pc']> ts) → state m' = CONTENDED ∨ 0 < count relay (<[t := pc']> ts)).
Proof.
  intros Hinv Ht Hn. pose proof Hinv as [Hst Hh Hp Hd Ho Hm Hr]. cbn [shared threads] in *.
  pose proof (count_bounds holds ts) as Bh. pose proof (count_bounds relay ts) as Br. pose proof (count_bounds is_asleep ts) as Ba.
  assert (Hheld : holds pc = true → 1 <= count holds ts) by (intros; by apply (count_lookup holds ts t pc)).
  assert (Hdbg : debug_only pc = true → debug = true) by (intros; by eapply (debug_place (mkConf m ts) t pc)).
  assert (Hlock : pc = LockCheck → (locking_thread m =? current_thread_id t) = false)
    by (intros ->; by apply (lock_check_passes (mkConf m ts))).
  assert (Hun : pc = UnlockCheck → (locking_thread m =? current_thread_id t) = true) by (intros ->; apply Z.eqb_eq; by apply (Hm (Hdbg eq_refl) t UnlockCheck)).
  destruct m as [st own]. cbn [state locking_thread] in *. 
  unfold UNLOCKED, LOCKED, CONTENDED in *.
  destruct Hst as [->|[->| ->]], pc; unfold next, debug_next, try_lock, acquired in Hn; destruct debug, x86; moves Hn;
    cbn [holds debug_only state locking_thread] in *.
  all: rewrite ?(count_insert _ _ _ _ _ Ht); cbn [b2z holds panicked debug_only is_asleep relay].
  all: clear Hinv Ho Hm; unfold UNLOCKED, LOCKED, CONTENDED in *; repeat match goal with
         | H : ?x = ?x → _ |- _ => specialize (H eq_refl)
         | H : (_ =? current_thread_id _) = _ |- _ => rewrite H; clear H
         end; cbn in *; try discriminate; try lia.
  all: try (destruct blocking); cbn; repeat split; intros; try lia.
  all: repeat match goal with |- context [Z.lor ?a ?b] => let r := eval vm_compute in (Z.lor a b) in change (Z.lor a b) with r end;
         cbn; lia.
Qed.

Lemma inv_move_owner m m' ts t pc pc' :
  inv (mkConf m ts) → ts !! t = Some pc → (m', pc', 0) ∈ next t m pc → debug = true →
  (locking_thread m' = 0 ∨ ∃ t' x, <[t := pc']> ts !! t' = Some x ∧ marked x = true ∧ locking_thread m' = current_thread_id t')
  ∧ (∀ t' x, <[t := pc']> ts !! t' = Some x → marked x = true → locking_thread m' = current_thread_id t').
Proof.
  intros [Hst Hh Hp _ Ho Hm _] Ht Hn Hdebug. cbn [shared threads] in *. specialize (Ho Hdebug). specialize (Hm Hdebug).
  assert (Hsame : ∀ t' x, ts !! t' = Some x → marked x = true → holds pc = true → t' = t).
  { intros t' x Hx Hmx Hpc. apply (count_unique holds ts t' t x pc); [rewrite Hh; destruct (state m =? UNLOCKED); cbn; lia|done|by destruct x|done..]. }
  (* a step that leaves the owner's id and the marks as they are *)
  assert (Hkeep : locking_thread m' = locking_thread m → marked pc' = marked pc →
    (locking_thread m' = 0 ∨ ∃ t' x, <[t := pc']> ts !! t' = Some x ∧ marked x = true ∧ locking_thread m' = current_thread_id t')
    ∧ (∀ t' x, <[t := pc']> ts !! t' = Some x → marked x = true → locking_thread m' = current_thread_id t')).
  { intros -> Hmk. split.
    - destruct Ho as [Ho|(t' & x & Ht' & Hx & ->)]; [by left|right]. destruct (decide (t' = t)) as [->|Hne].
      + exists t, pc'. rewrite Ht in Ht'. injection Ht' as ->. rewrite list_lookup_insert_eq by (by eapply lookup_lt_Some). by rewrite Hmk.
      + exists t', x. by rewrite list_lookup_insert_ne.
    - intros t' x Hx Hmx. apply (lookup_insert_Some _ _ _ pc) in Hx as [[-> ->]|[_ Hx]]; [|by eapply Hm|done].
      apply (Hm t pc); [done|by rewrite <- Hmk]. }
  unfold next, debug_next, try_lock, acquired in Hn. rewrite Hdebug in Hn.
  destruct pc; moves Hn; try (apply Hkeep; cbn; repeat case_match; done).
  - split; [right; exists t, Critical; by rewrite list_lookup_insert_eq by (by eapply lookup_lt_Some)|].
    intros t' x Hx Hmx. apply (lookup_insert_Some _ _ _ LockStore) in Hx as [[-> ->]|[Hne Hx]]; [done| |done].
    by destruct (Hne (Hsame t' x Hx Hmx eq_refl)).
  - rewrite (proj2 (Z.eqb_eq (locking_thread m) _) (Hm t UnlockCheck Ht eq_refl)) in *. by apply Hkeep.
  - split; [by left|]. intros t' x Hx Hmx. apply (lookup_insert_Some _ _ _ UnlockClear) in Hx as [[-> ->]|[Hne Hx]]; [done| |done].
    by destruct (Hne (Hsame t' x Hx Hmx eq_refl)).
Qed.

Lemma mutex_inv_move m m' ts t pc pc' :
  inv (mkConf m ts) → ts !! t = Some pc → (m', pc', 0) ∈ next t m pc → inv (mkConf m' (<[t := pc']> ts)).
Proof.
  intros Hi Ht Hn. destruct (inv_move_counts m m' ts t pc pc' Hi Ht Hn) as (H1 & H2 & H3 & H4 & H5).
  split; cbn [shared threads]; try done; intros Hd; by destruct (inv_move_owner m m' ts t pc pc' Hi Ht Hn Hd).
Qed.

(** A sleeper goes back to the swap, which is a relay. *)
Lemma inv_wake m ts t pc : inv (mkConf m ts) → ts !! t = Some pc → is_asleep pc = true → inv (mkConf m (<[t := Swap]> ts)).
Proof.
  intros [Hst Hh Hp Hd Ho Hm Hr] Ht Hs. destruct pc; try done. cbn [shared threads] in *.
  pose proof (count_bounds relay ts) as Br.
  split; cbn [shared threads]; rewrite ?(count_insert _ _ _ _ _ Ht); cbn [b2z holds panicked debug_only relay is_asleep]; rewrite ?Z.sub_0_r, ?Z.add_0_r;
    try done.
  - intros Hdbg. destruct (Ho Hdbg) as [?|(t' & x & Ht' & Hx & E)]; [by left|right]. exists t', x.
    rewrite list_lookup_insert_ne; [done|]. intros ->. rewrite Ht in Ht'. by injection Ht' as <-.
  - intros Hdbg t' x Hx Hmx. apply (lookup_insert_Some _ _ _ Asleep) in Hx as [[-> ->]|[_ Hx]]; [done|by eapply Hm|done].
  - intros _. right. lia.
Qed.

Lemma inv_wakes m n ts ts' : wakes program n ts ts' → inv (mkConf m ts) → inv (mkConf m ts').
Proof. induction 1 as [|n t pc ts ts' Ht Hs _ IH]; [done|]. intros H. apply IH. by eapply inv_wake. Qed.

(** A thread that has woken a sleeper is done. *)
Lemma inv_woke m ts t :
  inv (mkConf m ts) → ts !! t = Some Wake → count is_asleep ts = 0 ∨ 2 <= count relay ts → inv (mkConf m (<[t := Idle]> ts)).
Proof.
  intros [Hst Hh Hp Hd Ho Hm Hr] Ht Hs. cbn [shared threads] in *.
  split; cbn [shared threads]; rewrite ?(count_insert _ _ _ _ _ Ht); cbn [b2z holds panicked debug_only relay is_asleep]; rewrite ?Z.sub_0_r, ?Z.add_0_r;
    try done.
  - intros Hdbg. destruct (Ho Hdbg) as [?|(t' & x & Ht' & Hx & E)]; [by left|right]. exists t', x.
    rewrite list_lookup_insert_ne; [done|]. intros ->. rewrite Ht in Ht'. by injection Ht' as <-.
  - intros Hdbg t' x Hx Hmx. apply (lookup_insert_Some _ _ _ Wake) in Hx as [[-> ->]|[_ Hx]]; [done|by eapply Hm|done].
  - intros Ha. right. lia.
Qed.

Lemma mutex_next_wakes t m pc m' pc' n : (m', pc', n) ∈ next t m pc → n = 0 ∨ pc = Wake ∧ m' = m ∧ pc' = Idle ∧ n = 1.
Proof.
  intros Hn. destruct pc; unfold next, debug_next, try_lock in Hn; repeat match type of Hn with _ ∈ (if ?b then _ else _) => destruct b end;
    rewrite ?elem_of_cons, ?elem_of_nil in Hn;
    repeat match type of Hn with _ ∨ _ => destruct Hn as [Hn|Hn] end; try done; injection Hn; clear Hn; intros; subst; auto.
Qed.

Lemma wake_one_inv m ts ts' t :
  inv (mkConf m ts) → ts !! t = Some Wake → wakes program (wake_count program 1 (<[t := Idle]> ts)) (<[t := Idle]> ts) ts' →
  inv (mkConf m ts').
Proof.
  intros Hi Ht Hw. unfold wake_count in Hw. change (asleep program) with is_asleep in Hw.
  rewrite (count_insert _ _ _ _ _ Ht) in Hw. cbn [b2z is_asleep] in Hw. rewrite Z.sub_0_r, Z.add_0_r in Hw.
  pose proof (count_bounds is_asleep ts). destruct (decide (count is_asleep ts = 0)) as [E|E].
  - rewrite E in Hw. inversion Hw; subst. apply inv_woke; auto.
  - replace (Z.to_nat (Z.min 1 (count is_asleep ts))) with 1%nat in Hw by lia.
    inversion Hw as [|n t1 pc1 ts1 ts2 Ht1 Hs1 Hw1]; subst. inversion Hw1; subst. cbn [woken program asleep] in *.
    apply (lookup_insert_Some _ _ _ Wake) in Ht1 as [[-> ->]|[Hne Ht1]]; [done| |done].
    rewrite list_insert_insert_ne by done. assert (Ht' : <[t1 := Swap]> ts !! t = Some Wake) by (by rewrite list_lookup_insert_ne).
    apply inv_woke; [by eapply inv_wake|done|]. right.
    assert (1 <= count relay ts) by (by apply (count_lookup relay ts t Wake)). rewrite (count_insert _ _ _ _ _ Ht1). destruct pc1; try done. cbn. lia.
Qed.

Lemma mutex_inv_step c c' : inv c → step program c c' → inv c'.
Proof.
  intros Hi Hs. destruct Hs as [m m' ts ts' t pc pc' n Ht Hn Hw|m ts t pc Ht Ha]; [|by eapply inv_wake].
  destruct (mutex_next_wakes _ _ _ _ _ _ Hn) as [->|(-> & -> & -> & ->)]; [|by eapply wake_one_inv].
  apply wakes_zero in Hw as ->. by eapply mutex_inv_move.
Qed.

Lemma mutex_inv_reach n c : reach program (start n) c → inv c.
Proof. apply reach_invariant; [apply mutex_inv_start|apply mutex_inv_step]. Qed.

(** ** Progress *)

(** The threads in [lock] and those that have let go and are about to wake one. *)
Definition active (pc : Pc) : bool := waiting pc || match pc with Wake => true | _ => false end.

Definition acquires (c : Conf Mutex Pc) (t : nat) : Prop :=
  ∃ c' pc', rtc (step_at program active) c c' ∧ threads c' !! t = Some pc' ∧ holds pc' = true.

Lemma acquires_step m m' ts t pc pc' :
  ts !! t = Some pc → active pc = true → (m', pc', 0) ∈ next t m pc →
  holds pc' = true ∨ acquires (mkConf m' (<[t := pc']> ts)) t → acquires (mkConf m ts) t.
Proof.
  intros Ht Ha Hn [Hh|(c' & x & Hc & Hx & Hh)].
  - exists (mkConf m' (<[t := pc']> ts)), pc'. split; [apply rtc_once; by eapply step_at_quiet|].
    split; [|done]. cbn. apply list_lookup_insert_eq. by eapply lookup_lt_Some.
  - exists c', x. split; [|done]. eapply rtc_l; [by eapply step_at_quiet|done].
Qed.

Lemma holds_acquired : holds acquired = true.
Proof. unfold acquired. by destruct debug. Qed.

Lemma acquires_swap m ts t : state m = UNLOCKED → ts !! t = Some Swap → acquires (mkConf m ts) t.
Proof.
  intros Hm Ht. eapply (acquires_step m _ ts t Swap); [done|done| |left; apply holds_acquired]. cbn. rewrite Hm. by left.
Qed.

Lemma awake_acquires m ts t pc :
  inv (mkConf m ts) → state m = UNLOCKED → ts !! t = Some pc → waiting pc = true → is_asleep pc = false → acquires (mkConf m ts) t.
Proof.
  intros Hi Hm Ht Hw Ha. assert (Hlen : (t < length ts)%nat) by (by eapply lookup_lt_Some).
  assert (Htry : ∀ ts, ts !! t = Some (TryLock true) → acquires (mkConf m ts) t).
  { intros ts' Ht'. eapply (acquires_step m _ ts' t (TryLock true)); [done|done| |left; apply holds_acquired].
    cbn [next]. unfold try_lock. rewrite Hm. destruct x86; cbn; by left. }
  destruct pc as [| |[]| | | | | | | | | | |]; try done.
  - eapply (acquires_step m m ts t LockCheck (TryLock true)); [done|done| |right; apply Htry; by apply list_lookup_insert_eq].
    pose proof (lock_check_passes _ t Hi Ht) as E. cbn [shared] in E. cbn [next debug_next]. rewrite E. by left.
  - by apply Htry.
  - eapply (acquires_step m m ts t SlowLoad Swap); [done|done| |right; apply acquires_swap; [done|by apply list_lookup_insert_eq]].
    cbn [next]. rewrite Hm. by left.
  - eapply (acquires_step m m ts t Wait Swap); [done|done| |right; apply acquires_swap; [done|by apply list_lookup_insert_eq]].
    cbn [next]. rewrite Hm. by left.
  - by apply acquires_swap.
Qed.
End program.

(** C37. The mutex excludes: whatever the interleaving of any number of threads
    that call [lock], [try_lock] and [unlock], in debug and release builds, on
    x86 and elsewhere, with spurious wake-ups: at most one thread is in its
    critical section, the state is locked while one is, and no assertion fails
    (no false "Deadlock detected", no unlock by another thread, no unlock of an
    unlocked mutex). *)
Theorem mutex_excludes debug x86 n c :
  reach (program debug x86) (start n) c →
  (∀ t t', threads c !! t = Some Critical → threads c !! t' = Some Critical → t = t')
  ∧ (∀ t, threads c !! t = Some Critical → Z.land (state (shared c)) LOCKED = LOCKED)
  ∧ (∀ t, threads c !! t ≠ Some Panicked).
Proof.
  intros Hi%mutex_inv_reach. pose proof (inv_holds _ _ Hi) as Hh. split_and!.
  - intros t t' Ht Ht'. apply (count_unique holds (threads c) t t' Critical Critical); [|done..]. rewrite Hh. destruct (_ =? _); cbn; lia.
  - intros t Ht. pose proof (count_lookup holds _ t Critical Ht eq_refl). rewrite Hh in *.
    destruct (inv_state _ _ Hi) as [E|[E|E]]; rewrite E in *; done.
  - intros t Ht. pose proof (count_lookup panicked _ t Panicked Ht eq_refl). rewrite (inv_panicked _ _ Hi) in *. lia.
Qed.

(** One thread holds the lock, the other has gone to sleep. *)
Definition contention : list Move :=
  Go 0 0 [] :: Go 0 0 [] :: Go 0 0 [] :: Go 0 0 [] :: replicate 6 (Go 1 0 []).

Lemma mutex_excludes_witness :
  ∃ c, threads c = [Critical; Asleep] ∧ state (shared c) = CONTENDED ∧ Z.land (state (shared c)) LOCKED = LOCKED.
Proof.
  destruct (run (program true true) contention (start 2)) as [c|] eqn:E; [|by vm_compute in E].
  exists c. pose proof E as E'. vm_compute in E'. injection E' as <-. split; [reflexivity|]. split; [reflexivity|].
  apply (mutex_excludes true true 2 _ (run_reach _ _ _ _ E)) with (t := 0%nat). reflexivity.
Defined.

(** C13. No wake-up is lost: whenever a thread waits in [lock], asleep or not, and
    no thread holds the mutex, some waiting thread can go on and take it, by
    steps of the threads in [lock] and of those that have let go and not yet
    woken a sleeper, without any spurious wake-up and without a new call. *)
Theorem mutex_wakeups_arrive debug x86 n c t pc :
  reach (program debug x86) (start n) c → threads c !! t = Some pc → waiting pc = true → count holds (threads c) = 0 →
  ∃ t' pc' c' pc'', threads c !! t' = Some pc' ∧ waiting pc' = true
    ∧ rtc (step_at (program debug x86) active) c c' ∧ threads c' !! t' = Some pc'' ∧ holds pc'' = true.
Proof.
  intros Hi%mutex_inv_reach Ht Hw Hh. destruct c as [m ts]. cbn [threads] in *.
  assert (Hm : state m = UNLOCKED).
  { pose proof (inv_holds _ _ Hi) as E. cbn [shared threads] in E. rewrite Hh in E. destruct (Z.eqb_spec (state m) UNLOCKED); [done|discriminate E]. }
  destruct (is_asleep pc) eqn:Ea.
  - assert (Hs : 1 <= count is_asleep ts) by (by apply (count_lookup is_asleep ts t pc)).
    destruct (inv_relay _ _ Hi) as [E|E]; cbn [shared threads] in *; [lia|rewrite E in Hm; done|].
    apply count_pos in E as (t1 & pc1 & Ht1 & Hr1). destruct pc1; try done.
    + destruct (awake_acquires debug x86 m ts t1 Swap Hi Hm Ht1 eq_refl eq_refl) as (c' & pc' & Hc & Hx). by exists t1, Swap, c', pc'.
    + destruct pc; try done. assert (Hne : t ≠ t1) by (intros ->; congruence).
      assert (Hsw : <[t1 := Idle]> ts !! t = Some Asleep) by (by rewrite list_lookup_insert_ne).
      assert (Hst : step_at (program debug x86) active (mkConf m ts) (mkConf m (<[t := Swap]> (<[t1 := Idle]> ts)))).
      { apply (step_at_thread _ _ m m ts _ t1 Wake Idle 1); [done|done|by left|].
        unfold wake_count. change (asleep _) with is_asleep. rewrite (count_insert _ _ _ _ _ Ht1). cbn [b2z is_asleep].
        replace (Z.to_nat _) with 1%nat by lia. eapply (wakes_one _ 0 t Asleep); [done|done|constructor]. }
      destruct (acquires_swap debug x86 m (<[t := Swap]> (<[t1 := Idle]> ts)) t Hm) as (c' & pc' & Hc & Hx).
      { apply list_lookup_insert_eq. by eapply lookup_lt_Some. }
      exists t, Asleep, c', pc'. split; [done|]. split; [done|]. split; [|done]. eapply rtc_l; [exact Hst|exact Hc].
  - destruct (awake_acquires debug x86 m ts t pc Hi Hm Ht Hw Ea) as (c' & pc' & Hc & Hx). by exists t, pc, c', pc'.
Qed.

(** The holder has let go and has not yet woken the sleeper. *)
Definition handover : list Move := contention ++ replicate 4 (Go 0 0 []).

Lemma mutex_wakeups_arrive_witness :
  ∃ c, threads c = [Wake; Asleep] ∧ ∃ t' c' pc'', rtc (step_at (program true true) active) c c' ∧ threads c' !! t' = Some pc'' ∧ holds pc'' = true.
Proof.
  destruct (run (program true true) handover (start 2)) as [c|] eqn:E; [|by vm_compute in E].
  pose proof E as E'. vm_compute in E'. injection E' as <-.
  destruct (mutex_wakeups_arrive true true 2 _ 1 Asleep (run_reach _ _ _ _ E)) as (t' & pc' & c' & pc'' & _ & _ & H);
    [reflexivity|reflexivity|reflexivity|].
  eexists. split; [|exists t', c', pc''; exact H]. reflexivity.
Defined.
End Mutex.
