(* ===== verification/ThreadCondition.v ===== *)
(** * [src/threading/Condition.rs]: the condition variable

    [FutexImpl], with and without a timeout, over a mutex that is its owner (what
    [ThreadMutex] proves of the mutex is that it has at most one). The epoch is
    the number of times it was changed; the word in memory is that number modulo
    2{^32}, which is all that threads load and compare. *)

From S2P Require Import Prelude ThreadModel.

#[local] Open Scope Z_scope.

Module Condition.
Definition ONE_WAITER : Z := 1.
Definition WAITER_MASK : Z := 0xffff.
Definition ONE_SIGNAL : Z := Z.shiftl 1 16.
Definition SIGNAL_MASK : Z := Z.shiftl 0xffff 16.

(** [FutexImpl] and the mutex. *)
Record Sh := mkSh { state : Z; epoch : Z; owner : option nat }.
Definition new : Sh := mkSh 0 0 None.

Definition epoch_word (s : Sh) : Z := wrap32 (epoch s).
Definition set_state (x : Z) (s : Sh) : Sh := mkSh x (epoch s) (owner s).
Definition set_owner (o : option nat) (s : Sh) : Sh := mkSh (state s) (epoch s) o.
Definition bump (s : Sh) : Sh := mkSh (state s) (epoch s + 1) (owner s).

Inductive Pc :=
| Idle
| Lock (* waits for the mutex: in [lock], or on the way out of [wait] *)
| Locked
| LoadEpoch (timed : bool) (* [wait]: the first load of the epoch *)
| AddWaiter (timed : bool) (e : Z) (* [fetch_add(ONE_WAITER)] *)
| Unlock (timed : bool) (e st : Z) (* [mutex.unlock()] *)
| Sleep (timed : bool) (e st : Z) (* [futex_deadline.wait(&self.epoch, epoch)] *)
| Asleep (timed : bool) (e st : Z)
| Reload (timed : bool) (* the load of the epoch after the futex *)
| LoadState (timed : bool) (e : Z)
| Consume (timed : bool) (e st : Z) (* the exchange that takes a signal *)
| TimedOut (st : Z) (* the exchanges after a timeout *)
| WakeLoad (all held : bool) (* [wake]: the load of the state *)
| WakeCas (all held : bool) (st : Z)
| WakeEpoch (held : bool) (to_wake : Z) (* [epoch.fetch_add(1)] *)
| WakeFutex (held : bool) (to_wake : Z) (* [Futex::wake(&self.epoch, to_wake)] *)
| Panicked.

Definition waiters_of (st : Z) : Z := Z.land st WAITER_MASK / ONE_WAITER.
Definition signals_of (st : Z) : Z := Z.land st SIGNAL_MASK / ONE_SIGNAL.

(** Checked [u32] arithmetic. *)
Definition checked (z : Z) : option Z := if (0 <=? z) && (z <? 2 ^ 32) then Some z else None.

(** After a load of the state: take a signal if there is one, or sleep. *)
Definition look (timed : bool) (e st : Z) : Pc :=
  if negb (Z.land st SIGNAL_MASK =? 0) then Consume timed e st else Sleep timed e st.

(** [compare_exchange_weak(st, new)]: the success, if it can succeed, and the failure, which it may report anyway. *)
Definition cas_weak (s : Sh) (st : Z) (new : option Z) (won : Pc) (lost : Z → Pc) : list (Sh * Pc * Z) :=
  match new with
  | None => [(s, Panicked, 0)]
  | Some x => (if state s =? st then [(set_state x s, won, 0)] else []) ++ [(s, lost (state s), 0)]
  end.

Definition returned (held : bool) : Pc := if held then Locked else Idle.

Definition next (t : nat) (s : Sh) (pc : Pc) : list (Sh * Pc * Z) :=
  match pc with
  | Idle => [(s, Lock, 0); (s, WakeLoad false false, 0); (s, WakeLoad true false, 0)]
  | Lock => match owner s with None => [(set_owner (Some t) s, Locked, 0)] | Some _ => [] end
  | Locked =>
      [(s, LoadEpoch false, 0); (s, LoadEpoch true, 0); (s, WakeLoad false true, 0); (s, WakeLoad true true, 0);
       (set_owner None s, Idle, 0)]
  | LoadEpoch timed => [(s, AddWaiter timed (epoch_word s), 0)]
  | AddWaiter timed e =>
      let st := wrap32 (state s + ONE_WAITER) in
      if Z.land (state s) WAITER_MASK =? WAITER_MASK then [(set_state st s, Panicked, 0)]
      else match checked (state s + ONE_WAITER) with
           | None => [(set_state st s, Panicked, 0)]
           | Some local => [(set_state st s, Unlock timed e local, 0)]
           end
  | Unlock timed e st => [(set_owner None s, Sleep timed e st, 0)]
  | Sleep timed e st =>
      (s, if epoch_word s =? e then Asleep timed e st else Reload timed, 0)
      :: if timed then [(s, TimedOut st, 0)] else []
  | Asleep timed e st => if timed then [(s, TimedOut st, 0)] else []
  | Reload timed => [(s, LoadState timed (epoch_word s), 0)]
  | LoadState timed e => [(s, look timed e (state s), 0)]
  | Consume timed e st => cas_weak s st (checked (st - ONE_WAITER - ONE_SIGNAL)) Lock (look timed e)
  | TimedOut st =>
      if negb (Z.land st SIGNAL_MASK =? 0) then cas_weak s st (checked (st - ONE_WAITER - ONE_SIGNAL)) Lock TimedOut
      else cas_weak s st (checked (st - ONE_WAITER)) Lock TimedOut
  | WakeLoad all held => [(s, WakeCas all held (state s), 0)]
  | WakeCas all held st =>
      match checked (waiters_of st - signals_of st) with
      | None => [(s, Panicked, 0)]
      | Some wakeable =>
          if wakeable =? 0 then [(s, returned held, 0)]
          else
            let to_wake := if all then wakeable else 1 in
            cas_weak s st (checked (st + ONE_SIGNAL * to_wake)) (WakeEpoch held to_wake) (WakeCas all held)
      end
  | WakeEpoch held to_wake => [(bump s, WakeFutex held to_wake, 0)]
  | WakeFutex held to_wake => [(s, returned held, to_wake)]
  | Panicked => []
  end.

Definition is_asleep (pc : Pc) : bool := match pc with Asleep _ _ _ => true | _ => false end.

(** Out of the futex, [wait] loads the epoch anew. *)
Definition wake_up (pc : Pc) : Pc := match pc with Asleep timed _ _ => Reload timed | _ => pc end.

Definition program : Program Sh Pc := mkProgram _ _ next is_asleep wake_up.

Definition start (n : nat) : Conf Sh Pc := mkConf new (replicate n Idle).

(** ** Who waits, and who is about to look at the signals *)

(** Counted as a waiter in the state. *)
Definition waits (pc : Pc) : bool :=
  match pc with
  | Unlock _ _ _ | Sleep _ _ _ | Asleep _ _ _ | Reload _ | LoadState _ _ | Consume _ _ _ | TimedOut _ => true
  | _ => false
  end.

(** About to sleep: the epoch it has loaded is the current one. *)
Definition drowsy (cur : Z) (pc : Pc) : bool :=
  match pc with Unlock _ e _ | Sleep _ e _ => e =? cur | _ => false end.

(** A waiter that will look at the signals before it sleeps (again). *)
Definition alert (cur : Z) (pc : Pc) : bool := waits pc && negb (is_asleep pc) && negb (drowsy cur pc).

(** The sleepers that [wake] has reserved and has yet to wake: all, and those whose epoch is yet to be changed. *)
Definition pending (pc : Pc) : Z := match pc with WakeEpoch _ n | WakeFutex _ n => n | _ => 0 end.
Definition pending_epoch (pc : Pc) : Z := match pc with WakeEpoch _ n => n | _ => 0 end.

Definition panicked (pc : Pc) : bool := match pc with Panicked => true | _ => false end.

(** Holds the mutex. *)
Definition holds (pc : Pc) : bool :=
  match pc with
  | Locked | LoadEpoch _ | AddWaiter _ _ | Unlock _ _ _ => true
  | WakeLoad _ h | WakeCas _ h _ | WakeEpoch h _ | WakeFutex h _ => h
  | _ => false
  end.

(** The values a thread has loaded: an epoch no newer than the current one, and a state
    that was one, loaded by a waiter with itself counted. *)
Definition valid (least st : Z) : Prop := ∃ w s, st = w + ONE_SIGNAL * s ∧ 0 <= s <= w ∧ least <= w <= WAITER_MASK.

Definition local_ok (cur : Z) (pc : Pc) : Prop :=
  match pc with
  | AddWaiter _ e | LoadState _ e => e <= cur
  | Unlock _ e st | Sleep _ e st | Asleep _ e st => e <= cur ∧ valid 1 st
  | Consume _ e st => e <= cur ∧ valid 1 st ∧ Z.land st SIGNAL_MASK ≠ 0
  | TimedOut st => valid 1 st
  | WakeCas _ _ st => valid 0 st
  | WakeEpoch _ n | WakeFutex _ n => 1 <= n
  | _ => True
  end.

(** ** The invariant *)

(** With [signals] posted and not taken: they are no more than the waiters; no
    more than the waiters that are not about to sleep in the current epoch and
    those for whom the epoch is yet to change; and no more than the waiters that
    will look and the sleepers yet to be woken. *)
Record inv (signals : Z) (c : Conf Sh Pc) : Prop := {
  inv_state : state (shared c) = count waits (threads c) + ONE_SIGNAL * signals;
  inv_signals : 0 <= signals <= count waits (threads c);
  inv_drowsy : signals <= count waits (threads c) - count (drowsy (epoch (shared c))) (threads c) + total pending_epoch (threads c);
  inv_alert : signals <= count (alert (epoch (shared c))) (threads c) + total pending (threads c);
  inv_local : ∀ t pc, threads c !! t = Some pc → local_ok (epoch (shared c)) pc;
  inv_panicked : count panicked (threads c) = 0;
  inv_owner : owned owner holds (shared c) (threads c);
  inv_threads : Z.of_nat (length (threads c)) <= WAITER_MASK;
  inv_epoch : 0 <= epoch (shared c) < 2 ^ 32;
}.

Lemma alert_at cur pc : alert cur pc = waits pc && negb (is_asleep pc) && negb (drowsy cur pc).
Proof. done. Qed.

Lemma waits_split cur ts : count waits ts = count (alert cur) ts + count (drowsy cur) ts + count is_asleep ts.
Proof.
  induction ts as [|pc ts IH]; [done|]. rewrite !count_cons, IH. destruct pc; cbn [waits alert drowsy is_asleep andb negb b2z]; try lia;
    destruct (_ =? cur); cbn [andb negb b2z]; lia.
Qed.

Lemma cond_land_parts w s : 0 <= w <= WAITER_MASK → 0 <= s <= WAITER_MASK →
  Z.land (w + ONE_SIGNAL * s) WAITER_MASK = w ∧ Z.land (w + ONE_SIGNAL * s) SIGNAL_MASK = ONE_SIGNAL * s.
Proof.
  intros Hw Hs. change ONE_SIGNAL with (2 ^ 16). change SIGNAL_MASK with (Z.shiftl (Z.ones 16) 16).
  rewrite land_shiftl by lia. change WAITER_MASK with (Z.ones 16) in *. rewrite !Z.land_ones by lia. change (Z.ones 16) with 65535 in *.
  rewrite Z.shiftr_div_pow2, Z.shiftl_mul_pow2 by lia. rewrite (Z.mul_comm (2 ^ 16)), Z.mod_add, Z.div_add by lia.
  rewrite (Z.mod_small w), (Z.div_small w) by lia. rewrite Z.add_0_l, Z.mod_small by lia. done.
Qed.

Lemma parts w s : 0 <= w <= WAITER_MASK → 0 <= s <= WAITER_MASK →
  waiters_of (w + ONE_SIGNAL * s) = w ∧ signals_of (w + ONE_SIGNAL * s) = s.
Proof.
  intros Hw Hs. unfold waiters_of, signals_of. destruct (cond_land_parts w s Hw Hs) as [-> ->]. split; [apply Z.div_1_r|].
  rewrite Z.mul_comm. by apply Z.div_mul.
Qed.

Lemma checked_ok z : 0 <= z < 2 ^ 32 → checked z = Some z.
Proof. intros H. unfold checked. destruct (Z.leb_spec 0 z), (Z.ltb_spec z (2 ^ 32)); lia || done. Qed.

Lemma cas_weak_in s st new won lost s' pc' n :
  (s', pc', n) ∈ cas_weak s st (Some new) won lost →
  (state s = st ∧ s' = set_state new s ∧ pc' = won ∨ s' = s ∧ pc' = lost (state s)) ∧ n = 0.
Proof.
  unfold cas_weak. destruct (Z.eqb_spec (state s) st) as [E|E]; cbn [app]; rewrite ?elem_of_cons, elem_of_nil; naive_solver.
Qed.

Lemma no_drowsy cur ts : (∀ t pc, ts !! t = Some pc → local_ok cur pc) → count (drowsy (cur + 1)) ts = 0.
Proof.
  induction ts as [|pc ts IH]; intros H; [done|]. rewrite count_cons, IH by (intros t x Hx; by apply (H (S t))).
  specialize (H 0%nat pc eq_refl). destruct pc; cbn in *; try done; destruct H as [H _]; by rewrite (proj2 (Z.eqb_neq _ _)) by lia.
Qed.

Lemma pending_nonneg cur ts : (∀ t pc, ts !! t = Some pc → local_ok cur pc) → 0 <= total pending_epoch ts <= total pending ts.
Proof.
  induction ts as [|pc ts IH]; intros H; [done|]. destruct IH as [IH1 IH2]; [intros t x Hx; by apply (H (S t))|].
  specialize (H 0%nat pc eq_refl). rewrite !total_cons. destruct pc; cbn in *; lia.
Qed.

Lemma local_ok_mono cur pc : local_ok cur pc → local_ok (cur + 1) pc.
Proof. destruct pc; cbn; naive_solver lia. Qed.

(** What the counts become when a thread moves from [pc] to [pc'] and the epoch stays. *)
Definition counts_ok (signals st cur : Z) (ts : list Pc) (pc pc' : Pc) : Prop :=
  st = count waits ts - b2z (waits pc) + b2z (waits pc') + ONE_SIGNAL * signals
  ∧ 0 <= signals <= count waits ts - b2z (waits pc) + b2z (waits pc')
  ∧ signals <= count waits ts - b2z (waits pc) + b2z (waits pc') - (count (drowsy cur) ts - b2z (drowsy cur pc) + b2z (drowsy cur pc'))
              + (total pending_epoch ts - pending_epoch pc + pending_epoch pc')
  ∧ signals <= count (alert cur) ts - b2z (alert cur pc) + b2z (alert cur pc') + (total pending ts - pending pc + pending pc').

Lemma waits_valid ts signals n :
  Z.of_nat (length ts) <= WAITER_MASK → 0 <= signals <= count waits ts → n <= count waits ts → valid n (count waits ts + ONE_SIGNAL * signals).
Proof. intros Hl Hs Hn. exists (count waits ts), signals. pose proof (count_bounds waits ts). lia. Qed.

(** Looking at a state with [signals] in it. *)
Lemma look_counts signals s ts t pc timed e :
  inv signals (mkConf s ts) → ts !! t = Some pc → alert (epoch s) pc = true → pending pc = 0 → pending_epoch pc = 0 → e <= epoch s →
  counts_ok signals (state s) (epoch s) ts pc (look timed e (state s)) ∧ local_ok (epoch s) (look timed e (state s))
  ∧ panicked (look timed e (state s)) = false.
Proof.
  intros [Hst Hsig Hdr Hal Hlo _ _ Hth Hep] Ht Ha Hp Hpe He. cbn [shared threads] in *.
  pose proof (count_bounds waits ts) as Bw. pose proof (count_lookup (alert (epoch s)) ts t pc Ht Ha) as Ca.
  assert (Hw : waits pc = true ∧ drowsy (epoch s) pc = false).
  { unfold alert in Ha. destruct (waits pc), (is_asleep pc), (drowsy (epoch s) pc); try done. }
  destruct Hw as [Hw Hd]. pose proof (count_lookup waits ts t pc Ht Hw) as Cw.
  pose proof (pending_nonneg _ ts Hlo) as Hnon. pose proof (waits_split (epoch s) ts) as Hsplit. pose proof (count_bounds is_asleep ts).
  pose proof (count_bounds (drowsy (epoch s)) ts).
  pose proof (waits_valid ts signals 1 Hth Hsig ltac:(lia)) as Hv. rewrite Hst.
  destruct (cond_land_parts (count waits ts) signals) as [_ Hland]; [lia..|]. unfold look. rewrite Hland.
  unfold counts_ok. rewrite Hw, Hd, Ha, Hp, Hpe.
  destruct (Z.eqb_spec (ONE_SIGNAL * signals) 0) as [E|E]; cbn [negb waits drowsy alert is_asleep pending pending_epoch b2z andb local_ok panicked].
  - assert (signals = 0) as -> by (unfold ONE_SIGNAL in E; change (Z.shiftl 1 16) with 65536 in E; lia).
    destruct (e =? epoch s); cbn [b2z negb]; split_and!; try done; try lia.
  - rewrite Hland. split_and!; try done; lia.
Qed.

(** What a waiter stores back does not underflow, if it has looked for a signal. *)
Lemma checked_take st take :
  valid 1 st → (take = 1 ∧ Z.land st SIGNAL_MASK ≠ 0 ∨ take = 0 ∧ Z.land st SIGNAL_MASK = 0) →
  checked (st - ONE_WAITER - ONE_SIGNAL * take) = Some (st - ONE_WAITER - ONE_SIGNAL * take).
Proof.
  intros (w & g & -> & Hg & Hw) Htake. destruct (cond_land_parts w g) as [_ Hland]; [lia..|]. rewrite Hland in Htake.
  unfold ONE_WAITER, WAITER_MASK in *. change ONE_SIGNAL with 65536 in *. apply checked_ok. lia.
Qed.

(** Taking a signal, or leaving without one when there is none. *)
Lemma consume_counts signals s ts t pc st take :
  inv signals (mkConf s ts) → ts !! t = Some pc → waits pc = true → is_asleep pc = false → drowsy (epoch s) pc = false →
  pending pc = 0 → pending_epoch pc = 0 → valid 1 st →
  (take = 1 ∧ Z.land st SIGNAL_MASK ≠ 0 ∨ take = 0 ∧ Z.land st SIGNAL_MASK = 0) →
  checked (st - ONE_WAITER - ONE_SIGNAL * take) = Some (st - ONE_WAITER - ONE_SIGNAL * take)
  ∧ (state s = st → counts_ok (signals - take) (st - ONE_WAITER - ONE_SIGNAL * take) (epoch s) ts pc Lock).
Proof.
  intros [Hst Hsig Hdr Hal Hlo _ _ Hth Hep] Ht Hw Ha Hd Hp Hpe Hv Htake. cbn [shared threads] in *.
  split; [by apply checked_take|]. destruct Hv as (w & g & -> & Hg & Hwb).
  destruct (cond_land_parts w g) as [_ Hland]; [lia..|]. rewrite Hland in Htake.
  unfold ONE_WAITER, WAITER_MASK in *. change ONE_SIGNAL with 65536 in *.
  pose proof (pending_nonneg _ ts Hlo) as Hnon. pose proof (waits_split (epoch s) ts) as Hsplit. pose proof (count_bounds is_asleep ts).
  pose proof (count_bounds (drowsy (epoch s)) ts). pose proof (count_bounds waits ts).
  assert (Hal1 : alert (epoch s) pc = true) by (unfold alert; by rewrite Hw, Ha, Hd).
  pose proof (count_lookup (alert (epoch s)) ts t pc Ht Hal1).
  intros E. assert (w = count waits ts ∧ g = signals) as [-> ->] by lia.
  unfold counts_ok. rewrite Hw, Hd, Hal1, Hp, Hpe. change ONE_SIGNAL with 65536. cbn [waits drowsy alert is_asleep pending pending_epoch b2z andb]. lia.
Qed.

Lemma stay_counts signals s ts pc pc' :
  inv signals (mkConf s ts) → waits pc' = waits pc → is_asleep pc' = is_asleep pc → drowsy (epoch s) pc' = drowsy (epoch s) pc →
  pending pc' = pending pc → pending_epoch pc' = pending_epoch pc → counts_ok signals (state s) (epoch s) ts pc pc'.
Proof.
  intros [Hst Hsig Hdr Hal _ _ _ _ _] Hw Ha Hd Hp Hpe. assert (Hq : alert (epoch s) pc' = alert (epoch s) pc) by (unfold alert; by rewrite Hw, Ha, Hd).
  unfold counts_ok. rewrite Hw, Hd, Hq, Hp, Hpe. cbn [shared threads] in *. lia.
Qed.

Lemma wake_counts signals s ts t all held st :
  inv signals (mkConf s ts) → ts !! t = Some (WakeCas all held st) → valid 0 st →
  ∃ wakeable, checked (waiters_of st - signals_of st) = Some wakeable ∧
    (wakeable ≠ 0 → let n := if all then wakeable else 1 in
       1 <= n ∧ checked (st + ONE_SIGNAL * n) = Some (st + ONE_SIGNAL * n)
       ∧ (state s = st → counts_ok (signals + n) (st + ONE_SIGNAL * n) (epoch s) ts (WakeCas all held st) (WakeEpoch held n))).
Proof.
  intros [Hst Hsig Hdr Hal _ _ _ Hth _] Ht (w & g & -> & Hg & Hw). cbn [shared threads] in *.
  destruct (parts w g) as [-> ->]; [lia..|]. pose proof (count_bounds waits ts).
  unfold WAITER_MASK in *. exists (w - g). split; [apply checked_ok; lia|]. intros Hne. change ONE_SIGNAL with 65536 in *. cbv zeta.
  assert (Hn : 1 <= (if all then w - g else 1) <= w - g) by (destruct all; lia). set (n := if all then w - g else 1) in *.
  split; [lia|]. split; [apply checked_ok; lia|]. intros E. assert (w = count waits ts ∧ g = signals) as [-> ->] by lia.
  unfold counts_ok. change ONE_SIGNAL with 65536. cbn [alert waits drowsy is_asleep pending pending_epoch b2z andb]. lia.
Qed.

Definition changes_epoch (pc : Pc) : bool := match pc with WakeEpoch _ _ => true | _ => false end.

Lemma cond_move_counts signals s s' ts t pc pc' :
  inv signals (mkConf s ts) → ts !! t = Some pc → changes_epoch pc = false → (s', pc', 0) ∈ next t s pc →
  ∃ signals', counts_ok signals' (state s') (epoch s) ts pc pc' ∧ local_ok (epoch s) pc' ∧ panicked pc' = false ∧ epoch s' = epoch s.
Proof.
  intros Hi Ht Hce Hn. pose proof Hi as [Hst Hsig Hdr Hal Hlo _ _ Hth Hep]. cbn [shared threads] in *.
  pose proof (Hlo t pc Ht) as Hl. assert (Hword : epoch_word s = epoch s) by (unfold epoch_word, wrap32; by apply Z.mod_small).
  pose proof (count_bounds waits ts) as Bw. pose proof (pending_nonneg _ ts Hlo) as Hnon.
  pose proof (waits_valid ts signals 0 Hth Hsig ltac:(lia)) as Hv.
  destruct pc; cbn [next local_ok] in *; unfold returned in *;
    try (choices Hn; exists signals; (split; [by apply (stay_counts signals s)|]); repeat case_match; destruct_and?; cbn; split_and!; try done; lia).
  - destruct (owner s); choices Hn. exists signals. by split; [apply (stay_counts signals s)|].
  - (* AddWaiter *)
    pose proof (count_missing waits ts t _ Ht eq_refl) as Hless. destruct (cond_land_parts (count waits ts) signals) as [Hland _]; [lia..|].
    rewrite Hst, Hland in Hn. rewrite (proj2 (Z.eqb_neq _ _)) in Hn by lia. unfold ONE_WAITER, WAITER_MASK in *. change ONE_SIGNAL with 65536 in *.
    rewrite checked_ok in Hn by lia. unfold wrap32 in Hn. rewrite Z.mod_small in Hn by lia. choices Hn. exists signals.
    split; [|split_and!; try done; cbn; split; [done|]; exists (count waits ts + 1), signals; unfold WAITER_MASK; change ONE_SIGNAL with 65536; lia].
    unfold counts_ok. rewrite !alert_at. change ONE_SIGNAL with 65536. cbn [state set_state alert waits drowsy is_asleep pending pending_epoch b2z andb].
    destruct (e =? epoch s); cbn [b2z negb andb]; lia.
  - (* Sleep *)
    pose proof (count_bounds (drowsy (epoch s)) ts). rewrite Hword in Hn.
    assert (Hd : e = epoch s → 1 <= count (drowsy (epoch s)) ts).
    { intros ->. apply (count_lookup _ _ t _ Ht). cbn. apply Z.eqb_refl. }
    assert (Hgo : ∀ x, x = Asleep timed e st ∧ e = epoch s ∨ x = Reload timed ∧ e ≠ epoch s ∨ x = TimedOut st →
      counts_ok signals (state s) (epoch s) ts (Sleep timed e st) x ∧ local_ok (epoch s) x ∧ panicked x = false).
    { intros x Hx. unfold counts_ok. rewrite !alert_at. destruct (Z.eqb_spec e (epoch s)) as [E|E];
        (destruct Hx as [[-> ?]|[[-> ?]| ->]]; try done; cbn [waits alert drowsy is_asleep pending pending_epoch b2z andb];
         rewrite ?(proj2 (Z.eqb_eq e (epoch s)) E), ?(proj2 (Z.eqb_neq e (epoch s)) E); cbn [b2z negb andb]; split_and!; try done; try apply Hl; lia). }
    assert (Hx : s' = s ∧ (pc' = Asleep timed e st ∧ e = epoch s ∨ pc' = Reload timed ∧ e ≠ epoch s ∨ pc' = TimedOut st)).
    { destruct timed; destruct (Z.eqb_spec (epoch s) e) as [E|E]; choices Hn; split; auto. }
    destruct Hx as [-> Hx]. exists signals. destruct (Hgo pc' Hx) as (? & ? & ?). done.
  - (* Asleep *)
    destruct timed; choices Hn. exists signals. split; [|split_and!; try done; apply Hl].
    unfold counts_ok. rewrite !alert_at. cbn [waits drowsy is_asleep pending pending_epoch b2z andb negb]. lia.
  - (* LoadState *)
    choices Hn. exists signals. destruct (look_counts signals s ts t _ timed e Hi Ht) as (? & ? & ?); done.
  - (* Consume *)
    destruct Hl as (He & Hvl & Hsg). destruct (consume_counts signals s ts t _ st 1 Hi Ht) as [Hck Hgo]; try done; [by left|].
    rewrite Z.mul_1_r in *. rewrite Hck in Hn. apply cas_weak_in in Hn as [[(E & -> & ->)|(-> & ->)] _].
    + exists (signals - 1). by split; [apply Hgo|].
    + exists signals. destruct (look_counts signals s ts t _ timed e Hi Ht) as (? & ? & ?); done.
  - (* TimedOut *)
    assert (Hlost : counts_ok signals (state s) (epoch s) ts (TimedOut st) (TimedOut (state s)) ∧ local_ok (epoch s) (TimedOut (state s))).
    { split; [by apply (stay_counts signals s)|]. cbn. rewrite Hst. apply waits_valid; [done..|].
      pose proof (count_lookup waits ts t _ Ht eq_refl). lia. }
    destruct Hlost as [Hl1 Hl2]. destruct (Z.eqb_spec (Z.land st SIGNAL_MASK) 0) as [E0|E0]; cbn [negb] in Hn.
    + destruct (consume_counts signals s ts t _ st 0 Hi Ht) as [Hck Hgo]; try done; [by right|].
      rewrite Z.mul_0_r, !Z.sub_0_r in *. rewrite Hck in Hn. apply cas_weak_in in Hn as [[(E & -> & ->)|(-> & ->)] _].
      * exists signals. by split; [apply Hgo|].
      * by exists signals.
    + destruct (consume_counts signals s ts t _ st 1 Hi Ht) as [Hck Hgo]; try done; [by left|].
      rewrite Z.mul_1_r in *. rewrite Hck in Hn. apply cas_weak_in in Hn as [[(E & -> & ->)|(-> & ->)] _].
      * exists (signals - 1). by split; [apply Hgo|].
      * by exists signals.
  - (* WakeLoad *)
    choices Hn. exists signals. split; [by apply (stay_counts signals s)|]. cbn. by rewrite Hst.
  - (* WakeCas *)
    destruct (wake_counts signals s ts t all held st Hi Ht Hl) as (wakeable & Hck & Hgo). rewrite Hck in Hn.
    destruct (Z.eqb_spec wakeable 0) as [E0|E0].
    + choices Hn. exists signals. split; [by apply (stay_counts signals s); destruct held|]. by destruct held.
    + destruct (Hgo E0) as (Hn1 & Hck2 & Hgo2). rewrite Hck2 in Hn. apply cas_weak_in in Hn as [[(E & -> & ->)|(-> & ->)] _].
      * eexists. split; [by apply Hgo2|]. done.
      * exists signals. split; [by apply (stay_counts signals s)|]. cbn. by rewrite Hst.
  - (* WakeFutex *)
    choices Hn. lia.
Qed.

Lemma cas_weak_owner s st new won lost s' pc' n :
  (s', pc', n) ∈ cas_weak s st new won lost →
  owner s' = owner s ∧ epoch s' = epoch s ∧ n = 0 ∧ (pc' = won ∨ pc' = lost (state s) ∨ pc' = Panicked).
Proof.
  destruct new as [new|]; [intros [[(_ & -> & ->)|(-> & ->)] ->]%cas_weak_in; split_and!; auto|].
  intros Hn. unfold cas_weak in Hn. apply list_elem_of_singleton in Hn. injection Hn; intros; subst; split_and!; auto.
Qed.

(** The mutex changes hands only between a thread and nobody. *)
Lemma cond_next_owner t s pc s' pc' n :
  (s', pc', n) ∈ next t s pc → owner_step owner holds t s s' pc pc'.
Proof.
  intros Hn. unfold owner_step. destruct pc; cbn [next] in Hn; repeat case_match; try (choices Hn); unfold returned; cbn; auto;
    try (apply cas_weak_owner in Hn as (-> & _ & _ & Hx); left; split; [done|]; destruct Hx as [->|[->| ->]]); unfold look; repeat case_match; cbn; auto; try done;
    by left.
Qed.

Lemma cond_inv_move signals s s' ts t pc pc' :
  inv signals (mkConf s ts) → ts !! t = Some pc → changes_epoch pc = false → (s', pc', 0) ∈ next t s pc →
  ∃ signals', inv signals' (mkConf s' (<[t := pc']> ts)).
Proof.
  intros Hi Ht Hce Hn. destruct (cond_move_counts signals s s' ts t pc pc' Hi Ht Hce Hn) as (signals' & (C1 & C2 & C3 & C4) & Hl & Hp & He).
  exists signals'. pose proof (owned_step _ _ _ _ _ _ _ _ (inv_owner _ _ Hi) Ht (cond_next_owner _ _ _ _ _ _ Hn)) as Ho. destruct Hi as [_ _ _ _ Hlo Hpk _ Hth Hep].
  split; cbn [shared threads] in *; rewrite ?(count_insert _ _ _ _ _ Ht), ?(total_insert _ _ _ _ _ Ht), ?He; try done.
  - intros t' x Hx. apply (lookup_insert_Some _ _ _ pc) in Hx as [[-> ->]|[_ Hx]]; [done|by apply (Hlo t')|done].
  - rewrite Hpk, Hp. destruct (panicked pc) eqn:E; [|done]. by rewrite (count_zero panicked ts t pc Hpk Ht) in E.
  - by rewrite length_insert.
Qed.

(** A new epoch: nobody is about to sleep any more. *)
Lemma inv_bump signals s ts t held n :
  inv signals (mkConf s ts) → ts !! t = Some (WakeEpoch held n) → epoch s + 1 < 2 ^ 32 →
  inv signals (mkConf (bump s) (<[t := WakeFutex held n]> ts)).
Proof.
  intros Hi Ht Hlt. pose proof (owned_step _ _ _ _ _ _ _ _ (inv_owner _ _ Hi) Ht (cond_next_owner t s (WakeEpoch held n) (bump s) (WakeFutex held n) 0 ltac:(by left))) as Ho.
  destruct Hi as [Hst Hsig Hdr Hal Hlo Hpk _ Hth Hep]. cbn [shared threads] in *.
  pose proof (no_drowsy _ ts Hlo) as Hnd. pose proof (waits_split (epoch s) ts) as Hsp. pose proof (waits_split (epoch s + 1) ts) as Hsp'.
  pose proof (count_bounds (drowsy (epoch s)) ts). pose proof (pending_nonneg _ ts Hlo). pose proof (Hlo t _ Ht) as Hn. cbn in Hn.
  assert (Hlo' : ∀ t' x, <[t := WakeFutex held n]> ts !! t' = Some x → local_ok (epoch s + 1) x).
  { intros t' x Hx. apply (lookup_insert_Some _ _ _ (WakeEpoch held n)) in Hx as [[-> ->]|[_ Hx]]; [done|by apply local_ok_mono, (Hlo t')|done]. }
  pose proof (pending_nonneg _ _ Hlo') as Hpn. rewrite (total_insert pending_epoch _ _ _ _ Ht) in Hpn. cbn [pending_epoch] in Hpn.
  split; cbn [shared threads bump state epoch owner] in *; rewrite ?(count_insert _ _ _ _ _ Ht), ?(total_insert _ _ _ _ _ Ht);
    rewrite ?alert_at; cbn [waits drowsy is_asleep pending pending_epoch panicked b2z andb negb]; try lia; try done.
  by rewrite length_insert.
Qed.

(** Waking [n] sleepers, or all there are: each will look at the signals. *)
Lemma inv_futex signals s ts ts' t held n :
  inv signals (mkConf s ts) → ts !! t = Some (WakeFutex held n) →
  wakes program (wake_count program n (<[t := returned held]> ts)) (<[t := returned held]> ts) ts' → inv signals (mkConf s ts').
Proof.
  intros Hi Ht Hw. pose proof (owned_step _ _ _ _ _ _ _ _ (inv_owner _ _ Hi) Ht (cond_next_owner t s (WakeFutex held n) s (returned held) n ltac:(by left))) as Ho.
  destruct Hi as [Hst Hsig Hdr Hal Hlo Hpk _ Hth Hep]. cbn [shared threads] in *.
  assert (Hwake : ∀ pc, asleep program pc = true → asleep program (woken program pc) = false) by (by intros []).
  set (ts1 := <[t := returned held]> ts) in *. set (k := wake_count program n ts1) in *.
  assert (H1 : count waits ts1 = count waits ts) by (unfold ts1; rewrite (count_insert _ _ _ _ _ Ht); destruct held; cbn; lia).
  assert (H2 : ∀ e, count (drowsy e) ts1 = count (drowsy e) ts) by (intros e; unfold ts1; rewrite (count_insert _ _ _ _ _ Ht); destruct held; cbn; lia).
  assert (H3 : count is_asleep ts1 = count is_asleep ts) by (unfold ts1; rewrite (count_insert _ _ _ _ _ Ht); destruct held; cbn; lia).
  assert (H4 : total pending ts1 = total pending ts - n) by (unfold ts1; rewrite (total_insert _ _ _ _ _ Ht); destruct held; cbn; lia).
  assert (H5 : total pending_epoch ts1 = total pending_epoch ts) by (unfold ts1; rewrite (total_insert _ _ _ _ _ Ht); destruct held; cbn; lia).
  assert (H6 : count panicked ts1 = count panicked ts) by (unfold ts1; rewrite (count_insert _ _ _ _ _ Ht); destruct held; cbn; lia).
  assert (W1 : count waits ts' = count waits ts1) by (apply (wakes_count program waits k); [by intros []|done]).
  assert (W2 : ∀ e, count (drowsy e) ts' = count (drowsy e) ts1) by (intros e; apply (wakes_count program (drowsy e) k); [by intros []|done]).
  assert (W3 : count is_asleep ts' = count is_asleep ts1 + Z.of_nat k * -1) by (apply (wakes_total program _ _ k); [by intros []|done]).
  assert (W4 : total pending ts' = total pending ts1 + Z.of_nat k * 0) by (apply (wakes_total program _ _ k); [by intros []|done]).
  assert (W5 : total pending_epoch ts' = total pending_epoch ts1 + Z.of_nat k * 0) by (apply (wakes_total program _ _ k); [by intros []|done]).
  assert (W6 : count panicked ts' = count panicked ts1) by (apply (wakes_count program panicked k); [by intros []|done]).
  assert (Hlo' : ∀ t' x, ts' !! t' = Some x → local_ok (epoch s) x).
  { intros t' x Hx. destruct (wakes_lookup program k ts1 ts' t' x Hwake Hw Hx) as [H|(pc0 & H & Hs & ->)].
    - apply (lookup_insert_Some _ _ _ (WakeFutex held n)) in H as [[-> ->]|[_ H]]; [by destruct held|by apply (Hlo t')|done].
    - by destruct pc0. }
  pose proof (pending_nonneg _ _ Hlo') as Hpn. pose proof (waits_split (epoch s) ts) as S1. pose proof (waits_split (epoch s) ts') as S2.
  pose proof (count_bounds is_asleep ts). pose proof (count_bounds is_asleep ts'). pose proof (Hlo t _ Ht) as Hn. cbn in Hn.
  assert (Hk : Z.of_nat k = Z.min n (count is_asleep ts)).
  { unfold k, wake_count. change (asleep program) with is_asleep. rewrite H3. lia. }
  specialize (W2 (epoch s)). rewrite H2 in W2.
  split; cbn [shared threads]; try done; try lia.
  - intros t' x Hx Hh. destruct (wakes_lookup program k ts1 ts' t' x Hwake Hw Hx) as [Hy|(pc0 & Hy & Hs & ->)]; [by apply (Ho t' x)|by destruct pc0].
  - rewrite (wakes_length program _ _ _ Hw). unfold ts1. by rewrite length_insert.
Qed.

Lemma inv_spurious signals s ts t pc :
  inv signals (mkConf s ts) → ts !! t = Some pc → is_asleep pc = true → inv signals (mkConf s (<[t := wake_up pc]> ts)).
Proof.
  intros [Hst Hsig Hdr Hal Hlo Hpk Ho Hth Hep] Ht Ha. destruct pc; try done. cbn [shared threads wake_up] in *.
  split; cbn [shared threads]; rewrite ?(count_insert _ _ _ _ _ Ht), ?(total_insert _ _ _ _ _ Ht);
    rewrite ?alert_at; cbn [waits drowsy is_asleep pending pending_epoch panicked b2z andb negb]; try lia; try done.
  - intros t' x Hx. apply (lookup_insert_Some _ _ _ (Asleep timed e st)) in Hx as [[-> ->]|[_ Hx]]; [done|by apply (Hlo t')|done].
  - intros t' x Hx Hh. apply (lookup_insert_Some _ _ _ (Asleep timed e st)) in Hx as [[-> ->]|[_ Hx]]; [done|by apply (Ho t' x)|done].
  - by rewrite length_insert.
Qed.

Lemma cond_next_wakes t s pc s' pc' n :
  (s', pc', n) ∈ next t s pc →
  n = 0 ∧ (changes_epoch pc = false ∧ epoch s' = epoch s ∨ ∃ held k, pc = WakeEpoch held k ∧ s' = bump s ∧ pc' = WakeFutex held k)
  ∨ ∃ held, pc = WakeFutex held n ∧ s' = s ∧ pc' = returned held.
Proof.
  intros Hn. destruct pc; cbn [next] in Hn; repeat case_match; try (choices Hn);
    try (apply cas_weak_owner in Hn as (_ & -> & -> & _)); auto; naive_solver.
Qed.

Lemma epoch_grows c c' : step program c c' → epoch (shared c) <= epoch (shared c').
Proof.
  intros [s s' ts ts' t pc pc' n Ht Hn Hw|s ts t pc Ht Ha]; cbn [shared]; [|lia].
  destruct (cond_next_wakes _ _ _ _ _ _ Hn) as [[_ [[_ ->]|(? & ? & _ & -> & _)]]|(? & _ & -> & _)]; cbn; lia.
Qed.

Lemma cond_inv_step signals c c' : inv signals c → step program c c' → epoch (shared c') < 2 ^ 32 → ∃ signals', inv signals' c'.
Proof.
  intros Hi Hs Hlt. destruct Hs as [s s' ts ts' t pc pc' n Ht Hn Hw|s ts t pc Ht Ha]; cbn [shared] in Hlt; [|exists signals; exact (inv_spurious signals s ts t pc Hi Ht Ha)].
  destruct (cond_next_wakes _ _ _ _ _ _ Hn) as [[-> Hx]|(held & -> & -> & ->)]; [|exists signals; by eapply inv_futex].
  apply wakes_zero in Hw as ->. destruct Hx as [[Hce _]|(held & k & -> & -> & ->)]; [by eapply cond_inv_move|].
  exists signals. by apply inv_bump.
Qed.

Lemma cond_inv_start n : Z.of_nat n <= WAITER_MASK → inv 0 (start n).
Proof.
  intros Hn. assert (H : ∀ t pc, replicate n Idle !! t = Some pc → pc = Idle) by (intros t pc; rewrite lookup_replicate; naive_solver).
  split; cbn [start shared threads new state epoch owner]; unfold count; rewrite ?total_replicate; cbn [b2z waits panicked drowsy pending pending_epoch];
    rewrite ?alert_at; cbn [waits andb b2z]; try lia.
  - by intros t pc ->%H.
  - by intros t pc ->%H.
  - by rewrite length_replicate.
Qed.

Lemma cond_inv_reach n c : reach program (start n) c → Z.of_nat n <= WAITER_MASK → epoch (shared c) < 2 ^ 32 → ∃ signals, inv signals c.
Proof.
  intros Hr Hn. refine (reach_invariant program (λ c, epoch (shared c) < 2 ^ 32 → ∃ signals, inv signals c) (start n) c _ _ Hr).
  - intros _. exists 0. by apply cond_inv_start.
  - intros c1 c2 IH Hs Hlt. pose proof (epoch_grows _ _ Hs). destruct IH as [signals Hi]; [lia|]. by eapply cond_inv_step.
Qed.

(** ** Progress *)

(** In [wait] and not in the futex. *)
Definition in_wait (pc : Pc) : bool := waits pc && negb (is_asleep pc).

Definition leaves (c : Conf Sh Pc) (t : nat) : Prop := ∃ c', rtc (step_at program in_wait) c c' ∧ threads c' !! t = Some Lock.

Lemma leaves_step s s' ts t pc pc' :
  ts !! t = Some pc → in_wait pc = true → (s', pc', 0) ∈ next t s pc → pc' = Lock ∨ leaves (mkConf s' (<[t := pc']> ts)) t →
  leaves (mkConf s ts) t.
Proof.
  intros Ht Ha Hn [->|(c' & Hc & Hx)].
  - exists (mkConf s' (<[t := Lock]> ts)). split; [apply rtc_once; by eapply step_at_quiet|]. apply list_lookup_insert_eq. by eapply lookup_lt_Some.
  - exists c'. split; [|done]. eapply rtc_l; [by eapply step_at_quiet|done].
Qed.

(** A waiter that looks while there is a signal takes it. *)
Lemma looker_leaves s ts t pc w g :
  state s = w + ONE_SIGNAL * g → 1 <= g <= w → w <= WAITER_MASK → ts !! t = Some pc → local_ok (epoch s) pc →
  match pc with LoadState _ _ | Consume _ _ _ | TimedOut _ | Reload _ => True | _ => False end → leaves (mkConf s ts) t.
Proof.
  intros Hs Hg Hw Ht Hl Hpc. assert (Hlen : (t < length ts)%nat) by (by eapply lookup_lt_Some).
  destruct (cond_land_parts w g) as [_ Hland]; [unfold WAITER_MASK in *; lia..|].
  assert (Hne : (Z.land (state s) SIGNAL_MASK =? 0) = false) by (rewrite Hs, Hland; unfold ONE_SIGNAL; change (Z.shiftl 1 16) with 65536; apply Z.eqb_neq; lia).
  assert (Hck : checked (state s - ONE_WAITER - ONE_SIGNAL) = Some (state s - ONE_WAITER - ONE_SIGNAL)).
  { apply checked_ok. unfold WAITER_MASK, ONE_WAITER in *. change ONE_SIGNAL with 65536 in *. lia. }
  assert (Htake : ∀ ts pc, ts !! t = Some pc → (∃ tm e, pc = Consume tm e (state s)) ∨ pc = TimedOut (state s) → leaves (mkConf s ts) t).
  { intros ts' x Hx Hk. apply (leaves_step s (set_state (state s - ONE_WAITER - ONE_SIGNAL) s) ts' t x Lock); [done|by destruct Hk as [(? & ? & ->)| ->]| |by left].
    destruct Hk as [(tm & e & ->)| ->]; cbn [next]; rewrite ?Hne; cbn [negb]; rewrite Hck; unfold cas_weak; rewrite Z.eqb_refl; by left. }
  assert (Hload : ∀ ts tm e, (t < length ts)%nat → ts !! t = Some (LoadState tm e) → leaves (mkConf s ts) t).
  { intros ts' tm e Hl' Hx. apply (leaves_step s s ts' t (LoadState tm e) (Consume tm e (state s))); [done|done|cbn [next]; unfold look; rewrite Hne; by left|].
    right. apply (Htake _ (Consume tm e (state s))); [by apply list_lookup_insert_eq|left; eauto]. }
  destruct pc; try done.
  - apply (leaves_step s s ts t (Reload timed) (LoadState timed (epoch_word s))); [done|done|by left|].
    right. eapply Hload; [by rewrite length_insert|by apply list_lookup_insert_eq].
  - by eapply Hload.
  - destruct Hl as (_ & Hv & Hsg). apply (leaves_step s s ts t (Consume timed e st) (Consume timed e (state s))); [done|done| |].
    + pose proof (checked_take st 1 Hv ltac:(auto)) as Hc. rewrite Z.mul_1_r in Hc. cbn [next]. rewrite Hc. unfold cas_weak, look. rewrite Hne.
      apply elem_of_app. right. by left.
    + right. eapply Htake; [by apply list_lookup_insert_eq|left; eauto].
  - apply (leaves_step s s ts t (TimedOut st) (TimedOut (state s))); [done|done| |].
    + cbn [next]. destruct (Z.eqb_spec (Z.land st SIGNAL_MASK) 0) as [E|E]; cbn [negb].
      * pose proof (checked_take st 0 Hl ltac:(auto)) as Hc. rewrite Z.mul_0_r, Z.sub_0_r in Hc. rewrite Hc. apply elem_of_app. right. by left.
      * pose proof (checked_take st 1 Hl ltac:(auto)) as Hc. rewrite Z.mul_1_r in Hc. rewrite Hc. apply elem_of_app. right. by left.
    + right. eapply Htake; [by apply list_lookup_insert_eq|by right].
Qed.

(** So does one whose epoch is out of date. *)
Lemma alert_leaves signals c t pc :
  inv signals c → 1 <= signals → threads c !! t = Some pc → alert (epoch (shared c)) pc = true → leaves c t.
Proof.
  intros Hi Hsig Ht Ha. destruct c as [s ts]. pose proof Hi as [Hst Hs _ _ Hlo _ _ Hth Hep]. cbn [shared threads] in *.
  pose proof (count_bounds waits ts). assert (Hlen : (t < length ts)%nat) by (by eapply lookup_lt_Some).
  assert (Hword : epoch_word s = epoch s) by (unfold epoch_word, wrap32; by apply Z.mod_small).
  assert (Hrel : ∀ o ts tm, ts !! t = Some (Reload tm) → leaves (mkConf (set_owner o s) ts) t).
  { intros o ts' tm Hx. eapply (looker_leaves (set_owner o s) ts' t _ _ signals); [exact Hst|lia|lia|exact Hx|done|done]. }
  assert (Hslp : ∀ o ts tm e st, e ≠ epoch s → (t < length ts)%nat → ts !! t = Some (Sleep tm e st) → leaves (mkConf (set_owner o s) ts) t).
  { intros o ts' tm e st Hne Hl Hx. apply (leaves_step _ (set_owner o s) ts' t (Sleep tm e st) (Reload tm)); [done|done| |].
    - cbn [next]. change (epoch_word (set_owner o s)) with (epoch_word s). rewrite Hword, (proj2 (Z.eqb_neq _ _)) by done. by left.
    - right. eapply Hrel. by apply list_lookup_insert_eq. }
  assert (Hown : set_owner (owner s) s = s) by (by destruct s).
  destruct pc; try discriminate Ha; try (eapply (looker_leaves s ts t _ _ signals Hst); [lia|lia|done|by eapply Hlo|done]).
  - rewrite alert_at in Ha. cbn in Ha. apply negb_true_iff, Z.eqb_neq in Ha.
    apply (leaves_step s (set_owner None s) ts t (Unlock timed e st) (Sleep timed e st)); [done|done|by left|].
    right. eapply Hslp; [done|by rewrite length_insert|by apply list_lookup_insert_eq].
  - rewrite alert_at in Ha. cbn in Ha. apply negb_true_iff, Z.eqb_neq in Ha. rewrite <- Hown. by eapply Hslp.
Qed.


(** C14. No signal is lost: with fewer than 2{^16} threads and until the epoch has
    been changed 2{^32} times, under every interleaving of [wait], with and
    without timeouts, [signal] and [broadcast], with spurious wake-ups: no count
    under- or overflows and no assertion fails, the mutex has at most one holder,
    the word counts exactly the waiters and no more signals than waiters, and
    whenever a signal is posted and no [wake] is under way, some waiter returns
    from [wait] by steps of the waiters that are awake alone. *)
Theorem condition_signals_arrive n c :
  reach program (start n) c → Z.of_nat n <= WAITER_MASK → epoch (shared c) < 2 ^ 32 →
  (∀ t, threads c !! t ≠ Some Panicked)
  ∧ (∀ t t' pc pc', threads c !! t = Some pc → holds pc = true → threads c !! t' = Some pc' → holds pc' = true → t = t')
  ∧ waiters_of (state (shared c)) = count waits (threads c)
  ∧ signals_of (state (shared c)) <= waiters_of (state (shared c))
  ∧ (total pending (threads c) = 0 → 1 <= signals_of (state (shared c)) →
     ∃ t pc c', threads c !! t = Some pc ∧ waits pc = true ∧ rtc (step_at program in_wait) c c' ∧ threads c' !! t = Some Lock).
Proof.
  intros Hr Hn He. destruct (cond_inv_reach n c Hr Hn He) as [signals Hi]. pose proof Hi as [Hst Hsig _ Hal _ Hpk Ho Hth _].
  pose proof (count_bounds waits (threads c)). rewrite Hst. destruct (parts (count waits (threads c)) signals) as [-> ->]; [lia..|]. split_and!; try lia.
  - intros t Ht. by pose proof (count_zero panicked _ t _ Hpk Ht).
  - intros t t' pc pc' Ht Hp Ht' Hp'. pose proof (Ho t pc Ht Hp). pose proof (Ho t' pc' Ht' Hp'). congruence.
  - intros Hp Hs. rewrite Hp in Hal. destruct (count_pos (alert (epoch (shared c))) (threads c)) as (t & pc & Ht & Ha); [lia|].
    destruct (alert_leaves signals c t pc Hi Hs Ht Ha) as (c' & Hc & Hx). exists t, pc, c'. split_and!; try done.
    rewrite alert_at in Ha. by destruct (waits pc).
Qed.

(** A waiter asleep, and a signal of a thread that does not hold the mutex. *)
Definition signalled : list Move :=
  replicate 7 (Go 0 0 []) ++ [Go 1 1 []; Go 1 0 []; Go 1 0 []; Go 1 0 []; Go 1 0 [0%nat]].

Lemma condition_signals_arrive_witness :
  ∃ c, threads c = [Reload false; Idle] ∧ signals_of (state (shared c)) = 1
    ∧ ∃ t pc c', threads c !! t = Some pc ∧ waits pc = true ∧ rtc (step_at program in_wait) c c' ∧ threads c' !! t = Some Lock.
Proof.
  destruct (run program signalled (start 2)) as [c|] eqn:E; [|by vm_compute in E].
  pose proof E as E'. vm_compute in E'. injection E' as <-. exists (mkConf (mkSh 65537 1 None) [Reload false; Idle]). split; [reflexivity|]. split; [reflexivity|].
  eapply (condition_signals_arrive 2 _ (run_reach _ _ _ _ E)); [unfold WAITER_MASK; lia|cbn; lia|reflexivity|vm_compute; discriminate].
Defined.
End Condition.

Example condition_signal :
  ∃ c, run Condition.program
    ([Go 0 0 []; Go 0 0 []; Go 0 0 []; Go 0 0 []; Go 0 0 []; Go 0 0 []; Go 0 0 []] ++
     [Go 1 1 []; Go 1 0 []; Go 1 0 []; Go 1 0 []; Go 1 0 [0%nat]; Go 0 0 []; Go 0 0 []; Go 0 0 []; Go 0 0 []]) (Condition.start 2) = Some c
    ∧ threads c = [Condition.Locked; Condition.Idle].
Proof. eexists. split; [vm_compute; reflexivity|reflexivity]. Qed.
