(* ===== verification/ThreadRwLock.v ===== *)
(** * [src/threading/RwLock.rs]: one writer or many readers

    [RawRwLock] over a mutex that is its owner and a semaphore that is its
    permits. The word packs a flag, the pending writers and the active readers. *)

From S2P Require Import Prelude ThreadModel.

#[local] Open Scope Z_scope.

Module RwLock.
Definition COUNT_BITS : Z := (64 - 1) / 2.
Definition COUNT_MAX : Z := Z.shiftl 1 COUNT_BITS - 1.
Definition IS_WRITING : Z := 1.
Definition WRITER : Z := Z.shiftl 1 1.
Definition READER : Z := Z.shiftl 1 (1 + COUNT_BITS).
Definition WRITER_MASK : Z := Z.shiftl COUNT_MAX 1.
Definition READER_MASK : Z := Z.shiftl COUNT_MAX (1 + COUNT_BITS).

(** [RawRwLock]: the word, the mutex's owner, the semaphore's permits. *)
Record RawRwLock := mkRaw { state : Z; owner : option nat; permits : Z }.
Definition new : RawRwLock := mkRaw 0 None 0.

Definition set_state (x : Z) (s : RawRwLock) : RawRwLock := mkRaw (wrap64 x) (owner s) (permits s).
Definition set_owner (o : option nat) (s : RawRwLock) : RawRwLock := mkRaw (state s) o (permits s).
Definition set_permits (p : Z) (s : RawRwLock) : RawRwLock := mkRaw (state s) (owner s) p.

Inductive Pc :=
| Idle
| WriteAdd (* [lock]: [fetch_add(WRITER)] *)
| WriteMutex (* [mutex.lock()] *)
| WriteMark (* [fetch_add(IS_WRITING - WRITER)] *)
| WriteSem (* [semaphore.wait()] *)
| Writing
| WriteUnlock (* [unlock]: the mutex, after the flag *)
| ReadLoad (* [lock_shared]: the load *)
| ReadCas (st : Z)
| ReadMutex | ReadAdd | ReadUnlock (* its slow path *)
| Reading
| ReadPost (* [unlock_shared]: [semaphore.post()] *)
| Panicked.

(** The condition of the loop of [lock_shared]. *)
Definition try_read (st : Z) : Pc := if Z.land st (Z.lor IS_WRITING WRITER_MASK) =? 0 then ReadCas st else ReadMutex.

Definition lock_mutex (t : nat) (s : RawRwLock) (pc : Pc) : list (RawRwLock * Pc * Z) :=
  match owner s with None => [(set_owner (Some t) s, pc, 0)] | Some _ => [] end.

Definition next (t : nat) (s : RawRwLock) (pc : Pc) : list (RawRwLock * Pc * Z) :=
  match pc with
  | Idle => [(s, WriteAdd, 0); (s, ReadLoad, 0)]
  | WriteAdd => [(set_state (state s + WRITER) s, WriteMutex, 0)]
  | WriteMutex => lock_mutex t s WriteMark
  | WriteMark =>
      [(set_state (state s + wrap64 (IS_WRITING - WRITER)) s,
        if negb (Z.land (state s) READER_MASK =? 0) then WriteSem else Writing, 0)]
  | WriteSem => if 0 <? permits s then [(set_permits (permits s - 1) s, Writing, 0)] else []
  | Writing => [(set_state (Z.land (state s) (Z.lxor (2 ^ 64 - 1) IS_WRITING)) s, WriteUnlock, 0)]
  | WriteUnlock => [(set_owner None s, Idle, 0)]
  | ReadLoad => [(s, try_read (state s), 0)]
  | ReadCas st =>
      if st + READER <? 2 ^ 64 then
        (if state s =? st then [(set_state (st + READER) s, Reading, 0)] else []) ++ [(s, try_read (state s), 0)]
      else [(s, Panicked, 0)]
  | ReadMutex => lock_mutex t s ReadAdd
  | ReadAdd => [(set_state (state s + READER) s, ReadUnlock, 0)]
  | ReadUnlock => [(set_owner None s, Reading, 0)]
  | Reading =>
      [(set_state (state s - READER) s,
        if (Z.land (state s) READER_MASK =? READER) && negb (Z.land (state s) IS_WRITING =? 0) then ReadPost else Idle, 0)]
  | ReadPost => [(set_permits (permits s + 1) s, Idle, 0)]
  | Panicked => []
  end.

(** Blocking is in the mutex and the semaphore. *)
Definition program : Program RawRwLock Pc := mkProgram _ _ next (λ _, false) (λ pc, pc).

Definition start (n : nat) : Conf RawRwLock Pc := mkConf new (replicate n Idle).

(** ** The invariant *)

Definition pending_writer (pc : Pc) : bool := match pc with WriteMutex | WriteMark => true | _ => false end.
Definition marked (pc : Pc) : bool := match pc with WriteSem | Writing => true | _ => false end.
Definition reader (pc : Pc) : bool := match pc with ReadUnlock | Reading => true | _ => false end.
Definition holds (pc : Pc) : bool :=
  match pc with WriteMark | WriteSem | Writing | WriteUnlock | ReadAdd | ReadUnlock => true | _ => false end.
Definition light (pc : Pc) : bool := holds pc && negb (marked pc).
Definition posting (pc : Pc) : bool := match pc with ReadPost => true | _ => false end.
Definition awaiting (pc : Pc) : bool := match pc with WriteSem => true | _ => false end.
Definition writing (pc : Pc) : bool := match pc with Writing => true | _ => false end.
Definition panicked (pc : Pc) : bool := match pc with Panicked => true | _ => false end.

(** The words a reader has loaded leave room for one more reader, and show no writer. *)
Definition local_ok (pc : Pc) : Prop :=
  match pc with ReadCas st => 0 <= st < 2 ^ 63 ∧ Z.land st (Z.lor IS_WRITING WRITER_MASK) = 0 | _ => True end.

Record inv (c : Conf RawRwLock Pc) : Prop := {
  inv_state : state (shared c) =
    count marked (threads c) + 2 * count pending_writer (threads c) + 2 ^ 32 * count reader (threads c);
  inv_owned : owned owner holds (shared c) (threads c);
  inv_writing : 0 < count writing (threads c) → count reader (threads c) = 0;
  inv_permits : 0 <= permits (shared c);
  inv_awaiting : permits (shared c) + count posting (threads c)
    = if bool_decide (0 < count awaiting (threads c) ∧ count reader (threads c) = 0) then 1 else 0;
  inv_local : ∀ t pc, threads c !! t = Some pc → local_ok pc;
  inv_panicked : count panicked (threads c) = 0;
  inv_threads : Z.of_nat (length (threads c)) < 2 ^ 31;
}.

Lemma rw_land_parts m w r : 0 <= m <= 1 → 0 <= w < 2 ^ 31 → 0 <= r < 2 ^ 31 →
  let st := m + 2 * w + 2 ^ 32 * r in
  Z.land st IS_WRITING = m ∧ Z.land st (Z.lor IS_WRITING WRITER_MASK) = m + 2 * w ∧ Z.land st READER_MASK = 2 ^ 32 * r
  ∧ Z.land st (Z.lxor (2 ^ 64 - 1) IS_WRITING) = st - m.
Proof.
  intros Hm Hw Hr st. change IS_WRITING with (Z.ones 1). change (Z.lor (Z.ones 1) WRITER_MASK) with (Z.ones 32).
  change READER_MASK with (Z.shiftl (Z.ones 31) 32). change (Z.lxor (2 ^ 64 - 1) (Z.ones 1)) with (Z.shiftl (Z.ones 63) 1).
  rewrite !land_shiftl by lia. rewrite !Z.land_ones by lia. rewrite !Z.shiftl_mul_pow2, !Z.shiftr_div_pow2 by lia. unfold st.
  split_and!; Z.to_euclidean_division_equations; lia.
Qed.

Lemma rw_kinds ts :
  0 <= count awaiting ts ∧ 0 <= count writing ts ∧ count marked ts = count awaiting ts + count writing ts
  ∧ 0 <= count reader ts ∧ 0 <= count pending_writer ts ∧ 0 <= count posting ts
  ∧ count marked ts + count light ts = count holds ts ∧ 0 <= count light ts ∧ count pending_writer ts <= Z.of_nat (length ts) ∧ count reader ts <= Z.of_nat (length ts).
Proof.
  pose proof (count_bounds awaiting ts). pose proof (count_bounds writing ts). pose proof (count_bounds reader ts).
  pose proof (count_bounds pending_writer ts). pose proof (count_bounds posting ts).
  assert (count marked ts = count awaiting ts + count writing ts).
  { clear. induction ts as [|pc ts IH]; [done|]. rewrite !count_cons, IH. destruct pc; cbn; lia. }
  assert (count marked ts + count light ts = count holds ts).
  { clear. induction ts as [|pc ts IH]; [done|]. rewrite !count_cons, <- IH. destruct pc; cbn; lia. }
  pose proof (count_bounds light ts). lia.
Qed.

Lemma rw_next_owner t s pc s' pc' n : (s', pc', n) ∈ next t s pc → owner_step owner holds t s s' pc pc' ∧ n = 0.
Proof.
  intros Hn. unfold owner_step. destruct pc; cbn [next] in Hn; unfold lock_mutex, try_read in Hn; repeat case_match;
    try (apply elem_of_app in Hn as [Hn|Hn]); choices Hn; cbn; repeat case_match; naive_solver.
Qed.

(** The counts, the permits and the words loaded, after a step. *)
Lemma rw_move_counts s s' ts t pc pc' :
  inv (mkConf s ts) → ts !! t = Some pc → (s', pc', 0) ∈ next t s pc →
  let ts' := <[t := pc']> ts in
  state s' = count marked ts' + 2 * count pending_writer ts' + 2 ^ 32 * count reader ts'
  ∧ (0 < count writing ts' → count reader ts' = 0)
  ∧ 0 <= permits s'
  ∧ permits s' + count posting ts' = (if bool_decide (0 < count awaiting ts' ∧ count reader ts' = 0) then 1 else 0)
  ∧ local_ok pc' ∧ panicked pc' = false.
Proof.
  intros [Hst Ho Hw Hp Ha Hl _ Hth] Ht Hn ts'. cbn [shared threads] in *. unfold ts'. rewrite !(count_insert _ _ _ _ _ Ht).
  pose proof (rw_kinds ts) as K. pose proof (owned_count _ _ _ _ Ho) as Hone. pose proof (Hl t pc Ht) as Hloc.
  assert (Hh : holds pc = true → 1 <= count holds ts) by (intros; by apply (count_lookup holds ts t pc)).
  assert (Hfree : owner s = None → count holds ts = 0) by (by apply owned_free).
  assert (Hlight : light pc = true → 1 <= count light ts) by (intros; by apply (count_lookup light ts t pc)).
  assert (Hread : reader pc = true → 1 <= count reader ts) by (intros; by apply (count_lookup reader ts t pc)).
  assert (Hpend : pending_writer pc = true → 1 <= count pending_writer ts) by (intros; by apply (count_lookup pending_writer ts t pc)).
  assert (Hmark : marked pc = true → 1 <= count marked ts) by (intros; by apply (count_lookup marked ts t pc)).
  assert (Hwr : writing pc = true → 1 <= count writing ts) by (intros; by apply (count_lookup writing ts t pc)).
  assert (Haw : awaiting pc = true → 1 <= count awaiting ts) by (intros; by apply (count_lookup awaiting ts t pc)).
  assert (Hpo : posting pc = true → 1 <= count posting ts) by (intros; by apply (count_lookup posting ts t pc)).
  destruct (rw_land_parts (count marked ts) (count pending_writer ts) (count reader ts)) as (L1 & L2 & L3 & L4); [lia..|].
  rewrite <- Hst in L1, L2, L3, L4. clear Hl Ho Ht ts'.
  remember (count marked ts) as M. remember (count pending_writer ts) as W. remember (count reader ts) as R.
  remember (count awaiting ts) as A. remember (count writing ts) as X. remember (count posting ts) as P.
  remember (count holds ts) as H. remember (count light ts) as L. remember (Z.of_nat (length ts)) as N.
  assert (Htry : local_ok (try_read (state s)) ∧ panicked (try_read (state s)) = false ∧ ∀ f, f = marked ∨ f = pending_writer ∨ f = reader ∨ f = writing ∨ f = posting ∨ f = awaiting → b2z (f (try_read (state s))) = 0).
  { unfold try_read. destruct (Z.eqb_spec (Z.land (state s) (Z.lor IS_WRITING WRITER_MASK)) 0); cbn; split_and!; try lia; try done; intros f Hf; naive_solver. }
  destruct Htry as (T1 & T2 & T3).
  destruct pc; cbn [next marked pending_writer reader awaiting writing posting holds light andb negb local_ok] in *; unfold lock_mutex in *.
  - choices Hn; cbn; split_and!; try done; repeat case_bool_decide; lia.
  - (* WriteAdd *)
    choices Hn. cbn [set_state state permits owner b2z marked pending_writer reader awaiting writing posting]. change WRITER with 2. unfold wrap64. rewrite Z.mod_small by lia.
    split_and!; try done; repeat case_bool_decide; lia.
  - (* WriteMutex *)
    destruct (owner s); choices Hn. cbn. split_and!; try done; repeat case_bool_decide; lia.
  - (* WriteMark *)
    rewrite L3 in Hn. choices Hn. cbn [set_state state permits owner]. change (wrap64 (IS_WRITING - WRITER)) with (-1 + 1 * 2 ^ 64).
    unfold wrap64. rewrite Z.add_assoc, Z.mod_add, Z.mod_small by lia.
    destruct (Z.eqb_spec (2 ^ 32 * R) 0) as [E|E]; cbn; split_and!; try done; repeat case_bool_decide; lia.
  - (* WriteSem *)
    destruct (Z.ltb_spec 0 (permits s)); choices Hn. cbn. split_and!; try done; repeat case_bool_decide; lia.
  - (* Writing *)
    rewrite L4 in Hn. choices Hn. cbn [set_state state permits owner b2z marked pending_writer reader awaiting writing posting]. unfold wrap64. rewrite Z.mod_small by lia.
    cbn. split_and!; try done; repeat case_bool_decide; lia.
  - (* WriteUnlock *)
    choices Hn. cbn. split_and!; try done; repeat case_bool_decide; lia.
  - (* ReadLoad *)
    choices Hn. rewrite !T3 by auto 10. cbn [b2z]. split_and!; try done; repeat case_bool_decide; lia.
  - (* ReadCas *)
    change READER with (2 ^ 32) in Hn. rewrite (proj2 (Z.ltb_lt _ _)) in Hn by lia. apply elem_of_app in Hn as [Hn|Hn].
    + destruct (Z.eqb_spec (state s) st) as [E|E]; [|by apply elem_of_nil in Hn]. choices Hn.
      assert (M = 0 ∧ W = 0) as [-> ->] by (destruct Hloc as [_ Hz]; rewrite <- E, L2 in Hz; lia).
      cbn [set_state state permits owner b2z marked pending_writer reader awaiting writing posting]. unfold wrap64. rewrite Z.mod_small by lia.
      split_and!; try done; repeat case_bool_decide; lia.
    + choices Hn. rewrite !T3 by auto 10. cbn [b2z]. split_and!; try done; repeat case_bool_decide; lia.
  - (* ReadMutex *)
    destruct (owner s); choices Hn. cbn. split_and!; try done; repeat case_bool_decide; lia.
  - (* ReadAdd *)
    choices Hn. cbn [set_state state permits owner b2z marked pending_writer reader awaiting writing posting]. change READER with (2 ^ 32).
    unfold wrap64. rewrite Z.mod_small by lia. split_and!; try done; repeat case_bool_decide; lia.
  - (* ReadUnlock *)
    choices Hn. cbn. split_and!; try done; repeat case_bool_decide; lia.
  - (* Reading *)
    rewrite L1, L3 in Hn. change READER with (2 ^ 32) in Hn. choices Hn.
    cbn [set_state state permits owner]. unfold wrap64. rewrite Z.mod_small by lia.
    destruct (Z.eqb_spec (2 ^ 32 * R) (2 ^ 32)), (Z.eqb_spec M 0); cbn; split_and!; try done; repeat case_bool_decide; lia.
  - (* ReadPost *)
    choices Hn. cbn. split_and!; try done; repeat case_bool_decide; lia.
  - (* Panicked *)
    by apply elem_of_nil in Hn.
Qed.

Lemma rw_inv_start n : Z.of_nat n < 2 ^ 31 → inv (start n).
Proof.
  intros Hn. assert (H : ∀ t pc, replicate n Idle !! t = Some pc → pc = Idle) by (intros t pc; rewrite lookup_replicate; naive_solver).
  split; cbn [start shared threads new state owner permits]; unfold count; rewrite ?total_replicate; cbn [b2z marked pending_writer reader writing awaiting posting panicked];
    try (repeat case_bool_decide; lia).
  - by intros t pc ->%H.
  - by intros t pc ->%H.
  - by rewrite length_replicate.
Qed.

Lemma rw_inv_step c c' : inv c → step program c c' → inv c'.
Proof.
  intros Hi Hs. destruct Hs as [s s' ts ts' t pc pc' n Ht Hn Hw|]; [|done].
  destruct (rw_next_owner _ _ _ _ _ _ Hn) as [Hown ->]. apply wakes_zero in Hw as ->.
  destruct (rw_move_counts s s' ts t pc pc' Hi Ht Hn) as (C1 & C2 & C3 & C4 & Hl & Hp).
  pose proof (owned_step _ _ _ _ _ _ _ _ (inv_owned _ Hi) Ht Hown) as Ho. destruct Hi as [_ _ _ _ _ Hlo Hpk Hth].
  split; cbn [shared threads] in *; try done.
  - intros t' x Hx. apply (lookup_insert_Some _ _ _ pc) in Hx as [[-> ->]|[_ Hx]]; [done|by apply (Hlo t')|done].
  - rewrite (count_insert _ _ _ _ _ Ht), Hpk, Hp. destruct (panicked pc) eqn:E; [|done]. by rewrite (count_zero panicked ts t pc Hpk Ht) in E.
  - by rewrite length_insert.
Qed.

Lemma rw_writer_field m w r : 0 <= m <= 1 → 0 <= w < 2 ^ 31 → 0 <= r < 2 ^ 31 →
  Z.land (m + 2 * w + 2 ^ 32 * r) WRITER_MASK = 2 * w.
Proof.
  intros Hm Hw Hr. change WRITER_MASK with (Z.shiftl (Z.ones 31) 1). rewrite land_shiftl, Z.land_ones by lia.
  rewrite Z.shiftl_mul_pow2, Z.shiftr_div_pow2 by lia. Z.to_euclidean_division_equations; lia.
Qed.

(** The three fields of the word, as the masks of the source read them: the flag of
    the writer that has the lock, the writers still on their way, and the readers. *)
Record fields (st : Z) (ts : list Pc) : Prop := {
  field_writing : Z.land st IS_WRITING = count marked ts;
  field_writers : Z.land st WRITER_MASK = WRITER * count pending_writer ts;
  field_readers : Z.land st READER_MASK = READER * count reader ts;
  field_counts : count marked ts <= 1 ∧ count pending_writer ts <= COUNT_MAX ∧ count reader ts <= COUNT_MAX;
  field_all : st = Z.lor (Z.land st IS_WRITING) (Z.lor (Z.land st WRITER_MASK) (Z.land st READER_MASK));
}.

Lemma rw_fields c : inv c → fields (state (shared c)) (threads c).
Proof.
  intros Hi. pose proof Hi as [Hst Ho _ _ _ _ _ Hth]. pose proof (rw_kinds (threads c)) as K.
  pose proof (owned_count _ _ _ _ Ho) as Hone.
  assert (Hm : 0 <= count marked (threads c) <= 1) by (destruct (owner (shared c)); lia).
  destruct (rw_land_parts (count marked (threads c)) (count pending_writer (threads c)) (count reader (threads c)))
    as (L1 & _ & L3 & _); [lia..|].
  pose proof (rw_writer_field (count marked (threads c)) (count pending_writer (threads c)) (count reader (threads c))
    Hm ltac:(lia) ltac:(lia)) as L2.
  rewrite <- Hst in L1, L2, L3. change WRITER with 2 in *. change READER with (2 ^ 32).
  split; [done|done|done|change COUNT_MAX with (2 ^ 31 - 1); lia|].
  rewrite <- !Z.land_lor_distr_r. change (Z.lor IS_WRITING (Z.lor WRITER_MASK READER_MASK)) with (Z.ones 63).
  rewrite Z.land_ones by lia. rewrite Z.mod_small; lia.
Qed.

(** C38. The readers-writer lock: with fewer than 2{^31} threads, under every
    interleaving, the fields of the word never run into each other: read through
    the masks of the source, the flag is the number of threads that have marked
    themselves as the writer, at most one, the writer field counts the writers
    still to get the mutex and the reader field the readers, both counts fit their
    31 bits, and the word holds nothing else. Nothing panics; while a thread
    writes, no other thread writes or reads; and a writer that waits on the
    semaphore waits for readers, or a permit is there for it or about to be
    posted: exactly one, so that no permit is left over for a later writer. *)
Theorem rwlock_excludes n c :
  reach program (start n) c → Z.of_nat n < 2 ^ 31 →
  fields (state (shared c)) (threads c)
  ∧ (∀ t, threads c !! t ≠ Some Panicked)
  ∧ (∀ t t' pc, threads c !! t = Some Writing → threads c !! t' = Some pc → pc = Writing ∨ pc = Reading → t' = t)
  ∧ (∀ t, threads c !! t = Some WriteSem →
       (∃ t', threads c !! t' = Some Reading) ∨ permits (shared c) + count posting (threads c) = 1)
  ∧ ((∀ t, threads c !! t ≠ Some WriteSem) → permits (shared c) = 0).
Proof.
  intros Hr Hn. assert (Hi : inv c).
  { refine (reach_invariant program inv (start n) c _ _ Hr); [by apply rw_inv_start|apply rw_inv_step]. }
  split; [by apply rw_fields|].
  pose proof Hi as [Hst Ho Hw Hp Ha _ Hpk _]. pose proof (rw_kinds (threads c)) as K. split_and!.
  - intros t Ht. by pose proof (count_zero panicked _ t _ Hpk Ht).
  - intros t t' pc Ht Ht' [->| ->].
    + by eapply (owned_unique owner holds); [exact Ho|exact Ht'|done|exact Ht|done].
    + pose proof (count_lookup writing _ t _ Ht eq_refl). pose proof (count_lookup reader _ t' _ Ht' eq_refl). lia.
  - intros t Ht. pose proof (count_lookup awaiting _ t _ Ht eq_refl) as Hc. destruct (decide (count reader (threads c) = 0)) as [E|E].
    + right. rewrite Ha. by rewrite bool_decide_eq_true_2 by lia.
    + left. destruct (count_pos reader (threads c)) as (t' & pc & Ht' & Hpc); [lia|]. exists t'. destruct pc; try done.
      assert (t' = t) as -> by (by eapply (owned_unique owner holds); [exact Ho|exact Ht'|done|exact Ht|done]). congruence.
  - intros Hno. rewrite bool_decide_eq_false_2 in Ha; [lia|]. intros [Hc _]. apply count_pos in Hc as (t & pc & Ht & Hpc).
    destruct pc; try done. by apply (Hno t).
Qed.

(** A reader is in, and a writer waits for it: the word has the flag and one reader. *)
Lemma rwlock_excludes_witness :
  ∃ c, reach program (start 2) c ∧ threads c = [Reading; WriteSem] ∧ Z.land (state (shared c)) READER_MASK = READER
    ∧ ((∃ t', threads c !! t' = Some Reading) ∨ permits (shared c) + count posting (threads c) = 1).
Proof.
  destruct (run program (Go 0 1 [] :: Go 0 0 [] :: Go 0 0 [] :: replicate 4 (Go 1 0 [])) (start 2)) as [c|] eqn:E; [|by vm_compute in E].
  pose proof E as E'. vm_compute in E'. injection E' as <-. exists (mkConf (mkRaw 4294967297 (Some 1%nat) 0) [Reading; WriteSem]).
  pose proof (run_reach _ _ _ _ E) as Hr. destruct (rwlock_excludes 2 _ Hr) as (F & _ & _ & H & _); [cbn; lia|].
  split; [exact Hr|]. split; [reflexivity|]. split; [exact (field_readers _ _ F)|exact (H 1%nat eq_refl)].
Defined.
End RwLock.
