(* ===== verification/ThreadWaitGroup.v ===== *)
(** * [src/threading/WaitGroup.rs]: waiting for tasks, and freeing the group

    [WaitGroup] over a mutex that is its owner and a condition variable that is
    its waiters and signals, which is what [ThreadCondition] proves of its word.
    One thread waits and frees the group as soon as [wait] returns; the others
    run tasks, each with a number of finishes it owes. An access to the group
    after it is freed leads to a place of its own. *)

From S2P Require Import Prelude ThreadModel.

#[local] Open Scope Z_scope.

Module WaitGroup.
Record WaitGroup := mkGroup { raw_count : Z; owner : option nat; waiters : Z; signals : Z; freed : bool }.

Definition init_with_count (count : Z) : WaitGroup := mkGroup count None 0 0 false.

Definition set_count (x : Z) (s : WaitGroup) : WaitGroup := mkGroup x (owner s) (waiters s) (signals s) (freed s).
Definition set_owner (o : option nat) (s : WaitGroup) : WaitGroup := mkGroup (raw_count s) o (waiters s) (signals s) (freed s).
Definition set_cond (w g : Z) (s : WaitGroup) : WaitGroup := mkGroup (raw_count s) (owner s) w g (freed s).
Definition free (s : WaitGroup) : WaitGroup := mkGroup (raw_count s) (owner s) (waiters s) (signals s) true.

(** A task owes [k] more finishes after this one. *)
Inductive Pc :=
| Task (k : nat)
| FinishLoad (k : nat) (* [finish_raw]: the load of the count *)
| FinishCas (k : nat) (old : Z)
| FinishLock (k : nat)
| FinishSub (k : nat) (* [fetch_sub(1)] under the mutex *)
| FinishSignal (k : nat)
| FinishUnlock (k : nat)
| Done
| WaitLock (* [wait]: [mutex.lock()] *)
| WaitLoad (* the condition of its loop *)
| CondEnter (* [cond.wait]: counted as a waiter *)
| CondRelease (* [cond.wait]: the mutex is released *)
| Blocked
| WaitUnlock
| Returned
| Freed
| UseAfterFree
| Panicked.

Definition after (k : nat) : Pc := match k with O => Done | S k => Task k end.

Definition lock_mutex (t : nat) (s : WaitGroup) (pc : Pc) : list (WaitGroup * Pc * Z) :=
  match owner s with None => [(set_owner (Some t) s, pc, 0)] | Some _ => [] end.

(** [while old > 1] *)
Definition retry (k : nat) (old : Z) : Pc := if 1 <? old then FinishCas k old else FinishLock k.

(** [add]: the sum wraps. *)
Definition add (n : Z) (s : WaitGroup) : WaitGroup := set_count (wrap64 (raw_count s + n)) s.

(** Whether the next step accesses the group. *)
Definition accesses (pc : Pc) : bool :=
  match pc with Done | Returned | Freed | UseAfterFree | Panicked => false | _ => true end.

(** [cond.signal()]: one more waiter may leave, if there is one that may not. *)
Definition signal (s : WaitGroup) : WaitGroup :=
  set_cond (waiters s) (if signals s <? waiters s then signals s + 1 else signals s) s.

Definition next (t : nat) (s : WaitGroup) (pc : Pc) : list (WaitGroup * Pc * Z) :=
  if accesses pc && freed s then [(s, UseAfterFree, 0)]
  else
    match pc with
    | Task k =>
        (s, FinishLoad k, 0)
        (* [add_one], by the users of the group while the count has room *)
        :: if raw_count s + 1 <? 2 ^ 64 then [(add 1 s, Task (S k), 0)] else []
    | FinishLoad k => [(s, retry k (raw_count s), 0)]
    | FinishCas k old =>
        (if raw_count s =? old then [(set_count (old - 1) s, after k, 0)] else []) ++ [(s, retry k (raw_count s), 0)]
    | FinishLock k => lock_mutex t s (FinishSub k)
    | FinishSub k => [(set_count (wrap64 (raw_count s - 1)) s, if 1 <=? raw_count s then FinishSignal k else Panicked, 0)]
    | FinishSignal k => [(signal s, FinishUnlock k, 0)]
    | FinishUnlock k => [(set_owner None s, after k, 0)]
    | Done => []
    | WaitLock => lock_mutex t s WaitLoad
    | WaitLoad => [(s, if 0 <? raw_count s then CondEnter else WaitUnlock, 0)]
    | CondEnter => [(set_cond (waiters s + 1) (signals s) s, CondRelease, 0)]
    | CondRelease => [(set_owner None s, Blocked, 0)]
    | Blocked => if 0 <? signals s then [(set_cond (waiters s - 1) (signals s - 1) s, WaitLock, 0)] else []
    | WaitUnlock => [(set_owner None s, Returned, 0)]
    | Returned => [(free s, Freed, 0)]
    | Freed | UseAfterFree | Panicked => []
    end.

Definition program : Program WaitGroup Pc := mkProgram _ _ next (λ _, false) (λ pc, pc).

(** The owner, and [n] tasks that are counted. *)
Definition start (n : nat) : Conf WaitGroup Pc := mkConf (init_with_count (Z.of_nat n)) (WaitLock :: replicate n (Task 0)).

(** ** The invariant *)

Definition owes (pc : Pc) : Z :=
  match pc with
  | Task k | FinishLoad k | FinishCas k _ | FinishLock k | FinishSub k => Z.of_nat k + 1
  | FinishSignal k | FinishUnlock k => Z.of_nat k
  | _ => 0
  end.
Definition holds (pc : Pc) : bool :=
  match pc with FinishSub _ | FinishSignal _ | FinishUnlock _ | WaitLoad | CondEnter | CondRelease | WaitUnlock => true | _ => false end.
Definition waiter (pc : Pc) : bool :=
  match pc with WaitLock | WaitLoad | CondEnter | CondRelease | Blocked | WaitUnlock | Returned | Freed => true | _ => false end.
Definition in_cond (pc : Pc) : bool := match pc with CondRelease | Blocked => true | _ => false end.
Definition blocked (pc : Pc) : bool := match pc with Blocked => true | _ => false end.
Definition entering (pc : Pc) : bool := match pc with CondEnter | CondRelease => true | _ => false end.
Definition leaving (pc : Pc) : bool := match pc with WaitUnlock | Returned | Freed => true | _ => false end.
Definition is_freed (pc : Pc) : bool := match pc with Freed => true | _ => false end.
Definition finishing (pc : Pc) : bool := match pc with FinishSignal _ | FinishUnlock _ => true | _ => false end.
Definition signalling (pc : Pc) : bool := match pc with FinishSignal _ => true | _ => false end.
Definition bad (pc : Pc) : bool := match pc with UseAfterFree | Panicked => true | _ => false end.

Record inv (c : Conf WaitGroup Pc) : Prop := {
  inv_count : raw_count (shared c) = total owes (threads c);
  inv_range : raw_count (shared c) < 2 ^ 64;
  inv_owned : owned owner holds (shared c) (threads c);
  inv_waiter : count waiter (threads c) = 1;
  inv_cond : waiters (shared c) = count in_cond (threads c);
  inv_signals : 0 <= signals (shared c) <= waiters (shared c);
  inv_entering : 0 < count entering (threads c) → 1 <= raw_count (shared c);
  inv_leaving : 0 < count leaving (threads c) → raw_count (shared c) = 0 ∧ count finishing (threads c) = 0;
  inv_blocked : 0 < count blocked (threads c) → raw_count (shared c) = 0 →
    1 <= signals (shared c) ∨ 0 < count signalling (threads c);
  inv_freed : b2z (freed (shared c)) <= count is_freed (threads c);
  inv_local : ∀ t k old, threads c !! t = Some (FinishCas k old) → 1 < old;
  inv_bad : count bad (threads c) = 0;
}.

Definition plain (pc : Pc) : bool := match pc with FinishSub _ | WaitLoad | WaitUnlock => true | _ => false end.
Definition early (pc : Pc) : bool := match pc with WaitLock | WaitLoad => true | _ => false end.
Definition releasing (pc : Pc) : bool := match pc with CondRelease => true | _ => false end.

Definition unlocking (pc : Pc) : bool := match pc with WaitUnlock => true | _ => false end.
Definition returned (pc : Pc) : bool := match pc with Returned => true | _ => false end.

Lemma wg_kinds ts :
  count holds ts = count finishing ts + count entering ts + count plain ts
  ∧ count waiter ts = count early ts + count entering ts + count blocked ts + count leaving ts
  ∧ count in_cond ts = count releasing ts + count blocked ts
  ∧ count leaving ts = count unlocking ts + count returned ts + count is_freed ts
  ∧ 0 <= count unlocking ts ∧ 0 <= count returned ts ∧ 0 <= count is_freed ts
  ∧ 0 <= count releasing ts <= count entering ts
  ∧ 0 <= count signalling ts <= count finishing ts ∧ 0 <= count plain ts ∧ 0 <= count early ts ∧ 0 <= count blocked ts.
Proof.
  split_and!; try apply count_bounds; try (apply total_le; by intros []).
  all: induction ts as [|pc ts IH]; [done|]; rewrite !count_cons, IH; destruct pc; cbn; lia.
Qed.

Lemma owes_nonneg pc : 0 <= owes pc.
Proof. destruct pc; cbn; lia. Qed.

Lemma owes_after k : owes (after k) = Z.of_nat k.
Proof. destruct k; cbn; lia. Qed.

Lemma wg_next_owner t s pc s' pc' n : (s', pc', n) ∈ next t s pc → owner_step owner holds t s s' pc pc' ∧ n = 0.
Proof.
  intros Hn. unfold owner_step, next in *. destruct (accesses pc && freed s).
  - choices Hn. split; [by left|done].
  - destruct pc; unfold lock_mutex, retry, after in Hn; repeat case_match; try (apply elem_of_app in Hn as [Hn|Hn]); choices Hn;
      cbn; repeat case_match; naive_solver.
Qed.

(** Once the group is freed, nobody is left who would access it. *)
Lemma no_access c t pc : inv c → threads c !! t = Some pc → accesses pc && freed (shared c) = false.
Proof.
  intros Hi Ht. destruct (freed (shared c)) eqn:Ef; [|apply andb_false_r]. rewrite andb_true_r.
  pose proof (inv_freed _ Hi) as Hf. rewrite Ef in Hf. cbn [b2z] in Hf. pose proof (wg_kinds (threads c)) as K. destruct (inv_leaving _ Hi ltac:(lia)) as [H0 Hfin].
  rewrite (inv_count _ Hi) in H0. pose proof (total_lookup owes _ t pc owes_nonneg Ht) as Ho. pose proof (inv_waiter _ Hi) as Hw.
  assert (Hk : ∀ f, f pc = true → 1 <= count f (threads c)) by (intros f Hx; by apply (count_lookup f _ t pc)).
  destruct pc; cbn [owes accesses] in *; try done; try lia.
  - specialize (Hk finishing eq_refl). lia.
  - specialize (Hk finishing eq_refl). lia.
  - specialize (Hk early eq_refl). lia.
  - specialize (Hk early eq_refl). lia.
  - specialize (Hk entering eq_refl). lia.
  - specialize (Hk entering eq_refl). lia.
  - specialize (Hk blocked eq_refl). lia.
  - specialize (Hk unlocking eq_refl). lia.
Qed.

(** A place of a task that is not in the mutex. *)
Record outside (pc : Pc) : Prop := {
  out_local : ∀ k old, pc = FinishCas k old → 1 < old;
  out_waiter : waiter pc = false; out_cond : in_cond pc = false; out_entering : entering pc = false;
  out_leaving : leaving pc = false; out_blocked : blocked pc = false; out_signalling : signalling pc = false;
  out_finishing : finishing pc = false; out_freed : is_freed pc = false; out_bad : bad pc = false;
}.

Lemma outside_retry k old : outside (retry k old) ∧ owes (retry k old) = Z.of_nat k + 1.
Proof. unfold retry. destruct (Z.ltb_spec 1 old); split; try done; split; try done. by intros k' old' [= <- <-]. Qed.

Lemma outside_after k : outside (after k).
Proof. unfold after. destruct k; by split. Qed.

Lemma wg_move_counts s s' ts t pc pc' :
  inv (mkConf s ts) → ts !! t = Some pc → (s', pc', 0) ∈ next t s pc →
  let ts' := <[t := pc']> ts in
  (raw_count s' = total owes ts' ∧ raw_count s' < 2 ^ 64)
  ∧ count waiter ts' = 1
  ∧ waiters s' = count in_cond ts'
  ∧ 0 <= signals s' <= waiters s'
  ∧ (0 < count entering ts' → 1 <= raw_count s')
  ∧ (0 < count leaving ts' → raw_count s' = 0 ∧ count finishing ts' = 0)
  ∧ (0 < count blocked ts' → raw_count s' = 0 → 1 <= signals s' ∨ 0 < count signalling ts')
  ∧ b2z (freed s') <= count is_freed ts'
  ∧ (∀ k old, pc' = FinishCas k old → 1 < old) ∧ bad pc' = false.
Proof.
  intros Hi Ht Hn ts'. pose proof (no_access _ t pc Hi Ht) as Hacc. cbn [shared] in Hacc. unfold next in Hn. rewrite Hacc in Hn. clear Hacc.
  pose proof (wg_kinds ts) as K. pose proof (owned_count _ _ _ _ (inv_owned _ Hi)) as Hone.
  pose proof (owned_free _ _ _ _ (inv_owned _ Hi)) as Hfree.
  destruct Hi as [Hc Hr _ Hw Hcd Hs He Hlv Hb Hf Hl _]. cbn [shared threads] in *.
  pose proof (total_lookup owes ts t pc owes_nonneg Ht) as Howes. pose proof (total_nonneg owes ts owes_nonneg) as Hnn.
  assert (Hk : ∀ f, f pc = true → 1 <= count f ts) by (intros f Hx; by apply (count_lookup f _ t pc)).
  unfold ts'. rewrite !(count_insert _ _ _ _ _ Ht), (total_insert _ _ _ _ _ Ht). specialize (Hl t). rewrite Ht in Hl.
  clear Ht ts'. 
  destruct pc as [k|k|k old|k|k|k|k| | | | | | | | | | |];
    cbn [waiter in_cond entering leaving blocked signalling finishing is_freed b2z owes] in *; unfold lock_mutex in Hn.
  - (* Task *)
    destruct (Z.ltb_spec (raw_count s + 1) (2 ^ 64)); choices Hn; cbn [add set_count raw_count waiters signals freed];
      unfold wrap64; rewrite ?Z.mod_small by lia;
      cbn [waiter in_cond entering leaving blocked signalling finishing is_freed b2z owes]; split_and!; try done; lia.
  - (* FinishLoad *)
    choices Hn. destruct (outside_retry k (raw_count s)) as [[] Ho]. rewrite Ho. 
    repeat match goal with H : _ = false |- _ => rewrite H; clear H end. cbn [b2z]. split_and!; try done; lia.
  - (* FinishCas *)
    apply elem_of_app in Hn as [Hn|Hn].
    + destruct (Z.eqb_spec (raw_count s) old) as [E|E]; [|by apply elem_of_nil in Hn]. specialize (Hl k old eq_refl). choices Hn.
      rewrite owes_after. destruct (outside_after k). cbn [set_count raw_count waiters signals freed].
      repeat match goal with H : _ = false |- _ => rewrite H; clear H end. cbn [b2z]. split_and!; try done; lia.
    + choices Hn. destruct (outside_retry k (raw_count s)) as [[] Ho]. rewrite Ho.
      repeat match goal with H : _ = false |- _ => rewrite H; clear H end. cbn [b2z]. split_and!; try done; lia.
  - (* FinishLock *)
    destruct (owner s); choices Hn; cbn; split_and!; try done; lia.
  - (* FinishSub *)
    specialize (Hk plain eq_refl). rewrite (proj2 (Z.leb_le 1 (raw_count s))) in Hn by lia. choices Hn.
    cbn [set_count raw_count waiters signals freed]. unfold wrap64. rewrite Z.mod_small by lia. cbn. split_and!; try done; lia.
  - (* FinishSignal *)
    pose proof (Hk finishing eq_refl). specialize (Hk signalling eq_refl). choices Hn. cbn. destruct (Z.ltb_spec (signals s) (waiters s)); split_and!; try done; lia.
  - (* FinishUnlock *)
    specialize (Hk finishing eq_refl). choices Hn. rewrite owes_after. destruct (outside_after k). cbn [set_owner raw_count waiters signals freed].
    repeat match goal with H : _ = false |- _ => rewrite H; clear H end. cbn [b2z]. split_and!; try done; lia.
  - by apply elem_of_nil in Hn.
  - (* WaitLock *)
    specialize (Hk early eq_refl). destruct (owner s); choices Hn; cbn; split_and!; try done; lia.
  - (* WaitLoad *)
    pose proof (Hk plain eq_refl). specialize (Hk early eq_refl).
    destruct (Z.ltb_spec 0 (raw_count s)); choices Hn; cbn; split_and!; try done; lia.
  - (* CondEnter *)
    specialize (Hk entering eq_refl). choices Hn. cbn. split_and!; try done; lia.
  - (* CondRelease *)
    pose proof (Hk releasing eq_refl). specialize (Hk entering eq_refl). choices Hn. cbn. split_and!; try done; lia.
  - (* Blocked *)
    specialize (Hk blocked eq_refl). destruct (Z.ltb_spec 0 (signals s)); choices Hn; cbn; split_and!; try done; lia.
  - (* WaitUnlock *)
    specialize (Hk unlocking eq_refl). choices Hn; cbn; split_and!; try done; lia.
  - (* Returned *)
    specialize (Hk returned eq_refl). choices Hn; cbn; split_and!; try done; lia.
  - by apply elem_of_nil in Hn.
  - by apply elem_of_nil in Hn.
  - by apply elem_of_nil in Hn.
Qed.

Lemma wg_inv_step c c' : inv c → step program c c' → inv c'.
Proof.
  intros Hi Hs. destruct Hs as [s s' ts ts' t pc pc' n Ht Hn Hw|]; [|done].
  destruct (wg_next_owner _ _ _ _ _ _ Hn) as [Hown ->]. apply wakes_zero in Hw as ->.
  destruct (wg_move_counts s s' ts t pc pc' Hi Ht Hn) as ((C1 & C1') & C2 & C3 & C4 & C5 & C6 & C7 & C8 & Hl & Hp).
  pose proof (owned_step _ _ _ _ _ _ _ _ (inv_owned _ Hi) Ht Hown) as Ho. destruct Hi as [_ _ _ _ _ _ _ _ _ _ Hlo Hb].
  split; cbn [shared threads] in *; try done.
  - intros t' k old Hx. apply (lookup_insert_Some _ _ _ pc) in Hx as [[-> E]|[_ Hx]]; [by eapply Hl|by eapply (Hlo t')|done].
  - rewrite (count_insert _ _ _ _ _ Ht), Hb, Hp. destruct (bad pc) eqn:E; [|done]. by rewrite (count_zero bad ts t pc Hb Ht) in E.
Qed.

Lemma wg_inv_start n : Z.of_nat n < 2 ^ 64 → inv (start n).
Proof.
  intros Hn. assert (H : ∀ t pc, (WaitLock :: replicate n (Task 0)) !! t = Some pc → pc = WaitLock ∨ pc = Task 0).
  { intros [|t] pc Hx; cbn in Hx; [left; congruence|right]. by apply lookup_replicate in Hx as [-> _]. }
  split; cbn [start shared threads init_with_count raw_count owner waiters signals freed]; rewrite ?count_cons, ?total_cons; unfold count; rewrite ?total_replicate;
    cbn [b2z owes waiter in_cond entering leaving blocked signalling finishing is_freed bad]; try lia.
  - intros t pc Hx Hh. by destruct (H t pc Hx) as [->| ->].
  - intros t k old Hx. by destruct (H t _ Hx) as [?|?].
Qed.

Lemma wg_inv_reach n c : Z.of_nat n < 2 ^ 64 → reach program (start n) c → inv c.
Proof. intros Hn. apply reach_invariant; [by apply wg_inv_start|apply wg_inv_step]. Qed.

(** Where a thread is when it owes nothing and is not in the mutex. *)
Lemma settled c t pc : inv c → threads c !! t = Some pc → waiter pc = false → raw_count (shared c) = 0 → count finishing (threads c) = 0 → pc = Done.
Proof.
  intros Hi Ht Hw H0 Hf. rewrite (inv_count _ Hi) in H0. pose proof (total_lookup owes _ t pc owes_nonneg Ht) as Ho.
  pose proof (count_zero finishing _ t pc Hf Ht) as Hfin. pose proof (count_zero bad _ t pc (inv_bad _ Hi) Ht) as Hbad.
  destruct pc; cbn in *; try done; lia.
Qed.

(** C17. When [wait] has returned the group may be freed: under every interleaving
    of one waiter and any number of tasks that add to the count and finish, no
    access of a finishing task comes after the owner has freed the group, no
    assertion fails, and [wait] returns only when every task is done with the
    group. And it does return: a waiter that is blocked when all tasks are done
    has a signal to leave with. *)
Theorem wait_group_may_be_freed n c :
  reach program (start n) c → Z.of_nat n < 2 ^ 64 →
  (∀ t, threads c !! t ≠ Some UseAfterFree ∧ threads c !! t ≠ Some Panicked)
  ∧ (∀ t t' pc, threads c !! t = Some Returned ∨ threads c !! t = Some Freed → threads c !! t' = Some pc → t' ≠ t → pc = Done)
  ∧ (∀ t, threads c !! t = Some Blocked → (∀ t' pc, threads c !! t' = Some pc → t' ≠ t → pc = Done) → 1 <= signals (shared c)).
Proof.
  intros Hr Hn. pose proof (wg_inv_reach n c Hn Hr) as Hi. pose proof (wg_kinds (threads c)) as K. split_and!.
  - intros t. split; intros Ht; by pose proof (count_zero bad _ t _ (inv_bad _ Hi) Ht).
  - intros t t' pc Ht Ht' Hne.
    assert (Hx : ∃ x, threads c !! t = Some x ∧ leaving x = true ∧ waiter x = true) by (destruct Ht as [H|H]; eauto).
    destruct Hx as (x & Hx & Hlx & Hwx). pose proof (count_lookup leaving _ t x Hx Hlx).
    destruct (inv_leaving _ Hi) as [H0 Hf]; [lia|]. apply (settled c t' pc); try done.
    destruct (waiter pc) eqn:Ew; [|done]. destruct Hne. eapply (count_unique waiter (threads c)); [rewrite (inv_waiter _ Hi); lia|done..].
  - intros t Ht Hall. pose proof (count_lookup blocked _ t _ Ht eq_refl).
    assert (Hothers : ∀ f, f Blocked = false → f Done = false → count f (threads c) = 0).
    { intros f H1 H2. pose proof (count_bounds f (threads c)). destruct (decide (count f (threads c) = 0)) as [|E]; [done|].
      destruct (count_pos f (threads c)) as (t' & pc & Ht' & Hp); [lia|]. destruct (decide (t' = t)) as [->|Hne]; [congruence|].
      rewrite (Hall t' pc Ht' Hne) in Hp. congruence. }
    assert (H0 : raw_count (shared c) = 0).
    { rewrite (inv_count _ Hi). apply total_zero. intros t' pc Ht'. destruct (decide (t' = t)) as [->|Hne].
      - rewrite Ht in Ht'. by injection Ht' as <-.
      - by rewrite (Hall t' pc Ht' Hne). }
    destruct (inv_blocked _ Hi) as [?|Hsg]; [lia|done|done|]. rewrite (Hothers signalling) in Hsg by done. lia.
Qed.

(** The waiter blocks, and the task finishes: counted down to zero in the mutex, then the signal. *)
Definition one_task : list Move := replicate 4 (Go 0 0 []) ++ replicate 6 (Go 1 0 []).

Lemma wait_group_may_be_freed_witness :
  ∃ c, threads c = [Blocked; Done] ∧ 1 <= signals (shared c) ∧ ∀ t, threads c !! t ≠ Some UseAfterFree ∧ threads c !! t ≠ Some Panicked.
Proof.
  destruct (run program one_task (start 1)) as [c|] eqn:E; [|by vm_compute in E].
  pose proof E as E'. vm_compute in E'. injection E' as <-. exists (mkConf (mkGroup 0 None 1 1 false) [Blocked; Done]).
  destruct (wait_group_may_be_freed 1 _ (run_reach _ _ _ _ E)) as (H1 & _ & H3); [cbn; lia|]. split; [reflexivity|].
  split; [apply (H3 0%nat eq_refl); intros [|[|t']] pc Hx Hne; try done; cbn in Hx; congruence|exact H1].
Defined.
End WaitGroup.
