(* ===== verification/ThreadSemaphore.v ===== *)
(** * [src/threading/Semaphore.rs]: a semaphore from a mutex and a condition variable

    The mutex is its owner, the condition variable its waiters and signals, as
    [ThreadMutex] and [ThreadCondition] prove of their words. Two counters that
    the code does not have tell how often [post] has added a permit and [wait]
    has taken one. *)

From S2P Require Import Prelude ThreadModel.

#[local] Open Scope Z_scope.

Module Semaphore.
Record Semaphore := mkSemaphore { permits : Z; owner : option nat; waiters : Z; signals : Z; posted : Z; taken : Z }.
Definition new : Semaphore := mkSemaphore 0 None 0 0 0 0.

Definition set_owner (o : option nat) (s : Semaphore) : Semaphore := mkSemaphore (permits s) o (waiters s) (signals s) (posted s) (taken s).
Definition set_cond (w g : Z) (s : Semaphore) : Semaphore := mkSemaphore (permits s) (owner s) w g (posted s) (taken s).

(** [*self.permits.get() += 1] and [-= 1], on [usize]. *)
Definition add_permit (s : Semaphore) : Semaphore :=
  mkSemaphore (wrap64 (permits s + 1)) (owner s) (waiters s) (signals s) (posted s + 1) (taken s).
Definition take_permit (s : Semaphore) : Semaphore :=
  mkSemaphore (wrap64 (permits s - 1)) (owner s) (waiters s) (signals s) (posted s) (taken s + 1).

(** [woken]: the thread has come out of [cond.wait] and not yet looked at the permits. *)
Inductive Pc :=
| Idle
| WaitLock (woken : bool) (* [mutex.lock()], of [wait] or at the end of [cond.wait] *)
| WaitTest (woken : bool) (* the condition of the loop *)
| CondEnter (* [cond.wait]: counted as a waiter *)
| CondRelease (* [cond.wait]: the mutex is released *)
| Blocked
| WaitTake (woken : bool)
| WaitMore (* the permits that are left *)
| WaitSignal
| Unlock (* the scope guard *)
| PostLock | PostAdd | PostSignal
| Panicked.

Definition lock_mutex (t : nat) (s : Semaphore) (pc : Pc) : list (Semaphore * Pc * Z) :=
  match owner s with None => [(set_owner (Some t) s, pc, 0)] | Some _ => [] end.

(** [cond.signal()] *)
Definition signal (s : Semaphore) : Semaphore :=
  set_cond (waiters s) (if signals s <? waiters s then signals s + 1 else signals s) s.

Definition next (t : nat) (s : Semaphore) (pc : Pc) : list (Semaphore * Pc * Z) :=
  match pc with
  | Idle => [(s, WaitLock false, 0); (s, PostLock, 0)]
  | WaitLock b => lock_mutex t s (WaitTest b)
  | WaitTest b => [(s, if permits s =? 0 then CondEnter else WaitTake b, 0)]
  | CondEnter => [(set_cond (waiters s + 1) (signals s) s, CondRelease, 0)]
  | CondRelease => [(set_owner None s, Blocked, 0)]
  | Blocked => if 0 <? signals s then [(set_cond (waiters s - 1) (signals s - 1) s, WaitLock true, 0)] else []
  | WaitTake b => [(take_permit s, if 1 <=? permits s then WaitMore else Panicked, 0)]
  | WaitMore => [(s, if 0 <? permits s then WaitSignal else Unlock, 0)]
  | WaitSignal => [(signal s, Unlock, 0)]
  | Unlock => [(set_owner None s, Idle, 0)]
  | PostLock => lock_mutex t s PostAdd
  | PostAdd => [(add_permit s, PostSignal, 0)]
  | PostSignal => [(signal s, Unlock, 0)]
  | Panicked => []
  end.

Definition program : Program Semaphore Pc := mkProgram _ _ next (λ _, false) (λ pc, pc).

Definition start (n : nat) : Conf Semaphore Pc := mkConf new (replicate n Idle).

(** ** The invariant *)

Definition holds (pc : Pc) : bool :=
  match pc with
  | WaitTest _ | CondEnter | CondRelease | WaitTake _ | WaitMore | WaitSignal | Unlock | PostAdd | PostSignal => true
  | _ => false
  end.
Definition in_cond (pc : Pc) : bool := match pc with CondRelease | Blocked => true | _ => false end.

(** On the way to a permit with a signal consumed, or about to signal one that was added. *)
Definition arriving (pc : Pc) : bool :=
  match pc with WaitLock true | WaitTest true | WaitTake true | PostSignal => true | _ => false end.
Definition entering (pc : Pc) : bool := match pc with CondEnter => true | _ => false end.
Definition taking (pc : Pc) : bool := match pc with WaitTake _ => true | _ => false end.
Definition panicked (pc : Pc) : bool := match pc with Panicked => true | _ => false end.
Definition inside (pc : Pc) : bool := holds pc && negb (entering pc) && negb (taking pc).

Record inv (c : Conf Semaphore Pc) : Prop := {
  inv_owned : owned owner holds (shared c) (threads c);
  inv_permits : permits (shared c) + taken (shared c) = posted (shared c) ∧ 0 <= permits (shared c) ∧ 0 <= taken (shared c);
  inv_cond : waiters (shared c) = count in_cond (threads c) ∧ 0 <= signals (shared c) <= waiters (shared c);
  inv_entering : 0 < count entering (threads c) → permits (shared c) = 0;
  inv_taking : 0 < count taking (threads c) → 1 <= permits (shared c);
  inv_arriving : signals (shared c) < waiters (shared c) → permits (shared c) <= signals (shared c) + count arriving (threads c);
  inv_panicked : count panicked (threads c) = 0;
}.

Lemma sem_kinds ts :
  count holds ts = count entering ts + count taking ts + count inside ts
  ∧ 0 <= count inside ts ∧ 0 <= count entering ts ∧ 0 <= count taking ts ∧ 0 <= count arriving ts ∧ 0 <= count in_cond ts.
Proof.
  split_and!; try apply count_bounds. induction ts as [|pc ts IH]; [done|]. rewrite !count_cons, IH. destruct pc; cbn; lia.
Qed.

Lemma sem_next_owner t s pc s' pc' n : (s', pc', n) ∈ next t s pc → owner_step owner holds t s s' pc pc' ∧ n = 0.
Proof.
  intros Hn. unfold owner_step. destruct pc; cbn [next] in Hn; unfold lock_mutex in Hn; repeat case_match; choices Hn;
    cbn; repeat case_match; naive_solver.
Qed.

Lemma posted_grows c c' : step program c c' → posted (shared c) <= posted (shared c').
Proof.
  intros [s s' ts ts' t pc pc' n Ht Hn Hw|]; cbn [shared]; [|lia].
  destruct pc; cbn in Hn; unfold lock_mutex in Hn; repeat case_match; choices Hn; cbn; lia.
Qed.

Lemma sem_move s s' ts t pc pc' :
  inv (mkConf s ts) → posted s' < 2 ^ 64 → ts !! t = Some pc → (s', pc', 0) ∈ next t s pc →
  let ts' := <[t := pc']> ts in
  (permits s' + taken s' = posted s' ∧ 0 <= permits s' ∧ 0 <= taken s')
  ∧ (waiters s' = count in_cond ts' ∧ 0 <= signals s' <= waiters s')
  ∧ (0 < count entering ts' → permits s' = 0)
  ∧ (0 < count taking ts' → 1 <= permits s')
  ∧ (signals s' < waiters s' → permits s' <= signals s' + count arriving ts')
  ∧ panicked pc' = false.
Proof.
  intros [Ho Hp Hc He Hk Ha _] Hlt Ht Hn ts'. cbn [shared threads] in *.
  unfold ts'. rewrite !(count_insert _ _ _ _ _ Ht). pose proof (sem_kinds ts) as K.
  pose proof (owned_count _ _ _ _ Ho) as Hone. pose proof (owned_free _ _ _ _ Ho) as Hfree.
  assert (Hat : ∀ f, f pc = true → 1 <= count f ts) by (intros f Hx; by apply (count_lookup f _ t pc)).
  pose proof (Hat inside : holds pc && negb (entering pc) && negb (taking pc) = true → _) as Hin. pose proof (Hat arriving) as Har. pose proof (Hat entering) as Hen. pose proof (Hat taking) as Htk. pose proof (Hat in_cond) as Hic.
  clear Ht ts' Hat Ho.
  destruct pc; try (destruct woken); cbn [next holds entering taking in_cond arriving andb negb b2z] in *; unfold lock_mutex, signal in *;
    repeat match type of Hn with _ ∈ match owner s with _ => _ end => destruct (owner s) end;
    repeat match type of Hn with context [?a <? ?b] => destruct (Z.ltb_spec a b) | context [?a =? ?b] => destruct (Z.eqb_spec a b)
           | context [?a <=? ?b] => destruct (Z.leb_spec a b) end; choices Hn;
    cbn [set_cond set_owner add_permit take_permit permits taken posted signals waiters owner] in *; unfold wrap64;
    rewrite ?Z.mod_small by lia; cbn; split_and!; try done; lia.
Qed.

Lemma sem_inv_step c c' : inv c → step program c c' → posted (shared c') < 2 ^ 64 → inv c'.
Proof.
  intros Hi Hs Hlt. destruct Hs as [s s' ts ts' t pc pc' n Ht Hn Hw|]; [|done].
  destruct (sem_next_owner _ _ _ _ _ _ Hn) as [Hown ->]. apply wakes_zero in Hw as ->.
  destruct (sem_move s s' ts t pc pc' Hi Hlt Ht Hn) as (H1 & H2 & H3 & H4 & H5 & Hp).
  pose proof (owned_step _ _ _ _ _ _ _ _ (inv_owned _ Hi) Ht Hown) as Ho. destruct Hi as [_ _ _ _ _ _ Hpk].
  split; cbn [shared threads] in *; try done.
  rewrite (count_insert _ _ _ _ _ Ht), Hpk, Hp. destruct (panicked pc) eqn:E; [|done]. by rewrite (count_zero panicked ts t pc Hpk Ht) in E.
Qed.

Lemma sem_inv_start n : inv (start n).
Proof.
  split; cbn [start shared threads new permits owner waiters signals posted taken]; unfold count; rewrite ?total_replicate;
    cbn [b2z in_cond entering taking arriving panicked]; try lia.
  intros t pc [-> _]%lookup_replicate. done.
Qed.

Lemma sem_inv_reach n c : reach program (start n) c → posted (shared c) < 2 ^ 64 → inv c.
Proof.
  intros Hr. refine (reach_invariant program (λ c, posted (shared c) < 2 ^ 64 → inv c) (start n) c _ _ Hr).
  - intros _. apply sem_inv_start.
  - intros c1 c2 IH Hs Hlt. pose proof (posted_grows _ _ Hs). apply (sem_inv_step c1); [apply IH; lia|done|done].
Qed.

(** The semaphore: under every interleaving of [wait] and [post], until 2{^64}
    permits have been posted, no permit is made up or lost (those that are there
    and those taken are those posted), the subtraction never underflows, and no
    wake-up is missed: while a thread is blocked and there is a permit, a signal
    is there for a blocked thread, or a thread that a signal has woken is on its
    way to a permit, or a [post] is about to signal. *)
Theorem semaphore_keeps_permits n c :
  reach program (start n) c → posted (shared c) < 2 ^ 64 →
  (∀ t, threads c !! t ≠ Some Panicked)
  ∧ permits (shared c) + taken (shared c) = posted (shared c) ∧ 0 <= permits (shared c)
  ∧ (∀ t, threads c !! t = Some Blocked → 0 < permits (shared c) →
       0 < signals (shared c) ∨ ∃ t' pc, threads c !! t' = Some pc ∧ arriving pc = true).
Proof.
  intros Hr Hlt. pose proof (sem_inv_reach n c Hr Hlt) as [Ho Hp Hc He Hk Ha Hpk]. split_and!; try apply Hp.
  - intros t Ht. by pose proof (count_zero panicked _ t _ Hpk Ht).
  - intros t Ht H0. pose proof (count_lookup in_cond _ t _ Ht eq_refl) as Hb.
    destruct (decide (0 < signals (shared c))) as [|Hs]; [by left|right]. apply count_pos. lia.
Qed.

(** A waiter blocks; the post that frees it has not yet signalled. *)
Lemma semaphore_keeps_permits_witness :
  ∃ c, threads c = [Blocked; PostSignal] ∧ permits (shared c) = 1
    ∧ (0 < signals (shared c) ∨ ∃ t' pc, threads c !! t' = Some pc ∧ arriving pc = true).
Proof.
  destruct (run program (replicate 5 (Go 0 0 []) ++ [Go 1 1 []; Go 1 0 []; Go 1 0 []]) (start 2)) as [c|] eqn:E; [|by vm_compute in E].
  pose proof E as E'. vm_compute in E'. injection E' as <-. exists (mkConf (mkSemaphore 1 (Some 1%nat) 1 0 1 0) [Blocked; PostSignal]).
  split; [reflexivity|]. split; [reflexivity|].
  destruct (semaphore_keeps_permits 2 _ (run_reach _ _ _ _ E)) as (_ & _ & _ & H); [cbn; lia|]. by apply (H 0%nat).
Defined.
End Semaphore.
