(* ===== verification/ThreadResetEvent.v ===== *)
(** * [src/threading/ResetEvent.rs]: an event that threads wait for

    A program of [ThreadModel]: any number of threads call [wait] and [set], any
    number of times. *)

From S2P Require Import Prelude ThreadModel.

#[local] Open Scope Z_scope.

Module ResetEvent.
Definition UNSET : Z := 0.
Definition WAITING : Z := 1.
Definition IS_SET : Z := 2.

Record ResetEvent := mkEvent { state : Z }.
Definition new : ResetEvent := mkEvent UNSET.

Definition is_set (s : ResetEvent) : bool := state s =? IS_SET.

Inductive Pc :=
| Idle
| WaitFirst (* [is_set] of [wait_inner] *)
| WaitLoad (* the load of [wait_until_set] *)
| WaitCas (* from [UNSET] to [WAITING] *)
| FutexWait (* [futex_deadline.wait(&self.state, WAITING)] *)
| Asleep
| Recheck (* the load after it *)
| Returned (* from [wait] *)
| SetLoad | SetSwap
| SetWake (* [Futex::wake(&self.state, u32::MAX)] *)
| Panicked.

#[export] Instance Pc_eq_dec : EqDecision Pc.
Proof. solve_decision. Defined.

(** [if state == WAITING { ... }], and the assertion at the end of [wait_until_set]. *)
Definition wait_if (st : Z) : Pc := if st =? WAITING then FutexWait else if st =? IS_SET then Returned else Panicked.

Definition next (t : nat) (s : ResetEvent) (pc : Pc) : list (ResetEvent * Pc * Z) :=
  match pc with
  | Idle => [(s, WaitFirst, 0); (s, SetLoad, 0)]
  | WaitFirst => [(s, if is_set s then Returned else WaitLoad, 0)]
  | WaitLoad => [(s, if state s =? UNSET then WaitCas else wait_if (state s), 0)]
  | WaitCas => if state s =? UNSET then [(mkEvent WAITING, wait_if WAITING, 0)] else [(s, wait_if (state s), 0)]
  | FutexWait => [(s, if state s =? WAITING then Asleep else Recheck, 0)]
  | Asleep => []
  | Recheck => [(s, wait_if (state s), 0)]
  | Returned => [(s, Idle, 0)]
  | SetLoad => [(s, if state s =? IS_SET then Idle else SetSwap, 0)]
  | SetSwap => [(mkEvent IS_SET, if state s =? WAITING then SetWake else Idle, 0)]
  | SetWake => [(s, Idle, 2 ^ 32 - 1)]
  | Panicked => []
  end.

Definition is_asleep (pc : Pc) : bool := match pc with Asleep => true | _ => false end.

Definition program : Program ResetEvent Pc := mkProgram _ _ next is_asleep (λ _, Recheck).

Definition start (n : nat) : Conf ResetEvent Pc := mkConf new (replicate n Idle).

(** ** The invariant *)

(** Places that are only reached when the event is no longer [UNSET], and when it is set. *)
Definition waited (pc : Pc) : bool := match pc with FutexWait | Asleep | Recheck => true | _ => false end.
Definition released (pc : Pc) : bool := match pc with Returned | SetWake => true | _ => false end.
Definition waking (pc : Pc) : bool := match pc with SetWake => true | _ => false end.
Definition panicked (pc : Pc) : bool := match pc with Panicked => true | _ => false end.
Definition in_wait (pc : Pc) : bool := match pc with WaitFirst | WaitLoad | WaitCas | FutexWait | Recheck => true | _ => false end.

Record inv (c : Conf ResetEvent Pc) : Prop := {
  inv_state : state (shared c) = UNSET ∨ state (shared c) = WAITING ∨ state (shared c) = IS_SET;
  inv_waited : 0 < count waited (threads c) → state (shared c) ≠ UNSET;
  inv_released : 0 < count released (threads c) → state (shared c) = IS_SET;
  inv_asleep : 0 < count is_asleep (threads c) → state (shared c) = WAITING ∨ 0 < count waking (threads c);
  inv_panicked : count panicked (threads c) = 0;
  inv_threads : Z.of_nat (length (threads c)) < 2 ^ 32;
}.

Lemma event_kinds ts :
  0 <= count is_asleep ts <= count waited ts ∧ 0 <= count waking ts <= count released ts ∧ count is_asleep ts <= Z.of_nat (length ts).
Proof. split_and!; try apply count_bounds; (apply total_le; by intros []). Qed.

Lemma event_move s s' ts t pc pc' :
  inv (mkConf s ts) → ts !! t = Some pc → (s', pc', 0) ∈ next t s pc → inv (mkConf s' (<[t := pc']> ts)).
Proof.
  intros [Hst Hw Hr Ha Hp Hn] Ht Hx. cbn [shared threads] in *. pose proof (event_kinds ts) as K.
  assert (Hat : ∀ f, f pc = true → 1 <= count f ts) by (intros f Hf; by apply (count_lookup f _ t pc)).
  pose proof (Hat waited) as H1. pose proof (Hat released) as H2. clear Hat.
  destruct s as [st]. unfold UNSET, WAITING, IS_SET in *. cbn [state] in *.
  split; cbn [shared threads]; rewrite ?length_insert, ?(count_insert _ _ _ _ _ Ht); try done; clear Ht;
    destruct Hst as [->|[->| ->]], pc; cbn -[Z.pow] in Hx; choices Hx; cbn in *; unfold UNSET, WAITING, IS_SET in *; lia.
Qed.

(** Waking every sleeper leaves none. *)
Lemma event_wake_all s ts ts' t :
  inv (mkConf s ts) → ts !! t = Some SetWake → wakes program (wake_count program (2 ^ 32 - 1) (<[t := Idle]> ts)) (<[t := Idle]> ts) ts' →
  inv (mkConf s ts').
Proof.
  intros [Hst Hw Hr Ha Hp Hn] Ht Hk. cbn [shared threads] in *. pose proof (event_kinds ts) as K.
  pose proof (count_lookup released ts t _ Ht eq_refl) as Hset. specialize (Hr ltac:(lia)).
  set (k := wake_count program _ _) in *. assert (Ek : Z.of_nat k = count is_asleep ts).
  { unfold k, wake_count. change (asleep program) with is_asleep. rewrite (count_insert _ _ _ _ _ Ht). cbn [b2z is_asleep]. lia. }
  assert (W1 : count is_asleep ts' = 0).
  { unfold count. rewrite (wakes_total program (λ pc, b2z (is_asleep pc)) (-1) k (<[t:=Idle]> ts)), (total_insert _ _ _ _ _ Ht).
    - change (total _ ts) with (count is_asleep ts). cbn. lia.
    - by intros [].
    - done. }
  split; cbn [shared threads]; try lia.
  - rewrite Hr. done.
  - rewrite (wakes_count program panicked _ _ _ ltac:(by intros []) Hk), (count_insert _ _ _ _ _ Ht). cbn. lia.
  - rewrite (wakes_length _ _ _ _ Hk), length_insert. done.
Qed.

Lemma event_spurious s ts t pc : inv (mkConf s ts) → ts !! t = Some pc → is_asleep pc = true → inv (mkConf s (<[t := Recheck]> ts)).
Proof.
  intros [Hst Hw Hr Ha Hp Hn] Ht Hs. destruct pc; try done. cbn [shared threads] in *. pose proof (event_kinds ts) as K.
  pose proof (count_lookup is_asleep ts t _ Ht eq_refl).
  split; cbn [shared threads]; rewrite ?length_insert, ?(count_insert _ _ _ _ _ Ht); try done; cbn; lia.
Qed.

Lemma event_inv_step c c' : inv c → step program c c' → inv c'.
Proof.
  intros Hi Hs. destruct Hs as [s s' ts ts' t pc pc' n Ht Hn Hw|s ts t pc Ht Ha]; [|by eapply event_spurious].
  assert (n = 0 ∨ pc = SetWake ∧ s' = s ∧ pc' = Idle ∧ n = 2 ^ 32 - 1) as [->|(-> & -> & -> & ->)].
  { clear -Hn. destruct pc; cbn -[Z.pow] in Hn; repeat case_match; choices Hn; auto. }
  - apply wakes_zero in Hw as ->. by eapply event_move.
  - by eapply event_wake_all.
Qed.

Lemma event_inv_reach n c : reach program (start n) c → Z.of_nat n < 2 ^ 32 → inv c.
Proof.
  intros Hr Hn. refine (reach_invariant program inv (start n) c _ event_inv_step Hr).
  split; cbn [start shared threads new state]; unfold count; rewrite ?total_replicate, ?length_replicate;
    cbn [b2z waited released is_asleep waking panicked]; unfold UNSET, WAITING, IS_SET; try lia.
Qed.

(** ** Progress *)

Definition leaves (c : Conf ResetEvent Pc) (t : nat) : Prop := ∃ c', rtc (step_at program in_wait) c c' ∧ threads c' !! t = Some Returned.

Lemma event_leaves_step s ts t pc pc' :
  ts !! t = Some pc → in_wait pc = true → (s, pc', 0) ∈ next t s pc → pc' = Returned ∨ leaves (mkConf s (<[t := pc']> ts)) t → leaves (mkConf s ts) t.
Proof.
  intros Ht Ha Hn [->|(c' & Hc & Hx)].
  - exists (mkConf s (<[t := Returned]> ts)). split; [apply rtc_once; by eapply step_at_quiet|]. apply list_lookup_insert_eq. by eapply lookup_lt_Some.
  - exists c'. split; [|done]. eapply rtc_l; [by eapply step_at_quiet|done].
Qed.

(** A thread that is awake in [wait] leaves it when the event is set. *)
Lemma event_set_leaves ts t pc : ts !! t = Some pc → in_wait pc = true → leaves (mkConf (mkEvent IS_SET) ts) t.
Proof.
  assert (H : ∀ pc ts, ts !! t = Some pc → pc ≠ FutexWait → in_wait pc = true → leaves (mkConf (mkEvent IS_SET) ts) t).
  { intros x ts' Hx Hne Hin. apply (event_leaves_step _ ts' t x Returned); [done|done| |by left]. destruct x; try done; by left. }
  intros Ht Hin. destruct (decide (pc = FutexWait)) as [->|Hne]; [|by eapply H].
  apply (event_leaves_step _ ts t FutexWait Recheck); [done|done|by left|right].
  apply (H Recheck); [|done|done]. apply list_lookup_insert_eq. by eapply lookup_lt_Some.
Qed.

(** The event: with fewer than 2{^32} threads, under every interleaving of
    [wait] and [set] and with spurious wake-ups, the assertion of [wait] never
    fails; a thread returns from [wait] only when the event is set, and it stays
    set; and nobody is forgotten: once the event is set and no [set] is about to
    wake the sleepers, no thread sleeps, and every thread in [wait] returns by
    steps of its own. *)
Theorem reset_event_releases_all n c :
  reach program (start n) c → Z.of_nat n < 2 ^ 32 →
  (∀ t, threads c !! t ≠ Some Panicked)
  ∧ (∀ t, threads c !! t = Some Returned → is_set (shared c) = true)
  ∧ (is_set (shared c) = true → ∀ c', step program c c' → is_set (shared c') = true)
  ∧ (is_set (shared c) = true → (∀ t, threads c !! t ≠ Some SetWake) → ∀ t pc, threads c !! t = Some pc →
       pc ≠ Asleep ∧ (in_wait pc = true → ∃ c', rtc (step_at program in_wait) c c' ∧ threads c' !! t = Some Returned)).
Proof.
  intros Hr Hn. pose proof (event_inv_reach n c Hr Hn) as [Hst Hw Hre Ha Hp _]. unfold is_set. split_and!.
  - intros t Ht. by pose proof (count_zero panicked _ t _ Hp Ht).
  - intros t Ht. apply Z.eqb_eq, Hre. pose proof (count_lookup released _ t _ Ht eq_refl). lia.
  - intros Hs c' Hc. destruct Hc as [s s' ts ts' t pc pc' k Ht Hk Hx|s ts t pc Ht Hx]; cbn [shared] in *; [|done]. apply Z.eqb_eq in Hs.
    destruct pc; cbn -[Z.pow] in Hk; rewrite ?Hs in Hk; cbn -[Z.pow] in Hk; choices Hk; cbn; by rewrite ?Hs.
  - intros Hs Hno t pc Ht. apply Z.eqb_eq in Hs. split.
    + intros ->. pose proof (count_lookup is_asleep _ t _ Ht eq_refl). destruct Ha as [E|Hk]; [lia|by rewrite Hs in E|].
      apply count_pos in Hk as (t' & x & Hx & Hk). destruct x; try done. by destruct (Hno t').
    + intros Hin. destruct c as [[st] ts]. cbn in Hs. subst st. by eapply event_set_leaves.
Qed.

(** A thread sleeps until the event is set and it is woken. *)
Lemma reset_event_releases_all_witness :
  ∃ c, threads c = [Recheck; Idle] ∧ is_set (shared c) = true ∧ ∃ c', rtc (step_at program in_wait) c c' ∧ threads c' !! 0%nat = Some Returned.
Proof.
  destruct (run program (replicate 5 (Go 0 0 []) ++ [Go 1 1 []; Go 1 0 []; Go 1 0 []; Go 1 0 [0%nat]]) (start 2)) as [c|] eqn:E; [|by vm_compute in E].
  pose proof E as E'. vm_compute in E'. injection E' as <-. exists (mkConf (mkEvent 2) [Recheck; Idle]).
  split; [reflexivity|]. split; [reflexivity|].
  destruct (reset_event_releases_all 2 _ (run_reach _ _ _ _ E)) as (_ & _ & _ & H); [cbn; lia|].
  apply (H eq_refl ltac:(intros [|[|t]]; done) 0%nat Recheck eq_refl). reflexivity.
Defined.
End ResetEvent.
