(* ===== verification/LinearFifo.v ===== *)
(** * [src/collections/linear_fifo.rs]: the ring buffer

    A buffer of slots, the index of the first item and the number of items. A
    slot that was never written, or was poisoned when its item was discarded, is
    [None]. The definitions are those of a build with debug assertions: a failed
    assertion, an index or a slice out of range and an overflow are [None], and so
    is a loop that would not end. A slice is its range in the buffer; what is
    read through it and written through it is explicit. *)

From S2P Require Import Prelude.

#[local] Open Scope nat_scope.

(** The constants of the trait [LinearFifoBuffer]. *)
Class LinearFifoBuffer := { POWERS_OF_TWO : bool; DYNAMIC : bool }.

Definition is_power_of_two (n : nat) : bool := n =? 2 ^ Nat.log2 n.

Definition StaticBuffer (N : nat) : LinearFifoBuffer := {| POWERS_OF_TWO := is_power_of_two N; DYNAMIC := false |}.
Definition DynamicBuffer : LinearFifoBuffer := {| POWERS_OF_TWO := true; DYNAMIC := true |}.

(** [Result<T, AllocError>] *)
Inductive Result (A : Type) := Ok (a : A) | AllocError.
Arguments Ok {A} a.
Arguments AllocError {A}.

Definition debug_assert (b : bool) : option unit := if b then Some tt else None.

(** [usize::checked_add] and [usize::checked_next_power_of_two]. *)
Definition checked_add (a b : nat) : option nat := if (Z.of_nat a + Z.of_nat b <? 2 ^ 64)%Z then Some (a + b) else None.
Definition checked_next_power_of_two (n : nat) : option nat :=
  if (2 ^ Z.log2_up (Z.of_nat n) <? 2 ^ 64)%Z then Some (2 ^ Nat.log2_up n) else None.

Section fifo.
Context {T : Type} `{B : LinearFifoBuffer} (size_of : Z).

Record LinearFifo := mkFifo { buf : list (option T); head : nat; count : nat }.

(** [init] of either kind: [N] slots, none of them written. *)
Definition init (N : nat) : LinearFifo := mkFifo (replicate N None) 0 0.

Definition set_buf (b : list (option T)) (f : LinearFifo) : LinearFifo := mkFifo b (head f) (count f).
Definition set_head (h : nat) (f : LinearFifo) : LinearFifo := mkFifo (buf f) h (count f).
Definition set_count (n : nat) (f : LinearFifo) : LinearFifo := mkFifo (buf f) (head f) n.

Definition buf_len (f : LinearFifo) : nat := length (buf f).
Definition capacity (f : LinearFifo) : nat := buf_len f.
Definition readable_length (f : LinearFifo) : nat := count f.
Definition writable_length (f : LinearFifo) : option nat := usize_sub (buf_len f) (count f).

(** ** Slices of the buffer *)

(** [&buf\[a..b\]] *)
Definition range (f : LinearFifo) (a b : nat) : option (nat * nat) :=
  if (a <=? b) && (b <=? buf_len f) then Some (a, b) else None.

Definition read_range (f : LinearFifo) (a b : nat) : list (option T) := take (b - a) (drop a (buf f)).

(** [dst.copy_from_slice(src)] for the slice that starts at [a]. *)
Definition write_at (a : nat) (src : list (option T)) (f : LinearFifo) : LinearFifo := set_buf (list_inserts a src (buf f)) f.

(** [poison(slice, n)] *)
Definition poison (r : nat * nat) (n : nat) (f : LinearFifo) : option LinearFifo :=
  debug_assert (n <=? r.2 - r.1);; Some (write_at r.1 (replicate n None) f).

(** [slice.copy_within(1.., 0)] *)
Definition shift_down_one (r : nat * nat) (f : LinearFifo) : LinearFifo :=
  if 1 <? r.2 - r.1 then write_at r.1 (read_range f (r.1 + 1) r.2) f else f.

(** [index &= len - 1], or [index %= len]. *)
Definition wrap_index (index len : nat) : option nat :=
  if POWERS_OF_TWO then m ← usize_sub len 1; Some (Nat.land index m)
  else debug_assert (negb (len =? 0));; Some (index mod len).

(** ** The operations *)

Definition reset_head_if_empty (f : LinearFifo) : LinearFifo := if count f =? 0 then set_head 0 f else f.

Definition realign (f : LinearFifo) : option LinearFifo :=
  room ← usize_sub (buf_len f) (head f);
  let f :=
    if count f <=? room then set_head 0 (write_at 0 (read_range f (head f) (head f + count f)) f)
    else set_head 0 (set_buf (drop (head f) (buf f) ++ take (head f) (buf f)) f) in
  r ← range f (count f) (buf_len f);
  Some (write_at r.1 (replicate (r.2 - r.1) None) f).

(** [Box::new_uninit_slice] panics when the layout is larger than [isize::MAX]. *)
Definition new_uninit_slice (n : nat) : option (list (option T)) :=
  debug_assert (Z.of_nat n * size_of <? 2 ^ 63)%Z;; Some (replicate n None).

Definition ensure_total_capacity (size : nat) (f : LinearFifo) : option (LinearFifo * Result unit) :=
  if size <=? buf_len f then Some (f, Ok tt)
  else if DYNAMIC then
    f ← realign f;
    match (if POWERS_OF_TWO then checked_next_power_of_two size else Some size) with
    | None => Some (f, AllocError)
    | Some new_size =>
        new ← new_uninit_slice new_size;
        let old := buf f in
        let f := set_buf new f in
        let f := if 0 <? count f then write_at 0 (take (count f) old) f else f in
        Some (set_head 0 f, Ok tt)
    end
  else Some (f, AllocError).

Definition ensure_unused_capacity (size : nat) (f : LinearFifo) : option (LinearFifo * Result unit) :=
  w ← writable_length f;
  if size <=? w then Some (f, Ok tt)
  else
    match checked_add (count f) size with
    | None => Some (f, AllocError)
    | Some total => ensure_total_capacity total f
    end.

(** [readable_slice_mut] and [readable_slice] *)
Definition readable_slice (offset : nat) (f : LinearFifo) : option (nat * nat) :=
  if count f <? offset then Some (0, 0)
  else
    let start := head f + offset in
    if buf_len f <=? start then let start := start - buf_len f in range f start (start + (count f - offset))
    else range f start (Nat.min (head f + count f) (buf_len f)).

Definition discard (n : nat) (f : LinearFifo) : option LinearFifo :=
  debug_assert (n <=? count f);;
  r ← readable_slice 0 f;
  let slice_len := r.2 - r.1 in
  f ← (if n <=? slice_len then poison r n f
       else
         f ← poison r slice_len f;
         r ← readable_slice slice_len f;
         poison r (n - slice_len) f);
  let head' := head f + n in
  head' ← (if POWERS_OF_TWO then
             (* [head &= buf_len().wrapping_sub(1)] *)
             Some (if buf_len f =? 0 then head' else Nat.land head' (buf_len f - 1))
           else debug_assert (negb (buf_len f =? 0));; Some (head' mod buf_len f));
  count' ← usize_sub (count f) n;
  Some (mkFifo (buf f) head' count').

(** An item is read through the pointer of its slot. *)
Definition read_item (f : LinearFifo) : option (LinearFifo * option (option T)) :=
  if count f =? 0 then Some (f, None)
  else
    c ← buf f !! head f;
    f ← discard 1 f;
    Some (f, Some c).

(** [read] into a slice of [left] places: what is copied. *)
Fixpoint read_loop (fuel : nat) (left : nat) (f : LinearFifo) : option (LinearFifo * list (option T)) :=
  if left =? 0 then Some (f, [])
  else
    match fuel with
    | O => None
    | S fuel =>
        r ← readable_slice 0 f;
        let len := r.2 - r.1 in
        if len =? 0 then Some (f, [])
        else
          let n := Nat.min len left in
          let got := read_range f r.1 (r.1 + n) in
          f ← discard n f;
          '(f, rest) ← read_loop fuel (left - n) f;
          Some (f, got ++ rest)
    end.
Definition read (total : nat) (f : LinearFifo) : option (LinearFifo * list (option T)) := read_loop total total f.

Definition writable_slice (offset : nat) (f : LinearFifo) : option (nat * nat) :=
  if buf_len f <? offset then Some (0, 0)
  else
    writable ← usize_sub (buf_len f) (count f);
    let tail := head f + offset + count f in
    if tail <? buf_len f then range f tail (buf_len f)
    else
      let start := tail - buf_len f in
      len ← usize_sub writable offset;
      range f start (start + len).

Definition writable_with_size (size : nat) (f : LinearFifo) : option (LinearFifo * Result (nat * nat)) :=
  '(f, res) ← ensure_unused_capacity size f;
  match res with
  | AllocError => Some (f, AllocError)
  | Ok _ =>
      r ← writable_slice 0 f;
      f ← (if r.2 - r.1 <? size then realign f else Some f);
      r ← writable_slice 0 f;
      debug_assert (size <=? r.2 - r.1);;
      Some (f, Ok (r.1, r.1 + size))
  end.

Definition update (n : nat) (f : LinearFifo) : option LinearFifo :=
  debug_assert (count f + n <=? buf_len f);; Some (set_count (count f + n) f).

Fixpoint write_loop (fuel : nat) (src : list T) (f : LinearFifo) : option LinearFifo :=
  match src with
  | [] => Some f
  | _ :: _ =>
      match fuel with
      | O => None
      | S fuel =>
          r ← writable_slice 0 f;
          debug_assert (negb (r.2 - r.1 =? 0));;
          let n := Nat.min (r.2 - r.1) (length src) in
          f ← update n (write_at r.1 (Some <$> take n src) f);
          write_loop fuel (drop n src) f
      end
  end.
Definition write_assume_capacity (src : list T) (f : LinearFifo) : option LinearFifo :=
  w ← writable_length f;
  debug_assert (length src <=? w);;
  write_loop (length src) src f.

(** [ptr::write] to a slot: out of range is not defined. *)
Definition write_item_assume_capacity (item : T) (f : LinearFifo) : option LinearFifo :=
  tail ← wrap_index (head f + count f) (buf_len f);
  debug_assert (tail <? buf_len f);;
  update 1 (write_at tail [Some item] f).

Definition write_item (item : T) (f : LinearFifo) : option (LinearFifo * Result unit) :=
  '(f, res) ← ensure_unused_capacity 1 f;
  match res with
  | AllocError => Some (f, AllocError)
  | Ok _ => f ← write_item_assume_capacity item f; Some (f, Ok tt)
  end.

Definition write (src : list T) (f : LinearFifo) : option (LinearFifo * Result unit) :=
  '(f, res) ← ensure_unused_capacity (length src) f;
  match res with
  | AllocError => Some (f, AllocError)
  | Ok _ => f ← write_assume_capacity src f; Some (f, Ok tt)
  end.

(** [write] of [std::io::Write]: of a buffer that does not grow, what fits. *)
Definition io_write (src : list T) (f : LinearFifo) : option (LinearFifo * Result nat) :=
  w ← writable_length f;
  let src := if DYNAMIC then src else take (Nat.min (length src) w) src in
  '(f, res) ← write src f;
  Some (f, match res with Ok _ => Ok (length src) | AllocError => AllocError end).

Definition rewind (n : nat) (f : LinearFifo) : option LinearFifo :=
  w ← writable_length f;
  debug_assert (n <=? w);;
  d ← usize_sub (buf_len f) n;
  head' ← wrap_index (head f + d) (buf_len f);
  Some (mkFifo (buf f) head' (count f + n)).

Definition unget (src : list T) (f : LinearFifo) : option (LinearFifo * Result unit) :=
  '(f, res) ← ensure_unused_capacity (length src) f;
  match res with
  | AllocError => Some (f, AllocError)
  | Ok _ =>
      f ← rewind (length src) f;
      r ← readable_slice 0 f;
      let slice_len := r.2 - r.1 in
      let n := Nat.min slice_len (length src) in
      let f := write_at r.1 (Some <$> take n src) f in
      f ← (if slice_len <? length src then
             r2 ← readable_slice slice_len f;
             (* [slice2\[..src.len() - slice_len\]] *)
             debug_assert (length src - slice_len <=? r2.2 - r2.1);;
             Some (write_at r2.1 (Some <$> drop slice_len src) f)
           else Some f);
      Some (f, Ok tt)
  end.

Definition peek_index (offset : nat) (f : LinearFifo) : option nat :=
  debug_assert (offset <? count f);;
  wrap_index (head f + offset) (buf_len f).
Definition peek_item (offset : nat) (f : LinearFifo) : option (option T) := i ← peek_index offset f; buf f !! i.

(** [*fifo.peek_item_mut(offset) = item] *)
Definition peek_item_mut (offset : nat) (item : T) (f : LinearFifo) : option LinearFifo :=
  i ← peek_index offset f;
  debug_assert (i <? buf_len f);;
  Some (write_at i [Some item] f).

Definition ordered_remove_item (offset : nat) (f : LinearFifo) : option LinearFifo :=
  if offset =? 0 then discard 1 f
  else
    debug_assert (offset <? count f);;
    room ← usize_sub (buf_len f) (head f);
    f ← (if count f <=? room then
           r ← range f (head f + offset) (buf_len f);
           Some (shift_down_one r f)
         else
           index ← wrap_index (head f + offset) (buf_len f);
           wrap_len ← usize_sub (head f + count f) (buf_len f);
           if index <? head f then
             r ← range f index wrap_len;
             Some (shift_down_one r f)
           else
             wrap ← buf f !! 0;
             r ← range f index (buf_len f);
             last ← usize_sub (buf_len f) 1;
             let f := write_at last [wrap] (shift_down_one r f) in
             r ← range f 0 wrap_len;
             Some (shift_down_one r f));
    count' ← usize_sub (count f) 1;
    Some (set_count count' f).
End fifo.
Arguments LinearFifo : clear implicits.
