(* ===== verification/LinearFifoFacts.v ===== *)
(** * What [LinearFifo] promises: a queue of items

    The ring represents the list of its items, front first. Every operation does
    on the ring what the same operation does on the list. *)

From S2P Require Import Prelude LinearFifo.

#[local] Open Scope nat_scope.

Section facts.
Context {T : Type} `{B : LinearFifoBuffer} (size_of : Z).
Implicit Types (f : LinearFifo T) (l : list T).

(** The slot of the [i]-th item. *)
Definition slot f (i : nat) : nat := if head f + i <? buf_len f then head f + i else head f + i - buf_len f.

Record fifo_wf f : Prop := {
  wf_count : count f ≤ buf_len f;
  wf_head : head f < buf_len f ∨ buf_len f = 0 ∧ head f = 0;
  wf_kind : buf_len f = 0 → DYNAMIC = true;
  wf_dynamic : DYNAMIC = true → POWERS_OF_TWO = true;
  wf_powers : POWERS_OF_TWO = true → 0 < buf_len f → ∃ k, buf_len f = 2 ^ k;
}.

Record represents f l : Prop := {
  rep_wf : fifo_wf f;
  rep_count : count f = length l;
  rep_items : ∀ i x, l !! i = Some x → buf f !! slot f i = Some (Some x);
}.

(** ** Slots and slices *)

Lemma wrap_index_spec f i : fifo_wf f → 0 < buf_len f → i < 2 * buf_len f →
  wrap_index i (buf_len f) = Some (if i <? buf_len f then i else i - buf_len f).
Proof.
  intros [_ _ _ _ Hp] H0 Hi. assert (Hm : i mod buf_len f = if i <? buf_len f then i else i - buf_len f).
  { destruct (Nat.ltb_spec i (buf_len f)); [by apply Nat.mod_small|]. symmetry. apply (Nat.mod_unique _ _ 1); lia. }
  unfold wrap_index, usize_sub, debug_assert. rewrite <- Hm. destruct POWERS_OF_TWO.
  - destruct (Hp eq_refl H0) as [k E]. rewrite E in *. destruct (Nat.leb_spec 1 (2 ^ k)); [|lia]. cbn. f_equal.
    rewrite <- Nat.land_ones, Nat.ones_equiv. f_equal. lia.
  - destruct (Nat.eqb_spec (buf_len f) 0); [lia|done].
Qed.

Lemma lookup_write_at a s f j : a + length s ≤ buf_len f →
  buf (write_at a s f) !! j = if decide (a ≤ j < a + length s) then s !! (j - a) else buf f !! j.
Proof.
  intros H. cbn. unfold buf_len in H. case_decide as E.
  - apply list_lookup_inserts; lia.
  - destruct (decide (j < a)); [by apply list_lookup_inserts_lt|]. apply list_lookup_inserts_ge. lia.
Qed.

Lemma buf_len_write_at a s f : buf_len (write_at a s f) = buf_len f.
Proof. apply length_inserts. Qed.

Lemma lookup_read_range f a b i : read_range f a b !! i = if decide (i < b - a) then buf f !! (a + i) else None.
Proof.
  unfold read_range. case_decide; [rewrite lookup_take_lt, lookup_drop by lia; done|]. apply lookup_take_ge. lia.
Qed.

Lemma length_read_range f a b : a ≤ b → b ≤ buf_len f → length (read_range f a b) = b - a.
Proof. intros. unfold read_range. rewrite length_take, length_drop. unfold buf_len in *. lia. Qed.

Lemma range_ok f a b : a ≤ b → b ≤ buf_len f → range f a b = Some (a, b).
Proof. intros. unfold range. by rewrite !(proj2 (Nat.leb_le _ _)) by done. Qed.

Lemma usize_sub_ok a b : b ≤ a → usize_sub a b = Some (a - b).
Proof. intros. unfold usize_sub. by rewrite (proj2 (Nat.leb_le _ _)). Qed.

(** The items from the front to the end of the buffer, and those after the wrap. *)
Lemma readable_front f : fifo_wf f → readable_slice 0 f = Some (head f, Nat.min (head f + count f) (buf_len f)).
Proof.
  intros [Hc Hh _ _ _]. unfold readable_slice. cbn [Nat.ltb Nat.leb]. rewrite Nat.add_0_r, Nat.sub_0_r.
  destruct (Nat.leb_spec (buf_len f) (head f)); rewrite ?range_ok by lia; [|done]. do 2 f_equal; lia.
Qed.

Lemma readable_rest f : fifo_wf f → buf_len f < head f + count f →
  readable_slice (buf_len f - head f) f = Some (0, head f + count f - buf_len f).
Proof.
  intros [Hc Hh _ _ _] Hw. unfold readable_slice. destruct (Nat.ltb_spec (count f) (buf_len f - head f)); [lia|].
  destruct (Nat.leb_spec (buf_len f) (head f + (buf_len f - head f))); [|lia]. rewrite range_ok by lia. do 2 f_equal; lia.
Qed.

Lemma writable_front f : fifo_wf f →
  writable_slice 0 f = Some (if head f + count f <? buf_len f then (head f + count f, buf_len f) else (head f + count f - buf_len f, head f)).
Proof.
  intros [Hc Hh _ _ _]. unfold writable_slice. rewrite (proj2 (Nat.ltb_ge _ _)), usize_sub_ok by lia. cbn [mbind option_bind]. rewrite Nat.add_0_r.
  destruct (Nat.ltb_spec (head f + count f) (buf_len f)); [by rewrite range_ok by lia|].
  rewrite usize_sub_ok by lia. cbn [mbind option_bind]. rewrite range_ok by lia. do 2 f_equal; lia.
Qed.

(** A ring with the same shape that has the items where they were. *)
Lemma represents_same f f' l :
  represents f l → fifo_wf f' → buf_len f' = buf_len f → head f' = head f → count f' = count f →
  (∀ i, i < length l → buf f' !! slot f i = buf f !! slot f i) → represents f' l.
Proof.
  intros [Hw Hc Hi] Hw' Hl Hh Hn Hb. split; [done|congruence|]. intros i x Hx. unfold slot. rewrite Hl, Hh. fold (slot f i).
  rewrite Hb; [by apply Hi|]. by eapply lookup_lt_Some.
Qed.
End facts.

(** Arithmetic about slots. *)
Ltac slots :=
  unfold slot in *; cbn [head count buf_len buf] in *;
  repeat match goal with
  | |- context [?a <? ?b] => destruct (Nat.ltb_spec a b)
  | |- context [?a <=? ?b] => destruct (Nat.leb_spec a b)
  | |- context [decide _] => case_decide
  end; try lia; try done.

Section operations.
Context {T : Type} `{B : LinearFifoBuffer} (size_of : Z).
Implicit Types (f : LinearFifo T) (l : list T).

(** ** Discarding *)

Lemma poison_spec f a b n : a ≤ b → b ≤ buf_len f → n ≤ b - a → poison (a, b) n f = Some (write_at a (replicate n None) f).
Proof. intros. unfold poison, debug_assert. cbn. by rewrite (proj2 (Nat.leb_le _ _)). Qed.

(** What the first part of [discard] leaves: the slots of the other items are not touched. *)
Lemma discard_poisons f l n : represents f l → n ≤ length l → ∃ b,
  (r ← readable_slice 0 f;
   let slice_len := r.2 - r.1 in
   if n <=? slice_len then poison r n f
   else f ← poison r slice_len f; r ← readable_slice slice_len f; poison r (n - slice_len) f) = Some (set_buf b f)
  ∧ length b = buf_len f ∧ ∀ i, n ≤ i < length l → b !! slot f i = buf f !! slot f i.
Proof.
  intros [Hw Hc _] Hn. pose proof Hw as [Hcl Hh _ _ _]. rewrite readable_front by done. cbn [mbind option_bind fst snd].
  destruct (Nat.leb_spec n (Nat.min (head f + count f) (buf_len f) - head f)) as [Hle|Hgt].
  - rewrite poison_spec by lia. eexists. split; [reflexivity|]. split; [apply length_inserts|].
    intros i Hi. change (list_inserts _ _ _) with (buf (write_at (head f) (replicate n None) f)).
    rewrite lookup_write_at; rewrite length_replicate; slots.
  - rewrite poison_spec by lia. cbn [mbind option_bind].
    set (k := Nat.min _ _ - head f) in *. assert (Ek : k = buf_len f - head f) by lia. clearbody k. subst k.
    set (f1 := write_at _ _ f). assert (Hf1 : buf_len f1 = buf_len f) by apply buf_len_write_at.
    assert (Hw1 : fifo_wf f1) by (destruct Hw; split; by rewrite ?Hf1). rewrite <- Hf1. change (head f) with (head f1).
    rewrite readable_rest by (done || (rewrite Hf1; cbn; lia)). cbn [mbind option_bind]. rewrite poison_spec by (rewrite ?Hf1; cbn; lia).
    eexists. split; [reflexivity|]. split; [by rewrite length_inserts|].
    intros i Hi. change (list_inserts 0 _ _) with (buf (write_at 0 (replicate (n - (buf_len f1 - head f1)) None) f1)).
    rewrite lookup_write_at; rewrite length_replicate; [|rewrite Hf1; cbn; lia].
    pose proof (lookup_write_at (head f) (replicate (buf_len f - head f) None) f (slot f i)) as Hb1. fold f1 in Hb1.
    rewrite length_replicate in Hb1. rewrite Hb1, Hf1 by lia. change (head f1) with (head f). slots.
Qed.

Lemma discard_spec f l n : represents f l → n ≤ length l →
  ∃ f', discard n f = Some f' ∧ represents f' (drop n l) ∧ buf_len f' = buf_len f.
Proof.
  intros Hr Hn. pose proof Hr as [Hw Hc Hi]. pose proof Hw as [Hcl Hh Hk Hd Hp].
  destruct (discard_poisons f l n Hr Hn) as (b & Hb & Hlen & Hsame). unfold discard, debug_assert. rewrite (proj2 (Nat.leb_le n (count f))) by lia.
  cbn [mbind option_bind]. destruct (readable_slice 0 f) as [r|]; [|done]. cbn [mbind option_bind] in *. cbn zeta in *. rewrite Hb.
  cbn [mbind option_bind set_buf count head]. change (buf_len (set_buf b f)) with (length b). rewrite Hlen.
  set (h := if POWERS_OF_TWO then _ else _).
  assert (Eh : h = Some (if buf_len f =? 0 then 0 else if head f + n <? buf_len f then head f + n else head f + n - buf_len f)).
  { unfold h. destruct (Nat.eqb_spec (buf_len f) 0) as [E|E].
    - rewrite (Hd (Hk E)). do 2 f_equal. lia.
    - rewrite <- (wrap_index_spec f) by (done || lia). unfold wrap_index. rewrite usize_sub_ok by lia. unfold debug_assert.
      rewrite (proj2 (Nat.eqb_neq _ _) E). done. }
  rewrite Eh. clear h Eh. cbn [mbind option_bind]. rewrite usize_sub_ok by lia. cbn [mbind option_bind].
  set (h := if buf_len f =? 0 then _ else _). cbn [set_buf buf]. eexists. split; [reflexivity|]. split; [|exact Hlen].
  assert (Hh' : h < buf_len f ∨ buf_len f = 0 ∧ h = 0) by (unfold h; destruct (Nat.eqb_spec (buf_len f) 0); [lia|slots]).
  split; [split|..]; cbn [count head]; try (change (buf_len (mkFifo b _ _)) with (length b); rewrite Hlen); try done; try lia.
  - rewrite length_drop. lia.
  - intros i x Hx. rewrite lookup_drop in Hx. pose proof (lookup_lt_Some _ _ _ Hx). specialize (Hi _ _ Hx). rewrite <- Hsame in Hi by lia. cbn [buf].
    rewrite <- Hi. f_equal. unfold slot, h. cbn [head]. change (buf_len (mkFifo b _ _)) with (length b). rewrite Hlen.
    destruct (Nat.eqb_spec (buf_len f) 0); slots.
Qed.
(** ** Reading *)

Lemma read_item_spec f l : represents f l →
  match l with
  | [] => read_item f = Some (f, None)
  | x :: l => ∃ f', read_item f = Some (f', Some (Some x)) ∧ represents f' l ∧ buf_len f' = buf_len f
  end.
Proof.
  intros Hr. pose proof Hr as [Hw Hc Hi]. unfold read_item. rewrite Hc. destruct l as [|x l]; [done|]. cbn [length Nat.eqb].
  specialize (Hi 0 x eq_refl). assert (slot f 0 = head f) as E.
  { pose proof (lookup_lt_Some _ _ _ Hi) as Hlt. fold (buf_len f) in Hlt. destruct Hw as [Hcl Hh _ _ _]. cbn in Hc. slots. }
  rewrite E in Hi. rewrite Hi. cbn [mbind option_bind].
  destruct (discard_spec f (x :: l) 1 Hr) as (f' & -> & Hr' & Hl); [cbn; lia|]. by exists f'.
Qed.

Lemma read_front f l n : represents f l → n ≤ Nat.min (head f + count f) (buf_len f) - head f →
  read_range f (head f) (head f + n) = Some <$> take n l.
Proof.
  intros [Hw Hc Hi] Hn. apply list_eq. intros i. rewrite lookup_read_range, list_lookup_fmap. case_decide as Hlt.
  - rewrite lookup_take_lt by lia. destruct (lookup_lt_is_Some_2 l i) as [x Hx]; [lia|].
    rewrite Hx. cbn [fmap option_fmap option_map]. rewrite <- (Hi _ _ Hx). f_equal. slots.
  - rewrite lookup_take_ge by lia. done.
Qed.

Lemma read_loop_spec fuel left f l : represents f l → left ≤ fuel →
  ∃ f', read_loop fuel left f = Some (f', Some <$> take left l) ∧ represents f' (drop left l) ∧ buf_len f' = buf_len f.
Proof.
  revert left f l. induction fuel as [|fuel IH]; intros left f l Hr Hle; cbn [read_loop]; destruct (Nat.eqb_spec left 0) as [->|E]; [|lia| |].
  - exists f. by rewrite take_0, drop_0.
  - exists f. by rewrite take_0, drop_0.
  - rewrite readable_front by apply Hr. cbn [mbind option_bind fst snd]. pose proof Hr as [[Hcl Hh _ _ _] Hc _].
    destruct (Nat.eqb_spec (Nat.min (head f + count f) (buf_len f) - head f) 0) as [E0|E0].
    + destruct l as [|x l]; [|cbn [length] in Hc; lia]. exists f. by rewrite take_nil, drop_nil.
    + set (n := Nat.min _ left). rewrite (read_front f l n Hr) by lia. destruct (discard_spec f l n Hr) as (f1 & -> & Hr1 & Hl1); [lia|].
      cbn [mbind option_bind]. destruct (IH (left - n) f1 (drop n l) Hr1) as (f2 & -> & Hr2 & Hl2); [lia|]. cbn [mbind option_bind].
      exists f2. rewrite drop_drop in Hr2. replace (n + (left - n)) with left in Hr2 by lia. split; [|split; [done|congruence]].
      rewrite <- fmap_app, take_take_drop. do 4 f_equal. lia.
Qed.

Lemma read_spec n f l : represents f l →
  ∃ f', read n f = Some (f', Some <$> take n l) ∧ represents f' (drop n l) ∧ buf_len f' = buf_len f.
Proof. intros. by apply read_loop_spec. Qed.

(** ** Room *)

Lemma realign_spec f l : represents f l →
  ∃ f', realign f = Some f' ∧ represents f' l ∧ buf_len f' = buf_len f ∧ head f' = 0.
Proof.
  intros Hr. pose proof Hr as [Hw Hc Hi]. pose proof Hw as [Hcl Hh Hk Hd Hp]. unfold realign. rewrite usize_sub_ok by lia. cbn [mbind option_bind].
  match goal with |- context [range ?g _ _] => set (f1 := g) end. assert (Hf1 : buf_len f1 = buf_len f ∧ head f1 = 0 ∧ count f1 = count f ∧
    ∀ i x, l !! i = Some x → buf f1 !! i = Some (Some x)).
  { unfold f1. destruct (Nat.leb_spec (count f) (buf_len f - head f)) as [Hle|Hgt].
    - split_and!; [apply buf_len_write_at|done..|]. intros i x Hx. pose proof (lookup_lt_Some _ _ _ Hx). cbn [set_head buf].
      rewrite lookup_write_at; rewrite length_read_range by lia; [|lia]. rewrite decide_True by lia.
      rewrite lookup_read_range, decide_True by lia. rewrite <- (Hi _ _ Hx). f_equal. slots.
    - split_and!; [|done..|].
      + unfold buf_len. cbn. rewrite length_app, length_take, length_drop. fold (buf_len f). lia.
      + intros i x Hx. pose proof (lookup_lt_Some _ _ _ Hx). cbn [set_head set_buf buf]. rewrite <- (Hi _ _ Hx). unfold slot.
        destruct (Nat.ltb_spec (head f + i) (buf_len f)).
        * rewrite lookup_app_l by (rewrite length_drop; fold (buf_len f); lia). apply lookup_drop.
        * rewrite lookup_app_r by (rewrite length_drop; fold (buf_len f); lia). rewrite length_drop. fold (buf_len f).
          rewrite lookup_take_lt by lia. f_equal. lia. }
  clearbody f1. destruct Hf1 as (Hl1 & Hh1 & Hc1 & Hi1). rewrite range_ok by lia. cbn [mbind option_bind fst snd].
  eexists. split; [reflexivity|]. split_and!; [|by rewrite buf_len_write_at|done]. split; [split|..]; rewrite ?buf_len_write_at, ?Hl1; try done; cbn [write_at set_buf head count]; try lia.
  intros i x Hx. pose proof (lookup_lt_Some _ _ _ Hx). rewrite lookup_write_at; rewrite length_replicate; [|lia].
  unfold slot. rewrite buf_len_write_at. cbn [write_at set_buf head]. rewrite Hh1, Hl1, (proj2 (Nat.ltb_lt _ _)), decide_False by lia. by apply Hi1.
Qed.

(** A power of two that is enough, and less than twice what is asked for. *)
Lemma next_power_enough n : 0 < n → n ≤ 2 ^ Nat.log2_up n ∧ 2 ^ Nat.log2_up n ≤ 2 * n.
Proof.
  intros H. destruct (decide (n = 1)) as [->|]; [cbn; lia|]. pose proof (Nat.log2_up_spec n ltac:(lia)) as [Hl Hu]. split; [done|].
  rewrite <- (Nat.lt_succ_pred 0 (Nat.log2_up n)) by (apply Nat.log2_up_pos; lia). rewrite Nat.pow_succ_r'. lia.
Qed.

Lemma checked_next_power_ok n : 0 < n → (2 * Z.of_nat n < 2 ^ 63)%Z → checked_next_power_of_two n = Some (2 ^ Nat.log2_up n).
Proof.
  intros H0 H. unfold checked_next_power_of_two. rewrite (proj2 (Z.ltb_lt _ _)); [done|].
  destruct (decide (n = 1)) as [->|]; [done|]. apply Z.pow_lt_mono_r; [lia..|]. apply Z.le_lt_trans with 63%Z; [|lia].
  apply Z.log2_up_le_pow2; lia.
Qed.

(** There is room for [n] more, or it can be made. *)
Definition has_room (n : nat) f : Prop :=
  count f + n ≤ buf_len f ∨ DYNAMIC = true ∧ (2 * Z.of_nat (count f + n) * size_of < 2 ^ 63)%Z.

Lemma fifo_grow_spec size f l : represents f l → DYNAMIC = true → buf_len f < size → (1 <= size_of)%Z → (2 * Z.of_nat size * size_of < 2 ^ 63)%Z →
  ∃ f', ensure_total_capacity size_of size f = Some (f', Ok tt) ∧ represents f' l ∧ size ≤ buf_len f'.
Proof.
  intros Hr Hdyn Hlt H1 Hmem. destruct (realign_spec f l Hr) as (f1 & E1 & [[Hcl _ _ Hd _] Hc Hi] & Hl1 & Hh1).
  unfold ensure_total_capacity. rewrite (proj2 (Nat.leb_gt _ _)) by done. rewrite Hdyn, (Hd Hdyn), E1. cbn [mbind option_bind].
  destruct (next_power_enough size) as [Hge Hle]; [lia|]. assert (Z.of_nat (2 ^ Nat.log2_up size) <= 2 * Z.of_nat size)%Z by lia.
  rewrite checked_next_power_ok by nia. unfold new_uninit_slice, debug_assert. rewrite (proj2 (Z.ltb_lt _ _)) by nia. cbn [mbind option_bind].
  set (m := 2 ^ Nat.log2_up size) in *. set (f2 := if 0 <? _ then _ else _).
  assert (Hf2 : buf_len f2 = m ∧ count f2 = count f1 ∧ ∀ i x, l !! i = Some x → buf f2 !! i = Some (Some x)).
  { unfold f2. cbn [set_buf count]. destruct (Nat.ltb_spec 0 (count f1)) as [Hpos|H0].
    - split_and!; [rewrite buf_len_write_at; unfold buf_len; cbn; apply length_replicate|done|].
      intros i x Hx. pose proof (lookup_lt_Some _ _ _ Hx). assert (Hlen : length (take (count f1) (buf f1)) = count f1) by (rewrite length_take; unfold buf_len in *; lia).
      rewrite lookup_write_at; rewrite Hlen; [|unfold buf_len at 1; cbn; rewrite length_replicate; unfold buf_len in *; lia].
      rewrite decide_True, lookup_take_lt by lia. rewrite Nat.sub_0_r, <- (Hi _ _ Hx). f_equal. slots.
    - split_and!; [unfold buf_len; cbn; apply length_replicate|done|]. intros i x Hx. pose proof (lookup_lt_Some _ _ _ Hx). lia. }
  clearbody f2. destruct Hf2 as (Hl2 & Hc2 & Hi2). eexists. split; [reflexivity|].
  split; [|cbn; unfold buf_len in *; cbn in *; lia].
  assert (Hlen : buf_len (set_head 0 f2) = m) by done.
  split; [split|..]; rewrite ?Hlen; cbn [set_head head count buf]; try lia; try done.
  - intros _ _. by exists (Nat.log2_up size).
  - intros i x Hx. pose proof (lookup_lt_Some _ _ _ Hx). rewrite <- (Hi2 _ _ Hx). f_equal. unfold slot. rewrite Hlen. cbn [set_head head]. slots.
Qed.

Lemma reserve_spec n f l : represents f l → (1 <= size_of)%Z → has_room n f →
  ∃ f', ensure_unused_capacity size_of n f = Some (f', Ok tt) ∧ represents f' l ∧ length l + n ≤ buf_len f'
    ∧ (DYNAMIC = false → f' = f) ∧ (count f + n ≤ buf_len f → f' = f).
Proof.
  intros Hr H1 Hroom. pose proof Hr as [[Hcl _ _ _ _] Hc _]. unfold ensure_unused_capacity, writable_length. rewrite usize_sub_ok by done. cbn [mbind option_bind].
  destruct (Nat.leb_spec n (buf_len f - count f)) as [Hle|Hgt]; [exists f; split_and!; try done; lia|].
  destruct Hroom as [?|[Hdyn Hmem]]; [lia|]. unfold checked_add. rewrite (proj2 (Z.ltb_lt _ _)) by nia.
  destruct (fifo_grow_spec (count f + n) f l Hr Hdyn) as (f' & -> & Hr' & Hl'); [lia|done|done|].
  exists f'. rewrite Hc in Hl'. split_and!; try done; [by rewrite Hdyn|lia].
Qed.

(** A buffer that does not grow is left as it is. *)
Lemma reserve_full n f l : represents f l → DYNAMIC = false → buf_len f < length l + n →
  ensure_unused_capacity size_of n f = Some (f, AllocError).
Proof.
  intros [[Hcl _ _ _ _] Hc _] Hdyn Hlt. unfold ensure_unused_capacity, writable_length, ensure_total_capacity. rewrite usize_sub_ok by done. cbn [mbind option_bind].
  rewrite (proj2 (Nat.leb_gt _ _)) by lia. destruct (checked_add _ _) as [k|] eqn:E; [|done].
  unfold checked_add in E. case_match; [|done]. injection E as <-. rewrite (proj2 (Nat.leb_gt _ _)) by lia. by rewrite Hdyn.
Qed.

(** ** Writing *)

(** Items that are written behind the last one. *)
Lemma append_at f l items : represents f l →
  let a := if head f + count f <? buf_len f then head f + count f else head f + count f - buf_len f in
  let b := if head f + count f <? buf_len f then buf_len f else head f in
  length items ≤ b - a →
  ∃ f', update (length items) (write_at a (Some <$> items) f) = Some f' ∧ represents f' (l ++ items) ∧ buf_len f' = buf_len f.
Proof.
  intros [Hw Hc Hi] a b Hle. pose proof Hw as [Hcl Hh Hk Hd Hp]. unfold update, debug_assert. rewrite buf_len_write_at. cbn [write_at set_buf count].
  assert (Hfit : count f + length items ≤ buf_len f) by (unfold a, b in Hle; destruct (Nat.ltb_spec (head f + count f) (buf_len f)); lia).
  rewrite (proj2 (Nat.leb_le _ _)) by done. cbn [mbind option_bind]. eexists. split; [reflexivity|].
  set (f' := set_count _ _). assert (Hl : buf_len f' = buf_len f) by apply (buf_len_write_at a).
  split; [|done]. split; [split|..]; rewrite ?Hl; try done; [unfold f'; cbn; rewrite length_app; lia|].
  intros i x Hx. pose proof (lookup_lt_Some _ _ _ Hx) as Hlt. rewrite length_app in Hlt.
  replace (slot f' i) with (slot f i) by (unfold slot; by rewrite Hl). change (buf f') with (buf (write_at a (Some <$> items) f)).
  rewrite lookup_write_at; rewrite length_fmap; [|unfold a, b in *; destruct (Nat.ltb_spec (head f + count f) (buf_len f)); lia].
  destruct (decide (i < length l)) as [Hil|Hil].
  - rewrite lookup_app_l in Hx by done. rewrite <- (Hi _ _ Hx). rewrite decide_False; [done|].
    unfold a, b, slot in *. destruct (Nat.ltb_spec (head f + count f) (buf_len f)), (Nat.ltb_spec (head f + i) (buf_len f)); lia.
  - rewrite lookup_app_r in Hx by lia. assert (slot f i = a + (i - length l)) as ->.
    { unfold a, b, slot in *. destruct (Nat.ltb_spec (head f + count f) (buf_len f)), (Nat.ltb_spec (head f + i) (buf_len f)); lia. }
    rewrite decide_True by lia. rewrite list_lookup_fmap. replace (a + (i - length l) - a) with (i - length l) by lia. by rewrite Hx.
Qed.

Lemma write_loop_spec fuel src f l : represents f l → length src ≤ fuel → length l + length src ≤ buf_len f →
  ∃ f', write_loop fuel src f = Some f' ∧ represents f' (l ++ src) ∧ buf_len f' = buf_len f.
Proof.
  revert src f l. induction fuel as [|fuel IH]; intros src f l Hr Hle Hfit; cbn [write_loop];
    (destruct src as [|x src]; [exists f; by rewrite app_nil_r|]); [cbn in Hle; lia|].
  pose proof Hr as [Hw Hc _]. pose proof Hw as [Hcl Hh _ _ _]. rewrite writable_front by done. cbn [mbind option_bind].
  set (src' := x :: src) in *. assert (Hpos : 1 ≤ length src') by (unfold src'; cbn; lia). clearbody src'.
  pose proof (append_at f l) as Happ. cbn zeta in Happ. revert Happ. destruct (Nat.ltb_spec (head f + count f) (buf_len f)) as [Ht|Ht]; cbn [fst snd];
    intros Happ; unfold debug_assert; (rewrite (proj2 (Nat.eqb_neq _ 0)) by lia); cbn [negb mbind option_bind];
    match goal with |- context [Nat.min ?a ?b] => set (n := Nat.min a b) end;
    (destruct (Happ (take n src') Hr) as (f1 & E1 & Hr1 & Hl1); [rewrite length_take; lia|]);
    rewrite length_take in E1; replace (Nat.min n (length src')) with n in E1 by lia; rewrite E1; cbn [mbind option_bind];
    (destruct (IH (drop n src') f1 _ Hr1) as (f2 & E2 & Hr2 & Hl2); [rewrite length_drop; lia|rewrite length_app, length_take, length_drop; lia|]);
    exists f2; rewrite <- app_assoc, take_drop in Hr2; (split; [done|split; [done|congruence]]).
Qed.

Lemma write_assume_capacity_spec src f l : represents f l → length l + length src ≤ buf_len f →
  ∃ f', write_assume_capacity src f = Some f' ∧ represents f' (l ++ src) ∧ buf_len f' = buf_len f.
Proof.
  intros Hr Hfit. pose proof Hr as [[Hcl _ _ _ _] Hc _]. unfold write_assume_capacity, writable_length, debug_assert. rewrite usize_sub_ok by done.
  cbn [mbind option_bind]. rewrite (proj2 (Nat.leb_le _ _)) by lia. by apply write_loop_spec.
Qed.

Lemma write_item_assume_capacity_spec x f l : represents f l → length l < buf_len f →
  ∃ f', write_item_assume_capacity x f = Some f' ∧ represents f' (l ++ [x]) ∧ buf_len f' = buf_len f.
Proof.
  intros Hr Hfit. pose proof Hr as [Hw Hc _]. pose proof Hw as [Hcl Hh _ _ _]. unfold write_item_assume_capacity, debug_assert.
  rewrite (wrap_index_spec f) by (done || lia). cbn [mbind option_bind].
  assert (Ht : (if head f + count f <? buf_len f then head f + count f else head f + count f - buf_len f) < buf_len f) by slots.
  rewrite (proj2 (Nat.ltb_lt _ _) Ht). cbn [mbind option_bind]. apply (append_at f l [x] Hr). cbn [length]. slots.
Qed.

Lemma write_spec src f l : represents f l → (1 <= size_of)%Z → has_room (length src) f →
  ∃ f', write size_of src f = Some (f', Ok tt) ∧ represents f' (l ++ src) ∧ (DYNAMIC = false → buf_len f' = buf_len f).
Proof.
  intros Hr H1 Hroom. destruct (reserve_spec _ _ _ Hr H1 Hroom) as (f1 & E1 & Hr1 & Hl1 & Hs1 & _). unfold write. rewrite E1. cbn [mbind option_bind].
  destruct (write_assume_capacity_spec src f1 l Hr1 Hl1) as (f2 & -> & Hr2 & Hl2). exists f2. split_and!; try done. intros Hd. by rewrite Hl2, (Hs1 Hd).
Qed.

Lemma write_item_spec x f l : represents f l → (1 <= size_of)%Z → has_room 1 f →
  ∃ f', write_item size_of x f = Some (f', Ok tt) ∧ represents f' (l ++ [x]) ∧ (DYNAMIC = false → buf_len f' = buf_len f).
Proof.
  intros Hr H1 Hroom. destruct (reserve_spec _ _ _ Hr H1 Hroom) as (f1 & E1 & Hr1 & Hl1 & Hs1 & _). unfold write_item. rewrite E1. cbn [mbind option_bind].
  destruct (write_item_assume_capacity_spec x f1 l Hr1) as (f2 & -> & Hr2 & Hl2); [lia|]. exists f2. split_and!; try done. intros Hd. by rewrite Hl2, (Hs1 Hd).
Qed.

(** What [writable_with_size] hands out is enough, and can be filled in part. *)
Lemma writable_with_size_spec n f l : represents f l → (1 <= size_of)%Z → has_room n f →
  ∃ f' a, writable_with_size size_of n f = Some (f', Ok (a, a + n)) ∧ represents f' l
    ∧ ∀ items, length items ≤ n → ∃ f2, update (length items) (write_at a (Some <$> items) f') = Some f2
        ∧ represents f2 (l ++ items) ∧ (DYNAMIC = false → buf_len f2 = buf_len f).
Proof.
  intros Hr H1 Hroom. destruct (reserve_spec _ _ _ Hr H1 Hroom) as (f1 & E1 & Hr1 & Hl1 & Hs1 & _). unfold writable_with_size. rewrite E1. cbn [mbind option_bind].
  assert (Hfin : ∀ g, represents g l → buf_len g = buf_len f1 → n ≤ (if head g + count g <? buf_len g then buf_len g - (head g + count g) else head g - (head g + count g - buf_len g)) →
    ∃ f' a, (r ← writable_slice 0 g; debug_assert (n <=? r.2 - r.1);; Some (g, Ok (r.1, r.1 + n))) = Some (f', Ok (a, a + n)) ∧ represents f' l
      ∧ ∀ items, length items ≤ n → ∃ f2, update (length items) (write_at a (Some <$> items) f') = Some f2
          ∧ represents f2 (l ++ items) ∧ (DYNAMIC = false → buf_len f2 = buf_len f)).
  { intros g Hg Hgl Hn. rewrite writable_front by apply Hg. cbn [mbind option_bind]. pose proof (append_at g l) as Happ. cbn zeta in Happ. revert Hn Happ.
    unfold debug_assert. destruct (Nat.ltb_spec (head g + count g) (buf_len g)); cbn [fst snd]; intros Hn Happ;
      rewrite (proj2 (Nat.leb_le _ _) Hn); cbn [mbind option_bind]; do 2 eexists; (split; [reflexivity|]); (split; [done|]);
      intros items Hi; (destruct (Happ items Hg) as (f2 & E2 & Hr2 & Hl2); [lia|]); exists f2; split_and!; try done;
      intros Hd; by rewrite Hl2, Hgl, (Hs1 Hd). }
  rewrite writable_front by apply Hr1. cbn [mbind option_bind]. pose proof Hr1 as [[Hcl Hh _ _ _] Hc _].
  match goal with |- context [?k <? n] => destruct (Nat.ltb_spec k n) as [Hlt|Hge] end.
  - destruct (realign_spec f1 l Hr1) as (f2 & -> & Hr2 & Hl2 & Hh2). cbn [mbind option_bind]. apply Hfin; [done|done|].
    pose proof (rep_count _ _ Hr2) as Hc2. rewrite Hh2, Hl2. cbn [plus]. destruct (Nat.ltb_spec (count f2) (buf_len f1)); lia.
  - cbn [mbind option_bind]. apply Hfin; [done|done|]. destruct (head f1 + count f1 <? buf_len f1); exact Hge.
Qed.

(** ** Putting back *)

Lemma rewind_spec n f l : represents f l → 0 < buf_len f → length l + n ≤ buf_len f →
  ∃ f', rewind n f = Some f' ∧ fifo_wf f' ∧ buf f' = buf f ∧ count f' = length l + n ∧ (∀ i, i < length l → slot f' (n + i) = slot f i).
Proof.
  intros [Hw Hc Hi] H0 Hfit. pose proof Hw as [Hcl Hh Hk Hd Hp]. unfold rewind, writable_length, debug_assert.
  rewrite !usize_sub_ok by lia. cbn [mbind option_bind]. rewrite (proj2 (Nat.leb_le _ _)) by lia. cbn [mbind option_bind].
  rewrite (wrap_index_spec f) by (done || lia). cbn [mbind option_bind]. eexists. split; [reflexivity|].
  set (f' := mkFifo _ _ _). assert (Hl : buf_len f' = buf_len f) by done. split_and!; [|done|cbn; lia|].
  - split; rewrite ?Hl; try done; unfold f'; cbn [head count]; [lia|]. left. slots.
  - intros i Hlt. unfold slot. rewrite Hl. unfold f'. cbn [head]. slots.
Qed.

Lemma fill_front f src : fifo_wf f → length src ≤ count f →
  ∃ f', (r ← readable_slice 0 f;
         let slice_len := r.2 - r.1 in
         let n := Nat.min slice_len (length src) in
         let f := write_at r.1 (Some <$> take n src) f in
         if slice_len <? length src then
           r2 ← readable_slice slice_len f;
           debug_assert (length src - slice_len <=? r2.2 - r2.1);;
           Some (write_at r2.1 (Some <$> drop slice_len src) f)
         else Some f) = Some f'
    ∧ buf_len f' = buf_len f ∧ head f' = head f ∧ count f' = count f
    ∧ (∀ i x, src !! i = Some x → buf f' !! slot f i = Some (Some x))
    ∧ (∀ i, length src ≤ i < count f → buf f' !! slot f i = buf f !! slot f i).
Proof.
  intros Hw Hle. pose proof Hw as [Hcl Hh Hk Hd Hp]. rewrite readable_front by done. cbn [mbind option_bind fst snd].
  set (k := Nat.min _ _ - head f). set (n := Nat.min k (length src)). set (f1 := write_at (head f) (Some <$> take n src) f).
  assert (Hb1 : ∀ j, buf f1 !! j = if decide (head f ≤ j < head f + n) then Some <$> src !! (j - head f) else buf f !! j).
  { intros j. unfold f1. rewrite lookup_write_at; rewrite length_fmap, length_take; [|lia]. replace (Nat.min n (length src)) with n by lia.
    case_decide; [|done]. by rewrite list_lookup_fmap, lookup_take_lt by lia. }
  assert (Hl1 : buf_len f1 = buf_len f) by apply buf_len_write_at. destruct (Nat.ltb_spec k (length src)) as [Hlt|Hge].
  - assert (Hw1 : fifo_wf f1) by (split; rewrite ?Hl1; done). assert (Ek : k = buf_len f1 - head f1) by (rewrite Hl1; change (head f1) with (head f); lia).
    rewrite Ek, readable_rest by (done || (rewrite Hl1; change (head f1) with (head f); change (count f1) with (count f); lia)).
    cbn [mbind option_bind fst snd]. rewrite <- Ek, Hl1. change (head f1) with (head f). change (count f1) with (count f).
    unfold debug_assert. rewrite (proj2 (Nat.leb_le _ _)) by lia. cbn [mbind option_bind]. eexists. split; [reflexivity|].
    set (f2 := write_at 0 _ f1). split_and!; [by unfold f2; rewrite buf_len_write_at|done..| |].
    + intros i x Hx. pose proof (lookup_lt_Some _ _ _ Hx). unfold f2. rewrite lookup_write_at; rewrite length_fmap, length_drop; [|rewrite Hl1; lia].
      rewrite Hb1. unfold slot. destruct (Nat.ltb_spec (head f + i) (buf_len f)).
      * rewrite decide_False, decide_True by lia. replace (head f + i - head f) with i by lia. by rewrite Hx.
      * rewrite decide_True by lia. rewrite list_lookup_fmap, lookup_drop. replace (k + _) with i by lia. by rewrite Hx.
    + intros i Hi. unfold f2. rewrite lookup_write_at; rewrite length_fmap, length_drop; [|rewrite Hl1; lia].
      rewrite Hb1. unfold slot. destruct (Nat.ltb_spec (head f + i) (buf_len f)); rewrite !decide_False by lia; done.
  - cbn [mbind option_bind]. exists f1. split_and!; [done..| |].
    + intros i x Hx. pose proof (lookup_lt_Some _ _ _ Hx). rewrite Hb1. unfold slot. rewrite (proj2 (Nat.ltb_lt _ _)), decide_True by lia.
      replace (head f + i - head f) with i by lia. by rewrite Hx.
    + intros i Hi. rewrite Hb1. unfold slot. destruct (Nat.ltb_spec (head f + i) (buf_len f)); rewrite decide_False by lia; done.
Qed.

Lemma unget_spec src f l : represents f l → (1 <= size_of)%Z → has_room (length src) f → src ≠ [] ∨ 0 < buf_len f →
  ∃ f', unget size_of src f = Some (f', Ok tt) ∧ represents f' (src ++ l) ∧ (DYNAMIC = false → buf_len f' = buf_len f).
Proof.
  intros Hr H1 Hroom Hne. destruct (reserve_spec _ _ _ Hr H1 Hroom) as (f1 & E1 & Hr1 & Hl1 & Hs1 & Hsame). unfold unget. rewrite E1. cbn [mbind option_bind].
  assert (H0 : 0 < buf_len f1).
  { destruct src; cbn in *; [|lia]. destruct Hne as [|Hp]; [done|]. rewrite Hsame; [done|]. destruct Hr as [[] ? ?]. lia. }
  destruct (rewind_spec _ _ _ Hr1 H0 Hl1) as (f2 & -> & Hw2 & Hb2 & Hc2 & Hs2). cbn [mbind option_bind].
  destruct (fill_front f2 src Hw2) as (f3 & E3 & Hl3 & Hh3 & Hc3 & Hx3 & Hk3); [lia|].
  destruct (readable_slice 0 f2) as [r|]; [|done]. cbn [mbind option_bind] in *. cbn zeta in *. rewrite E3. cbn [mbind option_bind].
  exists f3. split; [done|]. split; [|intros Hd; rewrite Hl3, <- (Hs1 Hd); unfold buf_len; by rewrite Hb2]. assert (Hslot : ∀ i, slot f3 i = slot f2 i) by (intros i; unfold slot; by rewrite Hl3, Hh3).
  split; [destruct Hw2; split; by rewrite ?Hl3, ?Hh3, ?Hc3|rewrite length_app; lia|].
  intros i x Hx. rewrite Hslot. destruct (decide (i < length src)) as [Hlt|Hge].
  - rewrite lookup_app_l in Hx by done. by apply Hx3.
  - rewrite lookup_app_r in Hx by lia. pose proof (lookup_lt_Some _ _ _ Hx). rewrite Hk3 by lia.
    replace i with (length src + (i - length src)) by lia. rewrite Hs2, Hb2 by lia. by apply (rep_items _ _ Hr1).
Qed.

(** ** Items in the middle *)

Lemma peek_index_spec i f l : represents f l → i < length l → peek_index i f = Some (slot f i) ∧ slot f i < buf_len f.
Proof.
  intros [Hw Hc _] Hi. pose proof Hw as [Hcl Hh _ _ _]. unfold peek_index, debug_assert. rewrite (proj2 (Nat.ltb_lt _ _)) by lia.
  cbn [mbind option_bind]. rewrite (wrap_index_spec f) by (done || lia). split; [done|]. slots.
Qed.

Lemma peek_item_spec i x f l : represents f l → l !! i = Some x → peek_item i f = Some (Some x).
Proof.
  intros Hr Hx. destruct (peek_index_spec i f l Hr) as [E _]; [by eapply lookup_lt_Some|]. unfold peek_item. rewrite E. by apply (rep_items _ _ Hr).
Qed.

Lemma slot_inj f i j : fifo_wf f → i < count f → j < count f → slot f i = slot f j → i = j.
Proof.
  intros [Hc Hh _ _ _] Hi Hj. unfold slot. destruct (Nat.ltb_spec (head f + i) (buf_len f)), (Nat.ltb_spec (head f + j) (buf_len f)); lia.
Qed.

Lemma peek_item_mut_spec i x f l : represents f l → i < length l →
  ∃ f', peek_item_mut i x f = Some f' ∧ represents f' (<[i := x]> l) ∧ buf_len f' = buf_len f.
Proof.
  intros Hr Hi. pose proof Hr as [Hw Hc Hx]. destruct (peek_index_spec i f l Hr Hi) as [E Hlt]. unfold peek_item_mut, debug_assert. rewrite E. cbn [mbind option_bind].
  rewrite (proj2 (Nat.ltb_lt _ _)) by done. cbn [mbind option_bind]. eexists. split; [reflexivity|]. split; [|apply buf_len_write_at].
  split; [destruct Hw; split; by rewrite ?buf_len_write_at|by rewrite length_insert|].
  intros j y Hj. assert (slot (write_at (slot f i) [Some x] f) j = slot f j) as -> by (unfold slot; by rewrite buf_len_write_at).
  rewrite lookup_write_at; cbn [length]; [|lia]. pose proof (lookup_lt_Some _ _ _ Hj) as Hjl. rewrite length_insert in Hjl.
  destruct (decide (j = i)) as [->|Hne].
  - rewrite list_lookup_insert_eq in Hj by done. rewrite decide_True, Nat.sub_diag by lia. by injection Hj as ->.
  - rewrite list_lookup_insert_ne in Hj by done. rewrite decide_False; [by apply Hx|]. intros Hs. apply Hne, (slot_inj f); [done|lia..].
Qed.

Lemma shift_down_one_spec a b f : a ≤ b → b ≤ buf_len f →
  let f' := shift_down_one (a, b) f in
  buf_len f' = buf_len f ∧ head f' = head f ∧ count f' = count f
  ∧ ∀ j, buf f' !! j = if decide (a ≤ j ∧ S j < b) then buf f !! S j else buf f !! j.
Proof.
  intros Hab Hb f'. unfold f', shift_down_one. cbn [fst snd]. destruct (Nat.ltb_spec 1 (b - a)) as [Hlt|Hge].
  - split_and!; [apply buf_len_write_at|done..|]. intros j. rewrite lookup_write_at; rewrite length_read_range by lia; [|lia].
    destruct (decide (a ≤ j ∧ S j < b)).
    + rewrite decide_True, lookup_read_range, decide_True by lia. f_equal. lia.
    + rewrite decide_False by lia. done.
  - split_and!; try done. intros j. rewrite decide_False by lia. done.
Qed.

(** The buffer after the removal of an item, slot by slot. *)
Lemma represents_delete f f' l i : represents f l → i < length l →
  buf_len f' = buf_len f → head f' = head f → count f' = count f →
  (∀ j, j < length l → j ≠ length l - 1 → buf f' !! slot f j = buf f !! slot f (if decide (j < i) then j else S j)) →
  represents (set_count (count f - 1) f') (delete i l).
Proof.
  intros [Hw Hc Hx] Hi Hl Hh Hn Hb. assert (Hl' : buf_len (set_count (count f - 1) f') = buf_len f) by done.
  split; [destruct Hw; split; rewrite ?Hl'; cbn [set_count count head]; rewrite ?Hh; try done; lia|rewrite length_delete by (by apply lookup_lt_is_Some_2); cbn; lia|].
  intros j x Hj. pose proof (lookup_lt_Some _ _ _ Hj) as Hjl. rewrite length_delete in Hjl by (by apply lookup_lt_is_Some_2).
  assert (slot (set_count (count f - 1) f') j = slot f j) as -> by (unfold slot; rewrite Hl'; cbn; by rewrite Hh). cbn [set_count buf].
  rewrite Hb by lia. case_decide as Hlt.
  - rewrite list_lookup_delete_lt in Hj by done. by apply Hx.
  - rewrite list_lookup_delete_ge in Hj by lia. by apply Hx.
Qed.

Lemma ordered_remove_item_spec i f l : represents f l → i < length l →
  ∃ f', ordered_remove_item i f = Some f' ∧ represents f' (delete i l) ∧ buf_len f' = buf_len f.
Proof.
  intros Hr Hi. unfold ordered_remove_item. destruct (Nat.eqb_spec i 0) as [->|Hi0].
  { destruct l as [|x l]; [cbn in Hi; lia|]. apply (discard_spec f (x :: l) 1 Hr). cbn; lia. }
  pose proof Hr as [Hw Hc _]. pose proof Hw as [Hcl Hh _ _ _]. unfold debug_assert. rewrite (proj2 (Nat.ltb_lt _ _)), (usize_sub_ok (buf_len f) (head f)) by lia. cbn [mbind option_bind].
  match goal with |- ex (λ f', mbind _ ?e = Some f' ∧ _) => assert (Hmid : ∃ f', e = Some f' ∧ buf_len f' = buf_len f ∧ head f' = head f ∧ count f' = count f ∧
    (∀ j, j < length l → j ≠ length l - 1 → buf f' !! slot f j = buf f !! slot f (if decide (j < i) then j else S j))) end.
  { destruct (Nat.leb_spec (count f) (buf_len f - head f)) as [Hle|Hgt].
    - rewrite range_ok by lia. cbn [mbind option_bind]. eexists. split; [reflexivity|].
      destruct (shift_down_one_spec (head f + i) (buf_len f) f) as (H1 & H2 & H3 & H4); [lia..|]. split_and!; [done..|].
      intros j Hj Hj'. rewrite H4. slots; f_equal; lia.
    - rewrite (wrap_index_spec f) by (done || lia). cbn [mbind option_bind]. rewrite (usize_sub_ok (head f + count f) (buf_len f)) by lia. cbn [mbind option_bind].
      destruct (Nat.ltb_spec (head f + i) (buf_len f)) as [Ht|Ht].
      + rewrite (proj2 (Nat.ltb_ge _ _)) by lia. destruct (lookup_lt_is_Some_2 (buf f) 0) as [w Hw0]; [fold (buf_len f); lia|].
        rewrite Hw0. cbn [mbind option_bind]. rewrite range_ok by lia. cbn [mbind option_bind]. rewrite usize_sub_ok by lia. cbn [mbind option_bind].
        destruct (shift_down_one_spec (head f + i) (buf_len f) f) as (H1 & H2 & H3 & H4); [lia..|]. set (f1 := shift_down_one _ f) in *. clearbody f1.
        set (f2 := write_at _ [w] f1). assert (Hl2 : buf_len f2 = buf_len f) by (unfold f2; by rewrite buf_len_write_at).
        rewrite range_ok by lia. cbn [mbind option_bind]. eexists. split; [reflexivity|].
        destruct (shift_down_one_spec 0 (head f + count f - buf_len f) f2) as (H5 & H6 & H7 & H8); [lia..|].
        split_and!; [congruence|by rewrite H6|by rewrite H7|]. intros j Hj Hj'. rewrite H8. unfold f2. rewrite !lookup_write_at by (cbn; lia). rewrite !H4. cbn [length].
        unfold slot. destruct (Nat.ltb_spec (head f + j) (buf_len f)) as [Hjt|Hjt].
        * destruct (decide (S (head f + j) = buf_len f)) as [El|El].
          -- rewrite (decide_False (P := j < i)) by lia. rewrite (decide_False (P := 0 ≤ head f + j ∧ _)) by lia. rewrite decide_True by lia.
             replace (head f + j - (buf_len f - 1)) with 0 by lia. rewrite (proj2 (Nat.ltb_ge _ _)) by lia. cbn. rewrite <- Hw0. f_equal. lia.
          -- slots; f_equal; lia.
        * rewrite (decide_False (P := j < i)) by lia. rewrite (proj2 (Nat.ltb_ge (head f + S j) _)) by lia.
          repeat case_decide; try lia. f_equal. lia.
      + rewrite (proj2 (Nat.ltb_lt (head f + i - buf_len f) (head f))), range_ok by lia. cbn [mbind option_bind]. eexists. split; [reflexivity|].
        destruct (shift_down_one_spec (head f + i - buf_len f) (head f + count f - buf_len f) f) as (H1 & H2 & H3 & H4); [lia..|]. split_and!; [done..|].
        intros j Hj Hj'. rewrite H4. slots; f_equal; lia. }
  destruct Hmid as (f' & -> & Hl & Hh' & Hn & Hb). cbn [mbind option_bind]. rewrite usize_sub_ok by lia. cbn [mbind option_bind]. rewrite Hn.
  eexists. split; [reflexivity|]. split; [by apply represents_delete|done].
Qed.

End operations.

(** ** The ring refines a queue *)

Section refinement.
Context {T : Type} `{B : LinearFifoBuffer} (size_of : Z).

Inductive Op :=
| OWrite (src : list T) | OWriteItem (x : T) | OIoWrite (src : list T)
| OFill (size : nat) (items : list T) (* [writable_with_size], the items written into it, [update] *)
| OReserve (n : nat)
| ORead (n : nat) | OReadItem | ODiscard (n : nat)
| OUnget (src : list T)
| OPeek (i : nat) | OSet (i : nat) (x : T) | ORemove (i : nat)
| ORealign | OResetHead.

Inductive Out := Done | Failed | Wrote (n : nat) | GotItems (l : list (option T)) | GotItem (o : option (option T)).

Definition out_of {A} (k : A → Out) (r : Result A) : Out := match r with Ok a => k a | AllocError => Failed end.

Definition run_op (o : Op) (f : LinearFifo T) : option (LinearFifo T * Out) :=
  match o with
  | OWrite src => '(f, r) ← write size_of src f; Some (f, out_of (λ _, Done) r)
  | OWriteItem x => '(f, r) ← write_item size_of x f; Some (f, out_of (λ _, Done) r)
  | OIoWrite src => '(f, r) ← io_write size_of src f; Some (f, out_of Wrote r)
  | OFill size items =>
      '(f, r) ← writable_with_size size_of size f;
      match r with
      | AllocError => Some (f, Failed)
      | Ok (a, _) => f ← update (length items) (write_at a (Some <$> items) f); Some (f, Done)
      end
  | OReserve n => '(f, r) ← ensure_unused_capacity size_of n f; Some (f, out_of (λ _, Done) r)
  | ORead n => '(f, got) ← read n f; Some (f, GotItems got)
  | OReadItem => '(f, got) ← read_item f; Some (f, GotItem got)
  | ODiscard n => f ← discard n f; Some (f, Done)
  | OUnget src => '(f, r) ← unget size_of src f; Some (f, out_of (λ _, Done) r)
  | OPeek i => x ← peek_item i f; Some (f, GotItem (Some x))
  | OSet i x => f ← peek_item_mut i x f; Some (f, Done)
  | ORemove i => f ← ordered_remove_item i f; Some (f, Done)
  | ORealign => f ← realign f; Some (f, Done)
  | OResetHead => Some (reset_head_if_empty f, Done)
  end.

(** A queue with a bound or without. What is not promised is [None]: more than a
    growing buffer can hold, an item that is not there, [unget] of nothing into
    nothing. *)
Definition fits (cap : option nat) (n : nat) (l : list T) : bool :=
  match cap with Some N => length l + n <=? N | None => (2 * Z.of_nat (length l + n) * size_of <? 2 ^ 63)%Z end.

Definition put (cap : option nat) (n : nat) (l l' : list T) (ok : Out) : option (list T * Out) :=
  if fits cap n l then Some (l', ok) else match cap with Some _ => Some (l, Failed) | None => None end.

Definition check (b : bool) : option unit := if b then Some tt else None.

Definition queue_op (cap : option nat) (o : Op) (l : list T) : option (list T * Out) :=
  match o with
  | OWrite src => put cap (length src) l (l ++ src) Done
  | OWriteItem x => put cap 1 l (l ++ [x]) Done
  | OIoWrite src =>
      match cap with
      | Some N => Some (l ++ take (N - length l) src, Wrote (Nat.min (length src) (N - length l)))
      | None => put cap (length src) l (l ++ src) (Wrote (length src))
      end
  | OFill size items => check (length items <=? size);; put cap size l (l ++ items) Done
  | OReserve n => put cap n l l Done
  | ORead n => Some (drop n l, GotItems (Some <$> take n l))
  | OReadItem => Some (tail l, GotItem (Some <$> l !! 0))
  | ODiscard n => check (n <=? length l);; Some (drop n l, Done)
  | OUnget src => check (negb (length src + length l =? 0));; put cap (length src) l (src ++ l) Done
  | OPeek i => x ← l !! i; Some (l, GotItem (Some (Some x)))
  | OSet i x => check (i <? length l);; Some (<[i := x]> l, Done)
  | ORemove i => check (i <? length l);; Some (delete i l, Done)
  | ORealign | OResetHead => Some (l, Done)
  end.

Definition kind_ok (cap : option nat) (f : LinearFifo T) : Prop :=
  match cap with Some N => DYNAMIC = false ∧ buf_len f = N | None => DYNAMIC = true end.

Lemma fits_room cap n f l : represents f l → kind_ok cap f → fits cap n l = true → has_room size_of n f.
Proof.
  intros [_ Hc _] Hk Hf. unfold has_room, fits, kind_ok in *. rewrite Hc. destruct cap as [N|].
  - left. destruct Hk as [_ ->]. by apply Nat.leb_le.
  - right. split; [done|]. by apply Z.ltb_lt.
Qed.

Lemma fits_not N n f l : represents f l → kind_ok (Some N) f → fits (Some N) n l = false → ensure_unused_capacity size_of n f = Some (f, AllocError).
Proof. intros Hr [Hd Hl] Hf. apply (reserve_full size_of n f l); [done..|]. rewrite Hl. by apply Nat.leb_gt. Qed.

Lemma kind_keep cap f f' : kind_ok cap f → (DYNAMIC = false → buf_len f' = buf_len f) → kind_ok cap f'.
Proof. unfold kind_ok. destruct cap; [|done]. intros [Hd Hl] Hs. split; [done|]. by rewrite Hs. Qed.

(** An operation that reserves first: what is left to show is the case with room. *)
Lemma put_refines cap n f l l' lf out out' (op : option (LinearFifo T * Out)) :
  represents f l → kind_ok cap f → put cap n l lf out = Some (l', out') →
  (ensure_unused_capacity size_of n f = Some (f, AllocError) → op = Some (f, Failed)) →
  (has_room size_of n f → ∃ f', op = Some (f', out) ∧ represents f' lf ∧ (DYNAMIC = false → buf_len f' = buf_len f)) →
  ∃ f', op = Some (f', out') ∧ represents f' l' ∧ kind_ok cap f'.
Proof.
  intros Hr Hk Hp Hfull Hroom. unfold put in Hp. destruct (fits cap n l) eqn:Ef.
  - injection Hp as <- <-. destruct (Hroom (fits_room _ _ _ _ Hr Hk Ef)) as (f' & -> & Hr' & Hs). exists f'. split_and!; try done. by eapply kind_keep.
  - destruct cap as [N|]; [|done]. injection Hp as <- <-. rewrite Hfull by (by eapply fits_not). by exists f.
Qed.

Lemma check_inv {A} b (k : option A) x : (check b;; k) = Some x → b = true ∧ k = Some x.
Proof. unfold check. by destruct b. Qed.

Lemma io_write_static src f l N : represents f l → kind_ok (Some N) f → (1 <= size_of)%Z →
  ∃ f', io_write size_of src f = Some (f', Ok (Nat.min (length src) (N - length l))) ∧ represents f' (l ++ take (N - length l) src) ∧ kind_ok (Some N) f'.
Proof.
  intros Hr Hk H1. pose proof Hr as [[Hcl _ _ _ _] Hc _]. pose proof Hk as [Hd Hl]. unfold io_write, writable_length. rewrite usize_sub_ok by done. cbn [mbind option_bind].
  rewrite Hd, Hl, Hc. set (n := Nat.min _ _). assert (Hlen : length (take n src) = n) by (rewrite length_take; lia).
  destruct (write_spec size_of (take n src) f l Hr H1) as (f' & -> & Hr' & Hs); [left; rewrite Hlen; lia|]. cbn [mbind option_bind]. rewrite Hlen.
  exists f'. split_and!; [done| |by eapply kind_keep]. replace (take (N - length l) src) with (take n src); [done|].
  destruct (decide (length src ≤ N - length l)); [rewrite !take_ge by lia; done|f_equal; lia].
Qed.

Lemma fifo_op_refines cap o f l l' out : (1 <= size_of)%Z → represents f l → kind_ok cap f → queue_op cap o l = Some (l', out) →
  ∃ f', run_op o f = Some (f', out) ∧ represents f' l' ∧ kind_ok cap f'.
Proof.
  intros H1 Hr Hk Ho. assert (Hsame : ∀ f', buf_len f' = buf_len f → kind_ok cap f') by (intros f' Hl; by apply (kind_keep cap f)).
  destruct o as [src|x|src|size items|n|n| |n|src|i|i x|i| |]; cbn [run_op queue_op] in *.
  - eapply (put_refines cap (length src)); [done..| |].
    + intros E. unfold write. by rewrite E.
    + intros Hroom. destruct (write_spec size_of src f l Hr H1 Hroom) as (f' & -> & Hr' & Hs). by exists f'.
  - eapply (put_refines cap 1); [done..| |].
    + intros E. unfold write_item. by rewrite E.
    + intros Hroom. destruct (write_item_spec size_of x f l Hr H1 Hroom) as (f' & -> & Hr' & Hs). by exists f'.
  - destruct cap as [N|].
    + injection Ho as <- <-. destruct (io_write_static src f l N Hr Hk H1) as (f' & -> & Hr' & Hk'). by exists f'.
    + eapply (put_refines None (length src)); [done..| |]; unfold io_write, writable_length; rewrite usize_sub_ok by apply Hr; cbn [mbind option_bind];
        rewrite Hk.
      * intros E. unfold write. by rewrite E.
      * intros Hroom. destruct (write_spec size_of src f l Hr H1 Hroom) as (f' & -> & Hr' & Hs). by exists f'.
  - apply check_inv in Ho as [Hle%Nat.leb_le Ho]. eapply (put_refines cap size); [done..| |].
    + intros E. unfold writable_with_size. by rewrite E.
    + intros Hroom. destruct (writable_with_size_spec size_of size f l Hr H1 Hroom) as (f' & a & -> & _ & Hfill). cbn [mbind option_bind].
      destruct (Hfill items Hle) as (f2 & -> & Hr2 & Hs). by exists f2.
  - eapply (put_refines cap n); [done..| |].
    + intros E. by rewrite E.
    + intros Hroom. destruct (reserve_spec size_of n f l Hr H1 Hroom) as (f' & -> & Hr' & _ & Hs & _). exists f'. split_and!; try done. intros Hd. by rewrite (Hs Hd).
  - injection Ho as <- <-. destruct (read_spec n f l Hr) as (f' & -> & Hr' & Hl). exists f'. auto.
  - injection Ho as <- <-. pose proof (read_item_spec f l Hr) as Hi. destruct l as [|x l]; [rewrite Hi; by exists f|].
    destruct Hi as (f' & -> & Hr' & Hl). exists f'. auto.
  - apply check_inv in Ho as [Hle%Nat.leb_le [= <- <-]]. destruct (discard_spec f l n Hr Hle) as (f' & -> & Hr' & Hl). exists f'. auto.
  - apply check_inv in Ho as [Hne%negb_true_iff%Nat.eqb_neq Ho]. eapply (put_refines cap (length src)); [done..| |].
    + intros E. unfold unget. by rewrite E.
    + intros Hroom. destruct (unget_spec size_of src f l Hr H1 Hroom) as (f' & -> & Hr' & Hs); [|by exists f'].
      destruct src; [right|by left]. destruct Hr as [[] ? ?]. cbn in Hne. lia.
  - destruct (l !! i) as [x|] eqn:Ex; [|done]. injection Ho as <- <-. rewrite (peek_item_spec i x f l Hr Ex). by exists f.
  - apply check_inv in Ho as [Hlt%Nat.ltb_lt [= <- <-]]. destruct (peek_item_mut_spec i x f l Hr Hlt) as (f' & -> & Hr' & Hl). exists f'. auto.
  - apply check_inv in Ho as [Hlt%Nat.ltb_lt [= <- <-]]. destruct (ordered_remove_item_spec i f l Hr Hlt) as (f' & -> & Hr' & Hl). exists f'. auto.
  - injection Ho as <- <-. destruct (realign_spec f l Hr) as (f' & -> & Hr' & Hl & _). exists f'. auto.
  - injection Ho as <- <-. exists (reset_head_if_empty f). split; [done|]. unfold reset_head_if_empty. destruct (Nat.eqb_spec (count f) 0) as [E|]; [|auto].
    split; [|by apply Hsame]. pose proof Hr as [[Hcl Hh Hki Hd Hp] Hc Hi]. split; [split|..]; try done; [change (buf_len (set_head 0 f)) with (buf_len f); cbn; lia|].
    intros j y Hj. pose proof (lookup_lt_Some _ _ _ Hj). lia.
Qed.

(** A sequence of operations, with everything they answer. *)
Fixpoint run_ops (os : list (Op)) (f : LinearFifo T) : option (LinearFifo T * list Out) :=
  match os with
  | [] => Some (f, [])
  | o :: os => '(f, out) ← run_op o f; '(f, outs) ← run_ops os f; Some (f, out :: outs)
  end.

Fixpoint queue_ops (cap : option nat) (os : list Op) (l : list T) : option (list T * list Out) :=
  match os with
  | [] => Some (l, [])
  | o :: os => '(l, out) ← queue_op cap o l; '(l, outs) ← queue_ops cap os l; Some (l, out :: outs)
  end.

Lemma ops_refine cap os f l l' outs : (1 <= size_of)%Z → represents f l → kind_ok cap f → queue_ops cap os l = Some (l', outs) →
  ∃ f', run_ops os f = Some (f', outs) ∧ represents f' l'.
Proof.
  intros H1. revert f l outs. induction os as [|o os IH]; intros f l outs Hr Hk Hq; cbn [queue_ops run_ops] in *; [injection Hq as <- <-; by exists f|].
  destruct (queue_op cap o l) as [[l1 out]|] eqn:E; [|done]. destruct (fifo_op_refines cap o f l l1 out H1 Hr Hk E) as (f1 & -> & Hr1 & Hk1).
  cbn [mbind option_bind] in *. destruct (queue_ops cap os l1) as [[l2 outs2]|] eqn:E2; [|done]. injection Hq as <- <-.
  destruct (IH f1 l1 outs2 Hr1 Hk1 E2) as (f2 & -> & Hr2). by exists f2.
Qed.
End refinement.
Arguments Op : clear implicits.
Arguments Out : clear implicits.

Definition buffer_of (cap : option nat) : LinearFifoBuffer := match cap with Some N => StaticBuffer N | None => DynamicBuffer end.

Lemma init_represents {T} cap : cap ≠ Some 0 →
  represents (B := buffer_of cap) (init (default 0 cap) : LinearFifo T) [] ∧ kind_ok (B := buffer_of cap) cap (init (default 0 cap) : LinearFifo T).
Proof.
  intros H0. assert (Hl : ∀ N, buf_len (init N : LinearFifo T) = N) by (intros N; apply length_replicate).
  split; [|by destruct cap]. split; [|done|done]. destruct cap as [N|]; cbn [default]; [|split; rewrite ?Hl; try done; try lia; by right].
  assert (HN : N ≠ 0) by congruence. split; rewrite ?Hl; try done; cbn; [lia|left; lia|].
  intros Hp _. exists (Nat.log2 N). by apply Nat.eqb_eq.
Qed.

(** C18. The ring buffer is a queue: whatever sequence of operations a queue of the
    same bound (a static buffer of any size but 0, a power of two or not) or of no
    bound (a dynamic buffer, while the layout fits) can do, the ring does from its
    [init], with every index in range, every loop ended and no assertion failed,
    and answers the same: items in order, writes that fail exactly when the bound
    is exceeded, [unget] in front, items set and removed in the middle, through
    every wrap-around, realignment and growth. No slot is read that was not
    written, or that was discarded. The operations of a queue here leave out one: the
    [unget] of an empty slice on an empty queue, where [rewind] may underflow
    ([unget_nothing_panics]). *)
Theorem fifo_refines_queue {T : Type} (cap : option nat) (size_of : Z) (os : list (Op T)) (l : list T) (outs : list (Out T)) :
  cap ≠ Some 0 → (1 <= size_of)%Z → queue_ops size_of cap os [] = Some (l, outs) →
  ∃ f, run_ops (B := buffer_of cap) size_of os (init (default 0 cap)) = Some (f, outs)
    ∧ readable_length f = length l
    ∧ (∀ i x, l !! i = Some x → peek_item (B := buffer_of cap) i f = Some (Some x))
    ∧ ∃ f', read (B := buffer_of cap) (length l) f = Some (f', Some <$> l) ∧ readable_length f' = 0.
Proof.
  intros H0 H1 Hq. destruct (init_represents (T := T) cap H0) as [Hr Hk].
  destruct (ops_refine (B := buffer_of cap) size_of cap os _ [] l outs H1 Hr Hk Hq) as (f & -> & Hf). exists f.
  split_and!; [done|apply (rep_count _ _ Hf)| |].
  - intros i x Hx. by eapply peek_item_spec.
  - destruct (read_spec (length l) f l Hf) as (f' & -> & Hr' & _). rewrite take_ge, drop_ge in * by done. exists f'. split; [done|apply (rep_count _ _ Hr')].
Qed.

(** A buffer of four that wraps, is full, and is refilled from the front. *)
Definition some_ops : list (Op nat) :=
  [OWrite [1; 2; 3]; ORead 2; OWrite [4; 5; 6]; OWriteItem 7; ORemove 1; OUnget [8]; OIoWrite [9; 10]; OReadItem].

Lemma fifo_refines_queue_witness :
  queue_ops 8 (Some 4) some_ops [] = Some ([3; 5; 6], [Done; GotItems [Some 1; Some 2]; Done; Failed; Done; Done; Wrote 0; GotItem (Some (Some 8))])
  ∧ ∃ f, run_ops (B := StaticBuffer 4) 8 some_ops (init 4) = Some (f, [Done; GotItems [Some 1; Some 2]; Done; Failed; Done; Done; Wrote 0; GotItem (Some (Some 8))])
    ∧ readable_length f = 3.
Proof.
  split; [vm_compute; reflexivity|].
  destruct (fifo_refines_queue (Some 4) 8 some_ops [3; 5; 6]
    [Done; GotItems [Some 1; Some 2]; Done; Failed; Done; Done; Wrote 0; GotItem (Some (Some 8))]) as (f & E & Hl & _); [done|done|vm_compute; reflexivity|].
  exists f. split; [exact E|exact Hl].
Defined.

(** A dynamic buffer that grows while it wraps. *)
Example fifo_grows :
  run_ops (B := DynamicBuffer) 1 [OWrite [1; 2; 3; 4]; ORead 3; OWrite [5; 6]; OWrite [7; 8; 9]; OReadItem; OFill 9 [10]; ORead 9] (init 0)
  = Some (mkFifo (replicate 16 None) 6 0,
      [Done; GotItems [Some 1; Some 2; Some 3]; Done; Done; GotItem (Some (Some 4)); Done; GotItems (Some <$> [5; 6; 7; 8; 9; 10])]).
Proof. vm_compute. reflexivity. Qed.

(** [unget] of an empty slice into a buffer without storage computes [buf_len() - 1] of 0. *)
Lemma unget_nothing_panics : unget (T := nat) (B := DynamicBuffer) 1 [] (init 0) = None.
Proof. reflexivity. Qed.
