(* ===== verification/ThreadChannel.v ===== *)
(** * [src/threading/channel.rs]: a bounded channel

    [Channel] over a static ring buffer of [LinearFifo], a mutex that is its
    owner and two condition variables that are their waiters and signals. Every
    thread runs a script of calls; the mutex makes a turn of a loop one step, and
    each signal another. Two lists that the code does not have record what was
    written to the buffer and what was read from it, in order. *)

From S2P Require Import Prelude LinearFifo LinearFifoFacts ThreadModel.

#[local] Open Scope Z_scope.

Module Channel.
Section channel.
Context {T : Type} (N : nat) (size_of : Z).

#[local] Instance buffer_kind : LinearFifoBuffer := StaticBuffer N.

Record Channel := mkChannel {
  owner : option nat;
  putters : Z * Z; (* waiters, signals *)
  getters : Z * Z;
  buffer : LinearFifo T;
  is_closed : bool;
  sent : list T;
  received : list (option T);
}.
Definition with_buffer (b : LinearFifo T) : Channel := mkChannel None (0, 0) (0, 0) b false [] [].
Definition init_static : Channel := with_buffer (init N).

Definition set_owner (o : option nat) (s : Channel) : Channel :=
  mkChannel o (putters s) (getters s) (buffer s) (is_closed s) (sent s) (received s).
Definition set_putters (c : Z * Z) (s : Channel) : Channel :=
  mkChannel (owner s) c (getters s) (buffer s) (is_closed s) (sent s) (received s).
Definition set_getters (c : Z * Z) (s : Channel) : Channel :=
  mkChannel (owner s) (putters s) c (buffer s) (is_closed s) (sent s) (received s).
Definition push (b : LinearFifo T) (items : list T) (s : Channel) : Channel :=
  mkChannel (owner s) (putters s) (getters s) b (is_closed s) (sent s ++ items) (received s).
Definition pop (b : LinearFifo T) (items : list (option T)) (s : Channel) : Channel :=
  mkChannel (owner s) (putters s) (getters s) b (is_closed s) (sent s) (received s ++ items).

(** A condition variable: [signal], and a waiter that enters and leaves. *)
Definition signal (c : Z * Z) : Z * Z := (c.1, if c.2 <? c.1 then c.2 + 1 else c.2).
Definition enter (c : Z * Z) : Z * Z := (c.1 + 1, c.2).
Definition leave (c : Z * Z) : Z * Z := (c.1 - 1, c.2 - 1).

(** [write_all(items)] and [read_all] of [n] items. *)
Inductive Call := WriteAll (items : list T) | ReadAll (n : nat).

(** [woken]: out of [cond.wait], and has not looked at the buffer since. *)
Inductive Pc :=
| Run (k : list Call)
| WLock (woken : bool) (items : list T) (pushed : nat) (k : list Call)
| WTop (woken : bool) (items : list T) (pushed : nat) (k : list Call) (* the loop of [write_items] *)
| WSignal (items : list T) (pushed : nat) (k : list Call) (* [getters.signal()] *)
| WEnter (items : list T) (pushed : nat) (k : list Call) (* [putters.wait] *)
| WRelease (items : list T) (pushed : nat) (k : list Call)
| WBlocked (items : list T) (pushed : nat) (k : list Call)
| RLock (woken : bool) (n popped : nat) (k : list Call)
| RTop (woken : bool) (n popped : nat) (k : list Call) (* the loop of [read_items] *)
| RSignal (item : bool) (n popped : nat) (k : list Call) (* [putters.signal()], with an item or not *)
| REnter (n popped : nat) (k : list Call) (* [getters.wait] *)
| RRelease (n popped : nat) (k : list Call)
| RBlocked (n popped : nat) (k : list Call)
| Unlock (k : list Call) (* the guard is dropped *)
| Panicked.

Definition lock_mutex (t : nat) (s : Channel) (pc : Pc) : list (Channel * Pc * Z) :=
  match owner s with None => [(set_owner (Some t) s, pc, 0)] | Some _ => [] end.

(** A turn of the loop of [write_items(items, true)]. *)
Definition write_items (s : Channel) (items : list T) (pushed : nat) (k : list Call) : Channel * Pc :=
  if (pushed <? length items)%nat then
    if is_closed s then (s, Unlock k)
    else
      match write size_of items (buffer s) with
      | None => (s, Panicked)
      | Some (b, Ok _) => (push b items s, WSignal items pushed k)
      | Some (b, AllocError) => (push b [] s, if DYNAMIC then Unlock k else WEnter items pushed k)
      end
  else (s, if (pushed =? length items)%nat then Unlock k else Panicked).

(** A turn of the loop of [read_items(items, true)]. *)
Definition read_items (s : Channel) (n popped : nat) (k : list Call) : Channel * Pc :=
  if (popped <? n)%nat then
    if (readable_length (buffer s) =? 0)%nat then (s, if is_closed s then Unlock k else REnter n popped k)
    else
      match read_item (buffer s) with
      | Some (b, Some item) => (pop b [item] s, RSignal true n popped k)
      | Some (b, None) => (pop b [] s, RSignal false n popped k)
      | None => (s, Panicked)
      end
  else (s, if (popped =? n)%nat then Unlock k else Panicked).

Definition next (t : nat) (s : Channel) (pc : Pc) : list (Channel * Pc * Z) :=
  match pc with
  | Run [] => []
  | Run (WriteAll items :: k) => [(s, WLock false items 0 k, 0)]
  | Run (ReadAll n :: k) => [(s, RLock false n 0 k, 0)]
  | WLock w items pushed k => lock_mutex t s (WTop w items pushed k)
  | WTop _ items pushed k => let r := write_items s items pushed k in [(r.1, r.2, 0)]
  | WSignal items pushed k => [(set_getters (signal (getters s)) s, WTop false items (pushed + 1) k, 0)]
  | WEnter items pushed k => [(set_putters (enter (putters s)) s, WRelease items pushed k, 0)]
  | WRelease items pushed k => [(set_owner None s, WBlocked items pushed k, 0)]
  | WBlocked items pushed k =>
      if 0 <? (putters s).2 then [(set_putters (leave (putters s)) s, WLock true items pushed k, 0)] else []
  | RLock w n popped k => lock_mutex t s (RTop w n popped k)
  | RTop _ n popped k => let r := read_items s n popped k in [(r.1, r.2, 0)]
  | RSignal item n popped k =>
      [(set_putters (signal (putters s)) s, if item then RTop false n (popped + 1) k else REnter n popped k, 0)]
  | REnter n popped k => [(set_getters (enter (getters s)) s, RRelease n popped k, 0)]
  | RRelease n popped k => [(set_owner None s, RBlocked n popped k, 0)]
  | RBlocked n popped k =>
      if 0 <? (getters s).2 then [(set_getters (leave (getters s)) s, RLock true n popped k, 0)] else []
  | Unlock k => [(set_owner None s, Run k, 0)]
  | Panicked => []
  end.

Definition program : Program Channel Pc := mkProgram _ _ next (λ _, false) (λ pc, pc).

Definition start (scripts : list (list Call)) : Conf Channel Pc := mkConf init_static (Run <$> scripts).

(** [write_item] and [read_item] *)
Definition single (c : Call) : Prop := match c with WriteAll items => length items = 1%nat | ReadAll n => n = 1%nat end.

(** ** The invariant *)

Definition holds (pc : Pc) : bool :=
  match pc with
  | WTop _ _ _ _ | WSignal _ _ _ | WEnter _ _ _ | WRelease _ _ _ | RTop _ _ _ _ | RSignal _ _ _ _ | REnter _ _ _ | RRelease _ _ _ | Unlock _ => true
  | _ => false
  end.
Definition put_waits (pc : Pc) : bool := match pc with WRelease _ _ _ | WBlocked _ _ _ => true | _ => false end.
Definition get_waits (pc : Pc) : bool := match pc with RRelease _ _ _ | RBlocked _ _ _ => true | _ => false end.
Definition put_enters (pc : Pc) : bool := match pc with WEnter _ _ _ => true | _ => false end.
Definition get_enters (pc : Pc) : bool := match pc with REnter _ _ _ => true | _ => false end.

(** On the way to a free place, or to an item, with a signal consumed; or about to signal one. *)
Definition put_arrives (pc : Pc) : bool := match pc with WLock w _ _ _ | WTop w _ _ _ => w | RSignal _ _ _ _ => true | _ => false end.
Definition get_arrives (pc : Pc) : bool := match pc with RLock w _ _ _ | RTop w _ _ _ => w | WSignal _ _ _ => true | _ => false end.
Definition panicked (pc : Pc) : bool := match pc with Panicked => true | _ => false end.
Definition other (pc : Pc) : bool := holds pc && negb (put_enters pc) && negb (get_enters pc).

Definition local_ok (pc : Pc) : Prop :=
  match pc with
  | Run k | Unlock k => Forall single k
  | WLock _ items p k | WSignal items p k | WEnter items p k | WRelease items p k | WBlocked items p k =>
      length items = 1%nat ∧ p = 0%nat ∧ Forall single k
  | WTop w items p k => length items = 1%nat ∧ (p = 0%nat ∨ p = 1%nat ∧ w = false) ∧ Forall single k
  | RLock _ n p k | RSignal true n p k | REnter n p k | RRelease n p k | RBlocked n p k => n = 1%nat ∧ p = 0%nat ∧ Forall single k
  | RTop w n p k => n = 1%nat ∧ (p = 0%nat ∨ p = 1%nat ∧ w = false) ∧ Forall single k
  | RSignal false _ _ _ => False
  | Panicked => True
  end.

Record inv (l : list T) (c : Conf Channel Pc) : Prop := {
  inv_owned : owned owner holds (shared c) (threads c);
  inv_buffer : represents (buffer (shared c)) l ∧ buf_len (buffer (shared c)) = N;
  inv_order : Some <$> sent (shared c) = received (shared c) ++ (Some <$> l);
  inv_open : is_closed (shared c) = false;
  inv_putters : (putters (shared c)).1 = count put_waits (threads c) ∧ 0 <= (putters (shared c)).2 <= (putters (shared c)).1;
  inv_getters : (getters (shared c)).1 = count get_waits (threads c) ∧ 0 <= (getters (shared c)).2 <= (getters (shared c)).1;
  inv_full : 0 < count put_enters (threads c) → length l = N;
  inv_empty : 0 < count get_enters (threads c) → length l = 0%nat;
  inv_put : (putters (shared c)).2 < (putters (shared c)).1 →
    Z.of_nat N - Z.of_nat (length l) <= (putters (shared c)).2 + count put_arrives (threads c);
  inv_get : (getters (shared c)).2 < (getters (shared c)).1 →
    Z.of_nat (length l) <= (getters (shared c)).2 + count get_arrives (threads c);
  inv_local : ∀ t pc, threads c !! t = Some pc → local_ok pc;
  inv_panicked : count panicked (threads c) = 0;
}.

Lemma chan_kinds ts :
  count holds ts = count put_enters ts + count get_enters ts + count other ts
  ∧ 0 <= count put_enters ts ∧ 0 <= count get_enters ts ∧ 0 <= count other ts
  ∧ 0 <= count put_waits ts ∧ 0 <= count get_waits ts ∧ 0 <= count put_arrives ts ∧ 0 <= count get_arrives ts.
Proof.
  split_and!; try apply count_bounds. induction ts as [|pc ts IH]; [done|]. rewrite !count_cons, IH. destruct pc; cbn; lia.
Qed.

Lemma chan_next_owner t s pc s' pc' n : (s', pc', n) ∈ next t s pc → owner_step owner holds t s s' pc pc' ∧ n = 0.
Proof.
  intros Hn. unfold owner_step. destruct pc as [[|[items|m] k]|w items p k|w items p k|items p k|items p k|items p k|items p k|w m p k|w m p k|item m p k|m p k|m p k|m p k|k|];
    cbn [next] in Hn; unfold lock_mutex, write_items, read_items in Hn; repeat case_match; choices Hn;
    cbn; repeat case_match; naive_solver.
Qed.

(** One item is written when there is a place for it, and not otherwise. *)
Lemma write_turn (b : LinearFifo T) (l items : list T) : (1 <= size_of) → represents b l → buf_len b = N → length items = 1%nat →
  length l = N ∧ write size_of items b = Some (b, AllocError)
  ∨ (length l < N)%nat ∧ ∃ b', write size_of items b = Some (b', Ok tt) ∧ represents b' (l ++ items) ∧ buf_len b' = N.
Proof.
  intros H1 Hr Hl Hi. pose proof Hr as [[Hcl _ _ _ _] Hc _]. destruct (decide (length l = N)) as [E|E]; [left|right].
  - split; [done|]. unfold write. by rewrite (reserve_full size_of (length items) b l Hr) by (done || lia).
  - split; [lia|]. destruct (write_spec size_of items b l Hr H1) as (b' & -> & Hr' & Hs); [left; lia|]. exists b'. split_and!; try done. by rewrite Hs.
Qed.

(** What is left to show of a step: the buffer's list afterwards, and the counts. *)
Record moved (l' : list T) (s s' : Channel) (ts : list Pc) (pc pc' : Pc) : Prop := {
  mv_buffer : represents (buffer s') l' ∧ buf_len (buffer s') = N;
  mv_order : Some <$> sent s' = received s' ++ (Some <$> l');
  mv_open : is_closed s' = false;
  mv_putters : (putters s').1 = count put_waits ts - b2z (put_waits pc) + b2z (put_waits pc') ∧ 0 <= (putters s').2 <= (putters s').1;
  mv_getters : (getters s').1 = count get_waits ts - b2z (get_waits pc) + b2z (get_waits pc') ∧ 0 <= (getters s').2 <= (getters s').1;
  mv_full : 0 < count put_enters ts - b2z (put_enters pc) + b2z (put_enters pc') → length l' = N;
  mv_empty : 0 < count get_enters ts - b2z (get_enters pc) + b2z (get_enters pc') → length l' = 0%nat;
  mv_put : (putters s').2 < (putters s').1 →
    Z.of_nat N - Z.of_nat (length l') <= (putters s').2 + (count put_arrives ts - b2z (put_arrives pc) + b2z (put_arrives pc'));
  mv_get : (getters s').2 < (getters s').1 →
    Z.of_nat (length l') <= (getters s').2 + (count get_arrives ts - b2z (get_arrives pc) + b2z (get_arrives pc'));
  mv_local : local_ok pc';
  mv_fine : panicked pc' = false;
}.

Lemma moved_inv l l' s s' ts t pc pc' : inv l (mkConf s ts) → ts !! t = Some pc → owner_step owner holds t s s' pc pc' →
  moved l' s s' ts pc pc' → inv l' (mkConf s' (<[t := pc']> ts)).
Proof.
  intros Hi Ht Hown [M1 M2 M3 M4 M5 M6 M7 M8 M9 M10 M11]. pose proof (owned_step _ _ _ _ _ _ _ _ (inv_owned _ _ Hi) Ht Hown) as Ho.
  destruct Hi as [_ _ _ _ _ _ _ _ _ _ Hlo Hpk]. cbn [shared threads] in *.
  split; cbn [shared threads]; rewrite ?(count_insert _ _ _ _ _ Ht); try done.
  - intros t' x Hx. apply (lookup_insert_Some _ _ _ pc) in Hx as [[-> ->]|[_ Hx]]; [done|by apply (Hlo t')|done].
  - rewrite Hpk, M11. destruct (panicked pc) eqn:E; [|done]. by rewrite (count_zero panicked ts t pc Hpk Ht) in E.
Qed.
(** Steps that do not touch the buffer. *)
Ltac quiet :=
  split; cbn -[Z.of_nat]; unfold signal, enter, leave; cbn -[Z.of_nat];
  repeat match goal with |- context [?a <? ?b] => destruct (Z.ltb_spec a b) end; cbn -[Z.of_nat]; try done; try lia.

Lemma chan_move l s s' ts t pc pc' : (1 <= size_of) → (0 < N)%nat →
  inv l (mkConf s ts) → ts !! t = Some pc → (s', pc', 0) ∈ next t s pc → ∃ l', moved l' s s' ts pc pc'.
Proof.
  intros H1 HN [Ho [Hr Hl] Hord Hop Hp Hg Hfu Hem Hpu Hge Hlo _] Ht Hn. cbn [shared threads] in *. pose proof (chan_kinds ts) as K.
  pose proof (owned_count _ _ _ _ Ho) as Hone. pose proof (owned_free _ _ _ _ Ho) as Hfree. pose proof (Hlo t pc Ht) as Hloc.
  pose proof Hr as [[Hcl _ _ _ _] Hc _]. rewrite Hl in Hcl.
  assert (Hat : ∀ f, f pc = true → 1 <= count f ts) by (intros f Hf; by apply (count_lookup f _ t pc)).
  pose proof (Hat put_enters) as Hpe. pose proof (Hat get_enters) as Hge'. pose proof (Hat put_waits) as Hpw. pose proof (Hat get_waits) as Hgw.
  pose proof (Hat put_arrives) as Hpa. pose proof (Hat get_arrives) as Hga.
  pose proof (Hat other : holds pc && negb (put_enters pc) && negb (get_enters pc) = true → _) as Hot. clear Hat Hlo Ht Ho.
  destruct pc as [[|[items|m] k]|w items p k|w items p k|items p k|items p k|items p k|items p k|w m p k|w m p k|item m p k|m p k|m p k|m p k|k|];
    cbn [next local_ok holds put_enters get_enters put_waits get_waits put_arrives get_arrives andb negb] in *; unfold lock_mutex in *;
    repeat match type of Hn with
    | _ ∈ match owner s with _ => _ end => destruct (owner s)
    | _ ∈ (if ?a <? ?b then _ else _) => destruct (Z.ltb_spec a b)
    end; try (by apply elem_of_nil in Hn); apply list_elem_of_singleton in Hn; injection Hn as -> ->.
  - (* Run: write *) apply Forall_cons in Hloc as [? ?]. exists l. quiet.
  - (* Run: read *) apply Forall_cons in Hloc as [? ?]. exists l. quiet.
  - (* WLock *) specialize (Hfree eq_refl). destruct Hloc as (? & -> & ?). exists l. quiet. auto.
  - (* WTop *)
    unfold write_items. destruct Hloc as (Hi & Hpc & Hk). rewrite Hi, Hop. specialize (Hot eq_refl). destruct Hpc as [->|[-> ->]]; cbn [Nat.ltb Nat.leb Nat.eqb fst snd];
      [|exists l; quiet].
    destruct (write_turn (buffer s) l items H1 Hr Hl Hi) as [[Hfull ->]|[Hlt (b' & -> & Hr' & Hl')]]; cbn [fst snd].
    + exists l. destruct w; [specialize (Hpa eq_refl)|]; quiet; by rewrite app_nil_r.
    + exists (l ++ items). destruct w; [specialize (Hpa eq_refl)|]; quiet; rewrite ?length_app; try lia.
      * by rewrite !fmap_app, Hord, app_assoc.
      * by rewrite !fmap_app, Hord, app_assoc.
  - (* WSignal *) destruct Hloc as (? & -> & ?). specialize (Hot eq_refl). specialize (Hga eq_refl). exists l. quiet; auto.
  - (* WEnter *) destruct Hloc as (? & -> & ?). specialize (Hpe eq_refl). exists l. quiet.
  - (* WRelease *) destruct Hloc as (? & -> & ?). exists l. quiet.
  - (* WBlocked *) destruct Hloc as (? & -> & ?). specialize (Hpw eq_refl). exists l. quiet.
  - (* RLock *) specialize (Hfree eq_refl). destruct Hloc as (? & -> & ?). exists l. quiet. auto.
  - (* RTop *)
    unfold read_items, readable_length. destruct Hloc as (-> & Hpc & Hk). rewrite Hc, Hop. specialize (Hot eq_refl).
    destruct Hpc as [->|[-> ->]]; cbn [Nat.ltb Nat.leb Nat.eqb fst snd]; [|exists l; quiet].
    pose proof (read_item_spec (buffer s) l Hr) as Hri. destruct l as [|x l]; cbn [length Nat.eqb fst snd].
    + cbn [length] in *. exists []. destruct w; [specialize (Hga eq_refl)|]; quiet.
    + destruct Hri as (b' & -> & Hr' & Hl'). cbn [fst snd length] in *. exists l. destruct w; [specialize (Hga eq_refl)|]; quiet;
        first [split; [done|congruence]|by rewrite Hord, <- app_assoc].
  - (* RSignal *) destruct item; [|done]. destruct Hloc as (-> & -> & ?). specialize (Hot eq_refl). specialize (Hpa eq_refl). exists l. quiet; auto.
  - (* REnter *) destruct Hloc as (-> & -> & ?). specialize (Hge' eq_refl). exists l. quiet.
  - (* RRelease *) destruct Hloc as (-> & -> & ?). exists l. quiet.
  - (* RBlocked *) destruct Hloc as (-> & -> & ?). specialize (Hgw eq_refl). exists l. quiet.
  - (* Unlock *) exists l. quiet.
Qed.
Lemma chan_inv_step c c' : (1 <= size_of) → (0 < N)%nat → (∃ l, inv l c) → step program c c' → ∃ l, inv l c'.
Proof.
  intros H1 HN [l Hi] Hs. destruct Hs as [s s' ts ts' t pc pc' n Ht Hn Hw|]; [|done].
  destruct (chan_next_owner _ _ _ _ _ _ Hn) as [Hown ->]. apply wakes_zero in Hw as ->.
  destruct (chan_move l s s' ts t pc pc' H1 HN Hi Ht Hn) as [l' Hm]. exists l'. by eapply moved_inv.
Qed.

Lemma chan_inv_start scripts : (0 < N)%nat → Forall (Forall single) scripts → inv [] (start scripts).
Proof.
  intros HN Hs. assert (Hrun : ∀ t pc, (Run <$> scripts) !! t = Some pc → ∃ k, pc = Run k ∧ Forall single k).
  { intros t pc Hx. rewrite list_lookup_fmap in Hx. destruct (scripts !! t) as [k|] eqn:E; [|done]. injection Hx as <-. exists k.
    split; [done|]. by eapply Forall_lookup_1. }
  assert (H0 : ∀ f, (∀ k, f (Run k) = false) → count f (Run <$> scripts) = 0).
  { intros f Hf. apply total_zero. intros t pc Hx. destruct (Hrun t pc Hx) as (k & -> & _). by rewrite Hf. }
  destruct (init_represents (T := T) (Some N)) as [Hr _]; [intros [= ->]; lia|].
  split; cbn [start shared threads init_static with_buffer putters getters buffer is_closed sent received]; rewrite ?H0 by done; cbn [fst snd length]; try done; try lia.
  - intros t pc Hx Hh. by destruct (Hrun t pc Hx) as (k & -> & _).
  - split; [exact Hr|apply length_replicate].
  - intros t pc Hx. by destruct (Hrun t pc Hx) as (k & -> & Hk).
Qed.

Lemma chan_inv_reach scripts c : (1 <= size_of) → (0 < N)%nat → Forall (Forall single) scripts → reach program (start scripts) c → ∃ l, inv l c.
Proof.
  intros H1 HN Hs. apply (reach_invariant program (λ c, ∃ l, inv l c)).
  - exists []. by apply chan_inv_start.
  - intros c1 c2. by apply chan_inv_step.
Qed.
End channel.
Arguments Channel : clear implicits.
Arguments Call : clear implicits.
Arguments Pc : clear implicits.

(** C39. The channel delivers: with any number of threads that run any scripts of
    [write_item] and [read_item] on a channel of any size but 0, under every
    interleaving: nothing panics and the ring buffer is used within its bounds;
    what has been read is what was written, in order and each item once, less at
    most as many items as the channel holds; and no wake-up is missed: while a
    reader is blocked and there is an item, or a writer is blocked and there is a
    place, a signal is there for a blocked one, or one that a signal has woken is
    on its way, or a signal is about to be sent. *)
Theorem channel_delivers {T : Type} (N : nat) (size_of : Z) (scripts : list (list (Call T))) c :
  (0 < N)%nat → 1 <= size_of → Forall (Forall single) scripts → reach (program N size_of) (start N scripts) c →
  (∀ t, threads c !! t ≠ Some Panicked)
  ∧ ∃ l, Some <$> sent (shared c) = received (shared c) ++ (Some <$> l) ∧ (length l ≤ N)%nat
    ∧ (∀ t n p k, threads c !! t = Some (RBlocked n p k) → l ≠ [] →
         0 < (getters (shared c)).2 ∨ ∃ t' pc, threads c !! t' = Some pc ∧ get_arrives pc = true)
    ∧ (∀ t items p k, threads c !! t = Some (WBlocked items p k) → (length l < N)%nat →
         0 < (putters (shared c)).2 ∨ ∃ t' pc, threads c !! t' = Some pc ∧ put_arrives pc = true).
Proof.
  intros HN H1 Hs Hr. destruct (chan_inv_reach N size_of scripts c H1 HN Hs Hr) as [l [Ho [Hb Hl] Hord Hop Hp Hg _ _ Hpu Hge _ Hpk]].
  split; [intros t Ht; by pose proof (count_zero panicked _ t _ Hpk Ht)|]. exists l. pose proof Hb as [[Hcl _ _ _ _] Hc _]. rewrite Hl in Hcl.
  split_and!; [done|lia| |].
  - intros t n p k Ht Hne. pose proof (count_lookup get_waits _ t _ Ht eq_refl). assert (length l ≠ 0%nat) by (by destruct l).
    destruct (decide (0 < (getters (shared c)).2)) as [|Hz]; [by left|right]. apply count_pos. lia.
  - intros t items p k Ht Hlt. pose proof (count_lookup put_waits _ t _ Ht eq_refl).
    destruct (decide (0 < (putters (shared c)).2)) as [|Hz]; [by left|right]. apply count_pos. lia.
Qed.

(** A channel of one place: the second write waits for the read. *)
Definition exchange : list Move := replicate 11 (Go 0 0 []) ++ replicate 3 (Go 1 0 []).

Lemma channel_delivers_witness :
  ∃ c, threads c = [WBlocked [8%nat] 0 []; RSignal true 1 0 []] ∧ received (shared c) = [Some 7%nat]
    ∧ (0 < (putters (shared c)).2 ∨ ∃ t' pc, threads c !! t' = Some pc ∧ put_arrives pc = true).
Proof.
  destruct (run (program 1 8) exchange (start 1 [[WriteAll [7%nat]; WriteAll [8%nat]]; [ReadAll 1]])) as [c|] eqn:E; [|by vm_compute in E].
  pose proof E as E'. vm_compute in E'. injection E' as E'. exists c. rewrite <- E'. split; [reflexivity|]. split; [reflexivity|]. rewrite E'.
  destruct (channel_delivers 1 8 [[WriteAll [7%nat]; WriteAll [8%nat]]; [ReadAll 1]] c ltac:(lia) ltac:(lia) ltac:(repeat constructor) (run_reach _ _ _ _ E)) as (_ & l & Hord & _ & _ & Hput).
  rewrite <- E' in Hord. assert (l = []) as -> by (destruct l; [done|discriminate Hord]).
  eapply (Hput 0%nat); [rewrite <- E'; reflexivity|cbn; lia].
Defined.

(** [write_all] of two items writes both of them twice. *)
Example write_all_repeats_items :
  ∃ c, run (program 8 8) (replicate 6 (Go 0 0 [])) (start 8 [[WriteAll [1%nat; 2%nat]]]) = Some c ∧ sent (shared c) = [1; 2; 1; 2]%nat.
Proof. eexists. split; [vm_compute; reflexivity|reflexivity]. Qed.
End Channel.
