(* ===== verification/ThreadSignalRing.v ===== *)
(** * [src/threading/signal_ring.rs]: the ring of pending signals

    Any number of producers and one consumer, with [head] and [tail] in one
    32-bit word. A signal handler that interrupts another one on the same thread
    is one more producer. Fields the code does not have: every claimed place with
    the signal it was claimed for and whether that is written, what was
    delivered, and how full the ring was whenever a signal was refused. *)

From S2P Require Import Prelude ThreadModel.

#[local] Open Scope Z_scope.

Module SignalRing.
Definition unpack (state : Z) : Z * Z := (state mod 2 ^ 16, Z.shiftr state 16 mod 2 ^ 16).
Definition pack (head tail : Z) : Z := Z.lor (Z.shiftl tail 16) head.

(** [u16::wrapping_add] and [wrapping_sub]. *)
Definition wrap16 (z : Z) : Z := z mod 2 ^ 16.

Section ring.
Context (CAPACITY : nat).

Definition CAPACITY_IS_VALID : Prop := ∃ k, (k ≤ 15)%nat ∧ CAPACITY = (2 ^ k)%nat.

Record SignalRing := mkRing {
  slots : list Z; state : Z;
  entries : list (Z * bool); delivered : list Z; taken : bool; refusals : list Z }.

Definition new : SignalRing := mkRing (replicate CAPACITY 0) 0 [] [] false [].

(** [self.slots\[index as usize % CAPACITY\]] *)
Definition slot (index : Z) : nat := Z.to_nat (index mod Z.of_nat CAPACITY).

Inductive Pc :=
| Producer (signals : list Z) (* the signals it will enqueue *)
| PLoad (signal : Z) (k : list Z)
| PCas (signal state : Z) (k : list Z)
| PStore (signal tail : Z) (i : nat) (k : list Z) (* the store, [i] is the number of its claim *)
| Consumer
| CSwap (state : Z)
| CCas (state head signal : Z)
| Panicked.

Definition full (st : Z) : bool := let '(head, tail) := unpack st in Z.of_nat CAPACITY <=? wrap16 (tail - head).

(** How many places are claimed and not yet given back. *)
Definition occupied (s : SignalRing) : Z := Z.of_nat (length (entries s)) - Z.of_nat (length (delivered s)).

(** The top of the loop of [enqueue], with the state just read. *)
Definition attempt (signal : Z) (k : list Z) (s : SignalRing) : SignalRing * Pc * Z :=
  if full (state s) then
    (mkRing (slots s) (state s) (entries s) (delivered s) (taken s) (refusals s ++ [occupied s]), Producer k, 0)
  else (s, PCas signal (state s) k, 0).

Definition claim (signal : Z) (k : list Z) (s : SignalRing) : SignalRing * Pc * Z :=
  let '(head, tail) := unpack (state s) in
  (mkRing (slots s) (pack head (wrap16 (tail + 1))) (entries s ++ [(signal, false)]) (delivered s) (taken s) (refusals s),
   PStore signal tail (length (entries s)) k, 0).

Definition next (t : nat) (s : SignalRing) (pc : Pc) : list (SignalRing * Pc * Z) :=
  match pc with
  | Producer [] => []
  | Producer (signal :: k) => [(s, if signal =? 0 then Panicked else PLoad signal k, 0)]
  | PLoad signal k => [attempt signal k s]
  | PCas signal st k => (if state s =? st then [claim signal k s] else []) ++ [attempt signal k s]
  | PStore signal tail i k =>
      [(mkRing (<[slot tail := signal]> (slots s)) (state s) (<[i := (signal, true)]> (entries s)) (delivered s) (taken s) (refusals s), Producer k, 0)]
  | Consumer => let '(head, tail) := unpack (state s) in [(s, if head =? tail then Consumer else CSwap (state s), 0)]
  | CSwap st =>
      let head := (unpack st).1 in
      match slots s !! slot head with
      | None => [(s, Panicked, 0)]
      | Some signal =>
          [(mkRing (<[slot head := 0]> (slots s)) (state s) (entries s) (delivered s) (negb (signal =? 0)) (refusals s),
            if signal =? 0 then Consumer else CCas st head signal, 0)]
      end
  | CCas st head signal =>
      (if state s =? st then
         [(mkRing (slots s) (pack (wrap16 (head + 1)) (unpack st).2) (entries s) (delivered s ++ [signal]) false (refusals s), Consumer, 0)]
       else []) ++ [(s, CCas (state s) head signal, 0)]
  | Panicked => []
  end.

Definition program : Program SignalRing Pc := mkProgram _ _ next (λ _, false) (λ pc, pc).

Definition start (scripts : list (list Z)) : Conf SignalRing Pc := mkConf new (Consumer :: (Producer <$> scripts)).

(** ** The invariant *)

Definition consumer (pc : Pc) : bool := match pc with Consumer | CSwap _ | CCas _ _ _ => true | _ => false end.

(** What the slot of the [i]-th claim holds. *)
Definition held (s : SignalRing) (i : nat) : Z :=
  match entries s !! i with
  | Some (signal, true) => if taken s && (i =? length (delivered s))%nat then 0 else signal
  | _ => 0
  end.

Definition local_ok (s : SignalRing) (pc : Pc) : Prop :=
  match pc with
  | Producer k => Forall (λ x, x ≠ 0) k
  | PLoad signal k => signal ≠ 0 ∧ Forall (λ x, x ≠ 0) k
  | PCas signal st k => signal ≠ 0 ∧ full st = false ∧ Forall (λ x, x ≠ 0) k
  | PStore signal tail i k =>
      signal ≠ 0 ∧ tail = wrap16 (Z.of_nat i) ∧ entries s !! i = Some (signal, false) ∧ (length (delivered s) ≤ i)%nat ∧ Forall (λ x, x ≠ 0) k
  | Consumer => taken s = false
  | CSwap st => taken s = false ∧ (unpack st).1 = wrap16 (Z.of_nat (length (delivered s))) ∧ (length (delivered s) < length (entries s))%nat
  | CCas st head signal =>
      taken s = true ∧ head = wrap16 (Z.of_nat (length (delivered s))) ∧ entries s !! length (delivered s) = Some (signal, true)
  | Panicked => False
  end.

Record shared_ok (s : SignalRing) : Prop := {
  ok_state : state s = pack (wrap16 (Z.of_nat (length (delivered s)))) (wrap16 (Z.of_nat (length (entries s))));
  ok_window : 0 <= occupied s <= Z.of_nat CAPACITY;
  ok_order : delivered s = (take (length (delivered s)) (entries s)).*1;
  ok_slots : length (slots s) = CAPACITY;
  ok_held : ∀ i, (length (delivered s) ≤ i < length (delivered s) + CAPACITY)%nat → slots s !! slot (Z.of_nat i) = Some (held s i);
  ok_nonzero : ∀ i e, entries s !! i = Some e → e.1 ≠ 0;
  ok_taken : taken s = true → ∃ signal, entries s !! length (delivered s) = Some (signal, true);
  ok_refusals : Forall (λ n, n = Z.of_nat CAPACITY) (refusals s);
}.

Record inv (c : Conf SignalRing Pc) : Prop := {
  inv_shared : shared_ok (shared c);
  inv_pending : ∀ i signal, entries (shared c) !! i = Some (signal, false) → ∃ t tail k, threads c !! t = Some (PStore signal tail i k);
  inv_unique : ∀ t t' x x' y y' i k k', threads c !! t = Some (PStore x y i k) → threads c !! t' = Some (PStore x' y' i k') → t = t';
  inv_consumer : ∀ t pc, threads c !! t = Some pc → consumer pc = true → t = 0%nat;
  inv_local : ∀ t pc, threads c !! t = Some pc → local_ok (shared c) pc;
}.

(** ** Indices *)

Lemma unpack_pack h t : 0 <= h < 2 ^ 16 → 0 <= t < 2 ^ 16 → unpack (pack h t) = (h, t).
Proof.
  intros Hh Ht. unfold unpack, pack. f_equal.
  - rewrite <- Z.land_ones, Z.land_lor_distr_l, !Z.land_ones, Z.shiftl_mul_pow2 by lia. rewrite Z.mod_mul by lia. by rewrite Z.lor_0_l, Z.mod_small.
  - rewrite Z.shiftr_lor, Z.shiftr_shiftl_l by lia. rewrite (Z.shiftr_div_pow2 h), Z.div_small, Z.lor_0_r by lia.
    change (16 - 16) with 0. by rewrite Z.shiftl_0_r, Z.mod_small.
Qed.

Lemma wrap16_range z : 0 <= wrap16 z < 2 ^ 16.
Proof. apply Z.mod_pos_bound. lia. Qed.

Lemma state_parts s : shared_ok s → unpack (state s) = (wrap16 (Z.of_nat (length (delivered s))), wrap16 (Z.of_nat (length (entries s)))).
Proof. intros Hs. rewrite (ok_state _ Hs). apply unpack_pack; apply wrap16_range. Qed.

Hypothesis valid : CAPACITY_IS_VALID.

Lemma capacity_range : 1 <= Z.of_nat CAPACITY <= 2 ^ 15 ∧ (Z.of_nat CAPACITY | 2 ^ 16).
Proof.
  destruct valid as (k & Hk & ->). rewrite Nat2Z.inj_pow. change (Z.of_nat 2) with 2. split; [split|].
  - pose proof (Z.pow_pos_nonneg 2 (Z.of_nat k)). lia.
  - apply Z.pow_le_mono_r; lia.
  - exists (2 ^ (16 - Z.of_nat k)). rewrite <- Z.pow_add_r by lia. f_equal. lia.
Qed.

Lemma full_spec s : shared_ok s → full (state s) = (Z.of_nat CAPACITY <=? occupied s).
Proof.
  intros Hs. unfold full. rewrite (state_parts s Hs). pose proof (ok_window _ Hs) as Hw. pose proof capacity_range as [Hc _].
  unfold wrap16. rewrite <- Zminus_mod. unfold occupied in *. by rewrite Z.mod_small by lia.
Qed.

Lemma slot_wrap16 z : slot (wrap16 z) = slot z.
Proof. unfold slot, wrap16. pose proof capacity_range as [Hc Hd]. by rewrite Z.mod_mod_divide. Qed.

Lemma slot_range z : (slot z < CAPACITY)%nat.
Proof. unfold slot. pose proof capacity_range as [Hc _]. pose proof (Z.mod_pos_bound z (Z.of_nat CAPACITY)). lia. Qed.

(** The slots of a window are distinct, and the next window reuses them. *)
Lemma ring_slot_inj i j lo : (lo ≤ i < lo + CAPACITY)%nat → (lo ≤ j < lo + CAPACITY)%nat → slot (Z.of_nat i) = slot (Z.of_nat j) → i = j.
Proof.
  intros Hi Hj. unfold slot. pose proof capacity_range as [Hc _]. set (C := Z.of_nat CAPACITY) in *.
  pose proof (Z.mod_pos_bound (Z.of_nat i) C). pose proof (Z.mod_pos_bound (Z.of_nat j) C). intros E.
  assert (Z.of_nat i mod C = Z.of_nat j mod C) as E' by lia. clear E.
  pose proof (Z.div_mod (Z.of_nat i) C). pose proof (Z.div_mod (Z.of_nat j) C). rewrite E' in *.
  assert (Z.of_nat i / C = Z.of_nat j / C) by nia. nia.
Qed.

Lemma slot_next i : slot (Z.of_nat (i + CAPACITY)) = slot (Z.of_nat i).
Proof. unfold slot. pose proof capacity_range as [Hc _]. rewrite Nat2Z.inj_add. f_equal. rewrite <- (Z.mul_1_l (Z.of_nat CAPACITY)) at 1. apply Z.mod_add. lia. Qed.
(** ** The steps *)

(** What is left to show of a step of thread [t] from [pc] to [pc']. *)
Lemma ring_step s s' ts t pc pc' :
  inv (mkConf s ts) → ts !! t = Some pc → shared_ok s' → local_ok s' pc' →
  (∀ t' x, t' ≠ t → ts !! t' = Some x → local_ok s' x) →
  (consumer pc' = true → consumer pc = true) →
  (∀ i signal, entries s' !! i = Some (signal, false) →
    (∃ tail k, pc' = PStore signal tail i k) ∨ entries s !! i = Some (signal, false) ∧ (∀ x y k, pc ≠ PStore x y i k)) →
  (∀ x y i k, pc' = PStore x y i k → (length (entries s) ≤ i)%nat) →
  inv (mkConf s' (<[t := pc']> ts)).
Proof.
  intros [Hs Hp Hu Hc Hl] Ht Hs' Hl' Hoth Hcon Hpend Hnew. cbn [shared threads] in *.
  assert (Hold : ∀ t' x y i k, ts !! t' = Some (PStore x y i k) → (i < length (entries s))%nat).
  { intros t' x y i k Hx. apply Hl in Hx as (_ & _ & Hx & _). by eapply lookup_lt_Some. }
  split; cbn [shared threads]; [done|..].
  - intros i signal Hi. destruct (Hpend i signal Hi) as [(tail & k & ->)|[Hi' Hne]].
    + exists t, tail, k. apply list_lookup_insert_eq. by eapply lookup_lt_Some.
    + destruct (Hp i signal Hi') as (t' & tail & k & Hx). exists t', tail, k. rewrite list_lookup_insert_ne; [done|].
      intros <-. rewrite Ht in Hx. injection Hx as ->. by apply (Hne signal tail k).
  - intros t1 t2 x x' y y' i k k' H1 H2. apply (lookup_insert_Some _ _ _ pc) in H1 as [[-> E1]|[N1 H1]]; [| |done];
      (apply (lookup_insert_Some _ _ _ pc) in H2 as [[-> E2]|[N2 H2]]; [| |done]); [done| | |by eapply Hu].
    + symmetry in E1. apply Hnew in E1. apply Hold in H2. lia.
    + symmetry in E2. apply Hnew in E2. apply Hold in H1. lia.
  - intros t' x Hx Hx'. apply (lookup_insert_Some _ _ _ pc) in Hx as [[-> ->]|[_ Hx]]; [|by eapply Hc|done]. apply (Hc t pc Ht). auto.
  - intros t' x Hx. apply (lookup_insert_Some _ _ _ pc) in Hx as [[-> ->]|[Hne Hx]]; [done|by apply (Hoth t')|done].
Qed.

(** A step that only reads, or only counts a refusal. *)
Lemma ring_quiet s rs ts t pc pc' :
  let s' := mkRing (slots s) (state s) (entries s) (delivered s) (taken s) rs in
  inv (mkConf s ts) → ts !! t = Some pc → Forall (λ n, n = Z.of_nat CAPACITY) rs → local_ok s pc' →
  (consumer pc' = true → consumer pc = true) → (∀ x y i k, pc ≠ PStore x y i k) → (∀ x y i k, pc' ≠ PStore x y i k) →
  inv (mkConf s' (<[t := pc']> ts)).
Proof.
  intros s' Hi Ht Hrs Hl' Hcon Hn Hn'. pose proof Hi as [Hs _ _ _ Hl].
  apply (ring_step s s' ts t pc pc'); try done.
  - destruct Hs. by split.
  - intros t' x _ Hx. by apply (Hl t').
  - intros i signal Hx. right. by split.
  - intros x y i k ->. by destruct (Hn' x y i k).
Qed.

Lemma held_ext s s' i : entries s' !! i = entries s !! i → taken s' = taken s → delivered s' = delivered s → held s' i = held s i.
Proof. intros E1 E2 E3. unfold held. by rewrite E1, E2, E3. Qed.

Lemma ring_claim s ts t signal st k :
  inv (mkConf s ts) → ts !! t = Some (PCas signal st k) → state s = st → inv (mkConf (claim signal k s).1.1 (<[t := (claim signal k s).1.2]> ts)).
Proof.
  intros Hi Ht Hst. pose proof Hi as [Hs _ _ _ Hl]. cbn [shared threads] in *. pose proof (Hl t _ Ht) as (Hnz & Hfull & Hk).
  rewrite <- Hst, full_spec in Hfull by done. apply Z.leb_gt in Hfull. unfold claim. rewrite (state_parts s Hs). cbn [fst snd].
  set (s' := mkRing _ _ _ _ _ _). pose proof Hs as [H1 H2 H3 H4 H5 H6 H7 H8].
  assert (Hlen : length (entries s') = S (length (entries s))) by (cbn; rewrite length_app; cbn; lia).
  assert (Hkeep : ∀ i e, entries s !! i = Some e → entries s' !! i = Some e) by (intros i e Hx; apply lookup_app_l_Some; done).
  apply (ring_step s s' ts t (PCas signal st k)); [done|done|..].
  - split; try done.
    + cbn [state s' delivered]. rewrite Hlen. f_equal. unfold wrap16. rewrite Zplus_mod_idemp_l. f_equal. lia.
    + unfold occupied in *. rewrite Hlen. cbn [delivered s']. lia.
    + cbn [delivered s' entries]. rewrite take_app_le by (unfold occupied in H2; lia). done.
    + intros i Hw. cbn [delivered s' slots] in *. rewrite H5 by done. f_equal. unfold held. cbn [taken s' delivered].
      destruct (decide (i < length (entries s))%nat) as [Hlt|Hge].
      * cbn [entries s']. by rewrite lookup_app_l.
      * rewrite (lookup_ge_None_2 (entries s)) by lia. destruct (decide (i = length (entries s))) as [->|Hne].
        -- cbn [entries s']. by rewrite lookup_app_r, Nat.sub_diag by lia.
        -- by rewrite lookup_ge_None_2 by lia.
    + intros i e Hx. cbn [entries s'] in Hx. apply lookup_app_Some in Hx as [Hx|[_ Hx]]; [by eapply H6|].
      apply list_lookup_singleton_Some in Hx as [_ <-]. done.
    + intros Htk. destruct (H7 Htk) as [sg Hx]. exists sg. by apply Hkeep.
  - cbn. split_and!; try done; [|unfold occupied in *; lia]. by rewrite lookup_app_r, Nat.sub_diag by lia.
  - intros t' x _ Hx. apply Hl in Hx. destruct x; try done; cbn [local_ok] in *.
    + destruct Hx as (? & ? & Hx & ? & ?). apply Hkeep in Hx. done.
    + rewrite Hlen. cbn [s' delivered taken]. destruct Hx as (? & ? & ?). split_and!; try done; lia.
    + destruct Hx as (? & ? & Hx). apply Hkeep in Hx. done.
  - done.
  - intros i sg Hx. cbn [entries s'] in Hx. apply lookup_app_Some in Hx as [Hx|[Hge Hx]]; [right; by split|left].
    apply list_lookup_singleton_Some in Hx as [E [= <-]]. assert (i = length (entries s)) as -> by lia. by eauto.
  - intros x y i k' [= _ _ <- _]. done.
Qed.

Lemma ring_store s ts t signal tail i k :
  inv (mkConf s ts) → ts !! t = Some (PStore signal tail i k) →
  inv (mkConf (mkRing (<[slot tail := signal]> (slots s)) (state s) (<[i := (signal, true)]> (entries s)) (delivered s) (taken s) (refusals s))
         (<[t := Producer k]> ts)).
Proof.
  intros Hi Ht. pose proof Hi as [Hs _ Hu _ Hl]. cbn [shared threads] in *. pose proof (Hl t _ Ht) as (Hnz & Htail & He & Hge & Hk).
  pose proof (slot_wrap16 (Z.of_nat i)) as Hsl. rewrite <- Htail in Hsl. rewrite Hsl.
  set (s' := mkRing _ _ _ _ _ _). pose proof Hs as [H1 H2 H3 H4 H5 H6 H7 H8]. pose proof (lookup_lt_Some _ _ _ He) as Hlt.
  assert (Hlen : length (entries s') = length (entries s)) by apply length_insert.
  assert (Hother : ∀ j, j ≠ i → entries s' !! j = entries s !! j) by (intros j Hj; by apply list_lookup_insert_ne).
  assert (Hmine : entries s' !! i = Some (signal, true)) by (by apply list_lookup_insert_eq).
  assert (Htk : taken s = true → i ≠ length (delivered s)) by (intros Hx ->; destruct (H7 Hx) as [? Hy]; congruence).
  apply (ring_step s s' ts t (PStore signal tail i k)); [done|done|..].
  - split; try done.
    + cbn [state s' delivered]. by rewrite Hlen.
    + unfold occupied. by rewrite Hlen.
    + cbn [delivered s' entries]. rewrite take_insert_ge by lia. done.
    + cbn. by rewrite length_insert.
    + intros j Hw. cbn [delivered s' slots] in *. destruct (decide (j = i)) as [->|Hj].
      * rewrite list_lookup_insert_eq by (rewrite H4; apply slot_range). f_equal. unfold held. rewrite Hmine. cbn [taken s' delivered].
        destruct (taken s); [|done]. by rewrite (proj2 (Nat.eqb_neq _ _) (Htk eq_refl)).
      * rewrite list_lookup_insert_ne. { rewrite H5 by done. f_equal. symmetry. by apply held_ext; [apply Hother|..]. }
        intros E. apply Hj. symmetry. unfold occupied in H2. eapply ring_slot_inj; [|done|done]. lia.
    + intros j e Hx. destruct (decide (j = i)) as [->|Hj]; [rewrite Hmine in Hx; by injection Hx as <-|]. rewrite Hother in Hx by done. by eapply H6.
    + intros Hx. cbn [delivered s']. rewrite Hother by (intros E; by apply (Htk Hx)). by apply H7.
  - done.
  - intros t' x Hne Hx. pose proof Hx as Hx'. apply Hl in Hx. destruct x; try done; cbn [local_ok] in *.
    + rewrite Hother; [done|]. intros ->. apply Hne. by eapply Hu.
    + by rewrite Hlen.
    + destruct Hx as (Htr & ? & ?). rewrite Hother; [done|]. cbn [s' delivered]. intros E. by apply (Htk Htr).
  - done.
  - intros j sg Hx. right. destruct (decide (j = i)) as [->|Hj]; [congruence|]. rewrite Hother in Hx by done. split; [done|]. by intros x y k' [= _ _ -> _].
  - done.
Qed.
(** Only the consumer looks at whether the front is taken. *)
Lemma others_keep s s' ts t pc : inv (mkConf s ts) → ts !! t = Some pc → consumer pc = true → entries s' = entries s →
  (∀ x y i k, entries s !! i = Some (x, false) → (length (delivered s) ≤ i)%nat → local_ok s (PStore x y i k) → (length (delivered s') ≤ i)%nat) →
  ∀ t' x, t' ≠ t → ts !! t' = Some x → local_ok s' x.
Proof.
  intros [_ _ _ Hc Hl] Ht Hcon He Hd t' x Hne Hx. assert (Hnc : consumer x = false).
  { destruct (consumer x) eqn:E; [|done]. pose proof (Hc t' x Hx E). pose proof (Hc t pc Ht Hcon). congruence. }
  apply Hl in Hx. destruct x; try done. pose proof Hx as (? & ? & Hx1 & Hx2 & ?). cbn [local_ok shared] in *. rewrite He. split_and!; try done.
  by eapply (Hd signal tail i k).
Qed.

Lemma ring_swap s ts t st signal :
  inv (mkConf s ts) → ts !! t = Some (CSwap st) → slots s !! slot (unpack st).1 = Some signal →
  inv (mkConf (mkRing (<[slot (unpack st).1 := 0]> (slots s)) (state s) (entries s) (delivered s) (negb (signal =? 0)) (refusals s))
         (<[t := if signal =? 0 then Consumer else CCas st (unpack st).1 signal]> ts)).
Proof.
  intros Hi Ht Hsig. pose proof Hi as [Hs _ _ _ Hl]. cbn [shared threads] in *. pose proof (Hl t _ Ht) as (Htk & Hh & Hlt).
  pose proof Hs as [H1 H2 H3 H4 H5 H6 H7 H8]. rewrite Hh, slot_wrap16 in Hsig |- *. pose proof capacity_range as [Hcap _].
  assert (Hfront : signal = held s (length (delivered s))) by (rewrite H5 in Hsig by lia; congruence).
  unfold held in Hfront. rewrite Htk in Hfront. cbn [andb] in Hfront.
  set (s' := mkRing _ _ _ _ _ _). apply (ring_step s s' ts t (CSwap st)); [done|done|..].
  - split; try done.
    + cbn. by rewrite length_insert.
    + intros i Hw. cbn [delivered s' slots] in *. destruct (decide (i = length (delivered s))) as [->|Hne].
      * rewrite list_lookup_insert_eq by (rewrite H4; apply slot_range). f_equal. unfold held. cbn [entries s' taken delivered].
        rewrite Nat.eqb_refl, andb_true_r. destruct (entries s !! length (delivered s)) as [[x []]|]; [|done..].
        subst signal. destruct (Z.eqb_spec x 0) as [->|]; done.
      * rewrite list_lookup_insert_ne. { rewrite H5 by done. f_equal. unfold held. cbn [entries s' taken delivered].
          rewrite (proj2 (Nat.eqb_neq _ _) Hne), !andb_false_r. done. }
        intros E. apply Hne. symmetry. eapply ring_slot_inj; [|exact Hw|exact E]. lia.
    + cbn [taken s' entries delivered]. intros Hx%negb_true_iff%Z.eqb_neq. destruct (entries s !! length (delivered s)) as [[x []]|]; [by eexists|done..].
  - destruct (Z.eqb_spec signal 0) as [->|Hne]; cbn [local_ok taken s' entries delivered].
    + done.
    + rewrite ?(proj2 (Z.eqb_neq _ _) Hne). split_and!; try done. destruct (entries s !! length (delivered s)) as [[x []]|]; [by subst|done..].
  - by eapply (others_keep s s' ts t (CSwap st)).
  - done.
  - intros i sg Hx. right. by split.
  - intros x y i k. by destruct (signal =? 0).
Qed.

Lemma ring_advance s ts t st head signal :
  inv (mkConf s ts) → ts !! t = Some (CCas st head signal) → state s = st →
  inv (mkConf (mkRing (slots s) (pack (wrap16 (head + 1)) (unpack st).2) (entries s) (delivered s ++ [signal]) false (refusals s)) (<[t := Consumer]> ts)).
Proof.
  intros Hi Ht <-. pose proof Hi as [Hs _ _ _ Hl]. cbn [shared threads] in *. pose proof (Hl t _ Ht) as (Htk & Hh & He).
  pose proof Hs as [H1 H2 H3 H4 H5 H6 H7 H8]. rewrite (state_parts s Hs). cbn [snd]. pose proof (lookup_lt_Some _ _ _ He) as Hlt. pose proof capacity_range as [Hcap _].
  set (s' := mkRing _ _ _ _ _ _). assert (Hlen : length (delivered s') = S (length (delivered s))) by (cbn; rewrite length_app; cbn; lia).
  apply (ring_step s s' ts t (CCas (state s) head signal)); [done|done|..].
  - split; try done.
    + cbn [state s' entries]. rewrite Hlen, Hh. f_equal. unfold wrap16. rewrite Zplus_mod_idemp_l. f_equal. lia.
    + unfold occupied in *. rewrite Hlen. cbn [entries s']. lia.
    + rewrite Hlen. cbn [entries s']. rewrite (take_S_r _ _ _ He), fmap_app, <- H3. done.
    + intros i Hw. rewrite Hlen in Hw. unfold held. cbn [entries s' taken andb slots].
      assert (Hend : ∀ j, (length (delivered s) + CAPACITY ≤ j)%nat → entries s !! j = None) by (intros j Hj; apply lookup_ge_None_2; unfold occupied in H2; lia).
      destruct (decide (i = length (delivered s) + CAPACITY)%nat) as [->|Hne].
      * rewrite slot_next, H5 by lia. unfold held. rewrite He, Htk, Nat.eqb_refl, (Hend _ (le_n _)). done.
      * rewrite H5 by lia. f_equal. unfold held. rewrite (proj2 (Nat.eqb_neq i (length (delivered s)))) by lia. by rewrite andb_false_r.
  - done.
  - eapply (others_keep s s' ts t (CCas (state s) head signal)); [done..|]. intros x y i k Hx Hge _. rewrite Hlen.
    destruct (decide (i = length (delivered s))) as [->|]; [congruence|lia].
  - done.
  - intros i sg Hx. right. by split.
  - done.
Qed.

Lemma ring_attempt s ts t pc signal k :
  inv (mkConf s ts) → ts !! t = Some pc → signal ≠ 0 → Forall (λ x, x ≠ 0) k → (∀ x y i k, pc ≠ PStore x y i k) →
  inv (mkConf (attempt signal k s).1.1 (<[t := (attempt signal k s).1.2]> ts)).
Proof.
  intros Hi Ht Hnz Hk Hn. pose proof (inv_shared _ Hi) as Hs. cbn [shared] in Hs. unfold attempt. destruct (full (state s)) eqn:Ef; cbn [fst snd].
  - apply (ring_quiet s _ ts t pc); try done. apply Forall_app. split; [apply Hs|]. apply Forall_singleton.
    rewrite full_spec in Ef by done. apply Z.leb_le in Ef. pose proof (ok_window _ Hs). lia.
  - assert (Hsame : mkRing (slots s) (state s) (entries s) (delivered s) (taken s) (refusals s) = s) by (by destruct s).
    rewrite <- Hsame at 1. apply (ring_quiet s _ ts t pc); try done. apply Hs.
Qed.

Lemma ring_inv_step c c' : inv c → step program c c' → inv c'.
Proof.
  intros Hi Hs. destruct Hs as [s s' ts ts' t pc pc' n Ht Hn Hw|]; [|done]. change (ThreadModel.next program) with next in Hn. pose proof Hi as [Hsh _ _ _ Hl]. cbn [shared threads] in *.
  pose proof (Hl t pc Ht) as Hloc. assert (Hsame : mkRing (slots s) (state s) (entries s) (delivered s) (taken s) (refusals s) = s) by (by destruct s).
  assert (Hread : ∀ pc', local_ok s pc' → (consumer pc' = true → consumer pc = true) → (∀ x y i k, pc ≠ PStore x y i k) → (∀ x y i k, pc' ≠ PStore x y i k) →
    inv (mkConf s (<[t := pc']> ts))).
  { intros x H1 H2 H3 H4. rewrite <- Hsame. apply (ring_quiet s _ ts t pc); try done. apply Hsh. }
  assert (n = 0) as -> by (destruct pc as [[]| | | | | | |]; cbn [next] in Hn; unfold attempt, claim in Hn;
    try (apply elem_of_app in Hn as [Hn|Hn]); repeat case_match; choices Hn; done).
  apply wakes_zero in Hw as ->. destruct pc as [[|signal k]|signal k|signal st k|signal tail i k| |st|st head signal|]; cbn [next local_ok] in *.
  - by apply elem_of_nil in Hn.
  - apply Forall_cons in Hloc as [Hnz Hk]. apply list_elem_of_singleton in Hn as [= -> ->]. rewrite (proj2 (Z.eqb_neq _ _) Hnz). by apply Hread.
  - apply list_elem_of_singleton in Hn. destruct Hloc as [Hnz Hk]. pose proof (ring_attempt s ts t _ signal k Hi Ht Hnz Hk ltac:(done)) as H. by rewrite <- Hn in H.
  - destruct Hloc as (Hnz & _ & Hk). apply elem_of_app in Hn as [Hn|Hn].
    + destruct (Z.eqb_spec (state s) st) as [E|]; [|by apply elem_of_nil in Hn]. apply list_elem_of_singleton in Hn.
      pose proof (ring_claim s ts t signal st k Hi Ht E) as H. by rewrite <- Hn in H.
    + apply list_elem_of_singleton in Hn. pose proof (ring_attempt s ts t _ signal k Hi Ht Hnz Hk ltac:(done)) as H. by rewrite <- Hn in H.
  - apply list_elem_of_singleton in Hn as [= -> ->]. by apply (ring_store s ts t signal tail).
  - rewrite (state_parts s Hsh) in Hn. apply list_elem_of_singleton in Hn as [= -> ->]. destruct (Z.eqb_spec (wrap16 (Z.of_nat (length (delivered s)))) (wrap16 (Z.of_nat (length (entries s))))) as [E|E];
      apply Hread; try done. cbn [local_ok]. rewrite (state_parts s Hsh). split_and!; try done. pose proof (ok_window _ Hsh) as Hw. unfold occupied in Hw.
    destruct (decide (length (delivered s) = length (entries s))) as [E'|]; [by rewrite E' in E|lia].
  - destruct (slots s !! slot (unpack st).1) as [signal|] eqn:Es.
    + apply list_elem_of_singleton in Hn as [= -> ->]. by apply ring_swap.
    + apply lookup_ge_None in Es. rewrite (ok_slots _ Hsh) in Es. pose proof (slot_range (unpack st).1). lia.
  - apply elem_of_app in Hn as [Hn|Hn].
    + destruct (Z.eqb_spec (state s) st) as [E|]; [|by apply elem_of_nil in Hn]. apply list_elem_of_singleton in Hn as [= -> ->]. by apply ring_advance.
    + apply list_elem_of_singleton in Hn as [= -> ->]. by apply Hread.
  - done.
Qed.
Lemma ring_inv_start scripts : Forall (Forall (λ x, x ≠ 0)) scripts → inv (start scripts).
Proof.
  intros Hs. pose proof capacity_range as [Hc _].
  assert (Hrun : ∀ t pc, (Consumer :: (Producer <$> scripts)) !! t = Some pc → t = 0%nat ∧ pc = Consumer ∨ ∃ k, pc = Producer k ∧ Forall (λ x, x ≠ 0) k).
  { intros [|t] pc Hx; [injection Hx as <-; by left|right]. change ((Producer <$> scripts) !! t = Some pc) in Hx. rewrite list_lookup_fmap in Hx. destruct (scripts !! t) as [k|] eqn:E; [|done].
    injection Hx as <-. exists k. split; [done|]. by eapply Forall_lookup_1. }
  split; cbn [start shared threads].
  - split; cbn -[Z.of_nat]; try done; try lia.
    + unfold occupied. cbn. lia.
    + by rewrite length_replicate.
    + intros i Hi. apply lookup_replicate. split; [done|apply slot_range].
  - intros i sg Hx. done.
  - intros t t' x x' y y' i k k' Hx. destruct (Hrun t _ Hx) as [[_ ?]|(? & ? & _)]; done.
  - intros t pc Hx Hcon. destruct (Hrun t _ Hx) as [[? _]|(k & -> & _)]; done.
  - intros t pc Hx. destruct (Hrun t _ Hx) as [[_ ->]|(k & -> & Hk)]; done.
Qed.

Lemma ring_inv_reach scripts c : Forall (Forall (λ x, x ≠ 0)) scripts → reach program (start scripts) c → inv c.
Proof. intros Hs. apply reach_invariant; [by apply ring_inv_start|apply ring_inv_step]. Qed.

(** ** Progress *)

(** The consumer gets the oldest entry once that is written. *)
Lemma consumer_gets c signal :
  inv c → threads c !! 0%nat = Some Consumer → entries (shared c) !! length (delivered (shared c)) = Some (signal, true) →
  ∃ c', rtc (step_at program consumer) c c' ∧ delivered (shared c') = delivered (shared c) ++ [signal].
Proof.
  destruct c as [s ts]. cbn [shared threads]. intros Hi H0 He. pose proof (inv_shared _ Hi) as Hs. cbn [shared] in Hs. pose proof (inv_local _ Hi 0%nat _ H0) as Htk. cbn in Htk.
  pose proof (lookup_lt_Some _ _ _ He) as Hlt. pose proof (lookup_lt_Some _ _ _ H0) as Hlen. pose proof capacity_range as [Hcap _]. pose proof (ok_window _ Hs) as Hw.
  set (H := wrap16 (Z.of_nat (length (delivered s)))). set (st := state s).
  assert (Hun : unpack st = (H, wrap16 (Z.of_nat (length (entries s))))) by by apply state_parts.
  assert (Hslot : slots s !! slot H = Some signal).
  { unfold H. rewrite slot_wrap16, (ok_held _ Hs) by lia. unfold held. by rewrite He, Htk. }
  assert (Hnz : (signal =? 0) = false) by (apply Z.eqb_neq; apply (ok_nonzero _ Hs _ _ He)).
  eexists. split.
  - eapply rtc_l; [apply (step_at_quiet program consumer s s ts 0 Consumer (CSwap st)); [done..|]|].
    { cbn [ThreadModel.next program next]. fold st. rewrite Hun. rewrite (proj2 (Z.eqb_neq _ _)); [by left|]. unfold H, wrap16. intros E. unfold occupied in Hw.
      assert (E' : (Z.of_nat (length (entries s)) - Z.of_nat (length (delivered s))) mod 2 ^ 16 = 0) by (rewrite Zminus_mod, <- E, Z.sub_diag; done).
      rewrite Z.mod_small in E' by lia. lia. }
    eapply rtc_l; [eapply (step_at_quiet program consumer s _ _ 0 (CSwap st) (CCas st H signal)); [by apply list_lookup_insert_eq|done|]|].
    { cbn [ThreadModel.next program next]. rewrite Hun. cbn [fst]. rewrite Hslot, Hnz. by left. }
    eapply rtc_once. eapply (step_at_quiet program consumer _ _ _ 0 (CCas st H signal) Consumer); [apply list_lookup_insert_eq; by rewrite length_insert|done|].
    cbn [ThreadModel.next program next state]. fold st. rewrite Z.eqb_refl. by left.
  - done.
Qed.
End ring.

(** C40. Every accepted signal is delivered once, in the order in which the places
    were claimed: for every valid capacity, any number of producers (threads, or
    handlers that interrupt each other) and one consumer, under every
    interleaving and through every wrap of the 16-bit indices: no assertion or
    index fails; what was delivered is an initial part of what was claimed, and
    what is missing fits the ring; a signal is refused only when the ring is full
    at that moment; and when the oldest claimed place is written, steps of the
    consumer alone deliver it. *)
Theorem signal_ring_delivers CAPACITY scripts c :
  CAPACITY_IS_VALID CAPACITY → Forall (Forall (λ x, x ≠ 0)) scripts → reach (program CAPACITY) (start CAPACITY scripts) c →
  (∀ t, threads c !! t ≠ Some Panicked)
  ∧ (∃ l, (entries (shared c)).*1 = delivered (shared c) ++ l ∧ (length l ≤ CAPACITY)%nat)
  ∧ Forall (λ n, n = Z.of_nat CAPACITY) (refusals (shared c))
  ∧ (threads c !! 0%nat = Some Consumer → (length (delivered (shared c)) < length (entries (shared c)))%nat →
     (∀ t x y k, threads c !! t ≠ Some (PStore x y (length (delivered (shared c))) k)) →
     ∃ signal c', (entries (shared c)).*1 !! length (delivered (shared c)) = Some signal
       ∧ rtc (step_at (program CAPACITY) consumer) c c' ∧ delivered (shared c') = delivered (shared c) ++ [signal]).
Proof.
  intros Hv Hs Hr. pose proof (ring_inv_reach CAPACITY Hv scripts c Hs Hr) as Hi. pose proof Hi as [Hsh Hp _ _ Hl]. pose proof (ok_window _ _ Hsh) as Hw. unfold occupied in Hw.
  split_and!.
  - intros t Ht. by pose proof (Hl t _ Ht).
  - exists (drop (length (delivered (shared c))) (entries (shared c))).*1. rewrite (ok_order _ _ Hsh) at 1. rewrite <- fmap_app, take_drop. split; [done|].
    rewrite length_fmap, length_drop. lia.
  - apply Hsh.
  - intros H0 Hlt Hst. destruct (lookup_lt_is_Some_2 _ _ Hlt) as [[signal []] He].
    + destruct (consumer_gets CAPACITY Hv c signal Hi H0 He) as (c' & Hc & Hd). exists signal, c'. by rewrite list_lookup_fmap, He.
    + destruct (Hp _ _ He) as (t & tail & k & Ht). by destruct (Hst t signal tail k).
Qed.

(** Two producers, of which the first to claim is the last to write. *)
Definition overtaken : list Move := [Go 1 0 []; Go 1 0 []; Go 2 0 []; Go 2 0 []; Go 1 0 []; Go 2 0 []; Go 2 0 []; Go 2 0 []; Go 0 0 []; Go 0 0 []; Go 1 0 []].

Lemma signal_ring_delivers_witness :
  ∃ c, threads c = [Consumer; Producer []; Producer []] ∧ (entries (shared c)).*1 = [7; 9] ∧ delivered (shared c) = []
    ∧ ∃ signal c', (entries (shared c)).*1 !! length (delivered (shared c)) = Some signal
        ∧ rtc (step_at (program 2) consumer) c c' ∧ delivered (shared c') = delivered (shared c) ++ [signal].
Proof.
  destruct (run (program 2) overtaken (start 2 [[7]; [9]])) as [c|] eqn:E; [|by vm_compute in E].
  pose proof E as E'. vm_compute in E'. injection E' as E'.
  destruct (signal_ring_delivers 2 [[7]; [9]] c) as (_ & _ & _ & H); [by exists 1%nat; split; [lia|]|by repeat constructor|by eapply run_reach|].
  exists c. rewrite <- E' in *. split; [reflexivity|]. split; [reflexivity|]. split; [reflexivity|]. apply H; [reflexivity|cbn; lia|].
  intros [|[|[|t]]] x y k; done.
Defined.
End SignalRing.
