(* ===== verification/ThreadUnboundedQueue.v ===== *)
(** * [src/threading/unbounded_queue.rs]: the intrusive queue

    Any number of producers that push single nodes or chains of them, and one
    consumer that pops nodes or everything there is. Nodes are numbers, their
    link fields a finite map in which a null link is absent. A node is pushed
    once. Fields the code does not have: what was pushed, in the order of the
    swaps of [back], what was popped, and the chain that [pop_batch] has cut off
    and not yet returned. *)

From S2P Require Import Prelude ThreadModel.

#[local] Open Scope nat_scope.

(** [a] comes right before [b]. *)
Fixpoint adj (l : list nat) (a b : nat) : Prop :=
  match l with [] => False | x :: l => x = a ∧ head l = Some b ∨ adj l a b end.

Section adj.
Implicit Types (l : list nat) (a b : nat).

Lemma adj_elem l a b : adj l a b → a ∈ l ∧ b ∈ l.
Proof.
  induction l as [|x l IH]; [done|]. intros [[-> H]|H]; [|naive_solver set_solver].
  split; [by left|]. right. destruct l; [done|]. injection H as ->. by left.
Qed.

Lemma adj_app l1 l2 a b : adj (l1 ++ l2) a b ↔ adj l1 a b ∨ adj l2 a b ∨ last l1 = Some a ∧ head l2 = Some b.
Proof.
  induction l1 as [|x l1 IH]; cbn [adj app]; [naive_solver|]. rewrite IH. destruct l1 as [|y l1]; cbn [head app last adj]; naive_solver.
Qed.

Lemma adj_det l a b b' : NoDup l → adj l a b → adj l a b' → b = b'.
Proof.
  induction l as [|x l IH]; [done|]. intros [Hx Hl]%NoDup_cons [[-> H]|H] [[E H']|H']; [congruence| | |by apply IH].
  - apply adj_elem in H' as [? _]. done.
  - subst. apply adj_elem in H as [? _]. done.
Qed.

Lemma adj_not_last l a b : NoDup l → adj l a b → last l ≠ Some a.
Proof.
  induction l as [|x l IH]; [done|]. intros [Hx Hl]%NoDup_cons H. destruct l as [|y l]; cbn [last].
  - destruct H as [[_ H]|H]; done.
  - destruct H as [[-> _]|H]; [|by apply IH]. intros E. apply Hx. change (last (y :: l) = Some a) in E. by eapply last_Some_elem_of.
Qed.

Lemma not_last_adj l a : a ∈ l → last l ≠ Some a → ∃ b, adj l a b.
Proof.
  induction l as [|x l IH]; intros Hin Hl; [by apply elem_of_nil in Hin|]. destruct l as [|y l].
  - apply list_elem_of_singleton in Hin as ->. done.
  - apply elem_of_cons in Hin as [->|Hin]; [exists y; by left|]. destruct IH as [b Hb]; [done|done|]. exists b. by right.
Qed.
End adj.

Module UnboundedQueue.
Record Queue := mkQueue {
  back : option nat; front : option nat; links : gmap nat nat;
  pushed : list nat; popped : list nat; cut : list nat }.
Definition new : Queue := mkQueue None None ∅ [] [] [].

Definition set_back (b : option nat) (s : Queue) : Queue := mkQueue b (front s) (links s) (pushed s) (popped s) (cut s).
Definition set_front (f : option nat) (s : Queue) : Queue := mkQueue (back s) f (links s) (pushed s) (popped s) (cut s).
Definition set_links (m : gmap nat nat) (s : Queue) : Queue := mkQueue (back s) (front s) m (pushed s) (popped s) (cut s).
Definition note_pushed (l : list nat) (s : Queue) : Queue := mkQueue (back s) (front s) (links s) (pushed s ++ l) (popped s) (cut s).
Definition note_popped (l : list nat) (s : Queue) : Queue := mkQueue (back s) (front s) (links s) (pushed s) (popped s ++ l) (cut s).
Definition set_cut (l : list nat) (s : Queue) : Queue := mkQueue (back s) (front s) (links s) (pushed s) (popped s) l.

(** [Node::set_next] and [atomic_store_next] *)
Definition set_next (item : nat) (p : option nat) (m : gmap nat nat) : gmap nat nat :=
  match p with Some j => <[item := j]> m | None => delete item m end.

(** The caller of [push_batch] has linked the chain. *)
Fixpoint link_chain (l : list nat) (m : gmap nat nat) : gmap nat nat :=
  match l with a :: (b :: _) as r => set_next a (Some b) (link_chain r m) | _ => m end.

(** The walk of the debug assertion of [push_batch]. *)
Fixpoint walk_end (fuel : nat) (m : gmap nat nat) (item : nat) : option nat :=
  match m !! item with
  | None => Some item
  | Some j => match fuel with O => None | S fuel => walk_end fuel m j end
  end.

(** [BatchIterator::next], [count] times. *)
Fixpoint iterate (count : nat) (m : gmap nat nat) (item : option nat) : option (list nat) :=
  match count with
  | O => Some []
  | S count => a ← item; rest ← iterate count m (m !! a); Some (a :: rest)
  end.

Inductive Pc :=
| Producer (k : list (list nat)) (* the batches it will push; [push] is a batch of one *)
| PSetNext (batch : list nat) (k : list (list nat))
| PSwap (batch : list nat) (k : list (list nat)) (* [self.back.swap(last)] *)
| PLink (old : nat) (batch : list nat) (k : list (list nat)) (* the store of [old_back]'s link *)
| PFront (batch : list nat) (k : list (list nat)) (* [self.front.store(first)] *)
| Consumer
| CLoad (* [pop] *)
| CNext (first : nat)
| CCas (first : nat) (next_ptr : option nat)
| CBack (first : nat)
| CSpin (first : nat)
| CStore (first new_first : nat)
| BFront (* [pop_batch] *)
| BBack (first : nat)
| BWalk (first next_item last : nat) (count : nat)
| Panicked.

Definition next (t : nat) (s : Queue) (pc : Pc) : list (Queue * Pc * Z) :=
  match pc with
  | Producer [] => []
  | Producer (batch :: k) => [(set_links (link_chain batch (links s)) s, PSetNext batch k, 0%Z)]
  | PSetNext batch k =>
      match head batch, last batch with
      | Some first, Some last =>
          let m := set_next last None (links s) in
          [(set_links m s, if bool_decide (walk_end (length batch) m first = Some last) then PSwap batch k else Panicked, 0%Z)]
      | _, _ => []
      end
  | PSwap batch k =>
      [(note_pushed batch (set_back (last batch) s), match back s with Some old => PLink old batch k | None => PFront batch k end, 0%Z)]
  | PLink old batch k => [(set_links (set_next old (head batch) (links s)) s, Producer k, 0%Z)]
  | PFront batch k => [(set_front (head batch) s, Producer k, 0%Z)]
  | Consumer => [(s, CLoad, 0%Z); (s, BFront, 0%Z)]
  | CLoad => [(s, match front s with None => Consumer | Some first => CNext first end, 0%Z)]
  | CNext first => [(s, CCas first (links s !! first), 0%Z)]
  | CCas first next_ptr =>
      (if bool_decide (front s = Some first) then
         match next_ptr with
         | Some _ => [(note_popped [first] (set_front next_ptr s), Consumer, 0%Z)]
         | None => [(set_front None s, CBack first, 0%Z)]
         end
       else []) ++ [(s, match front s with None => Consumer | Some maybe_first => CNext maybe_first end, 0%Z)]
  | CBack first =>
      if bool_decide (back s = Some first) then [(note_popped [first] (set_back None s), Consumer, 0%Z)]
      else [(s, match back s with None => Panicked | Some _ => CSpin first end, 0%Z)]
  | CSpin first => [(s, match links s !! first with None => CSpin first | Some n => CStore first n end, 0%Z)]
  | CStore first new_first => [(note_popped [first] (set_front (Some new_first) s), Consumer, 0%Z)]
  | BFront => [(set_front None s, match front s with None => Consumer | Some first => BBack first end, 0%Z)]
  | BBack first =>
      match back s with
      | None => [(s, Panicked, 0%Z)]
      | Some last => [(set_cut (drop (length (popped s)) (pushed s)) (set_back None s), BWalk first first last 1, 0%Z)]
      end
  | BWalk first item last count =>
      if bool_decide (item = last) then
        match iterate count (links s) (Some first) with
        | Some batch => [(set_cut [] (note_popped batch s), Consumer, 0%Z)]
        | None => [(s, Panicked, 0%Z)]
        end
      else [(s, match links s !! item with None => pc | Some n => BWalk first n last (count + 1) end, 0%Z)]
  | Panicked => []
  end.

Definition program : Program Queue Pc := mkProgram _ _ next (λ _, false) (λ pc, pc).

Definition start (scripts : list (list (list nat))) : Conf Queue Pc := mkConf new (Consumer :: (Producer <$> scripts)).

Definition is_empty (s : Queue) : bool := bool_decide (back s = None).
(** ** The invariant *)

Definition consumer (pc : Pc) : bool :=
  match pc with Producer _ | PSetNext _ _ | PSwap _ _ | PLink _ _ _ | PFront _ _ => false | _ => true end.

(** The nodes a producer has not yet pushed. *)
Definition unpushed (pc : Pc) : list nat :=
  match pc with
  | Producer k | PLink _ _ k | PFront _ k => concat k
  | PSetNext batch k | PSwap batch k => batch ++ concat k
  | _ => []
  end.

Definition linking (ts : list Pc) (a b : nat) : Prop := ∃ t batch k, ts !! t = Some (PLink a batch k) ∧ head batch = Some b.
Definition fronting (ts : list Pc) (b : nat) : Prop := ∃ t batch k, ts !! t = Some (PFront batch k) ∧ head batch = Some b.

(** Every link of a chain is there, or about to be stored. *)
Definition chained (m : gmap nat nat) (ts : list Pc) (l : list nat) : Prop :=
  (∀ a b, adj l a b → m !! a = Some b ∨ m !! a = None ∧ linking ts a b) ∧ ∀ a, last l = Some a → m !! a = None.

(** The queue holds [q]. *)
Record holds (q : list nat) (s : Queue) (ts : list Pc) : Prop := {
  h_split : pushed s = popped s ++ cut s ++ q;
  h_nodup : NoDup (pushed s);
  h_back : back s = last q;
  h_cut : chained (links s) ts (cut s);
  h_queue : chained (links s) ts q;
  h_link : ∀ t a batch k, ts !! t = Some (PLink a batch k) → links s !! a = None ∧ ∃ b, head batch = Some b ∧ (adj (cut s) a b ∨ adj q a b);
  h_link1 : ∀ t t' a batch batch' k k', ts !! t = Some (PLink a batch k) → ts !! t' = Some (PLink a batch' k') → t = t';
  h_front : ∀ t batch k, ts !! t = Some (PFront batch k) → front s = None ∧ ∃ b, head batch = Some b ∧ head q = Some b;
  h_front1 : ∀ t t' batch batch' k k', ts !! t = Some (PFront batch k) → ts !! t' = Some (PFront batch' k') → t = t';
}.

Definition front_ok (q : list nat) (s : Queue) (ts : list Pc) : Prop :=
  match head q with None => front s = None | Some x => front s = Some x ∨ front s = None ∧ fronting ts x end.

Definition grabbed (first : nat) (q : list nat) (s : Queue) (ts : list Pc) : Prop :=
  front s = None ∧ head q = Some first ∧ (∀ b, ¬ fronting ts b) ∧ cut s = [].

(** What the consumer knows at its place. *)
Definition consumer_ok (q : list nat) (s : Queue) (ts : list Pc) (pc : Pc) : Prop :=
  match pc with
  | Consumer | CLoad | BFront => front_ok q s ts ∧ cut s = []
  | CNext first => front s = Some first ∧ head q = Some first ∧ cut s = []
  | CCas first n => front s = Some first ∧ head q = Some first ∧ cut s = [] ∧ (n = None ∨ links s !! first = n)
  | CBack first | BBack first => grabbed first q s ts
  | CSpin first => grabbed first q s ts ∧ last q ≠ Some first
  | CStore first n => grabbed first q s ts ∧ links s !! first = Some n
  | BWalk first item l count => front_ok q s ts ∧ head (cut s) = Some first ∧ last (cut s) = Some l ∧ 1 ≤ count ∧ cut s !! (count - 1) = Some item
      ∧ (∀ i a b, i + 1 < count → cut s !! i = Some a → cut s !! (i + 1) = Some b → links s !! a = Some b)
  | _ => False
  end.

Definition producer_ok (s : Queue) (pc : Pc) : Prop :=
  NoDup (unpushed pc) ∧ (∀ n, n ∈ unpushed pc → n ∉ pushed s)
  ∧ match pc with
    | Producer k | PLink _ _ k | PFront _ k => Forall (λ b, b ≠ []) k
    | PSetNext batch k => batch ≠ [] ∧ Forall (λ b, b ≠ []) k ∧ ∀ a b, adj batch a b → links s !! a = Some b
    | PSwap batch k => batch ≠ [] ∧ Forall (λ b, b ≠ []) k ∧ chained (links s) [] batch
    | _ => False
    end.

Record inv (q : list nat) (c : Conf Queue Pc) : Prop := {
  inv_holds : holds q (shared c) (threads c);
  inv_zero : ∃ pc, threads c !! 0 = Some pc;
  inv_role : ∀ t pc, threads c !! t = Some pc → consumer pc = true ↔ t = 0;
  inv_consumer : ∀ pc, threads c !! 0 = Some pc → consumer_ok q (shared c) (threads c) pc;
  inv_producer : ∀ t pc, threads c !! t = Some pc → t ≠ 0 → producer_ok (shared c) pc;
  inv_apart : ∀ t t' pc pc' n, t ≠ t' → threads c !! t = Some pc → threads c !! t' = Some pc' → n ∈ unpushed pc → n ∈ unpushed pc' → False;
}.

(** ** Chains *)

Lemma link_chain_other l m a : a ∉ l → link_chain l m !! a = m !! a.
Proof.
  induction l as [|x l IH]; [done|]. intros [Hne Hni]%not_elem_of_cons. destruct l as [|y l]; [done|].
  change (link_chain (x :: y :: l) m) with (<[x := y]> (link_chain (y :: l) m)). rewrite lookup_insert_ne by done. by apply IH.
Qed.

Lemma link_chain_adj l m a b : NoDup l → adj l a b → link_chain l m !! a = Some b.
Proof.
  induction l as [|x l IH]; [done|]. intros [Hx Hl]%NoDup_cons H. destruct l as [|y l]; [destruct H as [[_ H]|H]; done|].
  change (link_chain (x :: y :: l) m) with (<[x := y]> (link_chain (y :: l) m)). destruct H as [[-> [= ->]]|H]; [apply lookup_insert_eq|].
  rewrite lookup_insert_ne; [by apply IH|]. intros ->. apply adj_elem in H as [? _]. done.
Qed.

(** A chain all of whose links are stored, and that ends. *)
Lemma walk_chain l m x : (∀ a b, adj l a b → m !! a = Some b) → (∀ a, last l = Some a → m !! a = None) → head l = Some x →
  walk_end (length l) m x = last l.
Proof.
  revert x. induction l as [|y l IH]; intros x Ha Hl [= ->]. cbn [length walk_end]. destruct l as [|z l].
  - by rewrite (Hl x eq_refl).
  - rewrite (Ha x z) by (by left). change (last (x :: z :: l)) with (last (z :: l)). apply IH; [|done|done]. intros a b H. apply Ha. by right.
Qed.

Lemma iterate_chain l m x : (∀ i a b, i + 1 < length l → l !! i = Some a → l !! (i + 1) = Some b → m !! a = Some b) → head l = Some x →
  iterate (length l) m (Some x) = Some l.
Proof.
  revert x. induction l as [|y l IH]; intros x Ha [= ->]. cbn [length iterate mbind option_bind]. destruct l as [|z l]; [done|].
  rewrite (Ha 0 x z) by (done || (cbn; lia)). rewrite (IH z); [done| |done]. intros i a b Hlt H1 H2. apply (Ha (S i)); [cbn in *; lia|done|done].
Qed.

Lemma adj_lookup (l : list nat) i a b : l !! i = Some a → l !! (i + 1) = Some b → adj l a b.
Proof.
  revert i. induction l as [|x l IH]; intros [|i]; cbn; try done.
  - intros [= ->] H. left. split; [done|]. by destruct l.
  - intros H1 H2. right. by apply (IH i).
Qed.

Lemma lookup_adj (l : list nat) a b : adj l a b → ∃ i, l !! i = Some a ∧ l !! (i + 1) = Some b.
Proof.
  induction l as [|x l IH]; [done|]. intros [[-> H]|H]; [exists 0; by destruct l|]. destruct (IH H) as (i & H1 & H2). by exists (S i).
Qed.

Lemma adj_next (l : list nat) i a b : NoDup l → adj l a b → l !! i = Some a → l !! (i + 1) = Some b.
Proof. intros Hd (j & H1 & H2)%lookup_adj Hi. by rewrite (NoDup_lookup _ _ _ _ Hd Hi H1). Qed.

(** ** Steps of the consumer *)

Definition pusher (pc : Pc) : bool := match pc with PLink _ _ _ | PFront _ _ => true | _ => false end.

Lemma pushers_keep (ts : list Pc) (t : nat) (pc pc' : Pc) : ts !! t = Some pc → pusher pc = false → pusher pc' = false →
  ∀ (t' : nat) (x : Pc), pusher x = true → <[t := pc']> ts !! t' = Some x ↔ ts !! t' = Some x.
Proof.
  intros Ht Hp Hp' t' x Hx. split.
  - intros [[-> ->]|[_ H]]%(lookup_insert_Some _ _ _ pc); [congruence|done|done].
  - intros H. rewrite list_lookup_insert_ne; [done|]. intros ->. congruence.
Qed.

Section same.
Context (ts ts' : list Pc) (Hsame : ∀ (t : nat) (x : Pc), pusher x = true → ts' !! t = Some x ↔ ts !! t = Some x).

Lemma linking_same a b : linking ts' a b ↔ linking ts a b.
Proof. unfold linking. split; intros (t & batch & k & H & Hh); exists t, batch, k; (split; [|done]); by apply (Hsame t (PLink a batch k) eq_refl). Qed.

Lemma fronting_same b : fronting ts' b ↔ fronting ts b.
Proof. unfold fronting. split; intros (t & batch & k & H & Hh); exists t, batch, k; (split; [|done]); by apply (Hsame t (PFront batch k) eq_refl). Qed.

Lemma chained_same m l : chained m ts l → chained m ts' l.
Proof. intros [Ha Hl]. split; [|done]. intros a b H. destruct (Ha a b H) as [|[? ?]]; [by left|right]. by rewrite linking_same. Qed.

Lemma holds_same q s : holds q s ts → holds q s ts'.
Proof.
  intros [H1 H2 H3 H4 H5 H6 H7 H8 H9]. split; try done; try (by apply chained_same).
  - intros t a batch k H%Hsame; [|done]. by eapply H6.
  - intros t t' a batch batch' k k' H%Hsame H'%Hsame; [|done..]. by eapply H7.
  - intros t batch k H%Hsame; [|done]. by eapply H8.
  - intros t t' batch batch' k k' H%Hsame H'%Hsame; [|done..]. by eapply H9.
Qed.

Lemma consumer_same q s pc : consumer_ok q s ts pc → consumer_ok q s ts' pc.
Proof.
  assert (Hf : front_ok q s ts → front_ok q s ts') by (unfold front_ok; destruct (head q); [rewrite fronting_same|]; done).
  assert (Hg : ∀ x, grabbed x q s ts → grabbed x q s ts') by (unfold grabbed; intros x (? & ? & Hn & ?); split_and!; try done; intros b; rewrite fronting_same; done).
  destruct pc; cbn; naive_solver.
Qed.
End same.

Lemma queue_consumer_step q q' s s' ts pc pc' :
  inv q (mkConf s ts) → ts !! 0 = Some pc → consumer pc' = true → links s' = links s → pushed s' = pushed s →
  holds q' s' ts → consumer_ok q' s' ts pc' → inv q' (mkConf s' (<[0 := pc']> ts)).
Proof.
  intros [Hh Hz Hr Hc Hp Ha] H0 Hpc' Hl Hpu Hh' Hc'. cbn [shared threads] in *. pose proof (lookup_lt_Some _ _ _ H0) as Hlen.
  assert (Hpc : consumer pc = true) by (by apply (Hr 0)).
  pose proof (pushers_keep ts 0 pc pc' H0 ltac:(by destruct pc) ltac:(by destruct pc')) as Hsame.
  split; cbn [shared threads].
  - by apply (holds_same ts).
  - exists pc'. by apply list_lookup_insert_eq.
  - intros t x [[-> ->]|[_ H]]%(lookup_insert_Some _ _ _ pc); [by rewrite Hpc'|by apply Hr|done].
  - intros x Hx. rewrite list_lookup_insert_eq in Hx by done. injection Hx as <-. by apply (consumer_same ts).
  - intros t x [[-> _]|[_ H]]%(lookup_insert_Some _ _ _ pc) Ht; [done| |done]. specialize (Hp t x H Ht). unfold producer_ok in *. by rewrite Hl, Hpu.
  - intros t t' x x' n Hne H1 H2 Hn Hn'. assert (Hnil : unpushed pc' = []) by (by destruct pc').
    apply (lookup_insert_Some _ _ _ pc) in H1 as [[-> ->]|[_ H1]]; [by rewrite Hnil in Hn; apply elem_of_nil in Hn| |done].
    apply (lookup_insert_Some _ _ _ pc) in H2 as [[-> ->]|[_ H2]]; [by rewrite Hnil in Hn'; apply elem_of_nil in Hn'| |done]. by eapply Ha.
Qed.

(** The front node leaves, and the next one is known. *)
Lemma pop_front q s ts first n :
  holds q s ts → head q = Some first → cut s = [] → links s !! first = Some n → (∀ b, ¬ fronting ts b) →
  ∃ q', head q' = Some n ∧ holds q' (note_popped [first] (set_front (Some n) s)) ts.
Proof.
  intros [H1 H2 H3 H4 H5 H6 H7 H8 H9] Hq Hcut Hn Hno. destruct q as [|x q']; [done|]. injection Hq as ->. exists q'.
  rewrite Hcut in *. cbn [app] in *. assert (Hnd : NoDup (first :: q')) by (rewrite H1 in H2; by apply NoDup_app in H2 as (_ & _ & ?)).
  destruct H5 as [Hadj Hlast]. assert (Hne : last (first :: q') ≠ Some first) by (intros E; rewrite (Hlast _ E) in Hn; done).
  destruct (not_last_adj (first :: q') first) as [b Hb]; [by left|done|]. assert (b = n) as ->.
  { destruct (Hadj _ _ Hb) as [E|[E _]]; congruence. }
  assert (Hhead : head q' = Some n). { destruct Hb as [[_ H]|H]; [done|]. apply NoDup_cons in Hnd as [Hx _]. by apply adj_elem in H as [? _]. }
  assert (Hl' : last (first :: q') = last q') by (by destruct q').
  split; [done|]. split; cbn [note_popped set_front pushed popped cut back links front]; try done.
  - by rewrite Hcut, H1, <- app_assoc.
  - by rewrite H3, Hl'.
  - by rewrite Hcut.
  - split; [|by rewrite <- Hl']. intros a c H. apply Hadj. by right.
  - intros t a batch k H. destruct (H6 t a batch k H) as (E & c & Hc & Ho). split; [done|]. exists c. split; [done|]. right. destruct Ho as [[]|[[-> _]|Ho]]; [congruence|done].
  - intros t batch k H. destruct (H8 t batch k H) as (_ & b & Hb' & _). destruct (Hno b). by exists t, batch, k.
Qed.

Lemma holds_no_front q s ts x : holds q s ts → front s = Some x → ∀ b, ¬ fronting ts b.
Proof. intros Hh E b (t & batch & k & H & _). apply (h_front _ _ _ Hh) in H as [? _]. congruence. Qed.
Lemma head_last_single (q : list nat) x : NoDup q → head q = Some x → last q = Some x → q = [x].
Proof.
  destruct q as [|y [|z q]]; [done|by intros _ [= ->]|]. intros [Hn _]%NoDup_cons [= ->] H. destruct Hn.
  change (last (z :: q) = Some x) in H. by eapply last_Some_elem_of.
Qed.

Lemma queue_nodup q s ts : holds q s ts → NoDup (popped s) ∧ NoDup (cut s) ∧ NoDup q ∧ (∀ x, x ∈ cut s → x ∉ q).
Proof.
  intros Hh. pose proof (h_nodup _ _ _ Hh) as H. rewrite (h_split _ _ _ Hh) in H.
  apply NoDup_app in H as (H1 & _ & H). apply NoDup_app in H as (H2 & H3 & H4). split_and!; try done.
Qed.

(** The last node leaves. *)
Lemma pop_last s ts first : holds [first] s ts → cut s = [] → front s = None → (∀ b, ¬ fronting ts b) → holds [] (note_popped [first] (set_back None s)) ts.
Proof.
  intros [H1 H2 H3 H4 H5 H6 H7 H8 H9] Hcut Hf Hno. split; cbn [note_popped set_back pushed popped cut back links front]; try done.
  - rewrite H1, Hcut. by rewrite <- app_assoc.
  - intros t a batch k H. destruct (H6 t a batch k H) as (_ & b & _ & Ho). rewrite Hcut in Ho. destruct Ho as [[]|[[_ ?]|[]]]. done.
  - intros t batch k H. destruct (H8 t batch k H) as (_ & b & Hb & _). destruct (Hno b). by exists t, batch, k.
Qed.

(** [pop_batch] takes everything. *)
Lemma cut_all q s ts : holds q s ts → cut s = [] → front s = None → (∀ b, ¬ fronting ts b) → holds [] (set_cut q (set_back None s)) ts.
Proof.
  intros [H1 H2 H3 H4 H5 H6 H7 H8 H9] Hcut Hf Hno. split; cbn [set_cut set_back pushed popped cut back links front]; try done.
  - rewrite H1, Hcut. by rewrite app_nil_r.
  - intros t a batch k H. destruct (H6 t a batch k H) as (E & b & Hb & Ho). split; [done|]. exists b. split; [done|]. left. rewrite Hcut in Ho. by destruct Ho.
  - intros t batch k H. destruct (H8 t batch k H) as (_ & b & Hb & _). destruct (Hno b). by exists t, batch, k.
Qed.

(** The batch is returned. *)
Lemma return_cut q s ts : holds q s ts → (∀ a b, adj (cut s) a b → links s !! a = Some b) → holds q (set_cut [] (note_popped (cut s) s)) ts.
Proof.
  intros [H1 H2 H3 H4 H5 H6 H7 H8 H9] Hall. split; cbn [set_cut note_popped pushed popped cut back links front]; try done.
  - by rewrite H1, <- app_assoc.
  - intros t a batch k H. destruct (H6 t a batch k H) as (E & b & Hb & [Ho|Ho]); [|by eauto]. apply Hall in Ho. congruence.
Qed.

Lemma take_front q s ts x : holds q s ts → front s = Some x → holds q (set_front None s) ts.
Proof.
  intros [H1 H2 H3 H4 H5 H6 H7 H8 H9] E. split; try done. intros t batch k H. destruct (H8 t batch k H). congruence.
Qed.

Lemma queue_consumer_move q s s' ts pc pc' n : inv q (mkConf s ts) → ts !! 0 = Some pc → (s', pc', n) ∈ next 0 s pc → consumer pc = true →
  n = 0%Z ∧ ∃ q', inv q' (mkConf s' (<[0 := pc']> ts)).
Proof.
  intros Hi H0 Hn Hcon. pose proof (inv_holds _ _ Hi) as Hh. pose proof (inv_consumer _ _ Hi pc H0) as Hc. cbn [shared threads] in *.
  destruct (queue_nodup _ _ _ Hh) as (_ & Hcd & Hqd & _).
  assert (Hstep : ∀ q' s' pc', consumer pc' = true → links s' = links s → pushed s' = pushed s → holds q' s' ts → consumer_ok q' s' ts pc' →
    ∃ q', inv q' (mkConf s' (<[0 := pc']> ts))) by (intros; eexists; by eapply queue_consumer_step).
  assert (Hread : ∀ pc', consumer pc' = true → consumer_ok q s ts pc' → ∃ q', inv q' (mkConf s (<[0 := pc']> ts))) by (intros; by eapply Hstep).
  assert (Hfr : ∀ x, front_ok q s ts → front s = Some x → head q = Some x) by (intros x; unfold front_ok; destruct (head q); naive_solver).
  assert (Hpop : ∀ first m, head q = Some first → cut s = [] → links s !! first = Some m → (∀ b, ¬ fronting ts b) →
    ∃ q', inv q' (mkConf (note_popped [first] (set_front (Some m) s)) (<[0 := Consumer]> ts))).
  { intros first m H1 H2 H3 H4. destruct (pop_front q s ts first m Hh H1 H2 H3 H4) as (q' & Hq' & Hh'). eapply (Hstep q'); try done.
    split; [|done]. unfold front_ok. rewrite Hq'. by left. }
  destruct pc as [| | | | | | |first|first m|first|first|first m| |first|first item l cnt|]; try done; cbn [next consumer_ok] in *.
  - (* Consumer *) choices Hn; (split; [done|]); by apply Hread.
  - (* CLoad *) choices Hn. split; [done|]. destruct (front s) as [x|] eqn:Ef; apply Hread; try done. cbn. split_and!; [done|apply Hfr; [apply Hc|done]|apply Hc].
  - (* CNext *) choices Hn. split; [done|]. apply Hread; [done|]. cbn. naive_solver.
  - (* CCas *)
    destruct Hc as (Hf & Hq & Hcut & Hm). apply elem_of_app in Hn as [Hn|Hn].
    + rewrite bool_decide_eq_true_2 in Hn by done. pose proof (holds_no_front _ _ _ _ Hh Hf) as Hno. destruct m as [m|]; choices Hn; (split; [done|]).
      * destruct Hm as [|Hm]; [done|]. by apply Hpop.
      * eapply (Hstep q); try done. by eapply take_front.
    + choices Hn. split; [done|]. rewrite Hf. by apply Hread.
  - (* CBack *)
    destruct Hc as (Hf & Hq & Hno & Hcut). destruct (bool_decide_reflect (back s = Some first)) as [E|E]; choices Hn; (split; [done|]).
    + rewrite (h_back _ _ _ Hh) in E. rewrite (head_last_single q first Hqd Hq E) in *. eapply (Hstep []); try done. by apply pop_last.
    + rewrite (h_back _ _ _ Hh) in *. destruct (last q) as [y|] eqn:El; [|apply last_None in El; by rewrite El in Hq].
      apply Hread; [done|]. split; [by split_and!|]. congruence.
  - (* CSpin *)
    choices Hn. split; [done|]. destruct (links s !! first) eqn:El; apply Hread; try done. split; [apply Hc|done].
  - (* CStore *)
    choices Hn. split; [done|]. destruct Hc as ((Hf & Hq & Hno & Hcut) & Hm). by apply Hpop.
  - (* BFront *)
    choices Hn. split; [done|]. destruct Hc as [Hf Hcut]. destruct (front s) as [x|] eqn:Ef.
    + pose proof (holds_no_front _ _ _ _ Hh Ef) as Hno. eapply (Hstep q); try done.
      * by eapply take_front.
      * cbn. split_and!; try done. by apply Hfr.
    + assert (set_front None s = s) as -> by (destruct s; cbn in *; by subst). by apply Hread.
  - (* BBack *)
    destruct Hc as (Hf & Hq & Hno & Hcut). rewrite (h_back _ _ _ Hh) in Hn. destruct (last q) as [y|] eqn:El; [|apply last_None in El; by rewrite El in Hq].
    choices Hn. split; [done|]. assert (drop (length (popped s)) (pushed s) = q) as -> by (rewrite (h_split _ _ _ Hh), Hcut; apply drop_app_length).
    eapply (Hstep []); try done; [by apply cut_all|]. cbn. split_and!; try done; [|lia]. by destruct q; cbn in *.
  - (* BWalk *)
    destruct Hc as (Hf & Hh1 & Hl & Hc1 & Hit & Hwalk). case_bool_decide as E.
    + subst l. assert (Ecnt : cnt = length (cut s)).
      { rewrite last_lookup in Hl. pose proof (NoDup_lookup _ _ _ _ Hcd Hit Hl). pose proof (lookup_lt_Some _ _ _ Hit). lia. }
      subst cnt. rewrite (iterate_chain (cut s)) in Hn by done. choices Hn. split; [done|]. eapply (Hstep q); try done.
      apply return_cut; [done|]. intros a b (i & Ha & Hb)%lookup_adj. apply (Hwalk i); try done. by eapply lookup_lt_Some.
    + choices Hn. split; [done|]. destruct (links s !! item) as [m|] eqn:Em; apply Hread; try done; cbn; split_and!; try done; try lia.
      * destruct (not_last_adj (cut s) item) as [b Hb]; [by eapply list_elem_of_lookup_2|congruence|].
        destruct (proj1 (h_cut _ _ _ Hh) _ _ Hb) as [E'|[E' _]]; [|congruence]. assert (b = m) as -> by congruence.
        rewrite <- (adj_next _ _ _ _ Hcd Hb Hit). f_equal. lia.
      * intros i a b Hlt Ha Hb. destruct (decide (i + 1 < cnt)) as [Hi'|Hi']; [by eapply Hwalk|]. assert (i = cnt - 1) as -> by lia.
        rewrite Hit in Ha. injection Ha as <-. pose proof (adj_lookup _ _ _ _ Hit Hb) as Hadj.
        destruct (proj1 (h_cut _ _ _ Hh) _ _ Hadj) as [E'|[E' _]]; congruence.
Qed.
(** ** Steps of the producers *)

(** What a step of a producer has to show beside the queue itself. *)
Lemma queue_producer_step q q' s s' ts t pc pc' :
  inv q (mkConf s ts) → ts !! t = Some pc → consumer pc = false → consumer pc' = false →
  holds q' s' (<[t := pc']> ts) → (∀ x, ts !! 0 = Some x → consumer_ok q' s' (<[t := pc']> ts) x) → producer_ok s' pc' →
  (∀ t' x, t' ≠ t → ts !! t' = Some x → consumer x = false → producer_ok s' x) → (∀ n, n ∈ unpushed pc' → n ∈ unpushed pc) →
  inv q' (mkConf s' (<[t := pc']> ts)).
Proof.
  intros [Hh Hz Hr Hc Hp Ha] Ht Hpc Hpc' Hh' Hc' Hp' Hoth Hsub. cbn [shared threads] in *.
  assert (Ht0 : t ≠ 0). { intros ->. apply Hr in Ht. assert (consumer pc = true) by (by apply Ht). congruence. }
  split; cbn [shared threads]; [done|..].
  - rewrite list_lookup_insert_ne by done. done.
  - intros t' x [[-> ->]|[_ H]]%(lookup_insert_Some _ _ _ pc); [by rewrite Hpc'|by apply Hr|done].
  - intros x Hx. rewrite list_lookup_insert_ne in Hx by done. by apply Hc'.
  - intros t' x [[-> ->]|[Hne H]]%(lookup_insert_Some _ _ _ pc) Ht'; [done| |done]. apply (Hoth t'); [done|done|].
    destruct (consumer x) eqn:E; [|done]. by apply (Hr t' x H) in E.
  - intros t1 t2 x x' n Hne H1 H2 Hn Hn'. apply (lookup_insert_Some _ _ _ pc) in H1 as [[-> ->]|[N1 H1]]; [| |done];
      (apply (lookup_insert_Some _ _ _ pc) in H2 as [[-> ->]|[N2 H2]]; [| |done]); [done|..].
    + by eapply (Ha t t2 pc x' n); auto.
    + by eapply (Ha t1 t x pc n); auto.
    + by eapply (Ha t1 t2).
Qed.

Lemma pushed_of q s ts x : holds q s ts → x ∈ cut s ∨ x ∈ q → x ∈ pushed s.
Proof. intros Hh Hx. rewrite (h_split _ _ _ Hh), !elem_of_app. naive_solver. Qed.

Lemma head_elem (q : list nat) x : head q = Some x → x ∈ q.
Proof. destruct q; [done|]. intros [= ->]. by left. Qed.

(** The links of nodes that are not yet pushed may change. *)
Lemma queue_links q s ts t pc pc' m :
  inv q (mkConf s ts) → ts !! t = Some pc → consumer pc = false → consumer pc' = false → pusher pc = false → pusher pc' = false →
  unpushed pc' = unpushed pc → (∀ a, a ∉ unpushed pc → m !! a = links s !! a) → producer_ok (set_links m s) pc' →
  inv q (mkConf (set_links m s) (<[t := pc']> ts)).
Proof.
  intros Hi Ht Hpc Hpc' Hnp Hnp' Hun Hm Hp'. pose proof Hi as [Hh _ Hr Hc Hp Ha]. cbn [shared threads] in *.
  assert (Ht0 : t ≠ 0). { intros ->. apply Hr in Ht. assert (consumer pc = true) by (by apply Ht). congruence. }
  assert (Hpu : ∀ a, a ∈ pushed s → m !! a = links s !! a). { intros a Hin. apply Hm. intros Hx. destruct (Hp t pc Ht Ht0) as (_ & Hd & _). by apply (Hd a). }
  assert (Hch : ∀ l, (∀ a, a ∈ l → a ∈ pushed s) → chained (links s) ts l → chained m ts l).
  { intros l Hin [H1 H2]. split; [intros a b Hab|intros a Hl]; rewrite Hpu; auto; apply Hin; [by apply adj_elem in Hab as [? _]|by eapply last_Some_elem_of]. }
  pose proof (λ a H, pushed_of q s ts a Hh H) as Hin. pose proof (pushers_keep ts t pc pc' Ht Hnp Hnp') as Hsame.
  apply (queue_producer_step q q s (set_links m s) ts t pc pc'); try done.
  - apply (holds_same ts); [done|]. destruct Hh as [H1 H2 H3 H4 H5 H6 H7 H8 H9]. split; cbn [set_links pushed popped cut back links front]; try done.
    + apply Hch; auto.
    + apply Hch; auto.
    + intros t' a batch k H. destruct (H6 t' a batch k H) as (E & b & Hb & Ho). split; [|by eauto]. rewrite Hpu; [done|]. apply Hin. destruct Ho as [Ho|Ho]; apply adj_elem in Ho as [? _]; auto.
  - intros x Hx. apply (consumer_same ts); [done|]. specialize (Hc x Hx). destruct x; try done; cbn [consumer_ok set_links links front cut] in *; unfold grabbed, front_ok in *; cbn [set_links links front cut] in *.
    + destruct Hc as (? & Hq & ? & ?). rewrite Hpu; [done|]. apply Hin. right. by apply head_elem.
    + destruct Hc as ((? & Hq & ? & ?) & ?). rewrite Hpu; [done|]. apply Hin. right. by apply head_elem.
    + destruct Hc as (? & ? & ? & ? & ? & Hw). split_and!; try done. intros i a b Hlt Hi1 Hi2. rewrite Hpu; [by eapply Hw|]. apply Hin. left. by eapply list_elem_of_lookup_2.
  - intros t' x Hne Hx Hcx. assert (Ht'0 : t' ≠ 0). { intros ->. apply Hr in Hx. assert (consumer x = true) by (by apply Hx). congruence. }
    destruct (Hp t' x Hx Ht'0) as (H1 & H2 & H3). split_and!; [done..|].
    assert (Hb : ∀ a, a ∈ unpushed x → m !! a = links s !! a) by (intros a Hxa; apply Hm; intros Hpa; by eapply (Ha t' t x pc a)).
    destruct x; try done; cbn [set_links links unpushed] in *.
    + destruct H3 as (? & ? & Hadj). split_and!; try done. intros a b Hab. rewrite Hb; [by apply Hadj|]. apply adj_elem in Hab as [? _]. set_solver.
    + destruct H3 as (? & ? & [Hadj Hl]). split_and!; try done. split; [intros a b Hab|intros a Hab]; rewrite Hb; auto.
      * apply adj_elem in Hab as [? _]. set_solver.
      * apply last_Some_elem_of in Hab. set_solver.
  - by rewrite Hun.
Qed.
Lemma linking_keep ts t pc pc' a b : ts !! t = Some pc → (∀ batch k, pc ≠ PLink a batch k) → linking ts a b → linking (<[t := pc']> ts) a b.
Proof.
  intros Ht Hne (t' & batch & k & H & Hb). exists t', batch, k. split; [|done]. rewrite list_lookup_insert_ne; [done|]. intros ->. rewrite Ht in H. injection H as ->. by apply (Hne batch k).
Qed.

Lemma fronting_keep ts t pc pc' b : ts !! t = Some pc → (∀ batch k, pc ≠ PFront batch k) → fronting ts b → fronting (<[t := pc']> ts) b.
Proof.
  intros Ht Hne (t' & batch & k & H & Hb). exists t', batch, k. split; [|done]. rewrite list_lookup_insert_ne; [done|]. intros ->. rewrite Ht in H. injection H as ->. by apply (Hne batch k).
Qed.

(** When the queue is empty the front is null, whatever the consumer does. *)
Lemma empty_front q s ts x : consumer_ok q s ts x → q = [] → front s = None.
Proof. intros Hc ->. destruct x; cbn in Hc; unfold grabbed, front_ok in Hc; naive_solver. Qed.

Lemma swap_holds q s ts t batch k :
  holds q s ts → ts !! t = Some (PSwap batch k) → chained (links s) [] batch → batch ≠ [] → NoDup batch → (∀ n, n ∈ batch → n ∉ pushed s) → (q = [] → front s = None) →
  let pc' := match back s with Some old => PLink old batch k | None => PFront batch k end in
  holds (q ++ batch) (note_pushed batch (set_back (last batch) s)) (<[t := pc']> ts).
Proof.
  intros Hh Ht [Hadj Hlast] Hne Hnd Hd Hempty pc'. destruct (queue_nodup _ _ _ Hh) as (_ & Hcd & Hqd & Hcq). pose proof (lookup_lt_Some _ _ _ Ht) as Hlen.
  pose proof Hh as [H1 H2 H3 H4 H5 H6 H7 H8 H9].
  assert (Hlb : last (q ++ batch) = last batch) by (rewrite last_app; by destruct (last batch) eqn:E; [|apply last_None in E]).
  assert (Hhead : ∃ b, head batch = Some b) by (destruct batch; [done|by eexists]). destruct Hhead as [b Hb].
  assert (Hkeep : ∀ l, chained (links s) ts l → chained (links s) (<[t := pc']> ts) l).
  { intros l [Ha Hl]. split; [|done]. intros a c H. destruct (Ha a c H) as [|[? ?]]; [by left|right]. split; [done|]. by eapply linking_keep. }
  assert (Hold : ∀ old, back s = Some old → ∀ t' batch' k', ts !! t' = Some (PLink old batch' k') → False).
  { intros old Ho t' batch' k' H. rewrite H3 in Ho. destruct (H6 t' old batch' k' H) as (_ & c & _ & [Hx|Hx]).
    - apply adj_elem in Hx as [Hx _]. apply (Hcq old Hx). by eapply last_Some_elem_of.
    - by apply (adj_not_last _ _ _ Hqd Hx). }
  split; cbn [note_pushed set_back pushed popped cut back links front].
  - by rewrite H1, <- !app_assoc.
  - apply NoDup_app. split_and!; try done. intros n Hn Hn'. by apply (Hd n).
  - by rewrite Hlb.
  - by apply Hkeep.
  - destruct (Hkeep q H5) as [Ha Hl]. split; [|by rewrite Hlb].
    intros a c [H|[H|[H Hc]]]%adj_app; [by apply Ha| |].
    + destruct (Hadj a c H) as [|[_ (? & ? & ? & ? & _)]]; [by left|done].
    + right. split; [by apply Hl|]. exists t, batch, k. split; [|done]. unfold pc'. rewrite H3, H. by apply list_lookup_insert_eq.
  - intros t' a batch' k' [[-> E]|[_ H]]%(lookup_insert_Some _ _ _ (PSwap batch k)); [| |done].
    + unfold pc' in E. destruct (back s) as [old|] eqn:Eb; [|done]. injection E as -> -> ->. split; [apply H5; congruence|]. exists b. split; [done|]. right. apply adj_app. right. right. split; congruence.
    + destruct (H6 t' a batch' k' H) as (E & c & Hc & Ho). split; [done|]. exists c. split; [done|]. rewrite adj_app. tauto.
  - intros t1 t2 a b1 b2 k1 k2 G1 G2. apply (lookup_insert_Some _ _ _ (PSwap batch k)) in G1 as [[-> E1]|[N1 G1]]; [| |done];
      (apply (lookup_insert_Some _ _ _ (PSwap batch k)) in G2 as [[-> E2]|[N2 G2]]; [| |done]); [done| | |by eapply H7].
    + unfold pc' in E1. destruct (back s) as [old|] eqn:Eb; [|done]. injection E1 as -> -> ->. by destruct (Hold old eq_refl t2 b2 k2).
    + unfold pc' in E2. destruct (back s) as [old|] eqn:Eb; [|done]. injection E2 as -> -> ->. by destruct (Hold old eq_refl t1 b1 k1).
  - assert (Hhq : ∀ x, head q = Some x → head (q ++ batch) = Some x) by (by destruct q).
    intros t' batch' k' [[-> E]|[_ H]]%(lookup_insert_Some _ _ _ (PSwap batch k)); [| |done].
    + unfold pc' in E. destruct (back s) as [old|] eqn:Eb; [done|]. injection E as -> ->. symmetry in H3. apply last_None in H3 as ->. split; [by apply Hempty|]. by exists b.
    + destruct (H8 t' batch' k' H) as (E & c & Hc & Hq). split; [done|]. exists c. auto.
  - intros t1 t2 b1 b2 k1 k2 G1 G2. assert (Hno : back s = None → ∀ t' batch' k', ts !! t' = Some (PFront batch' k') → False).
    { intros Eb t' batch' k' H. rewrite H3 in Eb. apply last_None in Eb. destruct (H8 t' batch' k' H) as (_ & c & _ & Hq). by rewrite Eb in Hq. }
    apply (lookup_insert_Some _ _ _ (PSwap batch k)) in G1 as [[-> E1]|[N1 G1]]; [| |done];
      (apply (lookup_insert_Some _ _ _ (PSwap batch k)) in G2 as [[-> E2]|[N2 G2]]; [| |done]); [done| | |by eapply H9].
    + unfold pc' in E1. destruct (back s) as [old|] eqn:Eb; [done|]. by destruct (Hno eq_refl t2 b2 k2).
    + unfold pc' in E2. destruct (back s) as [old|] eqn:Eb; [done|]. by destruct (Hno eq_refl t1 b1 k1).
Qed.

Lemma swap_consumer q s ts t batch k x :
  holds q s ts → ts !! t = Some (PSwap batch k) → batch ≠ [] → (∀ n, n ∈ batch → n ∉ pushed s) → consumer_ok q s ts x →
  let pc' := match back s with Some old => PLink old batch k | None => PFront batch k end in
  consumer_ok (q ++ batch) (note_pushed batch (set_back (last batch) s)) (<[t := pc']> ts) x.
Proof.
  intros Hh Ht Hne Hd Hc pc'. pose proof (lookup_lt_Some _ _ _ Ht) as Hlen. assert (Hhq : ∀ y, head q = Some y → head (q ++ batch) = Some y) by (by destruct q).
  assert (Hlb : last (q ++ batch) = last batch) by (rewrite last_app; by destruct (last batch) eqn:E; [|apply last_None in E]).
  assert (Hf : front_ok q s ts → front_ok (q ++ batch) (note_pushed batch (set_back (last batch) s)) (<[t := pc']> ts)).
  { unfold front_ok. destruct (head q) as [y|] eqn:Eq.
    - rewrite (Hhq y eq_refl). cbn. intros [?|[? ?]]; [by left|right]. split; [done|]. by eapply fronting_keep.
    - destruct q; [|done]. cbn [app note_pushed set_back front]. intros E. destruct batch as [|b batch]; [done|]. right. split; [done|]. exists t, (b :: batch), k.
      split; [|done]. unfold pc'. rewrite (h_back _ _ _ Hh). by apply list_lookup_insert_eq. }
  assert (Hg : ∀ y, grabbed y q s ts → grabbed y (q ++ batch) (note_pushed batch (set_back (last batch) s)) (<[t := pc']> ts)).
  { intros y (H1 & H2 & H3 & H4). split_and!; cbn; auto. intros b (t' & batch' & k' & H & Hb').
    apply (lookup_insert_Some _ _ _ (PSwap batch k)) in H as [[-> E]|[_ H]]; [| |done].
    - unfold pc' in E. rewrite (h_back _ _ _ Hh) in E. destruct (last q) eqn:El; [done|]. apply last_None in El. by rewrite El in H2.
    - apply (H3 b). by exists t', batch', k'. }
  destruct x; try done; cbn [consumer_ok note_pushed set_back links cut front] in *; try (naive_solver eauto).
  split; [apply Hg, Hc|]. rewrite Hlb. intros E. apply last_Some_elem_of in E. apply (Hd first E). eapply pushed_of; [done|]. right. apply head_elem. apply Hc.
Qed.

Lemma queue_swap q s ts t batch k : inv q (mkConf s ts) → ts !! t = Some (PSwap batch k) →
  inv (q ++ batch) (mkConf (note_pushed batch (set_back (last batch) s))
    (<[t := match back s with Some old => PLink old batch k | None => PFront batch k end]> ts)).
Proof.
  intros Hi Ht. pose proof Hi as [Hh [x0 Hz] Hr Hc Hp Ha]. cbn [shared threads] in *.
  assert (Hprod : ∀ t' x, ts !! t' = Some x → consumer x = false → t' ≠ 0) by (intros t' x Hx E ->; apply Hr in Hx; assert (consumer x = true) by (by apply Hx); congruence).
  destruct (Hp t _ Ht (Hprod t _ Ht eq_refl)) as (Hnd & Hd & Hne & Hk & Hchain). cbn [unpushed] in *. apply NoDup_app in Hnd as (Hnb & Hbk & Hnk).
  assert (Hdb : ∀ n, n ∈ batch → n ∉ pushed s) by (intros n Hn; apply Hd; set_solver).
  eapply (queue_producer_step q); try done.
  - by destruct (back s).
  - apply swap_holds; try done. by apply (empty_front q s ts x0), Hc.
  - intros x Hx. apply swap_consumer; try done. by apply Hc.
  - assert (Hgo : NoDup (concat k) ∧ (∀ n, n ∈ concat k → n ∉ pushed s ++ batch) ∧ Forall (λ b, b ≠ []) k).
    { split_and!; try done. intros n Hn [H|H]%elem_of_app; [apply (Hd n); set_solver|by apply (Hbk n)]. }
    by destruct (back s).
  - intros t' x Hne' Hx Hcx. destruct (Hp t' x Hx (Hprod t' x Hx Hcx)) as (H1 & H2 & H3). split_and!; [done| |by destruct x].
    intros n Hn [H|H]%elem_of_app; [by apply (H2 n)|]. eapply (Ha t' t x _ n); [done|done|done|done|]. cbn. set_solver.
  - intros n Hn. destruct (back s); cbn in *; set_solver.
Qed.
Lemma link_holds q s ts t old batch k b :
  holds q s ts → ts !! t = Some (PLink old batch k) → head batch = Some b → holds q (set_links (<[old := b]> (links s)) s) (<[t := Producer k]> ts).
Proof.
  intros Hh Ht Hb. destruct (queue_nodup _ _ _ Hh) as (_ & Hcd & Hqd & Hcq). pose proof Hh as [H1 H2 H3 H4 H5 H6 H7 H8 H9].
  destruct (H6 t old batch k Ht) as (Hnone & b' & Hb' & Hwhere). rewrite Hb in Hb'. injection Hb' as <-.
  assert (Hadj : ∀ l c, l = cut s ∨ l = q → adj l old c → c = b).
  { intros l c Hl Hx. destruct Hwhere as [Hw|Hw], Hl as [->| ->].
    - by eapply (adj_det (cut s)).
    - apply adj_elem in Hw as [Hw _], Hx as [Hx _]. by destruct (Hcq old).
    - apply adj_elem in Hw as [Hw _], Hx as [Hx _]. by destruct (Hcq old).
    - by eapply (adj_det q). }
  assert (Hlast : ∀ l, l = cut s ∨ l = q → last l ≠ Some old).
  { intros l Hl E. pose proof (last_Some_elem_of _ _ E) as Hin. destruct Hwhere as [Hw|Hw], Hl as [->| ->].
    - by apply (adj_not_last _ _ _ Hcd Hw).
    - apply adj_elem in Hw as [Hw _]. by destruct (Hcq old).
    - apply adj_elem in Hw as [Hw _]. by destruct (Hcq old).
    - by apply (adj_not_last _ _ _ Hqd Hw). }
  assert (Hch : ∀ l, l = cut s ∨ l = q → chained (links s) ts l → chained (<[old := b]> (links s)) (<[t := Producer k]> ts) l).
  { intros l Hl [Ha Hla]. split.
    - intros a c H. destruct (decide (a = old)) as [->|Hne].
      + left. rewrite (Hadj l c Hl H). apply lookup_insert_eq.
      + rewrite lookup_insert_ne by done. destruct (Ha a c H) as [|[? ?]]; [by left|right]. split; [done|]. eapply linking_keep; [done| |done]. by intros ? ? [= -> _ _].
    - intros a E. rewrite lookup_insert_ne; [by apply Hla|]. intros <-. by apply (Hlast l Hl). }
  split; cbn [set_links pushed popped cut back links front]; try done; try (by apply Hch; auto).
  - intros t' a batch' k' [[-> E]|[Hne H]]%(lookup_insert_Some _ _ _ (PLink old batch k)); [done| |done].
    destruct (H6 t' a batch' k' H) as (E & Hx). split; [|done]. rewrite lookup_insert_ne; [done|]. intros ->. apply Hne. by eapply H7.
  - intros t1 t2 a b1 b2 k1 k2 [[-> E]|[_ G1]]%(lookup_insert_Some _ _ _ (PLink old batch k)); [done| |done].
    intros [[-> E]|[_ G2]]%(lookup_insert_Some _ _ _ (PLink old batch k)); [done| |done]. by eapply H7.
  - intros t' b1 k1 [[-> E]|[_ G1]]%(lookup_insert_Some _ _ _ (PLink old batch k)); [done| |done]. by eapply H8.
  - intros t1 t2 b1 b2 k1 k2 [[-> E]|[_ G1]]%(lookup_insert_Some _ _ _ (PLink old batch k)); [done| |done].
    intros [[-> E]|[_ G2]]%(lookup_insert_Some _ _ _ (PLink old batch k)); [done| |done]. by eapply H9.
Qed.

(** The places of [PFront] when a thread that is not at one moves to [Producer]. *)
Lemma fronting_rest ts t pc k b : ts !! t = Some pc → (∀ batch k, pc ≠ PFront batch k) → fronting (<[t := Producer k]> ts) b ↔ fronting ts b.
Proof.
  intros Ht Hne. split; [|by eapply fronting_keep]. intros (t' & batch & k' & H & Hb).
  apply (lookup_insert_Some _ _ _ pc) in H as [[-> E]|[_ H]]; [done| |done]. by exists t', batch, k'.
Qed.

Lemma queue_link q s ts t old batch k : inv q (mkConf s ts) → ts !! t = Some (PLink old batch k) →
  inv q (mkConf (set_links (set_next old (head batch) (links s)) s) (<[t := Producer k]> ts)).
Proof.
  intros Hi Ht. pose proof Hi as [Hh _ Hr Hc Hp Ha]. cbn [shared threads] in *. destruct (h_link _ _ _ Hh t old batch k Ht) as (Hnone & b & Hb & Hwhere). rewrite Hb. cbn [set_next].
  assert (Hprod : ∀ t' x, ts !! t' = Some x → consumer x = false → t' ≠ 0) by (intros t' x Hx E ->; apply Hr in Hx; assert (consumer x = true) by (by apply Hx); congruence).
  assert (Hold : old ∈ pushed s) by (eapply pushed_of; [done|]; destruct Hwhere as [H|H]; apply adj_elem in H as [? _]; auto).
  destruct (Hp t _ Ht (Hprod t _ Ht eq_refl)) as (P1 & P2 & P3).
  eapply (queue_producer_step q q s); try done.
  - by eapply link_holds.
  - intros x Hx. specialize (Hc x Hx). pose proof (λ b, fronting_rest ts t _ k b Ht ltac:(done)) as Hfr.
    assert (Hf : front_ok q s ts → front_ok q (set_links (<[old := b]> (links s)) s) (<[t := Producer k]> ts)) by (unfold front_ok; cbn; destruct (head q); [rewrite Hfr|]; done).
    assert (Hg : ∀ y, grabbed y q s ts → grabbed y q (set_links (<[old := b]> (links s)) s) (<[t := Producer k]> ts))
      by (unfold grabbed; cbn; intros y (? & ? & Hno & ?); split_and!; try done; intros c; by rewrite Hfr).
    destruct x; try done; cbn [consumer_ok set_links links cut front] in *.
    + naive_solver.
    + naive_solver.
    + destruct Hc as (? & ? & ? & Hm). split_and!; try done. destruct (decide (first = old)) as [->|]; [left; destruct Hm; congruence|by rewrite lookup_insert_ne].
    + by apply Hg.
    + destruct Hc. split; [by apply Hg|done].
    + destruct Hc as [? Hm]. split; [by apply Hg|]. rewrite lookup_insert_ne; [done|]. intros ->. congruence.
    + naive_solver.
    + by apply Hg.
    + destruct Hc as (? & ? & ? & ? & ? & Hw). split_and!; try done; [by apply Hf|]. intros i a c Hlt G1 G2. specialize (Hw i a c Hlt G1 G2).
      rewrite lookup_insert_ne; [done|]. intros ->. congruence.
  - intros t' x Hne Hx Hcx. destruct (Hp t' x Hx (Hprod t' x Hx Hcx)) as (H1 & H2 & H3). split_and!; [done..|].
    assert (Hb' : ∀ a, a ∈ unpushed x → <[old := b]> (links s) !! a = links s !! a) by (intros a Hxa; apply lookup_insert_ne; intros <-; by apply (H2 old)).
    destruct x; try done; cbn [set_links links unpushed] in *.
    + destruct H3 as (? & ? & Hadj). split_and!; try done. intros a c Hab. rewrite Hb'; [by apply Hadj|]. apply adj_elem in Hab as [? _]. set_solver.
    + destruct H3 as (? & ? & [Hadj Hl]). split_and!; try done. split; [intros a c Hab|intros a Hab]; rewrite Hb'; auto.
      * apply adj_elem in Hab as [? _]. set_solver.
      * apply last_Some_elem_of in Hab. set_solver.
Qed.

Lemma queue_front q s ts t batch k : inv q (mkConf s ts) → ts !! t = Some (PFront batch k) →
  inv q (mkConf (set_front (head batch) s) (<[t := Producer k]> ts)).
Proof.
  intros Hi Ht. pose proof Hi as [Hh _ Hr Hc Hp Ha]. cbn [shared threads] in *. destruct (h_front _ _ _ Hh t batch k Ht) as (Hnone & b & Hb & Hq).
  assert (Hprod : ∀ t' x, ts !! t' = Some x → consumer x = false → t' ≠ 0) by (intros t' x Hx E ->; apply Hr in Hx; assert (consumer x = true) by (by apply Hx); congruence).
  destruct (Hp t _ Ht (Hprod t _ Ht eq_refl)) as (P1 & P2 & P3).
  eapply (queue_producer_step q q s); try done.
  - destruct Hh as [H1 H2 H3 H4 H5 H6 H7 H8 H9]. assert (Hch : ∀ l, chained (links s) ts l → chained (links s) (<[t := Producer k]> ts) l).
    { intros l [Had Hl]. split; [|done]. intros a c H. destruct (Had a c H) as [|[? ?]]; [by left|right]. split; [done|]. by eapply linking_keep. }
    split; cbn [set_front pushed popped cut back links front]; try done; try (by apply Hch).
    + intros t' a b1 k1 [[-> E]|[_ G1]]%(lookup_insert_Some _ _ _ (PFront batch k)); [done| |done]. by eapply H6.
    + intros t1 t2 a b1 b2 k1 k2 [[-> E]|[_ G1]]%(lookup_insert_Some _ _ _ (PFront batch k)); [done| |done].
      intros [[-> E]|[_ G2]]%(lookup_insert_Some _ _ _ (PFront batch k)); [done| |done]. by eapply H7.
    + intros t' b1 k1 [[-> E]|[Hne G1]]%(lookup_insert_Some _ _ _ (PFront batch k)); [done| |done]. destruct Hne. by eapply H9.
    + intros t1 t2 b1 b2 k1 k2 [[-> E]|[_ G1]]%(lookup_insert_Some _ _ _ (PFront batch k)); [done| |done].
      intros [[-> E]|[_ G2]]%(lookup_insert_Some _ _ _ (PFront batch k)); [done| |done]. by eapply H9.
  - intros x Hx. specialize (Hc x Hx). assert (Hfr : fronting ts b) by (by exists t, batch, k).
    destruct x; try done; cbn [consumer_ok set_front links cut front] in *; unfold grabbed, front_ok in *; cbn [set_front front cut] in *; rewrite ?Hq, ?Hb in *;
      naive_solver congruence.
  - intros t' x Hne Hx Hcx. by apply (Hp t' x Hx (Hprod t' x Hx Hcx)).
Qed.

Lemma queue_inv_step c c' : (∃ q, inv q c) → step program c c' → ∃ q, inv q c'.
Proof.
  intros [q Hi] Hs. destruct Hs as [s s' ts ts' t pc pc' n Ht Hn Hw|]; [|done]. change (ThreadModel.next program) with next in Hn.
  pose proof Hi as [Hh _ Hr Hc Hp Ha]. cbn [shared threads] in *. destruct (consumer pc) eqn:Ec.
  { assert (t = 0) as -> by (by apply (Hr t pc)). destruct (queue_consumer_move q s s' ts pc pc' n Hi Ht Hn Ec) as [-> Hi']. by apply wakes_zero in Hw as ->. }
  assert (Ht0 : t ≠ 0) by (intros ->; apply Hr in Ht; assert (consumer pc = true) by (by apply Ht); congruence).
  destruct (Hp t pc Ht Ht0) as (P1 & P2 & P3).
  destruct pc as [[|batch k]|batch k|batch k|old batch k|batch k| | | | | | | | | | |]; try done; cbn [next] in Hn.
  - by apply elem_of_nil in Hn.
  - apply list_elem_of_singleton in Hn as [= -> -> ->]. apply wakes_zero in Hw as ->. exists q. apply Forall_cons in P3 as [Hne Hk].
    cbn [unpushed concat] in *. pose proof P1 as (Hnb & _ & _)%NoDup_app. eapply queue_links; try done.
    + intros a Hx. apply link_chain_other. cbn in Hx. set_solver.
    + split_and!; try done. intros a b H. by apply link_chain_adj.
  - destruct P3 as (Hne & Hk & Hadj). destruct (head batch) as [first|] eqn:Eh; [|by destruct batch].
    destruct (last batch) as [l|] eqn:El; [|by apply last_None in El]. apply list_elem_of_singleton in Hn as [= -> -> ->]. apply wakes_zero in Hw as ->. exists q.
    cbn [unpushed] in *. pose proof P1 as (Hnb & _ & _)%NoDup_app. cbn [set_next].
    assert (Hadj' : ∀ a b, adj batch a b → delete l (links s) !! a = Some b).
    { intros a b H. rewrite lookup_delete_ne; [by apply Hadj|]. intros ->. by apply (adj_not_last _ _ _ Hnb H). }
    rewrite bool_decide_eq_true_2. 2: { rewrite (walk_chain batch) by (done || (intros a E; replace l with a by congruence; apply lookup_delete_eq)). done. }
    eapply queue_links; try done.
    + intros a Hx. apply lookup_delete_ne. intros ->. apply last_Some_elem_of in El. cbn in Hx. set_solver.
    + split_and!; try done. split; [auto|]. intros a E. replace l with a by congruence. apply lookup_delete_eq.
  - apply list_elem_of_singleton in Hn as [= -> -> ->]. apply wakes_zero in Hw as ->. exists (q ++ batch). by apply queue_swap.
  - apply list_elem_of_singleton in Hn as [= -> -> ->]. apply wakes_zero in Hw as ->. exists q. by apply queue_link.
  - apply list_elem_of_singleton in Hn as [= -> -> ->]. apply wakes_zero in Hw as ->. exists q. by apply queue_front.
Qed.
(** Every node is in one batch of one script. *)
Definition nodes_of (scripts : list (list (list nat))) : list nat := concat (concat (A:=nat) <$> scripts).

Lemma NoDup_concat_lookup (ls : list (list nat)) i a : NoDup (concat ls) → ls !! i = Some a →
  NoDup a ∧ ∀ j b n, i ≠ j → ls !! j = Some b → n ∈ a → n ∈ b → False.
Proof.
  revert i. induction ls as [|l ls IH]; intros i Hd Hi; [done|]. cbn [concat] in Hd. apply NoDup_app in Hd as (H1 & H2 & H3).
  assert (Hin : ∀ j b n, ls !! j = Some b → n ∈ b → n ∈ concat ls). { intros j b n Hj Hn. apply list_elem_of_In, in_concat. exists b. rewrite <- !list_elem_of_In. split; [by eapply list_elem_of_lookup_2|done]. }
  destruct i as [|i]; cbn in Hi.
  - injection Hi as <-. split; [done|]. intros [|j] b n Hne Hj Hn Hn'; [done|]. apply (H2 n Hn). by eapply (Hin j b).
  - destruct (IH i H3 Hi) as [Ha Hx]. split; [done|]. intros [|j] b n Hne Hj Hn Hn'; cbn in Hj.
    + injection Hj as ->. apply (H2 n Hn'). by eapply (Hin i a).
    + eapply (Hx j b n); try done. congruence.
Qed.

Lemma queue_inv_start scripts : NoDup (nodes_of scripts) → Forall (Forall (λ b, b ≠ [])) scripts → inv [] (start scripts).
Proof.
  intros Hd Hne. assert (Hrun : ∀ t pc, (Consumer :: (Producer <$> scripts)) !! t = Some pc → t = 0 ∧ pc = Consumer ∨ ∃ i k, t = S i ∧ scripts !! i = Some k ∧ pc = Producer k).
  { intros [|t] pc Hx; [injection Hx as <-; by left|right]. change ((Producer <$> scripts) !! t = Some pc) in Hx. rewrite list_lookup_fmap in Hx.
    destruct (scripts !! t) as [k|] eqn:E; [|done]. injection Hx as <-. by exists t, k. }
  assert (Hlk : ∀ i k, scripts !! i = Some k → (concat (A:=nat) <$> scripts) !! i = Some (concat k)) by (intros i k H; by rewrite list_lookup_fmap, H).
  split; cbn [start shared threads].
  - split; cbn; try done.
    + constructor.
    + intros t a batch k H. by destruct (Hrun t _ H) as [[_ ?]|(? & ? & _ & _ & ?)].
    + intros t t' a batch batch' k k' H. by destruct (Hrun t _ H) as [[_ ?]|(? & ? & _ & _ & ?)].
    + intros t batch k H. by destruct (Hrun t _ H) as [[_ ?]|(? & ? & _ & _ & ?)].
    + intros t t' batch batch' k k' H. by destruct (Hrun t _ H) as [[_ ?]|(? & ? & _ & _ & ?)].
  - by exists Consumer.
  - intros t pc H. by destruct (Hrun t _ H) as [[-> ->]|(i & k & -> & _ & ->)].
  - intros pc [= <-]. done.
  - intros t pc H Ht. destruct (Hrun t _ H) as [[-> _]|(i & k & -> & Hi & ->)]; [done|]. split_and!; cbn.
    + by apply (NoDup_concat_lookup _ _ _ Hd (Hlk _ _ Hi)).
    + intros n _ Hn. by apply elem_of_nil in Hn.
    + by eapply Forall_lookup_1.
  - intros t t' pc pc' n Hne' H H' Hn Hn'. destruct (Hrun t _ H) as [[_ ->]|(i & k & -> & Hi & ->)]; [by apply elem_of_nil in Hn|].
    destruct (Hrun t' _ H') as [[_ ->]|(j & k' & -> & Hj & ->)]; [by apply elem_of_nil in Hn'|].
    destruct (NoDup_concat_lookup _ _ _ Hd (Hlk _ _ Hi)) as [_ Hx]. eapply (Hx j _ n); [congruence|by apply Hlk|done|done].
Qed.

Lemma queue_inv_reach scripts c : NoDup (nodes_of scripts) → Forall (Forall (λ b, b ≠ [])) scripts → reach program (start scripts) c → ∃ q, inv q c.
Proof.
  intros Hd Hne. apply (reach_invariant program (λ c, ∃ q, inv q c)); [exists []; by apply queue_inv_start|]. intros c1 c2. apply queue_inv_step.
Qed.

(** ** Progress *)

(** When no producer is between its two stores, [pop] alone gets the front node. *)
Lemma pop_gets q x s ts :
  inv (x :: q) (mkConf s ts) → ts !! 0 = Some Consumer → (∀ t pc, ts !! t = Some pc → pusher pc = false) →
  ∃ c', rtc (step_at program consumer) (mkConf s ts) c' ∧ popped (shared c') = popped s ++ [x] ∧ threads c' !! 0 = Some Consumer.
Proof.
  intros Hi H0 Hno. pose proof (inv_holds _ _ Hi) as Hh. destruct (inv_consumer _ _ Hi _ H0) as [Hf Hcut]. cbn [shared threads] in *. pose proof (lookup_lt_Some _ _ _ H0) as Hlen.
  assert (Hfront : front s = Some x). { unfold front_ok in Hf. cbn in Hf. destruct Hf as [|[_ (t & batch & k & H & _)]]; [done|]. by apply Hno in H. }
  assert (Hend : links s !! x = None → back s = Some x).
  { intros Hn. rewrite (h_back _ _ _ Hh). destruct (decide (last (x :: q) = Some x)) as [|Hne]; [done|]. destruct (not_last_adj (x :: q) x) as [b Hb]; [by left|done|].
    destruct (proj1 (h_queue _ _ _ Hh) x b Hb) as [E|[_ (t & batch & k & H & _)]]; [congruence|]. by apply Hno in H. }
  assert (Hgo : ∀ s1 s' ts' pc pc' c', ts' !! 0 = Some pc → consumer pc = true → (s', pc', 0%Z) ∈ next 0 s1 pc →
    rtc (step_at program consumer) (mkConf s' (<[0 := pc']> ts')) c' → rtc (step_at program consumer) (mkConf s1 ts') c').
  { intros s1 s' ts' pc pc' c' Hx Hcx Hn Hr. eapply rtc_l; [|done]. by eapply step_at_quiet. }
  assert (Hins : ∀ pc, <[0 := pc]> ts !! 0 = Some pc) by (intros; by apply list_lookup_insert_eq).
  destruct (links s !! x) as [n|] eqn:El.
  - eexists. split.
    + eapply (Hgo s s ts Consumer CLoad); [done|done|by left|]. eapply (Hgo s s _ CLoad (CNext x)); [by apply Hins|done|cbn; rewrite Hfront; by left|]. rewrite list_insert_insert_eq.
      eapply (Hgo s s _ (CNext x) (CCas x (Some n))); [by apply Hins|done|cbn; rewrite El; by left|]. rewrite list_insert_insert_eq.
      eapply (Hgo s _ _ (CCas x (Some n)) Consumer); [by apply Hins|done|cbn; rewrite bool_decide_eq_true_2 by done; by left|]. apply rtc_refl.
    + rewrite list_insert_insert_eq. split; [done|apply Hins].
  - eexists. split.
    + eapply (Hgo s s ts Consumer CLoad); [done|done|by left|]. eapply (Hgo s s _ CLoad (CNext x)); [by apply Hins|done|cbn; rewrite Hfront; by left|]. rewrite list_insert_insert_eq.
      eapply (Hgo s s _ (CNext x) (CCas x None)); [by apply Hins|done|cbn; rewrite El; by left|]. rewrite list_insert_insert_eq.
      eapply (Hgo s _ _ (CCas x None) (CBack x)); [by apply Hins|done|cbn; rewrite bool_decide_eq_true_2 by done; by left|]. rewrite list_insert_insert_eq.
      eapply (Hgo _ _ _ (CBack x) Consumer); [by apply Hins|done|cbn; rewrite bool_decide_eq_true_2 by (by apply Hend); by left|]. apply rtc_refl.
    + rewrite list_insert_insert_eq. split; [done|apply Hins].
Qed.

(** C16. The queue is first in, first out: with any number of producers that push
    nodes and chains of nodes, each node once, and one consumer that pops them one
    by one or all at once, under every interleaving: no assertion fails and no
    null pointer is followed; what was popped is an initial part of what was
    pushed, in the order in which the pushes took the back, so no node is lost,
    repeated or overtaken, batches included; [is_empty] says so only when nothing
    is left; and whenever no producer is between its two stores and a node is
    left, [pop] by itself returns the oldest. *)
Theorem unbounded_queue_fifo scripts c :
  NoDup (nodes_of scripts) → Forall (Forall (λ b, b ≠ [])) scripts → reach program (start scripts) c →
  (∀ t, threads c !! t ≠ Some Panicked)
  ∧ NoDup (pushed (shared c))
  ∧ ∃ rest, pushed (shared c) = popped (shared c) ++ rest
    ∧ (threads c !! 0 = Some Consumer → is_empty (shared c) = true ↔ rest = [])
    ∧ (threads c !! 0 = Some Consumer → (∀ t pc, threads c !! t = Some pc → pusher pc = false) → ∀ x, head rest = Some x →
       ∃ c', rtc (step_at program consumer) c c' ∧ popped (shared c') = popped (shared c) ++ [x] ∧ threads c' !! 0 = Some Consumer).
Proof.
  intros Hd Hne Hr. destruct (queue_inv_reach scripts c Hd Hne Hr) as [q Hi]. pose proof Hi as [Hh _ Hro Hc Hp _]. split_and!.
  - intros t Ht. destruct (decide (t = 0)) as [->|H0]; [by apply (Hc _ Ht)|by apply (Hp t _ Ht H0)].
  - apply Hh.
  - exists (cut (shared c) ++ q). split; [apply (h_split _ _ _ Hh)|]. split.
    + intros H0. destruct (Hc _ H0) as [_ ->]. unfold is_empty. rewrite bool_decide_eq_true, (h_back _ _ _ Hh), last_None. done.
    + intros H0 Hno x Hx. destruct (Hc _ H0) as [_ Hcut]. rewrite Hcut in Hx. destruct q as [|y q]; [done|]. injection Hx as ->. destruct c as [s ts]. by apply (pop_gets q x s ts).
Qed.

(** Two producers; the second one's chain is linked before the consumer comes. *)
Definition two_pushes : list Move := replicate 4 (Go 1 0 []) ++ replicate 4 (Go 2 0 []).

Lemma unbounded_queue_fifo_witness :
  ∃ c, pushed (shared c) = [1; 5; 6] ∧ popped (shared c) = []
    ∧ ∃ c', rtc (step_at program consumer) c c' ∧ popped (shared c') = [1] ∧ threads c' !! 0 = Some Consumer.
Proof.
  destruct (run program two_pushes (start [[[1]]; [[5; 6]]])) as [c|] eqn:E; [|by vm_compute in E].
  destruct (unbounded_queue_fifo [[[1]]; [[5; 6]]] c) as (_ & _ & rest & Hs & _ & H);
    [vm_compute; repeat constructor; set_solver|by repeat constructor|by eapply run_reach|].
  vm_compute in E. injection E as E. exists c. rewrite <- E in *. split; [reflexivity|]. split; [reflexivity|]. cbn [shared pushed popped app] in Hs, H.
  apply H; [reflexivity| |by rewrite <- Hs].
  intros [|[|[|t]]] pc Hx; cbn in Hx; try (injection Hx as <-; reflexivity); by rewrite ?lookup_nil in Hx.
Defined.

(** [pop_batch] while a push is under way waits for its link. *)
Example batch_of_three :
  ∃ c, run program (replicate 4 (Go 1 0 []) ++ replicate 3 (Go 2 0 []) ++ [Go 0 1 []; Go 0 0 []; Go 0 0 []; Go 0 0 []; Go 2 0 []] ++ replicate 3 (Go 0 0 []))
         (start [[[1]]; [[5; 6]]]) = Some c ∧ popped (shared c) = [1; 5; 6].
Proof. eexists. split; [vm_compute; reflexivity|reflexivity]. Qed.
End UnboundedQueue.
