(* ===== verification/ValkeyProtocol.v ===== *)
(** * [src/valkey/valkey_protocol.rs]: reading replies of the server

    [ValkeyReader] turns the bytes of a reply into a tree of values;
    [ReplyScanner] finds the end of a reply, resuming where it stopped when more
    bytes arrive. A method of the reader is a function of its state: [None] is a
    panic (an index, slice or subtraction out of range, a failed [expect]) or a
    loop that has used up its fuel, [Some (Err e, r)] a returned error and
    [Some (Ok a, r)] a result. Offsets are [usize] and never exceed the length of a
    slice by more than [MAX_BULK_LEN + 2], so additions on them do not overflow.
    What [f64] is, and [WTF::parseDouble], are parameters, and so are the sizes
    of the two types the reader allocates. *)

From S2P Require Import Prelude BunStrings.

#[local] Open Scope Z_scope.

Module RedisError.
Inductive t :=
| AuthenticationFailed | ConnectionClosed | InvalidArgument | InvalidArray | InvalidAttribute
| InvalidBigNumber | InvalidBlobError | InvalidBoolean | InvalidBulkString | InvalidCommand
| InvalidDouble | InvalidErrorString | InvalidInteger | InvalidMap | InvalidNull | InvalidPush
| InvalidResponse | InvalidResponseType | InvalidSet | InvalidSimpleString | InvalidVerbatimString
| JSError | OutOfMemory | UnsupportedProtocol | ConnectionTimeout | IdleTimeout
| NestingDepthExceeded | LineTooLong | ServerError.
#[export] Instance t_eq_dec : EqDecision t.
Proof. solve_decision. Defined.
End RedisError.
Export (hints) RedisError.

Module RESPType.
Inductive t :=
| SimpleString | Error | Integer | BulkString | Array
| Null | Double | Boolean | BlobError | VerbatimString | Map | Set_ | Attribute | Push | BigNumber.
#[export] Instance t_eq_dec : EqDecision t.
Proof. solve_decision. Defined.

Definition from_byte (byte : Z) : option t :=
  if byte =? ch "+" then Some SimpleString
  else if byte =? ch "-" then Some Error
  else if byte =? ch ":" then Some Integer
  else if byte =? ch "$" then Some BulkString
  else if byte =? ch "*" then Some Array
  else if byte =? ch "_" then Some Null
  else if byte =? ch "," then Some Double
  else if byte =? ch "#" then Some Boolean
  else if byte =? ch "!" then Some BlobError
  else if byte =? ch "=" then Some VerbatimString
  else if byte =? ch "%" then Some Map
  else if byte =? ch "~" then Some Set_
  else if byte =? ch "|" then Some Attribute
  else if byte =? ch ">" then Some Push
  else if byte =? ch "(" then Some BigNumber
  else None.
End RESPType.
Export (hints) RESPType.

(** [Result<A, RedisError>] *)
Inductive Result (A : Type) := Ok (a : A) | Err (e : RedisError.t).
Arguments Ok {A} a.
Arguments Err {A} e.
#[export] Instance Result_eq_dec `{EqDecision A} : EqDecision (Result A).
Proof. solve_decision. Defined.

(** [f64], its special values, and what [WTF::parseDouble] reads from a prefix of
    the text: the number and how many bytes it counted. *)
Class Float64 := {
  f64 : Type;
  INFINITY : f64;
  NEG_INFINITY : f64;
  NAN : f64;
  WTF__parseDouble : bytes → f64 * Z }.

(** [size_of::<RESPValue>()] and [size_of::<MapEntry>()]. *)
Class Layout := { size_of_RESPValue : N; size_of_MapEntry : N }.

Record VerbatimString := mkVerbatimString { format : bytes; content : bytes }.

Module RESPValue.
Section value.
Context `{F : Float64}.

Inductive t :=
| SimpleString (str : bytes)
| Error (str : bytes)
| Integer (int : Z)
| BulkString (maybe_str : option bytes)
| Array (array : list t)
| Null
| Double (d : f64)
| Boolean (b : bool)
| VerbatimString (verbatim : VerbatimString)
| Map (entries : list MapEntry)
| Set_ (set : list t)
| Attribute (attribute : Attribute_)
| Push (push : Push_)
| BigNumber (str : bytes)
with MapEntry := mkMapEntry (key value : t)
with Attribute_ := mkAttribute (attributes : list MapEntry) (value : t)
with Push_ := mkPush (kind : bytes) (data : list t).
End value.
End RESPValue.

(** ** [strings::eql_case_insensitive_ascii] and [fmt::parse_f64] *)

Definition to_lower (c : Z) : Z := if is_ascii_upper c then c + 32 else c.

(** [strncasecmp(a, b, n) == 0], which stops at a NUL. *)
Fixpoint strncasecmp_eq (n : nat) (a b : bytes) : bool :=
  match n, a, b with
  | S n, x :: a, y :: b => (to_lower x =? to_lower y) && ((x =? 0) || strncasecmp_eq n a b)
  | _, _, _ => true
  end.

Definition eql_case_insensitive_ascii (a b : bytes) (check_len : bool) : bool :=
  if check_len then
    if negb (length a =? length b)%nat then false
    else match a with [] => true | _ => strncasecmp_eq (length a) a b end
  else if (length b <? length a)%nat then false
  else strncasecmp_eq (length a) a b.

Definition eql_any_case_insensitive_ascii (needle : bytes) (haystack : list bytes) : bool :=
  existsb (λ h, eql_case_insensitive_ascii needle h true) haystack.

Definition parse_f64 `{Float64} (s : bytes) : option f64 :=
  match s with
  | [] => None
  | c :: t =>
      let '(res, count) := WTF__parseDouble s in
      if count =? Z.of_nat (length s) then Some res
      else if count =? 0 then
        let '(neg, rest) :=
          if c =? ch "-" then (true, t) else if c =? ch "+" then (false, t) else (false, s) in
        if eql_any_case_insensitive_ascii rest [bs "inf"; bs "infinity"] then
          Some (if neg : bool then NEG_INFINITY else INFINITY)
        else if eql_case_insensitive_ascii rest (bs "nan") true then Some NAN
        else None
      else None
  end.

(** ** [ValkeyReader] *)

Definition MAX_NESTING_DEPTH : Z := 128.
Definition MAX_BULK_LEN : Z := 512 * 1024 * 1024.
Definition MAX_LINE_LEN : Z := MAX_BULK_LEN.
Definition isize_MAX : Z := 2 ^ 63 - 1.

(** [slice.len()] *)
Definition len (b : bytes) : Z := Z.of_nat (length b).

Record ValkeyReader := mkReader {
  buffer : bytes;
  pos : Z;
  prealloc_budget : Z;
  crlf_skip : Z }.

Definition init (buffer : bytes) : ValkeyReader := mkReader buffer 0 (len buffer) 0.

Definition set_pos (p : Z) (r : ValkeyReader) : ValkeyReader :=
  mkReader (buffer r) p (prealloc_budget r) (crlf_skip r).
Definition set_prealloc_budget (n : Z) (r : ValkeyReader) : ValkeyReader :=
  mkReader (buffer r) (pos r) n (crlf_skip r).
Definition set_crlf_skip (n : Z) (r : ValkeyReader) : ValkeyReader :=
  mkReader (buffer r) (pos r) (prealloc_budget r) n.

Definition reader (A : Type) : Type := ValkeyReader → option (Result A * ValkeyReader).

Definition ret {A} (a : A) : reader A := λ r, Some (Ok a, r).
Definition fail {A} (e : RedisError.t) : reader A := λ r, Some (Err e, r).
Definition panic {A} : reader A := λ _, None.

(** [?]: an error is returned at once, with the state as it is. *)
Definition bind {A B} (m : reader A) (k : A → reader B) : reader B := λ r,
  match m r with
  | None => None
  | Some (Err e, r) => Some (Err e, r)
  | Some (Ok a, r) => k a r
  end.

Declare Scope reader_scope.
Delimit Scope reader_scope with reader.
Notation "'let!' x := m 'in' k" := (bind m (λ x, k))
  (at level 200, x name, m at level 100, k at level 200) : reader_scope.
Notation "m ;; k" := (bind m (λ _, k)) (at level 100, k at level 200, right associativity) : reader_scope.
#[local] Open Scope reader_scope.

(** [&buffer\[a..\]] and [&buffer\[a..b\]] *)
Definition slice_from (b : bytes) (i : Z) : option bytes :=
  if (0 <=? i) && (i <=? len b) then Some (drop (Z.to_nat i) b) else None.
Definition slice_range (b : bytes) (i j : Z) : option bytes :=
  if (0 <=? i) && (i <=? j) && (j <=? len b)
  then Some (take (Z.to_nat (j - i)) (drop (Z.to_nat i) b)) else None.
(** [buffer\[i\]] *)
Definition at_ (b : bytes) (i : Z) : option Z := if 0 <=? i then b !! Z.to_nat i else None.

(** An operation that panics or not and leaves the reader alone. *)
Definition lift {A} (o : option A) : reader A := λ r, match o with Some a => Some (Ok a, r) | None => None end.
Definition gets {A} (f : ValkeyReader → A) : reader A := λ r, Some (Ok (f r), r).
Definition advance (n : Z) : reader unit := λ r, Some (Ok tt, set_pos (pos r + n) r).

Definition read_byte : reader Z := λ r,
  if len (buffer r) <=? pos r then Some (Err RedisError.InvalidResponse, r)
  else match at_ (buffer r) (pos r) with
       | None => None
       | Some byte => Some (Ok byte, set_pos (pos r + 1) r)
       end.

(** The loop of [read_until_crlf], from index [i] of the slice on: the indices
    below [start] are skipped and it stops at [limit]. *)
Fixpoint find_crlf (limit start i : Z) (b : bytes) : option Z :=
  match b with
  | [] => None
  | byte :: rest =>
      if limit <=? i then None
      else if (start <=? i) && (byte =? 13) && match rest with c :: _ => c =? 10 | [] => false end
      then Some i
      else find_crlf limit start (i + 1) rest
  end.

Definition read_until_crlf : reader bytes := λ r,
  match slice_from (buffer r) (pos r) with
  | None => None
  | Some b =>
      let limit := Z.min (len b) (MAX_LINE_LEN + 1) in
      let start := Z.min (crlf_skip r) limit in
      let r := set_crlf_skip 0 r in
      match find_crlf limit start 0 b with
      | Some i => Some (Ok (take (Z.to_nat i) b), set_pos (pos r + (i + 2)) r)
      | None =>
          if MAX_LINE_LEN + 1 <? len b then Some (Err RedisError.LineTooLong, r)
          else Some (Err RedisError.InvalidResponse, r)
      end
  end.

Definition read_integer : reader Z :=
  let! str := read_until_crlf in
  match parse_int_i64 str 10 with
  | BunStrings.Ok v => ret v
  | BunStrings.Err _ => fail RedisError.InvalidInteger
  end.

Definition read_double `{Float64} : reader f64 :=
  let! str := read_until_crlf in
  if bool_decide (str = bs "inf") then ret INFINITY
  else if bool_decide (str = bs "-inf") then ret NEG_INFINITY
  else if bool_decide (str = bs "nan") then ret NAN
  else match parse_f64 str with
       | Some d => ret d
       | None => fail RedisError.InvalidDouble
       end.

Definition read_boolean : reader bool :=
  let! str := read_until_crlf in
  match str with
  | [c] =>
      if c =? ch "t" then ret true
      else if c =? ch "f" then ret false
      else fail RedisError.InvalidBoolean
  | _ => fail RedisError.InvalidBoolean
  end.

(** [usize::try_from(len).expect("int cast")] *)
Definition usize_try_from (n : Z) : option Z := if 0 <=? n then Some n else None.

(** The payload of a blob and the CRLF behind it. *)
Definition read_payload (invalid : RedisError.t) (n : Z) : reader bytes :=
  let! n := lift (usize_try_from n) in
  let! p := gets pos in
  let! b := gets buffer in
  if len b <? p + n then fail RedisError.InvalidResponse
  else
    let! str := lift (slice_range b p (p + n)) in
    advance n;;
    let! crlf := read_until_crlf in
    match crlf with
    | [] => ret str
    | _ => fail invalid
    end.

Definition read_verbatim_string : reader VerbatimString :=
  let! n := read_integer in
  if negb ((0 <=? n) && (n <=? MAX_BULK_LEN)) then fail RedisError.InvalidVerbatimString
  else
    let! content_with_format := read_payload RedisError.InvalidVerbatimString n in
    if len content_with_format <? 4 then fail RedisError.InvalidVerbatimString
    else
      let! c := lift (at_ content_with_format 3) in
      if negb (c =? ch ":") then fail RedisError.InvalidVerbatimString
      else
        let! format := lift (slice_range content_with_format 0 3) in
        let! content := lift (slice_from content_with_format 4) in
        ret (mkVerbatimString format content).

Definition take_prealloc_budget (n element_size : Z) : reader Z := λ r,
  let cap := Z.min n (prealloc_budget r / Z.max element_size 1) in
  if prealloc_budget r <? cap * element_size then None
  else Some (Ok cap, set_prealloc_budget (prealloc_budget r - cap * element_size) r).

(** [Vec::with_capacity(cap)] *)
Definition with_capacity (cap element_size : Z) : reader unit :=
  if (0 <=? cap) && (cap * element_size <=? isize_MAX) then ret tt else panic.

Definition with_budget (n : Z) (element_size : N) : reader unit :=
  let! cap := take_prealloc_budget n (Z.of_N element_size) in with_capacity cap (Z.of_N element_size).

(** [while i < len { vec.push(body()?); i += 1; }] *)
Fixpoint read_times {A} (fuel : nat) (body : reader A) (i n : Z) : reader (list A) :=
  match fuel with
  | O => panic
  | S fuel =>
      if i <? n then
        let! v := body in
        let! vs := read_times fuel body (i + 1) n in
        ret (v :: vs)
      else ret []
  end.

Section reader.
Context `{F : Float64} `{L : Layout}.

Fixpoint read_value_with_depth (fuel : nat) (depth : Z) : reader RESPValue.t :=
  match fuel with
  | O => panic
  | S fuel =>
      let child := read_value_with_depth fuel (depth + 1) in
      let entry := let! key := child in let! value := child in ret (RESPValue.mkMapEntry key value) in
      let! type_byte := read_byte in
      match RESPType.from_byte type_byte with
      | None => fail RedisError.InvalidResponseType
      | Some RESPType.SimpleString => let! str := read_until_crlf in ret (RESPValue.SimpleString str)
      | Some RESPType.Error => let! str := read_until_crlf in ret (RESPValue.Error str)
      | Some RESPType.Integer => let! int := read_integer in ret (RESPValue.Integer int)
      | Some RESPType.BulkString =>
          let! n := read_integer in
          if n <? 0 then ret (RESPValue.BulkString None)
          else if MAX_BULK_LEN <? n then fail RedisError.InvalidBulkString
          else let! str := read_payload RedisError.InvalidBulkString n in ret (RESPValue.BulkString (Some str))
      | Some RESPType.Array =>
          if MAX_NESTING_DEPTH <=? depth then fail RedisError.NestingDepthExceeded
          else
            let! n := read_integer in
            if n <? 0 then ret RESPValue.Null
            else
              let! n := lift (usize_try_from n) in
              with_budget n size_of_RESPValue;;
              let! array := read_times fuel child 0 n in
              ret (RESPValue.Array array)
      | Some RESPType.Null =>
          let! str := read_until_crlf in
          match str with
          | [] => ret RESPValue.Null
          | _ => fail RedisError.InvalidNull
          end
      | Some RESPType.Double => let! d := read_double in ret (RESPValue.Double d)
      | Some RESPType.Boolean => let! b := read_boolean in ret (RESPValue.Boolean b)
      | Some RESPType.BlobError =>
          let! n := read_integer in
          if negb ((0 <=? n) && (n <=? MAX_BULK_LEN)) then fail RedisError.InvalidBlobError
          else let! str := read_payload RedisError.InvalidBlobError n in ret (RESPValue.Error str)
      | Some RESPType.VerbatimString => let! v := read_verbatim_string in ret (RESPValue.VerbatimString v)
      | Some RESPType.Map =>
          if MAX_NESTING_DEPTH <=? depth then fail RedisError.NestingDepthExceeded
          else
            let! n := read_integer in
            if n <? 0 then fail RedisError.InvalidMap
            else
              let! n := lift (usize_try_from n) in
              with_budget n size_of_MapEntry;;
              let! entries := read_times fuel entry 0 n in
              ret (RESPValue.Map entries)
      | Some RESPType.Set_ =>
          if MAX_NESTING_DEPTH <=? depth then fail RedisError.NestingDepthExceeded
          else
            let! n := read_integer in
            if n <? 0 then fail RedisError.InvalidSet
            else
              let! n := lift (usize_try_from n) in
              with_budget n size_of_RESPValue;;
              let! set := read_times fuel child 0 n in
              ret (RESPValue.Set_ set)
      | Some RESPType.Attribute =>
          if MAX_NESTING_DEPTH <=? depth then fail RedisError.NestingDepthExceeded
          else
            let! n := read_integer in
            if n <? 0 then fail RedisError.InvalidAttribute
            else
              let! n := lift (usize_try_from n) in
              with_budget n size_of_MapEntry;;
              let! attrs := read_times fuel entry 0 n in
              let! value := child in
              ret (RESPValue.Attribute (RESPValue.mkAttribute attrs value))
      | Some RESPType.Push =>
          if MAX_NESTING_DEPTH <=? depth then fail RedisError.NestingDepthExceeded
          else
            let! n := read_integer in
            if n <=? 0 then fail RedisError.InvalidPush
            else
              let! push_type := child in
              match push_type with
              | RESPValue.SimpleString str | RESPValue.BulkString (Some str) =>
                  let! data_len := lift (usize_try_from (n - 1)) in
                  with_budget data_len size_of_RESPValue;;
                  let! data := read_times fuel child 0 data_len in
                  ret (RESPValue.Push (RESPValue.mkPush str data))
              | _ => fail RedisError.InvalidPush
              end
      | Some RESPType.BigNumber => let! str := read_until_crlf in ret (RESPValue.BigNumber str)
      end
  end.

(** Every call reads a byte, so the bytes left bound both the depth of the calls and
    the rounds of every loop. *)
Definition read_value : reader RESPValue.t := λ r,
  if len (buffer r) <? pos r then None
  else
    let r := set_prealloc_budget (len (buffer r) - pos r) r in
    read_value_with_depth (S (S (length (buffer r)))) 0 r.
End reader.

(** ** [ReplyScanner] *)

Inductive ScanResult := Complete | NeedMoreData.
#[export] Instance ScanResult_eq_dec : EqDecision ScanResult.
Proof. solve_decision. Defined.

(** [stack] is the [Vec] of remaining children, innermost aggregate (the last of
    the [Vec]) first. *)
Record ReplyScanner := mkScanner { sc_pos : Z; stack : list Z; sc_crlf_skip : Z }.

Definition reset : ReplyScanner := mkScanner 0 [] 0.

(** On [u64]. *)
Definition saturating_mul (a b : Z) : Z := Z.min (a * b) U64_MAX.
Definition saturating_add (a b : Z) : Z := Z.min (a + b) U64_MAX.
(** [u64::try_from(len).expect("int cast")] of an [i64] *)
Definition u64_try_from (n : Z) : option Z := if 0 <=? n then Some n else None.

(** The payload of a blob and its CRLF, skipped when both are there. *)
Definition scan_payload (invalid : RedisError.t) (n : Z) : reader (option Z) :=
  let! n := lift (usize_try_from n) in
  let! p := gets pos in
  let! b := gets buffer in
  let! left := lift (usize_try_from (len b - p)) in
  if left <? n + 2 then fail RedisError.InvalidResponse
  else
    let! c0 := lift (at_ b (p + n)) in
    if negb (c0 =? 13) then fail invalid
    else
      let! c1 := lift (at_ b (p + n + 1)) in
      if negb (c1 =? 10) then fail invalid
      else advance (n + 2);; ret None.

Definition scan_one (depth : Z) : reader (option Z) :=
  let! type_byte := read_byte in
  match RESPType.from_byte type_byte with
  | None => fail RedisError.InvalidResponseType
  | Some ty =>
      match ty with
      | RESPType.SimpleString | RESPType.Error | RESPType.Integer
      | RESPType.Double | RESPType.Boolean | RESPType.BigNumber =>
          read_until_crlf;; ret None
      | RESPType.Null =>
          let! str := read_until_crlf in
          match str with
          | [] => ret None
          | _ => fail RedisError.InvalidNull
          end
      | RESPType.BulkString | RESPType.BlobError | RESPType.VerbatimString =>
          let invalid :=
            match ty with
            | RESPType.BlobError => RedisError.InvalidBlobError
            | RESPType.VerbatimString => RedisError.InvalidVerbatimString
            | _ => RedisError.InvalidBulkString
            end in
          let! n := read_integer in
          if n <? 0 then if bool_decide (ty = RESPType.BulkString) then ret None else fail invalid
          else if MAX_BULK_LEN <? n then fail invalid
          else scan_payload invalid n
      | RESPType.Array | RESPType.Set_ | RESPType.Push =>
          if MAX_NESTING_DEPTH <=? depth then fail RedisError.NestingDepthExceeded
          else
            let! n := read_integer in
            match ty with
            | RESPType.Array =>
                if n <? 0 then ret (Some 0) else let! n := lift (u64_try_from n) in ret (Some n)
            | RESPType.Set_ =>
                if n <? 0 then fail RedisError.InvalidSet else let! n := lift (u64_try_from n) in ret (Some n)
            | _ =>
                if n <=? 0 then fail RedisError.InvalidPush else let! n := lift (u64_try_from n) in ret (Some n)
            end
      | RESPType.Map =>
          if MAX_NESTING_DEPTH <=? depth then fail RedisError.NestingDepthExceeded
          else
            let! n := read_integer in
            if n <? 0 then fail RedisError.InvalidMap
            else let! n := lift (u64_try_from n) in ret (Some (saturating_mul n 2))
      | RESPType.Attribute =>
          if MAX_NESTING_DEPTH <=? depth then fail RedisError.NestingDepthExceeded
          else
            let! n := read_integer in
            if n <? 0 then fail RedisError.InvalidAttribute
            else let! n := lift (u64_try_from n) in ret (Some (saturating_add (saturating_mul n 2) 1))
      end
  end.

(** [while let Some(remaining) = self.stack.last_mut() { .. }]: an element is
    finished; unwind every aggregate it completes. [None] is the underflow of a
    count. *)
Fixpoint unwind (stack : list Z) : option (list Z) :=
  match stack with
  | [] => Some []
  | remaining :: outer =>
      if remaining <=? 0 then None
      else if 0 <? remaining - 1 then Some (remaining - 1 :: outer)
      else unwind outer
  end.

(** The loop of [scan]; every round but the last reads at least a byte. *)
Fixpoint scan_loop (fuel : nat) (buffer : bytes) (s : ReplyScanner) : option (Result ScanResult * ReplyScanner) :=
  match fuel with
  | O => None
  | S fuel =>
      match scan_one (Z.of_nat (length (stack s))) (mkReader buffer (sc_pos s) 0 (sc_crlf_skip s)) with
      | None => None
      | Some (Err RedisError.InvalidResponse, r) =>
          let need_more skip := Some (Ok NeedMoreData, mkScanner (sc_pos s) (stack s) skip) in
          if pos r =? sc_pos s + 1 then
            if len buffer <? pos r then None else need_more (Z.max 0 (len buffer - pos r - 1))
          else need_more 0
      | Some (Err e, _) => Some (Err e, s)
      | Some (Ok children, r) =>
          let finished :=
            match unwind (stack s) with
            | None => None
            | Some [] => Some (Ok Complete, mkScanner (pos r) [] 0)
            | Some stack => scan_loop fuel buffer (mkScanner (pos r) stack 0)
            end in
          match children with
          | Some n => if 0 <? n then scan_loop fuel buffer (mkScanner (pos r) (n :: stack s) 0) else finished
          | None => finished
          end
      end
  end.

Definition scan (buffer : bytes) (s : ReplyScanner) : option (Result ScanResult * ReplyScanner) :=
  scan_loop (S (length buffer)) buffer s.

(** ** The kinds of push messages *)

Module SubscriptionPushMessage.
Inductive t := Message | Subscribe | Unsubscribe | PatternMessage.
#[export] Instance t_eq_dec : EqDecision t.
Proof. solve_decision. Defined.

(** [SUBSCRIPTION_PUSH_MESSAGES.get] *)
Definition get (s : bytes) : option t :=
  if bool_decide (s = bs "message") then Some Message
  else if bool_decide (s = bs "subscribe") then Some Subscribe
  else if bool_decide (s = bs "unsubscribe") then Some Unsubscribe
  else None.

Definition is_prefix_letter (c : Z) : bool := (c =? ch "p") || (c =? ch "s").

Definition from_bytes (s : bytes) : option t :=
  match get s with
  | Some kind => Some kind
  | None =>
      match s with
      | c :: base =>
          if is_prefix_letter c then
            match get base with
            | Some Subscribe => Some Subscribe
            | Some Unsubscribe => Some Unsubscribe
            | Some Message => Some PatternMessage
            | _ => None
            end
          else None
      | [] => None
      end
  end.

Definition is_reply_kind (kind : bytes) : bool :=
  match kind with
  | c :: base =>
      is_prefix_letter c &&
      match from_bytes base with
      | Some Subscribe | Some Unsubscribe => true
      | _ => false
      end
  | [] => false
  end.
End SubscriptionPushMessage.
Export (hints) SubscriptionPushMessage.
