(* ===== verification/ValkeyReaderFacts.v ===== *)
(** * The reader: it always returns, and only what is read decides what it returns

    Three properties of a method, each closed under the monad: it keeps the reader
    well formed and only moves forward ([keeps]); with enough fuel for the bytes
    that are left it returns ([total]); what it returned, other than having run out
    of bytes, it returns again when more bytes follow ([sim]). *)

From S2P Require Import Prelude BunStrings ValkeyProtocol.

#[local] Open Scope Z_scope.
#[local] Open Scope reader_scope.

Record wf (r : ValkeyReader) : Prop := {
  wf_pos : 0 <= pos r <= len (buffer r);
  wf_budget : 0 <= prealloc_budget r <= isize_MAX;
  wf_skip : 0 <= crlf_skip r;
  wf_len : len (buffer r) <= isize_MAX }.

(** The bytes not yet read. *)
Definition left_ (r : ValkeyReader) : Z := len (buffer r) - pos r.

(** [r'] is [r] after some reading. *)
Record later (r r' : ValkeyReader) : Prop := {
  later_buffer : buffer r' = buffer r;
  later_pos : pos r <= pos r';
  later_budget : prealloc_budget r' <= prealloc_budget r;
  later_skip : crlf_skip r' <= crlf_skip r;
  later_wf : wf r' }.

(** [r2] is [r1] with [x] appended to the buffer, the budget apart. *)
Record ext (x : bytes) (r1 r2 : ValkeyReader) : Prop := {
  ext_buffer : buffer r2 = buffer r1 ++ x;
  ext_pos : pos r2 = pos r1;
  ext_skip : crlf_skip r2 = crlf_skip r1;
  ext_wf1 : wf r1;
  ext_wf2 : wf r2 }.

Definition keeps {A} (m : reader A) : Prop :=
  ∀ r res r', wf r → m r = Some (res, r') → later r r'.

Definition total {A} (k : Z) (m : reader A) : Prop :=
  ∀ r, wf r → left_ r < k → ∃ res r', m r = Some (res, r').

(** A result reads at least a byte. *)
Definition eats {A} (m : reader A) : Prop :=
  ∀ r a r', wf r → m r = Some (Ok a, r') → pos r < pos r'.

Definition sim {A} (m1 m2 : reader A) : Prop :=
  ∀ x r1 r2 res r1',
    ext x r1 r2 → m1 r1 = Some (res, r1') → x = [] ∨ res ≠ Err RedisError.InvalidResponse →
    ∃ r2', m2 r2 = Some (res, r2') ∧ ext x r1' r2'.

Create HintDb reader.

(** Compute the fields of an updated reader. *)
Ltac fields := cbn [buffer pos prealloc_budget crlf_skip set_pos set_prealloc_budget set_crlf_skip] in *.

Lemma len_app b x : len (b ++ x) = len b + len x.
Proof. unfold len. rewrite length_app. lia. Qed.
Lemma len_nonneg b : 0 <= len b.
Proof. unfold len. lia. Qed.

Lemma later_refl r : wf r → later r r.
Proof. by split. Qed.
Lemma later_trans r1 r2 r3 : later r1 r2 → later r2 r3 → later r1 r3.
Proof. intros [] []; split; congruence || lia || done. Qed.

(** ** The monad *)

Lemma bind_ok {A B} (m : reader A) (k : A → reader B) r b r' :
  bind m k r = Some (Ok b, r') → ∃ a r1, m r = Some (Ok a, r1) ∧ k a r1 = Some (Ok b, r').
Proof. unfold bind. destruct (m r) as [[[a|e] r1]|]; naive_solver. Qed.

Lemma bind_err {A B} (m : reader A) (k : A → reader B) r e r' :
  bind m k r = Some (Err e, r') →
  m r = Some (Err e, r') ∨ ∃ a r1, m r = Some (Ok a, r1) ∧ k a r1 = Some (Err e, r').
Proof. unfold bind. destruct (m r) as [[[a|e'] r1]|]; naive_solver. Qed.

Lemma keeps_bind {A B} (m : reader A) (k : A → reader B) :
  keeps m → (∀ a, keeps (k a)) → keeps (bind m k).
Proof.
  intros Hm Hk r res r' Hr. unfold bind. destruct (m r) as [[[a|e] r1]|] eqn:E; [| |done].
  - intros H. pose proof (Hm _ _ _ Hr E) as H1. eapply later_trans, Hk, H; [done|apply H1].
  - intros [= <- <-]. eauto.
Qed.

Lemma total_bind {A B} k (m : reader A) (f : A → reader B) :
  keeps m → total k m → (∀ a, total k (f a)) → total k (bind m f).
Proof.
  intros Hk Hm Hf r Hr Hl. destruct (Hm r Hr Hl) as (res & r1 & E).
  pose proof (Hk _ _ _ Hr E) as [Hb Hp _ _ Hw]. unfold bind. rewrite E. destruct res; [|eauto].
  apply Hf; [done|]. unfold left_ in *. rewrite Hb. lia.
Qed.

Lemma total_bind_eats {A B} k (m : reader A) (f : A → reader B) :
  keeps m → eats m → total (k + 1) m → (∀ a, total k (f a)) → total (k + 1) (bind m f).
Proof.
  intros Hk He Hm Hf r Hr Hl. destruct (Hm r Hr Hl) as (res & r1 & E).
  pose proof (Hk _ _ _ Hr E) as [Hb Hp _ _ Hw]. unfold bind. rewrite E. destruct res; [|eauto].
  pose proof (He _ _ _ Hr E). apply Hf; [done|]. unfold left_ in *. rewrite Hb. lia.
Qed.

Lemma eats_bind {A B} (m : reader A) (k : A → reader B) :
  keeps m → eats m → (∀ a, keeps (k a)) → eats (bind m k).
Proof.
  intros Hm He Hk r b r' Hr (a & r1 & E & H)%bind_ok.
  pose proof (Hm _ _ _ Hr E) as H1. pose proof (He _ _ _ Hr E).
  pose proof (Hk a _ _ _ (later_wf _ _ H1) H) as []. lia.
Qed.

Lemma sim_bind {A B} (m1 m2 : reader A) (k1 k2 : A → reader B) :
  sim m1 m2 → (∀ a, sim (k1 a) (k2 a)) → sim (bind m1 k1) (bind m2 k2).
Proof.
  intros Hm Hk x r1 r2 res r1' He. unfold bind at 1. destruct (m1 r1) as [[[a|e] r]|] eqn:E; [| |done].
  - intros H Hx. destruct (Hm _ _ _ _ _ He E) as (r' & E2 & He2); [naive_solver|].
    unfold bind. rewrite E2. eapply Hk; eauto.
  - intros [= <- <-] Hx. destruct (Hm _ _ _ _ _ He E) as (r' & E2 & He2); [naive_solver|].
    unfold bind. rewrite E2. eauto.
Qed.

Lemma keeps_ret {A} (a : A) : keeps (ret a).
Proof. intros r res r' Hr [= <- <-]. by apply later_refl. Qed.
Lemma keeps_fail {A} e : keeps (fail (A:=A) e).
Proof. intros r res r' Hr [= <- <-]. by apply later_refl. Qed.
Lemma keeps_panic {A} : keeps (panic (A:=A)).
Proof. by intros r res r' Hr. Qed.
Lemma keeps_lift {A} (o : option A) : keeps (lift o).
Proof. intros r res r' Hr. unfold lift. destruct o; intros [=]; subst. by apply later_refl. Qed.

Lemma total_ret {A} k (a : A) : total k (ret a).
Proof. by eexists _, _. Qed.
Lemma total_fail {A} k e : total k (fail (A:=A) e).
Proof. by eexists _, _. Qed.
Lemma total_lift {A} k (a : A) : total k (lift (Some a)).
Proof. by eexists _, _. Qed.

Lemma sim_ret {A} (a : A) : sim (ret a) (ret a).
Proof. intros x r1 r2 res r1' He [= <- <-] _. by eexists. Qed.
Lemma sim_fail {A} e : sim (fail (A:=A) e) (fail e).
Proof. intros x r1 r2 res r1' He [= <- <-] _. by eexists. Qed.
Lemma sim_panic {A} (m : reader A) : sim panic m.
Proof. by intros x r1 r2 res r1' He. Qed.
Lemma sim_lift {A} (o : option A) : sim (lift o) (lift o).
Proof. intros x r1 r2 res r1' He. unfold lift. destruct o; intros [= <- <-] _. by eexists. Qed.

#[export] Hint Resolve keeps_bind keeps_ret keeps_fail keeps_panic keeps_lift : reader.
#[export] Hint Resolve total_bind total_ret total_fail total_lift : reader.
#[export] Hint Resolve sim_bind sim_ret sim_fail sim_panic sim_lift : reader.

(** ** Bytes *)

Lemma drop_ext x r1 r2 :
  ext x r1 r2 → drop (Z.to_nat (pos r2)) (buffer r2) = drop (Z.to_nat (pos r1)) (buffer r1) ++ x.
Proof.
  intros [Hb Hp _ Hw _]. rewrite Hb, Hp. rewrite drop_app_le; [done|]. destruct Hw as [Hw]. unfold len in Hw. lia.
Qed.

Lemma at_some b i : 0 <= i < len b → ∃ c, at_ b i = Some c.
Proof.
  intros Hi. unfold at_. rewrite (proj2 (Z.leb_le _ _)) by lia. apply lookup_lt_is_Some. unfold len in Hi. lia.
Qed.

Lemma at_app b x i : i < len b → at_ (b ++ x) i = at_ b i.
Proof. intros Hi. unfold at_. case_match; [|done]. apply lookup_app_l. unfold len in Hi. lia. Qed.

Lemma at_cons c b i : 0 <= i → at_ (c :: b) (i + 1) = at_ b i.
Proof.
  intros Hi. unfold at_. do 2 (rewrite (proj2 (Z.leb_le _ _)) by lia).
  by replace (Z.to_nat (i + 1)) with (S (Z.to_nat i)) by lia.
Qed.

Lemma at_range b i c : at_ b i = Some c → 0 <= i < len b.
Proof.
  unfold at_, len. destruct (Z.leb_spec 0 i); [|done]. intros Hc%lookup_lt_Some. lia.
Qed.

Lemma wf_move r n k : wf r → 0 <= pos r + n <= len (buffer r) → 0 <= k → wf (set_pos (pos r + n) (set_crlf_skip k r)).
Proof. intros [] ??. by split. Qed.

Lemma read_byte_spec r :
  wf r →
  if len (buffer r) <=? pos r then read_byte r = Some (Err RedisError.InvalidResponse, r)
  else ∃ c, at_ (buffer r) (pos r) = Some c ∧ read_byte r = Some (Ok c, set_pos (pos r + 1) r).
Proof.
  intros [Hp]. unfold read_byte. destruct (Z.leb_spec (len (buffer r)) (pos r)); [done|].
  destruct (at_some (buffer r) (pos r)) as [c Hc]; [lia|]. rewrite Hc. eauto.
Qed.

Lemma keeps_read_byte : keeps read_byte.
Proof.
  intros r res r' Hr H. pose proof (read_byte_spec r Hr) as Hs. destruct (Z.leb_spec (len (buffer r)) (pos r)).
  - rewrite Hs in H. injection H as <- <-. by apply later_refl.
  - destruct Hs as (c & _ & Hs). rewrite Hs in H. injection H as <- <-. destruct Hr. split; fields; [done|lia|lia|lia|]. split; fields; done || lia.
Qed.

Lemma total_read_byte k : total k read_byte.
Proof. intros r Hr _. pose proof (read_byte_spec r Hr). destruct (_ <=? _); naive_solver. Qed.

Lemma eats_read_byte : eats read_byte.
Proof.
  intros r a r' Hr. pose proof (read_byte_spec r Hr) as Hs. destruct (_ <=? _).
  - by rewrite Hs.
  - destruct Hs as (c & _ & ->). intros [= <- <-]. fields. lia.
Qed.

Lemma sim_read_byte : sim read_byte read_byte.
Proof.
  intros x r1 r2 res r1' He H Hx. pose proof (ext_wf1 _ _ _ He) as Hw1. pose proof (ext_wf2 _ _ _ He) as Hw2.
  pose proof (read_byte_spec r1 Hw1) as H1. pose proof (read_byte_spec r2 Hw2) as H2.
  pose proof (keeps_read_byte r1 _ _ Hw1 H) as Hl1.
  destruct He as [Hb Hp Hs _ _]. rewrite Hb, Hp, len_app in H2.
  destruct (Z.leb_spec (len (buffer r1)) (pos r1)) as [Hle|Hlt].
  - rewrite H1 in H. injection H as <- <-. destruct Hx as [->|]; [|done].
    change (len []) with 0 in H2. rewrite (proj2 (Z.leb_le _ _)) in H2 by lia. eauto using Build_ext.
  - destruct H1 as (c & Hc & H1). rewrite H1 in H. injection H as <- <-.
    rewrite (proj2 (Z.leb_gt _ _)) in H2 by (pose proof (len_nonneg x); lia).
    destruct H2 as (c' & Hc' & H2). rewrite at_app in Hc' by done. replace c' with c in * by congruence.
    exists (set_pos (pos r1 + 1) r2). split; [done|]. split; fields; try done; [apply Hl1|].
    by apply keeps_read_byte in H2 as [].
Qed.
#[export] Hint Resolve keeps_read_byte total_read_byte eats_read_byte sim_read_byte : reader.

(** ** Lines *)

(** What the loop finds: the first CRLF at or after [start], below [limit]. *)
Lemma find_crlf_spec limit start i b k :
  find_crlf limit start i b = Some k →
  i <= k < limit ∧ start <= k ∧ at_ b (k - i) = Some 13 ∧ at_ b (k - i + 1) = Some 10.
Proof.
  revert i. induction b as [|c b IH]; intros i; cbn [find_crlf]; [done|].
  destruct (Z.leb_spec limit i); [done|]. destruct (_ && _) eqn:E.
  - intros [= <-]. apply andb_prop in E as [[E1 E2]%andb_prop E3].
    replace (i - i) with 0 by lia. split; [lia|]. split; [lia|].
    destruct b as [|c' b]; [done|]. apply Z.eqb_eq in E2 as ->, E3 as ->. done.
  - intros Hf%IH. destruct Hf as (? & ? & H1 & H2). split; [lia|]. split; [lia|].
    pose proof (at_range _ _ _ H1). pose proof (at_range _ _ _ H2).
    replace (k - i) with (k - (i + 1) + 1) by lia. by rewrite !at_cons by lia.
Qed.

(** It only looks below [limit] and one byte further. *)
Lemma find_crlf_app limit start i b x :
  find_crlf (Z.min (i + len b) limit) start i b ≠ None ∨ limit < i + len b →
  find_crlf (Z.min (i + len b + len x) limit) start i (b ++ x) = find_crlf (Z.min (i + len b) limit) start i b.
Proof.
  revert i. induction b as [|c b IH]; intros i H; cbn [find_crlf app].
  { destruct H as [H|H]; [done|]. destruct x; [done|]. cbn [find_crlf].
    unfold len in H. cbn in H. by rewrite (proj2 (Z.leb_le _ _)) by lia. }
  assert (len (c :: b) = len b + 1) as Hl by (unfold len; cbn; lia). rewrite Hl in *.
  pose proof (len_nonneg b). pose proof (len_nonneg x).
  destruct (Z.leb_spec limit i).
  { by do 2 (rewrite (proj2 (Z.leb_le (Z.min _ limit) i)) by lia). }
  do 2 (rewrite (proj2 (Z.leb_gt (Z.min _ limit) i)) by lia). cbn [find_crlf] in H.
  rewrite (proj2 (Z.leb_gt (Z.min _ limit) i)) in H by lia.
  destruct b as [|c' b].
  - destruct (_ && false) eqn:E; [by rewrite andb_false_r in E|]. destruct H as [H|H]; [done|].
    unfold len in H. cbn in H. lia.
  - cbn [app]. destruct ((start <=? i) && (c =? 13) && (c' =? 10)); [done|].
    replace (i + (len (c' :: b) + 1)) with (i + 1 + len (c' :: b)) in * by lia. apply IH. destruct H as [H|H]; [by left|right; lia].
Qed.

(** The skip is not cut short by [limit]. *)
Lemma find_crlf_start limit s i b : find_crlf limit (Z.min s limit) i b = find_crlf limit s i b.
Proof.
  revert i. induction b as [|c b IH]; intros i; cbn [find_crlf]; [done|].
  destruct (Z.leb_spec limit i); [done|]. rewrite IH.
  destruct (Z.leb_spec (Z.min s limit) i), (Z.leb_spec s i); done || lia.
Qed.

(** The result of [read_until_crlf] as a function of what is left. *)
Lemma read_until_crlf_spec r :
  wf r →
  let b := drop (Z.to_nat (pos r)) (buffer r) in
  read_until_crlf r =
    match find_crlf (Z.min (0 + len b) (MAX_LINE_LEN + 1)) (crlf_skip r) 0 b with
    | Some i => Some (Ok (take (Z.to_nat i) b), set_pos (pos r + (i + 2)) (set_crlf_skip 0 r))
    | None => Some (Err (if MAX_LINE_LEN + 1 <? len b then RedisError.LineTooLong else RedisError.InvalidResponse),
                    set_crlf_skip 0 r)
    end.
Proof.
  intros [Hp] b. unfold read_until_crlf, slice_from. do 2 (rewrite (proj2 (Z.leb_le _ _)) by lia). cbn [andb].
  fold b. rewrite find_crlf_start, Z.add_0_l. destruct (find_crlf _ _ _ _); [done|]. by destruct (_ <? _).
Qed.

Lemma len_drop r : wf r → len (drop (Z.to_nat (pos r)) (buffer r)) = left_ r.
Proof. intros [Hp]. unfold left_, len in *. rewrite length_drop. lia. Qed.

Lemma keeps_read_until_crlf : keeps read_until_crlf.
Proof.
  intros r res r' Hr. rewrite read_until_crlf_spec by done. pose proof Hr as [Hp].
  destruct (find_crlf _ _ _ _) as [i|] eqn:E; intros [= <- <-].
  - apply find_crlf_spec in E as (? & _ & _ & E%at_range). rewrite len_drop in E by done. unfold left_ in E.
    split; fields; [done|lia|lia|lia|]. apply (wf_move r (i + 2) 0 Hr); lia.
  - split; fields; [done|lia|lia|lia|]. destruct Hr. by split.
Qed.

Lemma total_read_until_crlf k : total k read_until_crlf.
Proof. intros r Hr _. rewrite read_until_crlf_spec by done. case_match; eauto. Qed.

Lemma eats_read_until_crlf : eats read_until_crlf.
Proof.
  intros r a r' Hr. rewrite read_until_crlf_spec by done. destruct (find_crlf _ _ _ _) as [i|] eqn:E; [|done].
  intros [= <- <-]. apply find_crlf_spec in E. fields. lia.
Qed.

Lemma sim_read_until_crlf : sim read_until_crlf read_until_crlf.
Proof.
  intros x r1 r2 res r1' He H Hx. pose proof (ext_wf1 _ _ _ He) as Hw1. pose proof (ext_wf2 _ _ _ He) as Hw2.
  pose proof (keeps_read_until_crlf r1 _ _ Hw1 H) as Hl1.
  assert (∀ res' r2', read_until_crlf r2 = Some (res', r2') → wf r2') as Hl2
    by (intros ?? E; by apply keeps_read_until_crlf in E as []).
  rewrite read_until_crlf_spec in H by done. rewrite read_until_crlf_spec by done.
  rewrite read_until_crlf_spec in Hl2 by done.
  rewrite (drop_ext x r1 r2), (ext_skip x r1 r2) in * by done. rewrite len_app, Z.add_assoc in *.
  set (b := drop (Z.to_nat (pos r1)) (buffer r1)) in *. pose proof (ext_pos _ _ _ He) as Hp. destruct He as [Hb _ Hs _ _].
  destruct (find_crlf (Z.min (0 + len b) _) _ _ _) as [i|] eqn:E.
  - rewrite find_crlf_app, E in * by (left; congruence). injection H as <- <-.
    eexists. split; [f_equal; f_equal|].
    + rewrite take_app_le; [done|]. apply find_crlf_spec in E as (_ & _ & _ & E%at_range). unfold len in E. lia.
    + split; fields; try done; [congruence|apply Hl1|]. by eapply Hl2.
  - injection H as <- <-. assert (x = [] ∨ MAX_LINE_LEN + 1 < len b) as Hx'.
    { destruct (Z.ltb_spec (MAX_LINE_LEN + 1) (len b)); [by right|]. destruct Hx; [by left|done]. }
    assert (find_crlf (Z.min (0 + len b + len x) (MAX_LINE_LEN + 1)) (crlf_skip r1) 0 (b ++ x) = None) as E2.
    { destruct Hx' as [->|]; [|rewrite find_crlf_app by (right; lia); done].
      rewrite app_nil_r. change (len []) with 0. by rewrite Z.add_0_r. }
    rewrite E2 in *. exists (set_crlf_skip 0 r2). split.
    + repeat f_equal. destruct Hx' as [->|]; [change (len []) with 0; by rewrite Z.add_0_r|].
      pose proof (len_nonneg x). destruct (Z.ltb_spec (MAX_LINE_LEN + 1) (len b)); [|lia].
      by rewrite (proj2 (Z.ltb_lt _ _)) by lia.
    + split; fields; try done; [apply Hl1|]. by eapply Hl2.
Qed.
#[export] Hint Resolve keeps_read_until_crlf total_read_until_crlf eats_read_until_crlf sim_read_until_crlf : reader.

(** ** Scalars *)

(** Take a method apart along the monad and its branches. *)
Ltac walk :=
  repeat first
    [ progress intros
    | solve [auto with reader]
    | apply keeps_bind | apply total_bind | apply sim_bind
    | case_match ].

Lemma keeps_read_integer : keeps read_integer.
Proof. unfold read_integer. walk. Qed.
Lemma total_read_integer k : total k read_integer.
Proof. unfold read_integer. walk. Qed.
Lemma sim_read_integer : sim read_integer read_integer.
Proof. unfold read_integer. walk. Qed.
#[export] Hint Resolve keeps_read_integer total_read_integer sim_read_integer : reader.

Lemma keeps_read_double `{Float64} : keeps read_double.
Proof. unfold read_double. walk. Qed.
Lemma total_read_double `{Float64} k : total k read_double.
Proof. unfold read_double. walk. Qed.
Lemma sim_read_double `{Float64} : sim read_double read_double.
Proof. unfold read_double. walk. Qed.
Lemma keeps_read_boolean : keeps read_boolean.
Proof. unfold read_boolean. walk. Qed.
Lemma total_read_boolean k : total k read_boolean.
Proof. unfold read_boolean. walk. Qed.
Lemma sim_read_boolean : sim read_boolean read_boolean.
Proof. unfold read_boolean. walk. Qed.
#[export] Hint Resolve keeps_read_double total_read_double sim_read_double : reader.
#[export] Hint Resolve keeps_read_boolean total_read_boolean sim_read_boolean : reader.

Lemma read_payload_eq invalid n r :
  wf r → 0 <= n →
  read_payload invalid n r =
    if len (buffer r) <? pos r + n then Some (Err RedisError.InvalidResponse, r)
    else match read_until_crlf (set_pos (pos r + n) r) with
         | Some (Ok [], r') => Some (Ok (take (Z.to_nat n) (drop (Z.to_nat (pos r)) (buffer r))), r')
         | Some (Ok _, r') => Some (Err invalid, r')
         | Some (Err e, r') => Some (Err e, r')
         | None => None
         end.
Proof.
  intros [Hp] Hn. unfold read_payload, usize_try_from. rewrite (proj2 (Z.leb_le 0 n)) by done.
  unfold bind, lift, gets. destruct (Z.ltb_spec (len (buffer r)) (pos r + n)); [done|].
  unfold slice_range. rewrite (proj2 (Z.leb_le 0 _)), (proj2 (Z.leb_le (pos r) _)), (proj2 (Z.leb_le _ (len _))) by lia.
  cbn [andb]. replace (pos r + n - pos r) with n by lia. unfold advance.
  destruct (read_until_crlf _) as [[[[|]|] ]|]; done.
Qed.

Lemma wf_set_pos r p : wf r → 0 <= p <= len (buffer r) → wf (set_pos p r).
Proof. intros [] ?. by split. Qed.

Lemma keeps_read_payload invalid n : keeps (read_payload invalid n).
Proof.
  intros r res r' Hr. destruct (Z.leb_spec 0 n) as [Hn|Hn].
  2: { unfold read_payload, usize_try_from. by rewrite (proj2 (Z.leb_gt 0 n)). }
  rewrite read_payload_eq by done. pose proof Hr as [Hp]. destruct (Z.ltb_spec (len (buffer r)) (pos r + n)).
  { intros [= <- <-]. by apply later_refl. }
  assert (later r (set_pos (pos r + n) r)) as Hl by (split; fields; [done|lia|lia|lia|by apply wf_set_pos; [|lia]]).
  destruct (read_until_crlf _) as [[res1 r1]|] eqn:E; [|done].
  apply keeps_read_until_crlf in E; [|apply Hl]. pose proof (later_trans _ _ _ Hl E).
  destruct res1 as [[|]|]; intros [= <- <-]; done.
Qed.

Lemma total_read_payload k invalid n : 0 <= n → total k (read_payload invalid n).
Proof.
  intros Hn r Hr _. rewrite read_payload_eq by done. pose proof Hr as [Hp].
  destruct (Z.ltb_spec (len (buffer r)) (pos r + n)); [eauto|].
  destruct (total_read_until_crlf (left_ (set_pos (pos r + n) r) + 1) (set_pos (pos r + n) r)) as (res & r' & ->);
    [by apply wf_set_pos; [|lia]|lia|]. destruct res as [[|]|]; eauto.
Qed.

Lemma ext_set_pos x r1 r2 p : ext x r1 r2 → 0 <= p <= len (buffer r1) → ext x (set_pos p r1) (set_pos p r2).
Proof.
  intros [Hb ? ? ??] ?. split; fields; try done; apply wf_set_pos; try done.
  rewrite Hb, len_app. pose proof (len_nonneg x). lia.
Qed.

Lemma sim_read_payload invalid n : sim (read_payload invalid n) (read_payload invalid n).
Proof.
  intros x r1 r2 res r1' He. destruct (Z.leb_spec 0 n) as [Hn|Hn].
  2: { unfold read_payload, usize_try_from. by rewrite (proj2 (Z.leb_gt 0 n)). }
  pose proof He as [Hb Hp _ Hw1 Hw2]. pose proof (len_nonneg x). pose proof Hw1 as [Hp1]. rewrite !read_payload_eq by done.
  rewrite (drop_ext x r1 r2), Hp, Hb, len_app by done.
  destruct (Z.ltb_spec (len (buffer r1)) (pos r1 + n)).
  - intros [= <- <-] [->|]; [|done]. change (len []) with 0. rewrite (proj2 (Z.ltb_lt _ _)) by lia. eauto.
  - rewrite (proj2 (Z.ltb_ge _ _)) by lia. intros H1 Hx.
    destruct (read_until_crlf (set_pos (pos r1 + n) r1)) as [[res1 r1'']|] eqn:E; [|done].
    destruct (sim_read_until_crlf x (set_pos (pos r1 + n) r1) (set_pos (pos r1 + n) r2) _ _ ltac:(by apply ext_set_pos; [|lia]) E) as (r2' & -> & He').
    { destruct res1 as [[|]|]; naive_solver. }
    rewrite take_app_le by (rewrite length_drop; unfold len in *; lia).
    destruct res1 as [[|]|]; injection H1 as <- <-; eauto.
Qed.
#[export] Hint Resolve keeps_read_payload sim_read_payload : reader.

Lemma slice_from_in b i : 0 <= i <= len b → slice_from b i = Some (drop (Z.to_nat i) b).
Proof. intros Hi. unfold slice_from. by do 2 (rewrite (proj2 (Z.leb_le _ _)) by lia). Qed.
Lemma slice_range_in b i j :
  0 <= i → i <= j → j <= len b → slice_range b i j = Some (take (Z.to_nat (j - i)) (drop (Z.to_nat i) b)).
Proof. intros. unfold slice_range. by do 3 (rewrite (proj2 (Z.leb_le _ _)) by lia). Qed.

Lemma keeps_read_verbatim_string : keeps read_verbatim_string.
Proof. unfold read_verbatim_string. walk. Qed.
Lemma sim_read_verbatim_string : sim read_verbatim_string read_verbatim_string.
Proof. unfold read_verbatim_string. walk. Qed.
Lemma total_read_verbatim_string k : total k read_verbatim_string.
Proof.
  unfold read_verbatim_string. apply total_bind; [auto with reader..|]. intros n.
  destruct (negb _) eqn:E; [auto with reader|].
  apply total_bind; [auto with reader|apply total_read_payload; lia|]. intros b.
  destruct (Z.ltb_spec (len b) 4); [auto with reader|]. destruct (at_some b 3) as [c ->]; [lia|].
  rewrite slice_from_in, slice_range_in by lia. walk.
Qed.
#[export] Hint Resolve keeps_read_verbatim_string total_read_verbatim_string sim_read_verbatim_string : reader.

(** ** Aggregates *)

(** What is reserved comes out of the budget. *)
Lemma with_budget_ok n size r :
  wf r → 0 <= n →
  ∃ cap, 0 <= cap * Z.of_N size <= prealloc_budget r ∧
         with_budget n size r = Some (Ok tt, set_prealloc_budget (prealloc_budget r - cap * Z.of_N size) r).
Proof.
  intros [_ [Hb Hb'] _ _] Hn. set (cap := Z.min n (prealloc_budget r / Z.max (Z.of_N size) 1)).
  assert (0 <= prealloc_budget r / Z.max (Z.of_N size) 1) by (apply Z.div_pos; lia).
  pose proof (Z.mul_div_le (prealloc_budget r) (Z.max (Z.of_N size) 1) ltac:(lia)).
  assert (0 <= cap * Z.of_N size <= prealloc_budget r) by nia.
  exists cap. split; [done|]. unfold with_budget, take_prealloc_budget, bind. fold cap.
  rewrite (proj2 (Z.ltb_ge _ _)) by lia. unfold with_capacity.
  rewrite (proj2 (Z.leb_le 0 cap)), (proj2 (Z.leb_le _ isize_MAX)) by lia. done.
Qed.

Lemma wf_set_budget r n : wf r → 0 <= n <= isize_MAX → wf (set_prealloc_budget n r).
Proof. intros [] ?. by split. Qed.

Lemma keeps_with_budget n size : 0 <= n → keeps (with_budget n size).
Proof.
  intros Hn r res r' Hr. destruct (with_budget_ok n size r Hr Hn) as (cap & Hc & ->). intros [= <- <-].
  pose proof Hr as [_ [??] _ _]. split; fields; [done|lia|lia|lia|]. apply wf_set_budget; [done|lia].
Qed.

Lemma total_with_budget k n size : 0 <= n → total k (with_budget n size).
Proof. intros Hn r Hr _. destruct (with_budget_ok n size r Hr Hn) as (cap & Hc & ->). eauto. Qed.

Lemma sim_with_budget n size : 0 <= n → sim (with_budget n size) (with_budget n size).
Proof.
  intros Hn x r1 r2 res r1' He. pose proof He as [Hb Hp Hs Hw1 Hw2].
  destruct (with_budget_ok n size r1 Hw1 Hn) as (c1 & Hc1 & ->). intros [= <- <-] _.
  destruct (with_budget_ok n size r2 Hw2 Hn) as (c2 & Hc2 & ->). eexists. split; [done|].
  pose proof Hw1 as [_ [??] _ _]. pose proof Hw2 as [_ [??] _ _].
  split; fields; try done; apply wf_set_budget; done || lia.
Qed.

Lemma keeps_read_times {A} fuel (body : reader A) i n : keeps body → keeps (read_times fuel body i n).
Proof. intros Hb. revert i. induction fuel; intros i; cbn [read_times]; walk. Qed.

Lemma total_read_times {A} fuel (body : reader A) i n :
  keeps body → eats body → total (Z.of_nat fuel) body → total (Z.of_nat fuel) (read_times fuel body i n).
Proof.
  intros Hk He. revert i. induction fuel as [|fuel IH]; intros i Hb.
  { intros r [Hp]. unfold left_. lia. }
  cbn [read_times]. destruct (i <? n); [|auto with reader].
  rewrite Nat2Z.inj_succ in *. apply total_bind_eats; try done. intros v.
  apply total_bind; [by apply keeps_read_times| |auto with reader].
  apply IH. intros r Hr Hl. apply Hb; [done|lia].
Qed.

Lemma sim_read_times {A} f1 f2 (b1 b2 : reader A) i n :
  (f1 <= f2)%nat → sim b1 b2 → sim (read_times f1 b1 i n) (read_times f2 b2 i n).
Proof.
  intros Hf Hb. revert f2 i Hf. induction f1 as [|f1 IH]; intros f2 i Hf; cbn [read_times]; [auto with reader|].
  destruct f2 as [|f2]; [lia|]. cbn [read_times]. destruct (i <? n); [|auto with reader].
  apply sim_bind; [done|]. intros v. apply sim_bind; [apply IH; lia|auto with reader].
Qed.

Lemma usize_some n : 0 <= n → usize_try_from n = Some n.
Proof. intros. unfold usize_try_from. by rewrite (proj2 (Z.leb_le _ _)). Qed.

Lemma bind_lift {A B} (a : A) (k : A → reader B) : bind (lift (Some a)) k = k a.
Proof. done. Qed.

#[export] Hint Resolve keeps_read_times : reader.
#[export] Hint Extern 1 (keeps (with_budget _ _)) => apply keeps_with_budget; lia : reader.
#[export] Hint Extern 1 (total _ (with_budget _ _)) => apply total_with_budget; lia : reader.
#[export] Hint Extern 1 (sim (with_budget _ _) _) => apply sim_with_budget; lia : reader.
#[export] Hint Extern 1 (total _ (read_payload _ _)) => apply total_read_payload; lia : reader.

Section reader.
Context `{F : Float64} `{L : Layout}.

(** Take apart a reader whose lengths have been tested. *)
Ltac walk_lengths :=
  repeat first
    [ progress intros
    | rewrite usize_some by lia; rewrite !bind_lift; cbv beta
    | solve [auto with reader]
    | apply keeps_bind | apply total_bind | apply sim_bind
    | match goal with
      | |- context [if ?a <? ?b then _ else _] => destruct (Z.ltb_spec a b)
      | |- context [if ?a <=? ?b then _ else _] => destruct (Z.leb_spec a b)
      | |- context [if negb ((0 <=? ?a) && (?a <=? ?b)) then _ else _] =>
          destruct (Z.leb_spec 0 a), (Z.leb_spec a b); cbn [negb andb]
      end
    | case_match ].

Lemma keeps_read_value fuel depth : keeps (read_value_with_depth fuel depth).
Proof.
  revert depth. induction fuel as [|fuel IH]; intros depth; cbn [read_value_with_depth]; [auto with reader|].
  specialize (IH (depth + 1)). walk_lengths.
Qed.

Lemma eats_read_value fuel depth : eats (read_value_with_depth fuel depth).
Proof.
  destruct fuel as [|fuel]; cbn [read_value_with_depth]; [done|].
  pose proof (keeps_read_value fuel (depth + 1)). apply eats_bind; [auto with reader..|]. walk_lengths.
Qed.

Lemma total_read_value fuel depth : total (Z.of_nat fuel) (read_value_with_depth fuel depth).
Proof.
  revert depth. induction fuel as [|fuel IH]; intros depth.
  { intros r [Hp]. unfold left_. lia. }
  specialize (IH (depth + 1)). pose proof (keeps_read_value fuel (depth + 1)). pose proof (eats_read_value fuel (depth + 1)).
  rewrite Nat2Z.inj_succ. cbn [read_value_with_depth]. apply total_bind_eats; [auto with reader..|]. intros c.
  set (child := read_value_with_depth fuel (depth + 1)) in *.
  assert (keeps (let! key := child in let! value := child in ret (RESPValue.mkMapEntry key value))) by walk_lengths.
  assert (eats (let! key := child in let! value := child in ret (RESPValue.mkMapEntry key value)))
    by (apply eats_bind; [done..|]; walk_lengths).
  pose proof (total_read_times fuel child). 
  pose proof (total_read_times fuel (let! key := child in let! value := child in ret (RESPValue.mkMapEntry key value))).
  walk_lengths.
Qed.

Lemma sim_read_value f1 f2 depth :
  (f1 <= f2)%nat → sim (read_value_with_depth f1 depth) (read_value_with_depth f2 depth).
Proof.
  revert f2 depth. induction f1 as [|f1 IH]; intros f2 depth Hf; cbn [read_value_with_depth]; [auto with reader|].
  destruct f2 as [|f2]; [lia|]. cbn [read_value_with_depth].
  specialize (IH f2 (depth + 1) ltac:(lia)).
  set (child1 := read_value_with_depth f1 (depth + 1)) in *. set (child2 := read_value_with_depth f2 (depth + 1)) in *.
  assert (sim (let! key := child1 in let! value := child1 in ret (RESPValue.mkMapEntry key value))
              (let! key := child2 in let! value := child2 in ret (RESPValue.mkMapEntry key value))) by walk_lengths.
  pose proof (λ i n, sim_read_times f1 f2 child1 child2 i n ltac:(lia) IH).
  pose proof (λ i n, sim_read_times f1 f2 _ _ i n ltac:(lia) H).
  walk_lengths.
Qed.

(** ** [read_value] *)

Lemma wf_start r : wf r → wf (set_prealloc_budget (len (buffer r) - pos r) r).
Proof. intros Hr. pose proof Hr as [Hp _ _ Hl]. apply wf_set_budget; [done|lia]. Qed.

Lemma read_value_eq r :
  wf r →
  read_value r = read_value_with_depth (S (S (length (buffer r)))) 0 (set_prealloc_budget (len (buffer r) - pos r) r).
Proof. intros [Hp]. unfold read_value. by rewrite (proj2 (Z.ltb_ge _ _)) by lia. Qed.

Lemma read_value_later r res r' : wf r → read_value r = Some (res, r') →
  later (set_prealloc_budget (len (buffer r) - pos r) r) r'.
Proof. intros Hr. rewrite read_value_eq by done. apply keeps_read_value. by apply wf_start. Qed.

Lemma read_value_moves r v r' : wf r → read_value r = Some (Ok v, r') → pos r < pos r'.
Proof. intros Hr. rewrite read_value_eq by done. intros H%eats_read_value; [done|by apply wf_start]. Qed.

Lemma read_value_returns r : wf r → ∃ res r', read_value r = Some (res, r').
Proof.
  intros Hr. rewrite read_value_eq by done. eapply total_read_value; [by apply wf_start|].
  destruct Hr as [Hp]. unfold left_, len in *. fields. lia.
Qed.

(** What was read is read again when bytes follow. *)
Lemma read_value_sim : sim read_value read_value.
Proof.
  intros x r1 r2 res r1' He. pose proof He as [Hb Hp Hs Hw1 Hw2]. rewrite !read_value_eq by done. intros H Hx.
  eapply (sim_read_value _ _ 0); [| |exact H|exact Hx].
  - rewrite Hb, length_app. lia.
  - split; fields; done || by apply wf_start.
Qed.

Lemma wf_init b : len b <= isize_MAX → wf (init b).
Proof. intros Hb. pose proof (len_nonneg b). split; unfold init; fields; lia. Qed.

Lemma ext_init b x : len (b ++ x) <= isize_MAX → ext x (init b) (init (b ++ x)).
Proof.
  intros Hb. pose proof Hb as Hb'. rewrite len_app in Hb'. pose proof (len_nonneg x). split; try done; apply wf_init; lia.
Qed.

(** C21. Reading a reply always returns, whatever the bytes: no index, slice or
    subtraction is out of range, the recursion and the loops end, and the reader
    stays within its buffer. A value takes at least a byte. What is reserved for
    aggregates, over all levels of nesting together, comes out of a budget of the
    bytes not yet read and never exceeds it. *)
Theorem reply_reader_returns r :
  wf r →
  ∃ res r', read_value r = Some (res, r') ∧ buffer r' = buffer r ∧
    pos r <= pos r' <= len (buffer r) ∧
    (∀ v, res = Ok v → pos r < pos r') ∧
    0 <= prealloc_budget r' <= len (buffer r) - pos r.
Proof.
  intros Hr. destruct (read_value_returns r Hr) as (res & r' & E). exists res, r'.
  pose proof (read_value_later _ _ _ Hr E) as [Hb Hp Hl _ [Hp' Hl' _ _]]. fields. rewrite Hb in *.
  split; [done|]. split; [done|]. split; [lia|]. split; [|lia]. intros v ->. by eapply read_value_moves.
Qed.
End reader.

(** Nested arrays that announce 2^62 elements each. *)
Lemma reply_reader_returns_witness :
  let F := {| f64 := unit; INFINITY := tt; NEG_INFINITY := tt; NAN := tt; WTF__parseDouble := λ _, (tt, 0) |} in
  let L := {| size_of_RESPValue := 40; size_of_MapEntry := 80 |} in
  let r := init (bs "*4611686018427387904" ++ [13; 10] ++ bs "*4611686018427387904" ++ [13; 10]) in
  wf r ∧ ∃ res r', read_value r = Some (res, r') ∧ buffer r' = buffer r ∧
    pos r <= pos r' <= len (buffer r) ∧
    (∀ v, res = Ok v → pos r < pos r') ∧
    0 <= prealloc_budget r' <= len (buffer r) - pos r.
Proof.
  intros F L r. assert (wf r) as Hr by (split; vm_compute; repeat split; discriminate).
  split; [exact Hr|]. exact (reply_reader_returns r Hr).
Defined.
