(* ===== verification/ValkeyScannerFacts.v ===== *)
(** * The scanner: it finds the ends the reader finds, also in pieces

    The scanner keeps a stack of counts where the reader recurses. [moves] and
    [stuck] say what a run of the scanner does with the elements of an aggregate,
    [tracks] and [follows] that it does what the reader does on the same bytes. *)

From S2P Require Import Prelude BunStrings ValkeyProtocol ValkeyReaderFacts.

#[local] Open Scope Z_scope.
#[local] Open Scope reader_scope.

(** ** One element *)

Lemma scan_payload_eq invalid n r :
  wf r → 0 <= n →
  scan_payload invalid n r =
    if left_ r <? n + 2 then Some (Err RedisError.InvalidResponse, r)
    else if bool_decide (at_ (buffer r) (pos r + n) = Some 13) && bool_decide (at_ (buffer r) (pos r + n + 1) = Some 10)
    then Some (Ok None, set_pos (pos r + (n + 2)) r)
    else Some (Err invalid, r).
Proof.
  intros [Hp] Hn. unfold scan_payload. rewrite usize_some by done. unfold bind, lift, gets.
  rewrite usize_some by lia. fold (left_ r). destruct (Z.ltb_spec (left_ r) (n + 2)) as [|Hl]; [done|].
  unfold left_ in Hl. destruct (at_some (buffer r) (pos r + n)) as [c0 ->]; [lia|].
  destruct (at_some (buffer r) (pos r + n + 1)) as [c1 ->]; [lia|].
  destruct (Z.eqb_spec c0 13) as [->|]; [|by rewrite bool_decide_eq_false_2 by congruence].
  destruct (Z.eqb_spec c1 10) as [->|]; [done|]. by rewrite (bool_decide_eq_false_2 (Some c1 = _)) by congruence.
Qed.

Lemma keeps_scan_payload invalid n : 0 <= n → keeps (scan_payload invalid n).
Proof.
  intros Hn r res r' Hr. rewrite scan_payload_eq by done. pose proof Hr as [Hp].
  destruct (Z.ltb_spec (left_ r) (n + 2)) as [|Hl]; [intros [= <- <-]; by apply later_refl|].
  unfold left_ in Hl. case_match; intros [= <- <-]; [|by apply later_refl].
  split; fields; [done|lia|lia|lia|]. apply wf_set_pos; [done|lia].
Qed.

Lemma total_scan_payload k invalid n : 0 <= n → total k (scan_payload invalid n).
Proof. intros Hn r Hr _. rewrite scan_payload_eq by done. repeat case_match; eauto. Qed.

Lemma sim_scan_payload invalid n : 0 <= n → sim (scan_payload invalid n) (scan_payload invalid n).
Proof.
  intros Hn x r1 r2 res r1' He. pose proof He as [Hb Hp _ Hw1 Hw2]. pose proof (len_nonneg x).
  rewrite !scan_payload_eq by done. unfold left_. rewrite Hp, Hb, len_app. pose proof Hw1 as [Hp1].
  destruct (Z.ltb_spec (len (buffer r1) - pos r1) (n + 2)).
  - intros [= <- <-] [->|]; [|done]. change (len []) with 0. rewrite (proj2 (Z.ltb_lt _ _)) by lia. eauto.
  - rewrite (proj2 (Z.ltb_ge _ _)) by lia. rewrite !at_app by lia.
    destruct (_ && _); intros [= <- <-] _; eexists; (split; [done|]); [|done]. by apply ext_set_pos; [|lia].
Qed.

Lemma u64_some n : 0 <= n → u64_try_from n = Some n.
Proof. intros. unfold u64_try_from. by rewrite (proj2 (Z.leb_le _ _)). Qed.

#[export] Hint Extern 1 (keeps (scan_payload _ _)) => apply keeps_scan_payload; lia : reader.
#[export] Hint Extern 1 (total _ (scan_payload _ _)) => apply total_scan_payload; lia : reader.
#[export] Hint Extern 1 (sim (scan_payload _ _) _) => apply sim_scan_payload; lia : reader.

(** Take apart a reader whose lengths have been tested. *)
Ltac walk_lengths :=
  repeat first
    [ progress intros
    | rewrite usize_some by lia; rewrite !bind_lift; cbv beta
    | rewrite u64_some by lia; rewrite !bind_lift; cbv beta
    | solve [auto with reader]
    | apply keeps_bind | apply total_bind | apply sim_bind
    | match goal with
      | |- context [if ?a <? ?b then _ else _] => destruct (Z.ltb_spec a b)
      | |- context [if ?a <=? ?b then _ else _] => destruct (Z.leb_spec a b)
      | |- context [if negb ((0 <=? ?a) && (?a <=? ?b)) then _ else _] =>
          destruct (Z.leb_spec 0 a), (Z.leb_spec a b); cbn [negb andb]
      end
    | case_match ].

Lemma keeps_scan_one d : keeps (scan_one d).
Proof. unfold scan_one. walk_lengths. Qed.
Lemma total_scan_one k d : total k (scan_one d).
Proof. unfold scan_one. walk_lengths. Qed.
Lemma sim_scan_one d : sim (scan_one d) (scan_one d).
Proof. unfold scan_one. walk_lengths. Qed.
Lemma eats_scan_one d : eats (scan_one d).
Proof. unfold scan_one. apply eats_bind; [auto with reader..|]. walk_lengths. Qed.

(** ** The loop *)

(** The number of values an element still waits for. *)
Definition count (children : option Z) : Z := from_option id 0 children.

(** The value that was being scanned is finished. *)
Definition finish (n : nat) (b : bytes) (p : Z) (s : list Z) : option (Result ScanResult * ReplyScanner) :=
  match unwind s with
  | None => None
  | Some [] => Some (Ok Complete, mkScanner p [] 0)
  | Some s => scan_loop n b (mkScanner p s 0)
  end.

(** The innermost value waits for [rem] more. *)
Definition resume (n : nat) (b : bytes) (p rem : Z) (s : list Z) : option (Result ScanResult * ReplyScanner) :=
  if 0 <? rem then scan_loop n b (mkScanner p (rem :: s) 0) else finish n b p s.

Lemma scan_loop_eq n b s :
  scan_loop (S n) b s =
    match scan_one (Z.of_nat (length (stack s))) (mkReader b (sc_pos s) 0 (sc_crlf_skip s)) with
    | None => None
    | Some (Err RedisError.InvalidResponse, r) =>
        let need_more skip := Some (Ok NeedMoreData, mkScanner (sc_pos s) (stack s) skip) in
        if pos r =? sc_pos s + 1 then
          if len b <? pos r then None else need_more (Z.max 0 (len b - pos r - 1))
        else need_more 0
    | Some (Err e, _) => Some (Err e, s)
    | Some (Ok children, r) => resume n b (pos r) (count children) (stack s)
    end.
Proof.
  cbn [scan_loop]. by destruct (scan_one _ _) as [[[[c|]|[]] r]|].
Qed.

(** More fuel does not change an answer. *)
Lemma scanner_loop_fuel n m b s y : scan_loop n b s = Some y → (n <= m)%nat → scan_loop m b s = Some y.
Proof.
  revert m s. induction n as [|n IH]; intros m s; [done|]. destruct m as [|m]; [lia|]. intros H Hm.
  assert (∀ p rem st, resume n b p rem st = Some y → resume m b p rem st = Some y) as Hr.
  { intros p rem st. unfold resume, finish. destruct (0 <? rem); [intros Hy; apply IH; [done|lia]|].
    destruct (unwind st) as [[|]|]; [done| |done]. intros Hy. apply IH; [done|lia]. }
  rewrite scan_loop_eq in *. destruct (scan_one _ _) as [[[c|e] r]|]; [by apply Hr| |done]. by destruct e.
Qed.

Lemma resume_fuel n m b p rem s y : resume n b p rem s = Some y → (n <= m)%nat → resume m b p rem s = Some y.
Proof.
  unfold resume, finish. destruct (0 <? rem); [apply scanner_loop_fuel|].
  destruct (unwind s) as [[|]|]; [done|apply scanner_loop_fuel|done].
Qed.

(** A state the scanner can be in: within the buffer, and every aggregate on the
    stack waits for something. *)
Record scanner_ok (b : bytes) (s : ReplyScanner) : Prop := {
  ok_len : len b <= isize_MAX;
  ok_pos : 0 <= sc_pos s <= len b;
  ok_stack : Forall (λ n, 0 < n) (stack s);
  ok_skip : 0 <= sc_crlf_skip s }.

Lemma scanner_wf b s : scanner_ok b s → wf (mkReader b (sc_pos s) 0 (sc_crlf_skip s)).
Proof. intros []. split; fields; unfold isize_MAX in *; lia. Qed.

Lemma unwind_ok s : Forall (λ n, 0 < n) s → ∃ s', unwind s = Some s' ∧ Forall (λ n, 0 < n) s'.
Proof.
  induction 1 as [|n s Hn Hs IH]; cbn [unwind]; [eauto|]. rewrite (proj2 (Z.leb_gt _ _)) by lia.
  destruct (Z.ltb_spec 0 (n - 1)); [|done]. eexists. split; [done|]. by constructor.
Qed.

(** What can be said of the end of a run. *)
Definition scanned (b : bytes) (o : option (Result ScanResult * ReplyScanner)) : Prop :=
  ∃ res s, o = Some (res, s) ∧ scanner_ok b s ∧ res ≠ Err RedisError.InvalidResponse ∧ (res = Ok Complete → stack s = []).

Lemma scan_loop_total n b s :
  scanner_ok b s → len b - sc_pos s < Z.of_nat n → scanned b (scan_loop n b s).
Proof.
  revert s. induction n as [|n IH]; intros s Hs Hn; [destruct Hs; lia|].
  pose proof (scanner_wf _ _ Hs) as Hw. set (r0 := mkReader b _ _ _) in Hw.
  destruct (total_scan_one (left_ r0 + 1) (Z.of_nat (length (stack s))) r0 Hw ltac:(lia)) as (res & r & E).
  pose proof (keeps_scan_one _ _ _ _ Hw E) as [Hb Hp _ _ [Hwp _ _ _]]. rewrite Hb in Hwp. unfold r0 in Hp, Hwp. fields.
  destruct Hs as [Hl Hp0 Hst Hsk].
  rewrite scan_loop_eq. fold r0. rewrite E. destruct res as [c|e].
  - pose proof (eats_scan_one _ _ _ _ Hw E) as Hlt. unfold r0 in Hlt. fields.
    unfold resume, finish. destruct (Z.ltb_spec 0 (count c)).
    { apply IH; [split; cbn; [done|lia|by constructor|lia]|cbn; lia]. }
    destruct (unwind_ok (stack s) Hst) as (st & -> & Hst'). destruct st as [|k st].
    { eexists _, _. split; [done|]. split; [split; cbn; done || lia|done]. }
    apply IH; [split; cbn; [done|lia|done|lia]|cbn; lia].
  - assert (∀ skip, 0 <= skip → scanned b (Some (Ok NeedMoreData, mkScanner (sc_pos s) (stack s) skip))) as Hnm.
    { intros skip Hskip. eexists _, _. split; [done|]. by split. }
    assert (e ≠ RedisError.InvalidResponse → scanned b (Some (Err e, s))) as He.
    { intros He. eexists _, _. split; [done|]. split; [by split|]. split; congruence. }
    destruct e; try (by apply He). cbv zeta. destruct (_ =? _); [|by apply Hnm].
    rewrite (proj2 (Z.ltb_ge _ _)) by lia. apply Hnm. lia.
Qed.

(** ** The reader and the scanner on the same bytes *)

(** The errors that the scanner must not hide from the reader: it ran out of bytes,
    a line is too long, the nesting too deep. *)
Definition fatal (e : RedisError.t) : bool :=
  match e with
  | RedisError.InvalidResponse | RedisError.LineTooLong | RedisError.NestingDepthExceeded => true
  | _ => false
  end.

Section follow.
Context (b : bytes) (d : Z).

(** From [p] the scanner passes [c] values and gets to [p']. *)
Definition moves (c p p' : Z) : Prop :=
  ∀ rem s, Z.of_nat (length s) = d → c <= rem →
    ∃ k, ∀ n, resume (k + n) b p rem s = resume n b p' (rem - c) s.

(** From [p] it does not get past [c] values. *)
Definition stuck (c p : Z) : Prop :=
  ∀ rem s n st, Z.of_nat (length s) = d → c <= rem → resume n b p rem s ≠ Some (Ok Complete, st).

Lemma moves_0 p : moves 0 p p.
Proof. intros rem s _ _. exists 0%nat. intros n. by rewrite Z.sub_0_r. Qed.

Lemma moves_trans c1 c2 p1 p2 p3 : 0 <= c2 → moves c1 p1 p2 → moves c2 p2 p3 → moves (c1 + c2) p1 p3.
Proof.
  intros Hc H1 H2 rem s Hs Hr. destruct (H1 rem s Hs ltac:(lia)) as [k1 E1].
  destruct (H2 (rem - c1) s Hs ltac:(lia)) as [k2 E2]. exists (k1 + k2)%nat. intros n.
  rewrite <- Nat.add_assoc, E1, E2. f_equal. lia.
Qed.

Lemma moves_stuck c1 c2 p1 p2 : 0 <= c2 → moves c1 p1 p2 → stuck c2 p2 → stuck (c1 + c2) p1.
Proof.
  intros Hc H1 H2 rem s n st Hs Hr Hy. destruct (H1 rem s Hs ltac:(lia)) as [k E].
  apply (H2 (rem - c1) s n st Hs ltac:(lia)). rewrite <- E. eapply resume_fuel; [done|lia].
Qed.

Lemma stuck_more c1 c2 p : stuck c1 p → c1 <= c2 → stuck c2 p.
Proof. intros H Hc rem s n st Hs Hr. apply H; [done|lia]. Qed.

Definition here (r : ValkeyReader) : Prop := wf r ∧ buffer r = b ∧ crlf_skip r = 0.

Lemma here_keeps {A} (m : reader A) r res r' : keeps m → here r → m r = Some (res, r') → here r'.
Proof.
  intros Hm (Hw & Hb & Hs) E. apply Hm in E as [? _ _ Hl Hw']; [|done]. split; [done|].
  split; [congruence|]. destruct Hw'. lia.
Qed.

(** Reading with [m] passes [c] values. *)
Definition tracks {A} (c : Z) (m : reader A) : Prop :=
  ∀ r res r', here r → m r = Some (res, r') →
    match res with
    | Ok _ => moves c (pos r) (pos r')
    | Err e => fatal e → stuck c (pos r)
    end.

Lemma tracks_ret {A} (a : A) : tracks 0 (ret a).
Proof. intros r res r' _ [= <- <-]. apply moves_0. Qed.
Lemma tracks_fail {A} c e : ¬ fatal e → tracks c (fail (A:=A) e).
Proof. by intros He r res r' _ [= <- <-]. Qed.

Lemma tracks_bind {A B} c1 c2 (m : reader A) (k : A → reader B) :
  0 <= c2 → keeps m → tracks c1 m → (∀ a, tracks c2 (k a)) → tracks (c1 + c2) (bind m k).
Proof.
  intros Hc Hm H1 H2 r res r' Hr. unfold bind. destruct (m r) as [[[a|e] r1]|] eqn:E; [| |done].
  - pose proof (H1 _ _ _ Hr E) as Hmv. cbn in Hmv. intros E2.
    pose proof (H2 a r1 res r' (here_keeps m _ _ _ Hm Hr E) E2) as H. destruct res; [by eapply moves_trans|].
    intros Hf. eapply moves_stuck; eauto.
  - intros [= <- <-] Hf. apply (H1 _ _ _ Hr E) in Hf. eapply stuck_more; [done|lia].
Qed.

Lemma tracks_with_budget n size : 0 <= n → tracks 0 (with_budget n size).
Proof.
  intros Hn r res r' (Hw & _ & _). destruct (with_budget_ok n size r Hw Hn) as (cap & _ & ->).
  intros [= <- <-]. apply moves_0.
Qed.

Lemma tracks_read_times {A} c fuel (body : reader A) i n :
  0 <= c → keeps body → tracks c body → i <= n → tracks (c * (n - i)) (read_times fuel body i n).
Proof.
  intros Hc Hk Hb. revert i. induction fuel as [|fuel IH]; intros i Hi; cbn [read_times]; [by intros r res r'|].
  destruct (Z.ltb_spec i n).
  - replace (c * (n - i)) with (c + (c * (n - (i + 1)) + 0)) by lia. apply tracks_bind; try done; [nia|]. intros v.
    apply tracks_bind; [lia|by apply keeps_read_times|apply IH; lia|]. intros vs. apply tracks_ret.
  - replace (c * (n - i)) with 0 by nia. apply tracks_ret.
Qed.

(** The reader's [m] and the scanner's [s] agree on an element. *)
Definition follows {A} (m : reader A) (s : reader (option Z)) : Prop :=
  ∀ r r0 res r', here r → ext [] r r0 → m r = Some (res, r') →
    ∃ sres sr, s r0 = Some (sres, sr) ∧
      match sres, res with
      | Ok c, Ok _ => moves (count c) (pos sr) (pos r')
      | Ok c, Err e => fatal e → stuck (count c) (pos sr)
      | Err _, Ok _ => False
      | Err _, Err _ => True
      end.

Lemma follows_bind {A B} (m : reader A) (k : A → reader B) (s : A → reader (option Z)) :
  keeps m → sim m m → (∀ a r r', m r = Some (Ok a, r') → follows (k a) (s a)) → follows (bind m k) (bind m s).
Proof.
  intros Hk Hm H r r0 res r' Hr He. unfold bind. destruct (m r) as [[res1 r1]|] eqn:E; [|done].
  destruct (Hm [] r r0 res1 r1 He E) as (r1' & E1 & He1); [by left|]. rewrite E1. destruct res1 as [a|e].
  - eapply H; [done|by eapply here_keeps|done].
  - intros [= <- <-]. by eexists _, _.
Qed.

Lemma follows_assoc {A B C} (m : reader A) (f : A → reader B) (k : B → reader C) s :
  follows (let! a := m in let! b := f a in k b) s → follows (bind (bind m f) k) s.
Proof.
  intros H r r0 res r' Hr He E. apply (H r r0 res r' Hr He). revert E. unfold bind.
  by destruct (m r) as [[[a|e] r1]|].
Qed.

Lemma follows_tracks {A} c (m : reader A) : tracks (count c) m → follows m (ret c).
Proof.
  intros H r r0 res r' Hr [_ Hp _ _ _] E. eexists _, _. split; [done|]. rewrite Hp. by apply (H r res r').
Qed.

Lemma follows_fail {A} e1 e2 : follows (fail (A:=A) e1) (fail e2).
Proof. intros r r0 res r' Hr He [= <- <-]. by eexists _, _. Qed.

(** The blob is there for the reader when it is there for the scanner. *)
Lemma follows_payload {A} invalid n (k : bytes → reader A) :
  0 <= n → (∀ a, tracks 0 (k a)) → ¬ fatal invalid → follows (bind (read_payload invalid n) k) (scan_payload invalid n).
Proof.
  intros Hn Hk Hinv r r0 res r' Hr He. pose proof He as [Hb Hp Hs Hw Hw0]. rewrite app_nil_r in Hb.
  rewrite scan_payload_eq by done. unfold bind. rewrite read_payload_eq by done. rewrite Hb, Hp in *.
  replace (left_ r0) with (left_ r) by (unfold left_; congruence).
  set (crlf := bool_decide _ && bool_decide _). pose proof Hw as [Hwp].
  destruct (Z.ltb_spec (len (buffer r)) (pos r + n)).
  { intros [= <- <-]. rewrite (proj2 (Z.ltb_lt _ _)) by (unfold left_; lia). by eexists _, _. }
  assert (wf (set_pos (pos r + n) r)) as Hw1 by (by apply wf_set_pos; [|lia]).
  rewrite read_until_crlf_spec by done. fields. destruct Hr as (_ & Hrb & Hr0). rewrite Hr0.
  set (rest := drop (Z.to_nat (pos r + n)) (buffer r)).
  assert (∀ j, 0 <= j → at_ rest j = at_ (buffer r) (pos r + n + j)) as Hat.
  { intros j Hj. unfold at_, rest. do 2 (rewrite (proj2 (Z.leb_le 0 _)) by lia). rewrite lookup_drop. f_equal. lia. }
  destruct (Z.ltb_spec (left_ r) (n + 2)) as [Hl|Hl].
  { destruct (find_crlf _ _ _ rest) as [i|] eqn:E.
    - exfalso. apply find_crlf_spec in E as (? & _ & _ & E). rewrite Hat in E by lia. apply at_range in E. unfold left_ in Hl. lia.
    - intros [= <- <-]. by eexists _, _. }
  unfold left_ in Hl. destruct crlf eqn:Ec.
  - apply andb_prop in Ec as [E1%bool_decide_eq_true E2%bool_decide_eq_true].
    assert (find_crlf (Z.min (0 + len rest) (MAX_LINE_LEN + 1)) 0 0 rest = Some 0) as ->.
    { rewrite <- (Z.add_0_r (pos r + n)), <- Hat in E1 by lia. rewrite <- Hat in E2 by lia.
      destruct rest as [|c0 [|c1 rest]]; [done..|]. injection E1 as ->. injection E2 as ->. cbn [find_crlf].
      by rewrite (proj2 (Z.leb_gt _ _)) by (unfold len, MAX_LINE_LEN, MAX_BULK_LEN; cbn [length]; lia). }
    cbn [take Z.to_nat]. intros E. eexists _, _. split; [done|]. cbn [count from_option]. fields.
    replace (pos r + (n + 2)) with (pos r + n + (0 + 2)) by lia.
    set (r1 := set_pos (pos r + n + (0 + 2)) _) in E. assert (here r1) as Hr1.
    { split; [|done]. split; unfold r1; fields; destruct Hw; lia. }
    pose proof (Hk _ r1 res r' Hr1 E) as Ht. by destruct res.
  - destruct (find_crlf _ _ _ rest) as [i|] eqn:E; [|intros [= <- <-]; by eexists _, _].
    destruct (Z.eq_dec i 0) as [->|].
    { exfalso. apply find_crlf_spec in E as (? & _ & E1 & E2). rewrite Hat in E1, E2 by lia.
      replace (pos r + n + (0 - 0)) with (pos r + n) in E1 by lia. rewrite Z.sub_0_r, Z.add_0_l in E2.
      unfold crlf in Ec. by rewrite E1, E2 in Ec. }
    destruct (take (Z.to_nat i) rest) as [|c t] eqn:Et; [|intros [= <- <-]; by eexists _, _].
    exfalso. apply find_crlf_spec in E as (? & _ & E & _). destruct rest; [by apply at_range in E; unfold len in E; cbn in E; lia|].
    destruct (Z.to_nat i) eqn:Ei; [lia|done].
Qed.
End follow.

(** A reader that reads nothing and reports no fatal error. *)
Definition quiet {A} (m : reader A) : Prop :=
  ∀ r res r', m r = Some (res, r') → r' = r ∧ ∀ e, res = Err e → ¬ fatal e.

Lemma quiet_tracks {A} b d (m : reader A) : quiet m → tracks b d 0 m.
Proof.
  intros Hm r res r' _ E. destruct (Hm _ _ _ E) as [-> He]. destruct res; [apply moves_0|].
  intros Hf. by destruct (He e eq_refl).
Qed.
Lemma quiet_ret {A} (a : A) : quiet (ret a).
Proof. by intros r res r' [= <- <-]. Qed.
Lemma quiet_fail {A} e : ¬ fatal e → quiet (fail (A:=A) e).
Proof. intros He r res r' [= <- <-]. split; [done|]. congruence. Qed.
Lemma quiet_lift {A} (o : option A) : quiet (lift o).
Proof. intros r res r'. unfold lift. destruct o; [|done]. by intros [= <- <-]. Qed.
Lemma quiet_bind {A B} (m : reader A) (k : A → reader B) : quiet m → (∀ a, quiet (k a)) → quiet (bind m k).
Proof.
  intros Hm Hk r res r'. unfold bind. destruct (m r) as [[[a|e] r1]|] eqn:E; [| |done];
    destruct (Hm _ _ _ E) as [-> He]; [apply Hk|]. intros [= <- <-]. split; [done|]. intros e' [= <-]. by apply He.
Qed.
#[export] Hint Resolve quiet_ret quiet_lift : reader.
#[export] Hint Extern 1 (quiet (fail _)) => by apply quiet_fail; intros [] : reader.

Ltac walk_quiet := repeat first [progress intros | solve [auto with reader] | apply quiet_bind | case_match].

Lemma finish_cons n b p rem s : 0 < rem → finish n b p (rem :: s) = resume n b p (rem - 1) s.
Proof.
  intros Hr. unfold resume, finish. cbn [unwind]. rewrite (proj2 (Z.leb_gt _ _)) by lia. by destruct (0 <? rem - 1).
Qed.

Section equivalence.
Context `{F : Float64} `{L : Layout}.

(** The scanner passes a value that is read, and stops before one that is not. *)
Definition value_tracked (b : bytes) (m : reader RESPValue.t) (d : Z) : Prop :=
  ∀ r res r' s, here b r → m r = Some (res, r') → Z.of_nat (length s) = d →
    match res with
    | Ok _ => ∃ k, ∀ n, scan_loop (k + n) b (mkScanner (pos r) s 0) = finish n b (pos r') s
    | Err e => fatal e → ∀ n st, scan_loop n b (mkScanner (pos r) s 0) ≠ Some (Ok Complete, st)
    end.

Lemma value_tracks b m d : 0 <= d → value_tracked b m (d + 1) → tracks b d 1 m.
Proof.
  intros Hd H r res r' Hr E. destruct res as [v|e].
  - intros rem s Hs Hrem. destruct (H r _ r' (rem :: s) Hr E) as [k Hk]; [cbn [length]; lia|]. exists k. intros n.
    rewrite <- finish_cons by lia. rewrite <- Hk. unfold resume. by rewrite (proj2 (Z.ltb_lt _ _)) by lia.
  - intros Hf rem s n st Hs Hrem. unfold resume. rewrite (proj2 (Z.ltb_lt _ _)) by lia.
    apply (H r _ r' (rem :: s) Hr E); [cbn [length]; lia|done].
Qed.

Lemma follows_value b d m : follows b d m (scan_one d) → value_tracked b m d.
Proof.
  intros H r res r' s Hr E Hs. pose proof Hr as (Hw & Hb & Hk). set (r0 := mkReader b (pos r) 0 0).
  assert (ext [] r r0) as He.
  { split; try done; [by rewrite app_nil_r|]. destruct Hw as [Hwp ? ? Hwl].
    split; unfold r0; fields; rewrite Hb in *; unfold isize_MAX in *; lia. }
  destruct (H r r0 res r' Hr He E) as (sres & sr & Es & Hm).
  assert (∀ n, scan_loop (S n) b (mkScanner (pos r) s 0) = _) as Hl by (intros n; apply scan_loop_eq).
  cbn [stack sc_pos sc_crlf_skip] in Hl. rewrite Hs in Hl. fold r0 in Hl. rewrite Es in Hl. destruct sres as [c|e'], res as [v|e].
  - destruct (Hm (count c) s Hs ltac:(lia)) as [k Hm']. exists (S k). intros n. cbn [Nat.add].
    rewrite Hl, Hm'. by rewrite Z.sub_diag.
  - intros Hf [|n] st; [done|]. rewrite Hl. by apply Hm.
  - done.
  - intros Hf [|n] st; [done|]. rewrite Hl. destruct e'; try done. repeat case_match; naive_solver.
Qed.

Lemma saturating_map n : 0 <= n < 2 ^ 63 → saturating_mul n 2 = 2 * n.
Proof. intros. unfold saturating_mul, U64_MAX. lia. Qed.
Lemma saturating_attribute n : 0 <= n < 2 ^ 63 → saturating_add (saturating_mul n 2) 1 = 2 * n + 1.
Proof. intros. unfold saturating_add, saturating_mul, U64_MAX. lia. Qed.

Lemma parse_int_range s v : parse_int_i64 s 10 = BunStrings.Ok v → v < 2 ^ 63.
Proof.
  unfold parse_int_i64, i64_try_from. intros E. repeat (case_match; try discriminate); injection E as <-; lia.
Qed.

Lemma follows_integer {A} b d (k : Z → reader A) (s : Z → reader (option Z)) :
  (∀ n, n < 2 ^ 63 → follows b d (k n) (s n)) → follows b d (bind read_integer k) (bind read_integer s).
Proof.
  intros H. apply follows_bind; [auto with reader..|]. intros n r r' (str & r1 & _ & E)%bind_ok. apply H.
  destruct (parse_int_i64 str 10) eqn:Ep; [|done]. injection E as <- _. by eapply parse_int_range.
Qed.

Lemma follows_line {A} b d (k : bytes → reader A) :
  (∀ s, quiet (k s)) → follows b d (bind read_until_crlf k) (read_until_crlf;; ret None).
Proof.
  intros H. apply follows_bind; [auto with reader..|]. intros s _ _ _. by apply follows_tracks, quiet_tracks.
Qed.

(** What reads nothing may follow. *)
Lemma follows_then {A B} b d (m : reader A) (k : A → reader B) s :
  follows b d m s → (∀ a, quiet (k a)) → follows b d (bind m k) s.
Proof.
  intros H Hk r r0 res r' Hr He. unfold bind. destruct (m r) as [[res1 r1]|] eqn:E; [|done].
  destruct (H r r0 res1 r1 Hr He E) as (sres & sr & Es & Hm). destruct res1 as [a|e].
  - intros [-> Hq]%Hk. exists sres, sr. split; [done|]. destruct sres, res; try done.
    intros Hf. by destruct (Hq e eq_refl).
  - intros [= <- <-]. eauto.
Qed.

(** The elements of an aggregate. *)
Lemma tracks_elements {A B} b d c fuel n size (body : reader A) (k : list A → reader B) c' :
  0 <= c → 0 <= c' → 0 <= n → keeps body → tracks b d c body → (∀ vs, tracks b d c' (k vs)) →
  tracks b d (c * n + c') (with_budget n size;; let! vs := read_times fuel body 0 n in k vs).
Proof.
  intros Hc Hc' Hn Hk Hb Hf. replace (c * n + c') with (0 + (c * (n - 0) + c')) by lia.
  apply tracks_bind; [nia|by apply keeps_with_budget|by apply tracks_with_budget|]. intros _.
  by apply tracks_bind; [done|apply keeps_read_times|apply tracks_read_times|].
Qed.

Lemma follows_blob {A} b d invalid n (k : bytes → reader A) :
  (∀ a, quiet (k a)) → ¬ fatal invalid →
  follows b d
    (if negb ((0 <=? n) && (n <=? MAX_BULK_LEN)) then fail invalid else bind (read_payload invalid n) k)
    (if n <? 0 then fail invalid else if MAX_BULK_LEN <? n then fail invalid else scan_payload invalid n).
Proof.
  intros Hk Hi. destruct (Z.leb_spec 0 n), (Z.ltb_spec n 0); try lia; cbn [negb andb]; [|apply follows_fail].
  destruct (Z.leb_spec n MAX_BULK_LEN), (Z.ltb_spec MAX_BULK_LEN n); try lia; cbn [negb]; [|apply follows_fail].
  apply follows_payload; try done. intros a. by apply quiet_tracks.
Qed.

(** A reader that is given the elements of an aggregate of [n]. *)
Lemma follows_children {A} b d n c (m : reader A) : tracks b d c m → c = n → follows b d m (ret (Some n)).
Proof. intros H ->. by apply follows_tracks. Qed.

(** A value whose type byte has been read. *)
Lemma follows_read_value b fuel d :
  0 <= d → tracks b d 1 (read_value_with_depth fuel (d + 1)) →
  follows b d (read_value_with_depth (S fuel) d) (scan_one d).
Proof.
  intros Hd Hc. cbn [read_value_with_depth]. unfold scan_one. apply follows_bind; [auto with reader..|]. intros c _ _ _.
  pose proof (keeps_read_value fuel (d + 1)) as Hk. set (child := read_value_with_depth fuel (d + 1)) in *.
  set (entry := bind child _). assert (keeps entry) as Hke by (unfold entry; walk_lengths).
  assert (tracks b d 2 entry) as He.
  { apply (tracks_bind b d 1 1); try done. intros key. apply (tracks_bind b d 1 0); try done. intros v. apply tracks_ret. }
  destruct (RESPType.from_byte c) as [ty|]; [|apply follows_fail].
  destruct ty; try (destruct (Z.leb_spec MAX_NESTING_DEPTH d); [apply follows_fail|]);
    try (by apply follows_line; intros; apply quiet_ret); try (apply follows_integer; intros n Hn).
  - apply follows_assoc, follows_line. walk_quiet.
  - rewrite bool_decide_eq_true_2 by done.
    destruct (Z.ltb_spec n 0); [apply follows_tracks, tracks_ret|]. destruct (Z.ltb_spec MAX_BULK_LEN n); [apply follows_fail|].
    apply follows_payload; try done; [intros; apply tracks_ret|by intros []].
  - destruct (Z.ltb_spec n 0); [apply follows_tracks, tracks_ret|]. rewrite usize_some, u64_some, !bind_lift by lia.
    eapply follows_children; [apply (tracks_elements b d 1 fuel n _ _ _ 0); try done; intros; apply tracks_ret|lia].
  - apply follows_bind; [auto with reader..|]. intros [|] _ _ _; [apply follows_tracks, tracks_ret|apply follows_fail].
  - apply follows_assoc, follows_line. walk_quiet.
  - apply follows_assoc, follows_line. walk_quiet.
  - rewrite bool_decide_eq_false_2 by done. apply follows_blob; [walk_quiet|by intros []].
  - apply follows_then; [|walk_quiet]. apply follows_integer. intros n Hn. rewrite bool_decide_eq_false_2 by done.
    apply follows_blob; [walk_quiet|by intros []].
  - destruct (Z.ltb_spec n 0); [apply follows_fail|]. rewrite usize_some, u64_some, !bind_lift, saturating_map by lia.
    eapply follows_children; [apply (tracks_elements b d 2 fuel n _ _ _ 0); try done; intros; apply tracks_ret|lia].
  - destruct (Z.ltb_spec n 0); [apply follows_fail|]. rewrite usize_some, u64_some, !bind_lift by lia.
    eapply follows_children; [apply (tracks_elements b d 1 fuel n _ _ _ 0); try done; intros; apply tracks_ret|lia].
  - destruct (Z.ltb_spec n 0); [apply follows_fail|]. rewrite usize_some, u64_some, !bind_lift, saturating_attribute by lia.
    eapply follows_children; [apply (tracks_elements b d 2 fuel n _ _ _ (1 + 0)); try done|lia]. intros vs.
    apply tracks_bind; try done. intros; apply tracks_ret.
  - destruct (Z.leb_spec n 0); [apply follows_fail|]. rewrite usize_some, u64_some, !bind_lift by lia.
    eapply follows_children; [apply (tracks_bind b d 1 (1 * (n - 1) + 0)); try done; [lia|]|lia].
    assert (∀ str, tracks b d (1 * (n - 1) + 0) (with_budget (n - 1) size_of_RESPValue;;
      let! data := read_times fuel child 0 (n - 1) in ret (RESPValue.Push (RESPValue.mkPush str data)))) as Hp.
    { intros str. apply tracks_elements; try done; [lia|]. intros. apply tracks_ret. }
    intros v. destruct v as [| | |[|]| | | | | | | | | |]; try apply Hp; apply tracks_fail; by intros [].
Qed.

Lemma read_value_tracked b fuel d : 0 <= d → value_tracked b (read_value_with_depth fuel d) d.
Proof.
  revert d. induction fuel as [|fuel IH]; intros d Hd; [by intros r res r' s|].
  apply follows_value, follows_read_value; [done|]. apply value_tracks; [done|]. apply IH. lia.
Qed.

Lemma reset_ok b : len b <= isize_MAX → scanner_ok b reset.
Proof. intros Hb. pose proof (len_nonneg b). split; cbn; done || lia. Qed.

Lemma scan_total b s : scanner_ok b s → scanned b (scan b s).
Proof. intros Hs. apply scan_loop_total; [done|]. destruct Hs. unfold len. lia. Qed.

Lemma scan_fuel n b s y : scanner_ok b s → scan_loop n b s = Some y → scan b s = Some y.
Proof.
  intros Hs Hy. destruct (scan_total b s Hs) as (res & s' & E & _). rewrite E. unfold scan in E.
  destruct (Nat.le_ge_cases n (S (length b))) as [Hn|Hn].
  - by rewrite (scanner_loop_fuel _ _ _ _ _ Hy Hn) in E.
  - by rewrite (scanner_loop_fuel _ _ _ _ _ E Hn) in Hy.
Qed.

(** The two readings of a buffer from its start. *)
Lemma scan_read_value b :
  len b <= isize_MAX →
  ∃ res r, read_value (init b) = Some (res, r) ∧
    match res with
    | Ok _ => scan b reset = Some (Ok Complete, mkScanner (pos r) [] 0)
    | Err e => fatal e → ∀ s, scan b reset ≠ Some (Ok Complete, s)
    end.
Proof.
  intros Hb. pose proof (wf_init b Hb) as Hw. destruct (read_value_returns _ Hw) as (res & r & E).
  exists res, r. split; [done|]. rewrite read_value_eq in E by done.
  pose proof (read_value_tracked b _ 0 ltac:(lia) _ res r [] ltac:(split; [by apply wf_start|done]) E eq_refl) as H.
  unfold init in H. fields. destruct res as [v|e].
  - destruct H as [k Hk]. eapply (scan_fuel (k + 0)); [by apply reset_ok|]. by rewrite Hk.
  - intros Hf s. by apply H.
Qed.

(** C10. The scanner and the reader agree on a buffer. When the reader gets a value,
    the scanner reports a complete reply that ends where the value ends. When the
    scanner reports a complete reply, the reader gets a value that ends there, or
    reports a protocol error: it does not run out of bytes, and the reply neither
    nests too deeply nor has a line that is too long. *)
Theorem scanner_agrees_with_reader b :
  len b <= isize_MAX →
  (∀ v r, read_value (init b) = Some (Ok v, r) → scan b reset = Some (Ok Complete, mkScanner (pos r) [] 0)) ∧
  (∀ s, scan b reset = Some (Ok Complete, s) →
     ∃ res r, read_value (init b) = Some (res, r) ∧
       match res with
       | Ok _ => s = mkScanner (pos r) [] 0
       | Err e => e ≠ RedisError.InvalidResponse ∧ e ≠ RedisError.LineTooLong ∧ e ≠ RedisError.NestingDepthExceeded
       end).
Proof.
  intros Hb. destruct (scan_read_value b Hb) as (res & r & E & H). split.
  - intros v r' E'. rewrite E in E'. by injection E' as -> ->.
  - intros s Hs. exists res, r. split; [done|]. destruct res as [v|e]; [rewrite H in Hs; by injection Hs|].
    split_and!; intros ->; by apply (H I s).
Qed.
End equivalence.

Lemma scanner_agrees_with_reader_witness :
  let F := {| f64 := unit; INFINITY := tt; NEG_INFINITY := tt; NAN := tt; WTF__parseDouble := λ _, (tt, 0) |} in
  let L := {| size_of_RESPValue := 40; size_of_MapEntry := 80 |} in
  let b := bs "%1" ++ [13; 10] ++ bs "+ok" ++ [13; 10] ++ bs "$2" ++ [13; 10; 13; 10; 13; 10] ++ bs ":7" in
  len b <= isize_MAX ∧ scan b reset = Some (Ok Complete, mkScanner 17 [] 0).
Proof.
  intros F L b. assert (len b <= isize_MAX) as Hb by (vm_compute; discriminate). split; [exact Hb|].
  apply (proj1 (scanner_agrees_with_reader b Hb)
    (RESPValue.Map [RESPValue.mkMapEntry (RESPValue.SimpleString (bs "ok")) (RESPValue.BulkString (Some [13; 10]))])
    (mkReader b 17 19 0)).
  vm_compute. reflexivity.
Defined.
