(* ===== verification/ValkeyResume.v ===== *)
(** * The scanner: scanning in pieces

    A scan that runs out of bytes leaves its offset, its stack and how far it
    looked for the end of the line. Resuming it on the same bytes with more behind
    them answers like a scan from the start. *)

From S2P Require Import Prelude BunStrings ValkeyProtocol ValkeyReaderFacts ValkeyScannerFacts.

#[local] Open Scope Z_scope.
#[local] Open Scope reader_scope.

(** A CRLF at [i]. *)
Definition crlf_at (b : bytes) (i : Z) : Prop := at_ b i = Some 13 ∧ at_ b (i + 1) = Some 10.

Lemma crlf_at_cons c b i : 0 <= i → crlf_at (c :: b) (i + 1) ↔ crlf_at b i.
Proof. intros Hi. unfold crlf_at. by rewrite !at_cons by lia. Qed.

Lemma crlf_at_app b x i : i + 1 < len b → crlf_at (b ++ x) i ↔ crlf_at b i.
Proof. intros Hi. unfold crlf_at. by rewrite !at_app by lia. Qed.

Lemma crlf_at_drop b p i : 0 <= p → 0 <= i → crlf_at (drop (Z.to_nat p) b) i ↔ crlf_at b (p + i).
Proof.
  intros Hp Hi. unfold crlf_at, at_. do 4 (rewrite (proj2 (Z.leb_le 0 _)) by lia). rewrite !lookup_drop.
  by replace (Z.to_nat p + Z.to_nat i)%nat with (Z.to_nat (p + i)) by lia;
     replace (Z.to_nat p + Z.to_nat (i + 1))%nat with (Z.to_nat (p + i + 1)) by lia.
Qed.

Lemma find_crlf_none limit s i b j :
  find_crlf limit s i b = None → 0 <= i → i <= j → s <= j < limit → ¬ crlf_at b (j - i).
Proof.
  revert i. induction b as [|c b IH]; intros i; cbn [find_crlf].
  { intros _ _ _ _ [H%at_range _]. unfold len in H. cbn in H. lia. }
  destruct (Z.leb_spec limit i); [lia|]. destruct (_ && _) eqn:E; [done|]. intros H0 Hi Hij Hs Hc.
  destruct (Z.eq_dec i j) as [->|].
  - rewrite Z.sub_diag in Hc. destruct Hc as [[= ->] H1]. rewrite Z.add_0_l in H1.
    destruct b as [|c b]; [done|]. injection H1 as ->. rewrite (proj2 (Z.leb_le _ _)) in E by lia. done.
  - apply (IH (i + 1) H0 ltac:(lia) ltac:(lia) Hs). replace (j - i) with (j - (i + 1) + 1) in Hc by lia.
    by apply crlf_at_cons in Hc; [|lia].
Qed.

Lemma find_crlf_skip limit s i b :
  0 <= i → (∀ j, i <= j < s → ¬ crlf_at b (j - i)) → find_crlf limit s i b = find_crlf limit 0 i b.
Proof.
  revert i. induction b as [|c b IH]; intros i Hi H; cbn [find_crlf]; [done|].
  rewrite IH; [|lia|].
  - destruct (limit <=? i); [done|]. rewrite (proj2 (Z.leb_le 0 i)) by lia. destruct (Z.leb_spec s i); [done|].
    cbn [andb]. destruct ((c =? 13) && _) eqn:E; [|done]. destruct (H i ltac:(lia)). rewrite Z.sub_diag.
    apply andb_prop in E as [->%Z.eqb_eq E]. destruct b as [|c' b]; [done|]. by apply Z.eqb_eq in E as ->.
  - intros j Hj Hc. apply (H j ltac:(lia)). replace (j - i) with (j - (i + 1) + 1) by lia. apply crlf_at_cons; [lia|done].
Qed.

(** The skip of a reader passes over no CRLF. *)
Definition skip_sound (r : ValkeyReader) : Prop :=
  ∀ j, 0 <= j < crlf_skip r → ¬ crlf_at (buffer r) (pos r + j).

Lemma read_until_crlf_skip r : wf r → skip_sound r → read_until_crlf r = read_until_crlf (set_crlf_skip 0 r).
Proof.
  intros Hw Hs. assert (wf (set_crlf_skip 0 r)) as Hw0 by (destruct Hw; by split).
  rewrite !read_until_crlf_spec by done. fields. rewrite (find_crlf_skip _ (crlf_skip r)); [done|lia|].
  intros j Hj. rewrite Z.sub_0_r. rewrite crlf_at_drop by (destruct Hw; lia). by apply Hs.
Qed.

Lemma read_until_crlf_short r r' j :
  wf r → skip_sound r → read_until_crlf r = Some (Err RedisError.InvalidResponse, r') → 0 <= j → ¬ crlf_at (buffer r) (pos r + j).
Proof.
  intros Hw Hs. rewrite read_until_crlf_skip by done.
  assert (wf (set_crlf_skip 0 r)) as Hw0 by (destruct Hw; by split). rewrite read_until_crlf_spec by done. fields.
  rewrite (len_drop _ Hw). destruct (find_crlf _ _ _ _) eqn:E; [done|].
  destruct (Z.ltb_spec (MAX_LINE_LEN + 1) (left_ r)); [done|]. intros _ Hj Hc.
  pose proof Hc as [_ Hr%at_range]. destruct Hw.
  eapply (find_crlf_none _ _ _ _ j); [done|lia..|unfold left_ in *; lia|].
  rewrite Z.sub_0_r. by apply crlf_at_drop; [lia..|].
Qed.

(** ** Methods that look at the skip only to find the end of a line *)

(** [m] answers the same without the skip; and when it runs out of bytes without
    having moved, there is no CRLF ahead. *)
Record skips {A} (m : reader A) : Prop := {
  skips_same r : wf r → skip_sound r →
    ∃ res r1 r2, m r = Some (res, r1) ∧ m (set_crlf_skip 0 r) = Some (res, r2) ∧ pos r1 = pos r2;
  skips_short r r' j : wf r → skip_sound r → m r = Some (Err RedisError.InvalidResponse, r') → pos r' = pos r →
    0 <= j → ¬ crlf_at (buffer r) (pos r + j) }.

Lemma skips_fail {A} e : e ≠ RedisError.InvalidResponse → skips (fail (A:=A) e).
Proof.
  intros He. split.
  - intros r _ _. by eexists _, _, _.
  - intros r r' j _ _ [= ?]. done.
Qed.

Lemma skips_line {A} (k : bytes → reader A) :
  (∀ s, keeps (k s)) → (∀ s n, total n (k s)) → skips (bind read_until_crlf k).
Proof.
  intros Hk Ht. split.
  - intros r Hw Hs. unfold bind. rewrite <- read_until_crlf_skip by done.
    destruct (total_read_until_crlf (left_ r + 1) r Hw ltac:(lia)) as ([s|e] & r1 & E); rewrite E; [|by eexists _, _, _].
    pose proof (keeps_read_until_crlf _ _ _ Hw E) as [].
    destruct (Ht s (left_ r1 + 1) r1 later_wf ltac:(lia)) as (res & r2 & ->). by eexists _, _, _.
  - intros r r' j Hw Hs [E|(s & r1 & E1 & E2)]%bind_err Hp Hj; [by eapply read_until_crlf_short|].
    pose proof (keeps_read_until_crlf _ _ _ Hw E1) as []. pose proof (eats_read_until_crlf _ _ _ Hw E1).
    pose proof (Hk s _ _ _ later_wf E2) as []. lia.
Qed.

Lemma bind_assoc {A B C} (m : reader A) (f : A → reader B) (k : B → reader C) r :
  bind (bind m f) k r = bind m (λ a, bind (f a) k) r.
Proof. unfold bind. by destruct (m r) as [[[a|e] r1]|]. Qed.

Lemma skips_integer {A} (k : Z → reader A) :
  (∀ s, keeps (k s)) → (∀ s n, total n (k s)) → skips (bind read_integer k).
Proof.
  intros Hk Ht. assert (skips (let! s := read_until_crlf in
    bind (match parse_int_i64 s 10 with BunStrings.Ok v => ret v | BunStrings.Err _ => fail RedisError.InvalidInteger end) k)) as [H1 H2].
  { apply skips_line; walk_lengths. }
  split.
  - intros r Hw Hs. unfold read_integer. setoid_rewrite bind_assoc. by apply H1.
  - intros r r' j Hw Hs. unfold read_integer. rewrite bind_assoc. by apply H2.
Qed.

(** [scan_one] after the type byte. *)
Lemma scan_one_body d : ∃ body, scan_one d = bind read_byte body ∧ ∀ c, skips (body c).
Proof.
  eexists. split; [reflexivity|]. intros c. cbv beta. destruct (RESPType.from_byte c) as [ty|]; [|by apply skips_fail].
  destruct ty; try (destruct (_ <=? d); [by apply skips_fail|]); (apply skips_line || apply skips_integer); walk_lengths.
Qed.

(** ** The scanner's state after running out of bytes *)

Definition reader_of (b : bytes) (s : ReplyScanner) : ValkeyReader := mkReader b (sc_pos s) 0 (sc_crlf_skip s).

(** The skip of the scanner: it reaches no further than the last byte but one, and
    passes over no CRLF in the line behind the type byte. *)
Definition resumable (b : bytes) (s : ReplyScanner) : Prop :=
  scanner_ok b s ∧
  (sc_crlf_skip s = 0 ∨ sc_pos s + 1 + sc_crlf_skip s < len b) ∧
  ∀ j, 0 <= j < sc_crlf_skip s → ¬ crlf_at b (sc_pos s + 1 + j).

Lemma resumable_app b x s : len (b ++ x) <= isize_MAX → resumable b s → resumable (b ++ x) s.
Proof.
  rewrite len_app. pose proof (len_nonneg x). intros Hl ([] & Hk & Hc). split; [split; rewrite ?len_app; done || lia|].
  split; [rewrite len_app; lia|]. intros j Hj. rewrite crlf_at_app by lia. by apply Hc.
Qed.

Lemma resumable_0 b p st :
  len b <= isize_MAX → 0 <= p <= len b → Forall (λ n, 0 < n) st → resumable b (mkScanner p st 0).
Proof. intros. split; [by split|]. split; [by left|]. intros j Hj. cbn in Hj. lia. Qed.

Definition no_skip (s : ReplyScanner) : ReplyScanner := mkScanner (sc_pos s) (stack s) 0.

(** Both runs end alike; after an error the skip of the scanner is left as it was. *)
Definition agree (o1 o2 : option (Result ScanResult * ReplyScanner)) : Prop :=
  match o1, o2 with
  | None, None => True
  | Some (Ok a, s1), Some (Ok b, s2) => a = b ∧ s1 = s2
  | Some (Err a, s1), Some (Err b, s2) => a = b ∧ no_skip s1 = no_skip s2
  | _, _ => False
  end.

#[export] Instance agree_equiv : Equivalence agree.
Proof.
  split.
  - by intros [[[|] ]|].
  - intros [[[|] ]|] [[[|] ]|]; cbn; try done; by intros [-> ->].
  - intros [[[|] ]|] [[[|] ]|] [[[|] ]|]; cbn; try done; intros [-> ->] [-> ->]; done.
Qed.

Lemma scan_one_resume b s d :
  resumable b s →
  ∃ res r1 r2, scan_one d (reader_of b s) = Some (res, r1) ∧ scan_one d (reader_of b (no_skip s)) = Some (res, r2) ∧
    pos r1 = pos r2 ∧
    (res = Err RedisError.InvalidResponse → pos r1 = sc_pos s + 1 → ∀ j, 0 <= j → ¬ crlf_at b (sc_pos s + 1 + j)).
Proof.
  intros (Hok & _ & Hc). pose proof (scanner_wf _ _ Hok) as Hw. fold (reader_of b s) in Hw.
  destruct (scan_one_body d) as (body & -> & Hbody).
  assert (wf (reader_of b (no_skip s))) as Hw0 by (destruct Hw; by split).
  pose proof (read_byte_spec _ Hw) as H1. pose proof (read_byte_spec _ Hw0) as H2.
  cbn [reader_of buffer pos no_skip sc_pos] in H1, H2. unfold bind. destruct (Z.leb_spec (len b) (sc_pos s)).
  { rewrite H1, H2. eexists _, _, _. do 3 (split; [done|]). intros _ Hp. cbn [pos reader_of] in Hp. lia. }
  destruct H1 as (c & Hc1 & ->), H2 as (c' & Hc2 & ->). replace c' with c by congruence.
  set (r := set_pos _ (reader_of b s)). assert (wf r) as Hwr.
  { apply wf_set_pos; [done|]. destruct Hw. cbn [reader_of pos buffer] in *. lia. }
  assert (skip_sound r) as Hs by (intros j Hj; apply Hc; done).
  destruct (skips_same _ (Hbody c) r Hwr Hs) as (res & r1 & r2 & E1 & E2 & Hp). exists res, r1, r2.
  split; [done|]. split; [done|]. split; [done|]. intros -> Hp1 j Hj. by apply (skips_short _ (Hbody c) r r1 j Hwr Hs E1).
Qed.

Lemma scan_loop_no_skip n b s : resumable b s → agree (scan_loop n b s) (scan_loop n b (no_skip s)).
Proof.
  intros Hs. destruct n as [|n]; [done|]. rewrite !scan_loop_eq. fold (reader_of b s) (reader_of b (no_skip s)).
  destruct (scan_one_resume b s (Z.of_nat (length (stack s))) Hs) as (res & r1 & r2 & E1 & E2 & Hp & _).
  change (stack (no_skip s)) with (stack s). rewrite E1, E2, Hp. destruct res as [c|e]; [done|].
  by destruct e.
Qed.

(** ** More bytes *)

Lemma resume_resumable b r c s :
  len b <= isize_MAX → 0 <= pos r <= len b → Forall (λ n, 0 < n) s →
  ∀ n y, resume n b (pos r) c s = Some y →
  (y = (Ok Complete, mkScanner (pos r) [] 0) ∧ ∀ n b', resume n b' (pos r) c s = Some y) ∨
  ∃ s', resumable b s' ∧ (∀ n b', resume n b' (pos r) c s = scan_loop n b' s').
Proof.
  intros Hl Hp Hs n y. unfold resume, finish. destruct (Z.ltb_spec 0 c).
  { intros _. right. eexists. split; [|done]. apply resumable_0; try done. by constructor. }
  destruct (unwind_ok s Hs) as (st & -> & Hst). destruct st as [|k st]; [intros [= <-]; left; done|].
  intros _. right. eexists. split; [|done]. by apply resumable_0.
Qed.

Lemma ext_reader_of b x s : scanner_ok b s → len (b ++ x) <= isize_MAX → ext x (reader_of b s) (reader_of (b ++ x) s).
Proof.
  intros Hs Hl. split; try done; [by apply scanner_wf|]. apply scanner_wf. rewrite len_app in Hl. pose proof (len_nonneg x).
  destruct Hs. split; rewrite ?len_app; done || lia.
Qed.

(** An answer other than running out of bytes stays; after running out, the run on
    more bytes gets to where the scanner is. *)
Lemma scan_loop_app n b x s res s' :
  resumable b s → len (b ++ x) <= isize_MAX → scan_loop n b s = Some (res, s') →
  if bool_decide (res = Ok NeedMoreData)
  then resumable b s' ∧ ∃ k, ∀ m, agree (scan_loop (k + m) (b ++ x) s) (scan_loop m (b ++ x) s')
  else scan_loop n (b ++ x) s = Some (res, s').
Proof.
  intros Hs Hl. revert s Hs. induction n as [|n IH]; intros s Hs; [done|]. pose proof Hs as (Hok & _ & _).
  destruct (scan_one_resume b s (Z.of_nat (length (stack s))) Hs) as (res1 & r1 & _ & E1 & _ & _ & Hshort).
  pose proof (keeps_scan_one _ _ _ _ (scanner_wf _ _ Hok) E1) as [Hb Hp _ _ Hw1].
  fields. destruct Hw1 as [Hp1 _ _ _]. rewrite Hb in Hp1.
  rewrite !scan_loop_eq. fold (reader_of b s) (reader_of (b ++ x) s). rewrite E1.
  assert (res1 ≠ Err RedisError.InvalidResponse →
    ∃ r2, scan_one (Z.of_nat (length (stack s))) (reader_of (b ++ x) s) = Some (res1, r2) ∧ pos r2 = pos r1) as Hsim.
  { intros Hne. destruct (sim_scan_one _ x _ _ _ _ (ext_reader_of b x s Hok Hl) E1) as (r2 & ? & []); [by right|]. eauto. }
  destruct res1 as [c|e].
  - destruct Hsim as (r2 & E2 & Hp2); [done|]. intros H.
    destruct (resume_resumable b r1 (count c) (stack s) ltac:(apply Hok) ltac:(lia) ltac:(apply Hok) n _ H) as [[[= -> ->] Hr]|(s1 & Hs1 & Hr)].
    + rewrite bool_decide_eq_false_2 by done. by rewrite E2, Hp2, Hr.
    + rewrite Hr in H. specialize (IH s1 Hs1 H). destruct (bool_decide _); [|by rewrite E2, Hp2, Hr].
      destruct IH as (? & k & Hk). split; [done|]. exists (S k). intros m. cbn [Nat.add]. rewrite scan_loop_eq.
      fold (reader_of (b ++ x) s). rewrite E2, Hp2, Hr. apply Hk.
  - assert (∀ k, 0 <= k → (k = 0 ∨ pos r1 = sc_pos s + 1 ∧ k = len b - pos r1 - 1) →
      let s1 := mkScanner (sc_pos s) (stack s) k in
      e = RedisError.InvalidResponse →
      resumable b s1 ∧ ∃ k, ∀ m, agree (scan_loop (k + m) (b ++ x) s) (scan_loop m (b ++ x) s1)) as Hmore.
    { intros k Hk Hk' s1 ->. assert (resumable b s1) as Hs1.
      { destruct Hok. split; [by split|]. unfold s1. cbn [sc_crlf_skip sc_pos]. split; [lia|]. intros j Hj.
        destruct Hk' as [->|[Hpos ->]]; [lia|]. apply Hshort; [done|done|lia]. }
      split; [done|]. exists 0%nat. intros m. cbn [Nat.add].
      transitivity (scan_loop m (b ++ x) (no_skip s)); [by apply scan_loop_no_skip, resumable_app|].
      symmetry. by apply (scan_loop_no_skip m (b ++ x) s1), resumable_app. }
    destruct (decide (e = RedisError.InvalidResponse)) as [->|He].
    + cbv zeta. destruct (Z.eqb_spec (pos r1) (sc_pos s + 1)) as [Hpos|].
      * rewrite (proj2 (Z.ltb_ge _ _)) by lia. intros [= <- <-]. rewrite bool_decide_eq_true_2 by done.
        apply Hmore; [lia| |done]. lia.
      * intros [= <- <-]. rewrite bool_decide_eq_true_2 by done. apply Hmore; [lia|by left|done].
    + destruct Hsim as (r2 & -> & _); [congruence|].
      destruct e; try done; intros [= <- <-]; by rewrite bool_decide_eq_false_2.
Qed.

(** Resuming on more bytes is scanning them from where the scanner started. *)
Lemma scan_resumed b x s s' :
  resumable b s → len (b ++ x) <= isize_MAX → scan b s = Some (Ok NeedMoreData, s') →
  resumable b s' ∧ agree (scan (b ++ x) s') (scan (b ++ x) s).
Proof.
  intros Hs Hl E. pose proof (scan_loop_app _ b x s _ _ Hs Hl E) as H. rewrite bool_decide_eq_true_2 in H by done.
  destruct H as (Hs' & k & Hk). split; [done|]. specialize (Hk (S (length (b ++ x)))).
  pose proof (resumable_app b x s Hl Hs) as (Hok & _). destruct (scan_total _ _ Hok) as (res & st & Et & _).
  symmetry. fold (scan (b ++ x) s') in Hk. transitivity (scan_loop (k + S (length (b ++ x))) (b ++ x) s); [|done].
  rewrite Et. unfold scan in Et. by rewrite (scanner_loop_fuel _ (k + S (length (b ++ x))) _ _ _ Et) by lia.
Qed.

Lemma scan_app b x s res s' :
  resumable b s → len (b ++ x) <= isize_MAX → scan b s = Some (res, s') → res ≠ Ok NeedMoreData → scan (b ++ x) s = Some (res, s').
Proof.
  intros Hs Hl E Hne. pose proof (scan_loop_app _ b x s _ _ Hs Hl E) as H. rewrite bool_decide_eq_false_2 in H by done.
  eapply scan_fuel; [|done]. by apply resumable_app.
Qed.

(** The states of a scanner that has been given a reply in pieces, from a reset on. *)
Inductive given : bytes → ReplyScanner → Prop :=
| given_nothing : given [] reset
| given_more b x s s' :
    given b s → scan (b ++ x) s = Some (Ok NeedMoreData, s') → len (b ++ x) <= isize_MAX → given (b ++ x) s'.

Lemma given_resumable b x s :
  given b s → len (b ++ x) <= isize_MAX → resumable b s ∧ agree (scan (b ++ x) s) (scan (b ++ x) reset).
Proof.
  intros Hg. revert x. induction Hg as [|b y s s' Hg IH E Hl]; intros x Hx.
  { split; [|reflexivity]. apply resumable_0; unfold isize_MAX; done || (unfold len; cbn; lia). }
  rewrite <- app_assoc in *. destruct (IH (y ++ x) Hx) as [Hs Ha]. pose proof (resumable_app _ _ _ Hl Hs) as Hs'.
  rewrite app_assoc in *. destruct (scan_resumed (b ++ y) x s s' Hs' Hx E) as [H1 H2]. split; [done|]. by transitivity (scan ((b ++ y) ++ x) s).
Qed.

(** C19. A reply that arrives in pieces is scanned like one that arrives at once:
    whatever pieces the bytes came in, as long as the scanner asked for more, the
    next scan gives the answer of a scan of all the bytes from the start, with the
    same offset and the same stack, although it starts where the last one stopped
    and skips what it has seen of an unfinished line. *)
Theorem scanning_in_pieces b x s res s' :
  given b s → len (b ++ x) <= isize_MAX → scan (b ++ x) s = Some (res, s') →
  ∃ s0, scan (b ++ x) reset = Some (res, s0) ∧ sc_pos s0 = sc_pos s' ∧ stack s0 = stack s' ∧
    (∀ a, res = Ok a → s0 = s').
Proof.
  intros Hg Hl E. destruct (given_resumable b x s Hg Hl) as [_ Ha]. rewrite E in Ha.
  destruct (scan (b ++ x) reset) as [[[a'|e'] s0]|], res as [a|e]; try done; destruct Ha as [<- Ha]; exists s0.
  - subst. done.
  - unfold no_skip in Ha. injection Ha as -> ->. done.
Qed.

(** A line in three pieces: the second scan looks at no byte of the first piece but
    its last. *)
Lemma scanning_in_pieces_witness :
  let b := bs "*2" ++ [13; 10] ++ bs "+hel" in
  let s := mkScanner 4 [2] 2 in
  let x := bs "lo" ++ [13; 10] ++ bs ":1" ++ [13; 10] in
  given b s ∧ ∃ s0, scan (b ++ x) reset = Some (Ok Complete, s0) ∧ sc_pos s0 = 16 ∧ stack s0 = [] ∧
    (∀ a, Ok Complete = Ok a → s0 = mkScanner 16 [] 0).
Proof.
  intros b s x. assert (given b s) as Hg.
  { apply (given_more [] b reset s given_nothing); [vm_compute; reflexivity|vm_compute; discriminate]. }
  split; [exact Hg|]. apply (scanning_in_pieces b x s (Ok Complete) (mkScanner 16 [] 0) Hg).
  - vm_compute. discriminate.
  - vm_compute. reflexivity.
Defined.
