(* ===== verification/ValkeyCommand.v ===== *)
(** * [src/runtime/valkey_jsc/ValkeyCommand.rs]: commands on the wire

    A command is written as an array of bulk strings; what is written reads back
    through the reader of replies. [Meta] says how a command may be sent. *)

From S2P Require Import Prelude BunStrings ValkeyProtocol ValkeyReaderFacts ValkeyScannerFacts ValkeyResume.

#[local] Open Scope Z_scope.

(** [bitflags Meta: u8] *)
Definition RETURN_AS_BOOL : Z := Z.shiftl 1 0.
Definition SUPPORTS_AUTO_PIPELINING : Z := Z.shiftl 1 1.
Definition RETURN_AS_BUFFER : Z := Z.shiftl 1 2.
Definition SUBSCRIPTION_REQUEST : Z := Z.shiftl 1 3.

(** [bitflags]: [contains], [insert], [remove], [set] *)
Definition contains (m flag : Z) : bool := Z.land m flag =? flag.
Definition insert (m flag : Z) : Z := Z.lor m flag.
Definition remove (m flag : Z) : Z := Z.ldiff m flag.
Definition set (m flag : Z) (value : bool) : Z := if value then insert m flag else remove m flag.

Definition Meta_default : Z := SUPPORTS_AUTO_PIPELINING.

(** The three kinds of arguments; [slice()] of each is its bytes. *)
Inductive Args := Slices (args : list bytes) | BlobArgs (args : list bytes) | Raw (args : list bytes).

Definition args_list (a : Args) : list bytes := match a with Slices l | BlobArgs l | Raw l => l end.
Definition args_len (a : Args) : Z := Z.of_nat (length (args_list a)).

Record Command := mkCommand { command : bytes; args : Args; meta : Z }.

Definition CRLF : bytes := [13; 10].

(** [write!(writer, "${}\r\n", bytes.len()); write_all(bytes); write_all(b"\r\n")] *)
Definition write_bulk (s : bytes) : bytes := [ch "$"] ++ print_u64 (len s) ++ CRLF ++ s ++ CRLF.

(** [Command::write]: what is appended to the writer. *)
Definition write (c : Command) : bytes :=
  [ch "*"] ++ print_u64 (1 + args_len (args c)) ++ CRLF ++ write_bulk (command c) ++
  match args c with
  | Slices l => concat (map write_bulk l)
  | BlobArgs l => concat (map write_bulk l)
  | Raw l => concat (map write_bulk l)
  end.

Definition byte_length (c : Command) : Z := len (write c).
Definition serialize (c : Command) : bytes := write c.

Definition AUTO_PIPELINE_DISALLOWED_COMMANDS : list bytes :=
  [bs "AUTH"; bs "EXEC"; bs "INFO"; bs "QUIT"; bs "MULTI"; bs "WATCH"; bs "SCRIPT"; bs "SELECT"; bs "CLUSTER";
   bs "DISCARD"; bs "UNWATCH"; bs "PIPELINE"; bs "SUBSCRIBE"; bs "PSUBSCRIBE"; bs "UNSUBSCRIBE"; bs "UNPSUBSCRIBE"].

Definition is_subscription_command (name : bytes) : bool :=
  existsb (λ c, eql_case_insensitive_ascii name c true)
    [bs "SUBSCRIBE"; bs "PSUBSCRIBE"; bs "SSUBSCRIBE"; bs "UNSUBSCRIBE"; bs "PUNSUBSCRIBE"; bs "SUNSUBSCRIBE"].

Definition check (m : Z) (c : Command) : Z :=
  let new := set m SUPPORTS_AUTO_PIPELINING (negb (bool_decide (command c ∈ AUTO_PIPELINE_DISALLOWED_COMMANDS))) in
  if is_subscription_command (command c) then insert new SUBSCRIPTION_REQUEST else new.

(** ** Reading what was written *)

#[local] Open Scope reader_scope.

(** A reader with [s] ahead. *)
Definition ahead (r : ValkeyReader) (s : bytes) : Prop :=
  wf r ∧ crlf_skip r = 0 ∧ drop (Z.to_nat (pos r)) (buffer r) = s.

(** [m] reads [a] off [s] and leaves [s']. *)
Definition parses {A} (m : reader A) (s : bytes) (a : A) (s' : bytes) : Prop :=
  ∀ r, ahead r s → ∃ r', m r = Some (Ok a, r') ∧ ahead r' s' ∧ buffer r' = buffer r.

Lemma parses_ret {A} (a : A) s : parses (ret a) s a s.
Proof. intros r Hr. by eexists. Qed.

Lemma parses_bind {A B} (m : reader A) (k : A → reader B) s1 s2 s3 a b :
  parses m s1 a s2 → parses (k a) s2 b s3 → parses (bind m k) s1 b s3.
Proof.
  intros Hm Hk r Hr. destruct (Hm r Hr) as (r1 & E1 & H1 & Hb1). destruct (Hk r1 H1) as (r2 & E2 & H2 & Hb2).
  exists r2. unfold bind. rewrite E1. split; [done|]. split; [done|]. congruence.
Qed.

(** Having read [x] of what is ahead. *)
Lemma ahead_move r x s k : ahead r (x ++ s) → k = pos r + len x → ahead (set_pos k r) s.
Proof.
  intros (Hw & Hs & Hd) ->. assert (left_ r = len x + len s) as Hl by (rewrite <- len_app, <- Hd; symmetry; by apply len_drop).
  pose proof (len_nonneg x). pose proof (len_nonneg s). unfold left_ in Hl. pose proof Hw as [Hp].
  split; [apply wf_set_pos; [done|lia]|]. split; [done|]. fields.
  replace (Z.to_nat (pos r + len x)) with (Z.to_nat (pos r) + length x)%nat by (unfold len; lia).
  by rewrite <- drop_drop, Hd, drop_app_length.
Qed.

Lemma ahead_left r s : ahead r s → left_ r = len s.
Proof. intros (Hw & _ & <-). by rewrite len_drop. Qed.

Lemma parses_read_byte c s : parses read_byte (c :: s) c s.
Proof.
  intros r Hr. pose proof (ahead_left _ _ Hr) as Hl. pose proof Hr as (Hw & _ & Hd). pose proof (read_byte_spec r Hw) as H.
  unfold left_ in Hl. assert (len (c :: s) = len s + 1) as Hc by (unfold len; cbn; lia). pose proof (len_nonneg s).
  rewrite (proj2 (Z.leb_gt _ _)) in H by lia. destruct H as (c' & Ha & ->).
  replace c' with c in *.
  - eexists. split; [done|]. split; [|done]. by apply (ahead_move r [c] s).
  - unfold at_ in Ha. destruct Hw as [Hp]. rewrite (proj2 (Z.leb_le _ _)) in Ha by lia.
    rewrite <- (Nat.add_0_r (Z.to_nat (pos r))), <- lookup_drop, Hd in Ha. by injection Ha.
Qed.

Lemma find_crlf_line limit i line s :
  13 ∉ line → 0 <= i → i + len line < limit → find_crlf limit 0 i (line ++ CRLF ++ s) = Some (i + len line).
Proof.
  revert i. induction line as [|c line IH]; intros i Hc Hi Hl; cbn [app find_crlf CRLF].
  - change (len []) with 0 in *. rewrite (proj2 (Z.leb_gt _ _)), (proj2 (Z.leb_le 0 i)) by lia. cbn. f_equal. lia.
  - assert (len (c :: line) = len line + 1) as Hc' by (unfold len; cbn; lia). rewrite Hc' in *. pose proof (len_nonneg line).
    rewrite (proj2 (Z.leb_gt _ _)) by lia. apply not_elem_of_cons in Hc as [Hne Hc].
    rewrite (proj2 (Z.eqb_neq c 13)) by congruence. rewrite andb_false_r. cbn [andb].
    rewrite IH by (done || lia). f_equal. lia.
Qed.

Lemma parses_line line s :
  13 ∉ line → len line <= MAX_LINE_LEN → parses read_until_crlf (line ++ CRLF ++ s) line s.
Proof.
  intros Hc Hl r Hr. pose proof Hr as (Hw & Hs & Hd). rewrite read_until_crlf_spec by done. rewrite Hd, Hs.
  rewrite find_crlf_line; [|done|lia|rewrite !len_app; change (len CRLF) with 2; pose proof (len_nonneg s); lia].
  rewrite Z.add_0_l. exists (set_pos (pos r + (len line + 2)) (set_crlf_skip 0 r)). split; [|split]; [..|done].
  - unfold len. rewrite Nat2Z.id, take_app_length. done.
  - apply (ahead_move _ (line ++ CRLF) s); [|rewrite len_app; done]. rewrite <- app_assoc.
    destruct Hw. split; [by split|]. by split.
Qed.

Lemma print_digits_short fuel n : (length (print_digits fuel n) <= fuel)%nat.
Proof.
  revert n. induction fuel as [|fuel IH]; intros n; cbn [print_digits]; [done|]. case_match; [cbn; lia|].
  rewrite length_app. cbn. specialize (IH (n / 10)). lia.
Qed.

Lemma parses_integer n s : 0 <= n < 2 ^ 63 → parses read_integer (print_u64 n ++ CRLF ++ s) n s.
Proof.
  intros Hn. destruct (print_u64_spec n) as (Hd & Hne & Hv); [unfold is_u64; lia|].
  unfold read_integer. eapply parses_bind; [apply parses_line|].
  - intros Hin. apply list_elem_of_In in Hin. rewrite forallb_forall in Hd. apply Hd in Hin. done.
  - pose proof (print_digits_short 20 n). unfold len, print_u64, MAX_LINE_LEN, MAX_BULK_LEN. lia.
  - rewrite parse_int_digits, Hv by (done || lia). apply parses_ret.
Qed.

Lemma parses_payload invalid p s : parses (read_payload invalid (len p)) (p ++ CRLF ++ s) p s.
Proof.
  intros r Hr. pose proof Hr as (Hw & Hs & Hd). pose proof (ahead_left _ _ Hr) as Hl. rewrite !len_app in Hl.
  pose proof (len_nonneg p). pose proof (len_nonneg s). change (len CRLF) with 2 in Hl. unfold left_ in Hl.
  rewrite read_payload_eq by done. rewrite (proj2 (Z.ltb_ge _ _)) by lia.
  destruct (parses_line [] s ltac:(apply not_elem_of_nil) ltac:(done) (set_pos (pos r + len p) r)) as (r' & -> & Hr' & Hb).
  { by apply (ahead_move r p). }
  eexists. split; [|by split]. rewrite Hd. unfold len. by rewrite Nat2Z.id, take_app_length.
Qed.

Lemma parses_budget n size s : 0 <= n → parses (with_budget n size) s tt s.
Proof.
  intros Hn r (Hw & Hs & Hd). destruct (with_budget_ok n size r Hw Hn) as (cap & Hc & ->). eexists. split; [done|].
  split; [|done]. split; [|done]. pose proof Hw as [_ [??] _ _]. apply wf_set_budget; [done|lia].
Qed.

Lemma parses_times {A} fuel (body : reader A) i n es vs s :
  Forall2 (λ e v, ∀ s, parses body (e ++ s) v s) es vs → n - i = Z.of_nat (length es) → (length es < fuel)%nat →
  parses (read_times fuel body i n) (concat es ++ s) vs s.
Proof.
  intros H. revert fuel i. induction H as [|e v es vs He Hes IH]; intros fuel i Hn Hf; cbn [length] in *;
    (destruct fuel as [|fuel]; [lia|]); cbn [read_times concat].
  - rewrite (proj2 (Z.ltb_ge _ _)) by lia. apply parses_ret.
  - rewrite (proj2 (Z.ltb_lt _ _)) by lia. rewrite <- app_assoc. eapply parses_bind; [apply He|].
    eapply parses_bind; [apply IH; lia|apply parses_ret].
Qed.

Section roundtrip.
Context `{F : Float64} `{L : Layout}.

Lemma parses_bulk fuel d str s :
  len str <= MAX_BULK_LEN →
  parses (read_value_with_depth (S fuel) d) (write_bulk str ++ s) (RESPValue.BulkString (Some str)) s.
Proof.
  intros Hl. pose proof (len_nonneg str). unfold write_bulk. cbn [read_value_with_depth app].
  eapply parses_bind; [apply parses_read_byte|]. rewrite <- !app_assoc. cbn [RESPType.from_byte Z.eqb Pos.eqb].
  eapply parses_bind; [apply parses_integer; unfold MAX_BULK_LEN in Hl; lia|].
  rewrite !(proj2 (Z.ltb_ge _ _)) by lia. eapply parses_bind; [apply parses_payload|apply parses_ret].
Qed.

Lemma parses_array fuel d es vs s :
  Forall2 (λ e v, ∀ s, parses (read_value_with_depth fuel (d + 1)) (e ++ s) v s) es vs →
  d < MAX_NESTING_DEPTH → Z.of_nat (length es) < 2 ^ 63 → (length es < fuel)%nat →
  parses (read_value_with_depth (S fuel) d)
    ([ch "*"] ++ print_u64 (Z.of_nat (length es)) ++ CRLF ++ concat es ++ s) (RESPValue.Array vs) s.
Proof.
  intros Hes Hd Hl Hf. cbn [read_value_with_depth app].
  eapply parses_bind; [apply parses_read_byte|]. cbn [RESPType.from_byte Z.eqb Pos.eqb].
  rewrite (proj2 (Z.leb_gt _ _)) by done. eapply parses_bind; [apply parses_integer; lia|].
  rewrite (proj2 (Z.ltb_ge _ _)) by lia. rewrite usize_some, bind_lift by lia.
  eapply parses_bind; [apply parses_budget; lia|]. eapply parses_bind; [apply parses_times; [done|lia|done]|apply parses_ret].
Qed.

Lemma write_eq c :
  write c = [ch "*"] ++ print_u64 (Z.of_nat (length (map write_bulk (command c :: args_list (args c))))) ++ CRLF ++
            concat (map write_bulk (command c :: args_list (args c))).
Proof.
  unfold write, args_len. rewrite length_map. cbn [map concat length].
  replace (Z.of_nat (S _)) with (1 + Z.of_nat (length (args_list (args c)))) by lia. by destruct (args c).
Qed.

Lemma length_concat_bulk l : (length l <= length (concat (map write_bulk l)))%nat.
Proof.
  induction l as [|e l IH]; cbn [map concat length]; [lia|]. rewrite length_app.
  assert (1 <= length (write_bulk e))%nat by (unfold write_bulk; rewrite length_app; cbn [length]; lia). lia.
Qed.

(** C22. A serialized command whose name and arguments are within the reader's limit of
    512 MiB each reads back, with the name and every argument byte for byte, whatever bytes they hold and whatever follows on the wire; the reader
    stops exactly where the command ends. *)
Theorem command_reads_back c tail :
  Forall (λ a, len a <= MAX_BULK_LEN) (command c :: args_list (args c)) → len (serialize c ++ tail) <= isize_MAX →
  ∃ r, read_value (init (serialize c ++ tail)) =
         Some (Ok (RESPValue.Array (map (RESPValue.BulkString ∘ Some) (command c :: args_list (args c)))), r) ∧
       pos r = byte_length c.
Proof.
  intros Ha Hl. set (l := command c :: args_list (args c)) in *. pose proof (wf_init _ Hl) as Hw.
  rewrite read_value_eq by done.
  assert (serialize c ++ tail = [ch "*"] ++ print_u64 (Z.of_nat (length (map write_bulk l))) ++ CRLF ++
          concat (map write_bulk l) ++ tail) as Hs.
  { unfold serialize. rewrite write_eq. fold l. cbn [app]. by rewrite <- !app_assoc. }
  assert (length l < S (length (serialize c ++ tail)))%nat as Hlen.
  { rewrite Hs, !length_app. pose proof (length_concat_bulk l). lia. }
  edestruct (parses_array (S (length (serialize c ++ tail))) 0 (map write_bulk l) (map (RESPValue.BulkString ∘ Some) l) tail) as (r & E & Hr & Hb).
  - clear -Ha. induction Ha as [|a l' Ha _ IH]; cbn [map]; constructor; [|done]. intros s. by apply parses_bulk.
  - done.
  - rewrite length_map. unfold len, isize_MAX in Hl. lia.
  - by rewrite length_map.
  - split; [by apply wf_start|]. split; [done|]. unfold init. fields. exact Hs.
  - exists r. split; [exact E|]. pose proof (ahead_left _ _ Hr) as He. unfold left_ in He. rewrite Hb in He.
    unfold init in He. fields. rewrite len_app in He. unfold byte_length. fold (serialize c). lia.
Qed.
End roundtrip.

Lemma command_reads_back_witness :
  let F := {| f64 := unit; INFINITY := tt; NEG_INFINITY := tt; NAN := tt; WTF__parseDouble := λ _, (tt, 0) |} in
  let L := {| size_of_RESPValue := 40; size_of_MapEntry := 80 |} in
  let c := mkCommand (bs "SET") (Raw [bs "k"; [13; 10; 0; 255]]) Meta_default in
  ∃ r, read_value (init (serialize c ++ bs "*1")) =
         Some (Ok (RESPValue.Array (map (RESPValue.BulkString ∘ Some) [bs "SET"; bs "k"; [13; 10; 0; 255]])), r) ∧
       pos r = byte_length c.
Proof.
  intros F L c. apply (command_reads_back c (bs "*1")).
  - repeat constructor; vm_compute; discriminate.
  - vm_compute. discriminate.
Defined.

(** ** What modelling showed *)

(** The list of commands that are not pipelined spells [PUNSUBSCRIBE] as
    [UNPSUBSCRIBE], and is compared byte for byte. *)
Example punsubscribe_is_pipelined :
  map (λ name, let m := check Meta_default (mkCommand name (Raw []) Meta_default) in
               (contains m SUPPORTS_AUTO_PIPELINING, contains m SUBSCRIPTION_REQUEST))
    [bs "SUBSCRIBE"; bs "PSUBSCRIBE"; bs "UNSUBSCRIBE"; bs "PUNSUBSCRIBE"; bs "subscribe"] =
  [(false, true); (false, true); (false, true); (true, true); (true, true)].
Proof. reflexivity. Qed.

(** A scanner that waits for the payload of a blob has kept nothing of its header:
    the header is read again on the next call, whatever its length. *)
Lemma blob_header_is_read_again digits payload :
  forallb is_ascii_digit digits = true → digits ≠ [] → len digits <= MAX_LINE_LEN →
  dec_value digits <= MAX_BULK_LEN → len payload < dec_value digits + 2 →
  let b := [ch "$"] ++ digits ++ CRLF ++ payload in
  len b <= isize_MAX → scan b reset = Some (Ok NeedMoreData, reset).
Proof.
  intros Hd Hne Hl Hv Hp b Hb. assert (0 <= dec_value digits) by (apply (fold_dec_bound digits 0 0); [done|lia]).
  pose proof (reset_ok b Hb) as Hok. pose proof (scanner_wf _ _ Hok) as Hw. set (r := mkReader b _ _ _) in Hw.
  assert (parses (bind read_byte (λ _, read_integer)) b (dec_value digits) payload) as Hpar.
  { eapply parses_bind; [apply parses_read_byte|]. unfold read_integer. eapply parses_bind; [apply parses_line; [|done]|].
    - intros Hin%list_elem_of_In. rewrite forallb_forall in Hd. by apply Hd in Hin.
    - rewrite parse_int_digits by (done || unfold MAX_BULK_LEN in *; lia). apply parses_ret. }
  destruct (Hpar r) as (r2 & E & Hr2 & _); [by split|]. apply bind_ok in E as (c & r1 & E1 & E2).
  destruct (parses_read_byte (ch "$") (digits ++ CRLF ++ payload) r) as (r1' & E1' & _); [by split|].
  rewrite E1 in E1'. injection E1' as -> <-. unfold scan. rewrite scan_loop_eq. change (mkReader b _ _ _) with r.
  unfold scan_one, bind. rewrite E1. cbn [RESPType.from_byte Z.eqb Pos.eqb]. rewrite E2.
  rewrite !(proj2 (Z.ltb_ge _ _)) by lia. pose proof (ahead_left _ _ Hr2) as Hleft. destruct Hr2 as (Hw2 & _).
  rewrite scan_payload_eq by done. rewrite (proj2 (Z.ltb_lt _ _)) by lia. cbv zeta.
  assert (pos r + 1 = pos r1) as Hp1.
  { pose proof (read_byte_spec r Hw) as Hs. rewrite E1 in Hs. case_match; [done|]. destruct Hs as (c' & _ & Hs). by injection Hs as _ ->. }
  assert (wf r1) as Hw1 by (by apply keeps_read_byte in E1 as []).
  assert (pos r1 < pos r2) as Hlt.
  { apply bind_ok in E2 as (str & r3 & E3 & E4). pose proof (eats_read_until_crlf _ _ _ Hw1 E3).
    destruct (parse_int_i64 str 10); [|done]. injection E4 as _ <-. done. }
  rewrite (proj2 (Z.eqb_neq _ _)) by (change (sc_pos reset) with (pos r); lia). done.
Qed.
