(* ===== verification/ValkeyData.v ===== *)
(** * [src/runtime/valkey_jsc/valkey.rs]: receiving data

    [OffsetByteList] of [src/collections/vec_ext.rs], and [on_data], which cuts the
    bytes of the socket into replies. The client is its read buffer, its scanner
    and the rest of its state; what is done with a reply ([handle_response]), the
    sending of the next command and [fail] act on the whole client, run scripts,
    and are parameters of this file. [None] is a panic, or a loop whose rounds exceed
    the bytes that are buffered. *)

From S2P Require Import Prelude BunStrings ValkeyProtocol ValkeyReaderFacts ValkeyScannerFacts ValkeyResume.

#[local] Open Scope Z_scope.

(** ** [OffsetByteList] *)

Record OffsetByteList := mkList { head : Z; byte_list : bytes }.

Definition list_default : OffsetByteList := mkList 0 [].

Definition list_write (b : bytes) (l : OffsetByteList) : OffsetByteList := mkList (head l) (byte_list l ++ b).

Definition remaining (l : OffsetByteList) : option bytes := slice_from (byte_list l) (head l).

(** [saturating_add] on [usize]; [copy_within(head.., 0)] and [truncate]. *)
Definition consume (n : Z) (l : OffsetByteList) : OffsetByteList :=
  let head := Z.min (head l + n) (2 ^ 64 - 1) in
  if len (byte_list l) <=? head then mkList 0 []
  else if len (byte_list l) - head <=? head then mkList 0 (drop (Z.to_nat head) (byte_list l))
  else mkList head (byte_list l).

Definition list_len (l : OffsetByteList) : option Z :=
  if head l <=? len (byte_list l) then Some (len (byte_list l) - head l) else None.

(** [JsResult<()>] *)
Inductive JsResult := JsOk | Thrown.

Section on_data.
Context `{F : Float64} `{L : Layout} {St : Type} (socket : St → Z).

Record ValkeyClient := mkClient { read_buffer : OffsetByteList; reply_scanner : ReplyScanner; rest : St }.

Context (handle_response : RESPValue.t → ValkeyClient → ValkeyClient * JsResult).
Context (send_next_command : ValkeyClient → ValkeyClient).
Context (fail : bytes → RedisError.t → ValkeyClient → ValkeyClient * JsResult).

Definition set_read_buffer (l : OffsetByteList) (c : ValkeyClient) : ValkeyClient := mkClient l (reply_scanner c) (rest c).
Definition set_reply_scanner (s : ReplyScanner) (c : ValkeyClient) : ValkeyClient := mkClient (read_buffer c) s (rest c).

Definition outcome : Type := option (ValkeyClient * JsResult).

(** [self.fail(message, err)?; return Ok(());] *)
Definition fail_and_return (message : bytes) (e : RedisError.t) (c : ValkeyClient) : outcome := Some (fail message e c).

(** Handle the value, stop if the socket was exchanged meanwhile, send the next
    command and go on with [k]. *)
Definition handle_then (sock : Z) (v : RESPValue.t) (c : ValkeyClient) (k : ValkeyClient → outcome) : outcome :=
  match handle_response v c with
  | (c, Thrown) => Some (c, Thrown)
  | (c, JsOk) => if negb (socket (rest c) =? sock) then Some (c, JsOk) else k (send_next_command c)
  end.

(** Path 1: the reply is in the read buffer. *)
Fixpoint buffer_path (fuel : nat) (sock : Z) (c : ValkeyClient) : outcome :=
  match fuel with
  | O => None
  | S fuel =>
      match remaining (read_buffer c) with
      | None => None
      | Some [] => Some (c, JsOk)
      | Some remaining_buffer =>
          match scan remaining_buffer (reply_scanner c) with
          | None => None
          | Some (Ok NeedMoreData, s) => Some (set_reply_scanner s c, JsOk)
          | Some (Err e, s) => fail_and_return (bs "Failed to read data (buffer path)") e (set_reply_scanner s c)
          | Some (Ok Complete, s) =>
              let c := set_reply_scanner s c in
              match read_value (init remaining_buffer) with
              | None => None
              | Some (Err e, _) => fail_and_return (bs "Failed to read data (buffer path)") e c
              | Some (Ok value, r) =>
                  let bytes_consumed := pos r - 0 in
                  if bytes_consumed =? 0 then
                    fail_and_return (bs "Parser consumed 0 bytes unexpectedly (buffer path)") RedisError.InvalidResponse c
                  else
                    let c := set_reply_scanner reset (set_read_buffer (consume bytes_consumed (read_buffer c)) c) in
                    handle_then sock value c (buffer_path fuel sock)
              end
          end
      end
  end.

(** Path 2: the read buffer is empty, the replies are read from the data itself. *)
Fixpoint stack_path (fuel : nat) (sock : Z) (current_data_slice : bytes) (c : ValkeyClient) : outcome :=
  match fuel with
  | O => None
  | S fuel =>
      match current_data_slice with
      | [] => Some (c, JsOk)
      | _ =>
          match read_value (init current_data_slice) with
          | None => None
          | Some (Err e, _) =>
              if bool_decide (e = RedisError.InvalidResponse) then
                match slice_from current_data_slice 0 with
                | None => None
                | Some b =>
                    let c := set_reply_scanner reset c in
                    Some (set_read_buffer (list_write b (read_buffer c)) c, JsOk)
                end
              else fail_and_return (bs "Failed to read data (stack path)") e c
          | Some (Ok value, r) =>
              let bytes_consumed := pos r - 0 in
              if bytes_consumed =? 0 then
                fail_and_return (bs "Parser consumed 0 bytes unexpectedly (stack path)") RedisError.InvalidResponse c
              else
                match slice_from current_data_slice bytes_consumed with
                | None => None
                | Some current_data_slice => handle_then sock value c (stack_path fuel sock current_data_slice)
                end
          end
      end
  end.

Definition on_data (data : bytes) (c : ValkeyClient) : outcome :=
  let sock := socket (rest c) in
  match remaining (read_buffer c) with
  | None => None
  | Some [] => stack_path (S (length data)) sock data c
  | Some b =>
      let c := set_read_buffer (list_write data (read_buffer c)) c in
      buffer_path (S (length (b ++ data))) sock c
  end.

(** The data of one callback after the other; an exception ends it. *)
Fixpoint on_data_all (chunks : list bytes) (c : ValkeyClient) : outcome :=
  match chunks with
  | [] => Some (c, JsOk)
  | d :: chunks =>
      match on_data d c with
      | Some (c, JsOk) => on_data_all chunks c
      | o => o
      end
  end.

(** ** The buffer *)

(** A buffer of at most [n] bytes, the consumed ones included. *)
Definition list_ok (n : Z) (l : OffsetByteList) : Prop := 0 <= head l <= len (byte_list l) ∧ len (byte_list l) <= n.

Definition content_of (l : OffsetByteList) : bytes := drop (Z.to_nat (head l)) (byte_list l).

Lemma remaining_ok n l : list_ok n l → remaining l = Some (content_of l).
Proof. intros [Hh _]. by apply slice_from_in. Qed.

Lemma write_ok n b l :
  list_ok n l → list_ok (n + len b) (list_write b l) ∧ content_of (list_write b l) = content_of l ++ b.
Proof.
  intros [Hh Hn]. unfold list_ok, content_of, list_write. cbn [byte_list head]. rewrite len_app. pose proof (len_nonneg b).
  split; [lia|]. apply drop_app_le. unfold len in Hh. lia.
Qed.

Lemma len_content n l : list_ok n l → len (content_of l) = len (byte_list l) - head l.
Proof. intros [Hh _]. unfold content_of, len in *. rewrite length_drop. lia. Qed.

Lemma list_consume_ok m n l :
  list_ok m l → m <= isize_MAX → 0 <= n <= len (content_of l) →
  list_ok m (consume n l) ∧ content_of (consume n l) = drop (Z.to_nat n) (content_of l).
Proof.
  intros Hl Hm Hn. rewrite (len_content m) in Hn by done. destruct Hl as [Hh Hl]. unfold consume, isize_MAX in *.
  pose proof (len_nonneg (byte_list l)). rewrite Z.min_l by lia.
  assert (drop (Z.to_nat n) (content_of l) = drop (Z.to_nat (head l + n)) (byte_list l)) as ->.
  { unfold content_of. rewrite drop_drop. f_equal. lia. }
  assert (len (drop (Z.to_nat (head l + n)) (byte_list l)) = Z.max 0 (len (byte_list l) - (head l + n))) as Hd
    by (unfold len; rewrite length_drop; lia).
  unfold list_ok, content_of. destruct (Z.leb_spec (len (byte_list l)) (head l + n)); cbn [head byte_list].
  { change (len []) with 0. split; [lia|]. symmetry. apply drop_ge. unfold len in *. lia. }
  destruct (Z.leb_spec (len (byte_list l) - (head l + n)) (head l + n)); cbn [head byte_list]; [rewrite Hd|]; (split; [lia|done]).
Qed.

(** ** Streams of replies *)

(** [b] is exactly one reply. *)
Definition is_reply (b : bytes) (v : RESPValue.t) : Prop :=
  ∃ r, read_value (init b) = Some (Ok v, r) ∧ pos r = len b.

(** [p] is the beginning of a reply that has not arrived in full. *)
Definition partial (p : bytes) : Prop :=
  p = [] ∨ ∃ y v, y ≠ [] ∧ len (p ++ y) <= isize_MAX ∧ is_reply (p ++ y) v.

Lemma reply_read b v tail :
  is_reply b v → len (b ++ tail) <= isize_MAX →
  0 < len b ∧ (∃ r, read_value (init (b ++ tail)) = Some (Ok v, r) ∧ pos r = len b) ∧
  scan (b ++ tail) reset = Some (Ok Complete, mkScanner (len b) [] 0).
Proof.
  intros (r & E & Hp) Hl. pose proof (ext_init b tail Hl) as He.
  pose proof (read_value_moves _ _ _ (ext_wf1 _ _ _ He) E) as Hm. rewrite Hp in Hm. split; [done|].
  destruct (read_value_sim tail _ _ _ _ He E) as (r2 & E2 & He2); [by right|].
  pose proof (ext_pos _ _ _ He2) as Hp2. rewrite Hp in Hp2. split; [eauto|].
  destruct (scan_read_value _ Hl) as (res & r3 & E3 & Hs). rewrite E2 in E3. injection E3 as <- <-. by rewrite <- Hp2.
Qed.

Lemma partial_read p :
  partial p → p ≠ [] →
  (∃ r, read_value (init p) = Some (Err RedisError.InvalidResponse, r)) ∧ ∃ s, scan p reset = Some (Ok NeedMoreData, s).
Proof.
  intros [|(y & v & Hy & Hl & Hr)] Hp; [done|]. assert (0 < len y) as Hy' by (unfold len; destruct y; [done|cbn; lia]).
  assert (len p <= isize_MAX) as Hlp by (rewrite len_app in Hl; lia).
  pose proof (ext_init p y Hl) as He. destruct (reply_read (p ++ y) v [] Hr) as (_ & (r & E & Hpos) & Hs).
  { by rewrite app_nil_r. }
  rewrite app_nil_r in *. rewrite len_app in Hpos, Hs. split.
  - destruct (read_value_returns _ (ext_wf1 _ _ _ He)) as (res & r1 & E1). exists r1. rewrite E1.
    assert (res = Err RedisError.InvalidResponse ∨ res ≠ Err RedisError.InvalidResponse) as [->|Hne]; [|done|].
    { destruct res as [|e]; [by right|]. destruct (decide (e = RedisError.InvalidResponse)); [left|right]; congruence. }
    exfalso. destruct (read_value_sim y _ _ _ _ He E1) as (r2 & E2 & He2); [by right|].
    rewrite E in E2. injection E2 as <- <-. pose proof (ext_pos _ _ _ He2).
    pose proof (read_value_later _ _ _ (ext_wf1 _ _ _ He) E1) as [Hb _ _ _ [Hw _ _ _]]. rewrite Hb in Hw. cbn [buffer init set_prealloc_budget] in Hw. lia.
  - destruct (scan_total p reset (reset_ok p Hlp)) as (res & s & E1 & Hok & _). rewrite E1.
    destruct (decide (res = Ok NeedMoreData)) as [->|Hne]; [eauto|]. exfalso.
    assert (resumable p reset) as Hrs by (apply resumable_0; [done|pose proof (len_nonneg p); lia|done]).
    pose proof (scan_app p y reset res s Hrs Hl E1 Hne) as E2. rewrite Hs in E2. injection E2 as <- <-.
    destruct Hok as [_ Hpos' _ _]. cbn [sc_pos] in Hpos'. lia.
Qed.

(** A stream can be cut anywhere: what comes first is some replies and the
    beginning of the next. *)
Lemma split_stream bs vs p d u :
  Forall2 is_reply bs vs → partial p → len (d ++ u) <= isize_MAX → d ++ u = concat bs ++ p →
  ∃ bs1 vs1 bs2 vs2 q, Forall2 is_reply bs1 vs1 ∧ Forall2 is_reply bs2 vs2 ∧ vs = vs1 ++ vs2 ∧
    d = concat bs1 ++ q ∧ partial q ∧ q ++ u = concat bs2 ++ p.
Proof.
  intros Hbs Hp. revert d. induction Hbs as [|b v bs vs Hb Hbs IH]; intros d Hl Hd.
  - exists [], [], [], [], d. cbn in *. split_and!; try done. destruct Hp as [->|(y & v & Hy & Hly & Hr)].
    + left. by destruct d.
    + right. exists (u ++ y), v. rewrite app_assoc, Hd. split_and!; try done. by destruct u.
  - cbn [concat] in Hd. rewrite <- app_assoc in Hd. destruct (Nat.le_gt_cases (length b) (length d)) as [Hle|Hlt].
    + assert (d = b ++ drop (length b) d) as Hd'.
      { rewrite <- (take_drop (length b) d) at 1. f_equal. apply (f_equal (take (length b))) in Hd.
        by rewrite take_app_le, take_app_length in Hd. }
      rewrite Hd', <- app_assoc in Hd, Hl. apply app_inv_head in Hd. rewrite len_app in Hl. pose proof (len_nonneg b).
      destruct (IH (drop (length b) d) ltac:(lia) Hd) as (bs1 & vs1 & bs2 & vs2 & q & H1 & H2 & -> & Hdq & Hq & Hu).
      exists (b :: bs1), (v :: vs1), bs2, vs2, q. split_and!; try done; [by constructor|].
      cbn [concat]. by rewrite <- app_assoc, <- Hdq.
    + exists [], [], (b :: bs), (v :: vs), d. split_and!; try done; [by constructor| |by cbn [concat]; rewrite <- app_assoc].
      right. exists (drop (length d) b), v.
      assert (b = d ++ drop (length d) b) as Hb'.
      { rewrite <- (take_drop (length d) b) at 1. f_equal. apply (f_equal (take (length d))) in Hd.
        rewrite take_app_length, take_app_le in Hd by lia. done. }
      rewrite <- Hb'. split_and!; try done.
      * intros Hn. apply (f_equal length) in Hn. rewrite length_drop in Hn. cbn in Hn. lia.
      * apply (f_equal length) in Hd. rewrite !length_app in Hd. unfold len in *. rewrite length_app in Hl. lia.
Qed.

(** ** However the stream is cut *)

(** The read buffer holds [p], and the scanner has seen a beginning of it. *)
Definition waiting (n : Z) (p : bytes) (c : ValkeyClient) : Prop :=
  list_ok n (read_buffer c) ∧ content_of (read_buffer c) = p ∧
  (p = [] ∨ ∃ seen x, p = seen ++ x ∧ given seen (reply_scanner c)).

Context (h : RESPValue.t → St → St) (g : St → St).

(** The handlers leave the connection as it is: they change neither the read buffer,
    nor the scanner, nor the socket, and throw nothing. *)
Context (handles : ∀ v c, handle_response v c = (mkClient (read_buffer c) (reply_scanner c) (h v (rest c)), JsOk)).
Context (sends : ∀ c, send_next_command c = mkClient (read_buffer c) (reply_scanner c) (g (rest c))).
Context (h_socket : ∀ v s, socket (h v s) = socket s) (g_socket : ∀ s, socket (g s) = socket s).

(** Every reply is handled, and then the next command is sent. *)
Definition handle_all (vs : list RESPValue.t) (s : St) : St := fold_left (λ s v, g (h v s)) vs s.

Lemma handle_then_eq v c k :
  handle_then (socket (rest c)) v c k = k (mkClient (read_buffer c) (reply_scanner c) (g (h v (rest c)))).
Proof. unfold handle_then. rewrite handles. cbn [rest]. rewrite h_socket, Z.eqb_refl. cbn [negb]. by rewrite sends. Qed.

Lemma scan_waiting n p c :
  waiting n p c → len p <= isize_MAX → p ≠ [] → agree (scan p (reply_scanner c)) (scan p reset) ∧
  (∀ s, scan p (reply_scanner c) = Some (Ok NeedMoreData, s) → given p s).
Proof.
  intros (_ & _ & [->|(seen & x & -> & Hg)]) Hl Hne; [done|]. split; [by apply given_resumable|].
  intros s Hs. by eapply given_more.
Qed.

Lemma buffer_path_ok fuel n c bs vs p :
  Forall2 is_reply bs vs → partial p → waiting n (concat bs ++ p) c → n <= isize_MAX →
  (length (concat bs ++ p) < fuel)%nat →
  ∃ c', buffer_path fuel (socket (rest c)) c = Some (c', JsOk) ∧ waiting n p c' ∧ rest c' = handle_all vs (rest c).
Proof.
  intros Hbs Hp. revert fuel c. induction Hbs as [|b v bs vs Hb Hbs IH]; intros fuel c Hw Hn Hf;
    (destruct fuel as [|fuel]; [lia|]); cbn [buffer_path concat app] in *;
    pose proof Hw as (Hl & Hc & _); rewrite (remaining_ok n), Hc by done.
  - destruct (decide (p = [])) as [->|Hne]; [by exists c|].
    assert (len p <= isize_MAX) as Hlp by (rewrite <- Hc, (len_content n) by done; destruct Hl; lia).
    destruct (partial_read p Hp Hne) as (_ & s0 & Hs0). destruct (scan_waiting n p c Hw Hlp Hne) as [Ha Hg].
    rewrite Hs0 in Ha. destruct (scan p (reply_scanner c)) as [[[a|e] s]|] eqn:E; try done. destruct Ha as [-> ->].
    destruct p as [|x p]; [done|]. eexists. split; [done|]. split; [|done]. split; [done|]. split; [done|].
    right. exists (x :: p), []. split; [by rewrite app_nil_r|]. by apply Hg.
  - rewrite <- app_assoc in *. set (tail := concat bs ++ p) in *.
    assert (len (b ++ tail) <= isize_MAX) as Hlb by (rewrite <- Hc, (len_content n) by done; destruct Hl; lia).
    destruct (reply_read b v tail Hb Hlb) as (Hpos & (r & E & Hr) & Hs).
    assert (b ++ tail ≠ []) as Hne by (intros H%app_eq_nil; destruct H as [-> _]; done).
    destruct (scan_waiting n _ c Hw Hlb Hne) as [Ha _]. rewrite Hs in Ha.
    destruct (scan (b ++ tail) (reply_scanner c)) as [[[a|e] s]|]; try done. destruct Ha as [-> ->].
    destruct (b ++ tail) as [|x t] eqn:Ebt; [done|]. rewrite <- Ebt in *. rewrite E, Hr, Z.sub_0_r.
    rewrite (proj2 (Z.eqb_neq _ _)) by lia. cbn [read_buffer set_reply_scanner].
    set (c1 := set_reply_scanner reset _). change (rest c) with (rest c1). rewrite handle_then_eq.
    destruct (list_consume_ok n (len b) (read_buffer c) Hl Hn) as [Hl1 Hc1].
    { rewrite Hc, len_app. pose proof (len_nonneg tail). lia. }
    rewrite Hc in Hc1. replace (Z.to_nat (len b)) with (length b) in Hc1 by (unfold len; lia). rewrite drop_app_length in Hc1.
    set (c2 := mkClient _ _ _). replace (socket (rest c1)) with (socket (rest c2)) by (cbn; by rewrite g_socket, h_socket).
    apply (IH fuel c2); [|done|].
    + split; [done|]. split; [done|]. right. exists [], tail. split; [done|]. apply given_nothing.
    + rewrite Ebt in Hf. apply (f_equal length) in Ebt. rewrite length_app in Ebt. cbn in Ebt, Hf. unfold len in Hpos. lia.
Qed.

Lemma stack_path_ok fuel n c bs vs p data :
  Forall2 is_reply bs vs → partial p → waiting n [] c → data = concat bs ++ p → len data <= isize_MAX →
  (length data < fuel)%nat →
  ∃ c', stack_path fuel (socket (rest c)) data c = Some (c', JsOk) ∧ waiting (n + len data) p c' ∧ rest c' = handle_all vs (rest c).
Proof.
  intros Hbs Hp Hw. revert fuel c data Hw. induction Hbs as [|b v bs vs Hb Hbs IH]; intros fuel c data Hw Hd Hld Hf;
    (destruct fuel as [|fuel]; [lia|]); cbn [stack_path concat app] in *.
  - subst data. destruct (decide (p = [])) as [->|Hne].
    { exists c. split; [done|]. split; [|done]. change (len []) with 0. by rewrite Z.add_0_r. }
    destruct (partial_read p Hp Hne) as ((r & E) & _). destruct p as [|x p]; [done|]. rewrite E.
    rewrite bool_decide_eq_true_2 by done. rewrite slice_from_in by (pose proof (len_nonneg (x :: p)); lia).
    destruct Hw as (Hl & Hc & _). destruct (write_ok n (x :: p) (read_buffer c) Hl) as [Hl' Hc']. rewrite Hc in Hc'.
    eexists. split; [done|]. split; [|done]. split; [done|]. split; [done|]. right. exists [], (x :: p). split; [done|]. apply given_nothing.
  - rewrite <- app_assoc in Hd. set (tail := concat bs ++ p) in *. subst data.
    destruct (reply_read b v tail Hb Hld) as (Hpos & (r & E & Hr) & _). pose proof (len_nonneg tail).
    rewrite len_app in *. rewrite length_app in Hf.
    destruct (b ++ tail) as [|x t] eqn:Ebt; [by destruct b|]. rewrite <- Ebt in *. rewrite E, Hr, Z.sub_0_r.
    rewrite (proj2 (Z.eqb_neq _ _)) by lia. rewrite slice_from_in by (rewrite len_app; lia).
    replace (Z.to_nat (len b)) with (length b) by (unfold len; lia). rewrite drop_app_length, handle_then_eq.
    set (c2 := mkClient _ _ _). replace (socket (rest c)) with (socket (rest c2)) by (cbn; by rewrite g_socket, h_socket).
    destruct (IH fuel c2 tail) as (c' & E' & (Hl' & Hw') & Hr'); [done|done|lia| |].
    + unfold len in *. lia.
    + exists c'. split; [done|]. split; [|done]. split; [|done]. destruct Hl'. split; [done|]. lia.
Qed.

(** One callback. *)
Lemma on_data_ok n c q data bs vs p :
  waiting n q c → 0 <= n → n + len data <= isize_MAX → q ++ data = concat bs ++ p → Forall2 is_reply bs vs → partial p →
  ∃ c', on_data data c = Some (c', JsOk) ∧ waiting (n + len data) p c' ∧ rest c' = handle_all vs (rest c).
Proof.
  intros Hw Hn Hl Hd Hbs Hp. pose proof Hw as (Hok & Hc & Hg). pose proof (len_nonneg data). unfold on_data.
  rewrite (remaining_ok n), Hc by done. destruct (decide (q = [])) as [->|Hne].
  { apply (stack_path_ok _ n c bs vs p data); try done; [lia|]. lia. }
  destruct (write_ok n data (read_buffer c) Hok) as [Hok' Hc']. rewrite Hc in Hc'.
  destruct q as [|x q]; [done|]. set (c1 := set_read_buffer _ c).
  destruct (buffer_path_ok (S (length ((x :: q) ++ data))) (n + len data) c1 bs vs p) as (c' & E & Hw' & Hr); try done.
  - rewrite <- Hd. split; [done|]. split; [done|]. destruct Hg as [|(seen & y & Hq & Hg)]; [done|].
    right. exists seen, (y ++ data). split; [by rewrite Hq, app_assoc|done].
  - rewrite <- Hd. lia.
  - by exists c'.
Qed.

(** A client that has just been connected. *)
Definition fresh (s : St) : ValkeyClient := mkClient list_default reset s.

Lemma partial_no_reply bs vs p q :
  Forall2 is_reply bs vs → partial q → q = concat bs ++ p → vs = [] ∧ q = p.
Proof.
  intros Hbs Hq Hd. destruct Hbs as [|b v bs vs Hb _]; [done|]. exfalso. cbn [concat] in Hd. rewrite <- app_assoc in Hd.
  destruct Hq as [->|(y & v' & Hy & Hl & r & E & Hr)].
  { symmetry in Hd. apply app_eq_nil in Hd as [-> _]. destruct (reply_read [] v [] Hb) as [? _]; [done|done]. }
  rewrite Hd, <- app_assoc in E, Hl, Hr. destruct (reply_read b v _ Hb Hl) as (_ & (r' & E' & Hr') & _).
  rewrite E in E'. injection E' as -> ->. rewrite Hr', !len_app in Hr.
  pose proof (len_nonneg (concat bs)). pose proof (len_nonneg p). assert (0 < len y) by (unfold len; destruct y; [done|cbn; lia]). lia.
Qed.

Lemma on_data_all_ok chunks n q c bs vs p :
  waiting n q c → partial q → len q <= n → n + len (concat chunks) <= isize_MAX →
  q ++ concat chunks = concat bs ++ p → Forall2 is_reply bs vs → partial p →
  ∃ c', on_data_all chunks c = Some (c', JsOk) ∧ content_of (read_buffer c') = p ∧ rest c' = handle_all vs (rest c).
Proof.
  revert n q c bs vs. induction chunks as [|d chunks IH]; intros n q c bs vs Hw Hq Hn Hl Hd Hbs Hp; cbn [concat on_data_all] in *.
  - rewrite app_nil_r in Hd. destruct (partial_no_reply bs vs p q Hbs Hq Hd) as [-> ->]. exists c. destruct Hw as (_ & ? & _). done.
  - pose proof (len_nonneg q). pose proof (len_nonneg d). rewrite len_app in Hl. pose proof (len_nonneg (concat chunks)).
    rewrite app_assoc in Hd. destruct (split_stream bs vs p (q ++ d) (concat chunks) Hbs Hp) as
      (bs1 & vs1 & bs2 & vs2 & q' & Hbs1 & Hbs2 & -> & Hqd & Hq' & Hu); [rewrite !len_app; lia|done|].
    destruct (on_data_ok n c q d bs1 vs1 q') as (c1 & -> & Hw1 & Hr1); try done; [lia..|].
    destruct (IH (n + len d) q' c1 bs2 vs2) as (c' & E & Hc & Hr); try done; [|lia|].
    + apply (f_equal len) in Hqd. rewrite !len_app in Hqd. pose proof (len_nonneg (concat bs1)). lia.
    + exists c'. split; [done|]. split; [done|]. rewrite Hr, Hr1. unfold handle_all. by rewrite fold_left_app.
Qed.

(** C11. However the socket cuts the stream of replies into chunks, every reply that
    has arrived in full is handled once and in order, and followed by the sending of
    the next command; what has arrived of the next reply is kept in the read buffer.
    Nothing fails, and the result does not depend on the cuts. *)
Theorem replies_survive_chunking chunks s bs vs p :
  concat chunks = concat bs ++ p → Forall2 is_reply bs vs → partial p → len (concat chunks) <= isize_MAX →
  ∃ c, on_data_all chunks (fresh s) = Some (c, JsOk) ∧ content_of (read_buffer c) = p ∧ rest c = handle_all vs s.
Proof.
  intros Hd Hbs Hp Hl. apply (on_data_all_ok chunks 0 [] (fresh s) bs vs p); try done; [|by left].
  split; [done|]. split; [done|]. by left.
Qed.
End on_data.

(** A handler that writes down the values, and a stream cut within a line, within a
    payload and between a CR and its LF. *)
Lemma replies_survive_chunking_witness :
  let F := {| f64 := unit; INFINITY := tt; NEG_INFINITY := tt; NAN := tt; WTF__parseDouble := λ _, (tt, 0) |} in
  let L := {| size_of_RESPValue := 40; size_of_MapEntry := 80 |} in
  let note := λ v c, (mkClient (read_buffer c) (reply_scanner c) (rest c ++ [v]), JsOk) in
  let chunks := [bs "+O"; bs "K" ++ [13]; [10] ++ bs "*2" ++ [13; 10] ++ bs ":1" ++ [13; 10] ++ bs "$3" ++ [13; 10] ++ bs "a";
                 bs "bc" ++ [13; 10] ++ bs "$9"] in
  ∃ c, on_data_all (λ _, 0) note id (λ _ _ c, (c, JsOk)) chunks (fresh []) = Some (c, JsOk) ∧
       content_of (read_buffer c) = bs "$9" ∧
       rest c = [RESPValue.SimpleString (bs "OK");
                 RESPValue.Array [RESPValue.Integer 1; RESPValue.BulkString (Some (bs "abc"))]].
Proof.
  intros F L note chunks.
  apply (replies_survive_chunking (λ _, 0) note id (λ _ _ c, (c, JsOk)) (λ v s, s ++ [v]) id
    (λ v c, eq_refl) (λ c, ltac:(by destruct c)) (λ v s, eq_refl) (λ s, eq_refl) chunks []
    [bs "+OK" ++ [13; 10]; bs "*2" ++ [13; 10] ++ bs ":1" ++ [13; 10] ++ bs "$3" ++ [13; 10] ++ bs "abc" ++ [13; 10]]
    [RESPValue.SimpleString (bs "OK");
     RESPValue.Array [RESPValue.Integer 1; RESPValue.BulkString (Some (bs "abc"))]] (bs "$9")).
  - vm_compute. reflexivity.
  - repeat constructor; eexists; (split; [vm_compute; reflexivity|reflexivity]).
  - right. exists ([13; 10] ++ bs "123456789" ++ [13; 10]), (RESPValue.BulkString (Some (bs "123456789"))).
    split; [discriminate|]. split; [vm_compute; discriminate|]. eexists. split; [vm_compute; reflexivity|reflexivity].
  - vm_compute. discriminate.
Defined.
