(* ===== verification/ValkeyPipeline.v ===== *)
(** * [src/runtime/valkey_jsc/valkey.rs]: sending commands and matching replies

    The client's queues: commands that wait ([queue]), commands whose reply is
    outstanding ([in_flight]), and the bytes the socket has not taken yet
    ([write_buffer]). [accepts n b] is how many bytes of [b] the socket takes on its
    [n]th write, or a negative number. A promise is its identity; settling one is an
    entry in [settled]. The reply to HELLO, subscription messages and [fail] are
    parameters: they are not part of the regular traffic. [None] is a panic. *)

From S2P Require Import Prelude BunStrings ValkeyProtocol ValkeyReaderFacts ValkeyCommand ValkeyData.

#[local] Open Scope Z_scope.

Inductive Status := NeverConnected | Disconnected | Connecting | Connected.
#[export] Instance Status_eq_dec : EqDecision Status.
Proof. solve_decision. Defined.

(** The flags that sending reads. *)
Record ConnectionFlags := mkFlags {
  is_selecting_db_internal : bool;
  enable_offline_queue : bool;
  failed : bool;
  enable_auto_pipelining : bool }.

Record Promise := mkPromise { promise_meta : Z; promise : Z }.
Record Entry := mkEntry { serialized_data : bytes; entry_meta : Z; entry_promise : Promise }.
Record PromisePair := mkPair { pair_meta : Z; pair_promise : Promise }.

Section pipeline.
Context `{F : Float64} (accepts : nat → bytes → Z).

Inductive Settled := Resolved (v : RESPValue.t) | Rejected (v : RESPValue.t) | RejectedWith (message : bytes).

Record ValkeyClient := mkClient {
  status : Status;
  flags : ConnectionFlags;
  write_buffer : OffsetByteList;
  in_flight : list PromisePair;
  queue : list Entry;
  registered : bool;
  is_subscriber : bool;
  sent : bytes;
  writes : nat;
  settled : list (Z * Settled) }.

Definition set_write_buffer (l : OffsetByteList) (c : ValkeyClient) : ValkeyClient :=
  mkClient (status c) (flags c) l (in_flight c) (queue c) (registered c) (is_subscriber c) (sent c) (writes c) (settled c).
Definition set_in_flight (l : list PromisePair) (c : ValkeyClient) : ValkeyClient :=
  mkClient (status c) (flags c) (write_buffer c) l (queue c) (registered c) (is_subscriber c) (sent c) (writes c) (settled c).
Definition set_queue (l : list Entry) (c : ValkeyClient) : ValkeyClient :=
  mkClient (status c) (flags c) (write_buffer c) (in_flight c) l (registered c) (is_subscriber c) (sent c) (writes c) (settled c).
Definition set_registered (b : bool) (c : ValkeyClient) : ValkeyClient :=
  mkClient (status c) (flags c) (write_buffer c) (in_flight c) (queue c) b (is_subscriber c) (sent c) (writes c) (settled c).
Definition set_flags (f : ConnectionFlags) (c : ValkeyClient) : ValkeyClient :=
  mkClient (status c) f (write_buffer c) (in_flight c) (queue c) (registered c) (is_subscriber c) (sent c) (writes c) (settled c).
Definition settle (id : Z) (o : Settled) (c : ValkeyClient) : ValkeyClient :=
  mkClient (status c) (flags c) (write_buffer c) (in_flight c) (queue c) (registered c) (is_subscriber c) (sent c) (writes c)
    (settled c ++ [(id, o)]).

(** [self.socket.write(b)] *)
Definition socket_write (b : bytes) (c : ValkeyClient) : Z * ValkeyClient :=
  let wrote := accepts (writes c) b in
  (wrote,
   mkClient (status c) (flags c) (write_buffer c) (in_flight c) (queue c) (registered c) (is_subscriber c)
     (sent c ++ take (Z.to_nat wrote) b) (S (writes c)) (settled c)).

Definition connection_ready (c : ValkeyClient) : bool :=
  bool_decide (status c = Connected) && negb (is_selecting_db_internal (flags c)).

(** [register_auto_flusher] and [unregister_auto_flusher] *)
Definition register_auto_flusher (c : ValkeyClient) : ValkeyClient := set_registered true c.
Definition unregister_auto_flusher (c : ValkeyClient) : ValkeyClient := set_registered false c.

Definition flush_data (c : ValkeyClient) : option (bool * ValkeyClient) :=
  chunk ← remaining (write_buffer c);
  match chunk with
  | [] => Some (false, c)
  | _ =>
      let '(wrote, c) := socket_write chunk c in
      let c := if 0 <? wrote then set_write_buffer (consume wrote (write_buffer c)) c else c in
      n ← list_len (write_buffer c);
      Some (0 <? n, c)
  end.

(** [write]: into the write buffer. *)
Definition write_data (b : bytes) (c : ValkeyClient) : ValkeyClient :=
  set_write_buffer (list_write b (write_buffer c)) c.

Definition pipelines (m : Z) : bool := contains m SUPPORTS_AUTO_PIPELINING.

(** [in_flight.push_back(PromisePair { .. })] *)
Definition push_in_flight (m : Z) (p : Promise) (c : ValkeyClient) : ValkeyClient :=
  set_in_flight (in_flight c ++ [mkPair m p]) c.

Definition drain (c : ValkeyClient) : option (bool * ValkeyClient) :=
  if match in_flight c, queue c with
     | _ :: _, head :: _ => negb (pipelines (entry_meta head))
     | _, _ => false
     end
  then Some (false, c)
  else
    match queue c with
    | [] => Some (false, c)
    | offline_cmd :: q =>
        let c := push_in_flight (entry_meta offline_cmd) (entry_promise offline_cmd) (set_queue q c) in
        let data := serialized_data offline_cmd in
        b ← remaining (write_buffer c);
        if connection_ready c && bool_decide (b = []) then
          let '(wrote, c) := socket_write data c in
          unwritten ← slice_from data (Z.max wrote 0);
          match unwritten with
          | [] => Some (true, c)
          | _ => Some (true, write_data unwritten c)
          end
        else Some (true, write_data data c)
    end.

(** [send_next_command] before its last line: what to do with the head of the queue. *)
Definition start_next_command (c : ValkeyClient) : option ValkeyClient :=
  b ← remaining (write_buffer c);
  if bool_decide (b = []) && connection_ready c then
    match queue c with
    | head :: _ =>
        if negb (pipelines (entry_meta head)) then
          match in_flight c with
          | [] =>
              '(_, c) ← drain c;
              Some (match queue c with
                    | head :: _ => if pipelines (entry_meta head) then register_auto_flusher c else c
                    | [] => c
                    end)
          | _ => Some c
          end
        else Some (register_auto_flusher c)
    | [] => match in_flight c with [] => '(_, c) ← drain c; Some c | _ => Some c end
    end
  else Some c.

Definition send_next_command (c : ValkeyClient) : option ValkeyClient :=
  c ← start_next_command c;
  '(_, c) ← flush_data c;
  Some c.

Definition on_writable (c : ValkeyClient) : option ValkeyClient := send_next_command c.

(** The number of commands at the head of the queue that may be pipelined. *)
Fixpoint pipelineable_count (q : list Entry) : nat :=
  match q with
  | [] => 0
  | e :: q => if pipelines (entry_meta e) then S (pipelineable_count q) else 0
  end.

(** [for _ in 0..pipelineable_count { .. }] *)
Fixpoint flush_commands (n : nat) (c : ValkeyClient) : option ValkeyClient :=
  match n with
  | O => Some c
  | S n =>
      match queue c with
      | [] => None
      | cmd :: q =>
          flush_commands n
            (write_data (serialized_data cmd) (push_in_flight (entry_meta cmd) (entry_promise cmd) (set_queue q c)))
      end
  end.

Definition on_auto_flush (c : ValkeyClient) : option (bool * ValkeyClient) :=
  if negb (bool_decide (status c = Connected)) then Some (false, set_registered false c)
  else
    c ← flush_commands (pipelineable_count (queue c)) c;
    '(_, c) ← flush_data c;
    let have_more := match queue c with [] => false | _ => true end in
    Some (have_more, set_registered have_more c).

Definition enqueue (cmd : Command) (p : Promise) (c : ValkeyClient) : option ValkeyClient :=
  let can_pipeline := pipelines (meta cmd) && enable_auto_pipelining (flags c) in
  let queue_empty := match queue c with [] => true | _ => false end in
  let in_flight_empty := match in_flight c with [] => true | _ => false end in
  let must_wait_for_queue := negb (pipelines (meta cmd)) && negb queue_empty in
  if negb queue_empty || (negb can_pipeline && negb in_flight_empty) || negb (connection_ready c)
     || must_wait_for_queue || can_pipeline
  then
    let c := set_queue (queue c ++ [mkEntry (serialize cmd) (meta cmd) p]) c in
    Some (if bool_decide (status c = Connected) && can_pipeline then register_auto_flusher c else c)
  else
    match status c with
    | Connecting | Connected =>
        let c := write_data (write cmd) c in
        let c := push_in_flight (meta cmd) p c in
        '(_, c) ← flush_data c;
        Some c
    | _ => None
    end.

Definition send_rejection (c : ValkeyClient) : option bytes :=
  if failed (flags c) then Some (bs "Connection has failed")
  else if negb (bool_decide (status c = Connected)) && negb (enable_offline_queue (flags c))
  then Some (bs "Connection is closed and offline queue is disabled")
  else None.

(** [id] is the promise created for the command. *)
Definition send (cmd : Command) (id : Z) (c : ValkeyClient) : option ValkeyClient :=
  let checked_command := mkCommand (command cmd) (args cmd) (check (meta cmd) cmd) in
  let p := mkPromise (meta checked_command) id in
  match send_rejection c with
  | Some message => Some (settle id (RejectedWith message) c)
  | None =>
      c ← enqueue checked_command p c;
      Some (if enable_auto_pipelining (flags c) && pipelines (meta checked_command) && bool_decide (status c = Connected)
               && negb (match queue c with [] => true | _ => false end)
            then register_auto_flusher c else c)
  end.

(** ** Replies *)

Context (handle_hello_response : RESPValue.t → ValkeyClient → option ValkeyClient).
(** Whether the reply was handled. *)
Context (handle_subscribe_response : RESPValue.t → option PromisePair → ValkeyClient → option (bool * ValkeyClient)).
Context (fail : bytes → RedisError.t → ValkeyClient → option ValkeyClient).

(** The reply to the SELECT that follows HELLO. *)
Definition handle_select_response (v : RESPValue.t) (c : ValkeyClient) : option ValkeyClient :=
  match v with
  | RESPValue.Error err_str => fail err_str RedisError.InvalidCommand c
  | RESPValue.SimpleString ok_str =>
      if negb (bool_decide (ok_str = bs "OK")) then
        fail (bs "SELECT command failed with non-OK response") RedisError.InvalidResponse c
      else send_next_command c
  | _ => fail (bs "Received non-SELECT response while in the SELECT state.") RedisError.InvalidResponse c
  end.

(** Whether a reply takes the promise at the head of [in_flight]. *)
Definition should_consume_promise_pair (v : RESPValue.t) (c : ValkeyClient) : bool :=
  match v with
  | RESPValue.Push (RESPValue.mkPush kind _) =>
      match SubscriptionPushMessage.from_bytes kind with
      | Some SubscriptionPushMessage.Message | Some SubscriptionPushMessage.PatternMessage => false
      | Some SubscriptionPushMessage.Subscribe | Some SubscriptionPushMessage.Unsubscribe =>
          match in_flight c with
          | front :: _ => contains (pair_meta front) SUBSCRIPTION_REQUEST
          | [] => false
          end
      | None => SubscriptionPushMessage.is_reply_kind kind
      end
  | _ => true
  end.

(** The value a promise is settled with: EXISTS and the like answer a number that
    stands for a boolean. *)
Definition transform (m : Z) (v : RESPValue.t) : RESPValue.t :=
  match v with
  | RESPValue.Integer int_value => if contains m RETURN_AS_BOOL then RESPValue.Boolean (0 <? int_value) else v
  | _ => v
  end.

Definition settlement (m : Z) (v : RESPValue.t) : Settled :=
  let v := transform m v in
  match v with
  | RESPValue.Error _ => Rejected v
  | _ => Resolved v
  end.

(** The regular handler. *)
Definition settle_pair (v : RESPValue.t) (pair_maybe : option PromisePair) (c : ValkeyClient) : option ValkeyClient :=
  match pair_maybe with
  | None => Some c
  | Some p => Some (settle (promise (pair_promise p)) (settlement (pair_meta p) v) c)
  end.

Definition handle_response (v : RESPValue.t) (c : ValkeyClient) : option ValkeyClient :=
  if negb (bool_decide (status c = Connected)) then handle_hello_response v c
  else if is_selecting_db_internal (flags c) then
    let f := flags c in
    handle_select_response v
      (set_flags (mkFlags false (enable_offline_queue f) (failed f) (enable_auto_pipelining f)) c)
  else
    let '(pair_maybe, c) :=
      if should_consume_promise_pair v c then
        match in_flight c with
        | p :: l => (Some p, set_in_flight l c)
        | [] => (None, c)
        end
      else (None, c) in
    let request_is_subscribe :=
      match pair_maybe with Some p => contains (pair_meta p) SUBSCRIPTION_REQUEST | None => false end in
    if is_subscriber c || request_is_subscribe then
      match v with
      | RESPValue.Error err =>
          if is_subscriber c then fail err RedisError.ServerError c else settle_pair v pair_maybe c
      | RESPValue.Push (RESPValue.mkPush kind _) =>
          match SubscriptionPushMessage.from_bytes kind with
          | Some _ =>
              '(handled, c) ← handle_subscribe_response v pair_maybe c;
              if handled : bool then Some c else settle_pair v pair_maybe c
          | None => fail (bs "Unexpected push message kind without promise") RedisError.InvalidResponseType c
          end
      | _ => settle_pair v pair_maybe c
      end
    else settle_pair v pair_maybe c.
End pipeline.
