(* ===== verification/ValkeyPipelineFacts.v ===== *)
(** * The client's queues: every reply settles the promise of its own command

    The runs of a connected client: scripts send commands, the deferred flush and
    the socket's callbacks move them to the socket, which takes as many bytes as it
    likes, and the server answers, in order, commands it has received in full. *)

From S2P Require Import Prelude BunStrings ValkeyProtocol ValkeyReaderFacts ValkeyCommand ValkeyData ValkeyPipeline.

#[local] Open Scope Z_scope.

Section facts.
Context `{F : Float64} (accepts : nat → bytes → Z).
Context (accepts_at_most : ∀ n b, accepts n b <= len b).

Definition pair_of (e : Entry) : PromisePair := mkPair (entry_meta e) (entry_promise e).
Definition wire (l : list Entry) : bytes := concat (map serialized_data l).
Definition answer (e : Entry) (v : RESPValue.t) : Z * Settled := (promise (entry_promise e), settlement (entry_meta e) v).

(** A connection that is up: HELLO and SELECT are answered, there is no
    subscription. *)
Record up (c : ValkeyClient) : Prop := {
  up_status : status c = Connected;
  up_selecting : is_selecting_db_internal (flags c) = false;
  up_failed : failed (flags c) = false;
  up_subscriber : is_subscriber c = false }.

(** [accepted] are the commands in the order they were given to the client, and
    [replies] the replies so far. *)
Record queues (accepted : list Entry) (replies : list RESPValue.t) (c : ValkeyClient)
    (answered flying : list Entry) : Prop := {
  q_up : up c;
  q_accepted : accepted = answered ++ flying ++ queue c;
  q_replies : length answered = length replies;
  q_flying : in_flight c = map pair_of flying;
  q_buffer : list_ok (len (wire (answered ++ flying))) (write_buffer c);
  q_wire : sent c ++ content_of (write_buffer c) = wire (answered ++ flying);
  q_received : wire answered `prefix_of` sent c;
  q_settled : settled c = zip_with answer answered replies;
  q_alone : Forall (λ e, pipelines (entry_meta e) = true) (tail flying);
  q_data : Forall (λ e, serialized_data e ≠ []) accepted }.

Definition ok (accepted : list Entry) (replies : list RESPValue.t) (c : ValkeyClient) : Prop :=
  ∃ answered flying, queues accepted replies c answered flying.

Lemma wire_app l k : wire (l ++ k) = wire l ++ wire k.
Proof. unfold wire. by rewrite map_app, concat_app. Qed.

Lemma wire_one e : wire [e] = serialized_data e.
Proof. unfold wire. cbn. by rewrite app_nil_r. Qed.

Lemma ready_up c : up c → connection_ready c = true.
Proof. intros []. unfold connection_ready. by rewrite bool_decide_eq_true_2, up_selecting0. Qed.

Ltac client := cbn [status flags write_buffer in_flight queue registered is_subscriber sent writes settled
  set_write_buffer set_in_flight set_queue set_registered set_flags settle write_data push_in_flight
  register_auto_flusher] in *.

(** A change of the client that keeps the queues. *)
Lemma ok_registered acc rep b c : ok acc rep c → ok acc rep (set_registered b c).
Proof. intros (a & f & [[]]). exists a, f. by split; [split|..]. Qed.

(** The write buffer holds no more than was written. *)
Lemma ok_buffer acc rep c : ok acc rep c → list_ok (len (wire acc)) (write_buffer c).
Proof.
  intros (a & f & [? -> ? ? [Hh Hl]]). split; [done|]. rewrite app_assoc, wire_app, len_app.
  pose proof (len_nonneg (wire (queue c))). lia.
Qed.

(** The socket takes the beginning of the bytes. *)
Lemma socket_write_eq b c :
  let '(wrote, c') := socket_write accepts b c in
  wrote <= len b ∧
  c' = mkClient (status c) (flags c) (write_buffer c) (in_flight c) (queue c) (registered c) (is_subscriber c)
         (sent c ++ take (Z.to_nat wrote) b) (S (writes c)) (settled c).
Proof. unfold socket_write. split; [apply accepts_at_most|done]. Qed.

(** [c'] has the same queues as [c]. *)
Definition same_queues (c c' : ValkeyClient) : Prop :=
  queue c' = queue c ∧ in_flight c' = in_flight c ∧ registered c' = registered c ∧ flags c' = flags c ∧ status c' = status c.

Lemma flush_data_ok acc rep c :
  ok acc rep c → len (wire acc) <= isize_MAX → ∃ b c', flush_data accepts c = Some (b, c') ∧ ok acc rep c' ∧ same_queues c c'.
Proof.
  intros Hok Hn. pose proof (ok_buffer _ _ _ Hok) as Hb. unfold flush_data. rewrite (remaining_ok (len (wire acc))) by done.
  cbn [mbind option_bind].
  destruct (content_of (write_buffer c)) as [|x t] eqn:Ec; [by eexists _, _|]. rewrite <- Ec.
  pose proof (socket_write_eq (content_of (write_buffer c)) c) as Hs.
  destruct (socket_write accepts _ c) as [wrote c1]. destruct Hs as [Hw ->].
  set (c1 := mkClient _ _ _ _ _ _ _ _ _ _).
  set (c2 := if 0 <? wrote then set_write_buffer (consume wrote (write_buffer c1)) c1 else c1).
  assert (ok acc rep c2 ∧ same_queues c c2) as [Hok2 Hq].
  { unfold c2. destruct (Z.ltb_spec 0 wrote) as [Hpos|Hneg].
    - split; [|done]. destruct Hok as (a & f & [[] Hacc ? ? Hb0]). exists a, f.
      assert (len (wire (a ++ f)) <= isize_MAX) as Hm
        by (rewrite Hacc, app_assoc, wire_app, len_app in Hn; pose proof (len_nonneg (wire (queue c))); lia).
      destruct (list_consume_ok _ wrote (write_buffer c) Hb0 Hm ltac:(lia)) as [Hb' Hc'].
      split; try done; unfold c1; client.
      + rewrite Hc', <- app_assoc. by rewrite take_drop.
      + by apply prefix_app_r.
    - assert (take (Z.to_nat wrote) (content_of (write_buffer c)) = []) as Ht by (by replace (Z.to_nat wrote) with 0%nat by lia).
      split; [|done]. destruct Hok as (a & f & [[]]). exists a, f.
      split; try done; unfold c1; client; by rewrite Ht, app_nil_r. }
  pose proof (ok_buffer _ _ _ Hok2) as [Hh _]. unfold list_len.
  rewrite (proj2 (Z.leb_le _ _)) by lia. cbn [mbind option_bind]. eauto.
Qed.

(** A command moves from the queue to the wire: what the socket does not take goes
    behind what is buffered. *)
Lemma move_ok acc rep c e q taken left buf :
  ok acc rep c → queue c = e :: q → (in_flight c = [] ∨ pipelines (entry_meta e) = true) →
  serialized_data e = taken ++ left → (taken = [] ∨ content_of (write_buffer c) = []) →
  byte_list buf = byte_list (write_buffer c) ++ left → head buf = head (write_buffer c) →
  ∀ w, ok acc rep (mkClient (status c) (flags c) buf (in_flight c ++ [pair_of e]) q (registered c) (is_subscriber c)
         (sent c ++ taken) w (settled c)).
Proof.
  intros (a & f & [[] Hacc Hrep Hfl Hb Hw Hr Hs Ha Hd]) Hq Hp He Ht Hbuf Hhead w. exists a, (f ++ [e]).
  assert (buf = list_write left (write_buffer c)) as -> by (destruct buf; unfold list_write; cbn in *; congruence).
  destruct (write_ok _ left (write_buffer c) Hb) as [Hb' Hc']. split; client; try done.
  - by rewrite Hacc, Hq, <- !app_assoc.
  - by rewrite Hfl, map_app.
  - rewrite (app_assoc a f), (wire_app (a ++ f)), wire_one, He, !len_app in *. pose proof (len_nonneg taken).
    destruct Hb' as [? Hl]. split; [done|]. lia.
  - rewrite Hc', (app_assoc a f), (wire_app (a ++ f)), wire_one, He, <- Hw, <- !app_assoc. f_equal.
    destruct Ht as [->| ->]; [done|by rewrite app_nil_l].
  - by apply prefix_app_r.
  - destruct f as [|e' f]; [done|]. cbn in *. apply Forall_app. split; [done|].
    constructor; [|done]. destruct Hp as [Hp|]; [by rewrite Hfl in Hp|done].
Qed.

Lemma move_buffered acc rep c e q :
  ok acc rep c → queue c = e :: q → (in_flight c = [] ∨ pipelines (entry_meta e) = true) →
  ok acc rep (write_data (serialized_data e) (push_in_flight (entry_meta e) (entry_promise e) (set_queue q c))).
Proof.
  intros Hok Hq Hp. pose proof (move_ok acc rep c e q [] (serialized_data e) (list_write (serialized_data e) (write_buffer c))
    Hok Hq Hp eq_refl ltac:(by left) eq_refl eq_refl (writes c)) as H. by rewrite app_nil_r in H.
Qed.

Lemma drain_ok acc rep c :
  ok acc rep c →
  ∃ b c', drain accepts c = Some (b, c') ∧ ok acc rep c' ∧ registered c' = registered c ∧
    ((in_flight c = [] → queue c ≠ [] → in_flight c' ≠ []) ∧ (in_flight c ≠ [] → in_flight c' ≠ [])).
Proof.
  intros Hok. assert (up c) as Hup by (by destruct Hok as (? & ? & [])). unfold drain.
  destruct (match in_flight c with [] => false | _ => _ end) eqn:Eblocked.
  { eexists _, _. split; [done|]. split; [done|]. split; [done|]. split; [|done]. intros H. by rewrite H in Eblocked. }
  destruct (queue c) as [|e q] eqn:Eq.
  { by eexists _, _. }
  assert (in_flight c = [] ∨ pipelines (entry_meta e) = true) as Hp.
  { destruct (in_flight c); [by left|]. right. by apply negb_false_iff. }
  set (c1 := push_in_flight _ _ _). assert (in_flight c1 ≠ []) as Hne by (unfold c1; client; by destruct (in_flight c)).
  change (write_buffer c1) with (write_buffer c). rewrite (remaining_ok (len (wire acc))) by (by eapply ok_buffer).
  cbn [mbind option_bind]. rewrite (ready_up c1) by (by destruct Hup). cbn [andb].
  destruct (bool_decide_reflect (content_of (write_buffer c) = [])) as [Hc|Hc].
  2: { eexists _, _. split; [done|]. split; [by apply move_buffered|]. done. }
  pose proof (socket_write_eq (serialized_data e) c1) as Hs.
  destruct (socket_write accepts _ c1) as [wrote c2]. destruct Hs as [Hw ->].
  rewrite slice_from_in by (pose proof (len_nonneg (serialized_data e)); lia). cbn [mbind option_bind].
  replace (Z.to_nat (Z.max wrote 0)) with (Z.to_nat wrote) by lia.
  pose proof (λ l buf, move_ok acc rep c e q (take (Z.to_nat wrote) (serialized_data e)) l buf Hok Eq Hp) as Hm.
  pose proof (take_drop (Z.to_nat wrote) (serialized_data e)) as Htd.
  destruct (drop (Z.to_nat wrote) (serialized_data e)) as [|x t].
  - eexists _, _. split; [done|]. split; [|done]. unfold c1. client.
    apply (Hm [] (write_buffer c)); [done|by right|by rewrite app_nil_r|done].
  - eexists _, _. split; [done|]. split; [|done]. unfold c1. client.
    apply (Hm (x :: t) (list_write (x :: t) (write_buffer c))); [done|by right|done|done].
Qed.

(** Something will happen to a command that waits: a flush is scheduled, or a reply
    is outstanding. *)
Definition cared_for (c : ValkeyClient) : Prop := queue c ≠ [] → registered c = true ∨ in_flight c ≠ [].

Lemma cared_same c c' : same_queues c c' → cared_for c → cared_for c'.
Proof. unfold cared_for. intros (-> & -> & -> & _ & _). done. Qed.

(** While nothing is in flight, nothing is buffered. *)
Lemma idle_buffer acc rep c : ok acc rep c → in_flight c = [] → content_of (write_buffer c) = [].
Proof.
  intros (a & f & [? ? ? Hfl ? Hw [y Hy] ? ? ?]) Hi. rewrite Hi in Hfl. destruct f; [|done]. rewrite app_nil_r, Hy in Hw.
  rewrite <- (app_nil_r (wire a)) in Hw at 2. rewrite <- app_assoc in Hw. apply app_inv_head in Hw.
  by apply app_eq_nil in Hw as [_ Hw].
Qed.

Lemma start_next_ok acc rep c :
  ok acc rep c → ∃ c', start_next_command accepts c = Some c' ∧ ok acc rep c' ∧ cared_for c'.
Proof.
  intros Hok. assert (up c) as Hup by (by destruct Hok as (? & ? & [])). unfold start_next_command.
  rewrite (remaining_ok (len (wire acc))) by (by eapply ok_buffer). cbn [mbind option_bind]. rewrite (ready_up c Hup), andb_true_r.
  destruct (bool_decide_reflect (content_of (write_buffer c) = [])) as [Hc|Hc].
  2: { exists c. split; [done|]. split; [done|]. intros _. right. intros Hi. apply Hc. by eapply idle_buffer. }
  destruct (queue c) as [|e q] eqn:Eq.
  { exists c. unfold cared_for, drain. rewrite Eq. by destruct (in_flight c). }
  destruct (pipelines (entry_meta e)) eqn:Ep; cbn [negb].
  { eexists. split; [done|]. split; [by apply ok_registered|]. intros _. by left. }
  destruct (in_flight c) as [|p l] eqn:Ei.
  - destruct (drain_ok acc rep c Hok) as (b & c1 & -> & Hok1 & _ & Hf & _). cbn [mbind option_bind]. eexists. split; [done|].
    specialize (Hf Ei ltac:(by rewrite Eq)). destruct (queue c1) as [|e1 q1]; [|destruct (pipelines (entry_meta e1))];
      (split; [done || by apply ok_registered|]); intros _; by right.
  - exists c. split; [done|]. split; [done|]. intros _. right. by rewrite Ei.
Qed.

(** Sending what can be sent; afterwards every waiting command is cared for. *)
Lemma send_next_ok acc rep c :
  ok acc rep c → len (wire acc) <= isize_MAX →
  ∃ c', send_next_command accepts c = Some c' ∧ ok acc rep c' ∧ cared_for c'.
Proof.
  intros Hok Hn. destruct (start_next_ok acc rep c Hok) as (c1 & E1 & Hok1 & Hc1). unfold send_next_command. rewrite E1.
  destruct (flush_data_ok acc rep c1 Hok1 Hn) as (b & c2 & E2 & Hok2 & Hq). cbn [mbind option_bind]. rewrite E2. cbn [mbind option_bind].
  exists c2. split; [done|]. split; [done|]. by eapply cared_same.
Qed.

Lemma flush_commands_ok acc rep c k :
  ok acc rep c → (k <= pipelineable_count (queue c))%nat →
  ∃ c', flush_commands k c = Some c' ∧ ok acc rep c' ∧ registered c' = registered c.
Proof.
  revert c. induction k as [|k IH]; intros c Hok Hk; cbn [flush_commands]; [eauto|].
  destruct (queue c) as [|e q] eqn:Eq; cbn [pipelineable_count] in Hk; [lia|]. destruct (pipelines (entry_meta e)) eqn:Ep; [|lia].
  destruct (IH (write_data (serialized_data e) (push_in_flight (entry_meta e) (entry_promise e) (set_queue q c)))) as (c' & E & Hok' & Hr).
  - apply move_buffered; [done..|by right].
  - client. lia.
  - eauto.
Qed.

Lemma on_auto_flush_ok acc rep c :
  ok acc rep c → len (wire acc) <= isize_MAX →
  ∃ b c', on_auto_flush accepts c = Some (b, c') ∧ ok acc rep c' ∧ cared_for c'.
Proof.
  intros Hok Hn. assert (up c) as [Hup _ _ _] by (by destruct Hok as (? & ? & [])). unfold on_auto_flush.
  rewrite bool_decide_eq_true_2 by done. cbn [negb].
  destruct (flush_commands_ok acc rep c (pipelineable_count (queue c)) Hok ltac:(done)) as (c1 & -> & Hok1 & _). cbn [mbind option_bind].
  destruct (flush_data_ok acc rep c1 Hok1 Hn) as (b & c2 & -> & Hok2 & _). cbn [mbind option_bind].
  eexists _, _. split; [done|]. split; [by apply ok_registered|]. intros Hq. left. client. by destruct (queue c2).
Qed.

(** ** A new command *)

Lemma push_queue_ok acc rep c e :
  ok acc rep c → serialized_data e ≠ [] → ok (acc ++ [e]) rep (set_queue (queue c ++ [e]) c).
Proof.
  intros (a & f & [[] Hacc ? ? ? ? ? ? ? Hd]) He. exists a, f. split; client; try done.
  - by rewrite Hacc, <- !app_assoc.
  - apply Forall_app. split; [done|]. by constructor.
Qed.

Lemma serialize_nonempty cmd : serialize cmd ≠ [].
Proof. done. Qed.

Lemma enqueue_ok acc rep c cmd p :
  let e := mkEntry (serialize cmd) (meta cmd) p in
  ok acc rep c → len (wire (acc ++ [e])) <= isize_MAX →
  ∃ c', enqueue accepts cmd p c = Some c' ∧ ok (acc ++ [e]) rep c' ∧ (cared_for c → cared_for c').
Proof.
  intros e Hok Hn. assert (up c) as Hup by (by destruct Hok as (? & ? & [])).
  pose proof (push_queue_ok acc rep c e Hok (serialize_nonempty cmd)) as Hpush. unfold enqueue. rewrite (ready_up c Hup).
  destruct Hup as [Hst _ _ _].
  destruct (queue c) as [|e0 q0] eqn:Eq; cbn [negb orb andb].
  2: { eexists. split; [done|]. case_match; (split; [done || by apply ok_registered|]).
       - intros _ _. by left.
       - intros Hc _. destruct Hc as [Hc|Hc]; [by rewrite Eq|by left|by right]. }
  rewrite andb_false_r, orb_false_r. set (can_pipeline := _ && enable_auto_pipelining _).
  client. rewrite bool_decide_eq_true_2 by done. cbn [andb].
  destruct can_pipeline; cbn [negb andb orb].
  { eexists. split; [done|]. split; [by apply ok_registered|]. intros _ _. by left. }
  rewrite !orb_false_r. destruct (in_flight c) as [|p0 l0] eqn:Ei; cbn [negb].
  - rewrite Hst. pose proof (move_buffered _ rep _ e [] Hpush) as Hm. client. rewrite ?Eq, ?Ei in Hm. specialize (Hm eq_refl ltac:(by left)).
    assert (push_in_flight (meta cmd) p (write_data (write cmd) c)
      = write_data (serialized_data e) (push_in_flight (entry_meta e) (entry_promise e) (set_queue [] (set_queue ([] ++ [e]) c)))) as ->
      by (clear -Eq; destruct c; cbn in Eq; by subst).
    destruct (flush_data_ok _ rep _ Hm Hn) as (b & c2 & -> & Hok2 & Hq). cbn [mbind option_bind].
    exists c2. split; [done|]. split; [done|]. intros _ _. right. destruct Hq as (_ & -> & _). client. by rewrite Ei.
  - eexists. split; [done|]. split; [done|]. intros _ _. right. client. by rewrite Ei.
Qed.

(** The entry of a command that a script sends. *)
Definition entry_for (cmd : Command) (id : Z) : Entry :=
  let m := check (meta cmd) cmd in mkEntry (serialize (mkCommand (command cmd) (args cmd) m)) m (mkPromise m id).

Lemma send_ok acc rep c cmd id :
  ok acc rep c → len (wire (acc ++ [entry_for cmd id])) <= isize_MAX →
  ∃ c', send accepts cmd id c = Some c' ∧ ok (acc ++ [entry_for cmd id]) rep c' ∧ (cared_for c → cared_for c').
Proof.
  intros Hok Hn. assert (up c) as [Hst _ Hf _] by (by destruct Hok as (? & ? & [])). unfold send, send_rejection.
  rewrite Hf, bool_decide_eq_true_2 by done. cbn [negb andb].
  set (cmd' := mkCommand _ _ _). destruct (enqueue_ok acc rep c cmd' (mkPromise (meta cmd') id) Hok Hn) as (c1 & -> & Hok1 & Hc1).
  cbn [mbind option_bind]. eexists. split; [done|]. case_match; (split; [done || by apply ok_registered|]); [|done].
  intros _ _. by left.
Qed.

(** ** A reply *)

Context (handle_hello_response : RESPValue.t → ValkeyClient → option ValkeyClient).
Context (handle_subscribe_response : RESPValue.t → option PromisePair → ValkeyClient → option (bool * ValkeyClient)).
Context (fail : bytes → RedisError.t → ValkeyClient → option ValkeyClient).
#[local] Abbreviation handle_response := (handle_response accepts handle_hello_response handle_subscribe_response fail).

(** A reply that is no push message. *)
Definition regular (v : RESPValue.t) : Prop := match v with RESPValue.Push _ => False | _ => True end.

(** The server has received the first [k] commands in full. *)
Definition received (k : nat) (acc : list Entry) (c : ValkeyClient) : Prop :=
  (k <= length acc)%nat ∧ wire (take k acc) `prefix_of` sent c.

Lemma in_flight_nonempty acc rep c : ok acc rep c → received (S (length rep)) acc c → in_flight c ≠ [].
Proof.
  intros (a & f & [_ Hacc Hrep Hfl _ Hw _ _ _ Hd]) [Hlen [y Hy]]. rewrite Hfl. destruct f as [|e f]; [|done]. exfalso.
  cbn [app] in Hacc. rewrite app_nil_r in Hw. destruct (queue c) as [|e q].
  { rewrite app_nil_r in Hacc. subst acc. lia. }
  replace (S (length rep)) with (length a + 1)%nat in Hy by lia. rewrite Hacc, take_app_add in Hy. cbn [take] in Hy.
  rewrite wire_app, wire_one in Hy. apply (f_equal length) in Hw, Hy. rewrite !length_app in *.
  rewrite Hacc in Hd. apply Forall_app in Hd as [_ Hd]. inversion Hd as [|? ? He]; subst.
  destruct (serialized_data e); [done|]. cbn in Hy. lia.
Qed.

Lemma handle_response_ok acc rep c v :
  ok acc rep c → regular v → received (S (length rep)) acc c →
  ∃ c', handle_response v c = Some c' ∧ ok acc (rep ++ [v]) c'.
Proof.
  intros Hok Hv Hrec. pose proof (in_flight_nonempty acc rep c Hok Hrec) as Hne.
  destruct Hok as (a & f & [[Hst Hsel Hf Hsub] Hacc Hrep Hfl Hb Hw Hr Hs Ha Hd]). unfold ValkeyPipeline.handle_response.
  rewrite bool_decide_eq_true_2, Hsel by done. cbn [negb].
  assert (should_consume_promise_pair v c = true) as -> by (by destruct v).
  destruct f as [|e f]; [by rewrite Hfl in Hne|]. rewrite Hfl. cbn [map].
  set (c1 := set_in_flight _ c). change (is_subscriber c1) with (is_subscriber c). rewrite Hsub. cbn [orb].
  assert (∃ c', settle_pair v (Some (pair_of e)) c1 = Some c' ∧ ok acc (rep ++ [v]) c') as (c' & E & Hok').
  { eexists. split; [done|]. exists (a ++ [e]), f. split; unfold c1; client; try done.
    - by rewrite Hacc, <- !app_assoc.
    - rewrite !length_app. cbn. lia.
    - by rewrite <- app_assoc.
    - by rewrite <- app_assoc.
    - destruct Hrec as [_ Hrec]. replace (S (length rep)) with (length a + 1)%nat in Hrec by lia.
      by rewrite Hacc, take_app_add in Hrec.
    - rewrite zip_with_app, <- Hs by done. done.
    - destruct f; [done|]. cbn in *. by inversion Ha. }
  exists c'. split; [|done]. rewrite <- E. destruct (contains _ _); [|done]. by destruct v.
Qed.

(** ** Runs *)

(** What happens between replies: a script sends a command, the deferred flush runs,
    the socket is writable. *)
Inductive action := Send (cmd : Command) (id : Z) | Flush | Writable.

Definition run_action (a : action) (acc : list Entry) (c : ValkeyClient) : option (list Entry * ValkeyClient) :=
  match a with
  | Send cmd id => c ← send accepts cmd id c; Some (acc ++ [entry_for cmd id], c)
  | Flush => '(_, c) ← on_auto_flush accepts c; Some (acc, c)
  | Writable => c ← on_writable accepts c; Some (acc, c)
  end.

Fixpoint run_actions (l : list action) (acc : list Entry) (c : ValkeyClient) : option (list Entry * ValkeyClient) :=
  match l with
  | [] => Some (acc, c)
  | a :: l => '(acc, c) ← run_action a acc c; run_actions l acc c
  end.

(** From the moment the connection is up, with the commands that were queued before;
    the scripts that react to a reply run before the next command is sent. *)
Inductive run : list Entry → list RESPValue.t → ValkeyClient → Prop :=
| run_start c0 c :
    up c0 → in_flight c0 = [] → write_buffer c0 = list_default → sent c0 = [] → settled c0 = [] →
    Forall (λ e, serialized_data e ≠ []) (queue c0) → send_next_command accepts c0 = Some c → run (queue c0) [] c
| run_act a acc rep c acc' c' :
    run acc rep c → run_action a acc c = Some (acc', c') → run acc' rep c'
| run_reply v l acc rep c c1 acc' c2 c3 :
    run acc rep c → regular v → received (S (length rep)) acc c →
    handle_response v c = Some c1 → run_actions l acc c1 = Some (acc', c2) → send_next_command accepts c2 = Some c3 →
    run acc' (rep ++ [v]) c3.

(** [acc'] continues [acc], and fits the address space. *)
Definition fits (acc : list Entry) : Prop := len (wire acc) <= isize_MAX.

Lemma fits_prefix acc acc' : acc `prefix_of` acc' → fits acc' → fits acc.
Proof. intros [k ->]. unfold fits. rewrite wire_app, len_app. pose proof (len_nonneg (wire k)). lia. Qed.

Lemma run_action_ok a acc rep c :
  ok acc rep c → fits (match a with Send cmd id => acc ++ [entry_for cmd id] | _ => acc end) →
  ∃ acc' c', run_action a acc c = Some (acc', c') ∧ ok acc' rep c' ∧ (cared_for c → cared_for c') ∧ acc `prefix_of` acc'.
Proof.
  intros Hok Hf. destruct a as [cmd id| |]; cbn [run_action].
  - destruct (send_ok acc rep c cmd id Hok Hf) as (c' & -> & Hok' & Hc). eexists _, _. cbn [mbind option_bind].
    split; [done|]. split; [done|]. split; [done|]. by eexists.
  - destruct (on_auto_flush_ok acc rep c Hok Hf) as (b & c' & -> & Hok' & Hc). eexists _, _. by cbn [mbind option_bind].
  - destruct (send_next_ok acc rep c Hok Hf) as (c' & E & Hok' & Hc). unfold on_writable. rewrite E. eexists _, _. by cbn [mbind option_bind].
Qed.

Lemma run_action_accepted a acc c acc' c' :
  run_action a acc c = Some (acc', c') → acc' = match a with Send cmd id => acc ++ [entry_for cmd id] | _ => acc end.
Proof.
  destruct a; cbn [run_action]; intros E; destruct_or?;
    [destruct (send accepts cmd id c)|destruct (on_auto_flush accepts c) as [[]|]|destruct (on_writable accepts c)];
    cbn [mbind option_bind] in E; congruence.
Qed.

Lemma run_action_prefix a acc c acc' c' : run_action a acc c = Some (acc', c') → acc `prefix_of` acc'.
Proof. intros ->%run_action_accepted. destruct a; [by eexists|done|done]. Qed.

Lemma run_actions_prefix l acc c acc' c' : run_actions l acc c = Some (acc', c') → acc `prefix_of` acc'.
Proof.
  revert acc c. induction l as [|a l IH]; intros acc c E; cbn [run_actions] in E; [by injection E as <- <-|].
  destruct (run_action a acc c) as [[acc1 c1]|] eqn:Ea; [|done]. cbn [mbind option_bind] in E.
  etrans; [by eapply run_action_prefix|by eapply IH].
Qed.

Lemma run_actions_ok l acc rep c acc' c' :
  ok acc rep c → run_actions l acc c = Some (acc', c') → fits acc' → ok acc' rep c'.
Proof.
  revert acc c. induction l as [|a l IH]; intros acc c Hok E Hf; cbn [run_actions] in E; [by injection E as <- <-|].
  destruct (run_action a acc c) as [[acc1 c1]|] eqn:Ea; [|done]. cbn [mbind option_bind] in E.
  pose proof (fits_prefix _ _ (run_actions_prefix _ _ _ _ _ E) Hf) as Hf1.
  destruct (run_action_ok a acc rep c Hok) as (acc2 & c2 & E2 & Hok2 & _); [by apply run_action_accepted in Ea as <-|].
  rewrite Ea in E2. injection E2 as <- <-. by eapply IH.
Qed.

Lemma run_ok acc rep c : run acc rep c → fits acc → ok acc rep c ∧ cared_for c.
Proof.
  induction 1 as [c0 c Hup Hi Hwb Hse Hst Hq E|a acc rep c acc' c' Hrun IH E|v l acc rep c c1 acc' c2 c3 Hrun IH Hv Hr E1 E2 E3];
    intros Hf.
  - destruct (send_next_ok (queue c0) [] c0) as (c' & E' & Hok & Hc); [|done|by rewrite E in E'; injection E' as ->].
    exists [], []. split; try done; rewrite ?Hwb, ?Hse; done.
  - pose proof (fits_prefix _ _ (run_action_prefix _ _ _ _ _ E) Hf) as Hf0. destruct (IH Hf0) as [Hok Hc].
    destruct (run_action_ok a acc rep c Hok) as (acc2 & c2 & E2 & Hok2 & Hc2 & _); [by rewrite <- (run_action_accepted _ _ _ _ _ E)|].
    rewrite E in E2. injection E2 as <- <-. by split; [|apply Hc2].
  - pose proof (fits_prefix _ _ (run_actions_prefix _ _ _ _ _ E2) Hf) as Hf0. destruct (IH Hf0) as [Hok _].
    destruct (handle_response_ok acc rep c v Hok Hv Hr) as (c1' & E1' & Hok1). rewrite E1 in E1'. injection E1' as <-.
    pose proof (run_actions_ok l acc _ c1 acc' c2 Hok1 E2 Hf) as Hok2.
    destruct (send_next_ok acc' _ c2 Hok2 Hf) as (c3' & E3' & Hok3 & Hc3). rewrite E3 in E3'. by injection E3' as <-.
Qed.

(** Several actions in a row. *)
Lemma run_all l acc rep c acc' c' : run acc rep c → run_actions l acc c = Some (acc', c') → run acc' rep c'.
Proof.
  revert acc c. induction l as [|a l IH]; intros acc c Hr E; cbn [run_actions] in E; [by injection E as <- <-|].
  destruct (run_action a acc c) as [[acc1 c1]|] eqn:Ea; [|done]. cbn [mbind option_bind] in E.
  eapply IH; [by eapply run_act|done].
Qed.

(** C9. Every reply settles the promise of its own command. In every run of a
    connected client whose server sends regular replies (no pushes, so no
    subscriptions), whatever the scripts send and when, however the deferred
    flushes and the socket's callbacks fall, and however few bytes the socket takes
    at a time: the promises settled so far are those of the first commands given to
    the client, in that order, each with the reply in its position; the commands in
    flight are the next ones, and the queue holds the rest; the bytes given to the
    socket and those buffered are the serializations of the commands sent, whole and
    in order; and a command that must not be pipelined is sent only when no reply
    is outstanding. *)
Theorem replies_match_commands acc rep c :
  run acc rep c → fits acc →
  ∃ answered flying,
    acc = answered ++ flying ++ queue c ∧ length answered = length rep ∧
    settled c = zip_with answer answered rep ∧
    in_flight c = map pair_of flying ∧
    sent c ++ content_of (write_buffer c) = wire (answered ++ flying) ∧
    Forall (λ e, pipelines (entry_meta e) = true) (tail flying).
Proof. intros Hrun Hf. destruct (run_ok acc rep c Hrun Hf) as [(a & f & []) _]. by exists a, f. Qed.

(** C20. No command is left behind, and nothing panics. In every run of a connected
    client whose server sends regular replies (no pushes), a command that waits in the queue has a flush scheduled or a reply
    outstanding, after which the queue is looked at again; bytes are buffered only
    while a reply is outstanding; and every operation and every reply the server may
    send is carried out. *)
Theorem no_command_left_behind acc rep c :
  run acc rep c → fits acc →
  (queue c ≠ [] → registered c = true ∨ in_flight c ≠ []) ∧
  (in_flight c = [] → content_of (write_buffer c) = []) ∧
  (∀ a, fits (match a with Send cmd id => acc ++ [entry_for cmd id] | _ => acc end) → ∃ r, run_action a acc c = Some r) ∧
  (∀ v, regular v → received (S (length rep)) acc c →
     ∃ c1 c2, handle_response v c = Some c1 ∧ send_next_command accepts c1 = Some c2).
Proof.
  intros Hrun Hf. destruct (run_ok acc rep c Hrun Hf) as [Hok Hc]. split; [done|]. split; [by eapply idle_buffer|]. split.
  - intros a Ha. destruct (run_action_ok a acc rep c Hok Ha) as (acc' & c' & -> & _). eauto.
  - intros v Hv Hr. destruct (handle_response_ok acc rep c v Hok Hv Hr) as (c1 & E1 & Hok1).
    destruct (send_next_ok acc _ c1 Hok1 Hf) as (c2 & E2 & _). eauto.
Qed.
End facts.

(** A socket that takes at most nine bytes at a time; a command that is pipelined, one
    that is not, and the reply to the first. *)
Section example.

Definition float_example : Float64 :=
  {| f64 := unit; INFINITY := tt; NEG_INFINITY := tt; NAN := tt; WTF__parseDouble := λ _, (tt, 0) |}.
#[local] Existing Instance float_example.

Definition nine (n : nat) (b : bytes) : Z := Z.min 9 (len b).
Definition up_example : ValkeyClient :=
  mkClient Connected (mkFlags false true false true) list_default [] [] false false [] 0 [].

Definition exists_cmd : Command := mkCommand (bs "EXISTS") (Raw [bs "k"]) (Z.lor Meta_default RETURN_AS_BOOL).
Definition multi_cmd : Command := mkCommand (bs "MULTI") (Raw []) Meta_default.

Definition acc_example : list Entry := [entry_for exists_cmd 1; entry_for multi_cmd 2].
Definition before_reply : ValkeyClient :=
  from_option snd up_example
    (run_actions nine [Send exists_cmd 1; Send multi_cmd 2; Flush; Writable; Writable; Writable] [] up_example).
Definition after_reply : ValkeyClient :=
  let c1 := from_option id before_reply
    (handle_response nine (λ _ c, Some c) (λ _ _ c, Some (true, c)) (λ _ _ c, Some c) (RESPValue.Integer 1) before_reply) in
  from_option id c1 (send_next_command nine c1).

Lemma example_run :
  run nine (λ _ c, Some c) (λ _ _ c, Some (true, c)) (λ _ _ c, Some c) acc_example [RESPValue.Integer 1] after_reply.
Proof.
  apply (run_reply nine _ _ _ (RESPValue.Integer 1) [] acc_example [] before_reply
    (from_option id before_reply
      (handle_response nine (λ _ c, Some c) (λ _ _ c, Some (true, c)) (λ _ _ c, Some c) (RESPValue.Integer 1) before_reply))
    acc_example
    (from_option id before_reply
      (handle_response nine (λ _ c, Some c) (λ _ _ c, Some (true, c)) (λ _ _ c, Some c) (RESPValue.Integer 1) before_reply))).
  - apply (run_all nine _ _ _ [Send exists_cmd 1; Send multi_cmd 2; Flush; Writable; Writable; Writable] [] [] up_example).
    + apply (run_start nine _ _ _ up_example up_example); [split; reflexivity|reflexivity..|constructor|vm_compute; reflexivity].
    + vm_compute. reflexivity.
  - exact I.
  - split; [vm_compute; lia|]. exists []. vm_compute. reflexivity.
  - vm_compute. reflexivity.
  - vm_compute. reflexivity.
  - vm_compute. reflexivity.
Qed.

Lemma nine_at_most n b : nine n b <= len b.
Proof. unfold nine. lia. Qed.

Lemma replies_match_commands_witness :
  settled after_reply = [(1, Resolved (RESPValue.Boolean true))] ∧
  ∃ answered flying,
    acc_example = answered ++ flying ++ queue after_reply ∧ length answered = 1%nat ∧
    settled after_reply = zip_with answer answered [RESPValue.Integer 1] ∧
    in_flight after_reply = map pair_of flying ∧
    sent after_reply ++ content_of (write_buffer after_reply) = wire (answered ++ flying) ∧
    Forall (λ e, pipelines (entry_meta e) = true) (tail flying).
Proof.
  split; [vm_compute; reflexivity|].
  apply (replies_match_commands nine nine_at_most (λ _ c, Some c) (λ _ _ c, Some (true, c)) (λ _ _ c, Some c)
    acc_example [RESPValue.Integer 1] after_reply example_run).
  vm_compute. discriminate.
Defined.

Lemma no_command_left_behind_witness :
  (queue before_reply ≠ [] → registered before_reply = true ∨ in_flight before_reply ≠ []) ∧ queue before_reply ≠ [].
Proof.
  split; [|vm_compute; discriminate].
  apply (no_command_left_behind nine nine_at_most (λ _ c, Some c) (λ _ _ c, Some (true, c)) (λ _ _ c, Some c)
    acc_example [] before_reply).
  - apply (run_all nine _ _ _ [Send exists_cmd 1; Send multi_cmd 2; Flush; Writable; Writable; Writable] [] [] up_example).
    + apply (run_start nine _ _ _ up_example up_example); [split; reflexivity|reflexivity..|constructor|vm_compute; reflexivity].
    + vm_compute. reflexivity.
  - vm_compute. discriminate.
Defined.
End example.
